(* ===== verification/_CoqProject ===== *)
-Q . S2P
Prelude.v
Str.v
F64.v
Core.v
Waker.v
WakerInv.v
WakerProps.v
WakerCount.v
WakerOrigin.v
InFlight.v
Json.v
Net.v
Config.v
Http.v
TrafficProbe.v
Ifaces.v
Sequential.v
Trace.v
Toy.v
Controller.v
Nomad.v
Consul.v
JobMutator.v
Redis.v
Activity.v
Durable.v
Registry.v
Etcd.v
Proxy.v
Handler.v
System.v
Contacts.v
Events.v
Lifecycle.v
Admin.v
AdminRoutes.v
Main.v
Restore.v
TestsPure.v
TestsHttp.v
TestsWake.v
Conformance.v
