(* ===== verification/Prelude.v ===== *)
(** * nscale: scale-to-zero for Nomad, a verification development

    nscale keeps the jobs of a Nomad cluster scaled to zero while nobody uses
    them.  Its proxy receives the requests of all managed services, wakes the
    job a request is for, waits until it is healthy, passes the request on, and
    records the job's activity in Redis; a periodic controller scales jobs to
    zero that have been idle for long enough; Nomad's event stream, an admin API
    and an optional durable registry in etcd complete it.  This development
    models the Rust crates under [src/crates] and the binary of
    [src/src/main.rs], and proves what makes each part correct, and what they
    guarantee together.

    ** How the program is modelled

    An effectful function is a function on a world ([ST], [M] below), composed
    with [let*], [let?] (the [?] operator), [do*] and [do?].  What the program
    only calls is a class of methods on that world: the HTTP client ([Http]),
    Redis ([Redis]), etcd ([Etcd]), the clock, the timer, the event source.  A
    theorem that quantifies over the instances covers every reply of a service
    and everything other tasks do to the world during a call.  Where a theorem
    needs to know what a service does, a class of laws states its documented
    behaviour ([RedisLaws], [EtcdLaws], [JsonTextLaws], [TimePasses],
    [SystemTimeLaws]), with a concrete instance that satisfies them.  The
    components meet at the traits of [nscale-core] ([Core]) and at the classes of
    [Ifaces]; [Trace] records every call made through them, so a safety property
    of a handler is a statement about its list of calls ([emits]).  Logging is
    left out everywhere.

    ** The files

    - [Prelude]: results, state passing, traces and their proof rules, machine
      integers, tactics, generic lemmas.  [Str] and [F64]: the string functions,
      [f64] arithmetic and number parsing of the standard library.  [Json] and
      [Http]: [serde_json] values with the readers [serde] derives, requests and
      responses.
    - [Core]: [nscale-core]'s [error.rs], [job.rs] and [traits.rs].
    - [Net], [Config]: socket addresses and hexadecimal numbers as the standard
      library reads and writes them; [nscale-core]'s [config.rs].  A
      configuration is read back as written, what loads is well typed, and the
      environment overrides the file and the file the defaults, setting by
      setting.
    - [Waker], [WakerInv], [WakerProps]: [nscale-waker]'s [coordinator.rs] and
      [state.rs].  Requests, wake tasks, health waits, [mark_dormant],
      [invalidate] and [refresh_endpoint] are threads; one step is one access to
      a shared map, atomic or channel, or one reply of an awaited call; every
      interleaving is an execution.  Theorems: one [scale_up] per job for
      concurrent requests, every waking state has a live waker, bounded
      concurrency, no deadlock, a ready job is cached; and two executions in
      which the code does less than it says ([missed_wake_up],
      [overlapping_wakes]).
    - [WakerOrigin]: every outcome, cached endpoint and report of an execution
      is traced to what the outside world told a thread of the same job; a
      report reaches every request waiting on its wake, and only a wake nobody
      waits on is abandoned.
    - [Sequential]: the coordinator called by one client at a time.  Each method,
      run to its end, implements a specification on the map of awake jobs
      ([Awake]); a run is an execution of [Waker].
    - [InFlight]: [inflight.rs]; the counters are cells shared by the tracker and
      its guards.  The count of a job is the number of its live guards.
    - [TrafficProbe]: [traffic_probe.rs]; the metrics parser reads back what a
      printer of the format writes.
    - [Ifaces], [Trace], [Toy]: the interfaces, the recorder of calls, and a
      concrete world for the witnesses.
    - [Controller]: [nscale-scaler]'s [controller.rs].  A scale-down is preceded
      by every guard; a registration is dropped only for a job reported missing
      up to the threshold; a tick works only under the lock.
    - [Nomad], [JobMutator], [Events]: [nscale-nomad]'s [client.rs] and
      [models.rs] (how replies become errors, which endpoint is taken),
      [job_mutator.rs] (every router of a managed service is routed to nscale,
      once; injecting twice is injecting once), [events.rs] (the frames do not
      depend on how the stream is cut into chunks) and [nscale-scaler]'s
      [event_processor.rs].
    - [Consul]: [nscale-consul]; the wait for a healthy instance returns a real
      one and ends by its deadline.
    - [Redis], [Activity], [Durable], [Registry]: the commands of Redis, and
      [nscale-store]'s [activity.rs] (the lock excludes, idle detection is exact
      on whole seconds), [auto_deregister.rs] (the counter counts consecutive
      misses) and [registry.rs], which refines a specification in finite maps
      ([Registry.Spec]) from which its round trip and the effect of deregister
      follow.  [Durable] is the contract of the durable registry, [Etcd]
      ([nscale-etcd]) the client that keeps it.
    - [Proxy], [Handler]: [nscale-proxy]'s [proxy.rs], [middleware.rs] and
      [handler.rs].  Every request to a backend is sent under an in-flight guard
      that is dropped exactly once, retries are bounded and only for GET and
      HEAD, every status has its cause.
    - [System]: the proxy, the controller, the coordinator's specification and
      the in-flight tracker on one world.  Requests leave the in-flight counts as
      they found them, go only to endpoints of jobs held awake, and wake a job
      again that was scaled down under its own name; under an alias they do not
      ([alias_stays_awake]).
    - [Lifecycle]: on the same world, a tick of the controller spares a job with
      a live guard (under its own name: [alias_in_flight_is_scaled_down]), and a
      job whose allocation stopped is woken again by the next request.
    - [Admin], [AdminRoutes]: the handlers of [main.rs] and the router in front
      of them; a purge respects requests in flight, a submitted job is the
      rewritten one and is registered after Nomad has it, a GET or HEAD request
      changes nothing, and a POST request only adds.
    - [Main], [Restore]: [main] itself.  Connecting ends after thirty attempts,
      every exit and panic has its cause, the durations and permits handed to
      the components are in range, a request is recorded under the name it is
      looked up by; and start-up, the registry and the etcd client together
      restore a lost cache.
    - [TestsPure], [TestsHttp], [TestsWake], [Conformance]: the repository's unit
      tests, with their inputs and assertions, evaluated on the definitions
      above: a check of the model against what the program is known to do.

    ** Fuel and bounds

    The loops that wait for the outside world take fuel: [Consul.wait_loop]
    ([wait_terminates] bounds what it needs by the deadline), [Controller.run],
    [Events.consume] and [Events.event_stream_loop] (which run until cancelled;
    fuel is the number of rounds observed).  [Main.connect_store] is run with
    the thirty rounds of its retry limit and never uses them up
    ([connecting_is_bounded]).  [Sequential.drive] is run with more steps than a
    thread takes without interference.  [Events.drain] runs on the length of
    its buffer, which exceeds its number of lines ([drain_fuel]).  Machine
    integers are kept at their width where they can wrap or be refused: the
    in-flight counters (64 bits), ports (16 bits), the missing-job counter (32
    bits), the lock's time to live ([i64]), the settings (32 and 64 bits), and
    the sums and limits that panic ([Main.duration_add], [Main.MAX_PERMITS]).

    ** What is not modelled

    Logging; figment's parsing of files and variables; how axum matches a path
    against the admin table and decodes what a handler extracts (the class
    [AdminRoutes.Framework]); TLS and connection pools of the clients; bodies as
    streams (a body is its bytes; when it is read is discussed where it matters);
    the bytes of a WebSocket tunnel; the activity layer's [poll_ready], which
    asks the inner service; conversions of the name types and constructors that
    only store their arguments; and scheduling other than the interleavings of
    [Waker].  [lock.rs] of [nscale-store] is a comment, and the crates' [lib.rs]
    declare modules. *)

From stdpp Require Export base tactics gmap strings list fin_maps pretty.
From Stdlib Require Export ZArith Lia.

(** ** Results

    Rust's [Result<A, E>], with the error last as the code reads it. *)
Inductive res (E A : Type) : Type :=
| Ok (a : A)
| Err (e : E).
Arguments Ok {E A} _.
Arguments Err {E A} _.

Definition res_map {E A B} (f : A -> B) (r : res E A) : res E B :=
  match r with Ok a => Ok (f a) | Err e => Err e end.

Definition res_map_err {E F A} (f : E -> F) (r : res E A) : res F A :=
  match r with Ok a => Ok a | Err e => Err (f e) end.

Definition res_bind {E A B} (r : res E A) (f : A -> res E B) : res E B :=
  match r with Ok a => f a | Err e => Err e end.

(** [Option::ok_or_else]. *)
Definition ok_or {E A} (e : E) (o : option A) : res E A :=
  match o with Some a => Ok a | None => Err e end.

Definition is_ok {E A} (r : res E A) : bool :=
  match r with Ok _ => true | Err _ => false end.

#[global] Instance res_eq_dec {E A} `{EqDecision E, EqDecision A} : EqDecision (res E A).
Proof. solve_decision. Defined.

(** ** State passing

    An effectful function of the program is a function on the world [W] it
    runs in.  A method of a service the program only calls is a function of
    the same type, so a theorem that quantifies over all of them covers every
    reply the service can give and every change other tasks make to the world
    while the call is awaited. *)
Definition ST (W A : Type) : Type := W -> A * W.

Definition ret {W A} (a : A) : ST W A := fun w => (a, w).

Definition bind {W A B} (m : ST W A) (k : A -> ST W B) : ST W B :=
  fun w => let '(a, w') := m w in k a w'.

(** The [?] operator: an error returns from the enclosing function. *)
Definition try {W E A B} (m : ST W (res E A)) (k : A -> ST W (res E B))
    : ST W (res E B) :=
  bind m (fun r => match r with Ok a => k a | Err e => ret (Err e) end).

(** [map_err] on the result of a call. *)
Definition map_err {W E F A} (f : E -> F) (m : ST W (res E A)) : ST W (res F A) :=
  bind m (fun r => ret (res_map_err f r)).

Declare Scope st_scope.
Delimit Scope st_scope with st.
Notation "'let*' x := m 'in' k" := (bind m (fun x => k))
  (at level 10, x name, m at level 200, k at level 200) : st_scope.
Notation "'let?' x := m 'in' k" := (try m (fun x => k))
  (at level 10, x name, m at level 200, k at level 200) : st_scope.
Notation "'do*' m 'in' k" := (bind m (fun _ => k))
  (at level 10, m at level 200, k at level 200) : st_scope.
Notation "'do?' m 'in' k" := (try m (fun _ => k))
  (at level 10, m at level 200, k at level 200) : st_scope.

Fixpoint for_each {W A} (f : A -> ST W unit) (l : list A) : ST W unit :=
  match l with
  | [] => ret tt
  | x :: l' => bind (f x) (fun _ => for_each f l')
  end.

(** A loop body that may return early with an error. *)
Fixpoint try_for_each {W E A} (f : A -> ST W (res E unit)) (l : list A)
    : ST W (res E unit) :=
  match l with
  | [] => ret (Ok tt)
  | x :: l' => try (f x) (fun _ => try_for_each f l')
  end.

(** A component with a state of its own: [S * W] is its state and the rest of
    the world. *)
Definition lift {S W A} (m : ST W A) : ST (S * W) A :=
  fun sw => let '(a, w) := m sw.2 in (a, (sw.1, w)).
Definition get_st {S W} : ST (S * W) S := fun sw => (sw.1, sw).
Definition modify_st {S W} (f : S -> S) : ST (S * W) unit := fun sw => (tt, (f sw.1, sw.2)).

(** ** Call traces

    [Traced Ev W] is a world together with the list of calls made so far.
    [traced] turns a method of [W] into one that also records itself with its
    reply, so a safety property of a handler is a statement about the list its
    run leaves, for every possible implementation of the methods. *)
Record Traced (Ev W : Type) : Type := mkTraced { base : W; trace : list Ev }.
Arguments mkTraced {Ev W} _ _.
Arguments base {Ev W} _.
Arguments trace {Ev W} _.

Definition traced {Ev W A} (ev : A -> Ev) (m : ST W A) : ST (Traced Ev W) A :=
  fun t => let '(a, w') := m (base t) in (a, mkTraced w' (trace t ++ [ev a])).

(** Worlds that carry a trace: a traced world, and one with a component's own
    state in front. *)
Class Tracing (Ev W : Type) := trace_of : W -> list Ev.
#[export] Instance tracing_traced {Ev W} : Tracing Ev (Traced Ev W) := trace.
#[export] Instance tracing_state {Ev S W} `{Tracing Ev W} : Tracing Ev (S * W) :=
  fun sw => trace_of sw.2.

(** [emits m P]: whatever the world, a run of [m] appends a list [tr] of calls
    and returns [a] with [P tr a]. *)
Definition emits {Ev W A} `{Tracing Ev W} (m : ST W A) (P : list Ev -> A -> Prop) : Prop :=
  forall w, exists tr, trace_of (snd (m w)) = trace_of w ++ tr /\ P tr (fst (m w)).

(** [within R m]: a run of [m] takes every world to an [R]-related one.  For a
    preorder [R] it is enough that every call does. *)
Definition within {W A} (R : W -> W -> Prop) (m : ST W A) : Prop := forall w, R w (m w).2.

(** ** Machine integers *)
Definition wrap (bits x : Z) : Z := (x mod 2 ^ bits)%Z.
Definition u8_max : Z := 255.
Definition u16_max : Z := 65535.
Definition u32_max : Z := 4294967295.
Definition u64_modulus : Z := 18446744073709551616.
Definition u64_max : Z := 18446744073709551615.

(** ** Tactics *)

(** Split every match of the goal and of the hypotheses on its scrutinee. *)
Ltac split_matches :=
  repeat first
    [ progress simplify_eq/=
    | match goal with
      | H : context [match ?x with _ => _ end] |- _ => destruct x eqn:?
      | |- context [match ?x with _ => _ end] => destruct x eqn:?
      end ].

(** Run the calls of a state-passing function one at a time. *)
Ltac run_calls :=
  repeat match goal with
    | |- context [let '(_, _) := ?m ?w in _] =>
        let r := fresh "r" in let w' := fresh "w" in destruct (m w) as [r w'] eqn:?
    | H : context [let '(_, _) := ?m ?w in _] |- _ =>
        let r := fresh "r" in let w' := fresh "w" in destruct (m w) as [r w'] eqn:?
    end.

(** ** Generic lemmas *)

Section st_laws.
Context {W : Type}.

Lemma bind_ret_l {A B} (a : A) (k : A -> ST W B) w : bind (ret a) k w = k a w.
Proof. done. Qed.

Lemma bind_ret_r {A} (m : ST W A) w : bind m ret w = m w.
Proof. unfold bind. by destruct (m w). Qed.

Lemma bind_assoc {A B C} (m : ST W A) (k : A -> ST W B) (h : B -> ST W C) w :
  bind (bind m k) h w = bind m (fun a => bind (k a) h) w.
Proof. unfold bind. by destruct (m w). Qed.

Lemma bind_run {A B} (m : ST W A) (k : A -> ST W B) w a w' :
  m w = (a, w') -> bind m k w = k a w'.
Proof. unfold bind. by intros ->. Qed.

Lemma try_ok {E A B} (m : ST W (res E A)) (k : A -> ST W (res E B)) w a w' :
  m w = (Ok a, w') -> try m k w = k a w'.
Proof. unfold try, bind. by intros ->. Qed.

Lemma try_err {E A B} (m : ST W (res E A)) (k : A -> ST W (res E B)) w e w' :
  m w = (Err e, w') -> try m k w = (Err e, w').
Proof. unfold try, bind. by intros ->. Qed.

Lemma try_inv {E A B} (m : ST W (res E A)) (k : A -> ST W (res E B)) w b w' :
  try m k w = (Ok b, w') -> exists a w1, m w = (Ok a, w1) /\ k a w1 = (Ok b, w').
Proof. unfold try, bind. destruct (m w) as [[a|e] w1]; [eauto|done]. Qed.

Lemma map_err_ok {E F A} (f : E -> F) (m : ST W (res E A)) w a w' :
  map_err f m w = (Ok a, w') <-> m w = (Ok a, w').
Proof.
  unfold map_err, bind, ret. destruct (m w) as [[]]; simpl; split; intros; by simplify_eq.
Qed.

End st_laws.

Section emits_rules.
Context {Ev W : Type} `{Tracing Ev W}.

Lemma emits_ret {A} (a : A) (P : list Ev -> A -> Prop) : P [] a -> emits (W:=W) (ret a) P.
Proof. intros HP w. exists []. by rewrite app_nil_r. Qed.

Lemma emits_bind {A B} (m : ST W A) (k : A -> ST W B) P (Q : list Ev -> B -> Prop) :
  emits m P ->
  (forall tr a, P tr a -> emits (k a) (fun tr' b => Q (tr ++ tr') b)) ->
  emits (bind m k) Q.
Proof.
  intros Hm Hk w. destruct (Hm w) as (tr & Htr & HP). unfold bind.
  destruct (m w) as [a w'] eqn:E; simpl in *.
  destruct (Hk tr a HP w') as (tr' & Htr' & HQ).
  exists (tr ++ tr'). by rewrite Htr', Htr, <- app_assoc.
Qed.

Lemma emits_mono {A} (m : ST W A) (P Q : list Ev -> A -> Prop) :
  emits m P -> (forall tr a, P tr a -> Q tr a) -> emits m Q.
Proof. intros Hm HPQ w. destruct (Hm w) as (tr & ? & ?). eauto. Qed.

Lemma emits_lift {S A} (m : ST W A) (P : list Ev -> A -> Prop) :
  emits m P -> emits (W:=S * W) (lift m) P.
Proof.
  intros Hm [s w]. destruct (Hm w) as (tr & ? & ?). exists tr.
  unfold lift. simpl. by destruct (m w).
Qed.

Lemma emits_get {S} (P : list Ev -> S -> Prop) :
  (forall s, P [] s) -> emits (W:=S * W) get_st P.
Proof. intros HP [s w]. exists []. by rewrite app_nil_r. Qed.

Lemma emits_modify {S} (f : S -> S) (P : list Ev -> unit -> Prop) :
  P [] tt -> emits (W:=S * W) (modify_st f) P.
Proof. intros HP [s w]. exists []. by rewrite app_nil_r. Qed.

Lemma emits_for_each {A} (f : A -> ST W unit) (P : Ev -> Prop) l :
  (forall x, x ∈ l -> emits (f x) (fun tr _ => Forall P tr)) ->
  emits (for_each f l) (fun tr _ => Forall P tr).
Proof.
  induction l as [|x l IH]; intros Hf; simpl.
  - by apply emits_ret.
  - eapply emits_bind; [apply Hf, elem_of_cons; by left|].
    intros tr [] Htr. eapply emits_mono; [apply IH; intros; apply Hf, elem_of_cons; by right|].
    intros. by apply Forall_app.
Qed.

End emits_rules.

Lemma emits_traced {Ev W A} (ev : A -> Ev) (m : ST W A) (P : list Ev -> A -> Prop) :
  (forall a, P [ev a] a) -> emits (traced ev m) P.
Proof.
  intros HP t. unfold traced. destruct (m (base t)) as [a w] eqn:E. by exists [ev a].
Qed.

Section within_rules.
Context {W : Type} (R : W -> W -> Prop).

Lemma within_ret `{!Reflexive R} {A} (a : A) : within R (ret a).
Proof. by intros w. Qed.

Lemma within_bind `{!Transitive R} {A B} (m : ST W A) (k : A -> ST W B) :
  within R m -> (forall a, within R (k a)) -> within R (bind m k).
Proof.
  intros Hm Hk w. unfold bind. specialize (Hm w). destruct (m w) as [a w1]. simpl in *.
  transitivity w1; [done|apply Hk].
Qed.

Lemma within_try `{!Reflexive R, !Transitive R} {E A B} (m : ST W (res E A)) (k : A -> ST W (res E B)) :
  within R m -> (forall a, within R (k a)) -> within R (try m k).
Proof. intros Hm Hk. apply within_bind; [done|]. intros [a|e]; [apply Hk|by apply within_ret]. Qed.

Lemma within_map_err `{!Reflexive R, !Transitive R} {E F A} (f : E -> F) (m : ST W (res E A)) :
  within R m -> within R (map_err f m).
Proof. intros Hm. apply within_bind; [done|]. intros r. by apply within_ret. Qed.

Lemma within_mono (R' : W -> W -> Prop) {A} (m : ST W A) :
  (forall w w', R w w' -> R' w w') -> within R m -> within R' m.
Proof. intros HR Hm w. apply HR, Hm. Qed.

End within_rules.

(** A call of the component under a state of one's own. *)
Lemma within_lift {S W A} (R : S * W -> S * W -> Prop) (Q : W -> W -> Prop) (m : ST W A) :
  (forall s w w', Q w w' -> R (s, w) (s, w')) -> within Q m -> within R (lift m).
Proof. intros HR Hm [s w]. unfold lift. simpl. specialize (Hm w). destruct (m w). by apply HR. Qed.

(** A list in which one element satisfies [P] is split at it in one way. *)
Lemma split_at_unique {A} (P : A -> bool) l1 x l2 a y b :
  forallb (fun z => negb (P z)) l1 = true -> forallb (fun z => negb (P z)) l2 = true ->
  P y = true -> l1 ++ x :: l2 = a ++ y :: b -> a = l1 /\ y = x /\ b = l2.
Proof.
  intros H1 H2 Hy. revert a. induction l1 as [|z l1 IH]; intros [|c a] Heq; simpl in *; simplify_eq.
  - done.
  - exfalso. rewrite forallb_app in H2. simpl in H2. rewrite Hy in H2. simpl in H2.
    by rewrite andb_false_r in H2.
  - rewrite Hy in H1. done.
  - apply andb_true_iff in H1 as [_ H1]. destruct (IH H1 a) as (-> & -> & ->); [done|done].
Qed.

Lemma split_at_none {A} (P : A -> bool) l a y b :
  forallb (fun z => negb (P z)) l = true -> P y = true -> l <> a ++ y :: b.
Proof.
  intros Hl Hy ->. rewrite forallb_app in Hl. simpl in Hl. rewrite Hy in Hl. simpl in Hl.
  by rewrite andb_false_r in Hl.
Qed.

Lemma wrap_small bits x : (0 <= x < 2 ^ bits)%Z -> wrap bits x = x.
Proof. intros. by apply Z.mod_small. Qed.

Lemma wrap_range bits x : (0 <= bits)%Z -> (0 <= wrap bits x < 2 ^ bits)%Z.
Proof. intros. apply Z.mod_pos_bound. lia. Qed.

Lemma wrap_wrap_add bits x y : wrap bits (wrap bits x + y) = wrap bits (x + y).
Proof. unfold wrap. by rewrite Zplus_mod_idemp_l. Qed.

Create HintDb nscale.
Create Rewrite HintDb nscale_st.
#[export] Hint Resolve emits_ret emits_traced : nscale.
#[export] Hint Rewrite @bind_ret_l @bind_assoc : nscale_st.
