(* ===== verification/Str.v ===== *)
(** * Str: the [str] operations the program uses

    A Rust [String] is its UTF-8 bytes, one [ascii] each.  Every pattern the
    program searches for is ASCII, so searching bytes finds what searching
    characters finds.  The two operations whose result depends on non-ASCII
    characters, [trim] and [to_lowercase], treat those characters by their
    UTF-8 encodings. *)

From S2P Require Import Prelude.
From Stdlib Require Import Ascii.

#[global] Arguments String.append !_ _ : simpl nomatch.

Definition chr (n : nat) : ascii := ascii_of_nat n.
Definition newline : ascii := chr 10.
Definition carriage_return : ascii := chr 13.
Definition dquote : string := String (chr 34) "".

Definition ascii_eqb (a b : ascii) : bool := bool_decide (a = b).

(** [str::starts_with], [str::strip_prefix], [str::contains]. *)
Fixpoint strip_prefix (p s : string) : option string :=
  match p, s with
  | EmptyString, _ => Some s
  | String a p', String b s' => if ascii_eqb a b then strip_prefix p' s' else None
  | String _ _, EmptyString => None
  end.

Definition starts_with (p s : string) : bool :=
  match strip_prefix p s with Some _ => true | None => false end.

Fixpoint contains (needle s : string) : bool :=
  starts_with needle s ||
  match s with EmptyString => false | String _ s' => contains needle s' end.

(** [str::split_once] and [str::rsplit_once] on one character. *)
Fixpoint split_once (c : ascii) (s : string) : option (string * string) :=
  match s with
  | EmptyString => None
  | String a s' =>
      if ascii_eqb a c then Some ("", s')
      else match split_once c s' with
           | Some (l, r) => Some (String a l, r)
           | None => None
           end
  end.

Fixpoint rsplit_once (c : ascii) (s : string) : option (string * string) :=
  match s with
  | EmptyString => None
  | String a s' =>
      match rsplit_once c s' with
      | Some (l, r) => Some (String a l, r)
      | None => if ascii_eqb a c then Some ("", s') else None
      end
  end.

(** [str::split] on one character: never empty, as the iterator yields at
    least one piece. *)
Fixpoint split_char (c : ascii) (s : string) : list string :=
  match s with
  | EmptyString => [""]
  | String a s' =>
      if ascii_eqb a c then "" :: split_char c s'
      else match split_char c s' with
           | p :: ps => String a p :: ps
           | [] => [String a ""]
           end
  end.

(** [split(c).next().unwrap_or(s)]. *)
Definition first_piece (c : ascii) (s : string) : string :=
  match split_char c s with p :: _ => p | [] => s end.

(** [str::trim_end_matches] on one character. *)
Fixpoint trim_end_char (c : ascii) (s : string) : string :=
  match s with
  | EmptyString => ""
  | String a s' =>
      match trim_end_char c s' with
      | EmptyString => if ascii_eqb a c then "" else String a ""
      | t => String a t
      end
  end.

Fixpoint str_rev_app (s acc : string) : string :=
  match s with EmptyString => acc | String a s' => str_rev_app s' (String a acc) end.
Definition str_rev (s : string) : string := str_rev_app s "".

Definition bytes_of (l : list nat) : string :=
  foldr (fun n s => String (chr n) s) "" l.

(** The characters with the Unicode [White_Space] property, encoded. *)
Definition white_space : list string :=
  bytes_of <$>
  [[9]; [10]; [11]; [12]; [13]; [32]; [194; 133]; [194; 160]; [225; 154; 128];
   [226; 128; 128]; [226; 128; 129]; [226; 128; 130]; [226; 128; 131];
   [226; 128; 132]; [226; 128; 133]; [226; 128; 134]; [226; 128; 135];
   [226; 128; 136]; [226; 128; 137]; [226; 128; 138]; [226; 128; 168];
   [226; 128; 169]; [226; 128; 175]; [226; 129; 159]; [227; 128; 128]].

(** Remove one character of [cs] from the front. *)
Fixpoint strip_one (cs : list string) (s : string) : option string :=
  match cs with
  | [] => None
  | c :: cs' => match strip_prefix c s with Some r => Some r | None => strip_one cs' s end
  end.

(** Every removal shortens the string, so its length is enough fuel. *)
Fixpoint strip_all (fuel : nat) (cs : list string) (s : string) : string :=
  match fuel with
  | O => s
  | S n => match strip_one cs s with Some r => strip_all n cs r | None => s end
  end.

Definition trim_start (s : string) : string := strip_all (String.length s) white_space s.
Definition trim_end (s : string) : string :=
  str_rev (strip_all (String.length s) (str_rev <$> white_space) (str_rev s)).

(** [str::trim]. *)
Definition trim (s : string) : string := trim_end (trim_start s).

(** [to_ascii_lowercase], [eq_ignore_ascii_case]. *)
Definition ascii_lower (a : ascii) : ascii :=
  let n := nat_of_ascii a in
  if decide (65 <= n <= 90)%nat then ascii_of_nat (n + 32) else a.

Fixpoint to_ascii_lowercase (s : string) : string :=
  match s with
  | EmptyString => ""
  | String a s' => String (ascii_lower a) (to_ascii_lowercase s')
  end.

Definition eq_ignore_ascii_case (s t : string) : bool :=
  bool_decide (to_ascii_lowercase s = to_ascii_lowercase t).

(** [str::to_lowercase], for searching an ASCII pattern in its result.  Two
    characters outside ASCII have a lower case with an ASCII letter in it: the
    Kelvin sign U+212A and the dotted capital I U+0130.  The lower case of
    every other non-ASCII character has no ASCII byte and is left as it is. *)
Fixpoint to_lowercase (s : string) : string :=
  match s with
  | EmptyString => ""
  | String a s' =>
      match s' with
      | String b s'' =>
          if bool_decide (nat_of_ascii a = 196 /\ nat_of_ascii b = 176)%nat
          then String (chr 105) (String (chr 204) (String (chr 135) (to_lowercase s'')))
          else match s'' with
               | String c s3 =>
                   if bool_decide (nat_of_ascii a = 226 /\ nat_of_ascii b = 132
                                   /\ nat_of_ascii c = 170)%nat
                   then String (chr 107) (to_lowercase s3)
                   else String (ascii_lower a) (to_lowercase s')
               | EmptyString => String (ascii_lower a) (to_lowercase s')
               end
      | EmptyString => String (ascii_lower a) ""
      end
  end.

(** [str::lines]: the pieces between newlines, a final empty one left out, a
    carriage return before the newline removed. *)
Fixpoint strip_cr (s : string) : string :=
  match s with
  | EmptyString => ""
  | String a EmptyString => if ascii_eqb a carriage_return then "" else s
  | String a s' => String a (strip_cr s')
  end.

Fixpoint drop_last_empty (ls : list string) : list string :=
  match ls with
  | [] => []
  | [l] => if bool_decide (l = "") then [] else [l]
  | l :: ls' => strip_cr l :: drop_last_empty ls'
  end.

Definition lines (s : string) : list string := drop_last_empty (split_char newline s).

(** [slice::join]. *)
Fixpoint join (sep : string) (ls : list string) : string :=
  match ls with
  | [] => ""
  | [l] => l
  | l :: ls' => l +:+ sep +:+ join sep ls'
  end.

(** Decimal [Display] of an integer. *)
Definition show_Z (z : Z) : string := pretty z.

(** [String::from_utf8_lossy]: a maximal ill-formed piece becomes U+FFFD. *)
Module Utf8.
Definition between (lo hi : nat) (a : ascii) : bool := bool_decide (lo <= nat_of_ascii a <= hi)%nat.
Definition continuation : ascii -> bool := between 128 191.
Definition second_of_three (a b : ascii) : bool :=
  (between 224 224 a && between 160 191 b) || (between 225 236 a && continuation b)
  || (between 237 237 a && between 128 159 b) || (between 238 239 a && continuation b).
Definition second_of_four (a b : ascii) : bool :=
  (between 240 240 a && between 144 191 b) || (between 241 243 a && continuation b)
  || (between 244 244 a && between 128 143 b).
Definition replacement (s : string) : string := String (chr 239) (String (chr 191) (String (chr 189) s)).

Fixpoint lossy (s : string) : string :=
  match s with
  | "" => ""
  | String a s1 =>
      if between 0 127 a then String a (lossy s1)
      else if between 194 223 a then
        match s1 with
        | String b s2 => if continuation b then String a (String b (lossy s2)) else replacement (lossy s1)
        | "" => replacement ""
        end
      else if between 224 239 a then
        match s1 with
        | String b s2 =>
            if second_of_three a b then
              match s2 with
              | String c s3 =>
                  if continuation c then String a (String b (String c (lossy s3)))
                  else replacement (lossy s2)
              | "" => replacement ""
              end
            else replacement (lossy s1)
        | "" => replacement ""
        end
      else if between 240 244 a then
        match s1 with
        | String b s2 =>
            if second_of_four a b then
              match s2 with
              | String c s3 =>
                  if continuation c then
                    match s3 with
                    | String d s4 =>
                        if continuation d then String a (String b (String c (String d (lossy s4))))
                        else replacement (lossy s3)
                    | "" => replacement ""
                    end
                  else replacement (lossy s2)
              | "" => replacement ""
              end
            else replacement (lossy s1)
        | "" => replacement ""
        end
      else replacement (lossy s1)
  end.
End Utf8.
Definition from_utf8_lossy : string -> string := Utf8.lossy.

(** Character membership, for statements. *)
Fixpoint char_in (c : ascii) (s : string) : bool :=
  match s with
  | EmptyString => false
  | String a s' => ascii_eqb a c || char_in c s'
  end.

(** The string ends with the character, for statements. *)
Definition ends_with_char (c : ascii) (s : string) : Prop := exists t, s = t +:+ String c "".

(** ** Lemmas *)

Lemma ascii_eqb_refl a : ascii_eqb a a = true.
Proof. unfold ascii_eqb. by rewrite bool_decide_eq_true_2. Qed.

Lemma ascii_eqb_eq a b : ascii_eqb a b = true <-> a = b.
Proof. unfold ascii_eqb. apply bool_decide_eq_true. Qed.

Lemma ascii_eqb_ne a b : ascii_eqb a b = false <-> a <> b.
Proof. unfold ascii_eqb. apply bool_decide_eq_false. Qed.

Ltac ascii_cases :=
  repeat match goal with
  | H : ascii_eqb ?a ?b = true |- _ => apply ascii_eqb_eq in H; try first [subst a | subst b]
  | H : ascii_eqb _ _ = false |- _ => apply ascii_eqb_ne in H
  end.

Lemma sapp_assoc (a b c : string) : (a +:+ b) +:+ c = a +:+ (b +:+ c).
Proof. induction a; simpl; congruence. Qed.

Lemma sapp_nil_r (a : string) : a +:+ "" = a.
Proof. induction a; simpl; congruence. Qed.

Lemma sapp_cons c (a b : string) : String c a +:+ b = String c (a +:+ b).
Proof. done. Qed.

Lemma sapp_inj_l (p a b : string) : p +:+ a = p +:+ b -> a = b.
Proof. induction p; simpl; intros; simplify_eq; auto. Qed.

Lemma slength_app (a b : string) :
  String.length (a +:+ b) = (String.length a + String.length b)%nat.
Proof. induction a; simpl; congruence. Qed.

Lemma sapp_inj_r (p a b : string) : a +:+ p = b +:+ p -> a = b.
Proof.
  revert b. induction a as [|c a IH]; intros [|d b] H; simpl in *; simplify_eq; auto.
  - apply (f_equal String.length) in H. simpl in H. rewrite slength_app in H. lia.
  - apply (f_equal String.length) in H. simpl in H. rewrite slength_app in H. lia.
  - f_equal. auto.
Qed.

Lemma strip_prefix_Some p s r : strip_prefix p s = Some r <-> s = p +:+ r.
Proof.
  revert s. induction p as [|a p IH]; intros [|b s]; simpl; split; intros; simplify_eq; try done.
  - destruct (ascii_eqb a b) eqn:E; [|done]. ascii_cases. f_equal. by apply IH.
  - rewrite ascii_eqb_refl. by apply IH.
Qed.

Lemma strip_prefix_app p r : strip_prefix p (p +:+ r) = Some r.
Proof. by apply strip_prefix_Some. Qed.

Lemma starts_with_spec p s : starts_with p s = true <-> exists r, s = p +:+ r.
Proof.
  unfold starts_with. destruct (strip_prefix p s) as [r|] eqn:E; split; try done.
  - intros _. exists r. by apply strip_prefix_Some.
  - intros [r ->]. by rewrite strip_prefix_app in E.
Qed.

Lemma starts_with_app p r : starts_with p (p +:+ r) = true.
Proof. apply starts_with_spec. eauto. Qed.

Lemma starts_with_refl p : starts_with p p = true.
Proof. apply starts_with_spec. exists "". by rewrite sapp_nil_r. Qed.

Lemma char_in_app c a b : char_in c (a +:+ b) = char_in c a || char_in c b.
Proof. induction a as [|x a IH]; simpl; [done|]. by rewrite IH, orb_assoc. Qed.

Lemma split_once_sound c s l r :
  split_once c s = Some (l, r) -> s = l +:+ String c r /\ char_in c l = false.
Proof.
  revert l r. induction s as [|a s IH]; intros l r H; simpl in *; [done|].
  destruct (ascii_eqb a c) eqn:E; ascii_cases; [by simplify_eq|].
  destruct (split_once c s) as [[l' r']|]; simplify_eq.
  destruct (IH l' r eq_refl) as [-> Hl']. simpl.
  split; [done|]. rewrite Hl', orb_false_r. by apply ascii_eqb_ne.
Qed.

Lemma split_once_complete c l r :
  char_in c l = false -> split_once c (l +:+ String c r) = Some (l, r).
Proof.
  induction l as [|a l IH]; simpl; intros H.
  - by rewrite ascii_eqb_refl.
  - apply orb_false_iff in H as [-> Hl]. by rewrite IH.
Qed.

Lemma split_once_None c s : split_once c s = None <-> char_in c s = false.
Proof.
  induction s as [|a s IH]; simpl; [done|].
  destruct (ascii_eqb a c) eqn:E; simpl; [done|].
  destruct (split_once c s) as [[]|]; naive_solver.
Qed.

Lemma split_char_ne_nil c s : split_char c s <> [].
Proof. destruct s; simpl; repeat case_match; done. Qed.

Lemma first_piece_eq c s :
  first_piece c s = match split_once c s with Some (l, _) => l | None => s end.
Proof.
  unfold first_piece. induction s as [|a s IH]; simpl; [done|].
  destruct (ascii_eqb a c); [done|]. pose proof (split_char_ne_nil c s).
  destruct (split_char c s) as [|p ps]; [done|].
  destruct (split_once c s) as [[l r]|]; congruence.
Qed.

(** The first piece is the longest prefix without the separator. *)
Lemma first_piece_spec c s :
  char_in c (first_piece c s) = false /\
  (s = first_piece c s \/ exists r, s = first_piece c s +:+ String c r).
Proof.
  rewrite first_piece_eq. destruct (split_once c s) as [[l r]|] eqn:E.
  - apply split_once_sound in E as [-> ?]. eauto.
  - apply split_once_None in E. eauto.
Qed.

Lemma first_piece_app c l r :
  char_in c l = false -> first_piece c (l +:+ String c r) = l.
Proof. intros. rewrite first_piece_eq. by rewrite split_once_complete. Qed.

Lemma first_piece_whole c s : char_in c s = false -> first_piece c s = s.
Proof. intros H. rewrite first_piece_eq. apply split_once_None in H. by rewrite H. Qed.

Lemma ends_with_char_cons c a s :
  s <> "" -> ends_with_char c (String a s) <-> ends_with_char c s.
Proof.
  intros Hs. split; intros [t Ht].
  - destruct t as [|b t]; simpl in Ht; simplify_eq. by exists t.
  - exists (String a t). simpl. by rewrite <- Ht.
Qed.

Lemma trim_end_char_not_end c s : ~ ends_with_char c (trim_end_char c s).
Proof.
  induction s as [|a s IH]; simpl.
  - by intros [[] ?].
  - destruct (trim_end_char c s) as [|b t] eqn:E.
    + destruct (ascii_eqb a c) eqn:Ea; ascii_cases; intros [[|? []] ?]; simpl in *; simplify_eq.
    + rewrite ends_with_char_cons by done. done.
Qed.

(** What is trimmed is a run of the character. *)
Lemma trim_end_char_split c s :
  exists t, s = trim_end_char c s +:+ t /\ forall d, char_in d t = true -> d = c.
Proof.
  induction s as [|a s (t & Ht & Hc)]; simpl.
  - by exists "".
  - destruct (trim_end_char c s) as [|b u] eqn:E; simpl in *.
    + destruct (ascii_eqb a c) eqn:Ea; ascii_cases; simpl.
      * exists (String c t). split; [by rewrite Ht at 1|].
        intros d Hd. simpl in Hd. apply orb_true_iff in Hd as [Hd|Hd]; [|by auto].
        by apply ascii_eqb_eq in Hd.
      * exists t. by rewrite Ht at 1.
    + exists t. by rewrite Ht at 1.
Qed.

Lemma trim_end_char_id c s : ~ ends_with_char c s -> trim_end_char c s = s.
Proof.
  intros Hs. destruct (trim_end_char_split c s) as (t & Ht & Hc).
  assert (t = "") as ->; [|by rewrite sapp_nil_r in Ht].
  destruct (decide (t = "")) as [->|Hne]; [done|]. exfalso. apply Hs. clear Hs.
  rewrite Ht. generalize (trim_end_char c s). intros p. clear Ht.
  revert p. induction t as [|a t IH]; intros p; [done|].
  assert (a = c) as -> by (apply Hc; simpl; by rewrite ascii_eqb_refl).
  destruct t as [|b t].
  - by exists p.
  - destruct (IH ltac:(intros d Hd; apply Hc; simpl in *; by rewrite Hd, orb_true_r)
                 ltac:(done) (p +:+ String c "")) as [q Hq].
    exists q. rewrite <- Hq, sapp_assoc. done.
Qed.

Lemma trim_end_char_head c a s t : trim_end_char c s = String a t -> exists s', s = String a s'.
Proof.
  intros H. destruct (trim_end_char_split c s) as (u & Hu & _). rewrite H in Hu. eauto.
Qed.

(** Two keys made from prefixes that agree up to a character neither has. *)
Lemma sapp_sep_inj c (a b r t : string) :
  char_in c a = false -> char_in c b = false ->
  a +:+ String c r = b +:+ String c t -> a = b /\ r = t.
Proof.
  intros Ha Hb H. pose proof (split_once_complete c a r Ha) as E1.
  rewrite H, split_once_complete in E1 by done. by simplify_eq.
Qed.

Lemma rsplit_once_sound c s l r :
  rsplit_once c s = Some (l, r) -> s = l +:+ String c r /\ char_in c r = false.
Proof.
  revert l r. induction s as [|a s IH]; intros l r H; simpl in *; [done|].
  destruct (rsplit_once c s) as [[l' r']|] eqn:E; simplify_eq.
  - by destruct (IH l' r eq_refl) as [-> ?].
  - destruct (ascii_eqb a c) eqn:Ea; simplify_eq. ascii_cases. split; [done|]. clear IH.
    revert E. induction r as [|b r IH]; simpl; [done|]. intros E.
    destruct (rsplit_once c r) as [[]|] eqn:Er; [done|].
    destruct (ascii_eqb b c); [done|]. by apply IH.
Qed.

Lemma rsplit_once_no_sep c s : char_in c s = false -> rsplit_once c s = None.
Proof.
  induction s as [|a s IH]; simpl; [done|]. intros [Ha Hs]%orb_false_iff.
  by rewrite IH, Ha.
Qed.

Lemma rsplit_once_complete c l r :
  char_in c r = false -> rsplit_once c (l +:+ String c r) = Some (l, r).
Proof.
  intros Hr. induction l as [|a l IH]; simpl.
  - by rewrite rsplit_once_no_sep, ascii_eqb_refl.
  - by rewrite IH.
Qed.

Lemma contains_app_l needle a b : contains needle a = true -> contains needle (b +:+ a) = true.
Proof.
  intros H. induction b as [|c b IH]; simpl; [done|]. by rewrite IH, orb_true_r.
Qed.

Lemma contains_spec needle s :
  contains needle s = true <-> exists a b, s = a +:+ needle +:+ b.
Proof.
  split.
  - induction s as [|c s IH]; simpl; rewrite orb_true_iff.
    + intros [[r Hr]%starts_with_spec|]; [|done]. by exists "", r.
    + intros [[r Hr]%starts_with_spec|H].
      * by exists "", r.
      * destruct (IH H) as (a & b & ->). by exists (String c a), b.
  - intros (a & b & ->). apply contains_app_l.
    pose proof (starts_with_app needle b) as Hs.
    destruct (needle +:+ b); simpl; by rewrite Hs.
Qed.

Lemma contains_starts_with needle s : starts_with needle s = true -> contains needle s = true.
Proof. intros [r ->]%starts_with_spec. apply contains_spec. by exists "", r. Qed.

Create Rewrite HintDb nscale_str.
#[export] Hint Rewrite sapp_assoc sapp_nil_r strip_prefix_app starts_with_app starts_with_refl : nscale_str.

(** ** Pieces and lines *)

Lemma split_char_app c a b : split_char c (a +:+ String c b) = split_char c a ++ split_char c b.
Proof.
  induction a as [|x a IH]; simpl; [by rewrite ascii_eqb_refl|].
  destruct (ascii_eqb x c); [by rewrite IH|]. rewrite IH.
  pose proof (split_char_ne_nil c a). by destruct (split_char c a).
Qed.

Lemma split_char_none c s : char_in c s = false -> split_char c s = [s].
Proof.
  induction s as [|x s IH]; simpl; [done|]. intros [-> Hs]%orb_false_iff. by rewrite IH.
Qed.

(** The last piece of a string that ends with [w], when [w] has no separator. *)
Lemma split_char_last c a w :
  char_in c w = false -> exists l x, split_char c (a +:+ w) = l ++ [x +:+ w].
Proof.
  intros Hw. induction a as [|y a (l & x & IH)]; simpl.
  - exists [], "". by rewrite split_char_none.
  - destruct (ascii_eqb y c).
    + exists ("" :: l), x. by rewrite IH.
    + rewrite IH. destruct l as [|p l]; simpl.
      * by exists [], (String y x).
      * by exists (String y p :: l), x.
Qed.

Lemma strip_cr_id s : ~ ends_with_char carriage_return s -> strip_cr s = s.
Proof.
  induction s as [|a s IH]; [done|]. intros H. destruct s as [|b s].
  - simpl. destruct (ascii_eqb a carriage_return) eqn:E; [|done].
    ascii_cases. exfalso. apply H. by exists "".
  - change (String a (strip_cr (String b s)) = String a (String b s)). f_equal. apply IH.
    by rewrite <- (ends_with_char_cons _ a).
Qed.

(** Lines that hold no newline and end in no carriage return are read back. *)
Lemma lines_cons l rest :
  char_in newline l = false -> ~ ends_with_char carriage_return l ->
  lines (l +:+ String newline rest) = l :: lines rest.
Proof.
  intros Hl Hcr. unfold lines. rewrite split_char_app, split_char_none by done. simpl.
  pose proof (split_char_ne_nil newline rest). destruct (split_char newline rest) as [|p ps]; [done|].
  by rewrite strip_cr_id.
Qed.

Lemma ends_with_char_app c a b : b <> "" -> ends_with_char c (a +:+ b) <-> ends_with_char c b.
Proof.
  intros Hb. induction a as [|x a IH]; simpl; [done|].
  rewrite ends_with_char_cons; [done|]. destruct a; simpl; [done|]. done.
Qed.

Lemma ends_with_char_in c s : ends_with_char c s -> char_in c s = true.
Proof. intros [t ->]. rewrite char_in_app. simpl. by rewrite ascii_eqb_refl, orb_true_r. Qed.

(** A suffix without the character [c] of [a ++ c :: n] is a suffix of [n]. *)
Lemma suffix_after c (a n t w : string) :
  char_in c w = false -> a +:+ String c n = t +:+ w -> exists u, n = u +:+ w.
Proof.
  intros Hw. revert t. induction a as [|x a IH]; intros t H.
  - destruct t as [|y t]; simpl in H.
    + subst w. simpl in Hw. by rewrite ascii_eqb_refl in Hw.
    + simplify_eq. by exists t.
  - destruct t as [|y t]; simpl in H.
    + subst w. simpl in Hw. rewrite char_in_app in Hw. simpl in Hw.
      by rewrite ascii_eqb_refl, !orb_true_r in Hw.
    + simplify_eq. by apply (IH t).
Qed.
