(* ===== verification/F64.v ===== *)
(** * F64: IEEE binary64 numbers as the program computes with them

    The activity scores and the Prometheus counters are [f64] values.  The
    standard library's [SpecFloat] defines the binary64 operations on integers;
    precision 53 and largest exponent 1024 give Rust's [f64]. *)

From S2P Require Import Prelude Str.
From Stdlib Require Import SpecFloat Ascii.

Local Open Scope Z_scope.

Definition f64 : Type := spec_float.

#[global] Instance f64_eq_dec : EqDecision f64.
Proof. solve_decision. Defined.

Definition f64_prec : Z := 53.
Definition f64_emax : Z := 1024.

(** [z as f64]: rounded to nearest, ties to even. *)
Definition f64_of_Z (z : Z) : f64 := binary_normalize f64_prec f64_emax z 0 false.

Definition f64_add (x y : f64) : f64 := SFadd f64_prec f64_emax x y.
Definition f64_sub (x y : f64) : f64 := SFsub f64_prec f64_emax x y.
Definition f64_div (x y : f64) : f64 := SFdiv f64_prec f64_emax x y.
Definition f64_leb (x y : f64) : bool := SFleb x y.
Definition f64_neg_infinity : f64 := S754_infinity true.

(** [x as u64]: truncated toward zero, out of range saturates, NaN is 0. *)
Definition f64_trunc (m : positive) (e : Z) : Z :=
  if (0 <=? e)%Z then (Z.pos m * 2 ^ e)%Z else (Z.pos m / 2 ^ (- e))%Z.

Definition f64_as_u64 (x : f64) : Z :=
  match x with
  | S754_nan | S754_zero _ | S754_infinity true | S754_finite true _ _ => 0
  | S754_infinity false => u64_max
  | S754_finite false m e => Z.min u64_max (f64_trunc m e)
  end.

(** ** [Duration]

    A [Duration] is a whole number of nanoseconds. *)
Definition nanos_per_sec : Z := 1000000000.
Definition duration_from_secs (s : Z) : Z := (s * nanos_per_sec)%Z.
Definition duration_from_millis (ms : Z) : Z := (ms * 1000000)%Z.
Definition as_secs (d : Z) : Z := (d / nanos_per_sec)%Z.
Definition as_millis (d : Z) : Z := (d / 1000000)%Z.
Definition subsec_nanos (d : Z) : Z := (d mod nanos_per_sec)%Z.

(** [Duration::as_secs_f64]: the seconds, plus the nanoseconds over 1e9. *)
Definition as_secs_f64 (d : Z) : f64 :=
  f64_add (f64_of_Z (as_secs d))
          (f64_div (f64_of_Z (subsec_nanos d)) (f64_of_Z nanos_per_sec)).

(** ** [str::parse::<f64>]

    An optional sign, then [inf], [infinity] or [nan] in any case, or decimal
    digits with an optional point and an optional exponent, rounded once. *)
Definition digit_val (a : ascii) : option Z :=
  let n := nat_of_ascii a in
  if decide (48 <= n <= 57)%nat then Some (Z.of_nat (n - 48)) else None.

(** The value and the number of the leading digits, and what follows them. *)
Fixpoint scan_digits (acc : Z) (count : Z) (s : string) : Z * Z * string :=
  match s with
  | EmptyString => (acc, count, "")
  | String a s' =>
      match digit_val a with
      | Some d => scan_digits (10 * acc + d) (count + 1) s'
      | None => (acc, count, s)
      end
  end.

Definition scan_sign (s : string) : bool * string :=
  match s with
  | String a s' =>
      if ascii_eqb a "-"%char then (true, s')
      else if ascii_eqb a "+"%char then (false, s') else (false, s)
  | EmptyString => (false, s)
  end.

(** The exponent after an [e]: [None] when it is malformed. *)
Definition scan_exponent (s : string) : option Z :=
  match s with
  | EmptyString => Some 0%Z
  | String a s' =>
      if ascii_eqb (ascii_lower a) "e"%char then
        let '(neg, ds) := scan_sign s' in
        let '(v, n, rest) := scan_digits 0 0 ds in
        if bool_decide (n = 0%Z \/ rest <> "") then None
        else Some (if neg then - v else v)%Z
      else None
  end.

(** [m * 10 ^ e], correctly rounded: one division of exact integers. *)
Definition f64_of_decimal (m e : Z) : f64 :=
  match m with
  | Zpos p =>
      if (0 <=? e)%Z then f64_of_Z (m * 10 ^ e)
      else match (10 ^ (- e))%Z with
           | Zpos q => f64_div (S754_finite false p 0) (S754_finite false q 0)
           | _ => S754_nan
           end
  | _ => S754_zero false
  end.

Definition f64_opp_if (neg : bool) (x : f64) : f64 := if neg then SFopp x else x.

Definition parse_f64 (s : string) : option f64 :=
  let '(neg, body) := scan_sign s in
  if eq_ignore_ascii_case body "inf" || eq_ignore_ascii_case body "infinity"
  then Some (f64_opp_if neg (S754_infinity false))
  else if eq_ignore_ascii_case body "nan" then Some S754_nan
  else
    let '(ip, ni, rest) := scan_digits 0 0 body in
    let '(m, nd, nf, rest2) :=
      match rest with
      | String a r =>
          if ascii_eqb a "."%char
          then let '(m, n, r') := scan_digits ip 0 r in (m, (ni + n)%Z, n, r')
          else (ip, ni, 0%Z, rest)
      | EmptyString => (ip, ni, 0%Z, rest)
      end in
    if bool_decide (nd = 0%Z) then None
    else match scan_exponent rest2 with
         | Some e => Some (f64_opp_if neg (f64_of_decimal m (e - nf)))
         | None => None
         end.

(** ** [format!("{:.1}", x)]

    The exact value of a finite number, rounded to tenths with ties to even. *)
Definition round_div_even (a b : Z) : Z :=
  let q := (a / b)%Z in
  let r := (a mod b)%Z in
  match (2 * r ?= b)%Z with
  | Lt => q
  | Gt => (q + 1)%Z
  | Eq => if Z.even q then q else (q + 1)%Z
  end.

Definition f64_tenths (m : positive) (e : Z) : Z :=
  if (0 <=? e)%Z then (10 * Z.pos m * 2 ^ e)%Z
  else round_div_even (10 * Z.pos m) (2 ^ (- e)).

Definition show_f64_1 (x : f64) : string :=
  match x with
  | S754_nan => "NaN"
  | S754_infinity s => if s then "-inf" else "inf"
  | S754_zero s => if s then "-0.0" else "0.0"
  | S754_finite s m e =>
      let t := f64_tenths m e in
      (if s then "-" else "") +:+ show_Z (t / 10) +:+ "." +:+ show_Z (t mod 10)
  end.

(** ** Lemmas: integers below 2^53 are represented exactly *)

Definition two53 : Z := 9007199254740992.

(** The representation of a positive integer of at most 53 binary digits. *)
Definition f64_exact (s : bool) (p : positive) : f64 :=
  let d := Z.pos (digits2_pos p) in
  S754_finite s (Z.to_pos (Z.pos p * 2 ^ (53 - d))) (d - 53).

Lemma digits2_pos_size p : digits2_pos p = Pos.size p.
Proof. induction p; simpl; congruence. Qed.

Lemma digits_lower p : (2 ^ (Z.pos (digits2_pos p) - 1) <= Z.pos p)%Z.
Proof.
  rewrite digits2_pos_size. pose proof (Pos.size_le p) as H.
  apply Pos2Z.pos_le_pos in H. rewrite Pos2Z.inj_pow in H.
  replace (Z.pos (Pos.size p)) with (Z.succ (Z.pos (Pos.size p) - 1)) in H by lia.
  rewrite Z.pow_succ_r in H by lia. lia.
Qed.

Lemma digits_upper p : (Z.pos p < 2 ^ Z.pos (digits2_pos p))%Z.
Proof.
  rewrite digits2_pos_size. pose proof (Pos.size_gt p) as H.
  apply Pos2Z.pos_lt_pos in H. by rewrite Pos2Z.inj_pow in H.
Qed.

(** The number of digits is the only power of two bracketing the number. *)
Lemma digits_unique p d :
  (0 < d)%Z -> (2 ^ (d - 1) <= Z.pos p < 2 ^ d)%Z -> Z.pos (digits2_pos p) = d.
Proof.
  intros Hd [H1 H2]. pose proof (digits_lower p) as L. pose proof (digits_upper p) as U.
  destruct (Z.lt_trichotomy (Z.pos (digits2_pos p)) d) as [Hlt|[?|Hlt]]; [|done|]; exfalso.
  - assert (2 ^ Z.pos (digits2_pos p) <= 2 ^ (d - 1))%Z by (apply Z.pow_le_mono_r; lia). lia.
  - assert (2 ^ d <= 2 ^ (Z.pos (digits2_pos p) - 1))%Z by (apply Z.pow_le_mono_r; lia). lia.
Qed.

Lemma digits_le p d : (0 <= d)%Z -> (Z.pos p < 2 ^ d)%Z -> (Z.pos (digits2_pos p) <= d)%Z.
Proof.
  intros Hd H. pose proof (digits_lower p) as L.
  destruct (Z.le_gt_cases (Z.pos (digits2_pos p)) d); [done|]. exfalso.
  assert (2 ^ d <= 2 ^ (Z.pos (digits2_pos p) - 1))%Z by (apply Z.pow_le_mono_r; lia). lia.
Qed.

Lemma digits_mul_pow2 p q k :
  (0 <= k)%Z -> Z.pos q = (Z.pos p * 2 ^ k)%Z ->
  Z.pos (digits2_pos q) = (Z.pos (digits2_pos p) + k)%Z.
Proof.
  intros Hk Hq. apply digits_unique; [lia|]. rewrite Hq.
  pose proof (digits_lower p) as L. pose proof (digits_upper p) as U.
  replace (Z.pos (digits2_pos p) + k - 1)%Z with ((Z.pos (digits2_pos p) - 1) + k)%Z by lia.
  rewrite !Z.pow_add_r by lia.
  assert (0 < 2 ^ k)%Z by (apply Z.pow_pos_nonneg; lia).
  split; [apply Z.mul_le_mono_nonneg_r|apply Z.mul_lt_mono_pos_r]; lia.
Qed.

Lemma iter_xO p k : Z.pos (Pos.iter xO p k) = (Z.pos p * 2 ^ Z.pos k)%Z.
Proof.
  induction k as [|k IH] using Pos.peano_ind; [simpl; lia|].
  rewrite Pos.iter_succ, Pos2Z.inj_xO, IH, Pos2Z.inj_succ, Z.pow_succ_r by lia. lia.
Qed.

Lemma iter_pos_nat {A} (f : A -> A) n x :
  iter_pos f n x = Nat.iter (Pos.to_nat n) f x.
Proof.
  revert x. induction n as [n IH|n IH|]; intros x; [| |done].
  - change (iter_pos f n~1 x) with (iter_pos f n (iter_pos f n (f x))).
    rewrite !IH, Pos2Nat.inj_xI, Nat.iter_succ_r, <- Nat.iter_add. f_equal. lia.
  - change (iter_pos f n~0 x) with (iter_pos f n (iter_pos f n x)).
    rewrite !IH, Pos2Nat.inj_xO, <- Nat.iter_add. f_equal. lia.
Qed.

Lemma shr_exact q n m :
  Z.pos m = (Z.pos q * 2 ^ Z.of_nat n)%Z ->
  Nat.iter n shr_1 {| shr_m := Z.pos m; shr_r := false; shr_s := false |}
  = {| shr_m := Z.pos q; shr_r := false; shr_s := false |}.
Proof.
  revert m. induction n as [|n IH]; intros m Hm.
  - simpl in *. repeat f_equal. lia.
  - rewrite Nat2Z.inj_succ, Z.pow_succ_r in Hm by lia.
    destruct m as [m|m|]; [lia| |lia].
    rewrite Nat.iter_succ_r. simpl. apply IH. lia.
Qed.

Lemma fexp_small d : (-1021 <= d)%Z -> fexp f64_prec f64_emax d = (d - 53)%Z.
Proof. unfold fexp, emin, f64_prec, f64_emax. lia. Qed.

(** Rounding a mantissa that is an integer of at most 53 digits, shifted, is exact. *)
Lemma round_aux_exact s q n p :
  (Z.pos (digits2_pos p) <= 53)%Z ->
  Z.pos q = (Z.pos (Z.to_pos (Z.pos p * 2 ^ (53 - Z.pos (digits2_pos p)))) * 2 ^ Z.of_nat n)%Z ->
  binary_round_aux f64_prec f64_emax s (Z.pos q) (Z.pos (digits2_pos p) - 53 - Z.of_nat n) loc_Exact
  = f64_exact s p.
Proof.
  intros Hd Hq. set (d := Z.pos (digits2_pos p)) in *.
  set (m := Z.to_pos (Z.pos p * 2 ^ (53 - d))) in *.
  assert (0 < 2 ^ (53 - d))%Z by (apply Z.pow_pos_nonneg; lia).
  assert (Hm : Z.pos m = (Z.pos p * 2 ^ (53 - d))%Z) by (unfold m; rewrite Z2Pos.id; lia).
  assert (Hdm : Z.pos (digits2_pos m) = 53).
  { rewrite (digits_mul_pow2 p m (53 - d)) by (done || lia). lia. }
  assert (Hdq : Z.pos (digits2_pos q) = (53 + Z.of_nat n)%Z).
  { rewrite (digits_mul_pow2 m q (Z.of_nat n)) by (done || lia). lia. }
  assert (Hshr0 : shr_fexp f64_prec f64_emax (Z.pos m) (d - 53) loc_Exact
    = ({| shr_m := Z.pos m; shr_r := false; shr_s := false |}, d - 53)%Z).
  { unfold shr_fexp. cbn [Zdigits2 shr_record_of_loc]. rewrite Hdm, fexp_small by lia.
    replace (53 + (d - 53) - 53 - (d - 53))%Z with 0%Z by lia. done. }
  assert (Hshr : shr_fexp f64_prec f64_emax (Z.pos q) (d - 53 - Z.of_nat n) loc_Exact
    = ({| shr_m := Z.pos m; shr_r := false; shr_s := false |}, d - 53)%Z).
  { unfold shr_fexp. cbn [Zdigits2 shr_record_of_loc]. rewrite Hdq, fexp_small by lia.
    replace (53 + Z.of_nat n + (d - 53 - Z.of_nat n) - 53 - (d - 53 - Z.of_nat n))%Z
      with (Z.of_nat n) by lia.
    destruct n as [|n].
    - simpl in *. replace q with m by lia. apply (f_equal (pair _)). lia.
    - unfold shr. replace (Z.of_nat (S n)) with (Z.pos (Pos.of_succ_nat n)) by lia.
      rewrite iter_pos_nat, SuccNat2Pos.id_succ, (shr_exact m (S n) q) by done.
      apply (f_equal (pair _)). lia. }
  unfold binary_round_aux. rewrite Hshr. cbn [shr_m loc_of_shr_record round_nearest_even].
  rewrite Hshr0. cbn [shr_m]. unfold f64_exact. fold d. fold m.
  replace (d - 53 <=? f64_emax - f64_prec)%Z with true; [done|].
  symmetry. apply Z.leb_le. unfold f64_emax, f64_prec. lia.
Qed.

(** An integer of at most 53 digits scaled by a negative power of two rounds to
    the same number as the integer. *)
Lemma binary_round_exact s q k p :
  (Z.pos (digits2_pos p) <= 53)%Z -> Z.pos q = (Z.pos p * 2 ^ Z.of_nat k)%Z ->
  binary_round f64_prec f64_emax s q (- Z.of_nat k) = f64_exact s p.
Proof.
  intros Hd Hq. set (d := Z.pos (digits2_pos p)) in *.
  assert (0 < 2 ^ (53 - d))%Z by (apply Z.pow_pos_nonneg; lia).
  unfold binary_round. rewrite (digits_mul_pow2 p q (Z.of_nat k)) by (done || lia). fold d.
  replace (d + Z.of_nat k + - Z.of_nat k)%Z with d by lia. rewrite fexp_small by lia.
  unfold shl_align. destruct (d - 53 - - Z.of_nat k)%Z as [|j|j] eqn:E.
  - replace (- Z.of_nat k)%Z with (d - 53 - Z.of_nat 0)%Z by lia.
    apply round_aux_exact; [done|]. fold d. rewrite Z2Pos.id by lia. rewrite Hq.
    replace (53 - d)%Z with (Z.of_nat k) by lia. simpl. lia.
  - replace (- Z.of_nat k)%Z with (d - 53 - Z.of_nat (Pos.to_nat j))%Z by lia.
    apply round_aux_exact; [done|]. fold d. rewrite Z2Pos.id, Hq, <- Z.mul_assoc by lia.
    rewrite <- Z.pow_add_r by lia. apply f_equal, f_equal. lia.
  - replace (d - 53)%Z with (d - 53 - Z.of_nat 0)%Z by lia.
    apply round_aux_exact; [done|]. fold d. rewrite Z2Pos.id, iter_xO, Hq by lia.
    rewrite <- !Z.mul_assoc, <- !Z.pow_add_r by lia. apply f_equal, f_equal. lia.
Qed.

Lemma digits_53 p : (Z.pos p < two53)%Z -> (Z.pos (digits2_pos p) <= 53)%Z.
Proof. intros. by apply (digits_le p 53). Qed.

Lemma f64_of_pos_exact p : (Z.pos p < two53)%Z -> f64_of_Z (Z.pos p) = f64_exact false p.
Proof.
  intros H. unfold f64_of_Z, binary_normalize.
  apply (binary_round_exact false p 0 p); [by apply digits_53|]. simpl. lia.
Qed.

Lemma f64_of_neg_exact p : Z.pos p < two53 -> f64_of_Z (Z.neg p) = f64_exact true p.
Proof.
  intros H. unfold f64_of_Z, binary_normalize.
  apply (binary_round_exact true p 0 p); [by apply digits_53|]. simpl. lia.
Qed.

Lemma exact_mantissa p :
  Z.pos p < two53 ->
  Z.pos (Z.to_pos (Z.pos p * 2 ^ (53 - Z.pos (digits2_pos p))))
  = Z.pos p * 2 ^ (53 - Z.pos (digits2_pos p)).
Proof.
  intros H%digits_53. assert (0 < 2 ^ (53 - Z.pos (digits2_pos p))) by (apply Z.pow_pos_nonneg; lia).
  rewrite Z2Pos.id; lia.
Qed.

Lemma f64_as_u64_exact z : 0 <= z < two53 -> f64_as_u64 (f64_of_Z z) = z.
Proof.
  intros [H1 H2]. destruct z as [|p|p]; [done| |lia].
  rewrite f64_of_pos_exact by done. unfold f64_exact, f64_as_u64, f64_trunc.
  pose proof (digits_53 p H2). rewrite exact_mantissa by done.
  destruct (Z.leb_spec 0 (Z.pos (digits2_pos p) - 53)).
  - replace (53 - Z.pos (digits2_pos p)) with 0 by lia.
    replace (Z.pos (digits2_pos p) - 53) with 0 by lia. unfold u64_max, two53 in *. lia.
  - replace (- (Z.pos (digits2_pos p) - 53)) with (53 - Z.pos (digits2_pos p)) by lia.
    rewrite Z.div_mul by (apply Z.pow_nonzero; lia). unfold u64_max, two53 in *. lia.
Qed.

(** Numbers of the same sign compare as their mantissas once the exponents agree. *)
Lemma exact_compare p q :
  Z.pos p < two53 -> Z.pos q < two53 ->
  SFcompare (f64_exact false p) (f64_exact false q) = Some (Z.pos p ?= Z.pos q).
Proof.
  intros Hp Hq. unfold f64_exact, SFcompare. f_equal.
  pose proof (digits_lower p). pose proof (digits_upper p).
  pose proof (digits_lower q). pose proof (digits_upper q).
  destruct (Z.compare_spec (Z.pos (digits2_pos p) - 53) (Z.pos (digits2_pos q) - 53)) as [E|E|E].
  - match goal with |- Pos.compare_cont Eq ?a ?b = _ => change (Pos.compare_cont Eq a b) with (Z.pos a ?= Z.pos b) end.
    rewrite !exact_mantissa by done.
    replace (Z.pos (digits2_pos q)) with (Z.pos (digits2_pos p)) by lia.
    symmetry. apply Zmult_compare_compat_r, Z.lt_gt, Z.pow_pos_nonneg; [lia|].
    pose proof (digits_53 p Hp). lia.
  - symmetry. apply Z.compare_lt_iff.
    assert (2 ^ Z.pos (digits2_pos p) <= 2 ^ (Z.pos (digits2_pos q) - 1)) by (apply Z.pow_le_mono_r; lia).
    lia.
  - symmetry. apply Z.compare_gt_iff.
    assert (2 ^ Z.pos (digits2_pos q) <= 2 ^ (Z.pos (digits2_pos p) - 1)) by (apply Z.pow_le_mono_r; lia).
    lia.
Qed.

(** A non-negative integer against any integer. *)
Lemma f64_leb_exact a b :
  0 <= a < two53 -> - two53 < b < two53 -> f64_leb (f64_of_Z a) (f64_of_Z b) = (a <=? b).
Proof.
  intros Ha Hb. unfold f64_leb, SFleb.
  destruct a as [|p|p]; [| |lia]; destruct b as [|q|q];
    rewrite ?f64_of_pos_exact, ?f64_of_neg_exact by lia; try done.
  rewrite exact_compare by lia. unfold Z.leb. by destruct (Z.pos p ?= Z.pos q).
Qed.

Lemma shl_align_fst m e e' :
  e' <= e -> Z.pos (fst (shl_align m e e')) = Z.pos m * 2 ^ (e - e').
Proof.
  intros H. unfold shl_align. destruct (e' - e) as [|k|k] eqn:E; simpl fst; [| lia |].
  - replace (e - e') with 0 by lia. lia.
  - rewrite iter_xO. do 2 f_equal. lia.
Qed.

(** Both operands brought to the smaller exponent are scaled integers. *)
Lemma exact_aligned p ez :
  Z.pos p < two53 -> ez <= Z.pos (digits2_pos p) - 53 ->
  Z.pos (fst (shl_align (Z.to_pos (Z.pos p * 2 ^ (53 - Z.pos (digits2_pos p))))
                        (Z.pos (digits2_pos p) - 53) ez)) = Z.pos p * 2 ^ (- ez).
Proof.
  intros Hp Hez. pose proof (digits_53 p Hp). rewrite shl_align_fst, exact_mantissa by done.
  rewrite <- Z.mul_assoc, <- Z.pow_add_r by lia. do 2 f_equal. lia.
Qed.

Lemma f64_sub_exact a b :
  0 <= a < two53 -> 0 <= b < two53 -> f64_sub (f64_of_Z a) (f64_of_Z b) = f64_of_Z (a - b).
Proof.
  intros Ha Hb. destruct a as [|p|p]; [| |lia]; destruct b as [|q|q]; try lia; try done.
  - change (f64_of_Z (0 - Z.pos q)) with (f64_of_Z (Z.neg q)).
    rewrite f64_of_pos_exact, f64_of_neg_exact by lia. done.
  - rewrite Z.sub_0_r, f64_of_pos_exact by lia. done.
  - rewrite !f64_of_pos_exact by lia. unfold f64_sub, SFsub, f64_exact.
    pose proof (digits_53 p ltac:(lia)). pose proof (digits_53 q ltac:(lia)).
    set (ez := Z.min (Z.pos (digits2_pos p) - 53) (Z.pos (digits2_pos q) - 53)).
    unfold cond_Zopp. rewrite !exact_aligned by lia.
    rewrite <- Z.mul_sub_distr_r.
    assert (Hez : 0 < 2 ^ (- ez)) by (apply Z.pow_pos_nonneg; lia).
    replace ez with (- Z.of_nat (Z.to_nat (- ez))) at 2 by lia.
    unfold binary_normalize.
    destruct (Z.pos p - Z.pos q) as [|r|r] eqn:E; [done| |].
    + destruct (Z.pos r * 2 ^ (- ez)) as [|t|t] eqn:Et; [lia| |lia].
      rewrite f64_of_pos_exact by lia. apply binary_round_exact; [apply digits_53; lia|].
      rewrite <- Et. do 2 f_equal. lia.
    + destruct (Z.neg r * 2 ^ (- ez)) as [|t|t] eqn:Et; [lia|lia|].
      rewrite f64_of_neg_exact by lia. apply binary_round_exact; [apply digits_53; lia|].
      replace (Z.of_nat (Z.to_nat (- ez))) with (- ez) by lia. lia.
Qed.

(** Whole seconds convert without rounding. *)
Lemma as_secs_f64_whole s : 0 <= s < two53 -> as_secs_f64 (duration_from_secs s) = f64_of_Z s.
Proof.
  intros Hs. unfold as_secs_f64, duration_from_secs, as_secs, subsec_nanos.
  rewrite Z.div_mul, Z.mod_mul by done.
  replace (f64_div (f64_of_Z 0) (f64_of_Z nanos_per_sec)) with (S754_zero false) by done.
  destruct s as [|p|p]; [done| |lia]. rewrite f64_of_pos_exact by lia. done.
Qed.

(** ** Lemmas: decimal integers parse to themselves *)

Lemma scan_digits_app acc n x s :
  (0 <= x)%Z ->
  exists k, 0 <= k /\ scan_digits acc n (pretty_N_go (Z.to_N x) s)
            = scan_digits (acc * 10 ^ k + x) (n + k) s /\ (0 < x -> 0 < k).
Proof.
  intros Hx. revert s. remember (Z.to_N x) as y eqn:Hy. revert x Hx Hy.
  induction (N.lt_wf_0 y) as [y _ IH]; intros x Hx -> s.
  destruct (decide (x = 0)) as [->|Hne].
  - exists 0. rewrite pretty_N_go_0. split; [done|]. split; [|lia]. f_equal; lia.
  - rewrite pretty_N_go_step by lia.
    destruct (IH (Z.to_N x `div` 10)%N ltac:(apply N.div_lt; lia) (x / 10)
      ltac:(apply Z.div_pos; lia) ltac:(by rewrite Z2N.inj_div by lia)
      (String (pretty_N_char (Z.to_N x `mod` 10)) s)) as (k & Hk & -> & _).
    exists (k + 1). split; [lia|]. split; [|lia].
    assert (Hd : digit_val (pretty_N_char (Z.to_N x `mod` 10)) = Some (x mod 10)).
    { replace (Z.to_N x `mod` 10)%N with (Z.to_N (x mod 10)) by (rewrite Z2N.inj_mod by lia; done).
      pose proof (Z.mod_pos_bound x 10 ltac:(lia)).
      assert (x mod 10 = 0 \/ x mod 10 = 1 \/ x mod 10 = 2 \/ x mod 10 = 3 \/ x mod 10 = 4
        \/ x mod 10 = 5 \/ x mod 10 = 6 \/ x mod 10 = 7 \/ x mod 10 = 8 \/ x mod 10 = 9) as Hc by lia.
      by destruct_or! Hc; rewrite Hc. }
    cbn [scan_digits]. rewrite Hd. rewrite Z.pow_add_r by lia.
    f_equal; [|lia]. pose proof (Z.div_mod x 10 ltac:(lia)). lia.
Qed.

Lemma show_Z_digits z :
  0 <= z -> exists k, 0 < k /\ scan_digits 0 0 (show_Z z) = (z, k, "").
Proof.
  intros Hz. destruct (decide (z = 0)) as [->|Hne]; [by exists 1|].
  destruct (scan_digits_app 0 0 z "" Hz) as (k & Hk & Hs & Hpos).
  exists k. split; [apply Hpos; lia|].
  assert (show_Z z = pretty_N_go (Z.to_N z) "") as ->.
  { by destruct z as [|p|p]; [|reflexivity|lia]. }
  rewrite Hs. simpl. f_equal.
Qed.

(** A number written with decimal digits has a digit first. *)
Lemma scan_digits_head acc n s z k :
  0 < k -> scan_digits acc n s = (z, n + k, "") -> exists a r d, s = String a r /\ digit_val a = Some d.
Proof.
  intros Hk. destruct s as [|a r]; simpl; [intros; simplify_eq; lia|].
  destruct (digit_val a) as [d|] eqn:E; [eauto|]. intros; simplify_eq.
Qed.

Lemma parse_f64_show z : 0 <= z -> parse_f64 (show_Z z) = Some (f64_of_Z z).
Proof.
  intros Hz. destruct (show_Z_digits z Hz) as (k & Hk & Hs).
  destruct (scan_digits_head 0 0 (show_Z z) z k) as (a & r & d & Ha & Hd); [done|by rewrite Hs|].
  assert (Hdig : (48 <= nat_of_ascii a <= 57)%nat).
  { unfold digit_val in Hd. by case_decide. }
  assert (Hc : forall c t, (nat_of_ascii c < 48 \/ 57 < nat_of_ascii c)%nat ->
    (nat_of_ascii (ascii_lower c) = nat_of_ascii c)%nat -> 
    eq_ignore_ascii_case (show_Z z) (String c t) = false).
  { intros c t Hc Hl. unfold eq_ignore_ascii_case. apply bool_decide_eq_false. rewrite Ha. simpl.
    intros [= H _]. apply (f_equal nat_of_ascii) in H. unfold ascii_lower in H at 1.
    rewrite decide_False in H by lia. lia. }
  unfold parse_f64. assert (scan_sign (show_Z z) = (false, show_Z z)) as ->.
  { rewrite Ha. simpl. 
    destruct (ascii_eqb a "-"%char) eqn:E1; [apply ascii_eqb_eq in E1 as ->; vm_compute in Hdig; lia|].
    destruct (ascii_eqb a "+"%char) eqn:E2; [apply ascii_eqb_eq in E2 as ->; vm_compute in Hdig; lia|]. done. }
  rewrite !Hc by (vm_compute; first [lia|done]). simpl orb. cbv iota. rewrite Hs. cbv iota beta zeta.
  rewrite bool_decide_eq_false_2 by lia. simpl scan_exponent. cbv iota.
  unfold f64_opp_if, f64_of_decimal. f_equal. destruct z as [|p|p]; [done| |lia]. simpl.
  by rewrite Pos.mul_1_r.
Qed.

(** A printed number holds digits only. *)
Lemma scan_digits_all acc n s z k c :
  scan_digits acc n s = (z, k, "") -> digit_val c = None -> char_in c s = false.
Proof.
  revert acc n. induction s as [|a s IH]; intros acc n H Hc; simpl in *; [done|].
  destruct (digit_val a) as [d|] eqn:E; [|by simplify_eq].
  rewrite (IH _ _ H Hc), orb_false_r. apply ascii_eqb_ne. congruence.
Qed.

Lemma show_Z_no c z : 0 <= z -> digit_val c = None -> char_in c (show_Z z) = false.
Proof. intros Hz Hc. destruct (show_Z_digits z Hz) as (k & _ & Hs). by eapply scan_digits_all. Qed.

Lemma show_Z_nonempty z : 0 <= z -> show_Z z <> "".
Proof.
  intros Hz E. destruct (show_Z_digits z Hz) as (k & Hk & Hs). rewrite E in Hs. simpl in Hs.
  by simplify_eq.
Qed.

(** [str::parse] for an unsigned integer of at most [max]. *)
Definition parse_uint (max : Z) (s : string) : option Z :=
  let body := match s with String "+"%char s' => s' | _ => s end in
  match scan_digits 0 0 body with
  | (n, k, "") => if bool_decide (0 < k /\ n <= max) then Some n else None
  | _ => None
  end.
