(* ===== verification/Core.v ===== *)
(** * Core: the shared types and traits of [nscale-core]

    Models [error.rs], [job.rs] and [traits.rs] of
    [crates/nscale-core/src].  The newtypes [JobId] and [ServiceName] are the
    strings they wrap.  A trait is a class over the world its methods run in. *)

From S2P Require Import Prelude Str F64.
Local Open Scope Z_scope.

Abbreviation JobId := string (only parsing).
Abbreviation ServiceName := string (only parsing).

(** What the program observes of an HTTP client error. *)
Record reqwest_error := mkReqwestError {
  re_display : string;
  re_is_connect : bool;
  re_is_timeout : bool;
  re_status : option Z }.

(** ** error.rs *)
Module NscaleError.
Inductive t : Type :=
| Nomad (msg : string)
| DeploymentInProgress (job_id : string) (operation : string)
| Consul (msg : string)
| Store (msg : string)
| Proxy (msg : string)
| WakeTimeout (job_id : string) (elapsed_secs : f64)
| JobNotFound (job_id : string)
| JobNotReady (msg : string)
| WakeAbandoned (job_id : string)
| Config (msg : string)
| Http (source : reqwest_error)
| Json (msg : string).
End NscaleError.

(** The [#[error("...")]] formats: [to_string]. *)
Definition error_to_string (e : NscaleError.t) : string :=
  match e with
  | NscaleError.Nomad m => "nomad API error: " +:+ m
  | NscaleError.DeploymentInProgress j op =>
      "nomad deployment in progress for job " +:+ j +:+ " while attempting " +:+ op
  | NscaleError.Consul m => "consul API error: " +:+ m
  | NscaleError.Store m => "store error: " +:+ m
  | NscaleError.Proxy m => "proxy error: " +:+ m
  | NscaleError.WakeTimeout j s =>
      "wake timeout for job " +:+ j +:+ " after " +:+ show_f64_1 s +:+ "s"
  | NscaleError.JobNotFound j => "job not found: " +:+ j
  | NscaleError.JobNotReady m => "job not ready: " +:+ m
  | NscaleError.WakeAbandoned j =>
      "wake abandoned for job " +:+ j +:+ ": all subscribers disconnected"
  | NscaleError.Config m => "configuration error: " +:+ m
  | NscaleError.Http e => "HTTP error: " +:+ re_display e
  | NscaleError.Json m => "JSON error: " +:+ m
  end.

Abbreviation Result A := (res NscaleError.t A).
Abbreviation M W A := (ST W (res NscaleError.t A)).

(** ** Panics and dropped futures

    How the body of an [async] function ends without returning: a panic unwinds
    it, or the task that polls it drops it at an [await].  Either way the values
    it holds are dropped. *)
Module Unwound.
Inductive t : Type :=
| Dropped
| Panicked (message : string).
End Unwound.

(** [Duration] and [Instant] arithmetic, in nanoseconds; the error is the message
    of the panic.  A [Duration] has [u64] seconds, an [Instant] [i64] seconds. *)
Definition duration_max : Z := u64_max * nanos_per_sec + 999999999.
Definition instant_max : Z := 2 ^ 63 * nanos_per_sec - 1.

Definition duration_add (a b : Z) : res string Z :=
  if bool_decide (a + b <= duration_max) then Ok (a + b) else Err "overflow when adding durations".
Definition duration_mul (a n : Z) : res string Z :=
  if bool_decide (a * n <= duration_max) then Ok (a * n) else Err "overflow when multiplying duration by scalar".
Definition instant_add (t d : Z) : res string Z :=
  if bool_decide (t + d <= instant_max) then Ok (t + d) else Err "overflow when adding duration to instant".

(** ** job.rs *)
Record Endpoint := mkEndpoint { host : string; port : Z }.

(** [Endpoint::new]: [host] is what converts into a string. *)
Definition new_endpoint {H} (into : H -> string) (host : H) (port : Z) : Endpoint := mkEndpoint (into host) port.
(** [Display]. *)
Definition show_endpoint (e : Endpoint) : string := host e +:+ ":" +:+ show_Z (port e).
Definition endpoint_address (e : Endpoint) : string := host e +:+ ":" +:+ show_Z (port e).
Definition endpoint_base_url (e : Endpoint) (scheme : string) : string :=
  scheme +:+ "://" +:+ host e +:+ ":" +:+ show_Z (port e).

Record JobRegistration := mkReg {
  job_id : JobId;
  service_name : ServiceName;
  nomad_group : string }.

(** The state of a managed job; an instant is in nanoseconds. *)
Module JobState.
Inductive t : Type :=
| Dormant
| Waking (since : Z)
| Ready (endpoint : Endpoint)
| Draining (since : Z).
End JobState.

Definition job_is_dormant (s : JobState.t) : bool := match s with JobState.Dormant => true | _ => false end.
Definition job_is_waking (s : JobState.t) : bool := match s with JobState.Waking _ => true | _ => false end.
Definition job_is_ready (s : JobState.t) : bool := match s with JobState.Ready _ => true | _ => false end.
Definition job_is_draining (s : JobState.t) : bool := match s with JobState.Draining _ => true | _ => false end.

#[export] Instance Endpoint_eq_dec : EqDecision Endpoint.
Proof. solve_decision. Defined.
#[export] Instance JobRegistration_eq_dec : EqDecision JobRegistration.
Proof. solve_decision. Defined.
#[export] Instance reqwest_error_eq_dec : EqDecision reqwest_error.
Proof. solve_decision. Defined.
#[export] Instance NscaleError_eq_dec : EqDecision NscaleError.t.
Proof. solve_decision. Defined.

(** ** traits.rs *)
Class Orchestrator (W : Type) := {
  scale_up : JobId -> string -> Z -> M W unit;
  scale_down : JobId -> string -> M W unit;
  get_job_count : JobId -> string -> M W Z;
  get_healthy_endpoint : JobId -> M W (option Endpoint) }.

Class ServiceDiscovery (W : Type) := {
  register_fallback : ServiceName -> Endpoint -> M W unit;
  deregister_fallback : ServiceName -> M W unit;
  wait_for_healthy : ServiceName -> Z -> M W Endpoint }.

Class ActivityStore (W : Type) := {
  record_activity : JobId -> M W unit;
  get_idle_jobs : Z -> M W (list JobId);
  has_activity : JobId -> M W bool;
  try_acquire_lock : string -> Z -> M W bool;
  release_lock : string -> M W unit;
  remove_activity : JobId -> M W unit }.

Class MissingJobTracker (W : Type) := {
  increment_not_found : JobId -> M W Z;
  clear_not_found : JobId -> M W unit }.

(** A change of a durable registration store. *)
Module RegistrationEvent.
Inductive t : Type :=
| Upsert (reg : JobRegistration)
| Remove (reg : JobRegistration).
End RegistrationEvent.

(** A stream, as the items it yields: [None] from its end on. *)
Abbreviation Stream A := (nat -> option A).

Class DurableRegistry (W : Type) := {
  store_registration : JobRegistration -> M W unit;
  remove_registration : JobId -> M W unit;
  get_by_job_id : JobId -> M W (option JobRegistration);
  get_by_service_name : ServiceName -> M W (option JobRegistration);
  durable_list_all : M W (list JobRegistration);
  watch_registrations : M W (Stream RegistrationEvent.t) }.
