(* ===== verification/Waker.v ===== *)
(** * Waker: the wake coordinator, one atomic action at a time

    Models [crates/nscale-waker/src/state.rs] and [coordinator.rs].  Requests,
    wake tasks and the callers of [mark_dormant], [invalidate] and
    [refresh_endpoint] are threads; each step of a thread is one access to a
    shared structure (a [DashMap] operation, an atomic load, store or
    compare-exchange, a channel operation) or the return of an awaited call.
    A wake state is an object in a heap, because a request keeps its [Arc] to
    it after the map has dropped the entry. *)

From S2P Require Import Prelude Str F64 Core.
Local Open Scope Z_scope.

Definition STATE_DORMANT : Z := 0.
Definition STATE_WAKING : Z := 1.
Definition STATE_READY : Z := 2.

Module WakeResult.
Inductive t : Type :=
| Ready (ep : Endpoint)
| JobNotFound (job : string)
| Failed (msg : string)
| Cancelled.
End WakeResult.

(** What [refresh_endpoint] found. *)
Module EndpointRefresh.
Inductive t : Type :=
| Confirmed (ep : Endpoint)
| Updated (ep : Endpoint)
| Missing.
End EndpointRefresh.

#[export] Instance WakeResult_eq_dec : EqDecision WakeResult.t.
Proof. solve_decision. Defined.

(** ** tokio's broadcast channel

    A sender's channel with its receivers.  [bc_recv] is one poll of [recv]:
    [None] is pending, [Some (Err tt)] is a lagged receiver. *)
Class Broadcast (Ch : Type) := {
  bc_channel : nat -> Ch;
  bc_subscribe : Ch -> nat * Ch;
  bc_send : WakeResult.t -> Ch -> Ch;
  bc_recv : nat -> Ch -> option (res unit WakeResult.t) * Ch;
  bc_drop : nat -> Ch -> Ch;
  bc_receiver_count : Ch -> nat }.

(** What the channel's documentation promises, stated on the values a live
    receiver has still to receive: a new receiver sees only later values, a
    sent value reaches every live receiver, a receiver more than the capacity
    behind has lagged. *)
Class BroadcastLaws (Ch : Type) `{Broadcast Ch} := {
  bc_queues : Ch -> gmap nat (list WakeResult.t);
  bc_capacity : Ch -> nat;
  bc_channel_queues n : bc_queues (bc_channel n) = ∅;
  bc_channel_capacity n : bc_capacity (bc_channel n) = n;
  bc_subscribe_fresh ch : bc_queues ch !! (bc_subscribe ch).1 = None;
  bc_subscribe_queues ch :
    bc_queues (bc_subscribe ch).2 = <[(bc_subscribe ch).1 := []]> (bc_queues ch);
  bc_subscribe_capacity ch : bc_capacity (bc_subscribe ch).2 = bc_capacity ch;
  bc_send_queues v ch : bc_queues (bc_send v ch) = (fun q => q ++ [v]) <$> bc_queues ch;
  bc_send_capacity v ch : bc_capacity (bc_send v ch) = bc_capacity ch;
  bc_recv_pending rx ch :
    bc_queues ch !! rx = Some [] -> bc_recv rx ch = (None, ch);
  bc_recv_value rx ch v q :
    bc_queues ch !! rx = Some (v :: q) -> (length (v :: q) <= bc_capacity ch)%nat ->
    (bc_recv rx ch).1 = Some (Ok v);
  bc_recv_lagged rx ch q :
    bc_queues ch !! rx = Some q -> (bc_capacity ch < length q)%nat ->
    (bc_recv rx ch).1 = Some (Err tt);
  bc_recv_capacity rx ch : bc_capacity (bc_recv rx ch).2 = bc_capacity ch;
  bc_recv_others rx ch rx' :
    rx <> rx' -> bc_queues (bc_recv rx ch).2 !! rx' = bc_queues ch !! rx';
  bc_drop_queues rx ch : bc_queues (bc_drop rx ch) = delete rx (bc_queues ch);
  bc_drop_capacity rx ch : bc_capacity (bc_drop rx ch) = bc_capacity ch;
  bc_count ch : bc_receiver_count ch = size (bc_queues ch) }.

(** ** Shared state *)

Abbreviation sid := nat (only parsing).

Record WakeState (Ch : Type) := mkWakeState { status : Z; notify : Ch }.
Arguments mkWakeState {Ch} _ _.
Arguments status {Ch} _.
Arguments notify {Ch} _.

(** The fields of [WakeCoordinator], the heap its [Arc]s point into, and the
    [scale_up] calls issued so far. *)
Record Coord (Ch : Type) := mkCoord {
  jobs : gmap string sid;
  heap : gmap sid (WakeState Ch);
  next_sid : sid;
  endpoints : gmap string Endpoint;
  permits : nat;
  scale_ups : list JobId }.
Arguments mkCoord {Ch} _ _ _ _ _ _.
Arguments jobs {Ch} _.
Arguments heap {Ch} _.
Arguments next_sid {Ch} _.
Arguments endpoints {Ch} _.
Arguments permits {Ch} _.
Arguments scale_ups {Ch} _.

Inductive request_pc : Type :=
| RFast
| REntry
| RLoad (s : sid)
| RReadyGet (s : sid)
| RReadyFetch
| RReadyInsert (ep : Endpoint)
| RSubscribe (s : sid)
| RCas (s : sid)
| RSubscribeWinner (s : sid)
| RSpawn (s : sid) (rx : nat)
| RRecv (s : sid) (rx : nat)
| RDone (r : Result Endpoint)
| RDropped.

Inductive task_pc : Type :=
| TAcquire
| TScaleUp
| THealth
| THealthZero
| TInsert (ep : Endpoint)
| TSetReady (ep : Endpoint)
| TSendReady (ep : Endpoint)
| TSetDormant (r : WakeResult.t)
| TSendErr (r : WakeResult.t)
| TRemove
| TFinished.

Inductive mark_pc : Type := MRemoveEndpoint | MSetDormant | MRemoveJob | MFinished.

Inductive refresh_pc : Type :=
| FFetch
| FInsert (ep : Endpoint)
| FSetReady (ep : Endpoint)
| FRemoveEndpoint
| FSetDormant
| FRemoveJob
| FFinished (r : Result EndpointRefresh.t).

Inductive thread : Type :=
| Req (reg : JobRegistration) (pc : request_pc)
| Task (reg : JobRegistration) (s : sid) (pc : task_pc)
| Mark (job : JobId) (pc : mark_pc)
| Refresh (reg : JobRegistration) (current : Endpoint) (pc : refresh_pc).

(** What the outside world gives a step: nothing, the reply of the call the
    thread awaits, an elapsed timeout, the drop of the handler's future, or a
    tick of the abandonment poll. *)
Inductive input : Type :=
| Go
| ReplyEndpoint (r : Result (option Endpoint))
| ReplyUnit (r : Result unit)
| ReplyHealthy (r : Result Endpoint)
| Timeout
| Drop
| Poll.

Section coordinator.
Context {Ch : Type} `{Broadcast Ch}.
(** The configured wake timeout, in nanoseconds. *)
Context (wake_timeout : Z).

Implicit Types (c : Coord Ch) (ws : WakeState Ch).

(** ** state.rs *)
Definition is_dormant ws : bool := bool_decide (status ws = STATE_DORMANT).
Definition is_waking ws : bool := bool_decide (status ws = STATE_WAKING).
Definition is_ready_state ws : bool := bool_decide (status ws = STATE_READY).

(** The compare-exchange: the new state and whether this caller won. *)
Definition try_start_wake ws : bool * WakeState Ch :=
  if bool_decide (status ws = STATE_DORMANT)
  then (true, mkWakeState STATE_WAKING (notify ws))
  else (false, ws).

(** [new_waking]: a waking state, and the receiver its channel comes with. *)
Definition new_waking : WakeState Ch * nat :=
  let '(rx, ch) := bc_subscribe (bc_channel 1) in (mkWakeState STATE_WAKING ch, rx).

Definition set_ready ws : WakeState Ch := mkWakeState STATE_READY (notify ws).
Definition set_dormant ws : WakeState Ch := mkWakeState STATE_DORMANT (notify ws).

(** ** Accesses to the shared structures *)
Definition ep_insert (job : string) (ep : Endpoint) c : Coord Ch :=
  mkCoord (jobs c) (heap c) (next_sid c) (<[job := ep]> (endpoints c)) (permits c) (scale_ups c).

Definition ep_remove (job : string) c : Coord Ch :=
  mkCoord (jobs c) (heap c) (next_sid c) (delete job (endpoints c)) (permits c) (scale_ups c).

Definition jobs_remove (job : string) c : Coord Ch :=
  mkCoord (delete job (jobs c)) (heap c) (next_sid c) (endpoints c) (permits c) (scale_ups c).

Definition with_heap (h : gmap sid (WakeState Ch)) c : Coord Ch :=
  mkCoord (jobs c) h (next_sid c) (endpoints c) (permits c) (scale_ups c).

Definition with_permits (n : nat) c : Coord Ch :=
  mkCoord (jobs c) (heap c) (next_sid c) (endpoints c) n (scale_ups c).

(** An [orchestrator.scale_up] call is sent. *)
Definition log_scale_up (job : JobId) c : Coord Ch :=
  mkCoord (jobs c) (heap c) (next_sid c) (endpoints c) (permits c) (scale_ups c ++ [job]).

Definition update_state (f : WakeState Ch -> WakeState Ch) (s : sid) c : Coord Ch :=
  with_heap (alter f s (heap c)) c.

(** [if let Some(state) = self.jobs.get(job) { f(state) }]. *)
Definition update_job_state (f : WakeState Ch -> WakeState Ch) (job : string) c : Coord Ch :=
  match jobs c !! job with Some s => update_state f s c | None => c end.

(** [self.jobs.entry(job).or_insert_with(...)]: the state of the job, a new
    dormant one with a channel of capacity 16 when there is none. *)
Definition jobs_entry (job : string) c : sid * Coord Ch :=
  match jobs c !! job with
  | Some s => (s, c)
  | None =>
      let s := next_sid c in
      (s, mkCoord (<[job := s]> (jobs c))
                  (<[s := mkWakeState STATE_DORMANT (bc_channel 16)]> (heap c))
                  (S s) (endpoints c) (permits c) (scale_ups c))
  end.

Definition subscribe (s : sid) ws c : nat * Coord Ch :=
  let '(rx, ch) := bc_subscribe (notify ws) in
  (rx, with_heap (<[s := mkWakeState (status ws) ch]> (heap c)) c).

Definition send_result (r : WakeResult.t) (s : sid) c : Coord Ch :=
  update_state (fun ws => mkWakeState (status ws) (bc_send r (notify ws))) s c.

Definition drop_rx (rx : nat) (s : sid) c : Coord Ch :=
  update_state (fun ws => mkWakeState (status ws) (bc_drop rx (notify ws))) s c.

(** ** ensure_running *)

(** The outcome of the wait on the broadcast. *)
Definition wait_outcome (reg : JobRegistration) (o : res unit WakeResult.t) : Result Endpoint :=
  match o with
  | Ok (WakeResult.Ready ep) => Ok ep
  | Ok WakeResult.Cancelled => Err (NscaleError.WakeAbandoned (job_id reg))
  | Ok (WakeResult.JobNotFound j) => Err (NscaleError.JobNotFound j)
  | Ok (WakeResult.Failed m) => Err (NscaleError.Nomad ("wake failed: " +:+ m))
  | Err _ => Err (NscaleError.Nomad "wake broadcast channel closed")
  end.

Definition not_ready_error (reg : JobRegistration) : NscaleError.t :=
  NscaleError.JobNotReady
    ("job " +:+ job_id reg +:+ " marked ready but no healthy endpoint").

Definition unexpected_state_error (current : Z) (reg : JobRegistration) : NscaleError.t :=
  NscaleError.JobNotReady
    ("unexpected state " +:+ show_Z current +:+ " for job " +:+ job_id reg).

(** One step of a request, with the wake task it spawns. *)
Definition step_request (reg : JobRegistration) (pc : request_pc) (i : input) c
    : option (Coord Ch * request_pc * option thread) :=
  let job := job_id reg in
  match pc, i with
  | RFast, Go =>
      match endpoints c !! job with
      | Some ep => Some (c, RDone (Ok ep), None)
      | None => Some (c, REntry, None)
      end
  | REntry, Go => let '(s, c') := jobs_entry job c in Some (c', RLoad s, None)
  | RLoad s, Go =>
      match heap c !! s with
      | Some ws =>
          if bool_decide (status ws = STATE_READY) then Some (c, RReadyGet s, None)
          else if bool_decide (status ws = STATE_WAKING) then Some (c, RSubscribe s, None)
          else if bool_decide (status ws = STATE_DORMANT) then Some (c, RCas s, None)
          else Some (c, RDone (Err (unexpected_state_error (status ws) reg)), None)
      | None => None
      end
  | RReadyGet s, Go =>
      match endpoints c !! job with
      | Some ep => Some (c, RDone (Ok ep), None)
      | None => Some (c, RReadyFetch, None)
      end
  | RReadyFetch, ReplyEndpoint (Ok (Some ep)) => Some (c, RReadyInsert ep, None)
  | RReadyFetch, ReplyEndpoint (Ok None) => Some (c, RDone (Err (not_ready_error reg)), None)
  | RReadyFetch, ReplyEndpoint (Err e) => Some (c, RDone (Err e), None)
  | RReadyFetch, Drop => Some (c, RDropped, None)
  | RReadyInsert ep, Go => Some (ep_insert job ep c, RDone (Ok ep), None)
  | RSubscribe s, Go =>
      match heap c !! s with
      | Some ws => let '(rx, c') := subscribe s ws c in Some (c', RRecv s rx, None)
      | None => None
      end
  | RCas s, Go =>
      match heap c !! s with
      | Some ws =>
          let '(won, ws') := try_start_wake ws in
          if won then Some (with_heap (<[s := ws']> (heap c)) c, RSubscribeWinner s, None)
          else Some (c, REntry, None)
      | None => None
      end
  | RSubscribeWinner s, Go =>
      match heap c !! s with
      | Some ws => let '(rx, c') := subscribe s ws c in Some (c', RSpawn s rx, None)
      | None => None
      end
  | RSpawn s rx, Go => Some (c, RRecv s rx, Some (Task reg s TAcquire))
  | RRecv s rx, Go =>
      match heap c !! s with
      | Some ws =>
          match bc_recv rx (notify ws) with
          | (Some o, ch) =>
              Some (drop_rx rx s (with_heap (<[s := mkWakeState (status ws) ch]> (heap c)) c),
                    RDone (wait_outcome reg o), None)
          | (None, _) => None
          end
      | None => None
      end
  | RRecv s rx, Timeout =>
      Some (drop_rx rx s c,
            RDone (Err (NscaleError.WakeTimeout (job_id reg) (as_secs_f64 wake_timeout))), None)
  | RRecv s rx, Drop => Some (drop_rx rx s c, RDropped, None)
  | _, _ => None
  end.

(** ** run_wake_task and the task's continuation *)
Definition task_failure (e : NscaleError.t) : WakeResult.t :=
  match e with
  | NscaleError.WakeAbandoned _ => WakeResult.Cancelled
  | NscaleError.JobNotFound j => WakeResult.JobNotFound j
  | _ => WakeResult.Failed (error_to_string e)
  end.

(** The wait for a healthy endpoint: a reply of the service discovery, or one
    poll of [wait_until_abandoned], which gives up when two polls in a row find
    no receiver. *)
Definition step_health (reg : JobRegistration) (s : sid) (zero : bool) (i : input) c
    : option (Coord Ch * task_pc) :=
  match i with
  | ReplyHealthy (Ok ep) => Some (c, TInsert ep)
  | ReplyHealthy (Err e) => Some (c, TSetDormant (task_failure e))
  | Poll =>
      match heap c !! s with
      | Some ws =>
          if bool_decide (bc_receiver_count (notify ws) = 0%nat)
          then Some (c, if zero
                        then TSetDormant (task_failure (NscaleError.WakeAbandoned (job_id reg)))
                        else THealthZero)
          else Some (c, THealth)
      | None => None
      end
  | _ => None
  end.

Definition step_task (reg : JobRegistration) (s : sid) (pc : task_pc) (i : input) c
    : option (Coord Ch * task_pc) :=
  let job := job_id reg in
  match pc, i with
  | TAcquire, Go =>
      match permits c with
      | S n => Some (log_scale_up job (with_permits n c), TScaleUp)
      | O => None
      end
  | TScaleUp, ReplyUnit (Ok _) => Some (with_permits (S (permits c)) c, THealth)
  | TScaleUp, ReplyUnit (Err e) =>
      Some (with_permits (S (permits c)) c, TSetDormant (task_failure e))
  | THealth, _ => step_health reg s false i c
  | THealthZero, _ => step_health reg s true i c
  | TInsert ep, Go => Some (ep_insert job ep c, TSetReady ep)
  | TSetReady ep, Go => Some (update_state set_ready s c, TSendReady ep)
  | TSendReady ep, Go => Some (send_result (WakeResult.Ready ep) s c, TFinished)
  | TSetDormant r, Go => Some (update_state set_dormant s c, TSendErr r)
  | TSendErr r, Go => Some (send_result r s c, TRemove)
  | TRemove, Go => Some (jobs_remove job c, TFinished)
  | _, _ => None
  end.

(** ** mark_dormant (and invalidate, which has the same body) *)
Definition step_mark (job : JobId) (pc : mark_pc) (i : input) c : option (Coord Ch * mark_pc) :=
  match pc, i with
  | MRemoveEndpoint, Go => Some (ep_remove job c, MSetDormant)
  | MSetDormant, Go => Some (update_job_state set_dormant job c, MRemoveJob)
  | MRemoveJob, Go => Some (jobs_remove job c, MFinished)
  | _, _ => None
  end.

(** ** refresh_endpoint *)

Definition refreshed (current endpoint : Endpoint) : EndpointRefresh.t :=
  if bool_decide (host endpoint = host current) && bool_decide (port endpoint = port current)
  then EndpointRefresh.Confirmed endpoint
  else EndpointRefresh.Updated endpoint.

Definition step_refresh (reg : JobRegistration) (current : Endpoint) (pc : refresh_pc) (i : input) c
    : option (Coord Ch * refresh_pc) :=
  let job := job_id reg in
  match pc, i with
  | FFetch, ReplyEndpoint (Ok (Some ep)) => Some (c, FInsert ep)
  | FFetch, ReplyEndpoint (Ok None) => Some (c, FRemoveEndpoint)
  | FFetch, ReplyEndpoint (Err e) => Some (c, FFinished (Err e))
  | FInsert ep, Go => Some (ep_insert job ep c, FSetReady ep)
  | FSetReady ep, Go => Some (update_job_state set_ready job c, FFinished (Ok (refreshed current ep)))
  | FRemoveEndpoint, Go => Some (ep_remove job c, FSetDormant)
  | FSetDormant, Go => Some (update_job_state set_dormant job c, FRemoveJob)
  | FRemoveJob, Go => Some (jobs_remove job c, FFinished (Ok EndpointRefresh.Missing))
  | _, _ => None
  end.

Definition step_thread (t : thread) (i : input) c : option (Coord Ch * thread * option thread) :=
  match t with
  | Req reg pc =>
      match step_request reg pc i c with
      | Some (c', pc', sp) => Some (c', Req reg pc', sp)
      | None => None
      end
  | Task reg s pc =>
      match step_task reg s pc i c with
      | Some (c', pc') => Some (c', Task reg s pc', None)
      | None => None
      end
  | Mark job pc =>
      match step_mark job pc i c with
      | Some (c', pc') => Some (c', Mark job pc', None)
      | None => None
      end
  | Refresh reg cur pc =>
      match step_refresh reg cur pc i c with
      | Some (c', pc') => Some (c', Refresh reg cur pc', None)
      | None => None
      end
  end.

(** ** Executions *)
Record config := mkConfig { shared : Coord Ch; threads : gmap nat thread; next_tid : nat }.

Definition initial (nomad_concurrency : nat) : config :=
  mkConfig (mkCoord ∅ ∅ 0%nat ∅ nomad_concurrency []) ∅ 0%nat.

(** A caller enters one of the coordinator's methods, or a thread steps. *)
Inductive action : Type :=
| CallEnsure (reg : JobRegistration)
| CallMark (job : JobId)
| CallRefresh (reg : JobRegistration) (current : Endpoint)
| Step (tid : nat) (i : input).

Definition add_thread (t : thread) (g : config) : config :=
  mkConfig (shared g) (<[next_tid g := t]> (threads g)) (S (next_tid g)).

Definition exec (a : action) (g : config) : option config :=
  match a with
  | CallEnsure reg => Some (add_thread (Req reg RFast) g)
  | CallMark job => Some (add_thread (Mark job MRemoveEndpoint) g)
  | CallRefresh reg cur => Some (add_thread (Refresh reg cur FFetch) g)
  | Step tid i =>
      match threads g !! tid with
      | Some t =>
          match step_thread t i (shared g) with
          | Some (c', t', sp) =>
              let g' := mkConfig c' (<[tid := t']> (threads g)) (next_tid g) in
              Some (match sp with Some t2 => add_thread t2 g' | None => g' end)
          | None => None
          end
      | None => None
      end
  end.

Fixpoint run (l : list action) (g : config) : option config :=
  match l with
  | [] => Some g
  | a :: l' => match exec a g with Some g' => run l' g' | None => None end
  end.

(** The configurations an execution whose actions satisfy [P] can reach. *)
Definition reachable (P : action -> Prop) (n : nat) (g : config) : Prop :=
  exists l, Forall P l /\ run l (initial n) = Some g.

(** ** Statements about executions *)
Definition any_action (a : action) : Prop := True.

(** Requests only: no caller of [mark_dormant], [invalidate], [refresh_endpoint]. *)
Definition requests_only (a : action) : Prop :=
  match a with CallMark _ | CallRefresh _ _ => False | _ => True end.

(** No [scale_up] or health wait fails, and every wake ends before the first poll
    for its abandonment. *)
Definition no_failure (a : action) : Prop :=
  match a with
  | Step _ (ReplyUnit (Err _)) | Step _ (ReplyHealthy (Err _)) | Step _ Poll => False
  | _ => True
  end.

(** The wake state a thread is responsible for: from the compare-exchange it
    won until the task stores the outcome. *)
Definition owned (t : thread) : option sid :=
  match t with
  | Req _ (RSubscribeWinner s) | Req _ (RSpawn s _) => Some s
  | Task _ s (TAcquire | TScaleUp | THealth | THealthZero | TInsert _ | TSetReady _ | TSetDormant _) =>
      Some s
  | _ => None
  end.

Definition status_of (s : sid) c : option Z := status <$> heap c !! s.

(** The task step that stores [READY]. *)
Definition stores_ready (t : thread) : Prop :=
  match t with Task _ _ (TSetReady _) => True | _ => False end.

(** How a step changes the statuses, and what it does to the ownership of the
    thread that takes it; [rd] says that the step may store [READY]. *)
Inductive effect c c' (o o' osp : option nat) (rd : Prop) : Prop :=
| EffSame :
    next_sid c' = next_sid c -> (forall s, status_of s c' = status_of s c) ->
    (o' = o /\ osp = None \/ o' = None /\ osp = o) -> effect c c' o o' osp rd
| EffAlloc s :
    s = next_sid c -> next_sid c' = S s ->
    (forall s', status_of s' c' = if decide (s = s') then Some STATE_DORMANT else status_of s' c) ->
    o = None -> o' = None -> osp = None -> effect c c' o o' osp rd
| EffWin s :
    next_sid c' = next_sid c ->
    status_of s c = Some STATE_DORMANT ->
    (forall s', status_of s' c' = if decide (s = s') then Some STATE_WAKING else status_of s' c) ->
    o = None -> o' = Some s -> osp = None -> effect c c' o o' osp rd
| EffRelease s v :
    next_sid c' = next_sid c ->
    v = STATE_READY /\ rd \/ v = STATE_DORMANT /\ ~ rd ->
    (forall s', status_of s' c' = if decide (s = s') then (fun _ => v) <$> status_of s' c else status_of s' c) ->
    o = Some s -> o' = None -> osp = None -> effect c c' o o' osp rd.

(** A [scale_up] call is in progress. *)
Definition calling_nomad (t : thread) : bool :=
  match t with Task _ _ TScaleUp => true | _ => false end.

Definition nomad_calls (g : config) : nat :=
  size (filter (fun p : nat * thread => calling_nomad p.2 = true) (threads g)).

End coordinator.

Arguments config _ : clear implicits.

(** ** A channel with one queue per receiver *)
Module QueueChannel.
Record chan := mkChan { cap : nat; queues : gmap nat (list WakeResult.t) }.

Definition subscribe (ch : chan) : nat * chan :=
  let rx := fresh (dom (queues ch)) in (rx, mkChan (cap ch) (<[rx := []]> (queues ch))).

Definition recv (rx : nat) (ch : chan) : option (res unit WakeResult.t) * chan :=
  match queues ch !! rx with
  | Some (v :: q) =>
      if decide (length (v :: q) <= cap ch)%nat
      then (Some (Ok v), mkChan (cap ch) (<[rx := q]> (queues ch)))
      else (Some (Err tt), mkChan (cap ch) (<[rx := drop (length (v :: q) - cap ch) (v :: q)]> (queues ch)))
  | _ => (None, ch)
  end.

#[global] Instance broadcast : Broadcast chan := {|
  bc_channel n := mkChan n ∅;
  bc_subscribe := subscribe;
  bc_send v ch := mkChan (cap ch) ((fun q => q ++ [v]) <$> queues ch);
  bc_recv := recv;
  bc_drop rx ch := mkChan (cap ch) (delete rx (queues ch));
  bc_receiver_count ch := size (queues ch) |}.

#[global] Instance laws : BroadcastLaws chan.
Proof.
  refine {| bc_queues := queues; bc_capacity := cap |}; try done.
  - intros ch. apply (not_elem_of_dom (D:=gset nat)), is_fresh.
  - intros rx ch H. simpl. unfold recv. by rewrite H.
  - intros rx ch v q H Hl. simpl. unfold recv. rewrite H. by rewrite decide_True.
  - intros rx ch q H Hl. simpl. unfold recv. rewrite H. destruct q as [|v q]; [simpl in *; lia|].
    rewrite decide_False by lia. done.
  - intros rx ch. simpl. unfold recv. repeat case_match; done.
  - intros rx ch rx' Hne. simpl. unfold recv. repeat case_match; simpl; try done;
      by rewrite lookup_insert_ne.
Defined.
End QueueChannel.

(** ** Lemmas *)

Section waker_facts.
Context {Ch : Type} `{Broadcast Ch}.
Context (wt : Z).

Implicit Types (c : Coord Ch) (t : thread) (g : config Ch).

Lemma status_update f s s' c :
  status_of s (update_state f s' c)
  = if decide (s' = s) then (fun ws => status (f ws)) <$> heap c !! s else status_of s c.
Proof.
  unfold status_of, update_state. simpl. rewrite lookup_alter. case_decide; [|done].
  subst. by destruct (heap c !! s).
Qed.

Lemma status_insert ws s s' c :
  status_of s (with_heap (<[s' := ws]> (heap c)) c)
  = if decide (s' = s) then Some (status ws) else status_of s c.
Proof. unfold status_of. simpl. rewrite lookup_insert. by case_decide. Qed.

End waker_facts.

(** Take apart the equation of a step: every match on its way is decided. *)
Ltac step_cases :=
  repeat match goal with
  | H : Some _ = Some _ |- _ => injection H; clear H; intros; subst
  | H : None = Some _ |- _ => discriminate H
  | H : context [match ?x with _ => _ end] |- _ => destruct x eqn:?; simpl in H
  | H : (_, _) = (_, _) |- _ => injection H; clear H; intros; subst
  end.

Section effects.
Context {Ch : Type} `{Broadcast Ch}.
Implicit Types (c : Coord Ch) (t : thread).

Lemma status_update_const f v s s' c :
  (forall ws, status (f ws) = v) ->
  status_of s (update_state f s' c)
  = if decide (s' = s) then (fun _ => v) <$> status_of s c else status_of s c.
Proof.
  intros Hf. rewrite status_update. case_decide; [|done].
  unfold status_of. destruct (heap c !! s); simpl; by rewrite ?Hf.
Qed.

Lemma status_update_same f s s' c :
  (forall ws, status (f ws) = status ws) ->
  status_of s (update_state f s' c) = status_of s c.
Proof.
  intros Hf. rewrite status_update. case_decide; [|done].
  unfold status_of. destruct (heap c !! s); simpl; by rewrite ?Hf.
Qed.

(** Replacing the channel of a state keeps every status. *)
Lemma status_with_chan s s' ws ch c :
  heap c !! s' = Some ws ->
  status_of s (with_heap (<[s' := mkWakeState (status ws) ch]> (heap c)) c) = status_of s c.
Proof.
  intros E. rewrite status_insert. case_decide as E'; [|done]. subst. unfold status_of. by rewrite E.
Qed.

Lemma status_subscribe s s' ws c rx c' :
  heap c !! s' = Some ws -> subscribe s' ws c = (rx, c') -> status_of s c' = status_of s c.
Proof.
  unfold subscribe. destruct (bc_subscribe (notify ws)). intros ? [= <- <-]. by apply status_with_chan.
Qed.

Lemma next_sid_subscribe s ws c rx c' : subscribe s ws c = (rx, c') -> next_sid c' = next_sid c.
Proof. unfold subscribe. destruct (bc_subscribe (notify ws)). by intros [= <- <-]. Qed.

Lemma status_drop_rx s rx s' c : status_of s (drop_rx rx s' c) = status_of s c.
Proof. by apply status_update_same. Qed.

Lemma request_effect wt reg pc i c c' pc' sp :
  step_request wt reg pc i c = Some (c', pc', sp) ->
  effect c c' (owned (Req reg pc)) (owned (Req reg pc')) (sp ≫= owned) (stores_ready (Req reg pc)).
Proof.
  intros Hs. destruct pc, i; simpl in Hs; step_cases;
    try (apply EffSame; [first [done | by eapply next_sid_subscribe]
      | intros; rewrite ?status_drop_rx; by eauto using status_with_chan, status_subscribe
      | simpl; by auto]).
  - unfold jobs_entry in *. destruct (jobs c !! job_id reg); step_cases.
    + by apply EffSame; [| |simpl; auto].
    + apply (EffAlloc _ _ _ _ _ _ (next_sid c)); try done.
      intros s'. unfold status_of. simpl. rewrite lookup_insert. by case_decide.
  - unfold try_start_wake in *. case_bool_decide; [|done]. step_cases.
    apply (EffWin _ _ _ _ _ _ s); try done.
    + unfold status_of. rewrite Heqo. simpl. congruence.
    + intros s'. by rewrite status_insert.
Qed.

Lemma task_effect reg s pc i c c' pc' :
  step_task reg s pc i c = Some (c', pc') ->
  effect c c' (owned (Task reg s pc)) (owned (Task reg s pc')) None (stores_ready (Task reg s pc)).
Proof.
  intros Hs. destruct pc, i; simpl in Hs; unfold step_health in Hs; step_cases;
    try (apply EffSame; [done | intros; first [done|by apply status_update_same] | by left]).
  - by apply (EffRelease _ _ _ _ _ _ s STATE_READY); try done; [by left|intros; apply status_update_const].
  - by apply (EffRelease _ _ _ _ _ _ s STATE_DORMANT); try done; [right; split; [done|tauto]|intros; apply status_update_const].
Qed.

(** Storing a value other than [WAKING] in the state of a job. *)
Lemma update_job_state_waking f v job c s :
  (forall ws, status (f ws) = v) -> v <> STATE_WAKING ->
  next_sid (update_job_state f job c) = next_sid c /\
  (status_of s (update_job_state f job c) = Some STATE_WAKING -> status_of s c = Some STATE_WAKING) /\
  (status_of s c = None -> status_of s (update_job_state f job c) = None).
Proof.
  intros Hf Hv. unfold update_job_state. destruct (jobs c !! job) as [s'|]; [|done].
  split; [done|]. rewrite (status_update_const f v) by done.
  case_decide; [|done]. destruct (status_of s c); simpl; split; congruence.
Qed.

(** [mark_dormant] and [refresh_endpoint] own nothing and never store [WAKING]. *)
Lemma outsider_effect wt t i c c' t' sp :
  match t with Mark _ _ | Refresh _ _ _ => True | _ => False end ->
  step_thread wt t i c = Some (c', t', sp) ->
  (owned t = None /\ owned t' = None /\ sp = None /\ next_sid c' = next_sid c) /\
  forall s, (status_of s c' = Some STATE_WAKING -> status_of s c = Some STATE_WAKING) /\
            (status_of s c = None -> status_of s c' = None).
Proof.
  intros Ht Hs. destruct t as [| |job pc|reg cur pc]; try done; simpl in Hs;
    destruct pc, i; simpl in Hs; step_cases;
    try done;
    match goal with |- context [update_job_state ?f ?job ?c] =>
      first [ assert (Hv : forall ws, status (f ws) = STATE_DORMANT) by done;
              pose proof (fun s => update_job_state_waking f STATE_DORMANT job c s Hv) as Hw
            | assert (Hv : forall ws, status (f ws) = STATE_READY) by done;
              pose proof (fun s => update_job_state_waking f STATE_READY job c s Hv) as Hw ]
    end;
    (split; [split_and!; try done; by destruct (Hw 0%nat)|]; intros s; destruct (Hw s) as (_ & ? & ?); done || auto).
Qed.
End effects.
