(* ===== verification/WakerInv.v ===== *)
(** * WakerInv: what holds in every execution of the wake coordinator

    Invariants of the interleavings of [Waker], by induction on executions:
    a wake state never stays in [WAKING] without a task, with requests alone it
    has one, a ready job has a cached endpoint, the permits of the semaphore are
    conserved, and a thread that cannot step waits for one. *)

From S2P Require Import Prelude Str F64 Core Waker.
Local Open Scope Z_scope.

Section invariants.
Context {Ch : Type} `{Broadcast Ch}.
Context (wt : Z).

Implicit Types (c : Coord Ch) (t : thread) (g : @config Ch).

(** Thread [tid] is responsible for the wake state [s]. *)
Definition owner g (s tid : nat) : Prop :=
  exists t, threads g !! tid = Some t /\ owned t = Some s.

(** Names are taken in order. *)
Definition fresh_names g : Prop :=
  (forall s, (next_sid (shared g) <= s)%nat -> heap (shared g) !! s = None) /\
  (forall tid, (next_tid g <= tid)%nat -> threads g !! tid = None).

Lemma reachable_ind (P : action -> Prop) n (I : @config Ch -> Prop) :
  I (initial n) ->
  (forall a g g', P a -> I g -> exec wt a g = Some g' -> I g') ->
  forall g, reachable wt P n g -> I g.
Proof.
  intros H0 Hstep g (l & Hl & Hrun). revert H0 Hrun. generalize (initial (Ch:=Ch) n).
  induction Hl as [|a l Ha Hl IH]; intros g0 H0 Hrun; simpl in Hrun; [by simplify_eq|].
  destruct (exec wt a g0) as [g1|] eqn:E; [|done]. eauto.
Qed.

(** A step of the execution is a new thread or a step of one thread. *)
Lemma exec_inv a g g' :
  exec wt a g = Some g' ->
  (exists t, g' = add_thread t g /\ owned t = None /\
     match a with
     | CallEnsure reg => t = Req reg RFast
     | CallMark job => t = Mark job MRemoveEndpoint
     | CallRefresh reg cur => t = Refresh reg cur FFetch
     | Step _ _ => False
     end) \/
  (exists tid i t c' t' sp, a = Step tid i /\ threads g !! tid = Some t /\
     step_thread wt t i (shared g) = Some (c', t', sp) /\
     shared g' = c' /\
     threads g' = match sp with
                  | Some t2 => <[next_tid g := t2]> (<[tid := t']> (threads g))
                  | None => <[tid := t']> (threads g) end /\
     next_tid g' = match sp with Some _ => S (next_tid g) | None => next_tid g end).
Proof.
  destruct a as [reg|job|reg cur|tid i]; simpl; intros Hx; [left|left|left|right]; step_cases; eauto 6.
  all: do 6 eexists; split_and!; [done|eassumption|eassumption|..]. all: by case_match.
Qed.

(** The effect of any step: the outsiders never store [WAKING]. *)
Lemma step_effect t i c c' t' sp :
  step_thread wt t i c = Some (c', t', sp) ->
  match t with
  | Req _ _ | Task _ _ _ => effect c c' (owned t) (owned t') (sp ≫= owned) (stores_ready t)
  | _ => (owned t = None /\ owned t' = None /\ sp = None /\ next_sid c' = next_sid c) /\
         forall s, (status_of s c' = Some STATE_WAKING -> status_of s c = Some STATE_WAKING) /\
                   (status_of s c = None -> status_of s c' = None)
  end.
Proof.
  intros Hs. destruct t as [reg pc|reg s pc|job pc|reg cur pc].
  - simpl in Hs. destruct (step_request wt reg pc i c) as [[[]]|] eqn:E; [|done].
    simplify_eq. by eapply request_effect.
  - simpl in Hs. destruct (step_task reg s pc i c) as [[]|] eqn:E; [|done].
    simplify_eq. by eapply task_effect.
  - by eapply (outsider_effect wt (Mark job pc)).
  - by eapply (outsider_effect wt (Refresh reg cur pc)).
Qed.

Lemma status_None s c : status_of s c = None <-> heap c !! s = None.
Proof. unfold status_of. by rewrite fmap_None. Qed.

(** Fresh names stay fresh. *)
Lemma fresh_names_step a g g' : fresh_names g -> exec wt a g = Some g' -> fresh_names g'.
Proof.
  intros [Hs Ht] Hx.
  destruct (exec_inv a g g' Hx) as [(t & -> & _ & _)|(tid & i & t & c' & t' & sp & -> & Hl & Hst & Hc & Hth & Hn)].
  - split; simpl; [done|]. intros tid ?. rewrite lookup_insert_ne by lia. apply Ht. lia.
  - split.
    + intros s. rewrite Hc. apply step_effect in Hst.
      setoid_rewrite <- status_None in Hs. rewrite <- status_None.
      destruct t as [reg pc|reg s0 pc|job pc|reg cur pc].
      1,2: destruct Hst as [Hnx Hsame _|s1 -> Hnx Hal _ _ _|s1 Hnx Hd Hw _ _ _|s1 v Hnx _ Hr _ _ _];
        rewrite ?Hnx; intros Hle;
        [by rewrite Hsame, Hs
        |rewrite Hal, decide_False, Hs by lia; done
        |rewrite Hw; case_decide; subst; [|by apply Hs];
         by rewrite Hs in Hd
        |rewrite Hr, Hs by lia; by case_decide].
      1,2: destruct Hst as [(_ & _ & _ & Hnx) Hst]; rewrite Hnx; intros; by apply Hst, Hs.
    + intros tid'. rewrite Hth, Hn. assert (tid < next_tid g)%nat.
      { destruct (decide (tid < next_tid g)%nat); [done|]. rewrite Ht in Hl by lia. done. }
      destruct sp; intros; rewrite !lookup_insert_ne by lia; apply Ht; lia.
Qed.

Lemma fresh_names_initial n : fresh_names (initial (Ch:=Ch) n).
Proof. done. Qed.

(** Who owns what after a step of thread [tid]. *)
Lemma owner_step g g' tid t t' sp s tid' :
  fresh_names g -> threads g !! tid = Some t ->
  threads g' = match sp with
               | Some t2 => <[next_tid g := t2]> (<[tid := t']> (threads g))
               | None => <[tid := t']> (threads g) end ->
  owner g' s tid' <->
    (tid' <> tid /\ owner g s tid') \/ (tid' = tid /\ owned t' = Some s)
    \/ (tid' = next_tid g /\ sp ≫= owned = Some s).
Proof.
  intros [_ Hf] Hl Hth. unfold owner. rewrite Hth.
  assert (Hlt : (tid < next_tid g)%nat).
  { destruct (decide (tid < next_tid g)%nat); [done|]. rewrite Hf in Hl by lia. done. }
  assert (Hno : forall t0, threads g !! next_tid g <> Some t0) by (intros t0; rewrite Hf; done).
  destruct sp as [t2|]; simpl.
  - rewrite !lookup_insert. repeat case_decide; subst; try lia; naive_solver.
  - rewrite !lookup_insert. repeat case_decide; subst; naive_solver.
Qed.

Lemma owner_add_thread g t s tid :
  fresh_names g -> owned t = None -> owner (add_thread t g) s tid <-> owner g s tid.
Proof.
  intros [_ Hf] Ht. unfold owner. simpl. rewrite lookup_insert. case_decide; [|done].
  subst. split; [naive_solver|]. intros (t0 & Ht0 & _). by rewrite Hf in Ht0.
Qed.

(** Every wake state in [WAKING] has an owner. *)
Definition waking_owned g : Prop :=
  forall s, status_of s (shared g) = Some STATE_WAKING -> exists tid, owner g s tid.

Lemma waking_owned_step a g g' :
  fresh_names g -> waking_owned g -> exec wt a g = Some g' -> waking_owned g'.
Proof.
  intros Hf Hw Hx s Hst.
  destruct (exec_inv a g g' Hx) as
    [(t & -> & Ho & _)|(tid & i & t & c' & t' & sp & -> & Hl & Hstep & Hc & Hth & Hn)].
  - destruct (Hw s Hst) as [tid Htid]. exists tid. by apply owner_add_thread.
  - setoid_rewrite (owner_step g g' tid t t' sp s) ; [|done..].
    assert (Hold : forall tid0, owner g s tid0 -> tid0 <> tid \/ owned t = Some s).
    { intros tid0 (t0 & Ht0 & Hos). destruct (decide (tid0 = tid)); [right|by left]. congruence. }
    rewrite Hc in Hst. apply step_effect in Hstep.
    assert (Hcase : status_of s (shared g) = Some STATE_WAKING /\ (owned t = Some s ->
                    owned t' = Some s \/ sp ≫= owned = Some s) \/ owned t' = Some s).
    { destruct t as [reg pc|reg s0 pc|job pc|reg cur pc].
      3,4: left; destruct Hstep as [(-> & _) Hstep]; split; [by apply Hstep|done].
      all: destruct Hstep as [_ Hsame Ho|s1 _ _ Hal Ho _ _|s1 _ _ Hwin Ho Ho' _|s1 v _ Hv Hr Ho _ _];
        [rewrite Hsame in Hst; left; split; [done|]; intros Hos; destruct Ho as [[-> _]|[_ ->]]; tauto
        |rewrite Hal in Hst; case_decide; [done|left; split; [done|congruence]]
        |rewrite Hwin in Hst; case_decide; [right; congruence|left; split; [done|congruence]]
        |rewrite Hr in Hst; case_decide; [destruct (status_of s (shared g)); destruct Hv as [[]|[]]; by simplify_eq/=|
         left; split; [done|congruence]]]. }
    destruct Hcase as [[Hs Hpass]|Hown]; [|exists tid; tauto].
    destruct (Hw s Hs) as [tid0 Htid0].
    destruct (Hold tid0 Htid0) as [?|?]; [exists tid0; tauto|].
    destruct Hpass as [?|?]; [done|exists tid; tauto|exists (next_tid g); tauto].
Qed.

Lemma reachable_fresh P n g : reachable wt P n g -> fresh_names g.
Proof.
  apply reachable_ind; [apply fresh_names_initial|]. intros a g0 g' _. apply fresh_names_step.
Qed.

Lemma reachable_strong (P : action -> Prop) n (I : @config Ch -> Prop) :
  I (initial n) ->
  (forall a g g', P a -> fresh_names g -> I g -> exec wt a g = Some g' -> I g') ->
  forall g, reachable wt P n g -> I g.
Proof.
  intros H0 Hstep g Hr. cut (fresh_names g /\ I g); [by intros []|]. revert g Hr.
  apply reachable_ind; [split; [apply fresh_names_initial|done]|].
  intros a g g' Ha [Hf Hi] Hx. split; [by eapply fresh_names_step|by eapply Hstep].
Qed.

(** ** Executions of requests alone *)

Definition is_wake_thread t : Prop := match t with Req _ _ | Task _ _ _ => True | _ => False end.

(** Requests and tasks are the only threads, a wake state with an owner is in
    [WAKING], and it has one owner. *)
Definition exclusive g : Prop :=
  (forall tid t, threads g !! tid = Some t -> is_wake_thread t) /\
  (forall s tid, owner g s tid -> status_of s (shared g) = Some STATE_WAKING) /\
  (forall s tid tid', owner g s tid -> owner g s tid' -> tid = tid').

Lemma wake_thread_step t i c c' t' sp :
  is_wake_thread t -> step_thread wt t i c = Some (c', t', sp) ->
  is_wake_thread t' /\ (forall t2, sp = Some t2 -> is_wake_thread t2) /\
  effect c c' (owned t) (owned t') (sp ≫= owned) (stores_ready t).
Proof.
  intros Hw Hs. pose proof (step_effect t i c c' t' sp Hs) as He.
  destruct t as [reg pc|reg s pc| |]; try done; simpl in Hs.
  - destruct (step_request wt reg pc i c) as [[[c1 pc1] sp1]|] eqn:E; [|done]. simplify_eq.
    split_and!; [done| |done]. intros t2 ->. destruct pc, i; simpl in E; step_cases; done.
  - destruct (step_task reg s pc i c) as [[c1 pc1]|] eqn:E; [|done]. by simplify_eq.
Qed.

Lemma exclusive_add t g :
  fresh_names g -> owned t = None -> is_wake_thread t -> exclusive g -> exclusive (add_thread t g).
Proof.
  intros Hf Ho Ht (Hth & Hwak & Huniq). split_and!.
  - intros tid0 t0. simpl. rewrite lookup_insert. case_decide; [by intros [= <-]|by apply Hth].
  - intros s tid0. rewrite owner_add_thread by done. apply Hwak.
  - intros s tid0 tid1. rewrite !owner_add_thread by done. apply Huniq.
Qed.

Lemma tid_lt g tid t : fresh_names g -> threads g !! tid = Some t -> (tid < next_tid g)%nat.
Proof.
  intros [_ Hf] Hl. destruct (decide (tid < next_tid g)%nat); [done|]. by rewrite Hf in Hl by lia.
Qed.

Lemma exclusive_step a g g' :
  requests_only a -> fresh_names g -> exclusive g -> exec wt a g = Some g' -> exclusive g'.
Proof.
  intros Ha Hf Hex Hx.
  destruct (exec_inv a g g' Hx) as
    [(t & -> & Ho & Ht0)|(tid & i & t & c' & t' & sp & -> & Hl & Hstep & Hc & Hths & Hn)];
    [apply exclusive_add; try done; by destruct a; simplify_eq|].
  destruct Hex as (Hth & Hwak & Huniq).
    destruct (wake_thread_step t i _ c' t' sp (Hth _ _ Hl) Hstep) as (Ht' & Hsp & He).
    pose proof (fun s => owner_step g g' tid t t' sp s) as Hos. unfold exclusive. rewrite Hc.
    assert (Hown : forall s, owned t = Some s -> owner g s tid) by (intros s0 ?; by exists t).
    assert (Hlt := tid_lt _ _ _ Hf Hl).
    assert (Hnone : forall s tid0, owner g s tid0 -> (tid0 < next_tid g)%nat)
      by (intros s tid0 (t0 & Ht0 & _); by eapply tid_lt).
    split_and!.
    + intros tid0 t0. rewrite Hths. destruct sp as [t2|]; rewrite ?lookup_insert;
        repeat case_decide; intros; simplify_eq; eauto.
    + intros s tid0. rewrite (Hos s tid0) by done.
      destruct He as [_ Hsame Ho|s1 -> _ Hal Ho Ho' Hp|s1 _ Hd Hwin Ho Ho' Hp|s1 v _ Hv Hr Ho Ho' Hp];
        rewrite ?Ho, ?Ho', ?Hp, ?Hsame, ?Hal, ?Hwin, ?Hr.
      * destruct Ho as [[-> ->]|[-> ->]]; intros [[_ ?]|[[_ ?]|[_ ?]]]; eauto; done.
      * intros [[_ Hq]|[[_ ?]|[_ ?]]]; [|done..]. apply Hwak in Hq.
        rewrite decide_False; [done|]. intros <-. destruct Hf as [Hf _].
        unfold status_of in Hq. by rewrite Hf in Hq.
      * intros [[_ Hq]|[[_ ?]|[_ ?]]]; [apply Hwak in Hq; by case_decide|simplify_eq; by case_decide|done].
      * intros [[Hne Hq]|[[_ ?]|[_ ?]]]; [|done..]. rewrite decide_False; [by eapply Hwak|].
        intros ->. eauto.
    + intros s t1 t2. rewrite (Hos s t1), (Hos s t2) by done.
      destruct He as [_ Hsame Ho|s1 -> _ Hal Ho Ho' Hp|s1 _ Hd Hwin Ho Ho' Hp|s1 v _ Hv Hr Ho Ho' Hp];
        rewrite ?Ho, ?Ho', ?Hp.
      * destruct Ho as [[-> ->]|[-> ->]];
          intros [[? Hq]|[[-> Hq]|[-> Hq]]] [[? Hq']|[[-> Hq']|[-> Hq']]]; eauto; try done; exfalso; eauto.
      * intros [[_ ?]|[[_ ?]|[_ ?]]] [[_ ?]|[[_ ?]|[_ ?]]]; eauto; done.
      * intros [[? Hq]|[[-> Hq]|[_ ?]]] [[? Hq']|[[-> Hq']|[_ ?]]]; eauto; try done;
          exfalso; simplify_eq; [apply Hwak in Hq|apply Hwak in Hq']; by simplify_eq.
      * intros [[_ ?]|[[_ ?]|[_ ?]]] [[_ ?]|[[_ ?]|[_ ?]]]; eauto; done.
Qed.

(** The job and the wake state a request or a task holds on to. *)
Definition refers t : option (JobId * nat) :=
  match t with
  | Req reg (RLoad s | RReadyGet s | RSubscribe s | RCas s | RSubscribeWinner s | RSpawn s _ | RRecv s _)
  | Task reg s _ => Some (job_id reg, s)
  | _ => None
  end.

(** Where every thread of the next configuration comes from. *)
Lemma threads_after g g' tid t' sp tid0 t0 :
  threads g' = match sp with
               | Some t2 => <[next_tid g := t2]> (<[tid := t']> (threads g))
               | None => <[tid := t']> (threads g) end ->
  threads g' !! tid0 = Some t0 ->
  threads g !! tid0 = Some t0 \/ t0 = t' \/ sp = Some t0.
Proof.
  intros ->. destruct sp; rewrite ?lookup_insert; repeat case_decide; intros; simplify_eq; eauto.
Qed.

Lemma request_shape reg pc i c c' pc' sp :
  step_request wt reg pc i c = Some (c', pc', sp) ->
  (scale_ups c' = scale_ups c /\ permits c' = permits c) /\
  (jobs c' = jobs c /\ next_sid c' = next_sid c \/
   jobs c !! job_id reg = None /\ next_sid c' = S (next_sid c) /\
   jobs c' = <[job_id reg := next_sid c]> (jobs c)) /\
  (forall s, refers (Req reg pc') = Some (job_id reg, s) ->
     refers (Req reg pc) = Some (job_id reg, s) \/ jobs c' !! job_id reg = Some s) /\
  (forall t, sp = Some t -> exists s rx, t = Task reg s TAcquire /\ pc = RSpawn s rx).
Proof.
  intros Hs. destruct pc, i; simpl in Hs; step_cases; split_and!; try done; simpl; eauto;
    unfold jobs_entry, subscribe in *; step_cases; simpl; eauto 10.

  all: rewrite ?lookup_insert_eq; auto.
  intros ? [= <-]. eauto.
Qed.

Lemma task_shape reg s pc i c c' pc' :
  step_task reg s pc i c = Some (c', pc') ->
  next_sid c' = next_sid c /\
  (jobs c' = jobs c \/ pc = TRemove /\ jobs c' = delete (job_id reg) (jobs c)) /\
  (pc = TAcquire /\ pc' = TScaleUp /\ scale_ups c' = scale_ups c ++ [job_id reg] \/
   scale_ups c' = scale_ups c).
Proof.
  intros Hs. destruct pc, i; simpl in Hs; unfold step_health in Hs; step_cases;
    split_and!; auto; simpl; auto.
Qed.

(** [nm] names the job of every wake state. *)
Definition named (nm : nat -> JobId) g : Prop :=
  (forall tid t job s, threads g !! tid = Some t -> refers t = Some (job, s) ->
     nm s = job /\ (s < next_sid (shared g))%nat) /\
  (forall job s, jobs (shared g) !! job = Some s -> nm s = job /\ (s < next_sid (shared g))%nat).

Lemma refers_job t reg job s :
  (exists pc, t = Req reg pc) \/ (exists s pc, t = Task reg s pc) ->
  refers t = Some (job, s) -> job = job_id reg.
Proof. intros [[pc ->]|(? & ? & ->)]; [destruct pc|]; simpl; intros; by simplify_eq. Qed.

Lemma named_step nm tid t i c' t' sp g g' :
  is_wake_thread t -> named nm g -> threads g !! tid = Some t ->
  step_thread wt t i (shared g) = Some (c', t', sp) ->
  shared g' = c' ->
  threads g' = match sp with
               | Some t2 => <[next_tid g := t2]> (<[tid := t']> (threads g))
               | None => <[tid := t']> (threads g) end ->
  exists nm', named nm' g' /\
    forall s, (s < next_sid (shared g))%nat -> nm' s = nm s.
Proof.
  intros Hw [Hth Hj] Hl Hs <- Hts.
  destruct t as [reg pc|reg s pc| |]; try done; simpl in Hs.
  - destruct (step_request wt reg pc i (shared g)) as [[[c1 r] sp1]|] eqn:Heqo; [|done].
    injection Hs as -> <- <-.
    destruct (request_shape _ _ _ _ _ _ _ Heqo) as (_ & Hjobs & Href & Hsp).
    assert (Hthr : forall tid t job s, threads g' !! tid = Some t -> refers t = Some (job, s) ->
              (exists tid t, threads g !! tid = Some t /\ refers t = Some (job, s)) \/
              jobs (shared g') !! job = Some s).
    { intros tid0 t0 job s0 Ht0 Hr.
      destruct (threads_after g g' tid (Req reg r) sp1 tid0 t0) as [?|[->|Hspawn]]; try done; [eauto|..].
      - pose proof (refers_job (Req reg r) reg _ _ ltac:(eauto) Hr) as ->.
        destruct (Href s0 Hr) as [?|?]; eauto.
      - destruct (Hsp _ Hspawn) as (s1 & rx & -> & ->). simpl in Hr. simplify_eq. left. by eauto. }
    destruct Hjobs as [[Hjs Hn]|(Hnone & Hn & Hjs)].
    + exists nm. split; [|done]. split; rewrite Hn.
      * intros tid0 t0 job s0 Ht0 Hr. destruct (Hthr _ _ _ _ Ht0 Hr) as [(?&?&?&?)|Hq]; [eauto|].
        rewrite Hjs in Hq. eauto.
      * rewrite Hjs. eauto.
    + set (nm' s := if decide (s = next_sid (shared g)) then job_id reg else nm s).
      assert (Hold : forall s job, nm s = job /\ (s < next_sid (shared g))%nat ->
                     nm' s = job /\ (s < S (next_sid (shared g)))%nat).
      { intros s job []. unfold nm'. rewrite decide_False by lia. split; [done|lia]. }
      assert (Hnew : forall job s, jobs (shared g') !! job = Some s ->
                     nm' s = job /\ (s < S (next_sid (shared g)))%nat).
      { intros job s. rewrite Hjs, lookup_insert. case_decide; [|by eauto].
        intros [= <-]. unfold nm'. rewrite decide_True by done. split; [done|lia]. }
      exists nm'. split; [split|].
      * rewrite Hn. intros tid0 t0 job s0 Ht0 Hr.
        destruct (Hthr _ _ _ _ Ht0 Hr) as [(?&?&?&?)|?]; eauto.
      * rewrite Hn. eauto.
      * intros s ?. unfold nm'. rewrite decide_False by lia. done.
  - destruct (step_task reg s pc i (shared g)) as [[c1 r]|] eqn:Heqo; [|done].
    injection Hs as -> <- <-.
    destruct (task_shape _ _ _ _ _ _ _ Heqo) as (Hn & Hjobs & _). exists nm. split; [|done].
    split; rewrite Hn.
    + intros tid0 t0 job s0 Ht0 Hr.
      destruct (threads_after g g' tid (Task reg s r) None tid0 t0) as [?|[->|?]]; try done; eauto.
    + intros job s0 Hq. destruct Hjobs as [Hjs|[_ Hjs]]; rewrite Hjs in Hq; [eauto|].
      apply lookup_delete_Some in Hq. apply Hj, Hq.
Qed.

Lemma named_initial n : exists nm, named nm (initial (Ch:=Ch) n).
Proof. by exists (fun _ => EmptyString). Qed.

Lemma named_add nm t g : refers t = None -> named nm g -> named nm (add_thread t g).
Proof.
  intros Hr [Hth Hj]. split; [|done]. intros tid0 t0 job s. simpl. rewrite lookup_insert.
  case_decide; [|by eauto]. intros [= <-]. by rewrite Hr.
Qed.

(** ** A ready job has a cached endpoint *)

Definition cached_pc c t : Prop :=
  match t with
  | Task reg _ (TSetReady _) | Req reg (RReadyGet _) => is_Some (endpoints c !! job_id reg)
  | Req _ (RReadyFetch | RReadyInsert _) => False
  | _ => True
  end.

Definition cached (nm : nat -> JobId) g : Prop :=
  (forall s, status_of s (shared g) = Some STATE_READY -> is_Some (endpoints (shared g) !! nm s)) /\
  (forall tid t, threads g !! tid = Some t -> cached_pc (shared g) t).

Lemma endpoints_step t i c c' t' sp job :
  is_wake_thread t -> step_thread wt t i c = Some (c', t', sp) ->
  is_Some (endpoints c !! job) -> is_Some (endpoints c' !! job).
Proof.
  intros Hw Hs Hj. destruct t as [reg pc|reg s pc| |]; try done; simpl in Hs; destruct pc, i; simpl in Hs;
    unfold step_health, jobs_entry, subscribe in Hs; step_cases; try done;
    simpl; rewrite lookup_insert; by case_decide.
Qed.

Lemma ready_step t i c c' t' sp s :
  is_wake_thread t -> step_thread wt t i c = Some (c', t', sp) ->
  status_of s c' = Some STATE_READY ->
  status_of s c = Some STATE_READY \/ exists reg ep, t = Task reg s (TSetReady ep).
Proof.
  intros Hw Hs Hst. destruct (wake_thread_step _ _ _ _ _ _ Hw Hs) as (_ & _ & He).
  destruct He as [_ Hsame _|s1 _ _ Hal _ _ _|s1 _ _ Hwin _ _ _|s1 v _ Hv Hr Ho _ _].
  - left. by rewrite <- Hsame.
  - rewrite Hal in Hst. case_decide; [done|auto].
  - rewrite Hwin in Hst. case_decide; [done|auto].
  - rewrite Hr in Hst. case_decide; [subst s1|auto].
    destruct (status_of s c) as [v0|]; simpl in Hst; [|done].
    destruct Hv as [[-> Hrd]|[Hv _]]; [|by rewrite Hv in Hst].
    destruct t as [|reg s0 []| |]; try done. simpl in Ho. simplify_eq. eauto.
Qed.

Lemma cached_pc_step t i c c' t' sp nm :
  is_wake_thread t -> cached_pc c t -> step_thread wt t i c = Some (c', t', sp) ->
  (forall s, status_of s c = Some STATE_READY -> is_Some (endpoints c !! nm s)) ->
  (forall job s, refers t = Some (job, s) -> nm s = job) ->
  cached_pc c' t' /\ (forall t2, sp = Some t2 -> cached_pc c' t2).
Proof.
  intros Hw Hp Hs Hrdy Hnm.
  destruct t as [reg pc|reg s pc| |]; try done; simpl in Hs; destruct pc, i; simpl in Hs;
    unfold step_health, jobs_entry, subscribe in Hs; step_cases; simpl in *; split; try done;
    intros; simplify_eq; simpl; rewrite ?lookup_insert_eq; try by eauto.
  - rewrite <- (Hnm _ s) by done. apply Hrdy. unfold status_of.
    match goal with H : heap _ !! s = _ |- _ => rewrite H end. simpl.
    match goal with H : bool_decide _ = true |- _ => apply bool_decide_eq_true in H; by rewrite H end.
  - by match goal with H : endpoints _ !! _ = None |- _ => rewrite H in Hp; destruct Hp end.
Qed.

Lemma cached_step a g g' :
  requests_only a -> fresh_names g -> exclusive g ->
  (exists nm, named nm g /\ cached nm g) -> exec wt a g = Some g' ->
  exists nm, named nm g' /\ cached nm g'.
Proof.
  intros Ha Hf Hex (nm & Hn & Hr & Hc) Hx.
  destruct (exec_inv a g g' Hx) as
    [(t & -> & Ho & Ht0)|(tid & i & t & c' & t' & sp & -> & Hl & Hstep & Hc' & Hths & _)].
  - exists nm. assert (t = Req (match a with CallEnsure r => r | _ => mkReg EmptyString EmptyString EmptyString end) RFast) as ->
      by (by destruct a).
    split; [by apply named_add|]. split; [done|]. intros tid0 t0. simpl. rewrite lookup_insert.
    case_decide; [by intros [= <-]|by apply Hc].
  - assert (Hw : is_wake_thread t) by (by eapply Hex).
    destruct (named_step nm tid t i c' t' sp g g') as (nm' & Hn' & Hold); try done.
    exists nm'. split; [done|]. subst c'.
    assert (Hep : forall job, is_Some (endpoints (shared g) !! job) -> is_Some (endpoints (shared g') !! job))
      by (intros job; by apply (endpoints_step t i _ _ t' sp)).
    destruct (cached_pc_step t i (shared g) (shared g') t' sp nm) as [Ht' Hsp]; try done.
    { by apply (Hc tid). } { intros job s Hj. by destruct (proj1 Hn tid t job s Hl Hj). }
    split.
    + intros s Hs. destruct (ready_step _ _ _ _ _ _ _ Hw Hstep Hs) as [Hs0|(reg & ep & ->)].
      * rewrite Hold; [by apply Hep, Hr|]. destruct Hf as [Hf _].
        destruct (decide (s < next_sid (shared g))%nat); [done|].
        unfold status_of in Hs0. by rewrite Hf in Hs0 by lia.
      * destruct (proj1 Hn tid _ (job_id reg) s Hl eq_refl) as [Hnm Hlt].
        rewrite Hold, Hnm by done. apply Hep. exact (Hc _ _ Hl).
    + intros tid0 t0 Ht. destruct (threads_after g g' tid t' sp tid0 t0) as [Hq|[->|Hq]]; try done.
      * pose proof (Hc _ _ Hq) as Hcp. destruct t0 as [? []|? ? []| |]; simpl in *; by auto.
      * by apply Hsp.
Qed.

(** ** Concurrent [scale_up] calls *)

Lemma filter_insert_fresh {A} (P : nat * A -> Prop) `{!forall x, Decision (P x)} (m : gmap nat A) k v :
  m !! k = None ->
  size (filter P (<[k := v]> m)) = (size (filter P m) + if decide (P (k, v)) then 1 else 0)%nat.
Proof.
  intros Hk. case_decide.
  - rewrite map_filter_insert_True, map_size_insert_None; [lia| |done].
    rewrite map_lookup_filter_None. by left.
  - rewrite map_filter_insert_False, delete_id by done. lia.
Qed.

Lemma filter_insert_size {A} (P : nat * A -> Prop) `{!forall x, Decision (P x)} (m : gmap nat A) k v w :
  m !! k = Some v ->
  (size (filter P (<[k := w]> m)) + (if decide (P (k, v)) then 1 else 0)
   = size (filter P m) + if decide (P (k, w)) then 1 else 0)%nat.
Proof.
  intros Hk. rewrite <- (insert_delete_id m k v Hk) at 2. rewrite <- insert_delete_eq.
  rewrite !filter_insert_fresh by apply lookup_delete_eq. lia.
Qed.

(** The permits a step takes or returns are those of the calls it starts or ends. *)
Lemma permits_step t i c c' t' sp :
  step_thread wt t i c = Some (c', t', sp) ->
  (permits c' + (if calling_nomad t' then 1 else 0) = permits c + if calling_nomad t then 1 else 0)%nat /\
  (forall t2, sp = Some t2 -> calling_nomad t2 = false).
Proof.
  intros Hs. destruct t as [reg pc|reg s0 pc|job pc|reg cur pc]; simpl in Hs; destruct pc, i;
    simpl in Hs; unfold step_health, jobs_entry, subscribe, update_job_state in Hs; step_cases;
    simpl; try case_match; (split; [simpl; lia|intros; by simplify_eq/=]).
Qed.

Definition balanced (n : nat) g : Prop := (nomad_calls g + permits (shared g) = n)%nat.

Lemma balanced_step n a g g' :
  fresh_names g -> balanced n g -> exec wt a g = Some g' -> balanced n g'.
Proof.
  intros Hf Hb Hx. unfold balanced, nomad_calls in *.
  destruct (exec_inv a g g' Hx) as
    [(t & -> & Ho & Ht0)|(tid & i & t & c' & t' & sp & -> & Hl & Hstep & <- & Hths & _)].
  - simpl. rewrite filter_insert_fresh by (by apply Hf). rewrite decide_False; [lia|].
    destruct a; by simplify_eq/=.
  - destruct (permits_step _ _ _ _ _ _ Hstep) as [Hp Hsp]. rewrite Hths.
    pose proof (filter_insert_size (fun p : nat * thread => calling_nomad p.2 = true) (threads g) tid t t' Hl) as Hq.
    simpl in Hq.
    assert (Hsz : forall m : gmap nat thread, m !! next_tid g = None -> forall t2, sp = Some t2 ->
        size (filter (fun p : nat * thread => calling_nomad p.2 = true) (<[next_tid g := t2]> m))
        = size (filter (fun p : nat * thread => calling_nomad p.2 = true) m)).
    { intros m Hm t2 E. rewrite filter_insert_fresh, decide_False by (done || simpl; by rewrite (Hsp _ E)). lia. }
    destruct sp as [t2|]; [rewrite Hsz; try done|].
    2: { pose proof (tid_lt _ _ _ Hf Hl). rewrite lookup_insert_ne by lia. by apply Hf. }
    all: destruct (calling_nomad t), (calling_nomad t'); repeat case_decide; done || lia.
Qed.

(** Every wake state a thread holds on to is in the heap. *)
Definition alive g : Prop :=
  (forall s, (s < next_sid (shared g))%nat -> is_Some (heap (shared g) !! s)) /\
  (forall job s, jobs (shared g) !! job = Some s -> (s < next_sid (shared g))%nat) /\
  (forall tid t job s, threads g !! tid = Some t -> refers t = Some (job, s) -> (s < next_sid (shared g))%nat).

Lemma outsider_shape t i c c' t' sp :
  ~ is_wake_thread t -> step_thread wt t i c = Some (c', t', sp) ->
  next_sid c' = next_sid c /\ jobs c' ⊆ jobs c /\ refers t' = None /\ sp = None /\
  forall s, is_Some (heap c !! s) -> is_Some (heap c' !! s).
Proof.
  intros Hw Hs. destruct t as [reg pc|reg s0 pc|job pc|reg cur pc]; simpl in Hw; try tauto; simpl in Hs;
    destruct pc, i; simpl in Hs; unfold update_job_state in Hs; step_cases; simpl; try case_match;
    split_and!; try done; try apply delete_subseteq.
  all: intros s Hq; simpl; rewrite lookup_alter; case_decide; rewrite ?fmap_is_Some; by subst.
Qed.

Lemma heap_step t i c c' t' sp s :
  is_wake_thread t -> step_thread wt t i c = Some (c', t', sp) ->
  is_Some (heap c !! s) \/ s = next_sid c /\ next_sid c' = S (next_sid c) -> is_Some (heap c' !! s).
Proof.
  intros Hw Hs. destruct (wake_thread_step _ _ _ _ _ _ Hw Hs) as (_ & _ & He).
  setoid_rewrite <- (fmap_is_Some (status (Ch := Ch)) (heap c !! s)).
  setoid_rewrite <- (fmap_is_Some (status (Ch := Ch)) (heap c' !! s)).
  fold (status_of s c) (status_of s c').
  destruct He as [Hn Hsame _|s1 -> Hn Hal _ _ _|s1 Hn _ Hwin _ _ _|s1 v Hn _ Hr _ _ _]; intros [Hq|[-> Hq]];
    rewrite ?Hsame, ?Hal, ?Hwin, ?Hr; try case_decide; rewrite ?fmap_is_Some; try done; lia.
Qed.

Lemma wake_thread_dec t : is_wake_thread t \/ ~ is_wake_thread t.
Proof. destruct t; simpl; tauto. Qed.

(** What a step of a wake thread does to the map, with or without failures. *)
Lemma wake_bounds t i c c' t' sp :
  is_wake_thread t -> step_thread wt t i c = Some (c', t', sp) ->
  (next_sid c' = next_sid c \/ next_sid c' = S (next_sid c)) /\
  (forall job s, jobs c' !! job = Some s -> jobs c !! job = Some s \/ (s < next_sid c')%nat) /\
  (forall job s, refers t' = Some (job, s) -> refers t = Some (job, s) \/ jobs c' !! job = Some s) /\
  (forall t2 job s, sp = Some t2 -> refers t2 = Some (job, s) -> refers t = Some (job, s)).
Proof.
  intros Hw Hs. destruct t as [reg pc|reg s pc| |]; try done; simpl in Hs.
  - destruct (step_request wt reg pc i c) as [[[c1 r] sp1]|] eqn:E; [|done]. injection Hs as -> <- <-.
    destruct (request_shape _ _ _ _ _ _ _ E) as (_ & Hj & Hr & Hsp). split_and!.
    + destruct Hj as [[_ ?]|(_ & ? & _)]; auto.
    + intros job s Hq. destruct Hj as [[Hjs _]|(_ & Hn & Hjs)]; rewrite Hjs in Hq; [auto|].
      rewrite lookup_insert in Hq. case_decide; [right; simplify_eq; lia|auto].
    + intros job s Hq. pose proof (refers_job (Req reg r) reg _ _ ltac:(eauto) Hq) as ->. auto.
    + intros t2 job s -> Hq. destruct (Hsp _ eq_refl) as (s1 & rx & -> & ->). done.
  - destruct (step_task reg s pc i c) as [[c1 r]|] eqn:E; [|done]. injection Hs as -> <- <-.
    destruct (task_shape _ _ _ _ _ _ _ E) as (Hn & Hj & _). split_and!; try done; [auto| |by auto].
    intros job s0 Hq. destruct Hj as [Hj|[_ Hj]]; rewrite Hj in Hq; [auto|].
    apply lookup_delete_Some in Hq. tauto.
Qed.

Lemma alive_step a g g' : fresh_names g -> alive g -> exec wt a g = Some g' -> alive g'.
Proof.
  intros Hf (Hh & Hj & Hr) Hx.
  destruct (exec_inv a g g' Hx) as
    [(t & -> & Ho & Ht0)|(tid & i & t & c' & t' & sp & -> & Hl & Hstep & <- & Hths & _)].
  - split_and!; try done. intros tid0 t0 job s. simpl. rewrite lookup_insert.
    case_decide; [intros [= <-]; by destruct a; simplify_eq|by eapply Hr].
  - destruct (wake_thread_dec t) as [Hw'|Hw'].
    + destruct (wake_bounds _ _ _ _ _ _ Hw' Hstep) as (Hn & Hjs & Hrf & Hsp). split_and!.
      * intros s Hs. apply (heap_step _ _ _ _ _ _ s Hw' Hstep).
        destruct Hn as [Hn|Hn]; rewrite Hn in Hs; [left; by apply Hh|].
        destruct (decide (s = next_sid (shared g))); [by right|left; apply Hh; lia].
      * intros job s Hq. destruct (Hjs _ _ Hq) as [Hq'|Hq']; [|done].
        apply Hj in Hq'. destruct Hn; lia.
      * intros tid0 t0 job s Ht0 Hq.
        destruct (threads_after _ _ _ _ _ _ _ Hths Ht0) as [Ho|[->| ->]].
        -- specialize (Hr _ _ _ _ Ho Hq). destruct Hn; lia.
        -- destruct (Hrf _ _ Hq) as [Hq'|Hq'];
             [specialize (Hr _ _ _ _ Hl Hq'); destruct Hn; lia|].
           destruct (Hjs _ _ Hq') as [Hq''|Hq'']; [|done]. apply Hj in Hq''. destruct Hn; lia.
        -- specialize (Hr _ _ _ _ Hl (Hsp _ _ _ eq_refl Hq)). destruct Hn; lia.
    + destruct (outsider_shape _ _ _ _ _ _ Hw' Hstep) as (Hn & Hjs & Hrf & -> & Hhs).
      split_and!; rewrite ?Hn.
      * intros s Hs. by apply Hhs, Hh.
      * intros job s Hq. eapply Hj, lookup_weaken; done.
      * intros tid0 t0 job s Ht0 Hq.
        destruct (threads_after g g' tid t' None tid0 t0 Hths Ht0) as [Ho|[->|?]]; try done; [by eapply Hr|].
        by rewrite Hrf in Hq.
Qed.

(** What a thread still has to do. *)
Definition finished t : Prop :=
  match t with
  | Req _ (RDone _ | RDropped) | Task _ _ TFinished | Mark _ MFinished | Refresh _ _ (FFinished _) => True
  | _ => False
  end.

Definition enabled c t : Prop := exists i r, step_thread wt t i c = Some r.

Ltac enabled_by i :=
  left; exists i; simpl;
  try match goal with H : heap _ !! _ = Some _ |- _ => rewrite H end;
  unfold try_start_wake, jobs_entry, subscribe; repeat case_match; eauto.

Lemma thread_enabled c t :
  (forall job s, refers t = Some (job, s) -> is_Some (heap c !! s)) ->
  finished t \/ enabled c t \/ (exists reg s, t = Task reg s TAcquire) /\ permits c = 0%nat.
Proof.
  intros Hh. unfold enabled.
  destruct t as [reg pc|reg s pc|job pc|reg cur pc]; destruct pc; simpl in *; auto; right;
    try (specialize (Hh _ _ eq_refl) as [ws Hws]).
  all: first
    [ by enabled_by Go | by enabled_by (ReplyEndpoint (Ok None)) | by enabled_by (ReplyUnit (Ok tt))
    | by enabled_by Timeout | by enabled_by Poll | idtac ].
  destruct (permits c) eqn:Hp; [right; eauto|left]. exists Go. simpl. eauto.
Qed.

End invariants.
