(* ===== verification/WakerProps.v ===== *)
(** * WakerProps: the guarantees of the wake coordinator

    The statements about every execution of [Waker], from the invariants of
    [WakerInv], each with a concrete execution over [QueueChannel] to which it
    applies; and the two executions in which a caller is worse off than the
    coordinator's comments promise. *)

From S2P Require Import Prelude Str F64 Core Waker WakerInv.
Local Open Scope Z_scope.

(** ** Concrete executions *)
Module Scenario.
Definition web : JobRegistration := mkReg "web" "web" "main".
Definition addr : Endpoint := mkEndpoint "10.0.0.1" 8080.
Definition wt : Z := duration_from_secs 60.
Definition G := @config QueueChannel.chan.

Definition go (tid n : nat) : list action := repeat (Step tid Go) n.

(** Two requests race for the first wake of a job and one of them wins. *)
Definition race : list action :=
  [CallEnsure web; CallEnsure web] ++ go 0 3 ++ go 1 3 ++ go 0 2.

(** The winner's task runs to the end while the loser waits on the broadcast. *)
Definition shared_wake : list action :=
  race ++ go 1 4 ++ go 0 1
       ++ go 2 1 ++ [Step 2 (ReplyUnit (Ok tt)); Step 2 (ReplyHealthy (Ok addr))] ++ go 2 3
       ++ go 0 1 ++ go 1 1.

(** The loser reads [WAKING], the task finishes, and only then does the loser
    subscribe. *)
Definition late_subscriber : list action :=
  race ++ go 1 3 ++ go 0 1
       ++ go 2 1 ++ [Step 2 (ReplyUnit (Ok tt)); Step 2 (ReplyHealthy (Ok addr))] ++ go 2 3
       ++ go 0 1 ++ go 1 1.

(** A failed wake stores [DORMANT]; before it reports the failure and drops the
    state from the map, the loser of the race, which still holds the state, wins
    a wake of its own.  A third request then finds no state in the map. *)
Definition overlap : list action :=
  [CallEnsure web; CallEnsure web; CallEnsure web] ++ go 0 3 ++ go 1 3 ++ go 0 3
       ++ go 3 1 ++ [Step 3 (ReplyUnit (Err (NscaleError.Nomad "boom")))] ++ go 3 1
       ++ go 1 3 ++ go 3 2 ++ go 4 1 ++ go 1 1 ++ go 2 6 ++ go 5 1.

Definition start : G := initial 2.

Definition final (l : list action) : G := default start (run wt l start).
End Scenario.
Import Scenario.

(** ** Lemmas *)

Ltac run_scenario l := exists l; split; [repeat constructor | vm_compute; reflexivity].

#[local] Instance finished_dec t : Decision (finished t).
Proof. destruct t as [? []|? ? []|? []|? ? []]; simpl; apply _. Defined.

Section props.
Context {Ch : Type} `{Broadcast Ch}.
Context (wt : Z).
Implicit Types (g : config Ch).

Lemma exclusive_initial n : exclusive (Ch := Ch) (initial n).
Proof.
  split_and!; [done|by intros s tid (t & Ht & _)|by intros s tid tid' (t & Ht & _)].
Qed.

Lemma reachable_exclusive n g : reachable wt requests_only n g -> exclusive g.
Proof.
  apply reachable_strong; [apply exclusive_initial|].
  intros a g0 g' Ha Hf. by apply exclusive_step.
Qed.

Lemma reachable_owned n g : reachable wt any_action n g -> waking_owned g.
Proof.
  apply reachable_strong; [done|]. intros a g0 g' _ Hf. by apply waking_owned_step.
Qed.

Lemma reachable_weaken (P Q : action -> Prop) n g :
  (forall a, P a -> Q a) -> reachable wt P n g -> reachable wt Q n g.
Proof. intros HPQ (l & Hl & Hr). exists l. split; [by eapply Forall_impl|done]. Qed.

Lemma reachable_cached n g :
  reachable wt requests_only n g -> exists nm, named nm g /\ cached nm g.
Proof.
  intros Hr. cut (exclusive g /\ exists nm, named nm g /\ cached nm g); [tauto|]. revert g Hr.
  apply reachable_strong.
  - split; [apply exclusive_initial|].
    by exists (fun _ => EmptyString).
  - intros a g g' Ha Hf [Hex Hc] Hx. split; [by eapply exclusive_step|by eapply cached_step].
Qed.

Lemma reachable_balanced n g : reachable wt any_action n g -> balanced n g.
Proof.
  apply reachable_strong; [done|].
  intros a g0 g' _ Hf. by apply balanced_step.
Qed.

Lemma reachable_alive n g : reachable wt any_action n g -> alive g.
Proof.
  apply reachable_strong.
  - split_and!; simpl; [lia|intros; done..].
  - intros a g0 g' _. apply alive_step.
Qed.

(** A positive number of calls in progress is a call in progress. *)
Lemma some_nomad_call g :
  (0 < nomad_calls g)%nat -> exists tid t, threads g !! tid = Some t /\ calling_nomad t = true.
Proof.
  unfold nomad_calls. intros Hp.
  destruct (map_size_ne_0_lookup_1 (filter (fun p : nat * thread => calling_nomad p.2 = true) (threads g)))
    as (tid & t & Ht); [lia|].
  apply map_lookup_filter_Some in Ht as [Ht Hc]. by exists tid, t.
Qed.
End props.

(** ** Every execution *)

(** C8.  A wake is never lost by the coordinator: in every execution, with
    failures, abandonment, cancelled requests and concurrent [mark_dormant],
    [invalidate] and [refresh_endpoint] calls, a wake state in [WAKING] has a
    thread that won it and will store its outcome. *)
Theorem waking_has_a_waker Ch `{Broadcast Ch} wt n (g : config Ch) s :
  reachable wt any_action n g -> status_of s (shared g) = Some STATE_WAKING ->
  exists tid t, threads g !! tid = Some t /\ owned t = Some s.
Proof. intros Hr Hs. by apply (reachable_owned wt n g Hr s). Qed.

Lemma waking_has_a_waker_witness :
  status_of 0%nat (shared (final race)) = Some STATE_WAKING /\
  exists tid t, threads (final race) !! tid = Some t /\ owned t = Some 0%nat.
Proof.
  split; [vm_compute; reflexivity|].
  apply (waking_has_a_waker QueueChannel.chan wt 2 (final race)); [|vm_compute; reflexivity].
  run_scenario race.
Defined.

(** The compare-exchange admits one waker: with requests alone, even when
    wakes fail, at most one thread is responsible for a wake state, and the
    state is [WAKING] as long as one is. *)
Theorem one_waker_per_state Ch `{Broadcast Ch} wt n (g : config Ch) s tid tid' t t' :
  reachable wt requests_only n g ->
  threads g !! tid = Some t -> owned t = Some s ->
  threads g !! tid' = Some t' -> owned t' = Some s ->
  tid = tid' /\ status_of s (shared g) = Some STATE_WAKING.
Proof.
  intros Hr Ht Ho Ht' Ho'. destruct (reachable_exclusive wt n g Hr) as (_ & Hw & Hu).
  split; [apply (Hu s)|apply (Hw s tid)]; by eexists.
Qed.

Lemma one_waker_per_state_witness :
  0%nat = 0%nat /\ status_of 0%nat (shared (final race)) = Some STATE_WAKING.
Proof.
  apply (one_waker_per_state QueueChannel.chan wt 2 (final race) 0 0 0
           (Req web (RSpawn 0 0)) (Req web (RSpawn 0 0)));
    [run_scenario race | vm_compute; reflexivity..].
Defined.

(** C38.  The semaphore bounds the load on Nomad: in every execution the
    [scale_up] calls in progress and the free permits add up to the configured
    concurrency. *)
Theorem scale_up_concurrency_bounded Ch `{Broadcast Ch} wt n (g : config Ch) :
  reachable wt any_action n g -> (nomad_calls g + permits (shared g) = n)%nat.
Proof. intros Hr. by apply (reachable_balanced wt n g Hr). Qed.

Lemma scale_up_concurrency_bounded_witness :
  (nomad_calls (final overlap) + permits (shared (final overlap)) = 2)%nat.
Proof.
  apply (scale_up_concurrency_bounded QueueChannel.chan wt 2 (final overlap)).
  run_scenario overlap.
Defined.

(** C18.  No deadlock: with at least one permit, every thread of every reachable
    configuration has finished, can take a step for some reply of the outside, or
    is a wake task waiting for a permit; then all permits are held by [scale_up]
    calls in progress, and any reply to any of them frees the permit the task
    waits for. *)
Theorem no_deadlock Ch `{Broadcast Ch} wt n (g : config Ch) tid t :
  (0 < n)%nat -> reachable wt any_action n g -> threads g !! tid = Some t ->
  finished t \/ WakerInv.enabled wt (shared g) t \/
  (exists reg s, t = Task reg s TAcquire) /\ step_thread wt t Go (shared g) = None /\
  nomad_calls g = n /\
  exists tid' t', threads g !! tid' = Some t' /\ calling_nomad t' = true /\
    forall r, exists c' t2, step_thread wt t' (ReplyUnit r) (shared g) = Some (c', t2, None) /\
      is_Some (step_thread wt t Go c').
Proof.
  intros Hn Hr Ht. destruct (reachable_alive wt n g Hr) as (Hh & _ & Href).
  destruct (thread_enabled wt (shared g) t) as [?|[?|((reg & s & ->) & Hp)]]; auto.
  { intros job s Hq. by eapply Hh, Href. }
  right. right. pose proof (reachable_balanced wt n g Hr) as Hb. unfold balanced in Hb.
  split_and!; [by eauto|simpl; by rewrite Hp|lia|].
  destruct (some_nomad_call g) as (tid' & t' & Ht' & Hc); [lia|]. exists tid', t'. split_and!; [done..|].
  intros r. destruct t' as [|reg' s' []| |]; try done.
  destruct r as [[]|e]; do 2 eexists; (split; [reflexivity|by eexists]).
Qed.

(** One permit, two jobs: the second wake waits for the first call. *)
Definition one_permit : list action :=
  [CallEnsure web; CallEnsure (mkReg "api" "api" "main")] ++ go 0 6 ++ go 1 6 ++ go 2 1.

Definition crowded : G := default (initial 1) (run wt one_permit (initial 1)).

Lemma no_deadlock_witness :
  threads crowded !! 3%nat = Some (Task (mkReg "api" "api" "main") 1 TAcquire) /\
  (finished (Task (mkReg "api" "api" "main") 1 TAcquire) \/
   WakerInv.enabled wt (shared crowded) (Task (mkReg "api" "api" "main") 1 TAcquire) \/
   (exists reg s, Task (mkReg "api" "api" "main") 1 TAcquire = Task reg s TAcquire) /\
   step_thread wt (Task (mkReg "api" "api" "main") 1 TAcquire) Go (shared crowded) = None /\
   nomad_calls crowded = 1%nat /\
   exists tid' t', threads crowded !! tid' = Some t' /\ calling_nomad t' = true /\
     forall r, exists c' t2, step_thread wt t' (ReplyUnit r) (shared crowded) = Some (c', t2, None) /\
       is_Some (step_thread wt (Task (mkReg "api" "api" "main") 1 TAcquire) Go c')).
Proof.
  assert (Ht : threads crowded !! 3%nat = Some (Task (mkReg "api" "api" "main") 1 TAcquire))
    by (vm_compute; reflexivity).
  split; [exact Ht|].
  apply (no_deadlock QueueChannel.chan wt 1 crowded 3); [lia| |exact Ht].
  exists one_permit. split; [repeat constructor|vm_compute; reflexivity].
Defined.

(** A ready job is served from the cache: with requests alone, a job whose
    state is [READY] has a cached endpoint, so no request ever takes the branch
    that asks the orchestrator for one. *)
Theorem ready_job_is_cached Ch `{Broadcast Ch} wt n (g : config Ch) job s :
  reachable wt requests_only n g ->
  jobs (shared g) !! job = Some s -> status_of s (shared g) = Some STATE_READY ->
  is_Some (endpoints (shared g) !! job) /\
  forall tid reg, threads g !! tid <> Some (Req reg RReadyFetch).
Proof.
  intros Hr Hj Hs. destruct (reachable_cached wt n g Hr) as (nm & [_ Hn] & Hc & Ht).
  destruct (Hn _ _ Hj) as [<- _]. split; [by apply Hc|].
  intros tid reg Htid. by apply Ht in Htid.
Qed.

Lemma ready_job_is_cached_witness :
  is_Some (endpoints (shared (final shared_wake)) !! "web") /\
  forall tid reg, threads (final shared_wake) !! tid <> Some (Req reg RReadyFetch).
Proof.
  apply (ready_job_is_cached QueueChannel.chan wt 2 (final shared_wake) "web" 0);
    [run_scenario shared_wake | vm_compute; reflexivity..].
Defined.

(** ** Two executions that exist *)

(** A wake-up can be missed: a request that reads [WAKING] subscribes
    without looking at the state again.  When the task has reported in between,
    the request waits alone: the job is ready and its endpoint cached, every
    other thread has finished, nothing will be sent, and the only end is the
    timeout error (or the client's disconnection). *)
Theorem missed_wake_up :
  exists (g : config QueueChannel.chan) t,
    reachable wt (fun a => requests_only a /\ no_failure a) 2 g /\
    threads g !! 1%nat = Some t /\ t = Req web (RRecv 0 0) /\
    status_of 0%nat (shared g) = Some STATE_READY /\
    endpoints (shared g) !! job_id web = Some addr /\
    (forall tid t', threads g !! tid = Some t' -> tid <> 1%nat -> finished t') /\
    step_thread wt t Go (shared g) = None /\
    exists c, step_thread wt t Timeout (shared g)
              = Some (c, Req web (RDone (Err (NscaleError.WakeTimeout "web" (as_secs_f64 wt)))), None).
Proof.
  exists (final late_subscriber), (Req web (RRecv 0 0)).
  split; [exists late_subscriber; split; [repeat constructor|vm_compute; reflexivity]|].
  split; [vm_compute; reflexivity|]. split; [done|].
  split; [vm_compute; reflexivity|]. split; [vm_compute; reflexivity|]. split.
  - assert (Hth : map_Forall (fun tid t' => tid <> 1%nat -> finished t') (threads (final late_subscriber)))
      by (refine (bool_decide_unpack _ _); vm_compute; exact I).
    exact Hth.
  - split; [vm_compute; reflexivity|]. eexists. vm_compute. reflexivity.
Qed.

(** A failed wake opens a window for overlapping wakes of one job: the task
    stores [DORMANT], then reports, then drops the state from the map.  A
    request that holds the state wins a second wake in between and is told the
    first wake's failure; a third request finds no state and starts another.
    Two [scale_up] calls for one job are then in progress at once, with requests
    alone. *)
Theorem overlapping_wakes :
  exists g : config QueueChannel.chan,
    reachable wt requests_only 2 g /\
    threads g !! 4%nat = Some (Task web 0 TScaleUp) /\
    threads g !! 5%nat = Some (Task web 1 TScaleUp) /\
    jobs (shared g) !! job_id web = Some 1%nat /\
    threads g !! 1%nat = Some (Req web (RDone (Err (NscaleError.Nomad
      ("wake failed: " +:+ error_to_string (NscaleError.Nomad "boom")))))) /\
    scale_ups (shared g) = ["web"; "web"; "web"].
Proof.
  exists (final overlap). split; [run_scenario overlap|].
  split_and!; vm_compute; reflexivity.
Qed.
