(* ===== verification/WakerCount.v ===== *)
(** * WakerCount: how many wakes an execution can start

    Requests are coalesced: every [scale_up] call of a job uses up a dormant
    wake state of that job, and a dormant state comes from the first request or
    from a setback: a wake that failed or was abandoned, a caller of
    [mark_dormant] or [invalidate], a refresh that found no endpoint.  Counting
    what each thread may still use up and give back bounds the calls of every
    execution by its setbacks. *)

From S2P Require Import Prelude Str F64 Core Waker WakerInv WakerProps.
Local Open Scope Z_scope.

(** ** Setbacks *)

Section setbacks.
Context {Ch : Type} `{Broadcast Ch}.
Context (wt : Z).
Implicit Types (g : config Ch) (c : Coord Ch).

(** With this input the thread goes on to drop the wake state of the job: a failed
    [scale_up] or health wait, the second poll in a row that finds no receiver, a
    refresh that finds no endpoint. *)
Definition sets_back (job : JobId) (t : thread) (i : input) c : bool :=
  match t, i with
  | Task reg _ TScaleUp, ReplyUnit (Err _)
  | Task reg _ (THealth | THealthZero), ReplyHealthy (Err _)
  | Refresh reg _ FFetch, ReplyEndpoint (Ok None) => bool_decide (job_id reg = job)
  | Task reg s THealthZero, Poll =>
      bool_decide (job_id reg = job) &&
      from_option (fun ws => bool_decide (bc_receiver_count (notify ws) = 0%nat)) false (heap c !! s)
  | _, _ => false
  end.

(** A setback of the job: such a step, or a call of [mark_dormant] or
    [invalidate]. *)
Definition setback (job : JobId) (a : action) g : bool :=
  match a with
  | CallMark j => bool_decide (j = job)
  | Step tid i => from_option (fun t => sets_back job t i (shared g)) false (threads g !! tid)
  | _ => false
  end.

Fixpoint setbacks (job : JobId) (l : list action) g : nat :=
  match l with
  | [] => 0
  | a :: l' =>
      match exec wt a g with
      | Some g' => Nat.b2n (setback job a g) + setbacks job l' g'
      | None => 0
      end
  end.

Definition calls (job : JobId) c : nat := length (filter (fun j => j = job) (scale_ups c)).

(** ** What is left to use up *)

Definition one_if (P : Prop) `{Decision P} : nat := if decide P then 1 else 0.

(** A thread's wins that have not called [scale_up] yet, and the dormant states
    and removals it still has to bring about. *)
Definition credit (job : JobId) (t : thread) : nat :=
  match t with
  | Req reg (RSubscribeWinner _ | RSpawn _ _) | Task reg _ (TAcquire | TSendErr _ | TRemove)
  | Refresh reg _ FRemoveJob => one_if (job_id reg = job)
  | Task reg _ (TSetDormant _) | Refresh reg _ (FRemoveEndpoint | FSetDormant) => 2 * one_if (job_id reg = job)
  | Mark j (MRemoveEndpoint | MSetDormant) => 2 * one_if (j = job)
  | Mark j MRemoveJob => one_if (j = job)
  | _ => 0
  end.

(** The dormant states of the job, named by [nm]. *)
Definition dormants (nm : nat -> JobId) (job : JobId) c : nat :=
  size (filter (fun p : nat * WakeState Ch => nm p.1 = job /\ status p.2 = STATE_DORMANT) (heap c)).

Definition absent (job : JobId) c : nat := one_if (jobs c !! job = None).

Definition credits (job : JobId) (m : gmap nat thread) : nat := map_fold (fun _ t n => credit job t + n)%nat 0%nat m.

(** ** Sums over the threads *)

Lemma credits_fresh job m tid t : m !! tid = None -> credits job (<[tid := t]> m) = (credit job t + credits job m)%nat.
Proof. intros Hn. unfold credits. rewrite map_fold_insert_L; [done|intros; lia|done]. Qed.

Lemma credits_insert job m tid t t' :
  m !! tid = Some t -> (credits job (<[tid := t']> m) + credit job t = credits job m + credit job t')%nat.
Proof.
  intros Hl. rewrite <- (insert_delete_id m tid t Hl) at 2. rewrite <- insert_delete_eq.
  rewrite !credits_fresh by apply lookup_delete_eq. lia.
Qed.

(** ** Counting dormant states *)

Lemma dormants_insert nm job s ws ws' c :
  heap c !! s = Some ws ->
  (dormants nm job (with_heap (<[s := ws']> (heap c)) c) + one_if (nm s = job /\ status ws = STATE_DORMANT)
   = dormants nm job c + one_if (nm s = job /\ status ws' = STATE_DORMANT))%nat.
Proof.
  intros Hs. unfold dormants, one_if. simpl.
  exact (filter_insert_size (fun p : nat * WakeState Ch => nm p.1 = job /\ status p.2 = STATE_DORMANT) _ _ _ ws' Hs).
Qed.

(** A store into a state, when the state is there. *)
Lemma dormants_update nm job f s c :
  dormants nm job (update_state f s c) = dormants nm job c \/
  exists ws, heap c !! s = Some ws /\
    (dormants nm job (update_state f s c) + one_if (nm s = job /\ status ws = STATE_DORMANT)
     = dormants nm job c + one_if (nm s = job /\ status (f ws) = STATE_DORMANT))%nat.
Proof.
  unfold update_state. destruct (heap c !! s) as [ws|] eqn:Hs.
  - right. exists ws. split; [done|]. rewrite <- (dormants_insert nm job s ws (f ws) c Hs).
    do 3 f_equal. apply map_eq. intros s'. rewrite lookup_alter, lookup_insert.
    case_decide; subst; by rewrite ?Hs.
  - left. unfold dormants. simpl. do 2 f_equal. apply map_eq. intros s'. rewrite lookup_alter.
    case_decide; subst; by rewrite ?Hs.
Qed.

Lemma dormants_set_dormant nm job s c :
  (dormants nm job (update_state set_dormant s c) <= dormants nm job c + one_if (nm s = job))%nat.
Proof.
  destruct (dormants_update nm job set_dormant s c) as [->|(ws & _ & Hd)]; [lia|].
  unfold one_if in *. repeat case_decide; lia || tauto.
Qed.

Lemma dormants_kept nm job f s c :
  (forall ws, status (f ws) = status ws) -> dormants nm job (update_state f s c) = dormants nm job c.
Proof. intros Hf. destruct (dormants_update nm job f s c) as [?|(ws & _ & Hd)]; [done|]. rewrite Hf in Hd. lia. Qed.

Lemma dormants_set_ready nm job s c : (dormants nm job (update_state set_ready s c) <= dormants nm job c)%nat.
Proof.
  destruct (dormants_update nm job set_ready s c) as [->|(ws & _ & Hd)]; [lia|].
  unfold one_if in *. simpl in *. repeat case_decide; lia || naive_solver.
Qed.

Lemma dormants_insert_kept nm job s ws ch c :
  heap c !! s = Some ws ->
  dormants nm job (with_heap (<[s := mkWakeState (status ws) ch]> (heap c)) c) = dormants nm job c.
Proof. intros Hs. pose proof (dormants_insert nm job s ws (mkWakeState (status ws) ch) c Hs) as Hd. simpl in Hd. lia. Qed.

(** Only the heap counts. *)
Lemma dormants_heap nm job c c' : heap c' = heap c -> dormants nm job c' = dormants nm job c.
Proof. unfold dormants. by intros ->. Qed.

Lemma dormants_names nm nm' job c :
  (forall s ws, heap c !! s = Some ws -> nm' s = nm s) -> dormants nm' job c = dormants nm job c.
Proof.
  intros Hn. unfold dormants. f_equal. apply map_eq. intros s. apply option_eq. intros ws.
  rewrite !map_lookup_filter_Some. simpl. split; intros (Hs & ? & ?); split_and!; try done.
  - by rewrite <- (Hn _ _ Hs).
  - by rewrite (Hn _ _ Hs).
Qed.
End setbacks.

(** ** Steps *)

Section steps.
Context {Ch : Type} `{Broadcast Ch}.
Context (wt : Z).
Implicit Types (g : config Ch) (c : Coord Ch) (t : thread).

Ltac count_cases :=
  unfold one_if, absent in *; rewrite ?lookup_insert, ?lookup_delete in *; repeat case_decide; simplify_eq/=;
  try lia; try tauto; try naive_solver.

Lemma calls_app job j c c' :
  scale_ups c' = scale_ups c ++ [j] -> calls job c' = (calls job c + one_if (j = job))%nat.
Proof.
  unfold calls, one_if. intros ->. rewrite filter_app, length_app. f_equal.
  rewrite filter_cons, filter_nil. by case_decide.
Qed.

(** What the shared state counts for. *)
Definition tally nm job c : nat := (calls job c + dormants nm job c + absent job c)%nat.

Lemma tally_same nm job c c' :
  scale_ups c' = scale_ups c -> jobs c' = jobs c -> dormants nm job c' = dormants nm job c ->
  tally nm job c' = tally nm job c.
Proof. unfold tally, calls, absent. by intros -> -> ->. Qed.

Lemma tally_update_kept nm job f s c :
  (forall ws, status (f ws) = status ws) -> tally nm job (update_state f s c) = tally nm job c.
Proof. intros Hf. apply tally_same; [done..|]. by apply dormants_kept. Qed.

Lemma tally_insert_kept nm job s ws ch c :
  heap c !! s = Some ws -> tally nm job (with_heap (<[s := mkWakeState (status ws) ch]> (heap c)) c) = tally nm job c.
Proof. intros Hs. apply tally_same; [done..|]. by apply dormants_insert_kept. Qed.

(** A new state takes the place of an absent entry. *)
Lemma tally_entry nm job j s c c' :
  jobs_entry j c = (s, c') -> heap c !! next_sid c = None -> (forall j s, jobs c' !! j = Some s -> nm s = j) ->
  (tally nm job c' <= tally nm job c)%nat.
Proof.
  unfold jobs_entry. destruct (jobs c !! j) as [s0|] eqn:Hj; intros [= <- <-] Hn Hnm; [done|].
  pose proof (Hnm j (next_sid c) (lookup_insert_eq _ _ _)) as Hs. unfold tally, calls, dormants. simpl.
  rewrite (filter_insert_fresh (fun p : nat * WakeState Ch => nm p.1 = job /\ status p.2 = STATE_DORMANT)) by done.
  simpl. unfold absent, one_if. simpl. rewrite lookup_insert. repeat case_decide; simplify_eq; try lia; naive_solver.
Qed.

(** The compare-exchange uses up a dormant state. *)
Lemma tally_win nm job s ws ws' c :
  heap c !! s = Some ws -> try_start_wake ws = (true, ws') ->
  (tally nm job (with_heap (<[s := ws']> (heap c)) c) + one_if (nm s = job) = tally nm job c)%nat.
Proof.
  unfold try_start_wake. case_bool_decide as Hd; [|done]. intros Hs [= <-].
  pose proof (dormants_insert nm job s ws (mkWakeState STATE_WAKING (notify ws)) c Hs) as Hi.
  unfold tally, calls, absent. simpl. unfold one_if in *. simpl in *.
  repeat case_decide; try lia; naive_solver.
Qed.

(** A state made dormant, an entry removed. *)
Lemma tally_set_dormant nm job s c :
  (tally nm job (update_state set_dormant s c) <= tally nm job c + one_if (nm s = job))%nat.
Proof. pose proof (dormants_set_dormant nm job s c). unfold tally, calls, absent in *. simpl in *. lia. Qed.

Lemma tally_set_ready nm job s c : (tally nm job (update_state set_ready s c) <= tally nm job c)%nat.
Proof. pose proof (dormants_set_ready nm job s c). unfold tally, calls, absent in *. simpl in *. lia. Qed.

Lemma tally_remove nm job j c : (tally nm job (jobs_remove j c) <= tally nm job c + one_if (j = job))%nat.
Proof.
  unfold tally, calls, absent, one_if. simpl. rewrite (dormants_heap nm job c (jobs_remove j c)) by done.
  rewrite lookup_delete. repeat case_decide; simplify_eq; try lia; naive_solver.
Qed.

(** A call of [scale_up]. *)
Lemma tally_called nm job j n c :
  (tally nm job (log_scale_up j (with_permits n c)) = tally nm job c + one_if (j = job))%nat.
Proof.
  unfold tally. rewrite (calls_app job j c) by done.
  rewrite (dormants_heap nm job c) by done. unfold absent. simpl. lia.
Qed.

(** Nothing but the thread's own credit changes. *)
Ltac settle :=
  try match goal with |- (tally ?nm ?job ?x + _ <= tally ?nm ?job ?y + _ + _)%nat => rewrite (tally_same nm job y x) by done end;
  unfold one_if; repeat case_bool_decide; repeat case_decide; simpl; tauto || lia.

Lemma request_potential nm job reg pc i c c' pc' sp :
  step_request wt reg pc i c = Some (c', pc', sp) ->
  (forall j s, refers (Req reg pc) = Some (j, s) -> nm s = j) ->
  (forall j s, jobs c' !! j = Some s -> nm s = j) ->
  heap c !! next_sid c = None ->
  (tally nm job c' + credit job (Req reg pc') + from_option (credit job) 0 sp
   <= tally nm job c + credit job (Req reg pc))%nat.
Proof.
  intros Hs Hr Hj Hn. destruct pc, i; simpl in Hs; step_cases; cbn [credit from_option]; try lia;
    try (rewrite (tally_same nm job c) by done; lia); try (unfold drop_rx; rewrite tally_update_kept by done; try lia).
  - pose proof (tally_entry nm job _ _ _ _ Heqp Hn Hj). lia.
  - unfold subscribe in *. step_cases. rewrite tally_insert_kept by done. lia.
  - pose proof (tally_win nm job _ _ _ _ Heqo Heqp). rewrite (Hr _ _ eq_refl) in *. lia.
  - unfold subscribe in *. step_cases. rewrite tally_insert_kept by done. lia.
  - rewrite tally_insert_kept by done. lia.
Qed.

Lemma task_potential nm job reg s pc i c c' pc' :
  step_task reg s pc i c = Some (c', pc') -> nm s = job_id reg ->
  (tally nm job c' + credit job (Task reg s pc')
   <= tally nm job c + credit job (Task reg s pc) + 2 * Nat.b2n (sets_back job (Task reg s pc) i c))%nat.
Proof.
  intros Hs Hn. destruct pc, i; simpl in Hs; unfold step_health in Hs; step_cases; cbn [credit sets_back];
    try (by settle).
  - rewrite tally_called. lia.
  - rewrite Heqo. cbn [from_option]. rewrite Heqb, andb_true_r. settle.
  - pose proof (tally_set_ready nm job s c). lia.
  - unfold send_result. rewrite tally_update_kept by done. lia.
  - pose proof (tally_set_dormant nm job s c). rewrite Hn in *. lia.
  - unfold send_result. rewrite tally_update_kept by done. lia.
  - pose proof (tally_remove nm job (job_id reg) c). lia.
Qed.

(** A store into the job's state, found through the map. *)
Lemma tally_job_dormant nm job j c :
  (forall s, jobs c !! j = Some s -> nm s = j) ->
  (tally nm job (update_job_state set_dormant j c) <= tally nm job c + one_if (j = job))%nat.
Proof.
  intros Hn. unfold update_job_state. destruct (jobs c !! j) as [s|]; [|lia].
  pose proof (tally_set_dormant nm job s c). rewrite (Hn s eq_refl) in *. lia.
Qed.

Lemma tally_job_ready nm job j c : (tally nm job (update_job_state set_ready j c) <= tally nm job c)%nat.
Proof. unfold update_job_state. case_match; [apply tally_set_ready|done]. Qed.

Lemma outsider_potential nm job t i c c' t' sp :
  ~ is_wake_thread t -> step_thread wt t i c = Some (c', t', sp) ->
  (forall j s, jobs c !! j = Some s -> nm s = j) ->
  (tally nm job c' + credit job t'
   <= tally nm job c + credit job t + 2 * Nat.b2n (sets_back job t i c))%nat.
Proof.
  intros Hw Hs Hn. destruct t as [| |j pc|reg cur pc]; simpl in Hw; try tauto; simpl in Hs;
    destruct pc, i; simpl in Hs; step_cases; cbn [credit sets_back]; try (by settle).
  - pose proof (tally_job_dormant nm job j c (Hn j)). lia.
  - pose proof (tally_remove nm job j c). lia.
  - pose proof (tally_job_ready nm job (job_id reg) c). lia.
  - pose proof (tally_job_dormant nm job (job_id reg) c (Hn _)). lia.
  - pose proof (tally_remove nm job (job_id reg) c). lia.
Qed.

(** The state named below stays named: a new state gets the name of its job. *)
Lemma named_stays nm tid t i c' t' sp g g' :
  fresh_names g -> named nm g -> threads g !! tid = Some t ->
  step_thread wt t i (shared g) = Some (c', t', sp) -> shared g' = c' ->
  threads g' = match sp with
               | Some t2 => <[next_tid g := t2]> (<[tid := t']> (threads g))
               | None => <[tid := t']> (threads g) end ->
  exists nm', named nm' g' /\ named nm' g /\ forall job, tally nm' job (shared g) = tally nm job (shared g).
Proof.
  intros Hf Hn Hl Hs Hsh Hths. destruct (wake_thread_dec t) as [Hw|Hw].
  - destruct (named_step wt nm tid t i c' t' sp g g') as (nm' & Hn' & Hold); try done.
    exists nm'. split; [done|]. split.
    + destruct Hn as [Hnt Hnj]. split; intros; [destruct (Hnt tid0 t0 job s) as [<- ?]|destruct (Hnj job s) as [<- ?]];
        try done; by rewrite Hold.
    + intros job. unfold tally. rewrite (dormants_names nm nm'); [done|]. intros s ws Hws. apply Hold.
      destruct Hf as [Hf _]. destruct (decide (s < next_sid (shared g))%nat); [done|]. by rewrite Hf in Hws by lia.
  - destruct (outsider_shape wt t i _ c' t' sp Hw Hs) as (Hnx & Hj & Hr & -> & _).
    exists nm. split; [|done]. destruct Hn as [Hnt Hnj]. rewrite <- Hsh in *. split; rewrite Hnx.
    + intros tid0 t0 job s Ht0 Hq.
      destruct (threads_after g g' tid t' None tid0 t0 Hths Ht0) as [?|[->|?]]; [by eauto|congruence|done].
    + intros job s Hq. by eapply Hnj, lookup_weaken.
Qed.

Lemma step_potential nm job t i c c' t' sp :
  step_thread wt t i c = Some (c', t', sp) ->
  (forall j s, refers t = Some (j, s) -> nm s = j) ->
  (forall j s, jobs c !! j = Some s -> nm s = j) -> (forall j s, jobs c' !! j = Some s -> nm s = j) ->
  heap c !! next_sid c = None ->
  (tally nm job c' + credit job t' + from_option (credit job) 0 sp
   <= tally nm job c + credit job t + 2 * Nat.b2n (sets_back job t i c))%nat.
Proof.
  intros Hs Hr Hj Hj' Hn. destruct t as [reg pc|reg s pc|j pc|reg cur pc].
  - simpl in Hs. destruct (step_request wt reg pc i c) as [[[c1 pc1] sp1]|] eqn:E; simplify_eq.
    pose proof (request_potential nm job reg pc i c c' pc1 sp E Hr Hj' Hn). lia.
  - simpl in Hs. destruct (step_task reg s pc i c) as [[c1 pc1]|] eqn:E; simplify_eq.
    pose proof (task_potential nm job reg s pc i c c' pc1 E (Hr _ _ eq_refl)). simpl from_option. lia.
  - pose proof (outsider_potential nm job (Mark j pc) i c c' t' sp id Hs Hj).
    destruct (outsider_shape wt (Mark j pc) i c c' t' sp id Hs) as (_ & _ & _ & -> & _). simpl from_option. lia.
  - pose proof (outsider_potential nm job (Refresh reg cur pc) i c c' t' sp id Hs Hj).
    destruct (outsider_shape wt (Refresh reg cur pc) i c c' t' sp id Hs) as (_ & _ & _ & -> & _). simpl from_option. lia.
Qed.

Definition potential nm job g : nat := (tally nm job (shared g) + credits job (threads g))%nat.

(** A step adds at most two for a setback, and nothing otherwise. *)
Lemma exec_potential nm job a g g' :
  fresh_names g -> named nm g -> exec wt a g = Some g' ->
  exists nm', named nm' g' /\ (potential nm' job g' <= potential nm job g + 2 * Nat.b2n (setback job a g))%nat.
Proof.
  intros Hf Hn Hx.
  destruct (exec_inv wt a g g' Hx) as
    [(t & -> & Ho & Ht0)|(tid & i & t & c' & t' & sp & -> & Hl & Hstep & <- & Hths & _)].
  - exists nm. split; [apply named_add; [by destruct a; simplify_eq|done]|].
    unfold potential. simpl. rewrite credits_fresh by (by apply Hf).
    destruct a; simplify_eq; simpl; unfold one_if; repeat case_decide; repeat case_bool_decide; simpl; lia || tauto.
  - destruct (named_stays nm tid t i (shared g') t' sp g g') as (nm' & Hn' & Hn0 & Hd); [done..|].
    exists nm'. split; [done|]. unfold potential. rewrite Hths, <- Hd. simpl setback. rewrite Hl. simpl from_option.
    pose proof (credits_insert job _ tid t t' Hl).
    pose proof (step_potential nm' job t i (shared g) (shared g') t' sp Hstep) as Hp.
    assert (Hfr : forall t2, sp = Some t2 -> (<[tid := t']> (threads g)) !! next_tid g = None).
    { intros t2 _. pose proof (tid_lt _ _ _ Hf Hl). rewrite lookup_insert_ne by lia. by apply Hf. }
    destruct Hn0 as [Hn0t Hn0j]. specialize (Hp ltac:(intros; by eapply Hn0t) ltac:(intros; by eapply Hn0j)
      ltac:(intros; by eapply Hn') ltac:(by apply Hf)).
    destruct sp as [t2|]; simpl in *; [rewrite credits_fresh by eauto|]; lia.
Qed.

Lemma run_potential job l : forall nm g g',
  fresh_names g -> named nm g -> run wt l g = Some g' ->
  exists nm', (potential nm' job g' <= potential nm job g + 2 * setbacks wt job l g)%nat.
Proof.
  induction l as [|a l IH]; intros nm g g' Hf Hn Hr; simpl in Hr.
  - simplify_eq. exists nm. simpl. lia.
  - simpl. destruct (exec wt a g) as [g1|] eqn:E; [|done].
    destruct (exec_potential nm job a g g1 Hf Hn E) as (nm1 & Hn1 & Hp1).
    destruct (IH nm1 g1 g') as (nm' & Hp'); [by eapply fresh_names_step|done..|]. exists nm'. lia.
Qed.
End steps.

(** ** The theorem *)

(** C1.  Requests are coalesced.  In every execution, whatever fails, is abandoned,
    cancelled or called concurrently, the [scale_up] calls of a job are at most
    one and two more for each setback of that job: a failed [scale_up] or health
    wait, an abandoned wake, a call of [mark_dormant] or [invalidate], a refresh
    that found no endpoint.  Without a setback the requests of the job, however
    many and however interleaved, make at most one call.  Two per setback is what
    [overlapping_wakes] shows can happen. *)
Theorem scale_ups_are_coalesced Ch `{Broadcast Ch} wt n l (g : config Ch) job :
  run wt l (initial n) = Some g ->
  (calls job (shared g) <= 1 + 2 * setbacks wt job l (initial (Ch := Ch) n))%nat.
Proof.
  intros Hr.
  destruct (run_potential wt job l (fun _ => EmptyString) (initial n) g) as (nm & Hp); [done|done|done|].
  assert (H0 : potential (fun _ => EmptyString) job (initial (Ch := Ch) n) = 1%nat) by reflexivity.
  unfold potential, tally in *. lia.
Qed.

(** Two requests for one job make one call, in an execution without setbacks; the
    three requests of [overlap], where the first wake fails, make three. *)
Import Scenario.
Lemma scale_ups_are_coalesced_witness :
  setbacks wt "web" shared_wake start = 0%nat /\
  (calls "web" (shared (final shared_wake)) <= 1 + 2 * setbacks wt "web" shared_wake start)%nat /\
  setbacks wt "web" overlap start = 1%nat /\
  (calls "web" (shared (final overlap)) <= 1 + 2 * setbacks wt "web" overlap start)%nat /\ calls "web" (shared (final overlap)) = 3%nat.
Proof.
  split; [vm_compute; reflexivity|].
  split; [apply (scale_ups_are_coalesced QueueChannel.chan wt 2 shared_wake); vm_compute; reflexivity|].
  split; [vm_compute; reflexivity|].
  split; [apply (scale_ups_are_coalesced QueueChannel.chan wt 2 overlap); vm_compute; reflexivity|].
  vm_compute. reflexivity.
Defined.
