(* ===== verification/WakerOrigin.v ===== *)
(** * WakerOrigin: where the outcomes of a wake come from

    Invariants of the interleavings of [Waker] about the values that travel
    through the coordinator: the endpoint cache, the broadcast channels and the
    threads.  An execution's history lists what the outside world told each
    thread; every outcome of a request, every cached endpoint and every queued
    report is traced back to an entry of the history for the same job.  The
    receivers of a wake state's channel are the requests that wait on it, so a
    report reaches every one of them, and only a wake without receivers is
    abandoned. *)

From S2P Require Import Prelude Str F64 Core Waker WakerInv WakerProps.
Local Open Scope Z_scope.

(** ** Histories *)

(** The job a thread works for. *)
Definition thread_job (t : thread) : JobId :=
  match t with
  | Req reg _ | Task reg _ _ | Refresh reg _ _ => job_id reg
  | Mark job _ => job
  end.

(** What an input told a thread: the thread, its job, the input. *)
Definition entry : Type := (nat * JobId * input)%type.

(** The outside world delivered [ep] for the job. *)
Definition delivered (hs : list entry) (job : JobId) (ep : Endpoint) : Prop :=
  exists tid, In (tid, job, ReplyHealthy (Ok ep)) hs \/ In (tid, job, ReplyEndpoint (Ok (Some ep))) hs.

(** The report a wake task makes of an input. *)
Definition report_of (job : JobId) (i : input) : option WakeResult.t :=
  match i with
  | ReplyHealthy (Ok ep) => Some (WakeResult.Ready ep)
  | ReplyHealthy (Err e) | ReplyUnit (Err e) => Some (task_failure e)
  | Poll => Some (task_failure (NscaleError.WakeAbandoned job))
  | _ => None
  end.

Definition reported (hs : list entry) (job : JobId) (r : WakeResult.t) : Prop :=
  exists tid i, In (tid, job, i) hs /\ report_of job i = Some r.

(** Why a request ends as it does: an endpoint delivered for its job, the report
    of a wake task of its job, the reply to its own lookup, its own timeout, or a
    lagged receiver. *)
Inductive caused (wt : Z) (hs : list entry) (tid : nat) (reg : JobRegistration) : Result Endpoint -> Prop :=
| CausedByDelivery ep : delivered hs (job_id reg) ep -> caused wt hs tid reg (Ok ep)
| CausedByReport r : reported hs (job_id reg) r -> caused wt hs tid reg (wait_outcome reg (Ok r))
| CausedByNoEndpoint : In (tid, job_id reg, ReplyEndpoint (Ok None)) hs ->
    caused wt hs tid reg (Err (not_ready_error reg))
| CausedByLookup e : In (tid, job_id reg, ReplyEndpoint (Err e)) hs -> caused wt hs tid reg (Err e)
| CausedByTimeout : In (tid, job_id reg, Timeout) hs ->
    caused wt hs tid reg (Err (NscaleError.WakeTimeout (job_id reg) (as_secs_f64 wt)))
| CausedByLag : caused wt hs tid reg (wait_outcome reg (Err tt)).

Section history.
Context {Ch : Type} `{Broadcast Ch}.
Context (wt : Z).
Implicit Types (g : config Ch).

(** What an action tells the thread that takes it. *)
Definition heard (a : action) g : list entry :=
  match a with
  | Step tid i => match threads g !! tid with Some t => [(tid, thread_job t, i)] | None => [] end
  | _ => []
  end.

Fixpoint history (l : list action) g : list entry :=
  match l with
  | [] => []
  | a :: l' => match exec wt a g with Some g' => heard a g ++ history l' g' | None => [] end
  end.

(** Induction on executions with their histories. *)
Lemma history_ind n (I : list entry -> config Ch -> Prop) :
  I [] (initial n) ->
  (forall hs a g g', fresh_names g -> alive g -> I hs g -> exec wt a g = Some g' -> I (hs ++ heard a g) g') ->
  forall l g, run wt l (initial n) = Some g -> I (history l (initial n)) g.
Proof.
  intros H0 Hstep.
  cut (forall l hs g0 g, fresh_names g0 -> alive g0 -> I hs g0 ->
         run wt l g0 = Some g -> I (hs ++ history l g0) g).
  { intros Hc l g Hr. apply (Hc l [] (initial n)); [apply fresh_names_initial| |done..].
    split_and!; simpl; [lia|intros; done..]. }
  induction l as [|a l IH]; intros hs g0 g Hf Ha Hi Hr; simpl in Hr.
  - simplify_eq. simpl. by rewrite app_nil_r.
  - simpl. destruct (exec wt a g0) as [g1|] eqn:E; [|done]. rewrite app_assoc.
    apply IH; [by eapply fresh_names_step|by eapply alive_step|by eapply Hstep|done].
Qed.
End history.

Lemma delivered_app hs hs' job ep : delivered hs job ep -> delivered (hs ++ hs') job ep.
Proof. intros (tid & Hd). exists tid. rewrite !in_app_iff. tauto. Qed.

Lemma reported_app hs hs' job r : reported hs job r -> reported (hs ++ hs') job r.
Proof. intros (tid & i & Hi & Hr). exists tid, i. by rewrite in_app_iff; auto. Qed.

Lemma caused_app wt hs hs' tid reg r : caused wt hs tid reg r -> caused wt (hs ++ hs') tid reg r.
Proof.
  destruct 1.
  - apply CausedByDelivery. by apply delivered_app.
  - apply CausedByReport. by apply reported_app.
  - apply CausedByNoEndpoint, in_app_iff. by left.
  - apply CausedByLookup, in_app_iff. by left.
  - apply CausedByTimeout, in_app_iff. by left.
  - apply CausedByLag.
Qed.

(** A task never reports readiness on a failure. *)
Lemma task_failure_not_ready e ep : task_failure e <> WakeResult.Ready ep.
Proof. by destruct e. Qed.

Lemma reported_ready hs job ep : reported hs job (WakeResult.Ready ep) -> delivered hs job ep.
Proof.
  intros (tid & i & Hi & Hr). exists tid.
  destruct i as [| |[]|[]| | |]; simpl in Hr; try done; injection Hr as Hr;
    first [by apply task_failure_not_ready in Hr | subst; by auto].
Qed.

(** ** How a step changes the channels *)

Section channels.
Context {Ch : Type} `{BroadcastLaws Ch}.
Context (wt : Z).
Implicit Types (c : Coord Ch) (t : thread) (g : config Ch).

(** The values the receivers of a wake state have still to receive. *)
Definition queues_of (s : nat) c : gmap nat (list WakeResult.t) :=
  from_option (fun ws => bc_queues (notify ws)) ∅ (heap c !! s).

(** The receiver a thread holds, and the report it is about to send. *)
Definition holds t : option (nat * nat) :=
  match t with Req _ (RSpawn s rx | RRecv s rx) => Some (s, rx) | _ => None end.

Definition sends t : option (nat * WakeResult.t) :=
  match t with
  | Task _ s (TSendReady ep) => Some (s, WakeResult.Ready ep)
  | Task _ s (TSendErr r) => Some (s, r)
  | _ => None
  end.

(** The queues of one wake state change from those of [c] by [f]. *)
Definition queues_change (s : nat) (f : gmap nat (list WakeResult.t) -> gmap nat (list WakeResult.t)) c c' : Prop :=
  forall s', queues_of s' c' = if decide (s = s') then f (queues_of s c) else queues_of s' c.

Inductive chan_effect c c' (h h' : option (nat * nat)) (v : option (nat * WakeResult.t)) : Prop :=
| ChanSame : (forall s, queues_of s c' = queues_of s c) -> h' = h -> v = None -> chan_effect c c' h h' v
| ChanSubscribe s rx : is_Some (heap c !! s) -> queues_of s c !! rx = None ->
    queues_change s (insert rx []) c c' -> h = None -> h' = Some (s, rx) -> v = None -> chan_effect c c' h h' v
| ChanDrop s rx : queues_change s (delete rx) c c' -> h = Some (s, rx) -> h' = None -> v = None ->
    chan_effect c c' h h' v
| ChanSend s r : queues_change s (fmap (fun q => q ++ [r])) c c' -> h = None -> h' = None -> v = Some (s, r) ->
    chan_effect c c' h h' v.

Lemma queues_update f s s' c :
  queues_of s (update_state f s' c)
  = if decide (s' = s) then from_option (fun ws => bc_queues (notify (f ws))) ∅ (heap c !! s) else queues_of s c.
Proof.
  unfold queues_of, update_state. simpl. rewrite lookup_alter. case_decide; [|done].
  subst. by destruct (heap c !! s).
Qed.

Lemma queues_update_same f s s' c :
  (forall ws, notify (f ws) = notify ws) -> queues_of s (update_state f s' c) = queues_of s c.
Proof.
  intros Hf. rewrite queues_update. case_decide; [|done].
  unfold queues_of. destruct (heap c !! s); simpl; by rewrite ?Hf.
Qed.

Lemma queues_update_job f s job c :
  (forall ws, notify (f ws) = notify ws) -> queues_of s (update_job_state f job c) = queues_of s c.
Proof. intros Hf. unfold update_job_state. case_match; [by apply queues_update_same|done]. Qed.

Lemma queues_insert ws s s' c :
  queues_of s (with_heap (<[s' := ws]> (heap c)) c)
  = if decide (s' = s) then bc_queues (notify ws) else queues_of s c.
Proof. unfold queues_of. simpl. rewrite lookup_insert. by case_decide. Qed.

Lemma queues_heap s ws c : heap c !! s = Some ws -> queues_of s c = bc_queues (notify ws).
Proof. intros Hs. unfold queues_of. by rewrite Hs. Qed.

Lemma queues_drop_rx rx s c : queues_change s (delete rx) c (drop_rx rx s c).
Proof.
  intros s'. unfold drop_rx. rewrite queues_update. case_decide; [|done]. subst.
  unfold queues_of. destruct (heap c !! s') as [ws|]; simpl; [apply bc_drop_queues|by rewrite delete_empty].
Qed.

(** A receiver that has received and is dropped. *)
Lemma queues_received rx s ws c :
  heap c !! s = Some ws ->
  queues_change s (delete rx) c
    (drop_rx rx s (with_heap (<[s := mkWakeState (status ws) (bc_recv rx (notify ws)).2]> (heap c)) c)).
Proof.
  intros Hs s'. rewrite queues_drop_rx. rewrite !queues_insert. destruct (decide (s = s)); [|done]. simpl.
  case_decide as Hd; [|done]. rewrite (queues_heap _ _ _ Hs).
  apply map_eq. intros rx'. rewrite !lookup_delete. case_decide; [done|].
  by apply bc_recv_others.
Qed.

Lemma queues_send r s c : queues_change s (fmap (fun q => q ++ [r])) c (send_result r s c).
Proof.
  intros s'. unfold send_result. rewrite queues_update. case_decide; [|done]. subst.
  unfold queues_of. destruct (heap c !! s') as [ws|]; simpl; [apply bc_send_queues|by rewrite fmap_empty].
Qed.

Lemma queues_subscribe s ws c rx c' :
  heap c !! s = Some ws -> subscribe s ws c = (rx, c') ->
  queues_of s c !! rx = None /\ queues_change s (insert rx []) c c'.
Proof.
  intros Hs. unfold subscribe.
  pose proof (bc_subscribe_fresh (notify ws)) as Hf. pose proof (bc_subscribe_queues (notify ws)) as Hq.
  destruct (bc_subscribe (notify ws)) as [rx0 ch]. intros [= <- <-]. simpl in *.
  rewrite (queues_heap _ _ _ Hs). split; [done|]. intros s'. rewrite queues_insert.
  case_decide; [|done]. by rewrite (queues_heap _ _ _ Hs).
Qed.

Lemma queues_entry job c s c' : jobs_entry job c = (s, c') ->
  heap c !! next_sid c = None -> forall s', queues_of s' c' = queues_of s' c.
Proof.
  unfold jobs_entry. destruct (jobs c !! job); intros [= <- <-] Hn s'; [done|].
  unfold queues_of. simpl. rewrite lookup_insert. case_decide; [|done]. subst. rewrite Hn.
  simpl. apply bc_channel_queues.
Qed.

Lemma request_chan reg pc i c c' pc' sp :
  heap c !! next_sid c = None ->
  step_request wt reg pc i c = Some (c', pc', sp) ->
  chan_effect c c' (holds (Req reg pc)) (holds (Req reg pc')) None /\
  (forall t2, sp = Some t2 -> holds t2 = None).
Proof.
  intros Hn Hs. split; [|destruct pc, i; simpl in Hs; step_cases; try done; intros; by simplify_eq].
  destruct pc, i; simpl in Hs; step_cases; try (by apply ChanSame).
  - apply ChanSame; [|done..]. by eapply queues_entry.
  - destruct (queues_subscribe s _ _ _ _ Heqo Heqp). by apply (ChanSubscribe _ _ _ _ _ s n).
  - unfold try_start_wake in *. case_bool_decide; [|done]. step_cases.
    apply ChanSame; [|done..]. intros s'. rewrite queues_insert. case_decide; [|done]. subst.
    by rewrite (queues_heap _ _ _ Heqo).
  - destruct (queues_subscribe s _ _ _ _ Heqo Heqp). by apply (ChanSubscribe _ _ _ _ _ s n).
  - apply (ChanDrop _ _ _ _ _ s rx); try done.
    pose proof (queues_received rx s w c Heqo) as Hq. by rewrite Heqp in Hq.
  - apply (ChanDrop _ _ _ _ _ s rx); try done. apply queues_drop_rx.
  - apply (ChanDrop _ _ _ _ _ s rx); try done. apply queues_drop_rx.
Qed.

Lemma task_chan reg s pc i c c' pc' :
  step_task reg s pc i c = Some (c', pc') ->
  chan_effect c c' None None (sends (Task reg s pc)).
Proof.
  intros Hs. destruct pc, i; simpl in Hs; unfold step_health in Hs; step_cases;
    try (by apply ChanSame).
  - apply ChanSame; [|done..]. intros s'. by apply queues_update_same.
  - apply (ChanSend _ _ _ _ _ s (WakeResult.Ready ep)); try done. apply queues_send.
  - apply ChanSame; [|done..]. intros s'. by apply queues_update_same.
  - apply (ChanSend _ _ _ _ _ s r); try done. apply queues_send.
Qed.

Lemma chan_step t i c c' t' sp :
  heap c !! next_sid c = None ->
  step_thread wt t i c = Some (c', t', sp) ->
  chan_effect c c' (holds t) (holds t') (sends t) /\ (forall t2, sp = Some t2 -> holds t2 = None).
Proof.
  intros Hn Hs. destruct t as [reg pc|reg s pc|job pc|reg cur pc]; simpl in Hs.
  - destruct (step_request wt reg pc i c) as [[[c1 r] sp1]|] eqn:E; [|done]. simplify_eq.
    by eapply request_chan.
  - destruct (step_task reg s pc i c) as [[c1 r]|] eqn:E; [|done]. simplify_eq.
    split; [|done]. by eapply task_chan.
  - split; [|by destruct (step_mark job pc i c) as [[]|]; simplify_eq].
    destruct pc, i; simpl in Hs; step_cases; try done; apply ChanSame; try done;
      intros; by apply queues_update_job.
  - split; [|by destruct (step_refresh reg cur pc i c) as [[]|]; simplify_eq].
    destruct pc, i; simpl in Hs; step_cases; try done; apply ChanSame; try done;
      intros; by apply queues_update_job.
Qed.

(** ** The receivers of a channel are the requests that wait on it *)

Definition holder g (s rx tid : nat) : Prop :=
  exists t, threads g !! tid = Some t /\ holds t = Some (s, rx).

Definition receivers g : Prop :=
  (forall s rx, is_Some (queues_of s (shared g) !! rx) <-> exists tid, holder g s rx tid) /\
  (forall s rx tid tid', holder g s rx tid -> holder g s rx tid' -> tid = tid').

Lemma holder_at g tid t s rx : threads g !! tid = Some t -> holder g s rx tid <-> holds t = Some (s, rx).
Proof. intros Hl. unfold holder. rewrite Hl. naive_solver. Qed.

(** Who holds a receiver after a step of thread [tid]. *)
Lemma holder_step g g' tid t t' sp s rx tid' :
  fresh_names g -> threads g !! tid = Some t ->
  (forall t2, sp = Some t2 -> holds t2 = None) ->
  threads g' = match sp with
               | Some t2 => <[next_tid g := t2]> (<[tid := t']> (threads g))
               | None => <[tid := t']> (threads g) end ->
  holder g' s rx tid' <-> if decide (tid' = tid) then holds t' = Some (s, rx) else holder g s rx tid'.
Proof.
  intros Hf Hl Hsp Hths. unfold holder. rewrite Hths.
  pose proof (tid_lt _ _ _ Hf Hl) as Hlt. destruct Hf as [_ Hf].
  specialize (Hf (next_tid g) ltac:(done)).
  destruct sp as [t2|]; rewrite ?lookup_insert; repeat case_decide; subst; try lia; naive_solver.
Qed.

Lemma holder_add t g s rx tid :
  fresh_names g -> holds t = None -> holder (add_thread t g) s rx tid <-> holder g s rx tid.
Proof.
  intros [_ Hf] Ht. specialize (Hf (next_tid g) ltac:(done)). unfold holder. simpl.
  rewrite lookup_insert. case_decide; subst; naive_solver.
Qed.

Lemma queues_after c c' h h' v s rx q :
  chan_effect c c' h h' v -> queues_of s c' !! rx = Some q ->
  q = [] \/ queues_of s c !! rx = Some q \/
  exists r q0, v = Some (s, r) /\ queues_of s c !! rx = Some q0 /\ q = q0 ++ [r].
Proof.
  intros He Hq. destruct He as [Hsame _ _|s0 rx0 _ _ Hc _ _ _|s0 rx0 Hc _ _ _|s0 r0 Hc _ _ Hv].
  - rewrite Hsame in Hq. auto.
  - rewrite (Hc s) in Hq. case_decide; [subst|by auto].
    rewrite lookup_insert in Hq. case_decide; simplify_eq; auto.
  - rewrite (Hc s) in Hq. case_decide; [subst|by auto]. apply lookup_delete_Some in Hq as []. auto.
  - rewrite (Hc s) in Hq. case_decide; [subst|by auto].
    rewrite lookup_fmap in Hq. apply fmap_Some in Hq as (q0 & ? & ->). eauto 10.
Qed.

Section step.
Context (g g' : config Ch) (tid : nat) (t t' : thread) (sp : option thread).
Context (Hrc : receivers g) (Hl : threads g !! tid = Some t).
Context (Hh : forall s rx tid', holder g' s rx tid' <->
                if decide (tid' = tid) then holds t' = Some (s, rx) else holder g s rx tid').

(** A receiver neither taken nor given up keeps its holder. *)
Lemma holders_same s rx :
  (holds t = Some (s, rx) <-> holds t' = Some (s, rx)) ->
  (exists tid', holder g' s rx tid') <-> (exists tid', holder g s rx tid').
Proof.
  intros Hq. apply exist_proper. intros tid'. rewrite Hh. case_decide; [|done].
  subst. by rewrite (holder_at _ _ _ _ _ Hl).
Qed.

Lemma receivers_live_step :
  chan_effect (shared g) (shared g') (holds t) (holds t') (sends t) ->
  forall s rx, is_Some (queues_of s (shared g') !! rx) <-> exists tid', holder g' s rx tid'.
Proof.
  destruct Hrc as [Hr Hu]. intros He s rx.
  destruct He as [Hsame Ho _|s0 rx0 _ Hnone Hq Ho Ho' _|s0 rx0 Hq Ho Ho' _|s0 r0 Hq Ho Ho' _].
  - by rewrite Hsame, (Hr s rx), holders_same by (by rewrite Ho).
  - rewrite (Hq s). destruct (decide (s = s0 /\ rx = rx0)) as [[-> ->]|Hne].
    + case_decide; [|done]. rewrite lookup_insert_eq. split; [|done]. intros _. exists tid.
      apply Hh. by case_decide.
    + rewrite holders_same, <- (Hr s rx) by (rewrite Ho, Ho'; naive_solver).
      case_decide; [subst; rewrite lookup_insert_ne by naive_solver|]; done.
  - rewrite (Hq s). destruct (decide (s = s0 /\ rx = rx0)) as [[-> ->]|Hne].
    + case_decide; [|done]. rewrite lookup_delete_eq. split; [by intros []|]. intros (tid' & Ht').
      apply Hh in Ht'. case_decide as Hd; [congruence|].
      exfalso. apply Hd, (Hu s0 rx0); [done|]. by apply (holder_at _ _ _ _ _ Hl).
    + rewrite holders_same, <- (Hr s rx) by (rewrite Ho, Ho'; naive_solver).
      case_decide; [subst; rewrite lookup_delete_ne by naive_solver|]; done.
  - rewrite holders_same, <- (Hr s rx), (Hq s) by (by rewrite Ho, Ho').
    case_decide; [subst; by rewrite lookup_fmap, fmap_is_Some|done].
Qed.

Lemma receivers_unique_step :
  chan_effect (shared g) (shared g') (holds t) (holds t') (sends t) ->
  forall s rx tid1 tid2, holder g' s rx tid1 -> holder g' s rx tid2 -> tid1 = tid2.
Proof.
  destruct Hrc as [Hr Hu]. intros He s rx.
  assert (Hnew : holds t' = Some (s, rx) -> forall tid', holder g s rx tid' -> tid' = tid).
  { destruct He as [_ -> _|s0 rx0 _ Hnone _ _ -> _|s0 rx0 _ _ -> _|s0 r0 _ _ -> _]; try done.
    - intros Ht tid' Ht'. apply (Hu s rx); [done|]. by apply (holder_at _ _ _ _ _ Hl).
    - intros [= -> ->] tid' Ht'. assert (is_Some (queues_of s (shared g) !! rx)) as [? ?] by (apply Hr; eauto).
      congruence. }
  intros t1 t2 H1 H2. apply Hh in H1, H2. case_decide as Hd1; case_decide as Hd2; subst; try done.
  - exfalso. by apply Hd2, Hnew.
  - exfalso. by apply Hd1, Hnew.
  - by apply (Hu s rx).
Qed.
End step.

Lemma receivers_step a g g' :
  fresh_names g -> receivers g -> exec wt a g = Some g' -> receivers g'.
Proof.
  intros Hf Hrc Hx.
  destruct (exec_inv wt a g g' Hx) as
    [(t & -> & _ & Ht0)|(tid & i & t & c' & t' & sp & -> & Hl & Hstep & <- & Hths & _)].
  - assert (Ht : holds t = None) by (by destruct a; simplify_eq).
    destruct Hrc as [Hr Hu]. split.
    + intros s rx. rewrite (Hr s rx). apply exist_proper. intros tid. by rewrite holder_add.
    + intros s rx tid tid'. rewrite !holder_add by done. apply Hu.
  - destruct (chan_step t i _ _ _ _ (proj1 Hf _ ltac:(done)) Hstep) as [He Hsp].
    pose proof (fun s rx tid' => holder_step g g' tid t t' sp s rx tid' Hf Hl Hsp Hths) as Hh.
    split; [by eapply receivers_live_step|by eapply receivers_unique_step].
Qed.

Lemma receivers_initial n : receivers (initial n).
Proof.
  split.
  - intros s rx. unfold queues_of. simpl. rewrite lookup_empty. simpl. rewrite lookup_empty. split.
    + by intros [].
    + by intros (tid & t & Ht & _).
  - by intros s rx tid tid' (t & Ht & _).
Qed.

Lemma reachable_receivers n g : reachable wt any_action n g -> receivers g.
Proof.
  apply reachable_strong; [apply receivers_initial|]. intros a g0 g' _. by apply receivers_step.
Qed.
End channels.

(** ** Every value has an origin *)

Section origin.
Context {Ch : Type} `{BroadcastLaws Ch}.
Context (wt : Z).
Implicit Types (c : Coord Ch) (t : thread) (g : config Ch).

(** The job and the wake state that the map, a request or a task ties together. *)
Definition tied g (job : JobId) (s : nat) : Prop :=
  jobs (shared g) !! job = Some s \/
  exists tid t, threads g !! tid = Some t /\ refers t = Some (job, s).

Lemma tied_lt g job s : alive g -> tied g job s -> (s < next_sid (shared g))%nat.
Proof. intros (_ & Hj & Ht) [Hq|(tid & t & Hl & Hq)]; eauto. Qed.

Lemma jobs_step t i c c' t' sp job s :
  step_thread wt t i c = Some (c', t', sp) -> jobs c' !! job = Some s ->
  jobs c !! job = Some s \/ s = next_sid c /\ job = thread_job t.
Proof.
  intros Hs Hj. destruct t as [reg pc|reg s0 pc|j pc|reg cur pc]; simpl in Hs; destruct pc, i; simpl in Hs;
    unfold step_health, jobs_entry, subscribe, update_job_state in Hs; step_cases; simpl in *; auto;
    try (apply lookup_delete_Some in Hj as []; by auto);
    try (rewrite lookup_insert in Hj; case_decide; simplify_eq; by auto);
    case_match; simpl in *; auto.
Qed.

Lemma refers_step t i c c' t' sp t0 job s :
  step_thread wt t i c = Some (c', t', sp) -> t0 = t' \/ sp = Some t0 -> refers t0 = Some (job, s) ->
  refers t = Some (job, s) \/ jobs c' !! job = Some s.
Proof.
  intros Hs Ht0 Hr. destruct (wake_thread_dec t) as [Hw|Hw].
  - destruct (wake_bounds _ _ _ _ _ _ _ Hw Hs) as (_ & _ & Hrt & Hsp).
    destruct Ht0 as [->| ->]; [by auto|left; by eapply Hsp].
  - destruct (outsider_shape _ _ _ _ _ _ _ Hw Hs) as (_ & _ & Hrt & -> & _).
    destruct Ht0 as [->|]; [congruence|done].
Qed.

(** Only a fresh state is newly tied, to the job of the thread that made it. *)
Lemma tied_step g g' tid t i t' sp job s :
  threads g !! tid = Some t ->
  step_thread wt t i (shared g) = Some (shared g', t', sp) ->
  threads g' = match sp with
               | Some t2 => <[next_tid g := t2]> (<[tid := t']> (threads g))
               | None => <[tid := t']> (threads g) end ->
  tied g' job s -> tied g job s \/ s = next_sid (shared g) /\ job = thread_job t.
Proof.
  intros Hl Hs Hths Ht.
  assert (Hj : jobs (shared g') !! job = Some s -> tied g job s \/ s = next_sid (shared g) /\ job = thread_job t).
  { intros Hq. destruct (jobs_step _ _ _ _ _ _ _ _ Hs Hq); [left; by left|by right]. }
  destruct Ht as [Hq|(tid0 & t0 & Ht0 & Hr)]; [by auto|].
  destruct (threads_after g g' tid t' sp tid0 t0 Hths Ht0) as [Ho|Hnew]; [left; right; by eauto|].
  assert (Hnew' : t0 = t' \/ sp = Some t0) by tauto.
  destruct (refers_step _ _ _ _ _ _ _ _ _ Hs Hnew' Hr); [left; right; eauto|auto].
Qed.

(** What a thread carries. *)
Definition pc_caused (hs : list entry) (tid : nat) t : Prop :=
  match t with
  | Req reg (RReadyInsert ep) => delivered hs (job_id reg) ep
  | Req reg (RDone r) => caused wt hs tid reg r
  | Task reg _ (TInsert ep | TSetReady ep | TSendReady ep) => reported hs (job_id reg) (WakeResult.Ready ep)
  | Task reg _ (TSetDormant r | TSendErr r) => reported hs (job_id reg) r
  | Refresh reg _ (FInsert ep | FSetReady ep) => delivered hs (job_id reg) ep
  | Refresh reg _ (FFinished (Ok (EndpointRefresh.Confirmed ep | EndpointRefresh.Updated ep))) =>
      delivered hs (job_id reg) ep
  | _ => True
  end.

Definition known_status (v : Z) : Prop := v = STATE_DORMANT \/ v = STATE_WAKING \/ v = STATE_READY.

(** The invariant: statuses are valid, a state belongs to one job, and the
    cache, the queues and the threads carry what was delivered. *)
Record traced (hs : list entry) g : Prop := mkTraced {
  traced_status : forall s v, status_of s (shared g) = Some v -> known_status v;
  traced_job : forall job job' s, tied g job s -> tied g job' s -> job = job';
  traced_cache : forall job ep, endpoints (shared g) !! job = Some ep -> delivered hs job ep;
  traced_queues : forall job s rx q, tied g job s -> queues_of s (shared g) !! rx = Some q ->
                    Forall (reported hs job) q;
  traced_threads : forall tid t, threads g !! tid = Some t -> pc_caused hs tid t }.

Lemma status_step t i c c' t' sp s v :
  step_thread wt t i c = Some (c', t', sp) -> status_of s c' = Some v ->
  status_of s c = Some v \/ known_status v.
Proof.
  unfold known_status. intros Hs Hv. destruct (wake_thread_dec t) as [Hw|Hw].
  - destruct (wake_thread_step _ _ _ _ _ _ _ Hw Hs) as (_ & _ & He).
    destruct He as [_ Hsame _|s1 _ _ Hal _ _ _|s1 _ _ Hwin _ _ _|s1 v1 _ Hv1 Hr _ _ _].
    + left. by rewrite <- Hsame.
    + rewrite Hal in Hv. case_decide; simplify_eq; auto.
    + rewrite Hwin in Hv. case_decide; simplify_eq; auto.
    + rewrite Hr in Hv. case_decide; [|auto].
      destruct (status_of s c); simplify_eq/=. naive_solver.
  - destruct t as [| |job pc|reg cur pc]; try (by simpl in Hw; tauto);
      destruct pc, i; simpl in Hs; unfold update_job_state in Hs; step_cases; auto.
    all: first [rewrite (status_update_const _ STATE_DORMANT) in Hv by done
               |rewrite (status_update_const _ STATE_READY) in Hv by done].
    all: case_decide; auto; destruct (status_of s _); simplify_eq/=; auto.
Qed.

Lemma pc_caused_app hs hs' tid t : pc_caused hs tid t -> pc_caused (hs ++ hs') tid t.
Proof.
  destruct t as [reg []|reg s []|job []|reg cur [| | | | | |[[]|]]]; simpl;
    eauto using delivered_app, reported_app, caused_app.
Qed.

(** A step caches only what its thread carries. *)
Lemma cache_step hs tid t i c c' t' sp job ep :
  step_thread wt t i c = Some (c', t', sp) -> pc_caused hs tid t ->
  endpoints c' !! job = Some ep ->
  endpoints c !! job = Some ep \/ job = thread_job t /\ delivered hs job ep.
Proof.
  intros Hs Hp Hj. destruct t as [reg pc|reg s0 pc|j pc|reg cur pc]; simpl in Hs; destruct pc, i; simpl in Hs;
    unfold step_health, jobs_entry, subscribe, update_job_state in Hs; step_cases; simpl in *; auto;
    try (apply lookup_delete_Some in Hj as []; by auto);
    try (rewrite lookup_insert in Hj; case_decide; simplify_eq; eauto using reported_ready).
Qed.

(** What a receiver is given. *)
Lemma recv_caused hs reg tid s rx ws q o ch c :
  heap c !! s = Some ws -> queues_of s c !! rx = Some q -> Forall (reported hs (job_id reg)) q ->
  bc_recv rx (notify ws) = (Some o, ch) -> caused wt hs tid reg (wait_outcome reg o).
Proof.
  intros Hs Hq Hf Hrecv. rewrite (queues_heap _ _ _ Hs) in Hq.
  destruct q as [|v q]; [by rewrite (bc_recv_pending _ _ Hq) in Hrecv|].
  destruct (decide (length (v :: q) <= bc_capacity (notify ws))%nat).
  - pose proof (bc_recv_value _ _ _ _ Hq l) as Hv. rewrite Hrecv in Hv. simpl in Hv. simplify_eq.
    apply CausedByReport. by inversion Hf.
  - pose proof (bc_recv_lagged _ _ _ Hq ltac:(lia)) as Hv. rewrite Hrecv in Hv. simpl in Hv. simplify_eq.
    apply CausedByLag.
Qed.

Lemma in_last {A} (l : list A) x : In x (l ++ [x]).
Proof. apply in_app_iff. right. by left. Qed.

Lemma reported_last hs tid job i r : report_of job i = Some r -> reported (hs ++ [(tid, job, i)]) job r.
Proof. intros Hr. exists tid, i. split; [apply in_last|done]. Qed.

Lemma delivered_last hs tid job ep i :
  i = ReplyHealthy (Ok ep) \/ i = ReplyEndpoint (Ok (Some ep)) -> delivered (hs ++ [(tid, job, i)]) job ep.
Proof. intros Hi. exists tid. destruct Hi as [<- | <-]; [left|right]; apply in_last. Qed.

Lemma request_pc_caused hs tid reg pc i c c' pc' sp :
  step_request wt reg pc i c = Some (c', pc', sp) ->
  pc_caused hs tid (Req reg pc) ->
  (forall s v, status_of s c = Some v -> known_status v) ->
  (forall ep, endpoints c !! job_id reg = Some ep -> delivered hs (job_id reg) ep) ->
  (forall s rx, holds (Req reg pc) = Some (s, rx) ->
     exists q, queues_of s c !! rx = Some q /\ Forall (reported hs (job_id reg)) q) ->
  pc_caused (hs ++ [(tid, job_id reg, i)]) tid (Req reg pc').
Proof.
  intros Hs Hp Hst Hc Hq. destruct pc, i; simpl in Hs; step_cases; simpl in *; try done;
    try (by apply CausedByDelivery, delivered_app, Hc);
    try (by apply delivered_last; auto).
  - (* an invalid status *)
    repeat case_bool_decide; try done.
    destruct (Hst s (status w)) as [?|[?|?]]; try done. by unfold status_of; rewrite Heqo.
  - apply CausedByNoEndpoint, in_last.
  - apply CausedByLookup, in_last.
  - by apply CausedByDelivery, delivered_app.
  - destruct (Hq _ _ eq_refl) as (q & Hq1 & Hq2).
    apply caused_app. by eapply recv_caused.
  - apply CausedByTimeout, in_last.
Qed.

Lemma task_pc_caused hs tid reg s pc i c c' pc' :
  step_task reg s pc i c = Some (c', pc') ->
  pc_caused hs tid (Task reg s pc) ->
  pc_caused (hs ++ [(tid, job_id reg, i)]) tid (Task reg s pc').
Proof.
  intros Hs Hp. destruct pc, i; simpl in Hs; unfold step_health in Hs; step_cases; simpl in *; try done;
    first [by apply reported_last | by apply reported_app].
Qed.

Lemma refresh_pc_caused hs tid reg cur pc i c c' pc' :
  step_refresh reg cur pc i c = Some (c', pc') ->
  pc_caused hs tid (Refresh reg cur pc) ->
  pc_caused (hs ++ [(tid, job_id reg, i)]) tid (Refresh reg cur pc').
Proof.
  intros Hs Hp. destruct pc, i; simpl in Hs; step_cases; simpl in *; try done;
    try (unfold refreshed; destruct (_ && _));
    first [by apply delivered_last; auto | by apply delivered_app].
Qed.

Lemma pc_caused_step hs tid t i c c' t' sp :
  step_thread wt t i c = Some (c', t', sp) ->
  pc_caused hs tid t ->
  (forall s v, status_of s c = Some v -> known_status v) ->
  (forall ep, endpoints c !! thread_job t = Some ep -> delivered hs (thread_job t) ep) ->
  (forall s rx, holds t = Some (s, rx) ->
     exists q, queues_of s c !! rx = Some q /\ Forall (reported hs (thread_job t)) q) ->
  pc_caused (hs ++ [(tid, thread_job t, i)]) tid t' /\
  forall t2 tid2 hs2, sp = Some t2 -> pc_caused hs2 tid2 t2.
Proof.
  intros Hs Hp Hst Hc Hq. destruct t as [reg pc|reg s pc|job pc|reg cur pc]; simpl in Hs.
  - destruct (step_request wt reg pc i c) as [[[c1 r] sp1]|] eqn:E; [|done]. simplify_eq.
    split; [by eapply request_pc_caused|]. intros t2 tid2 hs2 ->.
    destruct (request_shape _ _ _ _ _ _ _ _ E) as (_ & _ & _ & Hsp).
    by destruct (Hsp _ eq_refl) as (? & ? & -> & _).
  - destruct (step_task reg s pc i c) as [[c1 r]|] eqn:E; [|done]. simplify_eq.
    split; [by eapply task_pc_caused|done].
  - by destruct (step_mark job pc i c) as [[]|]; simplify_eq.
  - destruct (step_refresh reg cur pc i c) as [[c1 r]|] eqn:E; [|done]. simplify_eq.
    split; [by eapply refresh_pc_caused|done].
Qed.

Lemma holds_refers t s rx : holds t = Some (s, rx) -> refers t = Some (thread_job t, s).
Proof. intros Hh. by destruct t as [reg []| | |]; simplify_eq/=. Qed.

Lemma sends_reported hs tid t s r :
  sends t = Some (s, r) -> pc_caused hs tid t ->
  reported hs (thread_job t) r /\ refers t = Some (thread_job t, s).
Proof. intros Hs Hp. by destruct t as [|reg s0 []| |]; simplify_eq/=. Qed.

Lemma traced_add hs t g :
  refers t = None -> (forall tid, pc_caused hs tid t) -> traced hs g -> traced hs (add_thread t g).
Proof.
  intros Hr Hp [Hst Hj Hc Hq Hth].
  assert (Ht : forall job s, tied (add_thread t g) job s -> tied g job s).
  { intros job s [?|(tid & t0 & Hl & Hr0)]; [by left|right]. simpl in Hl.
    rewrite lookup_insert in Hl. case_decide; simplify_eq; eauto. }
  split; try done; [by eauto..|]. intros tid t0. simpl. rewrite lookup_insert.
  case_decide; [intros [= <-]; apply Hp|apply Hth].
Qed.

Section step.
Context (hs : list entry) (g g' : config Ch) (tid : nat) (t t' : thread) (i : input) (sp : option thread).
Context (Hf : fresh_names g) (Ha : alive g) (Hrc : receivers g) (Htr : traced hs g).
Context (Hl : threads g !! tid = Some t).
Context (Hstep : step_thread wt t i (shared g) = Some (shared g', t', sp)).
Context (Hths : threads g' = match sp with
                             | Some t2 => <[next_tid g := t2]> (<[tid := t']> (threads g))
                             | None => <[tid := t']> (threads g) end).

Lemma held_reports s rx :
  holds t = Some (s, rx) ->
  exists q, queues_of s (shared g) !! rx = Some q /\ Forall (reported hs (thread_job t)) q.
Proof using Hrc Htr Hl.
  intros Hh. destruct Hrc as [Hr _]. destruct (proj2 (Hr s rx)) as [q Hq].
  { exists tid. by apply (holder_at _ _ _ _ _ Hl). }
  exists q. split; [done|]. eapply traced_queues; [exact Htr| |exact Hq]. right.
  exists tid, t. split; [done|]. by eapply holds_refers.
Qed.

Lemma traced_queues_step job s rx q :
  tied g' job s -> queues_of s (shared g') !! rx = Some q ->
  Forall (reported (hs ++ [(tid, thread_job t, i)]) job) q.
Proof using Hf Ha Htr Hl Hstep Hths.
  intros Ht Hq.
  assert (Hmono : forall q0, Forall (reported hs job) q0 -> Forall (reported (hs ++ [(tid, thread_job t, i)]) job) q0).
  { intros q0 Hq0. eapply Forall_impl; [exact Hq0|]. intros r. apply reported_app. }
  destruct (chan_step wt t i _ _ _ _ (proj1 Hf _ ltac:(done)) Hstep) as [He _].
  destruct (queues_after _ _ _ _ _ _ _ _ He Hq) as [->|Hold]; [done|].
  destruct (tied_step g g' tid t i t' sp job s Hl Hstep Hths Ht) as [Hto|[-> _]].
  - destruct Hold as [Hq0|(r & q0 & Hv & Hq0 & ->)]; [by eapply Hmono, traced_queues|].
    apply Forall_app. split; [by eapply Hmono, traced_queues|]. apply Forall_singleton, reported_app.
    destruct (sends_reported _ _ _ _ _ Hv (traced_threads _ _ Htr _ _ Hl)) as [Hrp Hrf].
    replace job with (thread_job t); [done|].
    eapply (traced_job _ _ Htr); [right; by exists tid, t|exact Hto].
  - assert (Hnone : queues_of (next_sid (shared g)) (shared g) = ∅).
    { unfold queues_of. by rewrite (proj1 Hf _ ltac:(done)). }
    rewrite Hnone in Hold. destruct Hold as [Hq0|(? & ? & _ & Hq0 & _)]; by rewrite lookup_empty in Hq0.
Qed.

Lemma traced_thread_step : traced (hs ++ [(tid, thread_job t, i)]) g'.
Proof using Hf Ha Hrc Htr Hl Hstep Hths.
  split.
  - intros s v Hv. destruct (status_step _ _ _ _ _ _ _ _ Hstep Hv); [|done]. by eapply traced_status.
  - intros job job' s Ht Ht'.
    destruct (tied_step _ _ _ _ _ _ _ _ _ Hl Hstep Hths Ht) as [Ho|[-> ->]],
      (tied_step _ _ _ _ _ _ _ _ _ Hl Hstep Hths Ht') as [Ho'|[He ->]]; [| | |done].
    + by eapply (traced_job _ _ Htr).
    + apply tied_lt in Ho; [lia|done].
    + apply tied_lt in Ho'; [lia|done].
  - intros job ep Hep.
    destruct (cache_step hs tid t i _ _ _ _ _ _ Hstep (traced_threads _ _ Htr _ _ Hl) Hep) as [Ho|[_ Hd]].
    + by apply delivered_app, (traced_cache _ _ Htr).
    + by apply delivered_app.
  - apply traced_queues_step.
  - destruct (pc_caused_step hs tid t i _ _ _ _ Hstep) as [Hp Hsp].
    + by apply (traced_threads _ _ Htr).
    + apply (traced_status _ _ Htr).
    + apply (traced_cache _ _ Htr).
    + apply held_reports.
    + intros tid0 t0 Ht0.
      assert (Hold : threads g !! tid0 = Some t0 -> pc_caused (hs ++ [(tid, thread_job t, i)]) tid0 t0)
        by (intros Ho; by apply pc_caused_app, (traced_threads _ _ Htr)).
      rewrite Hths in Ht0. destruct sp as [t2|]; rewrite ?lookup_insert in Ht0;
        repeat case_decide; simplify_eq; auto.
Qed.
End step.

Lemma traced_step hs a g g' :
  fresh_names g -> alive g -> receivers g -> traced hs g -> exec wt a g = Some g' ->
  traced (hs ++ heard a g) g'.
Proof.
  intros Hf Ha Hrc Htr Hx.
  destruct (exec_inv wt a g g' Hx) as
    [(t & -> & _ & Ht0)|(tid & i & t & c' & t' & sp & -> & Hl & Hstep & <- & Hths & _)].
  - replace (heard a g) with (@nil entry) by (by destruct a). rewrite app_nil_r.
    apply traced_add; [..|done]; by destruct a; simplify_eq.
  - simpl. rewrite Hl. by eapply traced_thread_step.
Qed.

Lemma run_traced n l g : run wt l (initial n) = Some g -> receivers g /\ traced (history wt l (initial n)) g.
Proof.
  apply (history_ind wt n (fun hs g => receivers g /\ traced hs g)).
  - split; [apply receivers_initial|]. split; unfold tied, status_of, queues_of; simpl.
    + intros s v Hv. by rewrite lookup_empty in Hv.
    + intros job job' s [Hq|(? & ? & Hq & _)]; by rewrite lookup_empty in Hq.
    + intros job ep Hq. by rewrite lookup_empty in Hq.
    + intros job s rx q [Hq|(? & ? & Hq & _)]; by rewrite lookup_empty in Hq.
    + intros tid t Hq. by rewrite lookup_empty in Hq.
  - intros hs a g0 g' Hf Ha [Hr Ht] Hx. split; [by eapply receivers_step|by eapply traced_step].
Qed.
End origin.

(** ** Reports and waiting requests *)

Section waiting.
Context {Ch : Type} `{BroadcastLaws Ch}.
Context (wt : Z).
Implicit Types (c : Coord Ch) (t : thread) (g : config Ch).

(** Every channel has the capacity [jobs_entry] gives it. *)
Definition capacities g : Prop :=
  forall s ws, heap (shared g) !! s = Some ws -> bc_capacity (notify ws) = 16%nat.

Definition chan_kept c c' : Prop :=
  forall s ws, heap c' !! s = Some ws ->
    (exists ws0, heap c !! s = Some ws0 /\ bc_capacity (notify ws) = bc_capacity (notify ws0)) \/
    bc_capacity (notify ws) = 16%nat.

Lemma kept_update f s c :
  (forall ws, bc_capacity (notify (f ws)) = bc_capacity (notify ws)) -> chan_kept c (update_state f s c).
Proof.
  intros Hf s' ws. unfold update_state. simpl. rewrite lookup_alter. case_decide; [|by eauto].
  intros (ws0 & Hs & ->)%fmap_Some. subst. left. eauto.
Qed.

Lemma kept_update_job f job c :
  (forall ws, bc_capacity (notify (f ws)) = bc_capacity (notify ws)) -> chan_kept c (update_job_state f job c).
Proof.
  intros Hf. unfold update_job_state. case_match; [by apply kept_update|]. intros s ws ?. eauto.
Qed.

Lemma kept_insert s ws0 ws c :
  heap c !! s = Some ws0 -> bc_capacity (notify ws) = bc_capacity (notify ws0) ->
  chan_kept c (with_heap (<[s := ws]> (heap c)) c).
Proof.
  intros Hs Hc s' ws'. simpl. rewrite lookup_insert. case_decide; [|by eauto].
  intros [= <-]. subst. left. eauto.
Qed.

Lemma kept_trans c c1 c2 : chan_kept c c1 -> chan_kept c1 c2 -> chan_kept c c2.
Proof.
  intros H1 H2 s ws Hs. destruct (H2 s ws Hs) as [(ws1 & Hs1 & ->)|]; [|by right].
  by apply H1.
Qed.

Lemma kept_subscribe s ws c rx c' :
  heap c !! s = Some ws -> subscribe s ws c = (rx, c') -> chan_kept c c'.
Proof.
  intros Hs. unfold subscribe. pose proof (bc_subscribe_capacity (notify ws)) as Hc.
  destruct (bc_subscribe (notify ws)). intros [= <- <-]. by apply (kept_insert _ ws).
Qed.

Lemma capacity_step t i c c' t' sp :
  step_thread wt t i c = Some (c', t', sp) -> chan_kept c c'.
Proof.
  intros Hs. destruct t as [reg pc|reg s0 pc|j pc|reg cur pc]; simpl in Hs; destruct pc, i; simpl in Hs;
    unfold step_health in Hs; step_cases;
    try (intros s' ws' ?; by eauto);
    try (by apply kept_update_job);
    try (by apply kept_update);
    try (by eapply kept_subscribe).
  - intros s ws. unfold jobs_entry in *. destruct (jobs c !! job_id reg); simplify_eq; [by eauto|].
    simpl. rewrite lookup_insert. case_decide; [|by eauto].
    intros [= <-]. right. apply bc_channel_capacity.
  - unfold try_start_wake in *. case_bool_decide; simplify_eq. by eapply kept_insert.
  - eapply kept_trans; [eapply (kept_insert s w)|apply kept_update]; [done| |].
    + simpl. pose proof (bc_recv_capacity rx (notify w)) as Hq. by rewrite Heqp in Hq.
    + intros. apply bc_drop_capacity.
  - apply kept_update. intros. apply bc_drop_capacity.
  - apply kept_update. intros. apply bc_drop_capacity.
  - apply kept_update. intros. apply bc_send_capacity.
  - apply kept_update. intros. apply bc_send_capacity.
Qed.

Lemma reachable_capacities n g : reachable wt any_action n g -> capacities g.
Proof.
  apply reachable_ind; [by intros s ws Hs; simpl in Hs; rewrite lookup_empty in Hs|].
  intros a g0 g' _ Hc Hx s ws Hs.
  destruct (exec_inv wt a g0 g' Hx) as
    [(t & -> & _ & _)|(tid & i & t & c' & t' & sp & -> & Hl & Hstep & <- & _ & _)]; [by eapply Hc|].
  destruct (capacity_step _ _ _ _ _ _ Hstep s ws Hs) as [(ws0 & Hs0 & ->)|]; [by eapply Hc|done].
Qed.

(** A waiting request with a report in its queue can finish; a single report
    is what it is told. *)
Lemma waiter_finishes reg s rx c ws q :
  heap c !! s = Some ws -> bc_capacity (notify ws) = 16%nat ->
  queues_of s c !! rx = Some q -> q <> [] ->
  exists c' o, step_thread wt (Req reg (RRecv s rx)) Go c
               = Some (c', Req reg (RDone (wait_outcome reg o)), None) /\
               forall r, q = [r] -> o = Ok r.
Proof.
  intros Hs Hcap Hq Hne. rewrite (queues_heap _ _ _ Hs) in Hq. simpl. rewrite Hs.
  destruct q as [|v q]; [done|]. destruct (decide (length (v :: q) <= bc_capacity (notify ws))%nat) as [Hl|Hl].
  - pose proof (bc_recv_value _ _ _ _ Hq Hl) as Hv. destruct (bc_recv rx (notify ws)) as [o ch]; simplify_eq/=.
    eexists _, (Ok v). split; [done|]. intros r [= -> ->]. done.
  - pose proof (bc_recv_lagged _ _ _ Hq ltac:(lia)) as Hv.
    destruct (bc_recv rx (notify ws)) as [o ch]; simplify_eq/=.
    eexists _, (Err tt). split; [done|]. intros r [= -> ->]. rewrite Hcap in Hl. simpl in Hl. lia.
Qed.
Lemma reachable_exec n a g g' :
  reachable wt any_action n g -> exec wt a g = Some g' -> reachable wt any_action n g'.
Proof.
  intros (l & Hl & Hr) Hx. exists (l ++ [a]). split; [apply Forall_app; by repeat constructor|].
  revert Hr. generalize (initial (Ch := Ch) n). clear Hl.
  induction l as [|b l IH]; intros g0; simpl; [intros [= ->]; by rewrite Hx|].
  destruct (exec wt b g0) as [g1|]; [apply IH|done].
Qed.

Lemma sent_queue n g t i c' t' sp s r rx q :
  reachable wt any_action n g -> step_thread wt t i (shared g) = Some (c', t', sp) ->
  sends t = Some (s, r) -> queues_of s (shared g) !! rx = Some q ->
  queues_of s c' !! rx = Some (q ++ [r]).
Proof.
  intros Hr Hst Hsd Hq. pose proof (reachable_fresh wt _ n g Hr) as [Hf _].
  destruct (chan_step wt t i _ _ _ _ (Hf _ ltac:(done)) Hst) as [He _]. rewrite Hsd in He.
  destruct He as [_ _ ?|s0 rx0 _ _ _ _ _ ?|s0 rx0 _ _ _ ?|s0 r0 Hc _ _ Hv]; try done.
  injection Hv as <- <-. rewrite (Hc s). case_decide; [|done]. by rewrite lookup_fmap, Hq.
Qed.
End waiting.

(** ** The guarantees *)

(** C5.  No answer without a cause: in every execution, with any interleaving
    and any replies, a request that ends was told so about its own job.  An
    endpoint it gets was delivered by the orchestrator or the service discovery
    for that job, an error it gets was reported by a wake task of that job or is
    the reply to its own lookup or its own timeout; a request never gets another
    job's endpoint, and the branch for an unexpected state is never taken. *)
Theorem outcomes_have_origins Ch `{BroadcastLaws Ch} wt n l (g : config Ch) tid reg r :
  run wt l (initial n) = Some g -> threads g !! tid = Some (Req reg (RDone r)) ->
  caused wt (history wt l (initial n)) tid reg r /\
  forall ep, r = Ok ep -> delivered (history wt l (initial n)) (job_id reg) ep.
Proof.
  intros Hr Ht. destruct (run_traced wt n l g Hr) as [_ Htr].
  pose proof (traced_threads _ _ _ Htr _ _ Ht) as Hc. simpl in Hc. split; [done|].
  intros ep ->. inversion Hc as [ep' Hd|r' Hr' Hw| | | |]; subst; [done|].
  destruct r'; simplify_eq/=. by apply reported_ready.
Qed.

Lemma outcomes_have_origins_witness :
  caused Scenario.wt (history Scenario.wt Scenario.shared_wake Scenario.start) 0%nat Scenario.web (Ok Scenario.addr) /\
  forall ep, Ok (E := NscaleError.t) Scenario.addr = Ok ep ->
    delivered (history Scenario.wt Scenario.shared_wake Scenario.start) "web" ep.
Proof.
  apply (outcomes_have_origins QueueChannel.chan Scenario.wt 2 Scenario.shared_wake
           (Scenario.final Scenario.shared_wake)); vm_compute; reflexivity.
Defined.

(** A cached endpoint was delivered for the job it is cached under. *)
Theorem cached_endpoints_were_delivered Ch `{BroadcastLaws Ch} wt n l (g : config Ch) job ep :
  run wt l (initial n) = Some g -> endpoints (shared g) !! job = Some ep ->
  delivered (history wt l (initial n)) job ep.
Proof. intros Hr He. destruct (run_traced wt n l g Hr) as [_ Htr]. by apply (traced_cache _ _ _ Htr). Qed.

(** C12.  A wake is abandoned only when nobody waits for it: in every execution,
    when a poll of [wait_until_abandoned] gives the wake up, no request holds a
    receiver of its channel, neither one that waits nor one about to spawn the
    task; and while no receiver is held, a second poll does give it up. *)
Theorem only_unwaited_wakes_are_abandoned Ch `{BroadcastLaws Ch} wt n (g : config Ch) tid reg s pc c' pc' :
  reachable wt any_action n g -> threads g !! tid = Some (Task reg s pc) ->
  step_task reg s pc Poll (shared g) = Some (c', pc') ->
  (forall r, pc' = TSetDormant r ->
     pc = THealthZero /\ r = WakeResult.Cancelled /\ forall tid' rx, ~ holder g s rx tid') /\
  ((forall tid' rx, ~ holder g s rx tid') ->
     pc' = match pc with THealth => THealthZero | _ => TSetDormant WakeResult.Cancelled end).
Proof.
  intros Hr Ht Hs. destruct (reachable_receivers wt n g Hr) as [Hrc _].
  assert (Hq : forall ws, heap (shared g) !! s = Some ws ->
            bc_receiver_count (notify ws) = 0%nat <-> forall tid' rx, ~ holder g s rx tid').
  { intros ws Hws. rewrite bc_count, map_size_empty_iff, <- (queues_heap _ _ _ Hws). split.
    - intros He tid' rx Hh. destruct (proj2 (Hrc s rx)) as [q Hq]; [by eauto|].
      by rewrite He, lookup_empty in Hq.
    - intros Hh. apply map_empty. intros rx. apply eq_None_not_Some. intros Hq.
      apply Hrc in Hq as [tid' Hq]. by eapply Hh. }
  destruct pc; try done; simpl in Hs; destruct (heap (shared g) !! s) as [ws|]; try done;
    case_bool_decide as Hb; simplify_eq; rewrite (Hq _ eq_refl) in Hb; split; try done.
  intros r [= <-]. done.
Qed.

(** The winner of a race gives up, and so does the loser: the task's second poll
    finds no receiver. *)
Definition abandoned : list action :=
  Scenario.race ++ Scenario.go 1 4 ++ Scenario.go 0 1 ++ Scenario.go 2 1
    ++ [Step 2 (ReplyUnit (Ok tt)); Step 0 Drop; Step 1 Drop; Step 2 Poll].

Lemma only_unwaited_wakes_are_abandoned_witness :
  let g := Scenario.final abandoned in
  step_task Scenario.web 0 THealthZero Poll (shared g) = Some (shared g, TSetDormant WakeResult.Cancelled) /\
  forall tid' rx, ~ holder g 0 rx tid'.
Proof.
  split; [vm_compute; reflexivity|].
  destruct (only_unwaited_wakes_are_abandoned QueueChannel.chan Scenario.wt 2 (Scenario.final abandoned) 2
    Scenario.web 0 THealthZero (shared (Scenario.final abandoned)) (TSetDormant WakeResult.Cancelled)) as [Ha _];
    [exists abandoned; split; [repeat constructor|vm_compute; reflexivity]|vm_compute; reflexivity..|].
  by destruct (Ha _ eq_refl) as (_ & _ & ?).
Defined.

(** C17.  A report reaches every request that waits for it: when a task sends its
    report, every request that holds a receiver of the channel keeps it and can
    finish; one whose queue was empty finishes with exactly this report. *)
Theorem reports_reach_every_waiter Ch `{BroadcastLaws Ch} wt n (g g' : config Ch) tid t s r :
  reachable wt any_action n g -> threads g !! tid = Some t -> sends t = Some (s, r) ->
  exec wt (Step tid Go) g = Some g' ->
  forall tid' reg rx, threads g !! tid' = Some (Req reg (RRecv s rx)) ->
    threads g' !! tid' = Some (Req reg (RRecv s rx)) /\
    exists c' o, step_thread wt (Req reg (RRecv s rx)) Go (shared g')
                 = Some (c', Req reg (RDone (wait_outcome reg o)), None) /\
                 (queues_of s (shared g) !! rx = Some [] -> o = Ok r).
Proof.
  intros Hr Ht Hsd Hx tid' reg rx Ht'.
  assert (Hgo : exists t' sp, step_thread wt t Go (shared g) = Some (shared g', t', sp) /\
            sends t = Some (s, r) /\ threads g' = <[tid := t']> (threads g)).
  { simpl in Hx. rewrite Ht in Hx. destruct t as [|reg0 s0 []| |]; simplify_eq/=; by eexists _, None. }
  destruct Hgo as (t' & sp & Hst & _ & Hths).
  assert (Hne : tid' <> tid) by (intros ->; rewrite Ht in Ht'; by simplify_eq/=).
  split; [by rewrite Hths, lookup_insert_ne|].
  destruct (reachable_receivers wt n g Hr) as [Hrc _].
  destruct (proj2 (Hrc s rx)) as [q Hq]; [exists tid'; by eexists|].
  pose proof (sent_queue wt n g t Go (shared g') t' sp s r rx q Hr Hst Hsd Hq) as Hq'.
  destruct (heap (shared g') !! s) as [ws|] eqn:Hws; [|unfold queues_of in Hq'; by rewrite Hws in Hq'].
  destruct (waiter_finishes wt reg s rx (shared g') ws (q ++ [r])) as (c1 & o & Hs & Ho); try done.
  - by eapply (reachable_capacities wt n g' (reachable_exec wt n (Step tid Go) g g' Hr Hx)).
  - by destruct q.
  - exists c1, o. split; [done|]. intros [= ->]%(eq_trans (eq_sym Hq)). by apply Ho.
Qed.

Lemma reports_reach_every_waiter_witness :
  let g' := Scenario.final (take 21 Scenario.shared_wake) in
  threads g' !! 1%nat = Some (Req Scenario.web (RRecv 0 1)) /\
  exists c' o, step_thread Scenario.wt (Req Scenario.web (RRecv 0 1)) Go (shared g')
               = Some (c', Req Scenario.web (RDone (wait_outcome Scenario.web o)), None) /\
               (queues_of 0 (shared (Scenario.final (take 20 Scenario.shared_wake))) !! 1%nat = Some [] ->
                o = Ok (WakeResult.Ready Scenario.addr)).
Proof.
  apply (reports_reach_every_waiter QueueChannel.chan Scenario.wt 2
           (Scenario.final (take 20 Scenario.shared_wake)) (Scenario.final (take 21 Scenario.shared_wake)) 2
           (Task Scenario.web 0 (TSendReady Scenario.addr)));
    [exists (take 20 Scenario.shared_wake); split; [repeat constructor|vm_compute; reflexivity]
    |vm_compute; reflexivity..].
Defined.
