(* ===== verification/InFlight.v ===== *)
(** * InFlight: the count of active proxy requests per job

    Models [crates/nscale-core/src/inflight.rs].  The map holds shared counters:
    a guard keeps the counter it was given, so the counters are cells of a heap
    and the map holds their names.  A [usize] counter is a 64-bit integer that
    wraps, as [fetch_add] and [fetch_sub] do. *)

From S2P Require Import Prelude.
Local Open Scope Z_scope.

Record InFlightTracker := mkTracker {
  counts : gmap string nat;
  counters : gmap nat Z;
  next_counter : nat }.

Record InFlightGuard := mkGuard { counter : nat }.

Definition new_tracker : InFlightTracker := mkTracker ∅ ∅ 0.

Definition load (c : nat) (t : InFlightTracker) : Z := default 0 (counters t !! c).

Definition fetch_add (c : nat) (t : InFlightTracker) : InFlightTracker :=
  mkTracker (counts t) (<[c := wrap 64 (load c t + 1)]> (counters t)) (next_counter t).

Definition fetch_sub (c : nat) (t : InFlightTracker) : InFlightTracker :=
  mkTracker (counts t) (<[c := wrap 64 (load c t - 1)]> (counters t)) (next_counter t).

(** The counter of a job, a new one at zero when it has none. *)
Definition counter_of (job : string) (t : InFlightTracker) : nat * InFlightTracker :=
  match counts t !! job with
  | Some c => (c, t)
  | None =>
      let c := next_counter t in
      (c, mkTracker (<[job := c]> (counts t)) (<[c := 0]> (counters t)) (S c))
  end.

Definition track (job : string) : ST InFlightTracker InFlightGuard := fun t =>
  let '(c, t') := counter_of job t in (mkGuard c, fetch_add c t').

(** [Drop for InFlightGuard]. *)
Definition drop_guard (g : InFlightGuard) (t : InFlightTracker) : InFlightTracker :=
  fetch_sub (counter g) t.

Definition has_in_flight (job : string) (t : InFlightTracker) : bool :=
  match counts t !! job with
  | Some c => bool_decide (0 < load c t)
  | None => false
  end.

Definition count (job : string) (t : InFlightTracker) : Z :=
  match counts t !! job with Some c => load c t | None => 0 end.

(** ** Uses of a tracker

    A sequence of calls, with the guards that are live: a guard is dropped once,
    by its position.  Each live guard carries the job it was taken for. *)
Inductive use : Type := Track (job : string) | DropGuard (i : nat).

Definition usage : Type := InFlightTracker * list (string * InFlightGuard).

Definition use_step (u : use) (s : usage) : option usage :=
  match u with
  | Track job => let '(g, t') := track job s.1 in Some (t', s.2 ++ [(job, g)])
  | DropGuard i =>
      match s.2 !! i with
      | Some (_, g) => Some (drop_guard g s.1, delete i s.2)
      | None => None
      end
  end.

Fixpoint uses (l : list use) (s : usage) : option usage :=
  match l with
  | [] => Some s
  | u :: l' => match use_step u s with Some s' => uses l' s' | None => None end
  end.

(** The number of live guards of a job. *)
Definition live (job : string) (l : list (string * InFlightGuard)) : Z :=
  Z.of_nat (length (filter (fun p : string * InFlightGuard => p.1 = job) l)).

(** ** Lemmas *)

Lemma live_nil job : live job [] = 0.
Proof. done. Qed.

Lemma live_app job l1 l2 : live job (l1 ++ l2) = live job l1 + live job l2.
Proof. unfold live. rewrite filter_app, length_app. lia. Qed.

Lemma live_one job job' g : live job [(job', g)] = if decide (job' = job) then 1 else 0.
Proof. unfold live. rewrite filter_cons. simpl. case_decide; done. Qed.

Lemma live_nonneg job l : 0 <= live job l.
Proof. unfold live. lia. Qed.


Lemma live_split job l i p :
  l !! i = Some p -> live job (delete i l) = live job l - if decide (p.1 = job) then 1 else 0.
Proof.
  intros Hl. rewrite delete_take_drop.
  rewrite <- (take_drop_middle l i p Hl) at 3.
  change (p :: drop (S i) l) with ([p] ++ drop (S i) l).
  rewrite !live_app. destruct p as [job' g]. rewrite live_one. simpl. lia.
Qed.

(** Every counter holds the number of live guards of its job, wrapped. *)
Definition tracker_inv (s : usage) : Prop :=
  (forall job c, counts s.1 !! job = Some c -> (c < next_counter s.1)%nat) /\
  (forall job job' c, counts s.1 !! job = Some c -> counts s.1 !! job' = Some c -> job = job') /\
  (forall job c, counts s.1 !! job = Some c -> counters s.1 !! c = Some (wrap 64 (live job s.2))) /\
  (forall job, counts s.1 !! job = None -> live job s.2 = 0) /\
  (forall i job g, s.2 !! i = Some (job, g) -> counts s.1 !! job = Some (counter g)).

Lemma tracker_inv_new : tracker_inv (new_tracker, []).
Proof. split_and!; try done. Qed.

(** Changing the counter of one job and its live guards by the same amount. *)
Lemma tracker_inv_count (t : InFlightTracker) l l' job c d :
  tracker_inv (t, l) -> counts t !! job = Some c ->
  (forall job', live job' l' = live job' l + if decide (job = job') then d else 0) ->
  (forall i job' g, l' !! i = Some (job', g) -> counts t !! job' = Some (counter g)) ->
  tracker_inv (mkTracker (counts t) (<[c := wrap 64 (load c t + d)]> (counters t)) (next_counter t), l').
Proof.
  intros (Hlt & Hinj & Hcnt & Hnone & _) Hc Hlive Hg. simpl in *. split_and!; simpl; try done.
  - intros job' c' Hc'. rewrite lookup_insert, Hlive. case_decide as E.
    + subst c'. rewrite (Hinj _ _ _ Hc Hc'), decide_True by done.
      unfold load. rewrite (Hcnt job c Hc). simpl. rewrite wrap_wrap_add.
      by rewrite (Hinj _ _ _ Hc Hc').
    + rewrite decide_False by (intros ->; simplify_eq). rewrite Z.add_0_r. by apply Hcnt.
  - intros job' Hj. rewrite Hlive, decide_False by (intros ->; simpl in *; congruence).
    rewrite Z.add_0_r. by apply Hnone.
Qed.

Lemma tracker_inv_counter_of t l job :
  tracker_inv (t, l) ->
  tracker_inv ((counter_of job t).2, l) /\ counts (counter_of job t).2 !! job = Some (counter_of job t).1.
Proof.
  intros Hi. unfold counter_of. destruct (counts t !! job) as [c|] eqn:E; [done|]. simpl.
  destruct Hi as (Hlt & Hinj & Hcnt & Hnone & Hg). simpl in *. split; [|by rewrite lookup_insert_eq].
  split_and!; simpl.
  - intros job' c. rewrite lookup_insert. case_decide; intros Hq; [simplify_eq; lia|].
    apply Hlt in Hq. lia.
  - intros job1 job2 c. rewrite !lookup_insert. repeat case_decide; intros Hq1 Hq2; simplify_eq; try done.
    + apply Hlt in Hq2. lia.
    + apply Hlt in Hq1. lia.
    + by eapply Hinj.
  - intros job' c. rewrite !lookup_insert. case_decide; intros Hq; simplify_eq.
    + rewrite decide_True by done. by rewrite Hnone.
    + rewrite decide_False; [by apply Hcnt|]. intros <-. apply Hlt in Hq. lia.
  - intros job'. rewrite lookup_insert. case_decide; [done|]. apply Hnone.
  - intros i job' g Hl. rewrite lookup_insert. case_decide; [subst|by eapply Hg].
    apply Hg in Hl. congruence.
Qed.

Lemma tracker_inv_step u s s' : tracker_inv s -> use_step u s = Some s' -> tracker_inv s'.
Proof.
  intros Hi Hs. destruct s as [t l], u as [job|i]; simpl in Hs.
  - unfold track in Hs. destruct (tracker_inv_counter_of t l job Hi) as [Hi' Hc].
    destruct (counter_of job t) as [c t']. simpl in *. simplify_eq.
    apply (tracker_inv_count t' l _ job); try done.
    + intros job'. by rewrite live_app, live_one.
    + intros i job' g. rewrite lookup_app_Some. intros [Hl|[_ Hl]].
      * destruct Hi' as (_ & _ & _ & _ & Hg). by eapply Hg.
      * apply list_lookup_singleton_Some in Hl as [_ Hl]. by simplify_eq.
  - destruct (l !! i) as [[job g]|] eqn:Hl; [|done]. simplify_eq.
    assert (Hc : counts t !! job = Some (counter g)) by (destruct Hi as (_ & _ & _ & _ & Hg); by eapply Hg).
    unfold drop_guard, fetch_sub. apply (tracker_inv_count t l _ job _ (-1)); try done.
    + intros job'. rewrite (live_split job' l i _ Hl). simpl. case_decide; lia.
    + intros j job' g' Hj. destruct Hi as (_ & _ & _ & _ & Hg).
      rewrite list_lookup_delete in Hj. case_decide; by eapply Hg.
Qed.

Lemma tracker_inv_uses l s s' : tracker_inv s -> uses l s = Some s' -> tracker_inv s'.
Proof.
  revert s. induction l as [|u l IH]; intros s Hi Hu; simpl in Hu; [by simplify_eq|].
  destruct (use_step u s) as [s1|] eqn:E; [|done]. eauto using tracker_inv_step.
Qed.

Lemma count_live s job : tracker_inv s -> count job s.1 = wrap 64 (live job s.2).
Proof.
  intros (_ & _ & Hc & Hn & _). unfold count, load. destruct (counts s.1 !! job) as [c|] eqn:E.
  - by rewrite (Hc _ _ E).
  - by rewrite (Hn _ E).
Qed.

Lemma has_in_flight_count job t : has_in_flight job t = bool_decide (0 < count job t).
Proof. unfold has_in_flight, count. by destruct (counts t !! job). Qed.

(** ** The contract of the tracker *)

(** C32.  After any sequence of [track] calls and guard drops, [count] of a job
    is the number of its live guards modulo [2^64], whatever the other jobs do;
    below [2^64] live guards [has_in_flight] holds exactly when one is live. *)
Theorem count_is_live_guards l s job :
  uses l (new_tracker, []) = Some s ->
  count job s.1 = wrap 64 (live job s.2) /\
  (live job s.2 < 2 ^ 64 ->
     (has_in_flight job s.1 = true <-> exists g, (job, g) ∈ s.2)).
Proof.
  intros Hu. pose proof (tracker_inv_uses _ _ _ tracker_inv_new Hu) as Hi.
  rewrite has_in_flight_count, (count_live s job Hi). split; [done|].
  intros Hlt. rewrite wrap_small by (pose proof (live_nonneg job s.2); lia).
  rewrite bool_decide_eq_true. unfold live. split.
  - destruct (filter _ s.2) as [|[job' g] l'] eqn:E; [simpl; lia|]. intros _. exists g.
    assert (Hin : (job', g) ∈ filter (fun p : string * InFlightGuard => p.1 = job) s.2)
      by (rewrite E; left).
    apply list_elem_of_filter in Hin as [Hj Hin]. simpl in Hj. by subst.
  - intros [g Hg]. assert (Hin : (job, g) ∈ filter (fun p : string * InFlightGuard => p.1 = job) s.2)
      by by apply list_elem_of_filter.
    destruct (filter _ s.2); [by apply elem_of_nil in Hin|simpl; lia].
Qed.

Definition three_requests : list use :=
  [Track "web"; Track "api"; Track "web"; DropGuard 1].

Lemma count_is_live_guards_witness :
  exists s, uses three_requests (new_tracker, []) = Some s /\ count "web" s.1 = 2 /\
    count "web" s.1 = wrap 64 (live "web" s.2) /\ has_in_flight "api" s.1 = false.
Proof.
  eexists. split; [vm_compute; reflexivity|]. split; [vm_compute; reflexivity|].
  split; [|vm_compute; reflexivity].
  apply (count_is_live_guards three_requests). vm_compute. reflexivity.
Defined.
