(* ===== verification/Json.v ===== *)
(** * Json: [serde_json] values and the derived encodings

    The [Value] enum of [serde_json], the accessors the program uses, and the
    readers [serde]'s derive generates: a field that must be present, a field
    with [#[serde(default)]], an optional field.  An object is the list of its
    entries; the accessors see its first entry for a key and [insert] keeps
    keys distinct.  [serde_json] also reads a struct from an array of its fields,
    in order; none of the services replies like that, and the readers here take
    objects only. *)

From S2P Require Import Prelude Str F64.
Local Open Scope Z_scope.

Module Value.
Inductive t : Type :=
| Null
| Bool (b : bool)
| PosInt (n : Z)
| NegInt (n : Z)
| Float (x : f64)
| Str (s : string)
| Array (l : list t)
| Object (m : list (string * t)).
End Value.

Definition obj : Type := list (string * Value.t).

(** [Map::get], [Map::insert], [Map::contains_key]. *)
Fixpoint obj_get (k : string) (m : obj) : option Value.t :=
  match m with
  | [] => None
  | (k', v) :: m' => if bool_decide (k = k') then Some v else obj_get k m'
  end.

Fixpoint obj_insert (k : string) (v : Value.t) (m : obj) : obj :=
  match m with
  | [] => [(k, v)]
  | (k', v') :: m' =>
      if bool_decide (k = k') then (k, v) :: m' else (k', v') :: obj_insert k v m'
  end.

(** [Value::as_str], [as_array], [as_object], [get], [is_null]. *)
Definition as_str (v : Value.t) : option string :=
  match v with Value.Str s => Some s | _ => None end.
Definition as_array (v : Value.t) : option (list Value.t) :=
  match v with Value.Array l => Some l | _ => None end.
Definition as_object (v : Value.t) : option obj :=
  match v with Value.Object m => Some m | _ => None end.
Definition get (k : string) (v : Value.t) : option Value.t :=
  match v with Value.Object m => obj_get k m | _ => None end.

(** ** Readers of Rust types *)
Definition de_string (v : Value.t) : option string := as_str v.

(** An unsigned integer of at most [max]: [u16], [u32], [u64]. *)
Definition de_uint (max : Z) (v : Value.t) : option Z :=
  match v with
  | Value.PosInt n => if bool_decide (0 <= n <= max) then Some n else None
  | _ => None
  end.

Definition de_value (v : Value.t) : option Value.t := Some v.

Definition de_option {A} (de : Value.t -> option A) (v : Value.t) : option (option A) :=
  match v with
  | Value.Null => Some None
  | _ => Some <$> de v
  end.

Definition de_vec {A} (de : Value.t -> option A) (v : Value.t) : option (list A) :=
  match v with Value.Array l => mapM de l | _ => None end.

(** A required field, a field with a default, an optional field. *)
Definition field {A} (de : Value.t -> option A) (k : string) (m : obj) : option A :=
  match obj_get k m with Some v => de v | None => None end.
Definition field_default {A} (d : A) (de : Value.t -> option A) (k : string) (m : obj) : option A :=
  match obj_get k m with Some v => de v | None => Some d end.
Definition field_option {A} (de : Value.t -> option A) (k : string) (m : obj) : option (option A) :=
  match obj_get k m with Some v => de_option de v | None => Some None end.

(** A struct: its fields are looked up by name, others are ignored. *)
Definition de_object {A} (de : obj -> option A) (v : Value.t) : option A :=
  m ← as_object v; de m.

Definition de_bool (v : Value.t) : option bool :=
  match v with Value.Bool b => Some b | _ => None end.

(** ** Writers: an optional field, and one with [skip_serializing_if]. *)
Definition ser_option (o : option Value.t) : Value.t := default Value.Null o.
Definition ser_skip (k : string) (o : option Value.t) : obj :=
  match o with Some v => [(k, v)] | None => [] end.

(** ** Lemmas *)

Lemma obj_get_insert k v m : obj_get k (obj_insert k v m) = Some v.
Proof.
  induction m as [|[k' v'] m IH]; simpl; [by rewrite bool_decide_eq_true_2|].
  destruct (bool_decide (k = k')) eqn:E; simpl; [by rewrite bool_decide_eq_true_2|by rewrite E].
Qed.

Lemma obj_get_insert_ne k k' v m : k <> k' -> obj_get k (obj_insert k' v m) = obj_get k m.
Proof.
  intros Hne. induction m as [|[k1 v1] m IH]; simpl; [by rewrite bool_decide_eq_false_2|].
  destruct (bool_decide (k' = k1)) eqn:E; simpl; [|by rewrite IH].
  apply bool_decide_eq_true in E. subst. by rewrite !bool_decide_eq_false_2.
Qed.

(** What a reader that succeeds has read. *)
Lemma de_uint_range max v n : de_uint max v = Some n -> 0 <= n <= max.
Proof. unfold de_uint. destruct v; try done. by case_bool_decide; intros [= <-]. Qed.

Lemma de_uint_ser max n : 0 <= n <= max -> de_uint max (Value.PosInt n) = Some n.
Proof. intros Hn. unfold de_uint. by rewrite bool_decide_eq_true_2. Qed.

Lemma field_inv {A} (de : Value.t -> option A) k m a :
  field de k m = Some a -> exists v, obj_get k m = Some v /\ de v = Some a.
Proof. unfold field. destruct (obj_get k m); [eauto|done]. Qed.

Lemma field_default_inv {A} d (de : Value.t -> option A) k m a :
  field_default d de k m = Some a -> obj_get k m = None /\ a = d \/ exists v, obj_get k m = Some v /\ de v = Some a.
Proof. unfold field_default. destruct (obj_get k m); [eauto|]. intros [= <-]. by left. Qed.

Lemma de_object_inv {A} (de : obj -> option A) v a :
  de_object de v = Some a -> exists m, v = Value.Object m /\ de m = Some a.
Proof. unfold de_object. intros (m & Hm & Hd)%bind_Some. destruct v; simplify_eq/=. eauto. Qed.

Create Rewrite HintDb nscale_json.
#[export] Hint Rewrite obj_get_insert : nscale_json.
