(* ===== verification/Net.v ===== *)
(** * Net: the socket addresses of the standard library

    [std::net::SocketAddr] with its [FromStr] and [Display], which [serde] uses
    to write an address to a configuration and to read it back.  The parser
    consumes a prefix of the text and must end at its end. *)

From S2P Require Import Prelude Str F64.
From Stdlib Require Import Ascii.
Local Open Scope Z_scope.

(** An IPv4 address with its port; an IPv6 address as its eight segments, with
    the scope and the port (the flow label has no text form). *)
Inductive SocketAddr : Type :=
| V4 (a b c d : Z) (port : Z)
| V6 (segments : list Z) (scope_id : Z) (port : Z).

#[export] Instance SocketAddr_eq_dec : EqDecision SocketAddr.
Proof. solve_decision. Defined.

(** The ranges of the machine integers an address is made of. *)
Definition well_typed_addr (x : SocketAddr) : Prop :=
  match x with
  | V4 a b c d p => Forall (fun n => 0 <= n <= u8_max) [a; b; c; d] /\ 0 <= p <= u16_max
  | V6 l s p => length l = 8%nat /\ Forall (fun n => 0 <= n <= u16_max) l /\ 0 <= s <= u32_max /\ 0 <= p <= u16_max
  end.

(** ** Reading *)

(** A reader consumes a prefix, or fails and consumes nothing. *)
Abbreviation reader A := (string -> option (A * string)).

Definition read_given_char (c : ascii) : reader unit := fun s =>
  match s with String a s' => if ascii_eqb a c then Some (tt, s') else None | EmptyString => None end.

(** [char::to_digit(16)]. *)
Definition hex_val (a : ascii) : option Z :=
  let n := nat_of_ascii a in
  if decide (48 <= n <= 57)%nat then Some (Z.of_nat (n - 48))
  else if decide (97 <= n <= 102)%nat then Some (Z.of_nat (n - 87))
  else if decide (65 <= n <= 70)%nat then Some (Z.of_nat (n - 55))
  else None.

Fixpoint scan_hex (acc : Z) (count : Z) (s : string) : Z * Z * string :=
  match s with
  | EmptyString => (acc, count, "")
  | String a s' =>
      match hex_val a with
      | Some d => scan_hex (16 * acc + d) (count + 1) s'
      | None => (acc, count, s)
      end
  end.

(** [read_number]: the digits are all consumed; then their number, a leading
    zero and the range of the type are looked at. *)
Definition accept_number (max_digits : option Z) (zero_prefix : bool) (max : Z) (s : string)
    (scanned : Z * Z * string) : option (Z * string) :=
  let '(n, count, rest) := scanned in
  if bool_decide (count = 0) then None
  else if match max_digits with Some k => bool_decide (k < count) | None => false end then None
  else if negb zero_prefix && starts_with "0" s && bool_decide (1 < count) then None
  else if bool_decide (n <= max) then Some (n, rest) else None.

Definition read_decimal (max_digits : option Z) (zero_prefix : bool) (max : Z) : reader Z := fun s =>
  accept_number max_digits zero_prefix max s (scan_digits 0 0 s).
Definition read_hex (max_digits : option Z) (zero_prefix : bool) (max : Z) : reader Z := fun s =>
  accept_number max_digits zero_prefix max s (scan_hex 0 0 s).

(** [read_separator]: the separator comes before every element but the first. *)
Definition read_separator {A} (sep : ascii) (first : bool) (inner : reader A) : reader A := fun s =>
  if first then inner s
  else '(_, s') ← read_given_char sep s; inner s'.

Definition read_ipv4 : reader (Z * Z * Z * Z) := fun s =>
  let octet first := read_separator "." first (read_decimal (Some 3) false u8_max) in
  '(a, s1) ← octet true s;
  '(b, s2) ← octet false s1;
  '(c, s3) ← octet false s2;
  '(d, s4) ← octet false s3;
  Some ((a, b, c, d), s4).

(** [read_port]. *)
Definition read_port : reader Z := fun s =>
  '(_, s') ← read_given_char ":" s; read_decimal None true u16_max s'.

(** [read_groups]: up to [limit] segments, the last two of which may be an IPv4
    address; the flag tells that they were. *)
Fixpoint read_groups (limit : nat) (first : bool) (s : string) : list Z * bool * string :=
  match limit with
  | O => ([], false, s)
  | S n =>
      let group :=
        match read_separator ":" first (read_hex (Some 4) true u16_max) s with
        | Some (g, s') => let '(l, b, s'') := read_groups n false s' in (g :: l, b, s'')
        | None => ([], false, s)
        end in
      match n with
      | O => group
      | S _ =>
          match read_separator ":" first read_ipv4 s with
          | Some ((a, b, c, d), s') => ([256 * a + b; 256 * c + d], true, s')
          | None => group
          end
      end
  end.

Definition read_ipv6 : reader (list Z) := fun s =>
  let '(head, head_ipv4, s1) := read_groups 8 true s in
  if bool_decide (length head = 8%nat) then Some (head, s1)
  else if head_ipv4 then None
  else
    '(_, s2) ← read_given_char ":" s1;
    '(_, s3) ← read_given_char ":" s2;
    let '(tail, _, s4) := read_groups (8 - (length head + 1)) true s3 in
    Some (head ++ replicate (8 - length head - length tail) 0 ++ tail, s4).

Definition read_scope_id : reader Z := fun s =>
  '(_, s') ← read_given_char "%" s; read_decimal None true u32_max s'.

Definition read_socket_v4 : reader SocketAddr := fun s =>
  '((a, b, c, d), s1) ← read_ipv4 s;
  '(p, s2) ← read_port s1;
  Some (V4 a b c d p, s2).

Definition read_socket_v6 : reader SocketAddr := fun s =>
  '(_, s1) ← read_given_char "[" s;
  '(l, s2) ← read_ipv6 s1;
  let '(scope, s3) := match read_scope_id s2 with Some (n, s') => (n, s') | None => (0, s2) end in
  '(_, s4) ← read_given_char "]" s3;
  '(p, s5) ← read_port s4;
  Some (V6 l scope p, s5).

Definition parse_socket_addr (s : string) : option SocketAddr :=
  let r := match read_socket_v4 s with Some r => Some r | None => read_socket_v6 s end in
  match r with Some (x, "") => Some x | _ => None end.

(** ** Writing *)

Definition hex_digit (n : Z) : ascii :=
  if bool_decide (n < 10) then chr (Z.to_nat (48 + n)) else chr (Z.to_nat (87 + n)).

(** [{:x}] of a non-negative integer; the fuel bounds the digits. *)
Fixpoint show_hex_go (fuel : nat) (n : Z) (acc : string) : string :=
  match fuel with
  | O => acc
  | S f =>
      let acc' := String (hex_digit (n mod 16)) acc in
      if bool_decide (n < 16) then acc' else show_hex_go f (n / 16) acc'
  end.
Definition show_hex (n : Z) : string := show_hex_go (S (Z.to_nat (Z.log2 n))) n "".

Definition show_ipv4 (a b c d : Z) : string :=
  show_Z a +:+ "." +:+ show_Z b +:+ "." +:+ show_Z c +:+ "." +:+ show_Z d.

(** The first longest run of zeros: its start and length. *)
Fixpoint longest_run (i : nat) (l : list Z) (current best : nat * nat) : nat * nat :=
  match l with
  | [] => best
  | x :: l' =>
      if bool_decide (x = 0) then
        let current' := if bool_decide (current.2 = 0%nat) then (i, 1%nat) else (current.1, S current.2) in
        longest_run (S i) l' current' (if bool_decide (best.2 < current'.2)%nat then current' else best)
      else longest_run (S i) l' (0%nat, 0%nat) best
  end.

Definition show_ipv6 (l : list Z) : string :=
  match l with
  | [0; 0; 0; 0; 0; 65535; x; y] =>
      "::ffff:" +:+ show_ipv4 (x / 256) (x mod 256) (y / 256) (y mod 256)
  | _ =>
      let '(start, len) := longest_run 0 l (0%nat, 0%nat) (0%nat, 0%nat) in
      if bool_decide (1 < len)%nat
      then join ":" (map show_hex (take start l)) +:+ "::"
           +:+ join ":" (map show_hex (drop (start + len) l))
      else join ":" (map show_hex l)
  end.

Definition show_socket_addr (x : SocketAddr) : string :=
  match x with
  | V4 a b c d p => show_ipv4 a b c d +:+ ":" +:+ show_Z p
  | V6 l s p =>
      "[" +:+ show_ipv6 l +:+ (if bool_decide (s = 0) then "" else "%" +:+ show_Z s) +:+ "]:" +:+ show_Z p
  end.

Example parse_default : parse_socket_addr "0.0.0.0:8080" = Some (V4 0 0 0 0 8080).
Proof. reflexivity. Qed.
Example parse_v6 : parse_socket_addr "[fe80::1%3]:80" = Some (V6 [65152; 0; 0; 0; 0; 0; 0; 1] 3 80).
Proof. vm_compute. reflexivity. Qed.
Example parse_v6_mapped : parse_socket_addr "[::ffff:10.0.0.1]:80" = Some (V6 [0; 0; 0; 0; 0; 65535; 2560; 1] 0 80).
Proof. vm_compute. reflexivity. Qed.
Example show_v6 : show_socket_addr (V6 [8193; 3512; 0; 0; 1; 0; 0; 1] 0 443) = "[2001:db8::1:0:0:1]:443".
Proof. vm_compute. reflexivity. Qed.
Example parse_no_port : parse_socket_addr "0.0.0.0" = None.
Proof. reflexivity. Qed.
Example parse_leading_zero : parse_socket_addr "0.0.0.01:80" = None.
Proof. reflexivity. Qed.
Example parse_port_range : parse_socket_addr "0.0.0.0:65536" = None.
Proof. reflexivity. Qed.

(** ** Lemmas *)

Lemma pretty_N_go_app n s t : pretty_N_go n s +:+ t = pretty_N_go n (s +:+ t).
Proof.
  revert s. induction (N.lt_wf_0 n) as [n _ IH]; intros s.
  destruct (decide (n = 0%N)) as [->|Hn]; [by rewrite !pretty_N_go_0|].
  rewrite !(pretty_N_go_step n) by lia. rewrite IH by (apply N.div_lt; lia). done.
Qed.

Lemma digit_val_pretty n : (n < 10)%N -> digit_val (pretty_N_char n) = Some (Z.of_N n).
Proof.
  assert (Hall : Forall (fun d => digit_val (pretty_N_char (Z.to_N d)) = Some d) (seqZ 0 10))
    by (apply (bool_decide_unpack _); vm_compute; exact I).
  rewrite Forall_forall in Hall. intros Hn. rewrite <- (Hall (Z.of_N n)) by (apply elem_of_seqZ; lia).
  by rewrite N2Z.id.
Qed.

(** The digits of a positive number: how many there are, and that the first is
    not zero. *)
Lemma scan_pretty x acc n s :
  (0 < x)%N ->
  exists k, 0 < k /\ 10 ^ (k - 1) <= Z.of_N x
    /\ scan_digits acc n (pretty_N_go x s) = scan_digits (acc * 10 ^ k + Z.of_N x) (n + k) s
    /\ starts_with "0" (pretty_N_go x s) = false.
Proof.
  revert acc n s. induction (N.lt_wf_0 x) as [x _ IH]; intros acc n s Hx.
  rewrite pretty_N_go_step by lia.
  pose proof (N.div_mod x 10 ltac:(lia)) as Hdm. pose proof (N.mod_lt x 10 ltac:(lia)) as Hm.
  assert (Hd := digit_val_pretty _ Hm).
  assert (Hx' : Z.of_N x = 10 * Z.of_N (x / 10) + Z.of_N (x mod 10)).
  { rewrite Hdm at 1. by rewrite N2Z.inj_add, N2Z.inj_mul. }
  destruct (decide (x / 10 = 0)%N) as [E|E].
  - rewrite E, pretty_N_go_0. exists 1. split; [lia|]. split; [change (10 ^ (1 - 1)) with 1; lia|].
    cbn [scan_digits]. rewrite Hd. split; [f_equal; lia|].
    unfold starts_with. cbn [strip_prefix].
    destruct (ascii_eqb "0" (pretty_N_char (x mod 10))) eqn:E0; [|done].
    apply ascii_eqb_eq in E0. rewrite <- E0 in Hd. change (digit_val "0") with (Some 0) in Hd.
    injection Hd as Hd. lia.
  - destruct (IH (x / 10)%N ltac:(apply N.div_lt; lia) acc n (String (pretty_N_char (x mod 10)) s))
      as (k & Hk & Hpow & Hs & Hz); [lia|].
    exists (k + 1). split; [lia|]. rewrite Hs. cbn [scan_digits]. rewrite Hd. split_and!; [| |done].
    + replace (k + 1 - 1) with (Z.succ (k - 1)) by lia. rewrite Z.pow_succ_r by lia.
      rewrite Hx'. apply Z.le_trans with (10 * Z.of_N (x / 10)); [by apply Z.mul_le_mono_nonneg_l|].
      pose proof (N2Z.is_nonneg (x mod 10)). lia.
    + rewrite Z.pow_add_r by lia. f_equal; [|lia]. rewrite Hx'. ring.
Qed.

(** A printed number, then something that is not a digit. *)
Definition ends_number (rest : string) : Prop :=
  match rest with String a _ => digit_val a = None | EmptyString => True end.

Lemma scan_digits_stop acc n rest : ends_number rest -> scan_digits acc n rest = (acc, n, rest).
Proof. destruct rest as [|a rest]; [done|]. simpl. by intros ->. Qed.

Lemma scan_printed z rest :
  0 <= z -> ends_number rest ->
  exists k, 0 < k /\ (k = 1 \/ 10 ^ (k - 1) <= z)
    /\ scan_digits 0 0 (show_Z z +:+ rest) = (z, k, rest)
    /\ (starts_with "0" (show_Z z +:+ rest) = true -> k = 1).
Proof.
  intros Hz Hr. destruct (decide (z = 0)) as [->|Hne].
  - exists 1. split; [lia|]. split; [by left|]. split; [|done].
    change (show_Z 0) with "0". simpl. by apply scan_digits_stop.
  - assert (show_Z z = pretty_N_go (Z.to_N z) "") as ->.
    { by destruct z as [|p|p]; [|reflexivity|lia]. }
    rewrite pretty_N_go_app. destruct (scan_pretty (Z.to_N z) 0 0 ("" +:+ rest)) as (k & Hk & Hp & Hs & H0); [lia|].
    exists k. rewrite Hs, H0, Z2N.id in * by lia. split_and!; [done|by right| |done].
    simpl. by rewrite scan_digits_stop.
Qed.

Lemma read_decimal_show limit zp max z rest :
  0 <= z <= max -> ends_number rest ->
  match limit with Some k => 0 < k /\ z < 10 ^ k | None => True end ->
  read_decimal limit zp max (show_Z z +:+ rest) = Some (z, rest).
Proof.
  intros Hz Hr Hl. destruct (scan_printed z rest) as (k & Hk & Hp & Hs & H0); [lia|done|].
  unfold read_decimal, accept_number. rewrite Hs. rewrite bool_decide_eq_false_2 by lia.
  assert (match limit with Some m => bool_decide (m < k) | None => false end = false) as ->.
  { destruct limit as [m|]; [|done]. apply bool_decide_eq_false_2. destruct Hp as [->|Hp]; [lia|].
    intros Hm. assert (10 ^ m <= 10 ^ (k - 1)) by (apply Z.pow_le_mono_r; lia). lia. }
  assert (negb zp && starts_with "0" (show_Z z +:+ rest) && bool_decide (1 < k) = false) as ->.
  { destruct (starts_with "0" _) eqn:E; [|by rewrite andb_false_r]. rewrite bool_decide_eq_false_2; [by rewrite andb_false_r|].
    rewrite (H0 eq_refl). lia. }
  by rewrite bool_decide_eq_true_2 by lia.
Qed.

Arguments read_decimal : simpl never.
Arguments show_Z : simpl never.

(** An address whose parts are in range, and that is an IPv4 one, is read back. *)
Lemma parse_show_v4 a b c d p :
  well_typed_addr (V4 a b c d p) -> parse_socket_addr (show_socket_addr (V4 a b c d p)) = Some (V4 a b c d p).
Proof.
  unfold well_typed_addr, u8_max, u16_max. rewrite !Forall_cons. intros [(Ha & Hb & Hc & Hd & _) Hp].
  assert (Hoctet : forall z rest, 0 <= z <= 255 -> ends_number rest ->
    read_decimal (Some 3) false u8_max (show_Z z +:+ rest) = Some (z, rest)).
  { intros z rest Hz Hr. apply read_decimal_show; [done|done|]. split; [lia|]. change (10 ^ 3) with 1000. lia. }
  assert (Hv4 : read_socket_v4 (show_socket_addr (V4 a b c d p)) = Some (V4 a b c d p, "")).
  { unfold read_socket_v4, read_ipv4, read_separator, show_socket_addr, show_ipv4.
    rewrite !sapp_assoc. rewrite Hoctet by done. simpl. rewrite Hoctet by done. simpl.
    rewrite Hoctet by done. simpl. rewrite Hoctet by done. simpl.
    unfold read_port. simpl. rewrite <- (sapp_nil_r (show_Z p)). by rewrite read_decimal_show. }
  unfold parse_socket_addr. by rewrite Hv4.
Qed.

(** ** What is read is in range *)

Lemma scan_digits_nonneg acc n s : 0 <= acc -> 0 <= (scan_digits acc n s).1.1.
Proof.
  revert acc n. induction s as [|a s IH]; intros acc n Ha; simpl; [done|].
  destruct (digit_val a) as [d|] eqn:E; [|done]. apply IH. unfold digit_val in E. case_decide; [|done].
  injection E. lia.
Qed.

Lemma scan_hex_nonneg acc n s : 0 <= acc -> 0 <= (scan_hex acc n s).1.1.
Proof.
  revert acc n. induction s as [|a s IH]; intros acc n Ha; simpl; [done|].
  destruct (hex_val a) as [d|] eqn:E; [|done]. apply IH. unfold hex_val in E.
  repeat (case_decide; [injection E; lia|]). done.
Qed.

Lemma accept_number_range limit zp max s sc n rest :
  0 <= sc.1.1 -> accept_number limit zp max s sc = Some (n, rest) -> 0 <= n <= max.
Proof.
  destruct sc as [[m c] r]. simpl. intros Hm. unfold accept_number.
  destruct (bool_decide (c = 0)); [done|]. destruct (match limit with Some _ => _ | None => _ end); [done|].
  destruct (_ && _ && _); [done|]. case_bool_decide; [|done]. intros [= <- <-]. lia.
Qed.

Lemma read_decimal_range limit zp max s n rest :
  read_decimal limit zp max s = Some (n, rest) -> 0 <= n <= max.
Proof. apply accept_number_range. by apply scan_digits_nonneg. Qed.

Lemma read_hex_range limit zp max s n rest :
  read_hex limit zp max s = Some (n, rest) -> 0 <= n <= max.
Proof. apply accept_number_range. by apply scan_hex_nonneg. Qed.

Lemma read_separator_inv {A} sep first (inner : reader A) s r :
  read_separator sep first inner s = Some r -> exists s', inner s' = Some r.
Proof.
  unfold read_separator. destruct first; [eauto|]. intros ([u s'] & _ & Hi)%bind_Some. eauto.
Qed.

Definition byte (n : Z) : Prop := 0 <= n <= u8_max.
Definition segment (n : Z) : Prop := 0 <= n <= u16_max.

Lemma read_ipv4_range s a b c d rest :
  read_ipv4 s = Some ((a, b, c, d), rest) -> byte a /\ byte b /\ byte c /\ byte d.
Proof.
  unfold read_ipv4. intros ([a' s1] & Ha & ([b' s2] & Hb & ([c' s3] & Hc & ([d' s4] & Hd & [= <- <- <- <- _])
    %bind_Some)%bind_Some)%bind_Some)%bind_Some.
  apply read_separator_inv in Ha as [? Ha], Hb as [? Hb], Hc as [? Hc], Hd as [? Hd].
  by apply read_decimal_range in Ha, Hb, Hc, Hd.
Qed.

Lemma read_port_range s p rest : read_port s = Some (p, rest) -> segment p.
Proof. unfold read_port. intros ([u s'] & _ & Hp)%bind_Some. by eapply read_decimal_range. Qed.

Lemma read_groups_range limit first s :
  (length (read_groups limit first s).1.1 <= limit)%nat /\ Forall segment (read_groups limit first s).1.1.
Proof.
  revert first s. induction limit as [|n IH]; intros first s; simpl; [split; [lia|constructor]|].
  set (group := match read_separator ":" first (read_hex (Some 4) true u16_max) s with
                | Some (g, s') => _ | None => _ end).
  assert (Hg : (length group.1.1 <= S n)%nat /\ Forall segment group.1.1).
  { subst group. destruct (read_separator ":" first _ s) as [[g s']|] eqn:E; [|split; [simpl; lia|constructor]].
    destruct (IH false s') as [Hl Hf]. destruct (read_groups n false s') as [[l b] s'']. simpl in *.
    apply read_separator_inv in E as [? E]. split; [lia|]. constructor; [|done]. by eapply read_hex_range. }
  destruct n as [|m]; [done|].
  destruct (read_separator ":" first read_ipv4 s) as [[[[[a b] c] d] s']|] eqn:E; [|done]. simpl.
  split; [lia|]. apply read_separator_inv in E as [? E].
  apply read_ipv4_range in E as (Ha & Hb & Hc & Hd). unfold byte, u8_max, segment, u16_max in *.
  repeat constructor; lia.
Qed.

Lemma read_ipv6_range s l rest : read_ipv6 s = Some (l, rest) -> length l = 8%nat /\ Forall segment l.
Proof.
  unfold read_ipv6. pose proof (read_groups_range 8 true s) as [Hl Hf].
  destruct (read_groups 8 true s) as [[head v4] s1]. cbn [fst] in *.
  case_bool_decide as H8; [by intros [= <- _]|]. destruct v4; [done|].
  intros ([u s2] & _ & ([u' s3] & _ & Ht)%bind_Some)%bind_Some.
  pose proof (read_groups_range (8 - (length head + 1)) true s3) as [Hl' Hf'].
  destruct (read_groups (8 - (length head + 1)) true s3) as [[tail b] s4]. cbn [fst] in *.
  injection Ht as <- _. rewrite !length_app, length_replicate. split; [lia|].
  apply Forall_app_2; [done|]. apply Forall_app_2; [|done].
  apply Forall_replicate. unfold segment, u16_max. lia.
Qed.

(** Every address that is read is in range. *)
Lemma parse_well_typed s x : parse_socket_addr s = Some x -> well_typed_addr x.
Proof.
  unfold parse_socket_addr. intros Hp.
  assert (Hr : exists rest, read_socket_v4 s = Some (x, rest) \/ read_socket_v6 s = Some (x, rest)).
  { destruct (read_socket_v4 s) as [[y r]|]; [destruct r; simplify_eq; eauto|].
    destruct (read_socket_v6 s) as [[y r]|]; [destruct r; simplify_eq; eauto|done]. }
  destruct Hr as (rest & [Hr|Hr]).
  - unfold read_socket_v4 in Hr.
    apply bind_Some in Hr as ([[[[a b] c] d] s1] & H4 & ([p s2] & Hport & [= <- _])%bind_Some).
    apply read_ipv4_range in H4 as (? & ? & ? & ?). 
    split; [by do 4 (constructor; [done|])|by eapply read_port_range].
  - unfold read_socket_v6 in Hr.
    apply bind_Some in Hr as ([u s1] & _ & ([l s2] & H6 & Hr)%bind_Some).
    assert (Hs : exists n s3, 0 <= n <= u32_max /\
      match read_scope_id s2 with Some (n, s') => (n, s') | None => (0, s2) end = (n, s3)).
    { unfold read_scope_id. destruct (_ ≫= _) as [[n s']|] eqn:E; [|exists 0, s2; unfold u32_max; split; [lia|done]].
      apply bind_Some in E as ([u' s3] & _ & E). exists n, s'. split; [by eapply read_decimal_range|done]. }
    destruct Hs as (n & s3 & Hn & Hs). rewrite Hs in Hr.
    apply bind_Some in Hr as ([u' s4] & _ & ([p s5] & Hport & [= <- _])%bind_Some).
    apply read_ipv6_range in H6 as [Hl Hf]. split_and!; [done|done|lia|lia|by eapply read_port_range..].
Qed.

(** ** Hexadecimal numbers *)

Lemma hex_val_digit n : 0 <= n < 16 -> hex_val (hex_digit n) = Some n.
Proof.
  assert (Hall : Forall (fun d => hex_val (hex_digit d) = Some d) (seqZ 0 16)) by (apply (bool_decide_unpack _); vm_compute; exact I).
  rewrite Forall_forall in Hall. intros Hn. apply Hall, elem_of_seqZ. lia.
Qed.

(** What is printed in front of [acc] is scanned back, and is digits only. *)
Lemma scan_show_hex_go fuel n acc a c :
  0 <= n < 16 ^ Z.of_nat fuel ->
  exists k, 0 <= k /\ scan_hex a c (show_hex_go fuel n acc) = scan_hex (a * 16 ^ k + n) (c + k) acc.
Proof.
  revert n acc a c. induction fuel as [|f IH]; intros n acc a c Hn.
  - exists 0. simpl in Hn. split; [done|]. f_equal; simpl; lia.
  - assert (Hm : 0 <= n mod 16 < 16) by (apply Z.mod_pos_bound; lia).
    rewrite Nat2Z.inj_succ, Z.pow_succ_r in Hn by lia. cbn [show_hex_go]. cbv zeta. case_bool_decide as Hlt.
    + exists 1. split; [done|]. cbn [scan_hex]. rewrite hex_val_digit by done.
      rewrite Z.mod_small by lia. f_equal; lia.
    + destruct (IH (n / 16) (String (hex_digit (n mod 16)) acc) a c) as (k & Hk & ->).
      { split; [apply Z.div_pos; lia|apply Z.div_lt_upper_bound; lia]. }
      exists (k + 1). split; [lia|]. cbn [scan_hex]. rewrite hex_val_digit by done.
      rewrite Z.pow_add_r, Z.pow_1_r by lia. pose proof (Z.div_mod n 16 ltac:(lia)). f_equal; lia.
Qed.

Lemma scan_show_hex n : 0 <= n -> exists k, scan_hex 0 0 (show_hex n) = (n, k, "").
Proof.
  intros Hn. unfold show_hex.
  destruct (scan_show_hex_go (S (Z.to_nat (Z.log2 n))) n "" 0 0) as (k & _ & ->); [|by exists (0 + k)].
  split; [done|]. destruct (decide (n = 0)) as [->|]; [done|].
  rewrite Nat2Z.inj_succ, Z2Nat.id by apply Z.log2_nonneg.
  destruct (Z.log2_spec n) as [_ Hl]; [lia|]. eapply Z.lt_le_trans; [exact Hl|].
  apply Z.pow_le_mono_l. split; [pose proof (Z.log2_nonneg n); lia|lia].
Qed.

Lemma show_hex_inj n m : 0 <= n -> 0 <= m -> show_hex n = show_hex m -> n = m.
Proof.
  intros Hn Hm Heq. destruct (scan_show_hex n Hn) as [k Hk], (scan_show_hex m Hm) as [k' Hk'].
  rewrite Heq, Hk' in Hk. by injection Hk.
Qed.

Lemma show_hex_no c n : 0 <= n -> hex_val c = None -> char_in c (show_hex n) = false.
Proof.
  intros Hn Hc. destruct (scan_show_hex n Hn) as [k Hk]. revert Hk. generalize (show_hex n) as s.
  generalize 0 at 1 as a. generalize 0 as z. intros z a s. revert a z.
  induction s as [|x s IH]; intros a z; [done|]. cbn [scan_hex char_in].
  destruct (hex_val x) as [d|] eqn:Ex; [|done]. intros Hs. apply IH in Hs. rewrite Hs, orb_false_r.
  apply ascii_eqb_ne. congruence.
Qed.
