(* ===== verification/Config.v ===== *)
(** * Config: the configuration of nscale

    Models [crates/nscale-core/src/config.rs]: the settings with the readers and
    writers [serde] derives, the defaults, and the layers [Config::load] merges.
    [Value.t] stands for serde's data model.  figment's providers and its merge
    are a class; what its documentation promises of a merge is [FigmentLaws].
    The file is [nested]: its top-level tables are profiles, of which [default]
    and [global] are read. *)

From S2P Require Import Prelude Str F64 Json Net.
Local Open Scope Z_scope.

(** ** The settings *)
Record NomadConfig := mkNomadConfig {
  nomad_addr : string; nomad_token : option string; concurrency : Z }.
Record ConsulConfig := mkConsulConfig { consul_addr : string; consul_token : option string }.
Record RedisConfig := mkRedisConfig { redis_url : string }.
Record RegistryConfig := mkRegistryConfig {
  durable_enabled : bool;
  etcd_endpoints : string;
  etcd_key_prefix : string;
  etcd_watch_backoff_secs : Z }.
Record AutoDeregisterConfig := mkAutoDeregister {
  enabled : bool;
  not_found_threshold : Z }.
Record ScalingConfig := mkScaling {
  idle_timeout_secs : Z;
  wake_timeout_secs : Z;
  scale_down_interval_secs : Z;
  min_scale_down_age_secs : Z;
  auto_deregister : AutoDeregisterConfig }.
Record TraefikConfig := mkTraefikConfig { metrics_url : string; traefik_provider : string }.
Record ProxyConfig := mkProxyConfig { request_timeout_secs : Z; request_buffer_size : Z }.
Record RoutingConfig := mkRoutingConfig { file_provider_service : string }.

Record Config := mkConfig {
  listen_addr : SocketAddr;
  admin_addr : SocketAddr;
  nomad : NomadConfig;
  consul : ConsulConfig;
  redis : RedisConfig;
  scaling : ScalingConfig;
  proxy : ProxyConfig;
  registry : RegistryConfig;
  routing : RoutingConfig;
  traefik : option TraefikConfig }.

Definition idle_timeout (c : ScalingConfig) : Z := duration_from_secs (idle_timeout_secs c).
Definition wake_timeout (c : ScalingConfig) : Z := duration_from_secs (wake_timeout_secs c).
Definition scale_down_interval (c : ScalingConfig) : Z :=
  duration_from_secs (scale_down_interval_secs c).
Definition min_scale_down_age (c : ScalingConfig) : Z :=
  duration_from_secs (min_scale_down_age_secs c).
Definition request_timeout (c : ProxyConfig) : Z := duration_from_secs (request_timeout_secs c).

(** ** The defaults *)
Definition default_nomad_concurrency : Z := 50.
Definition default_idle_timeout : Z := 300.
Definition default_wake_timeout : Z := 60.
Definition default_scale_down_interval : Z := 30.
Definition default_min_scale_down_age : Z := 120.
Definition default_auto_deregister_enabled : bool := true.
Definition default_auto_deregister_not_found_threshold : Z := 5.
Definition default_request_timeout : Z := 30.
Definition default_request_buffer_size : Z := 1000.
Definition default_etcd_endpoints : string := "http://localhost:2379".
Definition default_etcd_key_prefix : string := "/nscale/registrations".
Definition default_etcd_watch_backoff : Z := 5.
Definition default_file_provider_service : string := "s2z-nscale@file".
Definition default_traefik_provider : string := "consulcatalog".

Definition default_AutoDeregisterConfig : AutoDeregisterConfig :=
  mkAutoDeregister default_auto_deregister_enabled default_auto_deregister_not_found_threshold.
Definition default_RoutingConfig : RoutingConfig := mkRoutingConfig default_file_provider_service.
Definition default_RegistryConfig : RegistryConfig :=
  mkRegistryConfig false default_etcd_endpoints default_etcd_key_prefix default_etcd_watch_backoff.

Definition default_Config : Config := {|
  listen_addr := V4 0 0 0 0 8080;
  admin_addr := V4 0 0 0 0 9090;
  nomad := mkNomadConfig "http://localhost:4646" None default_nomad_concurrency;
  consul := mkConsulConfig "http://localhost:8500" None;
  redis := mkRedisConfig "redis://localhost:6379";
  scaling := mkScaling default_idle_timeout default_wake_timeout default_scale_down_interval
    default_min_scale_down_age default_AutoDeregisterConfig;
  proxy := mkProxyConfig default_request_timeout default_request_buffer_size;
  registry := default_RegistryConfig;
  routing := mkRoutingConfig default_file_provider_service;
  traefik := None |}.

(** The literals of the two addresses parse to them: the [unwrap]s do not panic. *)
Example default_addrs :
  map parse_socket_addr ["0.0.0.0:8080"; "0.0.0.0:9090"]
  = [Some (listen_addr default_Config); Some (admin_addr default_Config)].
Proof. reflexivity. Qed.

(** ** Writers *)
Definition ser_str_option (o : option string) : Value.t := ser_option (Value.Str <$> o).

Definition ser_NomadConfig (c : NomadConfig) : Value.t := Value.Object
  [("addr", Value.Str (nomad_addr c)); ("token", ser_str_option (nomad_token c));
   ("concurrency", Value.PosInt (concurrency c))].
Definition ser_ConsulConfig (c : ConsulConfig) : Value.t := Value.Object
  [("addr", Value.Str (consul_addr c)); ("token", ser_str_option (consul_token c))].
Definition ser_RedisConfig (c : RedisConfig) : Value.t := Value.Object [("url", Value.Str (redis_url c))].
Definition ser_RegistryConfig (c : RegistryConfig) : Value.t := Value.Object
  [("durable_enabled", Value.Bool (durable_enabled c));
   ("etcd_endpoints", Value.Str (etcd_endpoints c));
   ("etcd_key_prefix", Value.Str (etcd_key_prefix c));
   ("etcd_watch_backoff_secs", Value.PosInt (etcd_watch_backoff_secs c))].
Definition ser_AutoDeregisterConfig (c : AutoDeregisterConfig) : Value.t := Value.Object
  [("enabled", Value.Bool (enabled c)); ("not_found_threshold", Value.PosInt (not_found_threshold c))].
Definition ser_ScalingConfig (c : ScalingConfig) : Value.t := Value.Object
  [("idle_timeout_secs", Value.PosInt (idle_timeout_secs c));
   ("wake_timeout_secs", Value.PosInt (wake_timeout_secs c));
   ("scale_down_interval_secs", Value.PosInt (scale_down_interval_secs c));
   ("min_scale_down_age_secs", Value.PosInt (min_scale_down_age_secs c));
   ("auto_deregister", ser_AutoDeregisterConfig (auto_deregister c))].
Definition ser_TraefikConfig (c : TraefikConfig) : Value.t := Value.Object
  [("metrics_url", Value.Str (metrics_url c)); ("provider", Value.Str (traefik_provider c))].
Definition ser_ProxyConfig (c : ProxyConfig) : Value.t := Value.Object
  [("request_timeout_secs", Value.PosInt (request_timeout_secs c));
   ("request_buffer_size", Value.PosInt (request_buffer_size c))].
Definition ser_RoutingConfig (c : RoutingConfig) : Value.t := Value.Object
  [("file_provider_service", Value.Str (file_provider_service c))].
Definition ser_addr (x : SocketAddr) : Value.t := Value.Str (show_socket_addr x).

Definition ser_Config (c : Config) : Value.t := Value.Object
  [("listen_addr", ser_addr (listen_addr c));
   ("admin_addr", ser_addr (admin_addr c));
   ("nomad", ser_NomadConfig (nomad c));
   ("consul", ser_ConsulConfig (consul c));
   ("redis", ser_RedisConfig (redis c));
   ("scaling", ser_ScalingConfig (scaling c));
   ("proxy", ser_ProxyConfig (proxy c));
   ("registry", ser_RegistryConfig (registry c));
   ("routing", ser_RoutingConfig (routing c));
   ("traefik", ser_option (ser_TraefikConfig <$> traefik c))].

(** ** Readers: [usize] is 64 bits wide. *)
Definition de_addr (v : Value.t) : option SocketAddr := s ← de_string v; parse_socket_addr s.

Definition de_NomadConfig : Value.t -> option NomadConfig := de_object (fun m =>
  a ← field de_string "addr" m;
  t ← field_option de_string "token" m;
  n ← field_default default_nomad_concurrency (de_uint u64_max) "concurrency" m;
  Some (mkNomadConfig a t n)).
Definition de_ConsulConfig : Value.t -> option ConsulConfig := de_object (fun m =>
  a ← field de_string "addr" m;
  t ← field_option de_string "token" m;
  Some (mkConsulConfig a t)).
Definition de_RedisConfig : Value.t -> option RedisConfig := de_object (fun m =>
  u ← field de_string "url" m; Some (mkRedisConfig u)).
Definition de_RegistryConfig : Value.t -> option RegistryConfig := de_object (fun m =>
  d ← field_default false de_bool "durable_enabled" m;
  e ← field_default default_etcd_endpoints de_string "etcd_endpoints" m;
  k ← field_default default_etcd_key_prefix de_string "etcd_key_prefix" m;
  b ← field_default default_etcd_watch_backoff (de_uint u64_max) "etcd_watch_backoff_secs" m;
  Some (mkRegistryConfig d e k b)).
Definition de_AutoDeregisterConfig : Value.t -> option AutoDeregisterConfig := de_object (fun m =>
  e ← field_default default_auto_deregister_enabled de_bool "enabled" m;
  n ← field_default default_auto_deregister_not_found_threshold (de_uint u32_max) "not_found_threshold" m;
  Some (mkAutoDeregister e n)).
Definition de_ScalingConfig : Value.t -> option ScalingConfig := de_object (fun m =>
  i ← field_default default_idle_timeout (de_uint u64_max) "idle_timeout_secs" m;
  w ← field_default default_wake_timeout (de_uint u64_max) "wake_timeout_secs" m;
  s ← field_default default_scale_down_interval (de_uint u64_max) "scale_down_interval_secs" m;
  a ← field_default default_min_scale_down_age (de_uint u64_max) "min_scale_down_age_secs" m;
  d ← field_default default_AutoDeregisterConfig de_AutoDeregisterConfig "auto_deregister" m;
  Some (mkScaling i w s a d)).
Definition de_TraefikConfig : Value.t -> option TraefikConfig := de_object (fun m =>
  u ← field de_string "metrics_url" m;
  p ← field_default default_traefik_provider de_string "provider" m;
  Some (mkTraefikConfig u p)).
Definition de_ProxyConfig : Value.t -> option ProxyConfig := de_object (fun m =>
  t ← field_default default_request_timeout (de_uint u64_max) "request_timeout_secs" m;
  b ← field_default default_request_buffer_size (de_uint u64_max) "request_buffer_size" m;
  Some (mkProxyConfig t b)).
Definition de_RoutingConfig : Value.t -> option RoutingConfig := de_object (fun m =>
  f ← field_default default_file_provider_service de_string "file_provider_service" m;
  Some (mkRoutingConfig f)).

Definition de_Config : Value.t -> option Config := de_object (fun m =>
  l ← field de_addr "listen_addr" m;
  a ← field de_addr "admin_addr" m;
  n ← field de_NomadConfig "nomad" m;
  c ← field de_ConsulConfig "consul" m;
  r ← field de_RedisConfig "redis" m;
  s ← field de_ScalingConfig "scaling" m;
  p ← field de_ProxyConfig "proxy" m;
  g ← field_default default_RegistryConfig de_RegistryConfig "registry" m;
  o ← field_default default_RoutingConfig de_RoutingConfig "routing" m;
  t ← field_option de_TraefikConfig "traefik" m;
  Some (mkConfig l a n c r s p g o t)).

(** ** Config::load *)

(** figment: providers, the figment they are merged into, and what it holds. *)
Class Figment (W : Type) := {
  provider : Type;
  figment : Type;
  figment_error : Type;
  serialized_defaults : Value.t -> provider;
  toml_file_nested : string -> provider;
  env_prefixed_split : string -> string -> provider;
  figment_from : provider -> ST W figment;
  figment_merge : figment -> provider -> ST W figment;
  figment_value : figment -> res figment_error Value.t;
  invalid_value : Value.t -> figment_error }.

Section load.
Context {W : Type} `{Figment W}.

(** [extract]. *)
Definition extract (f : figment) : res figment_error Config :=
  res_bind (figment_value f) (fun v => ok_or (invalid_value v) (de_Config v)).

Definition load : ST W (res figment_error Config) := (
  let* f := figment_from (serialized_defaults (ser_Config default_Config)) in
  let* f := figment_merge f (toml_file_nested "config/default.toml") in
  let* f := figment_merge f (env_prefixed_split "NSCALE_" "__") in
  ret (extract f))%st.

End load.

(** ** Values along a path of keys *)

Fixpoint at_path (p : list string) (v : Value.t) : option Value.t :=
  match p with [] => Some v | k :: p' => v' ← get k v; at_path p' v' end.

(** [v] has a table wherever the path goes on, and no table at its end: nothing
    at all is as good. *)
Fixpoint fits (p : list string) (v : Value.t) : bool :=
  match p, v with
  | [], Value.Object _ => false
  | [], _ => true
  | k :: p', Value.Object m => match obj_get k m with Some v' => fits p' v' | None => true end
  | _ :: _, _ => false
  end.

(** What the documentation of figment's [merge] promises: tables are joined
    recursively, any other value of the incoming provider replaces the old one. *)
Record joined (a b v : Value.t) : Prop := mkJoined {
  joined_at p : fits p b = true -> at_path p v = match at_path p b with Some x => Some x | None => at_path p a end;
  joined_fits p : fits p a = true -> fits p b = true -> fits p v = true }.

(** The profiles that are read: [default], the one [extract] selects, and [global],
    which figment lays over every other. *)
Inductive Profile : Type := Default | Global.

Definition no_table : Value.t := Value.Object [].

(** What a provider supplies to a profile, and what a figment holds in it.  The
    defaults and the environment supply [default] only, a nested file the tables
    at its top level.  Reading a provider changes nothing; a merge joins profile
    by profile and fails when either side does. *)
Class FigmentLaws (W : Type) `{Figment W} := {
  supplies : provider -> Profile -> W -> res figment_error Value.t;
  holds : figment -> Profile -> res figment_error Value.t;
  supplies_defaults v q w :
    supplies (serialized_defaults v) q w = Ok (match q with Default => v | Global => no_table end);
  supplies_env prefix sep v w :
    supplies (env_prefixed_split prefix sep) Global w = Ok v -> v = no_table;
  from_holds p q w : holds (figment_from p w).1 q = supplies p q w;
  from_reads p p' q w : supplies p' q (figment_from p w).2 = supplies p' q w;
  merge_reads f p p' q w : supplies p' q (figment_merge f p w).2 = supplies p' q w;
  merge_ok f p q w a b :
    holds f q = Ok a -> supplies p q w = Ok b ->
    exists v, holds (figment_merge f p w).1 q = Ok v /\ joined a b v;
  merge_err f p q w :
    is_ok (holds f q) = false \/ is_ok (supplies p q w) = false ->
    is_ok (holds (figment_merge f p w).1 q) = false;
  value_ok f a g :
    holds f Default = Ok a -> holds f Global = Ok g -> exists v, figment_value f = Ok v /\ joined a g v;
  value_err f q : is_ok (holds f q) = false -> is_ok (figment_value f) = false }.

(** ** The ranges of a configuration's integers *)
Definition is_u64 (n : Z) : Prop := 0 <= n <= u64_max.
Definition is_u32 (n : Z) : Prop := 0 <= n <= u32_max.

Record well_typed_Config (c : Config) : Prop := mkWellTyped {
  wt_listen : well_typed_addr (listen_addr c);
  wt_admin : well_typed_addr (admin_addr c);
  wt_concurrency : is_u64 (concurrency (nomad c));
  wt_idle : is_u64 (idle_timeout_secs (scaling c));
  wt_wake : is_u64 (wake_timeout_secs (scaling c));
  wt_interval : is_u64 (scale_down_interval_secs (scaling c));
  wt_min_age : is_u64 (min_scale_down_age_secs (scaling c));
  wt_threshold : is_u32 (not_found_threshold (auto_deregister (scaling c)));
  wt_request : is_u64 (request_timeout_secs (proxy c));
  wt_buffer : is_u64 (request_buffer_size (proxy c));
  wt_backoff : is_u64 (etcd_watch_backoff_secs (registry c)) }.

Definition is_v4 (x : SocketAddr) : bool := match x with V4 _ _ _ _ _ => true | V6 _ _ _ => false end.

(** ** Lemmas *)

(** What a reader of an integer with a default returns, in range either way. *)
Lemma field_uint_range d max k m n :
  0 <= d <= max -> field_default d (de_uint max) k m = Some n -> 0 <= n <= max.
Proof. intros Hd [[_ ->]|(v & _ & Hv)]%field_default_inv; [done|by eapply de_uint_range]. Qed.

(** Take a reader apart, one field at a time. *)
Ltac read_fields H :=
  lazymatch type of H with
  | de_object _ _ = Some _ =>
      let m := fresh "m" in apply de_object_inv in H as (m & -> & H); cbv beta in H; read_fields H
  | (_ ≫= _) = Some _ =>
      let x := fresh "x" in let Hx := fresh "Hx" in
      apply bind_Some in H as (x & Hx & H); cbv beta in H; read_fields H
  | Some _ = Some _ => injection H as <-
  | ?f _ = Some _ => unfold f in H; read_fields H
  end.

(** A constant of the program is in range. *)
Ltac in_range := vm_compute; split; discriminate.

Lemma de_addr_range k m x : field de_addr k m = Some x -> well_typed_addr x.
Proof.
  intros (v & _ & (s & _ & Hs)%bind_Some)%field_inv. by eapply parse_well_typed.
Qed.

Lemma de_NomadConfig_range v c : de_NomadConfig v = Some c -> is_u64 (concurrency c).
Proof. intros H. read_fields H. eapply field_uint_range; [|done]. in_range. Qed.

Lemma de_ProxyConfig_range v c :
  de_ProxyConfig v = Some c -> is_u64 (request_timeout_secs c) /\ is_u64 (request_buffer_size c).
Proof.
  intros H. read_fields H.
  split; (eapply field_uint_range; [|done]); in_range.
Qed.

Lemma de_RegistryConfig_range v c : de_RegistryConfig v = Some c -> is_u64 (etcd_watch_backoff_secs c).
Proof. intros H. read_fields H. eapply field_uint_range; [|done]. in_range. Qed.

Lemma de_AutoDeregister_range v c : de_AutoDeregisterConfig v = Some c -> is_u32 (not_found_threshold c).
Proof. intros H. read_fields H. eapply field_uint_range; [|done]. in_range. Qed.

Lemma de_ScalingConfig_range v c :
  de_ScalingConfig v = Some c ->
  is_u64 (idle_timeout_secs c) /\ is_u64 (wake_timeout_secs c) /\ is_u64 (scale_down_interval_secs c)
  /\ is_u64 (min_scale_down_age_secs c) /\ is_u32 (not_found_threshold (auto_deregister c)).
Proof.
  intros H. read_fields H. simpl.
  split_and!; try (eapply field_uint_range; [|done]; in_range).
  apply field_default_inv in Hx3 as [[_ ->]|(? & _ & Hd)]; [in_range|by eapply de_AutoDeregister_range].
Qed.

Lemma de_Config_range v c : de_Config v = Some c -> well_typed_Config c.
Proof.
  intros H. read_fields H.
  apply field_inv in Hx1 as (? & _ & Hn%de_NomadConfig_range), Hx4 as (? & _ & Hs%de_ScalingConfig_range),
    Hx5 as (? & _ & Hp%de_ProxyConfig_range). destruct Hs as (? & ? & ? & ? & ?), Hp as [? ?].
  split; simpl; try done; [by eapply de_addr_range..|].
  apply field_default_inv in Hx6 as [[_ ->]|(? & _ & Hd)]; [in_range|by eapply de_RegistryConfig_range].
Qed.

(** ** What is read is what is written back *)

(** A reader is sound for a writer: what it accepts is what the writer prints. *)
Definition sound {A} (de : Value.t -> option A) (ser : A -> Value.t) : Prop :=
  forall v a, de v = Some a -> ser a = v.

Lemma sound_string : sound de_string Value.Str.
Proof. by intros [] a; simpl; intros; simplify_eq. Qed.
Lemma sound_bool : sound de_bool Value.Bool.
Proof. by intros [] a; simpl; intros; simplify_eq. Qed.
Lemma sound_uint max : sound (de_uint max) Value.PosInt.
Proof. intros [] a; simpl; try done. case_bool_decide; by intros; simplify_eq. Qed.
Lemma sound_str_option : sound (de_option de_string) ser_str_option.
Proof. by intros [] a; simpl; intros; simplify_eq/=. Qed.
Create HintDb sound.
#[local] Hint Resolve sound_string sound_bool sound_uint sound_str_option : sound.

(** A field that is there is written back as it was. *)
Lemma sound_field {A} (de : Value.t -> option A) ser k m a v :
  sound de ser -> field de k m = Some a -> obj_get k m = Some v -> ser a = v.
Proof. intros Hs (v' & Hv & Ha)%field_inv Hv'. simplify_eq. by apply Hs. Qed.
Lemma sound_field_default {A} d (de : Value.t -> option A) ser k m a v :
  sound de ser -> field_default d de k m = Some a -> obj_get k m = Some v -> ser a = v.
Proof. unfold field_default. intros Hs Ha Hv. rewrite Hv in Ha. by apply Hs. Qed.
Lemma sound_field_option {A} (de : Value.t -> option A) ser k m a v :
  sound (de_option de) ser -> field_option de k m = Some a -> obj_get k m = Some v -> ser a = v.
Proof. unfold field_option. intros Hs Ha Hv. rewrite Hv in Ha. by apply Hs. Qed.

(** The same for the settings [ps] of a section: a value at one of them is there
    after reading the section and writing it. *)
Definition keeps {A} (de : Value.t -> option A) (ser : A -> Value.t) (ps : list (list string)) : Prop :=
  forall v a p x, p ∈ ps -> de v = Some a -> at_path p v = Some x -> at_path p (ser a) = Some x.

Ltac on_each_setting H :=
  repeat first [apply elem_of_cons in H as [->|H] | by apply elem_of_nil in H].

(** The setting of one key, whichever kind of field it is. *)
Ltac keep_field :=
  match goal with
  | H : field _ ?k ?m = Some _, Hv : obj_get ?k ?m = Some _ |- _ =>
      eapply sound_field in H; [|solve [eauto with sound]|exact Hv]; simpl; by rewrite H
  | H : field_default _ _ ?k ?m = Some _, Hv : obj_get ?k ?m = Some _ |- _ =>
      eapply sound_field_default in H; [|solve [eauto with sound]|exact Hv]; simpl; by rewrite H
  | H : field_option _ ?k ?m = Some _, Hv : obj_get ?k ?m = Some _ |- _ =>
      eapply sound_field_option in H; [|solve [eauto with sound]|exact Hv]; simpl; by rewrite H
  end.

Ltac keep_section :=
  let v := fresh "v" in let a := fresh "a" in let p := fresh "p" in let x := fresh "x" in
  let Hp := fresh "Hp" in let Hd := fresh "Hd" in let Hx := fresh "Hx" in
  intros v a p x Hp Hd Hx; read_fields Hd; on_each_setting Hp;
    simpl in Hx; apply bind_Some in Hx as (? & Hx & [= ->]); keep_field.

Definition nomad_settings : list (list string) := [["addr"]; ["token"]; ["concurrency"]].
Definition consul_settings : list (list string) := [["addr"]; ["token"]].
Definition redis_settings : list (list string) := [["url"]].
Definition registry_settings : list (list string) :=
  [["durable_enabled"]; ["etcd_endpoints"]; ["etcd_key_prefix"]; ["etcd_watch_backoff_secs"]].
Definition auto_settings : list (list string) := [["enabled"]; ["not_found_threshold"]].
Definition flat_scaling_settings : list (list string) :=
  [["idle_timeout_secs"]; ["wake_timeout_secs"]; ["scale_down_interval_secs"]; ["min_scale_down_age_secs"]].
Definition proxy_settings : list (list string) := [["request_timeout_secs"]; ["request_buffer_size"]].
Definition routing_settings : list (list string) := [["file_provider_service"]].

Lemma keeps_nomad : keeps de_NomadConfig ser_NomadConfig nomad_settings.
Proof. keep_section. Qed.
Lemma keeps_consul : keeps de_ConsulConfig ser_ConsulConfig consul_settings.
Proof. keep_section. Qed.
Lemma keeps_redis : keeps de_RedisConfig ser_RedisConfig redis_settings.
Proof. keep_section. Qed.
Lemma keeps_registry : keeps de_RegistryConfig ser_RegistryConfig registry_settings.
Proof. keep_section. Qed.
Lemma keeps_auto : keeps de_AutoDeregisterConfig ser_AutoDeregisterConfig auto_settings.
Proof. keep_section. Qed.
Lemma keeps_flat_scaling : keeps de_ScalingConfig ser_ScalingConfig flat_scaling_settings.
Proof. keep_section. Qed.
Lemma keeps_proxy : keeps de_ProxyConfig ser_ProxyConfig proxy_settings.
Proof. keep_section. Qed.
Lemma keeps_routing : keeps de_RoutingConfig ser_RoutingConfig routing_settings.
Proof. keep_section. Qed.

(** ** The settings of the whole configuration

    The two addresses apart, which are written back in canonical form; the
    Traefik section is optional. *)
Definition under (k : string) (ps : list (list string)) : list (list string) := map (cons k) ps.

Definition scaling_settings : list (list string) :=
  flat_scaling_settings ++ under "auto_deregister" auto_settings.

Definition settings : list (list string) :=
  under "nomad" nomad_settings ++ under "consul" consul_settings ++ under "redis" redis_settings
  ++ under "scaling" scaling_settings ++ under "proxy" proxy_settings
  ++ under "registry" registry_settings ++ under "routing" routing_settings.

Lemma keeps_app {A} (de : Value.t -> option A) ser ps qs :
  keeps de ser ps -> keeps de ser qs -> keeps de ser (ps ++ qs).
Proof. intros Hp Hq v a p x [?|?]%elem_of_app; [by apply Hp|by apply Hq]. Qed.

(** A section that is a field of another: [part] selects it. *)
Lemma keeps_under {A B} (de : Value.t -> option A) ser (de' : Value.t -> option B) ser' part k ps :
  keeps de' ser' ps ->
  (forall v a x, de v = Some a -> get k v = Some x -> de' x = Some (part a)) ->
  (forall a, get k (ser a) = Some (ser' (part a))) ->
  keeps de ser (under k ps).
Proof.
  intros Hk Hde Hser v a p x (q & -> & Hq)%list_elem_of_fmap Hd Hx. cbn [at_path] in *.
  apply bind_Some in Hx as (y & Hy & Hx). rewrite Hser. simpl. by eapply Hk; [|eapply Hde|].
Qed.

(** The reader of a field, from the value found there. *)
Ltac field_of_section :=
  let H := fresh "H" in let Hg := fresh "Hg" in
  intros ? ? ? H Hg; read_fields H; simpl in Hg;
  match goal with
  | H : field _ ?k ?m = Some _ |- _ => unfold field in H; rewrite Hg in H; exact H
  | H : field_default _ _ ?k ?m = Some _ |- _ => unfold field_default in H; rewrite Hg in H; exact H
  end.
Ltac keep_under part K := eapply (keeps_under _ _ _ _ part _ _ K); [field_of_section|done].

Lemma keeps_scaling : keeps de_ScalingConfig ser_ScalingConfig scaling_settings.
Proof. apply keeps_app; [apply keeps_flat_scaling|]. keep_under auto_deregister keeps_auto. Qed.

Lemma keeps_config : keeps de_Config ser_Config settings.
Proof.
  repeat apply keeps_app.
  - keep_under nomad keeps_nomad.
  - keep_under consul keeps_consul.
  - keep_under redis keeps_redis.
  - keep_under scaling keeps_scaling.
  - keep_under proxy keeps_proxy.
  - keep_under registry keeps_registry.
  - keep_under routing keeps_routing.
Qed.

Definition traefik_settings : list (list string) := under "traefik" [["metrics_url"]; ["provider"]].

Lemma keeps_traefik_section : keeps de_TraefikConfig ser_TraefikConfig [["metrics_url"]; ["provider"]].
Proof. keep_section. Qed.

(** A section that is set is written back as a table. *)
Lemma traefik_section v c y :
  de_Config v = Some c -> get "traefik" v = Some y ->
  de_option de_TraefikConfig y = Some (traefik c).
Proof.
  intros Hd Hy. read_fields Hd. simpl in Hy. match goal with
  | H : field_option _ "traefik" ?m = Some _ |- _ => unfold field_option in H; rewrite Hy in H; exact H end.
Qed.

Lemma no_traefik_section v c : de_Config v = Some c -> get "traefik" v = None -> traefik c = None.
Proof.
  intros Hd Hy. read_fields Hd. simpl in Hy. match goal with
  | H : field_option _ "traefik" ?m = Some _ |- _ => unfold field_option in H; rewrite Hy in H; by injection H end.
Qed.

Lemma de_option_some {A} (de : Value.t -> option A) v a : de_option de v = Some (Some a) -> de v = Some a.
Proof. destruct v; simpl; first [done | by intros (? & ? & [= ->])%fmap_Some]. Qed.

Lemma keeps_traefik : keeps de_Config ser_Config traefik_settings.
Proof.
  intros v c p x (q & -> & Hq)%list_elem_of_fmap Hd Hx. cbn [at_path] in Hx.
  apply bind_Some in Hx as (y & Hy & Hx). pose proof (traefik_section _ _ _ Hd Hy) as Ht.
  assert (exists t, traefik c = Some t /\ de_TraefikConfig y = Some t) as (t & Hc & Hdt).
  { destruct y; simpl in Ht; try (destruct (de_TraefikConfig _) eqn:E; simplify_eq/=; eauto).
    exfalso. on_each_setting Hq; done. }
  pose proof (keeps_traefik_section y t q x Hq Hdt Hx) as Hk.
  cbn [at_path]. assert (get "traefik" (ser_Config c) = Some (ser_TraefikConfig t)) as ->.
  { change (get "traefik" (ser_Config c)) with (Some (ser_option (ser_TraefikConfig <$> traefik c))). by rewrite Hc. }
  exact Hk.
Qed.

(** Every setting has a default. *)
Lemma settings_have_defaults p :
  p ∈ settings -> exists x, at_path p (ser_Config default_Config) = Some x.
Proof. intros Hp. vm_compute in Hp. on_each_setting Hp; vm_compute; eauto. Qed.

(** ** Round trip *)

Lemma de_ser_str_option o : de_option de_string (ser_str_option o) = Some o.
Proof. by destruct o. Qed.

Lemma field_at {A} (de : Value.t -> option A) k m v a :
  obj_get k m = Some v -> de v = Some a -> field de k m = Some a.
Proof. unfold field. by intros ->. Qed.
Lemma field_default_at {A} d (de : Value.t -> option A) k m v a :
  obj_get k m = Some v -> de v = Some a -> field_default d de k m = Some a.
Proof. unfold field_default. by intros ->. Qed.
Lemma field_option_at {A} (de : Value.t -> option A) k m v a :
  obj_get k m = Some v -> de_option de v = Some a -> field_option de k m = Some a.
Proof. unfold field_option. by intros ->. Qed.

Create HintDb readers.
#[local] Hint Resolve de_ser_str_option de_uint_ser : readers.
#[local] Hint Extern 1 (de_string (Value.Str _) = _) => reflexivity : readers.
#[local] Hint Extern 1 (de_bool (Value.Bool _) = _) => reflexivity : readers.

(** Read back a struct that was written, field by field. *)
Ltac write_then_read :=
  lazymatch goal with
  | |- (field _ _ _ ≫= _) = Some _ =>
      erewrite field_at; [|reflexivity|solve [eauto with readers nocore]]; cbn [mbind option_bind]; write_then_read
  | |- (field_default _ _ _ _ ≫= _) = Some _ =>
      erewrite field_default_at; [|reflexivity|solve [eauto with readers nocore]]; cbn [mbind option_bind]; write_then_read
  | |- (field_option _ _ _ ≫= _) = Some _ =>
      erewrite field_option_at; [|reflexivity|solve [eauto with readers nocore]]; cbn [mbind option_bind]; write_then_read
  | |- Some _ = Some _ => reflexivity
  | |- ?f (?g ?c) = Some _ =>
      unfold f, g, de_object; cbn [as_object mbind option_bind]; destruct c; write_then_read
  end.

Lemma de_ser_NomadConfig c : is_u64 (concurrency c) -> de_NomadConfig (ser_NomadConfig c) = Some c.
Proof. intros. write_then_read. Qed.
Lemma de_ser_ConsulConfig c : de_ConsulConfig (ser_ConsulConfig c) = Some c.
Proof. intros. write_then_read. Qed.
Lemma de_ser_RedisConfig c : de_RedisConfig (ser_RedisConfig c) = Some c.
Proof. intros. write_then_read. Qed.
Lemma de_ser_RegistryConfig c :
  is_u64 (etcd_watch_backoff_secs c) -> de_RegistryConfig (ser_RegistryConfig c) = Some c.
Proof. intros. write_then_read. Qed.
Lemma de_ser_AutoDeregister c :
  is_u32 (not_found_threshold c) -> de_AutoDeregisterConfig (ser_AutoDeregisterConfig c) = Some c.
Proof. intros. write_then_read. Qed.
Lemma de_ser_ProxyConfig c :
  is_u64 (request_timeout_secs c) -> is_u64 (request_buffer_size c) ->
  de_ProxyConfig (ser_ProxyConfig c) = Some c.
Proof. intros. write_then_read. Qed.
Lemma de_ser_RoutingConfig c : de_RoutingConfig (ser_RoutingConfig c) = Some c.
Proof. intros. write_then_read. Qed.
Lemma de_ser_TraefikConfig c : de_TraefikConfig (ser_TraefikConfig c) = Some c.
Proof. intros. write_then_read. Qed.
#[local] Hint Resolve de_ser_NomadConfig de_ser_ConsulConfig de_ser_RedisConfig de_ser_RegistryConfig
  de_ser_AutoDeregister de_ser_ProxyConfig de_ser_RoutingConfig de_ser_TraefikConfig : readers.

Lemma de_ser_ScalingConfig c :
  is_u64 (idle_timeout_secs c) -> is_u64 (wake_timeout_secs c) -> is_u64 (scale_down_interval_secs c) ->
  is_u64 (min_scale_down_age_secs c) -> is_u32 (not_found_threshold (auto_deregister c)) ->
  de_ScalingConfig (ser_ScalingConfig c) = Some c.
Proof. intros. write_then_read. Qed.
#[local] Hint Resolve de_ser_ScalingConfig : readers.

Lemma de_ser_addr x : well_typed_addr x -> is_v4 x = true -> de_addr (ser_addr x) = Some x.
Proof. destruct x; [|done]. intros Hx _. by apply parse_show_v4. Qed.
#[local] Hint Resolve de_ser_addr : readers.

Lemma de_ser_traefik o : de_option de_TraefikConfig (ser_option (ser_TraefikConfig <$> o)) = Some o.
Proof.
  destruct o as [t|]; [|done].
  change (Some <$> de_TraefikConfig (ser_TraefikConfig t) = Some (Some t)). by rewrite de_ser_TraefikConfig.
Qed.
#[local] Hint Resolve de_ser_traefik : readers.

(** ** The layers

    [file] and [global] are the two tables of the file, [env] the environment. *)
Section layers.
Variables file global env : Value.t.

Definition fitting (p : list string) : bool := fits p file && fits p global && fits p env.

(** The layer a setting comes from: the [global] table of the file is laid over
    the environment, the environment over the file's [default] table. *)
Definition set_by (p : list string) : option Value.t :=
  match at_path p global, at_path p env, at_path p file with
  | Some x, _, _ => Some x
  | None, Some x, _ => Some x
  | None, None, o => o
  end.

Definition chosen (p : list string) : option Value.t :=
  match set_by p with Some x => Some x | None => at_path p (ser_Config default_Config) end.

(** What a configuration that was read from [v] owes to the layers. *)
Definition layered (v : Value.t) : Prop :=
  forall p, p <> [] -> fitting p = true -> at_path p v = chosen p.

Lemma joined_layers ab a g1 g v :
  joined (ser_Config default_Config) file ab -> joined ab env a ->
  joined no_table global g1 -> joined g1 no_table g -> joined a g v -> layered v.
Proof.
  intros Hab Ha Hg1 Hg Hv p Hp [[Hff Hfg]%andb_true_iff Hfe]%andb_true_iff.
  assert (Hn : fits p no_table = true /\ at_path p no_table = None) by (by destruct p). destruct Hn as [Hn Hnp].
  assert (Hg1f := joined_fits _ _ _ Hg1 p Hn Hfg). assert (Hgf := joined_fits _ _ _ Hg p Hg1f Hn).
  rewrite (joined_at _ _ _ Hv p Hgf), (joined_at _ _ _ Hg p Hn), Hnp, (joined_at _ _ _ Hg1 p Hfg), Hnp,
    (joined_at _ _ _ Ha p Hfe), (joined_at _ _ _ Hab p Hff).
  unfold chosen, set_by. by destruct (at_path p global), (at_path p env), (at_path p file).
Qed.

Lemma setting_path p : p ∈ settings ++ traefik_settings -> p <> [].
Proof.
  intros Hp ->. vm_compute in Hp. repeat (apply elem_of_cons in Hp as [[=]|Hp]). by apply elem_of_nil in Hp.
Qed.

Lemma layered_setting v c p :
  layered v -> de_Config v = Some c -> p ∈ settings -> fitting p = true -> at_path p (ser_Config c) = chosen p.
Proof.
  intros Hl Hd Hp Hf. destruct (settings_have_defaults p Hp) as [d Hdef].
  assert (Hv : at_path p v = chosen p) by (apply Hl; [apply setting_path, elem_of_app; by left|done]).
  assert (is_Some (chosen p)) as [x Hx] by (unfold chosen; rewrite Hdef; by destruct (set_by p)).
  rewrite Hx in *. by eapply keeps_config.
Qed.

(** The addresses, which the writer prints in canonical form. *)
Definition addresses : list (string * (Config -> SocketAddr)) :=
  [("listen_addr", listen_addr); ("admin_addr", admin_addr)].

Lemma layered_address v c k part :
  layered v -> de_Config v = Some c -> (k, part) ∈ addresses -> fitting [k] = true ->
  chosen [k] ≫= de_addr = Some (part c).
Proof.
  intros Hl Hd Hk Hf. rewrite <- (Hl [k]) by done. read_fields Hd. cbn [at_path get].
  repeat first [apply elem_of_cons in Hk as [[= -> ->]|Hk] | by apply elem_of_nil in Hk]; simpl;
    match goal with H : field de_addr ?k _ = Some ?y |- context [obj_get ?k ?m] =>
      unfold field in H; destruct (obj_get k m); exact H end.
Qed.

Lemma layered_traefik v c p x :
  layered v -> de_Config v = Some c -> p ∈ traefik_settings -> fitting p = true -> set_by p = Some x ->
  at_path p (ser_Config c) = Some x.
Proof.
  intros Hl Hd Hp Hf Hx. eapply keeps_traefik; [done..|]. rewrite Hl; [|apply setting_path, elem_of_app; by right|done].
  unfold chosen. by rewrite Hx.
Qed.

(** No layer has the section. *)
Lemma layered_no_traefik v c :
  layered v -> de_Config v = Some c -> fitting ["traefik"] = true -> set_by ["traefik"] = None ->
  traefik c = None.
Proof.
  intros Hl Hd Hf Hx. assert (Hv := Hl ["traefik"] ltac:(done) Hf). unfold chosen in Hv. rewrite Hx in Hv.
  cbn [at_path] in Hv. apply bind_Some in Hv as (y & Hy & [= Hv]).
  pose proof (traefik_section _ _ _ Hd Hy) as Ht. subst y. by injection Ht.
Qed.

(** The section is there and does not name the provider. *)
Lemma layered_provider v c t :
  layered v -> de_Config v = Some c -> fitting ["traefik"; "provider"] = true ->
  set_by ["traefik"; "provider"] = None -> traefik c = Some t -> traefik_provider t = default_traefik_provider.
Proof.
  intros Hl Hd Hf Hx Ht. assert (Hv := Hl ["traefik"; "provider"] ltac:(done) Hf). unfold chosen in Hv.
  rewrite Hx in Hv. change (at_path ["traefik"; "provider"] (ser_Config default_Config)) with (None (A := Value.t)) in Hv.
  cbn [at_path] in Hv. destruct (get "traefik" v) as [y|] eqn:Hy.
  - pose proof (traefik_section _ _ _ Hd Hy) as Hy'. rewrite Ht in Hy'. apply de_option_some in Hy'.
    read_fields Hy'. simpl in Hv |- *. unfold field_default in *. by destruct (obj_get "provider" _); simplify_eq/=.
  - rewrite (no_traefik_section v c Hd Hy) in Ht. done.
Qed.

End layers.

Section loading.
Context {W : Type} `{FigmentLaws W}.

Definition config_file : provider := toml_file_nested "config/default.toml".
Definition environment : provider := env_prefixed_split "NSCALE_" "__".

(** The three providers, merged. *)
Definition merged : ST W figment := (
  let* f := figment_from (serialized_defaults (ser_Config default_Config)) in
  let* f := figment_merge f config_file in
  figment_merge f environment)%st.

Lemma load_merged w : load w = (extract (merged w).1, (merged w).2).
Proof.
  unfold load, merged, bind, ret, config_file, environment.
  destruct (figment_from _ w) as [f0 w0]. destruct (figment_merge f0 _ w0) as [f1 w1]. by destruct (figment_merge f1 _ w1).
Qed.

(** What a profile holds at the end, or that it holds an error. *)
Lemma merged_profile q w d :
  supplies (serialized_defaults (ser_Config default_Config)) q w = Ok d ->
  is_ok (holds (merged w).1 q) = true ->
  exists t e dt a, supplies config_file q w = Ok t /\ supplies environment q w = Ok e /\
    joined d t dt /\ joined dt e a /\ holds (merged w).1 q = Ok a.
Proof.
  intros Hd. set (p := serialized_defaults _) in *. unfold merged, bind. fold p.
  pose proof (from_holds p q w) as Hf. pose proof (fun p' => from_reads p p' q w) as Hr.
  destruct (figment_from p w) as [f0 w0]. simpl in *. rewrite Hd in Hf.
  pose proof (merge_reads f0 config_file environment q w0) as Hr1. rewrite Hr in Hr1.
  destruct (supplies config_file q w0) as [t|e] eqn:Ht.
  - destruct (merge_ok f0 config_file q w0 _ _ Hf Ht) as (dt & Hdt & Hj).
    destruct (figment_merge f0 config_file w0) as [f1 w1]. simpl in *. rewrite Hr in Ht.
    destruct (supplies environment q w1) as [e|e] eqn:He; rewrite <- Hr1.
    + destruct (merge_ok f1 environment q w1 _ _ Hdt He) as (a & Ha & Hj'). intros _. by exists t, e, dt, a.
    + by rewrite (merge_err f1 environment q w1) by (rewrite He; by right).
  - assert (Hm := merge_err f0 config_file q w0 (or_intror (f_equal is_ok Ht))).
    destruct (figment_merge f0 config_file w0) as [f1 w1]. by rewrite (merge_err f1 environment q w1) by (by left).
Qed.

(** A configuration that loads was read from the layers of both profiles. *)
Lemma load_layers w c w' :
  load w = (Ok c, w') ->
  exists file global env v,
    supplies config_file Default w = Ok file /\ supplies config_file Global w = Ok global /\
    supplies environment Default w = Ok env /\ layered file global env v /\ de_Config v = Some c.
Proof.
  rewrite load_merged. intros [= Hc _]. unfold extract in Hc.
  destruct (figment_value _) as [v|e] eqn:Hv; simpl in Hc; [|done].
  destruct (de_Config v) as [c'|] eqn:Hd; simplify_eq/=.
  assert (Ho : forall q, is_ok (holds (merged w).1 q) = true).
  { intros q. destruct (is_ok (holds _ _)) eqn:E; [done|]. apply value_err in E. by rewrite Hv in E. }
  destruct (merged_profile Default w _ (supplies_defaults _ _ _) (Ho _)) as (file & env & ab & a & ? & ? & ? & ? & Ha).
  destruct (merged_profile Global w _ (supplies_defaults _ _ _) (Ho _)) as (global & env' & g1 & g & ? & He & ? & ? & Hg).
  assert (env' = no_table) as -> by by eapply supplies_env.
  destruct (value_ok _ _ _ Ha Hg) as (v' & Hv' & ?). rewrite Hv in Hv'. injection Hv' as <-.
  exists file, global, env, v. split_and!; try done. by eapply joined_layers.
Qed.

End loading.

(** ** A concrete figment

    What the providers read is in the world, the file as it is written: with a
    table for each profile. *)
Module Layers.
Record world := mkWorld { file : res string Value.t; env : res string Value.t }.

Fixpoint join (a b : Value.t) {struct b} : Value.t :=
  match b, a with
  | Value.Object mb, Value.Object ma =>
      Value.Object ((fix go (mb : obj) : obj :=
        match mb with
        | [] => ma
        | (k, vb) :: rest =>
            obj_insert k (match obj_get k ma with Some va => join va vb | None => vb end) (go rest)
        end) mb)
  | _, _ => b
  end.

Inductive source : Type := Given (v : Value.t) | File (path : string) | Env (prefix sep : string).

Definition profile_key (q : Profile) : string := match q with Default => "default" | Global => "global" end.

Definition table_of (q : Profile) (v : Value.t) : Value.t := default no_table (get (profile_key q) v).

Definition at_default (v : Value.t) (q : Profile) : Value.t := match q with Default => v | Global => no_table end.

(** A provider reads both profiles, or neither. *)
Definition read_all (p : source) (w : world) : res string (Profile -> Value.t) :=
  match p with
  | Given v => Ok (at_default v)
  | File path =>
      if bool_decide (path = "config/default.toml") then res_map (fun v q => table_of q v) (file w)
      else Ok (fun _ => no_table)
  | Env _ _ => res_map at_default (env w)
  end.

#[global] Instance layers : Figment world := {|
  provider := source;
  figment := res string (Profile -> Value.t);
  figment_error := string;
  serialized_defaults := Given;
  toml_file_nested := File;
  env_prefixed_split := Env;
  figment_from p := fun w => (read_all p w, w);
  figment_merge f p := fun w =>
    (res_bind f (fun a => res_bind (read_all p w) (fun b => Ok (fun q => join (a q) (b q)))), w);
  figment_value f := res_map (fun a => join (a Default) (a Global)) f;
  invalid_value _ := "invalid configuration" |}.

Lemma join_get k ma mb :
  get k (join (Value.Object ma) (Value.Object mb))
  = match obj_get k mb with
    | Some vb => Some (match obj_get k ma with Some va => join va vb | None => vb end)
    | None => obj_get k ma
    end.
Proof.
  simpl. induction mb as [|[k' vb] mb IH]; [done|]. simpl.
  destruct (decide (k = k')) as [->|Hne].
  - by rewrite obj_get_insert, bool_decide_eq_true_2.
  - by rewrite obj_get_insert_ne, IH, (bool_decide_eq_false_2 (k = k')).
Qed.

Lemma fits_object p m : fits p (Value.Object m) = true -> p <> [].
Proof. by destruct p. Qed.

Lemma join_at p a b :
  fits p b = true -> at_path p (join a b) = match at_path p b with Some x => Some x | None => at_path p a end.
Proof.
  revert a b. induction p as [|k p IH]; intros a b Hf; [by destruct b|].
  destruct b as [| | | | | | |mb]; try done. simpl in Hf.
  destruct a as [| | | | | | |ma]; try (simpl; by destruct (obj_get k mb) as [t|] eqn:E; simpl;
    [destruct (at_path p t)|]).
  cbn [at_path]. rewrite join_get. unfold get at 1 2.
  destruct (obj_get k mb) as [vb|]; simpl; [|done].
  destruct (obj_get k ma) as [va|]; simpl; [by apply IH|]. by destruct (at_path p vb).
Qed.

Lemma fits_get k p v : fits (k :: p) v = true <-> is_Some (as_object v) /\ from_option (fits p) true (get k v) = true.
Proof.
  split; [|destruct v as [| | | | | | |m]; intros [Hv Hf]; first [by destruct Hv | simpl in *; by destruct (obj_get k m)]].
  destruct v as [| | | | | | |m]; simpl; first [done | intros Hf; split; [eauto|]; by destruct (obj_get k m)].
Qed.

Lemma join_fits p a b : fits p a = true -> fits p b = true -> fits p (join a b) = true.
Proof.
  revert a b. induction p as [|k p IH]; intros a b; [by destruct a, b|].
  destruct a as [| | | | | | |ma], b as [| | | | | | |mb]; try done. rewrite !fits_get.
  intros [_ Ha] [_ Hb]. split; [simpl; eauto|]. rewrite join_get. unfold get in *. simpl in Ha, Hb.
  destruct (obj_get k mb) as [vb|]; [|done]. destruct (obj_get k ma) as [va|]; [by apply IH|done].
Qed.

Lemma join_joined a b : joined a b (join a b).
Proof. split; intros p; [apply join_at|apply join_fits]. Qed.

#[global] Instance laws : FigmentLaws world.
Proof.
  refine {| supplies p q w := res_map (fun r => r q) (read_all p w); holds f q := res_map (fun a => a q) f |}.
  all: try done.
  - intros prefix sep v w. simpl. destruct (env w); by intros [= <-].
  - intros [f|] p q w a b; simpl; [|done]. destruct (read_all p w) as [r|]; simpl; [|done].
    intros [= <-] [= <-]. eexists. split; [done|]. apply join_joined.
  - intros [f|] p q w; simpl; [|done]. destruct (read_all p w); simpl; naive_solver.
  - intros [f|] a g; simpl; [|done]. intros [= <-] [= <-]. eexists. split; [done|]. apply join_joined.
  - by intros [f|] q.
Defined.
End Layers.

(** ** Theorems *)

(** C36.  A well-typed configuration whose two addresses are IPv4 is read back
    unchanged after it was written: both addresses, every section and every
    optional setting. *)
Theorem config_roundtrip c :
  well_typed_Config c -> is_v4 (listen_addr c) = true -> is_v4 (admin_addr c) = true ->
  de_Config (ser_Config c) = Some c.
Proof. intros [] ? ?. write_then_read. Qed.

(** A configuration with every optional part. *)
Definition sample : Config :=
  mkConfig (V4 127 0 0 1 80) (V4 10 0 0 255 65535) (mkNomadConfig "http://nomad:4646" (Some "secret") 7)
    (consul default_Config) (redis default_Config) (scaling default_Config) (proxy default_Config)
    (mkRegistryConfig true "http://a:2379, http://b:2379" "/nscale" 5) (routing default_Config)
    (Some (mkTraefikConfig "http://traefik:8082" "consulcatalog")).

Ltac in_ranges := repeat first [constructor | discriminate | vm_compute; discriminate].

Lemma config_roundtrip_witness : de_Config (ser_Config sample) = Some sample.
Proof. apply config_roundtrip; [|reflexivity..]. split; in_ranges. Defined.

(** Whatever the file and the environment hold, a configuration that loads is well
    typed: ports and address parts, the 64-bit durations and sizes and the 32-bit
    threshold are in range. *)
Lemma loaded_config_well_typed W `{Figment W} (w : W) c w' :
  load w = (Ok c, w') -> well_typed_Config c.
Proof.
  unfold load, bind, ret, extract. run_calls. intros [= Hc _].
  destruct (figment_value _) as [v|]; [|done]. simpl in Hc.
  destruct (de_Config v) as [c'|] eqn:Hd; simplify_eq/=. by eapply de_Config_range.
Qed.

(** C27.  The layers of [Config::load].  The file has two tables that are read,
    [default] and [global].  A setting of a configuration that loads has the value
    of the first of [global], the environment ([NSCALE_...]), [default] and the
    built-in defaults that has one.  That is so of every setting of every
    section, and of the two addresses, which are the ones the chosen strings
    denote; of the Traefik section, which has no default: what a layer says of it
    is kept, a layer that does not name the provider gets ["consulcatalog"], and
    without the section in any layer there is none.  It is assumed at each
    setting that no layer confuses a table with a value on the way there. *)
Theorem layers_take_precedence W `{FigmentLaws W} (w : W) c w' :
  load w = (Ok c, w') ->
  exists file global env,
    supplies config_file Default w = Ok file /\
    supplies config_file Global w = Ok global /\
    supplies environment Default w = Ok env /\
    (forall p, p ∈ settings -> fitting file global env p = true ->
       at_path p (ser_Config c) = chosen file global env p) /\
    (forall k part, (k, part) ∈ addresses -> fitting file global env [k] = true ->
       chosen file global env [k] ≫= de_addr = Some (part c)) /\
    (forall p x, p ∈ traefik_settings -> fitting file global env p = true ->
       set_by file global env p = Some x -> at_path p (ser_Config c) = Some x) /\
    (forall t, traefik c = Some t -> fitting file global env ["traefik"; "provider"] = true ->
       set_by file global env ["traefik"; "provider"] = None -> traefik_provider t = default_traefik_provider) /\
    (fitting file global env ["traefik"] = true -> set_by file global env ["traefik"] = None -> traefik c = None).
Proof.
  intros (file & global & env & v & ? & ? & ? & Hl & Hd)%load_layers. exists file, global, env.
  split_and!; try done; intros.
  - by eapply layered_setting.
  - by eapply layered_address.
  - by eapply layered_traefik.
  - by eapply layered_provider.
  - by eapply layered_no_traefik.
Qed.

Definition some_env : Value.t := Value.Object
  [("nomad", Value.Object [("addr", Value.Str "http://nomad:4646"); ("token", Value.Str "t")]);
   ("scaling", Value.Object [("idle_timeout_secs", Value.PosInt 60)]);
   ("proxy", Value.Object [("request_timeout_secs", Value.PosInt 5)]);
   ("traefik", Value.Object [("metrics_url", Value.Str "http://traefik:8082")])].
Definition some_file : Value.t := Value.Object
  [("default", Value.Object
     [("scaling", Value.Object [("idle_timeout_secs", Value.PosInt 600); ("wake_timeout_secs", Value.PosInt 10)]);
      ("listen_addr", Value.Str "0.0.0.0:80")]);
   ("global", Value.Object [("proxy", Value.Object [("request_timeout_secs", Value.PosInt 9)])])].
Definition some_world : Layers.world := Layers.mkWorld (Ok some_file) (Ok some_env).
Definition some_config : Config := default default_Config
  (match load some_world with (Ok c, _) => Some c | _ => None end).

Lemma layers_take_precedence_witness :
  load some_world = (Ok some_config, some_world) /\
  (exists file global env,
     supplies config_file Default some_world = Ok file /\
     supplies config_file Global some_world = Ok global /\
     supplies environment Default some_world = Ok env /\
     (forall p, p ∈ settings -> fitting file global env p = true ->
        at_path p (ser_Config some_config) = chosen file global env p) /\
     (forall k part, (k, part) ∈ addresses -> fitting file global env [k] = true ->
        chosen file global env [k] ≫= de_addr = Some (part some_config)) /\
     (forall p x, p ∈ traefik_settings -> fitting file global env p = true ->
        set_by file global env p = Some x -> at_path p (ser_Config some_config) = Some x) /\
     (forall t, traefik some_config = Some t -> fitting file global env ["traefik"; "provider"] = true ->
        set_by file global env ["traefik"; "provider"] = None -> traefik_provider t = default_traefik_provider) /\
     (fitting file global env ["traefik"] = true -> set_by file global env ["traefik"] = None ->
        traefik some_config = None)).
Proof.
  split; [vm_compute; reflexivity|].
  apply (layers_take_precedence Layers.world some_world some_config some_world). vm_compute. reflexivity.
Defined.

(** The environment over [default], [global] over both. *)
Example some_settings :
  (idle_timeout_secs (scaling some_config), wake_timeout_secs (scaling some_config),
   request_timeout_secs (proxy some_config), listen_addr some_config, traefik some_config)
  = (60, 10, 9, V4 0 0 0 0 80, Some (mkTraefikConfig "http://traefik:8082" "consulcatalog")).
Proof. vm_compute. reflexivity. Qed.

(** What the file says under [global] cannot be overridden by the environment. *)
Lemma global_table_is_final W `{FigmentLaws W} (w : W) c w' :
  load w = (Ok c, w') ->
  exists file global env,
    supplies config_file Global w = Ok global /\ supplies environment Default w = Ok env /\
    forall p x, p ∈ settings -> fitting file global env p = true -> at_path p global = Some x ->
      at_path p (ser_Config c) = Some x.
Proof.
  intros (file & global & env & v & ? & ? & ? & Hl & Hd)%load_layers. exists file, global, env.
  split_and!; [done|done|]. intros p x Hp Hf Hx.
  rewrite (layered_setting _ _ _ _ _ _ Hl Hd Hp Hf). unfold chosen, set_by. by rewrite Hx.
Qed.

(** With nothing in the file and the environment the defaults are loaded. *)
Example load_defaults :
  (load (Layers.mkWorld (Ok no_table) (Ok no_table))).1 = Ok default_Config.
Proof. vm_compute. reflexivity. Qed.

(** A Traefik section without its URL is refused. *)
Example load_half_traefik :
  is_ok (load (Layers.mkWorld (Ok no_table)
    (Ok (Value.Object [("traefik", Value.Object [("provider", Value.Str "docker")])])))).1 = false.
Proof. vm_compute. reflexivity. Qed.
