(* ===== verification/Http.v ===== *)
(** * Http: the HTTP client the program calls

    [reqwest]'s client as a class over the world: a request is its method, URL
    and JSON body; a response has its status, its headers and a body that can
    be read as text or as JSON, either of which can fail.  How [reqwest] words
    a status or a decoding error is not the program's, so both are methods. *)

From S2P Require Import Prelude Str F64 Core Json.
From Stdlib Require Import Ascii.
Local Open Scope Z_scope.

Inductive Method : Type := GET | POST | PUT | DELETE | HEAD | OPTIONS | TRACE | CONNECT | PATCH
| OtherMethod (m : string).

#[export] Instance Method_eq_dec : EqDecision Method.
Proof. solve_decision. Defined.

Record request := mkRequest { method : Method; url : string; json_body : option Value.t }.

Record response := mkResponse {
  resp_status : Z;
  resp_headers : list (string * string);
  resp_text : res reqwest_error string;
  resp_value : res reqwest_error Value.t }.

Class HttpClient (W : Type) := {
  http_send : request -> ST W (res reqwest_error response);
  status_display : Z -> string;
  decode_error : Value.t -> reqwest_error }.

(** Building a client with default headers: a header value that is not allowed
    (with the error's text), and the client builder's own failure. *)
Class ClientBuilder := {
  invalid_header : string -> option string;
  build_error : list (string * string) -> option reqwest_error }.

(** [StatusCode::is_success]. *)
Definition is_success (status : Z) : bool := bool_decide (200 <= status < 300).

(** [resp.text().await.unwrap_or_default()]. *)
Definition text_or_default (r : response) : string :=
  match resp_text r with Ok s => s | Err _ => "" end.

(** [resp.json::<T>().await]. *)
Definition resp_json {W A} `{HttpClient W} (de : Value.t -> option A) (r : response)
    : res reqwest_error A :=
  match resp_value r with
  | Ok v => match de v with Some a => Ok a | None => Err (decode_error v) end
  | Err e => Err e
  end.

(** The clock and the timer. *)
Class Clock (W : Type) := {
  now : ST W Z;
  sleep : Z -> ST W unit }.

(** [HeaderMap::get]: the first value of a header, names compared without case. *)
Fixpoint header (k : string) (hs : list (string * string)) : option string :=
  match hs with
  | [] => None
  | (k', v) :: hs' => if eq_ignore_ascii_case k k' then Some v else header k hs'
  end.

(** [HeaderValue::to_str]: visible ASCII, spaces and tabs only. *)
Definition visible (a : ascii) : bool :=
  let n := nat_of_ascii a in bool_decide (32 <= n < 127)%nat || bool_decide (n = 9)%nat.
Definition header_str (v : string) : option string :=
  if forallb visible (String.list_ascii_of_string v) then Some v else None.

(** ** Requests passed on to a backend *)

(** A request as received, one as sent on, and a response; the target is the
    path and query, absent in a CONNECT request. *)
Record inbound := mkInbound {
  in_method : Method; in_target : option string; in_headers : list (string * string); in_body : string }.
Record outbound := mkOutbound {
  out_method : Method; out_url : string; out_headers : list (string * string); out_body : string }.
Record reply := mkReply {
  reply_status : Z; reply_headers : list (string * string); reply_body : string }.

Record io_error := mkIoError { io_display : string; io_timed_out : bool }.

(** Sending a request on, building the response that goes back, and whether a
    string parses as a URI. *)
Class Backend (W : Type) := {
  forward_send : outbound -> ST W (res reqwest_error reply);
  build_reply : reply -> res string reply;
  valid_uri : string -> bool }.

(** A connection of its own for a protocol upgrade, and whether a string is
    allowed as a header's value. *)
Class Upgrade (W : Type) := {
  tcp_connect : string -> ST W (res io_error unit);
  http1_handshake : ST W (res string unit);
  send_upgrade : inbound -> ST W (res string reply);
  valid_header_value : string -> bool }.
