(* ===== verification/TrafficProbe.v ===== *)
(** * TrafficProbe: request counters scraped from Traefik

    Models [crates/nscale-scaler/src/traffic_probe.rs]: the Prometheus text
    parser and the comparison with the last observed count. *)

From S2P Require Import Prelude Str F64 Core Json Http.
From Stdlib Require Import Ascii.
Local Open Scope Z_scope.

(** ** The parser *)

Definition metric_prefix : string := "traefik_service_requests_total{".
Definition needle (service_label : string) : string :=
  "service=" +:+ dquote +:+ service_label +:+ dquote.

(** The value of one line, when it is a sample of the service's counter. *)
Definition line_value (service_label line : string) : option f64 :=
  if starts_with "#" line || bool_decide (line = "") then None
  else if starts_with metric_prefix line && contains (needle service_label) line then
    match rsplit_once " "%char line with
    | Some (_, value_str) => parse_f64 value_str
    | None => None
    end
  else None.

(** [total += v as u64] in a release build: a 64-bit sum. *)
Definition parse_service_requests_total (body service_label : string) : Z :=
  fold_left
    (fun total line =>
       match line_value service_label line with
       | Some v => wrap 64 (total + f64_as_u64 v)
       | None => total
       end)
    (lines body) 0.

(** ** The probe *)

Record TrafficProbe := mkProbe { metrics_url : string; provider : string }.

Definition new_probe (metrics_url provider : string) : TrafficProbe :=
  mkProbe (trim_end_char "/"%char metrics_url) provider.

(** [last_counts]. *)
Definition baselines : Type := gmap string (option Z).

Section probe.
Context {W : Type} `{HttpClient W}.

Definition service_label (p : TrafficProbe) (job_id : JobId) : string :=
  job_id +:+ "@" +:+ provider p.

Definition scrape_request_count (p : TrafficProbe) (label : string) : M W Z := (
  let* r := http_send (mkRequest GET (metrics_url p +:+ "/metrics") None) in
  match r with
  | Err e => ret (Err (NscaleError.Consul ("traefik metrics fetch failed: " +:+ re_display e)))
  | Ok resp =>
      if negb (is_success (resp_status resp))
      then ret (Err (NscaleError.Consul
                  ("traefik metrics returned " +:+ status_display (resp_status resp))))
      else match resp_text resp with
           | Err e => ret (Err (NscaleError.Consul ("failed to read metrics body: " +:+ re_display e)))
           | Ok body => ret (Ok (parse_service_requests_total body label))
           end
  end)%st.

Definition has_active_traffic (p : TrafficProbe) (job_id : JobId) : M (baselines * W) bool := (
  let label := service_label p job_id in
  let? current_total := lift (scrape_request_count p label) in
  let* last := get_st in
  let prev := last !! label ≫= id in
  do* modify_st <[label := Some current_total]> in
  match prev with
  | None => ret (Ok (bool_decide (0 < current_total)))
  | Some q => ret (Ok (bool_decide (q < current_total)))
  end)%st.

Definition clear_baseline (p : TrafficProbe) (job_id : JobId) : ST (baselines * W) unit :=
  modify_st (delete (service_label p job_id)).

End probe.

(** ** Reference: samples and their text

    A sample of the counter: its other labels, the service and the count,
    printed the way a Prometheus client prints them. *)
Record sample := mkSample {
  labels : list (string * string);
  service : string;
  requests : Z }.

Fixpoint print_labels (lead : string) (ls : list (string * string)) (last : string) : string :=
  match ls with
  | [] => lead +:+ last
  | (n, v) :: ls' =>
      lead +:+ n +:+ "=" +:+ dquote +:+ v +:+ dquote +:+ print_labels "," ls' last
  end.

Definition print_sample (s : sample) : string :=
  print_labels metric_prefix (labels s)
    ("service=" +:+ dquote +:+ service s +:+ dquote +:+ "} " +:+ show_Z (requests s)).

Definition print_samples (l : list sample) : string :=
  fold_right (fun s rest => print_sample s +:+ String newline rest) "" l.

Definition quote : ascii := chr 34.

(** Text without the characters that structure the line. *)
Definition plain (s : string) : bool :=
  negb (char_in quote s) && negb (char_in newline s).

(** Label names are identifiers other than those that end in [service]; label
    values and service names hold no quote and no newline; counts are those a
    [f64] represents exactly. *)
Definition label_ok (p : string * string) : Prop :=
  plain p.1 = true /\ char_in "@"%char p.1 = false /\ plain p.2 = true /\
  forall u, p.1 <> u +:+ "service".

Definition sample_ok (s : sample) : Prop :=
  Forall label_ok (labels s) /\ plain (service s) = true /\ 0 <= requests s < two53.

(** ** Lemmas *)

Lemma plain_spec s : plain s = true <-> char_in quote s = false /\ char_in newline s = false.
Proof. unfold plain. by rewrite andb_true_iff, !negb_true_iff. Qed.

Ltac char_in_auto :=
  rewrite ?char_in_app; simpl; rewrite ?char_in_app; simpl;
  repeat match goal with H : char_in _ _ = false |- _ => rewrite H end; try done.

Lemma dquote_app (s : string) : dquote +:+ s = String quote s.
Proof. done. Qed.

(** The pieces of a printed line between its quotes. *)
Fixpoint label_pieces (lead : string) (ls : list (string * string)) (tl : list string) : list string :=
  match ls with
  | [] => (lead +:+ "service=") :: tl
  | (n, v) :: ls' => (lead +:+ n +:+ "=") :: v :: label_pieces "," ls' tl
  end.

Lemma split_labels lead ls svc rest :
  char_in quote lead = false -> Forall label_ok ls -> plain svc = true -> char_in quote rest = false ->
  split_char quote (print_labels lead ls ("service=" +:+ String quote (svc +:+ String quote rest)))
  = label_pieces lead ls [svc; rest].
Proof.
  intros Hlead Hls [Hsvc _]%plain_spec Hrest. revert lead Hlead.
  induction Hls as [|[n v] ls ([Hn _]%plain_spec & _ & [Hv _]%plain_spec & _) _ IH]; intros lead Hlead;
    cbn [print_labels label_pieces].
  - rewrite <- sapp_assoc, !split_char_app, !split_char_none; try done; char_in_auto.
  - rewrite !dquote_app, <- !sapp_assoc, !split_char_app,
      (split_char_none _ v), (split_char_none _ ((lead +:+ n) +:+ "=")), IH; try done.
    simpl in Hn. char_in_auto.
Qed.

(** A line that holds the needle has the label between two quotes, after a piece
    that ends in [service=]. *)
Lemma contains_needle_pieces label line :
  char_in quote label = false ->
  contains (needle label) line = true ->
  exists l x r, split_char quote line = l ++ (x +:+ "service=") :: label :: r /\ r <> [].
Proof.
  intros Hl (a & b & ->)%contains_spec. unfold needle.
  rewrite !sapp_assoc, <- (sapp_assoc a), !dquote_app.
  rewrite !split_char_app, (split_char_none _ label) by done.
  destruct (split_char_last quote a "service=" eq_refl) as (l & x & ->).
  exists l, x, (split_char quote b). rewrite <- app_assoc. split; [done|apply split_char_ne_nil].
Qed.

(** Among the pieces of a printed line, only the service name follows one that
    ends in [service=] and has another piece after it. *)
Lemma label_pieces_service lead c ls svc rest l x label r :
  (exists p, lead = p +:+ String c "") -> char_in c "service=" = false -> char_in "@"%char lead = false ->
  Forall label_ok ls -> char_in "@"%char label = true ->
  label_pieces lead ls [svc; rest] = l ++ (x +:+ "service=") :: label :: r -> r <> [] ->
  label = svc.
Proof.
  intros Hlead Hc Hat Hls Hl. revert lead c l Hlead Hc Hat.
  induction Hls as [|[n v] ls (_ & Hn & _ & Hsuf) Hls' IH]; intros lead c l [p ->] Hc Hat Heq Hr; simpl in Heq.
  - destruct l as [|y1 [|y2 [|y3 [|y4 l]]]]; simplify_eq/=; done.
  - destruct l as [|y1 [|y2 l]]; simplify_eq/=.
    + exfalso. match goal with H : _ = x +:+ _ |- _ => rename H into E end.
      rewrite sapp_assoc in E. simpl in E. destruct (suffix_after c p (n +:+ "=") x "service=") as [u Hu]; try done.
      change "service=" with ("service" +:+ "=") in Hu. rewrite <- sapp_assoc in Hu.
      apply sapp_inj_r in Hu. by apply (Hsuf u).
    + exfalso. match goal with H : label_pieces _ _ _ = _ |- _ => rename H into E end.
      assert (exists t, label = "," +:+ t /\ char_in "@"%char t = false) as (t & -> & Ht).
      { destruct ls as [|[n' v'] ls]; simpl in E; simplify_eq.
        exists (n' +:+ "="). split; [done|].
        apply Forall_inv in Hls' as (_ & Hn' & _). simpl in Hn'. char_in_auto. }
      simpl in Hl. by rewrite Ht in Hl.
    + apply (IH "," ","%char l); try done. by exists "".
Qed.

Lemma print_labels_app lead ls a b : print_labels lead ls (a +:+ b) = print_labels lead ls a +:+ b.
Proof.
  revert lead. induction ls as [|[n v] ls IH]; intros lead; cbn [print_labels]; [by rewrite sapp_assoc|].
  by rewrite IH, !sapp_assoc.
Qed.

Lemma print_labels_plain c lead ls last :
  c = newline -> char_in c lead = false -> Forall label_ok ls -> char_in c last = false ->
  char_in c (print_labels lead ls last) = false.
Proof.
  intros -> Hlead Hls Hlast. revert lead Hlead.
  induction Hls as [|[n v] ls ([_ Hn]%plain_spec & _ & [_ Hv]%plain_spec & _) _ IH]; intros lead Hlead;
    cbn [print_labels]; simpl in *; char_in_auto. by rewrite IH.
Qed.

Lemma print_labels_start lead ls last : exists r, print_labels lead ls last = lead +:+ r.
Proof. destruct ls as [|[n v] ls]; cbn [print_labels]; eauto. Qed.

Lemma print_sample_eq s :
  print_sample s
  = print_labels metric_prefix (labels s)
      ("service=" +:+ String quote (service s +:+ String quote ("} " +:+ show_Z (requests s)))).
Proof. done. Qed.

(** The parser's view of a printed sample. *)
Lemma line_value_sample label s :
  sample_ok s -> plain label = true -> char_in "@"%char label = true ->
  line_value label (print_sample s)
  = if decide (service s = label) then Some (f64_of_Z (requests s)) else None.
Proof.
  intros (Hls & Hsvc & Hreq) [Hlq _]%plain_spec Hat. unfold line_value.
  destruct (print_labels_start metric_prefix (labels s)
    ("service=" +:+ String quote (service s +:+ String quote ("} " +:+ show_Z (requests s))))) as [r Hr].
  rewrite <- print_sample_eq in Hr.
  assert (starts_with "#" (print_sample s) = false) as -> by (by rewrite Hr).
  rewrite bool_decide_eq_false_2 by (by rewrite Hr). simpl orb. cbv iota.
  assert (starts_with metric_prefix (print_sample s) = true) as -> by (rewrite Hr; apply starts_with_app).
  simpl andb.
  assert (Hval : rsplit_once " "%char (print_sample s)
                 = Some (print_labels metric_prefix (labels s)
                     ("service=" +:+ String quote (service s +:+ String quote "}")), show_Z (requests s))).
  { rewrite print_sample_eq.
    change ("} " +:+ show_Z (requests s)) with ("}" +:+ String " "%char (show_Z (requests s))).
    assert ("service=" +:+ String quote (service s +:+ String quote ("}" +:+ String " "%char (show_Z (requests s))))
            = ("service=" +:+ String quote (service s +:+ String quote "}")) +:+ String " "%char (show_Z (requests s)))
      as -> by (rewrite !sapp_assoc; simpl; by rewrite sapp_assoc).
    rewrite print_labels_app. apply rsplit_once_complete. apply show_Z_no; [lia|done]. }
  case_decide as Hs.
  - assert (contains (needle label) (print_sample s) = true) as ->.
    { apply contains_spec. rewrite print_sample_eq.
      exists (print_labels metric_prefix (labels s) ""), ("} " +:+ show_Z (requests s)).
      rewrite <- print_labels_app. f_equal. unfold needle. subst label.
      simpl. by rewrite !sapp_assoc. }
    rewrite Hval. apply parse_f64_show. lia.
  - destruct (contains (needle label) (print_sample s)) eqn:Hc; [exfalso|done]. apply Hs.
    destruct (contains_needle_pieces _ _ Hlq Hc) as (l & x & r' & Heq & Hne).
    rewrite print_sample_eq, split_labels in Heq; try done; [|char_in_auto; apply show_Z_no; [lia|done]].
    symmetry. eapply (label_pieces_service metric_prefix "{"%char); try done.
    by exists "traefik_service_requests_total".
Qed.

Lemma parse_fold label l total :
  Forall sample_ok l -> plain label = true -> char_in "@"%char label = true ->
  fold_left
    (fun total line =>
       match line_value label line with
       | Some v => wrap 64 (total + f64_as_u64 v)
       | None => total
       end) (map print_sample l) (wrap 64 total)
  = wrap 64 (total + fold_right Z.add 0 (map requests (filter (fun s => service s = label) l))).
Proof.
  intros Hl Hp Hat. revert total. induction Hl as [|s l Hs Hl IH]; intros total; simpl.
  - by rewrite Z.add_0_r.
  - rewrite line_value_sample, filter_cons by done. case_decide; [|by rewrite IH].
    rewrite f64_as_u64_exact by (by destruct Hs as (_ & _ & ?)). simpl.
    rewrite wrap_wrap_add, IH. f_equal. lia.
Qed.

Lemma lines_samples l : Forall sample_ok l -> lines (print_samples l) = map print_sample l.
Proof.
  induction 1 as [|s l (Hls & [_ Hsvc]%plain_spec & Hreq) Hl IH]; [done|].
  cbn [print_samples fold_right]. fold (print_samples l). simpl. rewrite lines_cons, IH; [done| |].
  - rewrite print_sample_eq. apply print_labels_plain; try done. char_in_auto.
    apply show_Z_no; [lia|done].
  - rewrite print_sample_eq.
    assert (exists a, print_labels metric_prefix (labels s)
      ("service=" +:+ String quote (service s +:+ String quote ("} " +:+ show_Z (requests s))))
      = a +:+ show_Z (requests s)) as [a ->].
    { exists (print_labels metric_prefix (labels s) ("service=" +:+ String quote (service s +:+ String quote "} "))).
      rewrite <- print_labels_app. f_equal. simpl. by rewrite !sapp_assoc. }
    rewrite ends_with_char_app by (apply show_Z_nonempty; lia).
    intros Hin%ends_with_char_in. rewrite show_Z_no in Hin; [done|lia|done].
Qed.

(** ** What the probe promises *)


Definition scraped : list sample :=
  [ mkSample [("code", "200"); ("method", "GET")] "web@consulcatalog" 150;
    mkSample [("code", "500"); ("method", "GET")] "web@consulcatalog" 2;
    mkSample [("code", "200"); ("method", "GET")] "api@consulcatalog" 999 ].

Lemma label_ok_dec p : plain p.1 && negb (char_in "@"%char p.1) && plain p.2
                       && negb (contains "service" p.1) = true -> label_ok p.
Proof.
  rewrite !andb_true_iff, !negb_true_iff. intros [[[? ?] ?] Hc]. split_and!; try done.
  intros u Hu. rewrite Hu in Hc.
  assert (contains "service" (u +:+ "service") = true) by (apply contains_app_l; done). congruence.
Qed.


(** The probe's verdict is a comparison with its last observation: a failed
    scrape is an error and keeps the baseline; otherwise the count becomes the
    baseline and traffic is active exactly when it exceeds the previous one
    (zero when the service has not been observed or was cleared).  In
    particular a counter that restarted below the baseline counts as idle. *)
Theorem has_active_traffic_spec W `{HttpClient W} p job_id ls (w : W) :
  has_active_traffic p job_id (ls, w) =
  match scrape_request_count p (service_label p job_id) w with
  | (Err e, w') => (Err e, (ls, w'))
  | (Ok n, w') =>
      (Ok (bool_decide (default 0 (ls !! service_label p job_id ≫= id) < n)),
       (<[service_label p job_id := Some n]> ls, w'))
  end.
Proof.
  unfold has_active_traffic, try, bind, lift, get_st, modify_st, ret. simpl.
  destruct (scrape_request_count p (service_label p job_id) w) as [[n|e] w']; simpl; [|done].
  by destruct (ls !! service_label p job_id) as [[q|]|].
Qed.
