(* ===== verification/Ifaces.v ===== *)
(** * Ifaces: what the components of nscale promise each other

    One class per component for the calls its clients make.  The clients'
    theorems hold for every instance, whatever the methods reply and whatever
    other tasks do to the world meanwhile; the component's own file has the
    instance. *)

From S2P Require Import Prelude Str F64 Core Waker.

(** [WakeCoordinator]. *)
Class Coordinator (W : Type) := {
  ensure_running : JobRegistration -> M W Endpoint;
  mark_dormant : JobId -> ST W unit;
  invalidate : JobId -> ST W unit;
  refresh_endpoint : JobRegistration -> Endpoint -> M W EndpointRefresh.t;
  is_ready : JobId -> ST W bool }.

(** [JobRegistry]. *)
Class Registry (W : Type) := {
  registry_register : JobRegistration -> M W unit;
  registry_deregister : JobId -> M W unit;
  registry_get : string -> M W (option JobRegistration);
  registry_list_all : M W (list JobRegistration) }.

(** [InFlightTracker]: a guard is named by the counter it holds. *)
Class InFlight (W : Type) := {
  in_flight_track : string -> ST W nat;
  in_flight_drop : nat -> ST W unit;
  has_in_flight : string -> ST W bool;
  in_flight_count : string -> ST W Z }.

(** [TrafficProbe]. *)
Class Probe (W : Type) := {
  has_active_traffic : JobId -> M W bool;
  clear_baseline : JobId -> ST W unit }.

(** [CancellationToken]. *)
Class Cancellation (W : Type) := { is_cancelled : ST W bool }.

(** The heartbeat task of a request, named by its token: spawning it for a job
    with a deadline, and cancelling the token. *)
Class Heartbeats (W : Type) := {
  spawn_heartbeat : JobId -> option Z -> ST W nat;
  cancel_heartbeat : nat -> ST W unit }.

(** The server that polls a request's future: whether it drops the future while
    it waits, because the client has gone. *)
Class Peer (W : Type) := { peer_gone : ST W bool }.

(** [m.await] in a request's future: the call is made, and its reply is lost when
    the future is dropped meanwhile. *)
Definition await {W A} `{Peer W} (m : ST W A) : ST W (res Unwound.t A) := (
  let* a := m in
  let* gone := peer_gone in
  ret (if gone : bool then Err Unwound.Dropped else Ok a))%st.

(** The two clocks of a request that waits for a wake task: whether its
    [wake_timeout] passes before the task's next report, and, once it has, whether
    the task's health wait is started and then cut short because nobody waits. *)
Class Patience (W : Type) := {
  timer_fires : ST W bool;
  wait_cut_short : ServiceName -> Z -> ST W bool }.
