(* ===== verification/Sequential.v ===== *)
(** * Sequential: the coordinator called by one client at a time

    [Waker] models the coordinator one atomic action at a time.  Here a method is
    run without other callers: [until_returned] takes the steps of its thread and
    of the wake task it spawns, asks the services for the replies they await and
    the clock whether the caller's [wake_timeout] passes first; when the method
    has returned before its task, [finish_task] runs the task to its end.  Such a
    run is an execution of [Waker], and what it does is a specification on the map
    of the awake jobs and their endpoints ([Awake]), which is the instance of
    [Coordinator] that whole-system statements use: there a client's next call
    comes after the task it left has ended. *)

From S2P Require Import Prelude Str F64 Core Waker WakerInv Ifaces.
Local Open Scope Z_scope.

(** The method, or the task, has come to its end. *)
Definition returned (t : thread) : bool :=
  match t with
  | Req _ (RDone _ | RDropped) | Task _ _ TFinished | Mark _ MFinished | Refresh _ _ (FFinished _) => true
  | _ => false
  end.

Section drive.
Context {Ch W : Type} `{Broadcast Ch, Orchestrator W, ServiceDiscovery W, Patience W}.
Context (wake_timeout : Z).

(** The reply of the call a method's thread awaits; any other step needs none. *)
Definition caller_input (t : thread) : ST W input := (
  match t with
  | Req reg RReadyFetch => let* r := get_healthy_endpoint (job_id reg) in ret (ReplyEndpoint r)
  | Refresh reg _ FFetch => let* r := get_healthy_endpoint (job_id reg) in ret (ReplyEndpoint r)
  | _ => ret Go
  end)%st.

(** The reply of the call a wake task awaits.  Once nobody waits for the task
    ([alone]), the polls for abandonment may come before the health wait's
    reply. *)
Definition task_input (alone : bool) (t : thread) : ST W input := (
  match t with
  | Task reg _ TScaleUp => let* r := scale_up (job_id reg) (nomad_group reg) 1 in ret (ReplyUnit r)
  | Task reg _ THealth =>
      let* cut := (if alone then wait_cut_short (service_name reg) wake_timeout else ret false) in
      if cut : bool then ret Poll
      else let* r := wait_for_healthy (service_name reg) wake_timeout in ret (ReplyHealthy r)
  | Task _ _ THealthZero => ret Poll
  | _ => ret Go
  end)%st.

Definition awaits_service (t : thread) : bool :=
  match t with Task _ _ (TScaleUp | THealth) => true | _ => false end.

Definition running (t : thread) : option thread := if returned t then None else Some t.

(** At most [fuel] steps of a method and its wake task, until the method has
    returned; the task when it is still running. *)
Fixpoint until_returned (fuel : nat) (t : thread) (task : option thread)
    : ST (Coord Ch * W) (thread * option thread) := (
  match fuel with
  | O => ret (t, task)
  | S n =>
      if returned t then ret (t, task)
      else
        match task with
        | None =>
            let* i := lift (caller_input t) in
            let* c := get_st in
            match step_thread wake_timeout t i c with
            | Some (c', t', sp) => do* modify_st (fun _ => c') in until_returned n t' sp
            | None => ret (t, None)
            end
        | Some k =>
            let* fires := (if awaits_service k then lift timer_fires else ret false) in
            let* c := get_st in
            if fires : bool then
              match step_thread wake_timeout t Timeout c with
              | Some (c', t', None) => do* modify_st (fun _ => c') in until_returned n t' (Some k)
              | _ => ret (t, Some k)
              end
            else
              let* i := lift (task_input false k) in
              match step_thread wake_timeout k i c with
              | Some (c', k', None) => do* modify_st (fun _ => c') in until_returned n t (running k')
              | _ => ret (t, Some k)
              end
        end
  end)%st.

(** At most [fuel] steps of a task nobody waits for. *)
Fixpoint finish_task (fuel : nat) (k : thread) : ST (Coord Ch * W) unit := (
  match fuel with
  | O => ret tt
  | S n =>
      if returned k then ret tt
      else
        let* i := lift (task_input true k) in
        let* c := get_st in
        match step_thread wake_timeout k i c with
        | Some (c', k', None) => do* modify_st (fun _ => c') in finish_task n k'
        | _ => ret tt
        end
  end)%st.

(** The method to its return, and the task it leaves to its end. *)
Definition drive (fuel : nat) (t : thread) : ST (Coord Ch * W) thread := (
  let* r := until_returned fuel t None in
  do* (match r.2 with Some k => finish_task fuel k | None => ret tt end) in
  ret r.1)%st.

End drive.

(** ** The specification: the awake jobs and their endpoints *)
Abbreviation awake := (gmap string Endpoint).

Module Awake.
Section spec.
Context {W : Type} `{Orchestrator W, ServiceDiscovery W, Patience W}.
Context (wake_timeout : Z).

(** The health wait of a wake; when nobody waits for the wake any more it may be
    cut short by the polls for abandonment. *)
Definition health_wait (reg : JobRegistration) (late : bool) : M W Endpoint := (
  let* cut := (if late then wait_cut_short (service_name reg) wake_timeout else ret false) in
  if cut : bool then ret (Err (NscaleError.WakeAbandoned (job_id reg)))
  else wait_for_healthy (service_name reg) wake_timeout)%st.

(** One wake: what the task comes to, and whether the waiting request's
    [wake_timeout] passed first.  The timer runs from before the [scale_up]
    call. *)
Definition attempt (reg : JobRegistration) : ST W (Result Endpoint * bool) := (
  let* late := timer_fires in
  let* r := scale_up (job_id reg) (nomad_group reg) 1 in
  match r with
  | Err e => ret (Err e, late)
  | Ok _ =>
      let* late := (if late : bool then ret true else timer_fires) in
      let* r := health_wait reg late in
      ret (r, late)
  end)%st.

(** What the request is told: the task's report, or its own timeout. *)
Definition told (reg : JobRegistration) (r : Result Endpoint) (late : bool) : Result Endpoint :=
  if late then Err (NscaleError.WakeTimeout (job_id reg) (as_secs_f64 wake_timeout))
  else match r with Ok ep => Ok ep | Err e => wait_outcome reg (Ok (task_failure e)) end.

Definition spec_ensure_running (reg : JobRegistration) : M (awake * W) Endpoint := (
  let* m := get_st in
  match m !! job_id reg with
  | Some ep => ret (Ok ep)
  | None =>
      let* out := lift (attempt reg) in
      do* (match out.1 with Ok ep => modify_st <[job_id reg := ep]> | Err _ => ret tt end) in
      ret (told reg out.1 out.2)
  end)%st.

Definition spec_mark_dormant (job : JobId) : ST (awake * W) unit := modify_st (delete job).

Definition spec_refresh_endpoint (reg : JobRegistration) (current : Endpoint)
    : M (awake * W) EndpointRefresh.t := (
  let? o := lift (get_healthy_endpoint (job_id reg)) in
  match o with
  | Some ep => do* modify_st <[job_id reg := ep]> in ret (Ok (refreshed current ep))
  | None => do* modify_st (delete (job_id reg)) in ret (Ok EndpointRefresh.Missing)
  end)%st.

Definition spec_is_ready (job : JobId) : ST (awake * W) bool := (
  let* m := get_st in ret (bool_decide (is_Some (m !! job))))%st.

#[export] Instance awake_coordinator : Coordinator (awake * W) := {|
  ensure_running := spec_ensure_running;
  mark_dormant := spec_mark_dormant;
  invalidate := spec_mark_dormant;
  refresh_endpoint := spec_refresh_endpoint;
  is_ready := spec_is_ready |}.

End spec.
End Awake.
Import Awake.

(** Between two calls: a job without an endpoint has no wake state, and a permit
    is free. *)
Record settled {Ch} (c : Coord Ch) : Prop := mkSettled {
  settled_jobs job : endpoints c !! job = None -> jobs c !! job = None;
  settled_permits : (0 < permits c)%nat }.

(** ** A run is an execution *)

Definition is_step (a : action) : Prop := match a with Step _ _ => True | _ => False end.

(** A step of another thread. *)
Definition is_step_beside (tid : nat) (a : action) : Prop :=
  match a with Step tid' _ => tid' <> tid | _ => False end.

Section execution.
Context {Ch W : Type} `{Broadcast Ch, Orchestrator W, ServiceDiscovery W, Patience W}.
Context (wt : Z).

Lemma run_app l1 l2 (g g' : config Ch) : run wt l1 g = Some g' -> run wt (l1 ++ l2) g = run wt l2 g'.
Proof.
  revert g. induction l1 as [|a l1 IH]; intros g; simpl; [by intros [= ->]|].
  destruct (exec wt a g); [apply IH|done].
Qed.

(** The method's thread [t] and its task, if it runs, in the configuration. *)
Record placed (g : config Ch) (tid : nat) (t : thread) (task : option thread) (c : Coord Ch) : Prop := mkPlaced {
  pl_shared : shared g = c;
  pl_thread : threads g !! tid = Some t;
  pl_fresh : (tid < next_tid g)%nat;
  pl_task k : task = Some k -> exists ktid, ktid <> tid /\ threads g !! ktid = Some k }.

Lemma exec_step g tid t i c' t' sp :
  threads g !! tid = Some t -> step_thread wt t i (shared g) = Some (c', t', sp) ->
  exec wt (Step tid i) g = Some
    (let g1 := mkConfig c' (<[tid := t']> (threads g)) (next_tid g) in
     match sp with Some t2 => add_thread t2 g1 | None => g1 end).
Proof. intros Ht Hs. simpl. by rewrite Ht, Hs. Qed.

(** A step of the method's thread, which may spawn the task. *)
Lemma placed_caller g tid t task c i c' t' sp :
  placed g tid t task c -> step_thread wt t i c = Some (c', t', sp) ->
  exists g', exec wt (Step tid i) g = Some g' /\ placed g' tid t' (match sp with Some k => Some k | None => task end) c'.
Proof.
  intros [<- Ht Hlt Hk] Hs. eexists. split; [by eapply exec_step|].
  destruct sp as [t2|]; simpl; split; simpl; try done; try lia.
  - rewrite lookup_insert_ne by lia. by apply lookup_insert_eq.
  - intros k [= <-]. exists (next_tid g). split; [lia|apply lookup_insert_eq].
  - by apply lookup_insert_eq.
  - intros k Hq. destruct (Hk k Hq) as (ktid & Hne & Hl). exists ktid. split; [done|]. by rewrite lookup_insert_ne.
Qed.

(** A step of the task. *)
Lemma placed_task g tid t k c i c' k' :
  placed g tid t (Some k) c -> step_thread wt k i c = Some (c', k', None) ->
  exists ktid g', ktid <> tid /\ exec wt (Step ktid i) g = Some g' /\ placed g' tid t (Some k') c'.
Proof.
  intros [<- Ht Hlt Hk] Hs. destruct (Hk k eq_refl) as (ktid & Hne & Hl). exists ktid. eexists.
  split; [done|]. split; [by eapply exec_step|]. simpl. split; simpl; try done.
  - by rewrite lookup_insert_ne.
  - intros k0 [= <-]. exists ktid. split; [done|apply lookup_insert_eq].
Qed.

Lemma placed_none g tid t task c : placed g tid t task c -> placed g tid t None c.
Proof. by intros [? ? ? _]. Qed.

Lemma placed_running g tid t k c : placed g tid t (Some k) c -> placed g tid t (running k) c.
Proof. intros Hp. unfold running. destruct (returned k); [by eapply placed_none|done]. Qed.

(** One step in front of an execution. *)
Lemma execution_cons (P : action -> Prop) a (g g1 : config Ch) (R : config Ch -> Prop) :
  P a -> exec wt a g = Some g1 ->
  (exists l g', Forall P l /\ run wt l g1 = Some g' /\ R g') ->
  exists l g', Forall P l /\ run wt l g = Some g' /\ R g'.
Proof.
  intros Ha He (l & g' & Hl & Hr & HR). exists (a :: l), g'. split; [by constructor|]. simpl. by rewrite He.
Qed.

Lemma execution_nil (P : action -> Prop) (g : config Ch) (R : config Ch -> Prop) :
  R g -> exists l g', Forall P l /\ run wt l g = Some g' /\ R g'.
Proof. intros HR. exists [], g. by split_and!. Qed.

#[local] Arguments task_input : simpl never.
#[local] Arguments caller_input : simpl never.

(** The rounds of a run. *)
Lemma caller_round n t (c : Coord Ch) (w : W) i w1 :
  returned t = false -> caller_input t w = (i, w1) ->
  until_returned wt (S n) t None (c, w)
  = match step_thread wt t i c with
    | Some (c', t', sp) => until_returned wt n t' sp (c', w1)
    | None => ((t, None), (c, w1))
    end.
Proof.
  intros Hr Hi. simpl. rewrite Hr. unfold bind at 1, lift at 1. cbn [snd fst]. rewrite Hi.
  unfold bind, get_st, modify_st, ret. simpl. destruct (step_thread wt t i c) as [[[c1 t1] sp]|]; done.
Qed.

Lemma task_round n t k (c : Coord Ch) (w : W) (b : bool) w0 :
  returned t = false -> (if awaits_service k then timer_fires else ret false) w = (b, w0) ->
  until_returned wt (S n) t (Some k) (c, w)
  = if b then
      match step_thread wt t Timeout c with
      | Some (c', t', None) => until_returned wt n t' (Some k) (c', w0)
      | _ => ((t, Some k), (c, w0))
      end
    else
      match step_thread wt k (task_input wt false k w0).1 c with
      | Some (c', k', None) => until_returned wt n t (running k') (c', (task_input wt false k w0).2)
      | _ => ((t, Some k), (c, (task_input wt false k w0).2))
      end.
Proof.
  intros Hr Hb. simpl. rewrite Hr. unfold bind at 1.
  assert (Hb' : (if awaits_service k then lift timer_fires else ret false : ST (Coord Ch * W) bool) (c, w) = (b, (c, w0))).
  { destruct (awaits_service k); [unfold lift; simpl; by rewrite Hb|unfold ret in *; by simplify_eq]. }
  rewrite Hb'. unfold bind at 1, get_st at 1. cbn [fst snd]. destruct b.
  - destruct (step_thread wt t Timeout c) as [[[c1 t1] [sp|]]|]; done.
  - unfold bind at 1, lift at 1. cbn [fst snd]. destruct (task_input wt false k w0) as [i w1]. cbn [fst snd].
    destruct (step_thread wt k i c) as [[[c1 k1] [sp|]]|]; done.
Qed.

Lemma finish_round n k (c : Coord Ch) (w : W) i w1 :
  returned k = false -> task_input wt true k w = (i, w1) ->
  finish_task wt (S n) k (c, w)
  = match step_thread wt k i c with
    | Some (c', k', None) => finish_task wt n k' (c', w1)
    | _ => (tt, (c, w1))
    end.
Proof.
  intros Hr Hi. simpl. rewrite Hr. unfold bind at 1, lift at 1. cbn [snd fst]. rewrite Hi.
  unfold bind, get_st, modify_st, ret. simpl. destruct (step_thread wt k i c) as [[[c1 k1] [sp|]]|]; done.
Qed.

Lemma until_returned_end n t task (c : Coord Ch) (w : W) :
  returned t = true -> until_returned wt n t task (c, w) = ((t, task), (c, w)).
Proof. intros Hr. destruct n as [|n]; [done|]. simpl. by rewrite Hr. Qed.

Lemma finish_task_end n k (c : Coord Ch) (w : W) : returned k = true -> finish_task wt n k (c, w) = (tt, (c, w)).
Proof. intros Hr. destruct n as [|n]; [done|]. simpl. by rewrite Hr. Qed.

Lemma until_returned_runs n t task c (w : W) t' task' c' w' (g : config Ch) tid :
  until_returned wt n t task (c, w) = ((t', task'), (c', w')) -> placed g tid t task c ->
  exists l g', Forall is_step l /\ run wt l g = Some g' /\ placed g' tid t' task' c'.
Proof.
  revert t task c w g. induction n as [|n IH]; intros t task c w g Hd Hp.
  { injection Hd as <- <- <- <-. by apply execution_nil. }
  destruct (returned t) eqn:Hr.
  { rewrite until_returned_end in Hd by done. injection Hd as <- <- <- <-. by apply execution_nil. }
  destruct task as [k|].
  - destruct ((if awaits_service k then timer_fires else ret false) w) as [b w0] eqn:Hb.
    rewrite (task_round _ _ _ _ _ _ _ Hr Hb) in Hd. destruct b.
    + destruct (step_thread wt t Timeout c) as [[[c1 t1] [sp|]]|] eqn:Hs;
        try (injection Hd as <- <- <- <-; by apply execution_nil).
      destruct (placed_caller _ _ _ _ _ _ _ _ _ Hp Hs) as (g1 & He & Hp1).
      apply (execution_cons _ (Step tid Timeout) g g1); [done|done|]. by apply (IH t1 (Some k) c1 w0).
    + destruct (task_input wt false k w0) as [i w1]. cbn [fst snd] in Hd.
      destruct (step_thread wt k i c) as [[[c1 k1] [sp|]]|] eqn:Hs;
        try (injection Hd as <- <- <- <-; by apply execution_nil).
      destruct (placed_task _ _ _ _ _ _ _ _ Hp Hs) as (ktid & g1 & _ & He & Hp1).
      apply (execution_cons _ (Step ktid i) g g1); [done|done|]. apply (IH t (running k1) c1 w1); [done|].
      by apply placed_running.
  - destruct (caller_input t w) as [i w1] eqn:Hi. rewrite (caller_round _ _ _ _ _ _ Hr Hi) in Hd.
    destruct (step_thread wt t i c) as [[[c1 t1] sp]|] eqn:Hs;
      [|injection Hd as <- <- <- <-; by apply execution_nil].
    destruct (placed_caller _ _ _ _ _ _ _ _ _ Hp Hs) as (g1 & He & Hp1).
    apply (execution_cons _ (Step tid i) g g1); [done|done|]. apply (IH t1 sp c1 w1); [done|]. by destruct sp.
Qed.

Lemma finish_task_runs n t k c (w : W) c' w' (g : config Ch) tid :
  finish_task wt n k (c, w) = (tt, (c', w')) -> placed g tid t (Some k) c ->
  exists l g', Forall (is_step_beside tid) l /\ run wt l g = Some g' /\ placed g' tid t None c'.
Proof.
  revert k c w g. induction n as [|n IH]; intros k c w g Hd Hp.
  { injection Hd as <- <-. apply execution_nil. by eapply placed_none. }
  destruct (returned k) eqn:Hr.
  { rewrite finish_task_end in Hd by done. injection Hd as <- <-. apply execution_nil. by eapply placed_none. }
  destruct (task_input wt true k w) as [i w1] eqn:Hi. rewrite (finish_round _ _ _ _ _ _ Hr Hi) in Hd.
  destruct (step_thread wt k i c) as [[[c1 k1] [sp|]]|] eqn:Hs;
    try (injection Hd as <- <-; apply execution_nil; by eapply placed_none).
  destruct (placed_task _ _ _ _ _ _ _ _ Hp Hs) as (ktid & g1 & Hne & He & Hp1).
  apply (execution_cons _ (Step ktid i) g g1); [done|done|]. by apply (IH k1 c1 w1).
Qed.

End execution.

(** ** What a run does *)

Section refinement.
Context {Ch W : Type} `{BroadcastLaws Ch, !Orchestrator W, !ServiceDiscovery W, !Patience W}.
Context (wt : Z).

#[local] Arguments task_input : simpl never.
#[local] Arguments caller_input : simpl never.
#[local] Arguments until_returned : simpl never.
#[local] Arguments finish_task : simpl never.

(** A step that the method takes by itself. *)
Ltac go := erewrite (caller_round wt); [|reflexivity|reflexivity]; unfold running; simpl.

(** A step that the task takes by itself, waited for or not. *)
Ltac task_go := erewrite (task_round wt); [|reflexivity|reflexivity]; unfold task_input, running; simpl.
Ltac left_go := erewrite (finish_round wt); [|reflexivity|reflexivity]; simpl.

(** The state of a wake: the request has won; [q] are the queues of its channel. *)
Record waking (reg : JobRegistration) (s : nat) (q : gmap nat (list WakeResult.t)) (c0 c : Coord Ch) : Prop := mkWaking {
  wk_state : exists ws, heap c !! s = Some ws /\ status ws = STATE_WAKING /\ bc_queues (notify ws) = q
                        /\ bc_capacity (notify ws) = 16%nat;
  wk_jobs : jobs c = <[job_id reg := s]> (jobs c0);
  wk_endpoints : endpoints c = endpoints c0;
  wk_permits : permits c = permits c0 }.

(** The state after the wake: the endpoint is cached or the wake state dropped. *)
Record woken (reg : JobRegistration) (s : nat) (r : Result Endpoint) (c0 c : Coord Ch) : Prop := mkWoken {
  wn_jobs : jobs c = match r with
                     | Ok _ => <[job_id reg := s]> (jobs c0)
                     | Err _ => delete (job_id reg) (<[job_id reg := s]> (jobs c0)) end;
  wn_endpoints : endpoints c = match r with
                               | Ok ep => <[job_id reg := ep]> (endpoints c0)
                               | Err _ => endpoints c0 end;
  wn_permits : permits c = permits c0 }.

Lemma drive_wins n reg (c : Coord Ch) (w : W) :
  endpoints c !! job_id reg = None -> jobs c !! job_id reg = None ->
  exists s rx c1, waking reg s {[rx := []]} c c1 /\
    until_returned wt (6 + n) (Req reg RFast) None (c, w)
    = until_returned wt n (Req reg (RRecv s rx)) (Some (Task reg s TAcquire)) (c1, w).
Proof.
  intros He Hj. set (s := next_sid c). set (ch := bc_channel 16).
  destruct (bc_subscribe ch) as [rx ch'] eqn:Hsub.
  exists s, rx. eexists. split.
  2: { cbn [Nat.add]. go. rewrite He. go. unfold jobs_entry. rewrite Hj. go. rewrite lookup_insert_eq. simpl.
       go. rewrite lookup_insert_eq. simpl. go. rewrite lookup_insert_eq. simpl. unfold subscribe. simpl.
       fold ch. rewrite Hsub. go. reflexivity. }
  split; simpl; [|done..]. eexists. split; [by apply lookup_insert_eq|]. simpl.
  pose proof (bc_subscribe_queues ch) as Hq. pose proof (bc_subscribe_capacity ch) as Hcap.
  rewrite Hsub in Hq, Hcap. simpl in *. rewrite Hq, Hcap. unfold ch. by rewrite bc_channel_capacity, bc_channel_queues.
Qed.

(** The waiting request takes the report [v] that the task has sent. *)
Lemma drive_told n reg s rx v (c : Coord Ch) (w : W) ws :
  heap c !! s = Some ws -> bc_queues (notify ws) !! rx = Some [v] -> bc_capacity (notify ws) = 16%nat ->
  exists c2, jobs c2 = jobs c /\ endpoints c2 = endpoints c /\ permits c2 = permits c /\
    until_returned wt (S n) (Req reg (RRecv s rx)) None (c, w) = ((Req reg (RDone (wait_outcome reg (Ok v))), None), (c2, w)).
Proof.
  intros Hs Hq Hcap.
  pose proof (bc_recv_value rx (notify ws) _ _ Hq ltac:(rewrite Hcap; simpl; lia)) as Hv.
  destruct (bc_recv rx (notify ws)) as [o ch] eqn:Hr. simpl in Hv. subst o.
  eexists. split_and!; [| | |go; rewrite Hs; simpl; rewrite Hr; by apply until_returned_end]; done.
Qed.

(** What the task's last steps leave, [f] being the status it stores. *)
Lemma sent_value reg s q c0 (c : Coord Ch) f v :
  waking reg s q c0 c -> (forall ws, notify (f ws) = notify ws) ->
  exists ws, heap (send_result v s (update_state f s c)) !! s = Some ws /\
    bc_queues (notify ws) = (fun l => l ++ [v]) <$> q /\ bc_capacity (notify ws) = 16%nat.
Proof.
  intros [(ws & Hs & _ & Hq & Hcap) _ _ _] Hf. eexists. simpl. rewrite !lookup_alter_eq, Hs. split; [done|].
  simpl. by rewrite Hf, bc_send_queues, bc_send_capacity, Hq.
Qed.

(** A failing task that is waited for, from the point where it stores the outcome. *)
Lemma waited_fails n reg s rx (c0 c : Coord Ch) (w : W) e :
  waking reg s {[rx := []]} c0 c ->
  exists c2, woken reg s (Err e) c0 c2 /\
    until_returned wt (4 + n) (Req reg (RRecv s rx)) (Some (Task reg s (TSetDormant (task_failure e)))) (c, w)
    = ((Req reg (RDone (wait_outcome reg (Ok (task_failure e)))), None), (c2, w)).
Proof.
  intros Hw. destruct (sent_value _ _ _ _ _ set_dormant (task_failure e) Hw) as (ws & Hs & Hq & Hcap); [done|].
  cbn [Nat.add]. do 3 task_go.
  edestruct (drive_told n reg s rx (task_failure e) (jobs_remove (job_id reg) (send_result (task_failure e) s (update_state set_dormant s c))) w ws)
    as (c2 & Hj & He & Hp & Hd); [exact Hs|by rewrite Hq, map_fmap_singleton, lookup_singleton_eq|done|].
  exists c2. split; [|exact Hd]. destruct Hw as [_ Hj0 He0 Hp0].
  split; [rewrite Hj; simpl; by rewrite Hj0|rewrite He; simpl; by rewrite He0|rewrite Hp; simpl; by rewrite Hp0].
Qed.

Lemma waited_succeeds n reg s rx (c0 c : Coord Ch) (w : W) ep :
  waking reg s {[rx := []]} c0 c ->
  exists c2, woken reg s (Ok ep) c0 c2 /\
    until_returned wt (4 + n) (Req reg (RRecv s rx)) (Some (Task reg s (TInsert ep))) (c, w)
    = ((Req reg (RDone (Ok ep)), None), (c2, w)).
Proof.
  intros Hw. destruct (sent_value _ _ _ _ _ set_ready (WakeResult.Ready ep) Hw) as (ws & Hs & Hq & Hcap); [done|].
  cbn [Nat.add]. do 3 task_go.
  edestruct (drive_told n reg s rx (WakeResult.Ready ep) (send_result (WakeResult.Ready ep) s (update_state set_ready s (ep_insert (job_id reg) ep c))) w ws)
    as (c2 & Hj & He & Hp & Hd); [exact Hs|by rewrite Hq, map_fmap_singleton, lookup_singleton_eq|done|].
  exists c2. split; [|exact Hd]. destruct Hw as [_ Hj0 He0 Hp0].
  split; [rewrite Hj; simpl; by rewrite Hj0|rewrite He; simpl; by rewrite He0|rewrite Hp; simpl; by rewrite Hp0].
Qed.

(** The same for a task nobody waits for. *)
Lemma left_fails n reg s q (c0 c : Coord Ch) (w : W) e :
  waking reg s q c0 c ->
  exists c2, woken reg s (Err e) c0 c2 /\
    finish_task wt (3 + n) (Task reg s (TSetDormant (task_failure e))) (c, w) = (tt, (c2, w)).
Proof.
  intros [_ Hj He Hp]. eexists. split; [|cbn [Nat.add]; do 3 left_go; by apply finish_task_end].
  split; simpl; by rewrite ?Hj.
Qed.

Lemma left_succeeds n reg s q (c0 c : Coord Ch) (w : W) ep :
  waking reg s q c0 c ->
  exists c2, woken reg s (Ok ep) c0 c2 /\
    finish_task wt (3 + n) (Task reg s (TInsert ep)) (c, w) = (tt, (c2, w)).
Proof.
  intros [_ Hj He Hp]. eexists. split; [|cbn [Nat.add]; do 3 left_go; by apply finish_task_end].
  split; simpl; by rewrite ?He.
Qed.

(** The health wait of a task nobody waits for. *)
Lemma left_health n reg s (c0 c : Coord Ch) (w : W) :
  waking reg s ∅ c0 c ->
  exists c2, woken reg s (health_wait wt reg true w).1 c0 c2 /\
    finish_task wt (5 + n) (Task reg s THealth) (c, w) = (tt, (c2, (health_wait wt reg true w).2)).
Proof.
  intros Hw. unfold health_wait, bind. destruct (wait_cut_short (service_name reg) wt w) as [[|] w1] eqn:Ec; simpl.
  - assert (Hi : task_input wt true (Task reg s THealth) w = (Poll, w1)).
    { unfold task_input, bind. by rewrite Ec. }
    cbn [Nat.add]. rewrite (finish_round wt _ (Task reg s THealth) _ _ _ _ eq_refl Hi).
    assert (Hz : forall zero : bool, step_task reg s (if zero then THealthZero else THealth) Poll c
      = Some (c, if zero then TSetDormant (task_failure (NscaleError.WakeAbandoned (job_id reg))) else THealthZero)).
    { intros zero. destruct Hw as [(ws & Hs & _ & Hq & _) _ _ _].
      assert (Hn : bc_receiver_count (notify ws) = 0%nat) by (by rewrite bc_count, Hq, map_size_empty).
      destruct zero; simpl; by rewrite Hs, bool_decide_eq_true_2. }
    cbn [step_thread]. rewrite (Hz false).
    rewrite (finish_round wt _ (Task reg s THealthZero) _ _ Poll w1 eq_refl eq_refl). cbn [step_thread]. rewrite (Hz true).
    apply (left_fails n reg s ∅ c0 c w1 (NscaleError.WakeAbandoned (job_id reg)) Hw).
  - destruct (wait_for_healthy (service_name reg) wt w1) as [r w2] eqn:Ew. simpl.
    assert (Hi : task_input wt true (Task reg s THealth) w = (ReplyHealthy r, w2)).
    { unfold task_input, bind. by rewrite Ec, Ew. }
    cbn [Nat.add]. rewrite (finish_round wt _ (Task reg s THealth) _ _ _ _ eq_refl Hi). destruct r as [ep|e]; simpl.
    + apply (left_succeeds (S n) reg s ∅ c0 c w2 ep Hw).
    + apply (left_fails (S n) reg s ∅ c0 c w2 e Hw).
Qed.

(** The wake of a request whose timer fires before [scale_up] replies. *)
Definition late_attempt (reg : JobRegistration) : M W Endpoint := (
  do? scale_up (job_id reg) (nomad_group reg) 1 in health_wait wt reg true)%st.

Lemma left_scale_up n reg s (c0 c : Coord Ch) (w : W) :
  waking reg s ∅ c0 (with_permits (S (permits c)) c) ->
  exists c2, woken reg s (late_attempt reg w).1 c0 c2 /\
    finish_task wt (6 + n) (Task reg s TScaleUp) (c, w) = (tt, (c2, (late_attempt reg w).2)).
Proof.
  intros Hw. unfold late_attempt, try, bind.
  destruct (scale_up (job_id reg) (nomad_group reg) 1 w) as [r w1] eqn:E.
  assert (Hi : task_input wt true (Task reg s TScaleUp) w = (ReplyUnit r, w1)).
  { unfold task_input, bind. by rewrite E. }
  cbn [Nat.add]. rewrite (finish_round wt _ (Task reg s TScaleUp) _ _ _ _ eq_refl Hi). destruct r as [[]|e]; simpl.
  - apply (left_health n reg s c0 _ w1 Hw).
  - apply (left_fails (2 + n) reg s ∅ c0 _ w1 e Hw).
Qed.

(** The request's timer fires: its receiver goes, the state stays. *)
Lemma drop_waking reg s rx (c0 c : Coord Ch) :
  waking reg s {[rx := []]} c0 c -> waking reg s ∅ c0 (drop_rx rx s c).
Proof.
  intros [(ws & Hs & Hst & Hq & Hcap) Hj He Hp]. split; [|done..]. eexists. simpl. rewrite lookup_alter_eq, Hs.
  split; [done|]. simpl. rewrite bc_drop_queues, bc_drop_capacity, Hq. by rewrite delete_singleton_eq.
Qed.

Definition still_waking (job : JobId) (c : Coord Ch) : Prop :=
  exists s, jobs c !! job = Some s /\ status_of s c = Some STATE_WAKING.

Lemma waking_still reg s q (c0 c : Coord Ch) : waking reg s q c0 c -> still_waking (job_id reg) c.
Proof.
  intros [(ws & Hs & Hst & _) Hj _ _]. exists s. rewrite Hj. split; [by apply lookup_insert_eq|].
  unfold status_of. rewrite Hs. simpl. by rewrite Hst.
Qed.

(** What the run of a wake leaves: the request has returned what it is told; its
    task, when the request's timeout passed first, is still to run. *)
Definition wake_run reg s (c0 c : Coord Ch) (w : W) (n : nat) (t : thread) (k : thread) (a : Result Endpoint * bool * W) : Prop :=
  exists task c1 w1 c2,
    until_returned wt n t (Some k) (c, w) = ((Req reg (RDone (told wt reg a.1.1 a.1.2)), task), (c1, w1)) /\
    match task with Some k => finish_task wt 13 k | None => ret tt end (c1, w1) = (tt, (c2, a.2)) /\
    woken reg s a.1.1 c0 c2 /\
    (task = None \/ a.1.2 = true /\ still_waking (job_id reg) c1 /\ endpoints c1 = endpoints c0).

(** The report of a failed task, as the request is told it. *)
Lemma run_fails n reg s rx (c0 c : Coord Ch) (w : W) e :
  waking reg s {[rx := []]} c0 c ->
  wake_run reg s c0 c w (4 + n) (Req reg (RRecv s rx)) (Task reg s (TSetDormant (task_failure e))) (Err e, false, w).
Proof.
  intros Hw. destruct (waited_fails n reg s rx c0 c w e Hw) as (c2 & Hwn & Hd).
  exists None, c2, w, c2. split; [exact Hd|]. split; [done|]. split; [done|by left].
Qed.

Lemma run_health n reg s rx (c0 c : Coord Ch) (w : W) :
  waking reg s {[rx := []]} c0 c ->
  wake_run reg s c0 c w (5 + n) (Req reg (RRecv s rx)) (Task reg s THealth)
    ((let* late := timer_fires in let* r := health_wait wt reg late in ret (r, late))%st w).
Proof.
  intros Hw. unfold bind, ret. destruct (timer_fires w) as [late w0] eqn:Et.
  unfold wake_run. cbn [Nat.add]. erewrite (task_round wt); [|reflexivity|exact Et]. destruct late; simpl.
  - destruct (left_health 8 reg s c0 _ w0 (drop_waking _ _ _ _ _ Hw)) as (c2 & Hwn & Hd).
    destruct (health_wait wt reg true w0) as [r w1]. simpl in *.
    eexists _, _, _, c2. split; [by apply until_returned_end|]. split; [exact Hd|]. split; [exact Hwn|].
    right. split; [done|]. split; [by eapply waking_still, drop_waking|apply Hw].
  - unfold health_wait, task_input, bind, ret. destruct (wait_for_healthy (service_name reg) wt w0) as [[ep|e] w1]; simpl.
    + destruct (waited_succeeds n reg s rx c0 c w1 ep Hw) as (c2 & Hwn & Hd).
      exists None, c2, w1, c2. split; [exact Hd|]. split; [done|]. split; [done|by left].
    + by apply run_fails.
Qed.

Lemma run_wake reg s rx (c0 c : Coord Ch) (w : W) :
  waking reg s {[rx := []]} c0 c -> (0 < permits c0)%nat ->
  wake_run reg s c0 c w 7 (Req reg (RRecv s rx)) (Task reg s TAcquire) (attempt wt reg w).
Proof.
  intros Hw Hp. assert (exists k, permits c = S k) as [k Hk].
  { rewrite (wk_permits _ _ _ _ _ Hw). destruct (permits c0); [lia|eauto]. }
  assert (Hback : waking reg s {[rx := []]} c0 (with_permits (S k) (log_scale_up (job_id reg) (with_permits k c)))).
  { destruct Hw as [Hs Hj He Hp']. split; [done|done|done|]. simpl. congruence. }
  unfold wake_run. erewrite (task_round wt 6); [|reflexivity|reflexivity]. unfold task_input, running. simpl. rewrite Hk. simpl.
  unfold attempt, bind, ret. destruct (timer_fires w) as [late w0] eqn:Et.
  erewrite (task_round wt 5); [|reflexivity|exact Et]. destruct late; simpl.
  - set (c1 := drop_rx rx s (log_scale_up (job_id reg) (with_permits k c))).
    assert (Hst : still_waking (job_id reg) c1) by exact (waking_still _ _ _ _ _ (drop_waking _ _ _ _ _ Hback)).
    assert (He : endpoints c1 = endpoints c0) by exact (wk_endpoints _ _ _ _ _ Hback).
    destruct (left_scale_up 7 reg s c0 c1 w0 (drop_waking _ _ _ _ _ Hback)) as (c2 & Hwn & Hd).
    unfold late_attempt, try, bind in *. destruct (scale_up (job_id reg) (nomad_group reg) 1 w0) as [[[]|e] w1];
      [destruct (health_wait wt reg true w1) as [r w2]|]; simpl in *;
      (eexists _, c1, _, c2; split; [by apply until_returned_end|]; split; [exact Hd|]; split; [exact Hwn|by right]).
  - unfold task_input, bind, ret. destruct (scale_up (job_id reg) (nomad_group reg) 1 w0) as [[[]|e] w1]; simpl.
    + apply (run_health 0 reg s rx c0 _ w1 Hback).
    + apply (run_fails 1 reg s rx c0 _ w1 e Hback).
Qed.

(** ** The methods implement their specification *)

(** [WakeCoordinator::is_ready]. *)
Definition coordinator_is_ready (job : JobId) (c : Coord Ch) : bool :=
  bool_decide (is_Some (endpoints c !! job)).

(** Run by itself from a settled state, thread [t] returns as [fin] says with the
    specification's result; with what it left running the specification's calls
    have been made, the endpoints are the specified ones and the state is settled
    again.  The run is an execution of the interleaved coordinator: up to the
    return, and then of the other threads.  Nothing is left to run unless the
    method returns what [leaves] says, in a state [leaves] says, with the
    endpoints unchanged. *)
Definition implements {A} (leaves : A -> Coord Ch -> Prop) (t : thread) (fin : A -> thread) (spec : ST (awake * W) A) : Prop :=
  forall (g : config Ch) (w : W) tid,
    settled (shared g) -> threads g !! tid = Some t -> (tid < next_tid g)%nat ->
    let out := spec (endpoints (shared g), w) in
    exists g1 g2,
      drive wt 13 t (shared g, w) = (fin out.1, (shared g2, out.2.2)) /\
      endpoints (shared g2) = out.2.1 /\ settled (shared g2) /\
      (exists l1, Forall is_step l1 /\ run wt l1 g = Some g1 /\ threads g1 !! tid = Some (fin out.1)) /\
      (exists l2, Forall (is_step_beside tid) l2 /\ run wt l2 g1 = Some g2) /\
      (shared g2 = shared g1 \/ leaves out.1 (shared g1) /\ endpoints (shared g1) = endpoints (shared g)).

(** A method that leaves nothing running. *)
Definition leaves_nothing {A} : A -> Coord Ch -> Prop := fun _ _ => False.

(** A request that returns its own timeout leaves its job waking. *)
Definition leaves_waking (reg : JobRegistration) (r : Result Endpoint) (c : Coord Ch) : Prop :=
  r = Err (NscaleError.WakeTimeout (job_id reg) (as_secs_f64 wt)) /\ still_waking (job_id reg) c.

(** What is to be shown of a method, without the threads. *)
Lemma implements_of_run {A} leaves t fin (spec : ST (awake * W) A) :
  (forall (c : Coord Ch) (w : W), settled c ->
     let out := spec (endpoints c, w) in
     exists task c1 w1 c2,
       until_returned wt 13 t None (c, w) = ((fin out.1, task), (c1, w1)) /\
       match task with Some k => finish_task wt 13 k | None => ret tt end (c1, w1) = (tt, (c2, out.2.2)) /\
       endpoints c2 = out.2.1 /\ settled c2 /\
       (task = None \/ leaves out.1 c1 /\ endpoints c1 = endpoints c)) ->
  implements leaves t fin spec.
Proof.
  intros Hr g w tid Hs Ht Hlt out.
  destruct (Hr (shared g) w Hs) as (task & c1 & w1 & c2 & Hd & Hf & He & Hs' & Hl). fold out in Hd, Hf, He, Hl.
  assert (Hp : placed g tid t None (shared g)) by by split.
  destruct (until_returned_runs wt _ _ _ _ _ _ _ _ _ g tid Hd Hp) as (l1 & g1 & Hl1 & Hrun1 & Hp1).
  assert (exists l2 g2, Forall (is_step_beside tid) l2 /\ run wt l2 g1 = Some g2 /\ shared g2 = c2) as (l2 & g2 & Hl2 & Hrun2 & Hc2).
  { destruct task as [k|].
    - destruct (finish_task_runs wt _ _ _ _ _ _ _ _ _ Hf Hp1) as (l2 & g2 & Hl2 & Hrun2 & [Hsh _ _ _]). by exists l2, g2.
    - injection Hf as <- _. exists [], g1. split_and!; [done|done|apply Hp1]. }
  exists g1, g2. rewrite Hc2. split_and!; [|done|done| | |].
  - unfold drive, bind at 1. rewrite Hd. unfold bind at 1. cbn [fst snd]. by rewrite Hf.
  - exists l1. split_and!; [done|done|apply Hp1].
  - by exists l2.
  - destruct Hp1 as [-> _ _ _]. destruct Hl as [->|Hl]; [left; by injection Hf|by right].
Qed.

Lemma ensure_running_implements reg :
  implements (leaves_waking reg) (Req reg RFast) (fun r => Req reg (RDone r)) (spec_ensure_running wt reg).
Proof.
  apply implements_of_run. intros c w [Hj Hp]. unfold spec_ensure_running, bind, get_st, lift. cbn [fst snd].
  destruct (endpoints c !! job_id reg) as [ep|] eqn:He.
  { exists None, c, w, c. simpl. split_and!; [|done|done|by split|by left].
    go. rewrite He. by apply until_returned_end. }
  destruct (drive_wins 7 reg c w He (Hj _ He)) as (s & rx & c1 & Hw & Hd).
  destruct (run_wake reg s rx c c1 w Hw Hp) as (task & c2 & w2 & c3 & Hd2 & Hf & [Hjw Hew Hpw] & Hl).
  cbn [Nat.add] in *. rewrite Hd2 in Hd. exists task, c2, w2, c3. rewrite Hd.
  cbn [fst snd]. destruct (attempt wt reg w) as [[[ep|e] late] w3]; simpl in *; (split_and!; [done|done|done| |]).
  - split; [|lia]. intros job. rewrite Hew, Hjw.
    intros [Hn Hne]%lookup_insert_None. rewrite lookup_insert_ne by done. by apply Hj.
  - destruct Hl as [->|(-> & Hst & He2)]; [by left|by right].
  - split; [|lia]. intros job. rewrite Hew, Hjw.
    intros Hn%Hj. rewrite delete_insert_eq. by rewrite lookup_delete_None; right.
  - destruct Hl as [->|(-> & Hst & He2)]; [by left|by right].
Qed.

(** Dropping a job's endpoint and wake state. *)
Lemma dropped_settled job (c : Coord Ch) f c' :
  settled c -> c' = jobs_remove job (update_job_state f job (ep_remove job c)) ->
  endpoints c' = delete job (endpoints c) /\ settled c'.
Proof.
  intros [Hj Hp] ->.
  assert (He : forall (c : Coord Ch), endpoints (update_job_state f job c) = endpoints c /\
    jobs (update_job_state f job c) = jobs c /\ permits (update_job_state f job c) = permits c).
  { intros c0. unfold update_job_state. by destruct (jobs c0 !! job). }
  destruct (He (ep_remove job c)) as (E1 & E2 & E3). simpl. split; [done|].
  split; simpl; rewrite ?E1, ?E2, ?E3; [|done]. intros job' Hn. apply lookup_delete_None.
  destruct (decide (job' = job)) as [->|Hne]; [by left|right]. simpl in *.
  apply Hj. by rewrite lookup_delete_ne in Hn.
Qed.

(** A method that spawns no task. *)
Lemma implements_alone {A} t fin (spec : ST (awake * W) A) :
  (forall (c : Coord Ch) (w : W), settled c ->
     let out := spec (endpoints c, w) in
     exists c', until_returned wt 13 t None (c, w) = ((fin out.1, None), (c', out.2.2)) /\
       endpoints c' = out.2.1 /\ settled c') ->
  implements leaves_nothing t fin spec.
Proof.
  intros Hr. apply implements_of_run. intros c w Hs. destruct (Hr c w Hs) as (c' & Hd & He & Hs').
  eexists None, c', _, c'. split_and!; [exact Hd|done|done|done|by left].
Qed.

Lemma mark_dormant_implements job :
  implements leaves_nothing (Mark job MRemoveEndpoint) (fun _ => Mark job MFinished) (spec_mark_dormant job : ST (awake * W) unit).
Proof.
  apply implements_alone. intros c w Hs. eexists.
  split; [do 3 go; by apply until_returned_end|]. by eapply dropped_settled.
Qed.

Lemma refresh_implements reg current :
  implements leaves_nothing (Refresh reg current FFetch) (fun r => Refresh reg current (FFinished r))
    (spec_refresh_endpoint reg current).
Proof.
  apply implements_alone. intros c w Hs. unfold spec_refresh_endpoint, try, bind, lift, modify_st, ret. cbn [fst snd].
  destruct (get_healthy_endpoint (job_id reg) w) as [r w1] eqn:E. cbn [fst snd].
  assert (Hi : caller_input (Refresh reg current FFetch) w = (ReplyEndpoint r, w1)).
  { unfold caller_input, bind. by rewrite E. }
  destruct r as [[ep|]|e]; cbn [fst snd];
    (eexists; split; [erewrite (caller_round wt); [|reflexivity|exact Hi]; simpl|]);
    [do 2 go; by apply until_returned_end| |do 3 go; by apply until_returned_end|by eapply dropped_settled
    |by apply until_returned_end|done].
  destruct Hs as [Hj Hp].
  assert (Heq : forall f, endpoints (update_job_state f (job_id reg) (ep_insert (job_id reg) ep c))
    = <[job_id reg := ep]> (endpoints c) /\
    jobs (update_job_state f (job_id reg) (ep_insert (job_id reg) ep c)) = jobs c /\
    permits (update_job_state f (job_id reg) (ep_insert (job_id reg) ep c)) = permits c).
  { intros f. unfold update_job_state. simpl. by destruct (jobs c !! job_id reg). }
  destruct (Heq set_ready) as (E1 & E2 & E3). split; [done|]. split; rewrite ?E1, ?E2, ?E3; [|done].
  intros job [Hn _]%lookup_insert_None. by apply Hj.
Qed.

End refinement.

(** ** Theorems *)

(** C11.  The coordinator called by one client at a time implements a map from
    the awake jobs to their endpoints.  From any settled state of the interleaved
    model, each method run by itself returns the result of its specification, by
    an execution of the interleaved coordinator; when the task it may leave has
    ended, the calls to Nomad and Consul and the endpoints are the specification's
    and the state is settled again.  [ensure_running] returns a cached endpoint,
    or makes one [scale_up] and one health wait and caches what they found, and
    returns the task's report or, when its [wake_timeout] passes first, its own
    timeout: only then is a task left, the job still waking and the endpoints as
    they were.  [mark_dormant] and [invalidate] forget the job,
    [refresh_endpoint] replaces or forgets its endpoint. *)
Theorem coordinator_refines Ch W `{BroadcastLaws Ch, !Orchestrator W, !ServiceDiscovery W, !Patience W} wt :
  (forall reg, implements (Ch := Ch) (W := W) wt (leaves_waking wt reg) (Req reg RFast) (fun r => Req reg (RDone r))
     (spec_ensure_running wt reg)) /\
  (forall job, implements (Ch := Ch) (W := W) wt leaves_nothing (Mark job MRemoveEndpoint) (fun _ => Mark job MFinished)
     (spec_mark_dormant job)) /\
  (forall reg current, implements (Ch := Ch) (W := W) wt leaves_nothing (Refresh reg current FFetch)
     (fun r => Refresh reg current (FFinished r)) (spec_refresh_endpoint reg current)) /\
  (forall job (c : Coord Ch) (w : W),
     coordinator_is_ready job c = (spec_is_ready job (endpoints c, w)).1).
Proof.
  split_and!; [apply ensure_running_implements|apply mark_dormant_implements|apply refresh_implements|done].
Qed.

(** The initial coordinator is settled when it may call Nomad at all. *)
Lemma initial_settled Ch n : (0 < n)%nat -> settled (shared (initial (Ch := Ch) n)).
Proof. intros Hn. split; [done|exact Hn]. Qed.

(** ** A concrete coordinator: the services log the job; one service is not
    healthy before the wake's time has passed *)
Module Solo.
Definition web : JobRegistration := mkReg "web" "web" "main".
Definition slow : JobRegistration := mkReg "slow" "slow" "main".
Definition addr : Endpoint := mkEndpoint "10.0.0.1" 8080.
#[global] Instance nomad : Orchestrator (list JobId) := {|
  scale_up j _ _ := fun w => (Ok tt, w ++ [j]);
  scale_down _ _ := ret (Ok tt);
  get_job_count _ _ := ret (Ok 1);
  get_healthy_endpoint _ := ret (Ok None) |}.
#[global] Instance consul : ServiceDiscovery (list JobId) := {|
  register_fallback _ _ := ret (Ok tt);
  deregister_fallback _ := ret (Ok tt);
  wait_for_healthy s t := ret (if bool_decide (s = "web") then Ok addr else Err (NscaleError.WakeTimeout s (as_secs_f64 t))) |}.
(** The timer passes first once [slow] has been scaled up. *)
#[global] Instance patience : Patience (list JobId) := {|
  timer_fires := fun w => (bool_decide (last w = Some "slow"), w);
  wait_cut_short _ _ := ret false |}.
Definition wt : Z := duration_from_secs 60.
Definition called (reg : JobRegistration) : config QueueChannel.chan := add_thread (Req reg RFast) (initial 2).
End Solo.
Import Solo.

Lemma coordinator_refines_witness :
  settled (shared (called web)) /\
  (exists g1 g2, drive wt 13 (Req web RFast) (shared (called web), []) = (Req web (RDone (Ok addr)), (shared g2, ["web"])) /\
     endpoints (shared g2) = {["web" := addr]} /\ settled (shared g2) /\
     (exists l1, Forall is_step l1 /\ run wt l1 (called web) = Some g1 /\ threads g1 !! 0%nat = Some (Req web (RDone (Ok addr)))) /\
     (exists l2, Forall (is_step_beside 0) l2 /\ run wt l2 g1 = Some g2) /\
     (shared g2 = shared g1 \/ leaves_waking wt web (Ok addr) (shared g1) /\ endpoints (shared g1) = ∅)) /\
  (spec_ensure_running wt slow (∅, [])).1 = Err (NscaleError.WakeTimeout "slow" (as_secs_f64 wt)).
Proof.
  assert (Hs : settled (shared (called web))) by (split; [done|vm_compute; lia]).
  split; [exact Hs|]. split; [|vm_compute; reflexivity].
  destruct (coordinator_refines QueueChannel.chan (list JobId) wt) as (Hr & _).
  apply (Hr web (called web) [] 0%nat Hs); vm_compute; [reflexivity|lia].
Defined.
