(* ===== verification/Trace.v ===== *)
(** * Trace: the calls a handler makes, recorded

    Over [Traced Call W] every class of the program's interfaces has an instance
    that makes the call in [W] and records it with its reply.  A theorem about
    the recorded list of a handler therefore speaks of every implementation of
    the interfaces, every reply and every interference of other tasks. *)

From S2P Require Import Prelude Str F64 Core Json Http Waker Ifaces.

Module Call.
Inductive t : Type :=
| ScaleUp (job : JobId) (group : string) (n : Z) (r : Result unit)
| ScaleDown (job : JobId) (group : string) (r : Result unit)
| GetJobCount (job : JobId) (group : string) (r : Result Z)
| GetHealthyEndpoint (job : JobId) (r : Result (option Endpoint))
| WaitHealthy (service : ServiceName) (timeout : Z) (r : Result Endpoint)
| RegisterFallback (service : ServiceName) (ep : Endpoint) (r : Result unit)
| DeregisterFallback (service : ServiceName) (r : Result unit)
| RecordActivity (job : JobId) (r : Result unit)
| GetIdleJobs (threshold : Z) (r : Result (list JobId))
| HasActivity (job : JobId) (r : Result bool)
| AcquireLock (key : string) (ttl : Z) (r : Result bool)
| ReleaseLock (key : string) (r : Result unit)
| RemoveActivity (job : JobId) (r : Result unit)
| IncrementNotFound (job : JobId) (r : Result Z)
| ClearNotFound (job : JobId) (r : Result unit)
| Register (reg : JobRegistration) (r : Result unit)
| Deregister (job : JobId) (r : Result unit)
| Lookup (key : string) (r : Result (option JobRegistration))
| ListAll (r : Result (list JobRegistration))
| EnsureRunning (reg : JobRegistration) (r : Result Endpoint)
| MarkDormant (job : JobId)
| Invalidate (job : JobId)
| Refresh (reg : JobRegistration) (ep : Endpoint) (r : Result EndpointRefresh.t)
| IsReady (job : JobId) (b : bool)
| Track (job : string) (guard : nat)
| DropGuard (guard : nat)
| HasInFlight (job : string) (b : bool)
| InFlightCount (job : string) (n : Z)
| ProbeTraffic (job : JobId) (r : Result bool)
| ClearBaseline (job : JobId)
| Send (req : request) (r : res reqwest_error response)
| Now (t : Z)
| Sleep (d : Z)
| IsCancelled (b : bool)
| Forward (req : outbound) (r : res reqwest_error reply)
| Connect (address : string) (r : res io_error unit)
| Handshake (r : res string unit)
| SendUpgrade (req : inbound) (r : res string reply)
| SpawnHeartbeat (job : JobId) (deadline : option Z) (h : nat)
| CancelHeartbeat (h : nat)
| PeerGone (b : bool)
| TimerFires (b : bool)
| WaitCutShort (service : ServiceName) (timeout : Z) (b : bool)
| ConnectRedis (r : res string unit)
| ConnectEtcd (endpoints : list string) (r : res string unit).
End Call.

Section instances.
Context {W : Type}.

#[export] Instance traced_orchestrator `{Orchestrator W} : Orchestrator (Traced Call.t W) := {|
  scale_up j g n := traced (Call.ScaleUp j g n) (scale_up j g n);
  scale_down j g := traced (Call.ScaleDown j g) (scale_down j g);
  get_job_count j g := traced (Call.GetJobCount j g) (get_job_count j g);
  get_healthy_endpoint j := traced (Call.GetHealthyEndpoint j) (get_healthy_endpoint j) |}.

#[export] Instance traced_discovery `{ServiceDiscovery W} : ServiceDiscovery (Traced Call.t W) := {|
  register_fallback s ep := traced (Call.RegisterFallback s ep) (register_fallback s ep);
  deregister_fallback s := traced (Call.DeregisterFallback s) (deregister_fallback s);
  wait_for_healthy s d := traced (Call.WaitHealthy s d) (wait_for_healthy s d) |}.

#[export] Instance traced_activity `{ActivityStore W} : ActivityStore (Traced Call.t W) := {|
  record_activity j := traced (Call.RecordActivity j) (record_activity j);
  get_idle_jobs d := traced (Call.GetIdleJobs d) (get_idle_jobs d);
  has_activity j := traced (Call.HasActivity j) (has_activity j);
  try_acquire_lock k ttl := traced (Call.AcquireLock k ttl) (try_acquire_lock k ttl);
  release_lock k := traced (Call.ReleaseLock k) (release_lock k);
  remove_activity j := traced (Call.RemoveActivity j) (remove_activity j) |}.

#[export] Instance traced_missing `{MissingJobTracker W} : MissingJobTracker (Traced Call.t W) := {|
  increment_not_found j := traced (Call.IncrementNotFound j) (increment_not_found j);
  clear_not_found j := traced (Call.ClearNotFound j) (clear_not_found j) |}.

#[export] Instance traced_registry `{Registry W} : Registry (Traced Call.t W) := {|
  registry_register reg := traced (Call.Register reg) (registry_register reg);
  registry_deregister j := traced (Call.Deregister j) (registry_deregister j);
  registry_get k := traced (Call.Lookup k) (registry_get k);
  registry_list_all := traced Call.ListAll registry_list_all |}.

#[export] Instance traced_coordinator `{Coordinator W} : Coordinator (Traced Call.t W) := {|
  ensure_running reg := traced (Call.EnsureRunning reg) (ensure_running reg);
  mark_dormant j := traced (fun _ => Call.MarkDormant j) (mark_dormant j);
  invalidate j := traced (fun _ => Call.Invalidate j) (invalidate j);
  refresh_endpoint reg ep := traced (Call.Refresh reg ep) (refresh_endpoint reg ep);
  is_ready j := traced (Call.IsReady j) (is_ready j) |}.

#[export] Instance traced_in_flight `{InFlight W} : InFlight (Traced Call.t W) := {|
  in_flight_track j := traced (Call.Track j) (in_flight_track j);
  in_flight_drop g := traced (fun _ => Call.DropGuard g) (in_flight_drop g);
  has_in_flight j := traced (Call.HasInFlight j) (has_in_flight j);
  in_flight_count j := traced (Call.InFlightCount j) (in_flight_count j) |}.

#[export] Instance traced_probe `{Probe W} : Probe (Traced Call.t W) := {|
  has_active_traffic j := traced (Call.ProbeTraffic j) (has_active_traffic j);
  clear_baseline j := traced (fun _ => Call.ClearBaseline j) (clear_baseline j) |}.

#[export] Instance traced_http `{HttpClient W} : HttpClient (Traced Call.t W) := {|
  http_send req := traced (Call.Send req) (http_send req);
  status_display := status_display;
  decode_error := decode_error |}.

#[export] Instance traced_clock `{Clock W} : Clock (Traced Call.t W) := {|
  now := traced Call.Now now;
  sleep d := traced (fun _ => Call.Sleep d) (sleep d) |}.

#[export] Instance traced_cancellation `{Cancellation W} : Cancellation (Traced Call.t W) := {|
  is_cancelled := traced Call.IsCancelled is_cancelled |}.

#[export] Instance traced_backend `{Backend W} : Backend (Traced Call.t W) := {|
  forward_send o := traced (Call.Forward o) (forward_send o);
  build_reply := build_reply;
  valid_uri := valid_uri |}.

#[export] Instance traced_upgrade `{Upgrade W} : Upgrade (Traced Call.t W) := {|
  tcp_connect a := traced (Call.Connect a) (tcp_connect a);
  http1_handshake := traced Call.Handshake http1_handshake;
  send_upgrade r := traced (Call.SendUpgrade r) (send_upgrade r);
  valid_header_value := valid_header_value |}.

#[export] Instance traced_heartbeats `{Heartbeats W} : Heartbeats (Traced Call.t W) := {|
  spawn_heartbeat j d := traced (Call.SpawnHeartbeat j d) (spawn_heartbeat j d);
  cancel_heartbeat h := traced (fun _ => Call.CancelHeartbeat h) (cancel_heartbeat h) |}.

#[export] Instance traced_peer `{Peer W} : Peer (Traced Call.t W) := {|
  peer_gone := traced Call.PeerGone peer_gone |}.

#[export] Instance traced_patience `{Patience W} : Patience (Traced Call.t W) := {|
  timer_fires := traced Call.TimerFires timer_fires;
  wait_cut_short s d := traced (Call.WaitCutShort s d) (wait_cut_short s d) |}.

End instances.

(** ** Deriving what a handler emits *)

Section emits_calls.
Context {Ev W : Type}.

(** A call emits its own record. *)
Lemma emits_call {A} (ev : A -> Ev) (m : ST W A) : emits (traced ev m) (fun tr a => tr = [ev a]).
Proof. by apply emits_traced. Qed.

Lemma emits_lift_call {S A} (ev : A -> Ev) (m : ST W A) :
  emits (W := S * Traced Ev W) (lift (traced ev m)) (fun tr a => tr = [ev a]).
Proof. apply emits_lift, emits_call. Qed.

End emits_calls.

Section emits_more.
Context {Ev W : Type} `{Tracing Ev W}.

Lemma emits_get_nil {S} : emits (W := S * W) get_st (fun tr _ => tr = []).
Proof. by apply emits_get. Qed.

Lemma emits_modify_nil {S} (f : S -> S) : emits (W := S * W) (modify_st f) (fun tr _ => tr = []).
Proof. by apply emits_modify. Qed.

(** The last call of a function. *)
Lemma emits_tail {A} (m : ST W A) (P Q : list Ev -> A -> Prop) :
  emits m P -> (forall tr a, P tr a -> Q tr a) -> emits m Q.
Proof. apply emits_mono. Qed.

Lemma emits_try {E A B} (m : ST W (res E A)) (k : A -> ST W (res E B)) P (Q : list Ev -> res E B -> Prop) :
  emits m P ->
  (forall tr a, P tr (Ok a) -> emits (k a) (fun tr' b => Q (tr ++ tr') b)) ->
  (forall tr e, P tr (Err e) -> Q tr (Err e)) ->
  emits (try m k) Q.
Proof.
  intros Hm Hk He. eapply emits_bind; [done|]. intros tr [a|e] Hp; [by apply Hk|].
  apply emits_ret. rewrite app_nil_r. by apply He.
Qed.

End emits_more.

(** An awaited call of a request's future: its own calls, then the peer's state;
    either the future is dropped or the reply is had. *)
Section emits_await.
Context {W : Type} `{Peer W}.
Abbreviation TW := (Traced Call.t W).

Lemma emits_await {A} (m : ST TW A) P :
  emits m P ->
  emits (await m) (fun tr x => exists tr0 a, P tr0 a /\
    ((tr = tr0 ++ [Call.PeerGone true] /\ x = Err Unwound.Dropped) \/ (tr = tr0 ++ [Call.PeerGone false] /\ x = Ok a))).
Proof.
  intros Hm. unfold await. eapply emits_bind; [exact Hm|]. intros tr a Ha.
  eapply emits_bind; [apply emits_call|]. intros ? gone ->. apply emits_ret. rewrite app_nil_r.
  exists tr, a. split; [done|]. destruct gone; auto.
Qed.

Lemma emits_await_try {A B} (m : ST TW A) (k : A -> ST TW (res Unwound.t B)) P (Q : list Call.t -> res Unwound.t B -> Prop) :
  emits m P ->
  (forall tr a, P tr a -> Q (tr ++ [Call.PeerGone true]) (Err Unwound.Dropped)) ->
  (forall tr a, P tr a -> emits (k a) (fun tr' b => Q ((tr ++ [Call.PeerGone false]) ++ tr') b)) ->
  emits (try (await m) k) Q.
Proof.
  intros Hm Hd Hk. eapply emits_try; [by apply emits_await| |].
  - intros tr a (tr0 & a0 & Hp & [[_ ?]|[-> [= ->]]]); [done|]. by apply Hk.
  - intros tr u (tr0 & a0 & Hp & [[-> [= ->]]|[_ ?]]); [|done]. by eapply Hd.
Qed.
End emits_await.

(** The calls known to the proof search: each lemma says what a function emits. *)
Create HintDb emits.
#[export] Hint Resolve emits_get_nil emits_modify_nil : emits.
#[export] Hint Extern 5 (emits (lift _) _) => eapply emits_lift_call : emits.
#[export] Hint Extern 9 (emits _ _) => eapply emits_call : emits.

(** Run one statement of a handler: what it emits is looked up. *)
Ltac emit :=
  cbn beta iota zeta;
  lazymatch goal with
  | |- emits (bind _ _) _ => eapply emits_bind; [solve [eauto with emits] | cbn beta]
  | |- emits (try _ _) _ => eapply emits_try; [solve [eauto with emits] | cbn beta | cbn beta]
  | |- emits (ret _) _ => apply emits_ret
  | |- emits _ _ => eapply emits_tail; [solve [eauto with emits] | cbn beta]
  end.
