(* ===== verification/Toy.v ===== *)
(** * Toy: a concrete world for the witnesses

    A world that implements the interfaces with finite maps and fixed replies,
    so that the handlers run by computation on concrete inputs. *)

From S2P Require Import Prelude Str F64 Core Json Http Waker Ifaces.
Local Open Scope Z_scope.

Record world := mkWorld {
  clock : Z;
  in_flight : gmap string Z;
  registry : gmap string JobRegistration;
  idle : list JobId;
  lock_free : bool;
  scale_down_reply : JobId -> Result unit;
  missing : gmap string Z;
  traffic : Result bool;
  wake_reply : Result Endpoint;
  refresh_replies : list (Result EndpointRefresh.t);
  sends : list (res reqwest_error response);
  activity : gmap string Z }.

Definition with_clock (t : Z) (w : world) : world :=
  mkWorld t (in_flight w) (registry w) (idle w) (lock_free w) (scale_down_reply w) (missing w)
    (traffic w) (wake_reply w) (refresh_replies w) (sends w) (activity w).
Definition with_in_flight (m : gmap string Z) (w : world) : world :=
  mkWorld (clock w) m (registry w) (idle w) (lock_free w) (scale_down_reply w) (missing w)
    (traffic w) (wake_reply w) (refresh_replies w) (sends w) (activity w).
Definition with_registry (m : gmap string JobRegistration) (w : world) : world :=
  mkWorld (clock w) (in_flight w) m (idle w) (lock_free w) (scale_down_reply w) (missing w)
    (traffic w) (wake_reply w) (refresh_replies w) (sends w) (activity w).
Definition with_lock (b : bool) (w : world) : world :=
  mkWorld (clock w) (in_flight w) (registry w) (idle w) b (scale_down_reply w) (missing w)
    (traffic w) (wake_reply w) (refresh_replies w) (sends w) (activity w).
Definition with_scale_down (f : JobId -> Result unit) (w : world) : world :=
  mkWorld (clock w) (in_flight w) (registry w) (idle w) (lock_free w) f (missing w)
    (traffic w) (wake_reply w) (refresh_replies w) (sends w) (activity w).
Definition with_missing (m : gmap string Z) (w : world) : world :=
  mkWorld (clock w) (in_flight w) (registry w) (idle w) (lock_free w) (scale_down_reply w) m
    (traffic w) (wake_reply w) (refresh_replies w) (sends w) (activity w).
Definition with_refreshes (l : list (Result EndpointRefresh.t)) (w : world) : world :=
  mkWorld (clock w) (in_flight w) (registry w) (idle w) (lock_free w) (scale_down_reply w) (missing w)
    (traffic w) (wake_reply w) l (sends w) (activity w).
Definition with_sends (l : list (res reqwest_error response)) (w : world) : world :=
  mkWorld (clock w) (in_flight w) (registry w) (idle w) (lock_free w) (scale_down_reply w) (missing w)
    (traffic w) (wake_reply w) (refresh_replies w) l (activity w).
Definition with_activity (m : gmap string Z) (w : world) : world :=
  mkWorld (clock w) (in_flight w) (registry w) (idle w) (lock_free w) (scale_down_reply w) (missing w)
    (traffic w) (wake_reply w) (refresh_replies w) (sends w) m.

Definition addr : Endpoint := mkEndpoint "10.0.0.1" 8080.

(** Nothing registered, nothing idle, every call succeeding. *)
Definition quiet : world :=
  mkWorld 0 ∅ ∅ [] true (fun _ => Ok tt) ∅ (Ok false) (Ok addr) [] [] ∅.

Definition pure {A} (a : A) : ST world A := ret a.
Definition read {A} (f : world -> A) : ST world A := fun w => (f w, w).
Definition write (f : world -> world) : ST world unit := fun w => (tt, f w).
Definition ok_write (f : world -> world) : M world unit := fun w => (Ok tt, f w).

#[export] Instance toy_orchestrator : Orchestrator world := {|
  scale_up _ _ _ := pure (Ok tt);
  scale_down j _ := read (fun w => scale_down_reply w j);
  get_job_count _ _ := pure (Ok 1);
  get_healthy_endpoint _ := pure (Ok (Some addr)) |}.

#[export] Instance toy_discovery : ServiceDiscovery world := {|
  register_fallback _ _ := pure (Ok tt);
  deregister_fallback _ := pure (Ok tt);
  wait_for_healthy _ _ := read wake_reply |}.

#[export] Instance toy_activity : ActivityStore world := {|
  record_activity j := ok_write (fun w => with_activity (<[j := clock w]> (activity w)) w);
  get_idle_jobs _ := read (fun w => Ok (idle w));
  has_activity j := read (fun w => Ok (bool_decide (is_Some (activity w !! j))));
  try_acquire_lock _ _ := fun w => (Ok (lock_free w), with_lock false w);
  release_lock _ := ok_write (with_lock true);
  remove_activity j := ok_write (fun w => with_activity (delete j (activity w)) w) |}.

#[export] Instance toy_missing : MissingJobTracker world := {|
  increment_not_found j := fun w =>
    let n := default 0 (missing w !! j) + 1 in (Ok n, with_missing (<[j := n]> (missing w)) w);
  clear_not_found j := ok_write (fun w => with_missing (delete j (missing w)) w) |}.

#[export] Instance toy_registry : Registry world := {|
  registry_register reg := ok_write (fun w =>
    with_registry (<[service_name reg := reg]> (<[job_id reg := reg]> (registry w))) w);
  registry_deregister j := ok_write (fun w => with_registry (delete j (registry w)) w);
  registry_get k := read (fun w => Ok (registry w !! k));
  registry_list_all := read (fun w => Ok ((map_to_list (registry w)).*2)) |}.

#[export] Instance toy_coordinator : Coordinator world := {|
  ensure_running _ := read wake_reply;
  mark_dormant _ := pure tt;
  invalidate _ := pure tt;
  refresh_endpoint _ _ := fun w =>
    match refresh_replies w with
    | r :: l => (r, with_refreshes l w)
    | [] => (Ok EndpointRefresh.Missing, w)
    end;
  is_ready _ := pure true |}.

#[export] Instance toy_in_flight : InFlight world := {|
  in_flight_track j := fun w =>
    (0%nat, with_in_flight (<[j := default 0 (in_flight w !! j) + 1]> (in_flight w)) w);
  in_flight_drop _ := write (fun w => with_in_flight ((fun n => n - 1) <$> in_flight w) w);
  has_in_flight j := read (fun w => bool_decide (0 < default 0 (in_flight w !! j)));
  in_flight_count j := read (fun w => default 0 (in_flight w !! j)) |}.

#[export] Instance toy_probe : Probe world := {|
  has_active_traffic _ := read traffic;
  clear_baseline _ := pure tt |}.

#[export] Instance toy_http : HttpClient world := {|
  http_send _ := fun w =>
    match sends w with
    | r :: l => (r, with_sends l w)
    | [] => (Err (mkReqwestError "no reply" true false None), w)
    end;
  status_display := show_Z;
  decode_error _ := mkReqwestError "error decoding response body" false false None |}.

#[export] Instance toy_clock : Clock world := {|
  now := read clock;
  sleep d := write (fun w => with_clock (clock w + d) w) |}.

#[export] Instance toy_cancellation : Cancellation world := {| is_cancelled := pure false |}.

(** A backend that answers every request with its body. *)
#[export] Instance toy_backend : Backend world := {|
  forward_send o := pure (Ok (mkReply 200 [] (out_body o)));
  build_reply r := Ok r;
  valid_uri _ := true |}.

#[export] Instance toy_upgrade : Upgrade world := {|
  tcp_connect _ := pure (Ok tt);
  http1_handshake := pure (Ok tt);
  send_upgrade _ := pure (Ok (mkReply 101 [] ""));
  valid_header_value _ := true |}.

#[export] Instance toy_heartbeats : Heartbeats world := {|
  spawn_heartbeat _ _ := pure 0%nat;
  cancel_heartbeat _ := pure tt |}.

(** A client that stays, and a timer that never fires. *)
#[export] Instance toy_peer : Peer world := {| peer_gone := pure false |}.
#[export] Instance toy_patience : Patience world := {|
  timer_fires := pure false;
  wait_cut_short _ _ := pure false |}.
