(* ===== verification/Controller.v ===== *)
(** * Controller: scaling idle jobs to zero

    Models [crates/nscale-scaler/src/controller.rs].  The controller's own state
    is the map of deferred jobs; everything it calls is a class of [Core] or
    [Ifaces].  The lock guard's [Drop] releases the lock when [tick] leaves its
    scope, on every path; the code spawns the release as a task, which the model
    runs at once. *)

From S2P Require Import Prelude Str F64 Core Http Ifaces Trace Toy.
Local Open Scope Z_scope.

Definition SCALE_DOWN_LOCK_KEY : string := "nscale:lock:scale-down".
Definition DEPLOYMENT_BACKOFF : Z := duration_from_secs 30.

Record ScaleDownController := mkController {
  traffic_probe : bool;
  idle_threshold : Z;
  interval : Z;
  lock_ttl : Z;
  auto_deregister_enabled : bool;
  auto_deregister_threshold : Z }.

(** [ScaleDownController::new]: whether a probe is configured, the durations and
    the auto-deregistration settings. *)
Definition new_controller (probe : bool) (idle_threshold interval : Z) (enabled : bool)
    (threshold : Z) : ScaleDownController :=
  mkController probe idle_threshold interval (interval + duration_from_secs 5) enabled threshold.

(** [deferred_jobs]: the earliest instant at which a job is tried again. *)
Abbreviation deferred := (gmap string Z).

Section controller.
Context {W : Type} `{Orchestrator W} `{ActivityStore W} `{MissingJobTracker W}
  `{Registry W} `{Coordinator W} `{InFlight W} `{Probe W} `{Clock W} `{Cancellation W}.
Context (self : ScaleDownController).

Definition when (b : bool) (m : ST W unit) : ST W unit := if b then m else ret tt.

(** A call whose error is only logged. *)
Definition logged (m : M W unit) : ST W unit := bind m (fun _ => ret tt).

Definition clear_missing_job_counter (job_id : JobId) : ST W unit :=
  when (auto_deregister_enabled self) (logged (clear_not_found job_id)).

Definition cleanup_missing_job_state (job_id : JobId) : M (deferred * W) unit := (
  do* lift (mark_dormant job_id) in
  do* lift (logged (remove_activity job_id)) in
  do* modify_st (delete job_id) in
  do* lift (when (traffic_probe self) (clear_baseline job_id)) in
  do? lift (registry_deregister job_id) in
  do* lift (logged (clear_not_found job_id)) in
  ret (Ok tt))%st.

Definition handle_missing_job (job_id : JobId) : ST (deferred * W) unit := (
  if negb (auto_deregister_enabled self) then ret tt
  else
    let* r := lift (increment_not_found job_id) in
    match r with
    | Ok count =>
        if bool_decide (auto_deregister_threshold self <= count)
        then do* cleanup_missing_job_state job_id in ret tt
        else ret tt
    | Err _ => ret tt
    end)%st.

Definition handle_scale_down_result (job_id : JobId) (result : Result unit)
    : ST (deferred * W) unit := (
  match result with
  | Ok _ =>
      do* lift (mark_dormant job_id) in
      do* lift (logged (remove_activity job_id)) in
      do* lift (when (traffic_probe self) (clear_baseline job_id)) in
      modify_st (delete job_id)
  | Err (NscaleError.DeploymentInProgress _ _) =>
      let* t := lift now in
      do* modify_st <[job_id := t + DEPLOYMENT_BACKOFF]> in
      lift (logged (record_activity job_id))
  | Err _ => ret tt
  end)%st.

(** The deferral check: whether the job is still backing off.  An expired entry
    is removed. *)
Definition deferred_guard (job_id : JobId) : ST (deferred * W) bool := (
  let* d := get_st in
  match d !! job_id with
  | Some entry =>
      let* t := lift now in
      if bool_decide (t < entry) then ret true
      else do* modify_st (delete job_id) in ret false
  | None => ret false
  end)%st.

Definition in_flight_guard (job_id : JobId) : ST W bool := (
  let* b := has_in_flight job_id in
  if b then
    let* _ := in_flight_count job_id in
    do* logged (record_activity job_id) in
    ret true
  else ret false)%st.

Definition traffic_guard (job_id : JobId) : ST W bool := (
  if traffic_probe self then
    let* r := has_active_traffic job_id in
    match r with
    | Ok true => do* logged (record_activity job_id) in ret true
    | Ok false => ret false
    | Err _ => ret true
    end
  else ret false)%st.

(** From the registration on. *)
Definition scale_down_registered (job_id : JobId) : ST (deferred * W) unit := (
  let* r := lift (registry_get job_id) in
  match r with
  | Ok (Some registration) =>
      let* result := lift (scale_down (Core.job_id registration) (nomad_group registration)) in
      match result with
      | Ok _ =>
          do* lift (clear_missing_job_counter job_id) in
          handle_scale_down_result job_id (Ok tt)
      | Err (NscaleError.JobNotFound _) => handle_missing_job job_id
      | Err (NscaleError.DeploymentInProgress j o) =>
          do* lift (clear_missing_job_counter job_id) in
          handle_scale_down_result job_id (Err (NscaleError.DeploymentInProgress j o))
      | Err e => handle_scale_down_result job_id (Err e)
      end
  | Ok None => lift (logged (remove_activity job_id))
  | Err _ => ret tt
  end)%st.

(** From the in-flight guard on. *)
Definition scale_down_due (job_id : JobId) : ST (deferred * W) unit := (
  let* busy := lift (in_flight_guard job_id) in
  if busy then ret tt
  else
    let* active := lift (traffic_guard job_id) in
    if active then ret tt else scale_down_registered job_id)%st.

Definition scale_down_job (job_id : JobId) : ST (deferred * W) unit := (
  let* skip := deferred_guard job_id in
  if skip then ret tt else scale_down_due job_id)%st.

(** The loop over the idle jobs: it stops at the first check that finds the
    controller cancelled. *)
Fixpoint scale_down_jobs (jobs : list JobId) : ST (deferred * W) unit := (
  match jobs with
  | [] => ret tt
  | job_id :: jobs' =>
      let* c := lift is_cancelled in
      if c then ret tt
      else do* scale_down_job job_id in scale_down_jobs jobs'
  end)%st.

(** [LockGuard], dropped: the release of the lock, an error only logged. *)
Definition drop_lock_guard (key : string) : ST W unit := logged (release_lock key).

Definition tick : M (deferred * W) unit := (
  let? acquired := lift (try_acquire_lock SCALE_DOWN_LOCK_KEY (lock_ttl self)) in
  if negb acquired then ret (Ok tt)
  else
    let* r := (let? idle_jobs := lift (get_idle_jobs (idle_threshold self)) in
               do* scale_down_jobs idle_jobs in ret (Ok tt)) in
    do* lift (drop_lock_guard SCALE_DOWN_LOCK_KEY) in
    ret r)%st.

(** [run]: one tick per timer event until the token is cancelled; [fuel] bounds
    the number of ticks observed. *)
Fixpoint run (fuel : nat) : ST (deferred * W) unit := (
  match fuel with
  | O => ret tt
  | S n =>
      let* c := lift is_cancelled in
      if c then ret tt else do* tick in run n
  end)%st.

(** The task from its first poll: [None] is the panic of [time::interval], which
    takes no zero period. *)
Definition start (fuel : nat) : option (ST (deferred * W) unit) :=
  if bool_decide (interval self = 0) then None else Some (run fuel).

End controller.

(** ** The call sequences of one job

    What [scale_down_job] may do for a job, as the sequences of calls it makes
    when it does so.  [cleared] and [unbaselined] are the calls made only when
    auto-deregistration or the probe is configured. *)
Section episodes.
Context (self : ScaleDownController) (job : JobId).

Definition if_enabled (l : list Call.t) : list Call.t :=
  if auto_deregister_enabled self then l else [].
Definition if_probed (l : list Call.t) : list Call.t := if traffic_probe self then l else [].

(** The calls that look at a job and refresh its activity. *)
Definition guard_call (c : Call.t) : bool :=
  match c with
  | Call.Now _ | Call.HasInFlight _ _ | Call.InFlightCount _ _ | Call.ProbeTraffic _ _
  | Call.RecordActivity _ _ => true
  | _ => false
  end.

(** After the reply of [scale_down]. *)
Inductive aftermath : Result unit -> list Call.t -> Prop :=
| AfterScaled r1 r2 :
    aftermath (Ok tt)
      (if_enabled [Call.ClearNotFound job r1] ++ Call.MarkDormant job
       :: Call.RemoveActivity job r2 :: if_probed [Call.ClearBaseline job])
| AfterBlocked j o r1 t r2 :
    aftermath (Err (NscaleError.DeploymentInProgress j o))
      (if_enabled [Call.ClearNotFound job r1] ++ [Call.Now t; Call.RecordActivity job r2])
| AfterMissing j n :
    ~ (auto_deregister_enabled self = true /\
       exists k, n = Ok k /\ auto_deregister_threshold self <= k) ->
    aftermath (Err (NscaleError.JobNotFound j)) (if_enabled [Call.IncrementNotFound job n])
| AfterGone j k r1 r2 cl :
    auto_deregister_enabled self = true -> auto_deregister_threshold self <= k ->
    cl = [] \/ r2 = Ok tt /\ (exists r3, cl = [Call.ClearNotFound job r3]) ->
    aftermath (Err (NscaleError.JobNotFound j))
      (Call.IncrementNotFound job (Ok k) :: Call.MarkDormant job :: Call.RemoveActivity job r1
       :: if_probed [Call.ClearBaseline job] ++ Call.Deregister job r2 :: cl)
| AfterFailed e :
    (forall j, e <> NscaleError.JobNotFound j) ->
    (forall j o, e <> NscaleError.DeploymentInProgress j o) ->
    aftermath (Err e) [].

(** The guards have let the job through. *)
Definition passed : list Call.t :=
  Call.HasInFlight job false :: if_probed [Call.ProbeTraffic job (Ok false)].

Inductive episode : list Call.t -> Prop :=
| Skipped tr : Forall guard_call tr -> episode tr
| LookupFailed pre e : Forall guard_call pre -> episode (pre ++ passed ++ [Call.Lookup job (Err e)])
| Unregistered pre r :
    Forall guard_call pre ->
    episode (pre ++ passed ++ [Call.Lookup job (Ok None); Call.RemoveActivity job r])
| Attempted pre reg r post :
    Forall guard_call pre -> aftermath r post ->
    episode (pre ++ passed ++ Call.Lookup job (Ok (Some reg))
             :: Call.ScaleDown (Core.job_id reg) (nomad_group reg) r :: post).

End episodes.

(** ** What the functions emit *)

Section emits_controller.
Context {W : Type} `{Orchestrator W} `{ActivityStore W} `{MissingJobTracker W}
  `{Registry W} `{Coordinator W} `{InFlight W} `{Probe W} `{Clock W} `{Cancellation W}.
Context (self : ScaleDownController).
Abbreviation TW := (Traced Call.t W).

Lemma emits_logged {E} (m : M W unit) (ev : Result unit -> E) :
  emits (logged (traced ev m)) (fun tr _ => exists r, tr = [ev r]).
Proof. unfold logged. emit. intros ? r ->. apply emits_ret. eauto. Qed.

Lemma emits_lift_logged {S E} (m : M W unit) (ev : Result unit -> E) :
  emits (W := S * Traced E W) (lift (logged (traced ev m))) (fun tr _ => exists r, tr = [ev r]).
Proof. apply emits_lift, emits_logged. Qed.

Lemma emits_clear job :
  emits (W := TW) (clear_missing_job_counter self job)
    (fun tr _ => exists r, tr = if_enabled self [Call.ClearNotFound job r]).
Proof.
  unfold clear_missing_job_counter, when, if_enabled. destruct (auto_deregister_enabled self).
  - apply emits_logged.
  - apply emits_ret. by exists (Ok tt).
Qed.

Lemma emits_unbaseline {S} job :
  emits (W := S * TW) (lift (when (traffic_probe self) (clear_baseline job)))
    (fun tr _ => tr = if_probed self [Call.ClearBaseline job]).
Proof.
  apply emits_lift. unfold when, if_probed. destruct (traffic_probe self).
  - by apply emits_call.
  - by apply emits_ret.
Qed.
#[local] Hint Extern 1 (emits (logged _) _) => eapply emits_logged : emits.
#[local] Hint Extern 1 (emits (lift (logged _)) _) => eapply emits_lift_logged : emits.
#[local] Hint Extern 1 (emits (lift (clear_missing_job_counter _ _)) _) =>
  eapply emits_lift, emits_clear : emits.
#[local] Hint Resolve emits_clear emits_unbaseline : emits.

Lemma emits_result job r :
  emits (W := deferred * TW) (handle_scale_down_result self job r)
    (fun tr _ =>
       match r with
       | Ok _ => exists r2, tr = Call.MarkDormant job :: Call.RemoveActivity job r2
                                 :: if_probed self [Call.ClearBaseline job]
       | Err (NscaleError.DeploymentInProgress _ _) =>
           exists t r2, tr = [Call.Now t; Call.RecordActivity job r2]
       | Err _ => tr = []
       end).
Proof.
  unfold handle_scale_down_result. destruct r as [[]|e].
  - emit. intros ? ? ->. emit. intros ? _ [r2 ->]. emit. intros ? _ ->. emit. intros ? _ ->.
    exists r2. by rewrite app_nil_r.
  - destruct e; try (by apply emits_ret). emit. intros ? t ->. emit. intros ? _ ->.
    emit. intros ? _ [r2 ->]. eauto.
Qed.

Lemma emits_cleanup job :
  emits (W := deferred * TW) (cleanup_missing_job_state self job)
    (fun tr _ => exists r1 r2 cl,
       (cl = [] \/ r2 = Ok tt /\ (exists r3, cl = [Call.ClearNotFound job r3])) /\
       tr = Call.MarkDormant job :: Call.RemoveActivity job r1
            :: if_probed self [Call.ClearBaseline job] ++ Call.Deregister job r2 :: cl).
Proof.
  unfold cleanup_missing_job_state. emit. intros ? ? ->. emit. intros ? _ [r1 ->]. emit. intros ? _ ->.
  emit. intros ? _ ->. emit.
  - intros ? [] ->. emit. intros ? _ [r3 ->]. emit. rewrite app_nil_r. simpl.
    exists r1, (Ok tt), [Call.ClearNotFound job r3]. split; [eauto|].
    done.
  - intros ? e ->. exists r1, (Err e), []. split; [by left|done].
Qed.
#[local] Hint Resolve emits_cleanup emits_result : emits.

Lemma emits_missing job j :
  emits (W := deferred * TW) (handle_missing_job self job)
    (fun tr _ => aftermath self job (Err (NscaleError.JobNotFound j)) tr).
Proof.
  unfold handle_missing_job. destruct (auto_deregister_enabled self) eqn:He; simpl.
  - emit. intros ? r ->.
    assert (Hone : ~ (exists k, r = Ok k /\ auto_deregister_threshold self <= k) ->
                   aftermath self job (Err (NscaleError.JobNotFound j)) ([Call.IncrementNotFound job r] ++ [])).
    { intros Hn. rewrite app_nil_r. pose proof (AfterMissing self job j r) as Ha. unfold if_enabled in Ha.
      rewrite He in Ha. apply Ha. tauto. }
    destruct r as [k|e]; [|emit; apply Hone; intros (? & ? & _); done].
    case_bool_decide as Hk; [|emit; apply Hone; intros (? & ? & ?); by simplify_eq].
    emit. intros ? _ (r1 & r2 & cl & Hcl & ->). emit. simpl. rewrite app_nil_r. by apply AfterGone.
  - emit. pose proof (AfterMissing self job j (Ok 0)) as Ha. unfold if_enabled in Ha.
    rewrite He in Ha. apply Ha. intros [? _]. congruence.
Qed.

Lemma emits_deferred job :
  emits (W := deferred * TW) (deferred_guard job) (fun tr _ => Forall guard_call tr).
Proof.
  unfold deferred_guard. emit. intros ? d ->. destruct (d !! job) as [entry|].
  - emit. intros ? t ->. case_bool_decide; [emit; by repeat constructor|].
    emit. intros ? _ ->. emit. by repeat constructor.
  - emit. constructor.
Qed.

Lemma emits_in_flight job :
  emits (W := TW) (in_flight_guard job)
    (fun tr b => if b : bool then Forall guard_call tr else tr = [Call.HasInFlight job false]).
Proof.
  unfold in_flight_guard. emit. intros ? [] ->; [|by emit].
  emit. intros ? n ->. emit. intros ? _ [r ->]. emit. by repeat constructor.
Qed.

Lemma emits_traffic job :
  emits (W := TW) (traffic_guard self job)
    (fun tr b => if b : bool then Forall guard_call tr
                 else tr = if_probed self [Call.ProbeTraffic job (Ok false)]).
Proof.
  unfold traffic_guard, if_probed. destruct (traffic_probe self); [|by emit].
  emit. intros ? [[]|e] ->; [|by emit|].
  - emit. intros ? _ [r ->]. emit. by repeat constructor.
  - emit. by repeat constructor.
Qed.

Lemma emits_registered job :
  emits (W := deferred * TW) (scale_down_registered self job)
    (fun tr _ => exists r, match r with
       | Err e => tr = [Call.Lookup job (Err e)]
       | Ok None => exists r1, tr = [Call.Lookup job (Ok None); Call.RemoveActivity job r1]
       | Ok (Some reg) => exists r1 post, aftermath self job r1 post /\
           tr = Call.Lookup job (Ok (Some reg))
                :: Call.ScaleDown (Core.job_id reg) (nomad_group reg) r1 :: post
       end).
Proof.
  unfold scale_down_registered. emit. intros ? [[reg|]|e] ->.
  - emit. intros ? r1 ->.
    assert (Hgo : forall (m : ST (deferred * TW) unit),
      emits m (fun tr _ => aftermath self job r1 tr) ->
      emits m (fun tr' _ => exists r, match r with
       | Err e => [Call.Lookup job (Ok (Some reg))] ++ [Call.ScaleDown (Core.job_id reg) (nomad_group reg) r1] ++ tr'
                  = [Call.Lookup job (Err e)]
       | Ok None => exists r1', [Call.Lookup job (Ok (Some reg))] ++ [Call.ScaleDown (Core.job_id reg) (nomad_group reg) r1] ++ tr'
                  = [Call.Lookup job (Ok None); Call.RemoveActivity job r1']
       | Ok (Some reg') => exists r1' post, aftermath self job r1' post /\
           [Call.Lookup job (Ok (Some reg))] ++ [Call.ScaleDown (Core.job_id reg) (nomad_group reg) r1] ++ tr'
           = Call.Lookup job (Ok (Some reg'))
                :: Call.ScaleDown (Core.job_id reg') (nomad_group reg') r1' :: post
       end)).
    { intros m Hm. eapply emits_mono; [exact Hm|]. intros tr [] Ha. exists (Ok (Some reg)). by exists r1, tr. }
    destruct r1 as [[]|e]; [|destruct e]; apply Hgo.
    + emit. intros ? _ [r ->]. emit. intros ? _ (r2 & ->). by apply AfterScaled.
    + emit. intros tr _ ->. by apply AfterFailed.
    + emit. intros ? _ [r ->]. emit. intros ? _ (t & r2 & ->). by apply AfterBlocked.
    + emit. intros tr _ ->. by apply AfterFailed.
    + emit. intros tr _ ->. by apply AfterFailed.
    + emit. intros tr _ ->. by apply AfterFailed.
    + emit. intros tr _ ->. by apply AfterFailed.
    + apply emits_missing.
    + emit. intros tr _ ->. by apply AfterFailed.
    + emit. intros tr _ ->. by apply AfterFailed.
    + emit. intros tr _ ->. by apply AfterFailed.
    + emit. intros tr _ ->. by apply AfterFailed.
    + emit. intros tr _ ->. by apply AfterFailed.
  - emit. intros ? _ [r ->]. exists (Ok None). by exists r.
  - emit. by exists (Err e).
Qed.

#[local] Hint Resolve emits_deferred emits_registered : emits.
#[local] Hint Extern 1 (emits (lift (in_flight_guard _)) _) => eapply emits_lift, emits_in_flight : emits.
#[local] Hint Extern 1 (emits (lift (traffic_guard _ _)) _) => eapply emits_lift, emits_traffic : emits.

(** Every run of [scale_down_job] is one of the episodes. *)
Lemma emits_scale_down_job job :
  emits (W := deferred * TW) (scale_down_job self job) (fun tr _ => episode self job tr).
Proof.
  unfold scale_down_job, scale_down_due. emit. intros pre [] Hpre; [emit; constructor; by rewrite app_nil_r|].
  emit. intros tr1 [] Htr1.
  { emit. constructor. rewrite app_nil_r. by apply Forall_app. }
  subst. emit. intros tr2 [] Htr2.
  { emit. constructor. rewrite app_nil_r, !Forall_app. split_and!; try done. by repeat constructor. }
  subst. emit. intros tr [] ([[reg|]|e] & Htr).
  - destruct Htr as (r & post & Ha & ->). by apply (Attempted self job pre reg r post).
  - destruct Htr as (r & ->). by apply (Unregistered self job pre r).
  - subst. by apply (LookupFailed self job pre e).
Qed.

End emits_controller.

(** ** Facts about the episodes *)

Definition is_scale_down (c : Call.t) : bool :=
  match c with Call.ScaleDown _ _ _ => true | _ => false end.

Lemma guard_calls_forallb (P : Call.t -> bool) tr :
  (forall c, guard_call c = true -> P c = false) -> Forall guard_call tr ->
  forallb (fun c => negb (P c)) tr = true.
Proof.
  intros Hg. induction 1 as [|c tr Hc _ IH]; simpl; [done|].
  rewrite Hg, IH; [done|]. by apply Is_true_eq_true.
Qed.

Lemma passed_forallb (P : Call.t -> bool) self job :
  (forall c, guard_call c = true -> P c = false) ->
  forallb (fun c => negb (P c)) (passed self job) = true.
Proof.
  intros Hg. unfold passed, if_probed. destruct (traffic_probe self); simpl; rewrite ?Hg; done.
Qed.

Lemma aftermath_no_scale_down self job r post :
  aftermath self job r post -> forallb (fun c => negb (is_scale_down c)) post = true.
Proof.
  unfold if_enabled, if_probed. intros [r1 r2|j o r1 t r2|j n _|j k r1 r2 cl _ _ Hcl|e _ _];
    unfold if_enabled, if_probed; repeat case_match; try done;
    destruct Hcl as [->|[_ [? ->]]]; done.
Qed.

(** A [scale_down] call in an episode: what precedes and what follows it. *)
Lemma episode_scale_down self job tr pre j g r post :
  episode self job tr -> tr = pre ++ Call.ScaleDown j g r :: post ->
  exists pre0 reg, Forall guard_call pre0 /\ j = Core.job_id reg /\ g = nomad_group reg /\
    pre = pre0 ++ passed self job ++ [Call.Lookup job (Ok (Some reg))] /\
    aftermath self job r post.
Proof.
  assert (Hg : forall c, guard_call c = true -> is_scale_down c = false) by (by intros []).
  intros He Heq. destruct He as [tr Htr|pre0 e Hp|pre0 r0 Hp|pre0 reg r0 post0 Hp Ha].
  - exfalso. by apply (split_at_none is_scale_down tr pre (Call.ScaleDown j g r) post);
      [apply guard_calls_forallb|..].
  - exfalso. eapply (split_at_none is_scale_down _ pre (Call.ScaleDown j g r) post); [|done|exact Heq].
    by rewrite !forallb_app, (guard_calls_forallb _ pre0), passed_forallb.
  - exfalso. eapply (split_at_none is_scale_down _ pre (Call.ScaleDown j g r) post); [|done|exact Heq].
    by rewrite !forallb_app, (guard_calls_forallb _ pre0), passed_forallb.
  - exists pre0, reg.
    assert (Hsplit : (pre0 ++ passed self job ++ [Call.Lookup job (Ok (Some reg))])
      ++ Call.ScaleDown (Core.job_id reg) (nomad_group reg) r0 :: post0
      = pre ++ Call.ScaleDown j g r :: post) by (by rewrite <- Heq, <- !app_assoc).
    apply (split_at_unique is_scale_down) in Hsplit as (-> & ? & ->); simplify_eq; try done.
    + by rewrite !forallb_app, (guard_calls_forallb _ pre0), passed_forallb.
    + by eapply aftermath_no_scale_down.
Qed.

(** The calls made for a job: none of them touches the lock or the list of idle
    jobs, and a lookup is of the job itself. *)
Definition call_for (job : JobId) (c : Call.t) : Prop :=
  match c with
  | Call.Lookup j _ => j = job
  | Call.AcquireLock _ _ _ | Call.ReleaseLock _ _ | Call.GetIdleJobs _ _ => False
  | _ => True
  end.

Lemma guard_calls_for job tr : Forall guard_call tr -> Forall (call_for job) tr.
Proof. intros Htr. eapply Forall_impl; [exact Htr|]. by intros []. Qed.

Lemma episode_calls_for self job tr : episode self job tr -> Forall (call_for job) tr.
Proof.
  assert (Hpassed : Forall (call_for job) (passed self job)).
  { unfold passed, if_probed. case_match; by repeat constructor. }
  assert (Hafter : forall r post, aftermath self job r post -> Forall (call_for job) post).
  { intros r post [r1 r2|j o r1 t r2|j n _|j k r1 r2 cl _ _ Hcl|e _ _];
      unfold if_enabled, if_probed; repeat case_match;
      try (destruct Hcl as [->|[_ [? ->]]]); by repeat constructor. }
  intros [tr' Htr|pre e Hp|pre r Hp|pre reg r post Hp Ha]; rewrite ?Forall_app; split_and?;
    eauto using guard_calls_for; by repeat constructor; eauto.
Qed.

Section results.
Context {W : Type} `{Orchestrator W} `{ActivityStore W} `{MissingJobTracker W}
  `{Registry W} `{Coordinator W} `{InFlight W} `{Probe W} `{Clock W} `{Cancellation W}.
Context (self : ScaleDownController).
Abbreviation TW := (Traced Call.t W).

(** C2.  The controller scales down only what its guards let through: whatever
    the services reply and whatever happens meanwhile, a [scale_down] call of
    [scale_down_job] comes after an in-flight check of that name that found no
    request, after a probe that found no traffic when a probe is configured, and
    after the lookup of the registration whose job and group it names; and it is
    the only one. *)
Theorem scale_down_guarded job :
  emits (W := deferred * TW) (scale_down_job self job) (fun tr _ =>
    forall pre j g r post, tr = pre ++ Call.ScaleDown j g r :: post ->
      Call.HasInFlight job false ∈ pre /\
      (traffic_probe self = true -> Call.ProbeTraffic job (Ok false) ∈ pre) /\
      (exists reg, Call.Lookup job (Ok (Some reg)) ∈ pre /\
         j = Core.job_id reg /\ g = nomad_group reg) /\
      forall j' g' r', Call.ScaleDown j' g' r' ∉ post).
Proof.
  eapply emits_mono; [apply emits_scale_down_job|]. intros tr [] He pre j g r post Htr; cbn beta in He.
  destruct (episode_scale_down self job tr pre j g r post He Htr)
    as (pre0 & reg & Hp & -> & -> & -> & Ha).
  unfold passed, if_probed. split_and!.
  - set_solver.
  - intros ->. set_solver.
  - exists reg. split_and!; [set_solver|done..].
  - intros j' g' r' Hin. apply aftermath_no_scale_down in Ha.
    apply list_elem_of_split in Hin as (l1 & l2 & ->).
    by apply (split_at_none is_scale_down _ l1 (Call.ScaleDown j' g' r') l2) in Ha.
Qed.

(** C40.  What follows a [scale_down] reply is the reply's own branch: on success
    the job is marked dormant, its activity removed and its baseline cleared;
    a deployment in progress refreshes the activity; a missing job is counted
    and, from the threshold on, cleaned up and deregistered; any other error
    leaves everything as it was. *)
Theorem scale_down_outcomes job :
  emits (W := deferred * TW) (scale_down_job self job) (fun tr _ =>
    forall pre j g r post, tr = pre ++ Call.ScaleDown j g r :: post -> aftermath self job r post).
Proof.
  eapply emits_mono; [apply emits_scale_down_job|]. intros tr [] He pre j g r post Htr; cbn beta in He.
  by destruct (episode_scale_down self job tr pre j g r post He Htr) as (? & ? & _ & _ & _ & _ & ?).
Qed.

(** C16.  A registration is dropped only for a job that Nomad has repeatedly
    reported missing: a [deregister] call is for this job, auto-deregistration
    is enabled, Nomad's reply to the scale-down was "job not found" and the
    counter's reply had reached the threshold. *)
Theorem deregister_only_missing job :
  emits (W := deferred * TW) (scale_down_job self job) (fun tr _ =>
    forall pre j r post, tr = pre ++ Call.Deregister j r :: post ->
      j = job /\ auto_deregister_enabled self = true /\
      (exists j' g x, Call.ScaleDown j' g (Err (NscaleError.JobNotFound x)) ∈ pre) /\
      exists k, Call.IncrementNotFound job (Ok k) ∈ pre /\ auto_deregister_threshold self <= k).
Proof.
  set (is_dereg c := match c with Call.Deregister _ _ => true | _ => false end).
  assert (Hg : forall c, guard_call c = true -> is_dereg c = false) by (by intros []).
  eapply emits_mono; [apply emits_scale_down_job|]. intros tr [] He pre j r post Htr.
  destruct He as [tr Hc|pre0 e Hp|pre0 r0 Hp|pre0 reg r0 post0 Hp Ha].
  - exfalso. apply (split_at_none is_dereg tr pre (Call.Deregister j r) post); [|done|done].
    by apply guard_calls_forallb.
  - exfalso. eapply (split_at_none is_dereg _ pre (Call.Deregister j r) post); [|done|exact Htr].
    by rewrite !forallb_app, (guard_calls_forallb _ pre0), passed_forallb.
  - exfalso. eapply (split_at_none is_dereg _ pre (Call.Deregister j r) post); [|done|exact Htr].
    by rewrite !forallb_app, (guard_calls_forallb _ pre0), passed_forallb.
  - assert (Hpre : forallb (fun c => negb (is_dereg c)) (pre0 ++ passed self job) = true)
      by (by rewrite !forallb_app, (guard_calls_forallb _ pre0), passed_forallb).
    destruct Ha as [r1 r2|j0 o r1 t r2|j0 n Hn|j0 k r1 r2 cl Hen Hk Hcl|e He1 He2].
    1,2,3,5: exfalso; eapply (split_at_none is_dereg _ pre (Call.Deregister j r) post); [|done|exact Htr];
        rewrite app_assoc, forallb_app, Hpre; unfold if_enabled, if_probed; by repeat case_match.
    assert (Hsplit : ((pre0 ++ passed self job) ++ Call.Lookup job (Ok (Some reg))
        :: Call.ScaleDown (Core.job_id reg) (nomad_group reg) (Err (NscaleError.JobNotFound j0))
        :: Call.IncrementNotFound job (Ok k) :: Call.MarkDormant job :: Call.RemoveActivity job r1
        :: if_probed self [Call.ClearBaseline job]) ++ Call.Deregister job r2 :: cl
        = pre ++ Call.Deregister j r :: post) by (rewrite <- Htr; by rewrite <- !app_assoc).
    apply (split_at_unique is_dereg) in Hsplit as (-> & ? & ->); simplify_eq; try done.
    + split_and!; try done; [exists (Core.job_id reg), (nomad_group reg), j0; set_solver|exists k; split; [set_solver|done]].
    + rewrite forallb_app, Hpre. unfold if_probed. by case_match.
    + by destruct Hcl as [->|[_ [? ->]]].
Qed.

Lemma emits_scale_down_jobs l :
  emits (W := deferred * TW) (scale_down_jobs self l)
    (fun tr _ => Forall (fun c => exists job, job ∈ l /\ call_for job c) tr).
Proof.
  induction l as [|job l IH]; simpl; [by emit|]. emit. intros ? [] ->.
  - emit. rewrite app_nil_r. repeat constructor. exists job. split; [left|done].
  - eapply emits_bind; [apply emits_scale_down_job|]. intros tr [] Htr.
    eapply emits_mono; [exact IH|]. intros tr' [] Hl. simpl. constructor; [exists job; split; [left|done]|].
    apply Forall_app. split.
    + eapply Forall_impl; [by eapply episode_calls_for|]. intros c Hc. exists job. split; [left|done].
    + eapply Forall_impl; [exact Hl|]. intros c (job' & Hj & Hc). exists job'. split; [by right|done].
Qed.
#[local] Hint Extern 1 (emits (lift (logged _)) _) => eapply emits_lift_logged : emits.

(** The lock brackets a tick: when the lock is refused or cannot be asked
    for, the tick makes no other call; otherwise the last call releases it, on
    every path, no other lock call is made in between, and only jobs that the
    store reported idle are looked up. *)
Theorem tick_holds_lock :
  emits (W := deferred * TW) (tick self) (fun tr _ =>
    (exists r, r <> Ok true /\ tr = [Call.AcquireLock SCALE_DOWN_LOCK_KEY (lock_ttl self) r]) \/
    exists mid r idle, tr = Call.AcquireLock SCALE_DOWN_LOCK_KEY (lock_ttl self) (Ok true) :: mid
                        ++ [Call.ReleaseLock SCALE_DOWN_LOCK_KEY r] /\
      head mid = Some (Call.GetIdleJobs (idle_threshold self) idle) /\
      forall c, c ∈ tail mid -> exists l, idle = Ok l /\ exists job, job ∈ l /\ call_for job c).
Proof.
  unfold tick, drop_lock_guard. emit; [|by intros ? e ->; left; exists (Err e)].
  intros ? [] ->; simpl negb; cbv iota; [|by emit; left; exists (Ok false)].
  eapply emits_bind with (P := fun tr _ => exists idle mid,
    tr = Call.GetIdleJobs (idle_threshold self) idle :: mid /\
    (mid = [] \/ exists l, idle = Ok l /\ Forall (fun c => exists job, job ∈ l /\ call_for job c) mid)).
  - emit; [|by intros ? e ->; exists (Err e), []; auto].
    intros ? l ->. eapply emits_bind; [apply emits_scale_down_jobs|]. intros mid [] Hmid.
    emit. exists (Ok l), mid. rewrite app_nil_r. split; [done|]. right. exists l. split; [done|].
    exact Hmid.
  - intros ? r (idle & mid & -> & Hmid). emit. intros ? _ [r2 ->]. emit. right.
    exists (Call.GetIdleJobs (idle_threshold self) idle :: mid), r2, idle.
    split_and!; [by rewrite app_nil_r|done|]. simpl.
    intros c Hc. destruct Hmid as [->|(l & -> & Hl)]; [by apply elem_of_nil in Hc|].
    exists l. split; [done|]. by eapply Forall_forall in Hl.
Qed.

End results.

Lemma deferred_guard_run W `{Clock W} job (d : deferred) (w : W) :
  deferred_guard job (d, w) =
  match d !! job with
  | Some entry =>
      let '(t, w') := now w in
      if bool_decide (t < entry) then (true, (d, w')) else (false, (delete job d, w'))
  | None => (false, (d, w))
  end.
Proof.
  unfold deferred_guard, bind, get_st, lift, modify_st, ret. cbn [fst snd].
  destruct (d !! job) as [e|]; [|done]. cbn [fst snd].
  destruct (now w) as [t w']. cbn [fst snd]. destruct (bool_decide (t < e)); done.
Qed.

(** A blocked scale-down backs off: after Nomad reports a deployment in
    progress at time [t], every attempt on that job before [t] plus 30 seconds
    returns after one look at the clock, changing nothing; from then on it runs
    as if the job had never been deferred. *)
Theorem blocked_job_backs_off W `{Orchestrator W} `{ActivityStore W} `{MissingJobTracker W}
    `{Registry W} `{Coordinator W} `{InFlight W} `{Probe W} `{Clock W}
    self job j o d (w : W) t w1 d1 w2 w' t' w'' :
  now w = (t, w1) ->
  handle_scale_down_result self job (Err (NscaleError.DeploymentInProgress j o)) (d, w) = (tt, (d1, w2)) ->
  now w' = (t', w'') ->
  scale_down_job self job (d1, w') =
    if bool_decide (t' < t + DEPLOYMENT_BACKOFF) then (tt, (d1, w''))
    else scale_down_job self job (delete job d1, w'').
Proof.
  intros Hnow Hres Hnow'.
  assert (d1 !! job = Some (t + DEPLOYMENT_BACKOFF)) as Hd.
  { unfold handle_scale_down_result, logged, bind, lift, modify_st, ret in Hres. simpl in Hres.
    rewrite Hnow in Hres. simpl in Hres. destruct (record_activity job w1). simplify_eq.
    apply lookup_insert_eq. }
  unfold scale_down_job, bind. rewrite !deferred_guard_run, Hd, Hnow', lookup_delete_eq.
  by destruct (bool_decide (t' < t + DEPLOYMENT_BACKOFF)).
Qed.

(** ** Concrete runs *)

Definition demo : ScaleDownController :=
  new_controller true (duration_from_secs 300) (duration_from_secs 30) true 5.

Definition blocked : Result unit := Err (NscaleError.DeploymentInProgress "web" "scale down").

Lemma blocked_job_backs_off_witness :
  scale_down_job (W := Toy.world) demo "web"
    (<["web" := DEPLOYMENT_BACKOFF]> ∅, Toy.with_clock (duration_from_secs 10) Toy.quiet)
  = (tt, (<["web" := DEPLOYMENT_BACKOFF]> ∅, Toy.with_clock (duration_from_secs 10) Toy.quiet)).
Proof.
  rewrite (blocked_job_backs_off Toy.world demo "web" "web" "scale down" ∅ Toy.quiet 0 Toy.quiet
             (<["web" := DEPLOYMENT_BACKOFF]> ∅) (Toy.with_activity (<["web" := 0]> ∅) Toy.quiet)
             (Toy.with_clock (duration_from_secs 10) Toy.quiet) (duration_from_secs 10)
             (Toy.with_clock (duration_from_secs 10) Toy.quiet));
    [vm_compute; reflexivity | reflexivity | vm_compute; reflexivity | reflexivity].
Defined.

(** A job registered under its id and under another service name, with one
    request in flight for the job and none for the name. *)
Definition shop : JobRegistration := mkReg "shop-job" "shop" "main".
Definition aliased : Toy.world :=
  Toy.with_in_flight {["shop-job" := 1]}
    (Toy.with_registry (<["shop" := shop]> {["shop-job" := shop]}) Toy.quiet).

(** The in-flight guard is keyed by the name in the activity store, not by
    the registered job: when a job has been reached under a service name that
    differs from its id, a tick for that name scales the job down although a
    request of the job is in flight. *)
Theorem alias_defeats_in_flight_guard :
  (has_in_flight (W := Toy.world) "shop-job" aliased).1 = true /\
  trace (scale_down_job (W := Traced Call.t Toy.world) demo "shop" (∅, mkTraced aliased [])).2.2
  = [ Call.HasInFlight "shop" false; Call.ProbeTraffic "shop" (Ok false);
      Call.Lookup "shop" (Ok (Some shop)); Call.ScaleDown "shop-job" "main" (Ok tt);
      Call.ClearNotFound "shop" (Ok tt); Call.MarkDormant "shop";
      Call.RemoveActivity "shop" (Ok tt); Call.ClearBaseline "shop" ].
Proof. split; vm_compute; reflexivity. Qed.
