(* ===== verification/Nomad.v ===== *)
(** * Nomad: the Nomad API client

    Models [crates/nscale-nomad/src/models.rs] (the wire types with the readers
    and writers their [serde] attributes derive) and [client.rs] (every call,
    with its classification of errors).  The HTTP client is a parameter. *)

From S2P Require Import Prelude Str F64 Core Json Http Waker Ifaces Trace Toy.
From Stdlib Require Import Ascii.
Local Open Scope Z_scope.

(** ** models.rs *)

Record ParseJobRequest := mkParseJobRequest {
  job_hcl : string; canonicalize : bool; variables : option string }.
Record ScaleTarget := mkScaleTarget { target_group : string }.
Record ScaleRequest := mkScaleRequest {
  scale_count : option Z; target : ScaleTarget; message : option string }.
Record JobSubmitRequest := mkJobSubmitRequest { submit_job_body : Value.t }.

Record JobSubmitResponse := mkJobSubmitResponse {
  submit_eval_id : string; submit_job_modify_index : Z; submit_warnings : option string }.
Record JobStopResponse := mkJobStopResponse {
  stop_eval_id : string; eval_create_index : Z; stop_job_modify_index : Z }.
Record TaskGroup := mkTaskGroup { tg_name : string; tg_count : Z }.
Record Job := mkJob {
  nomad_id : string; name : string; job_status : string; task_groups : list TaskGroup }.
Record Port := mkPort { port_label : string; port_value : Z }.
Record PortMapping := mkPortMapping {
  pm_label : string; pm_value : Z; pm_to : Z; host_ip : string }.
Record NetworkResource := mkNetworkResource {
  ip : string; dynamic_ports : list Port; reserved_ports : list Port }.
Record AllocResources := mkAllocResources { networks : list NetworkResource }.
Record SharedResources := mkSharedResources {
  ports : list PortMapping; shared_networks : list NetworkResource }.
Record AllocatedResources := mkAllocatedResources { shared_resources : option SharedResources }.
Record Allocation := mkAllocation {
  alloc_id : string; alloc_job_id : string; client_status : string; desired_status : string;
  task_group : string; resources : option AllocResources;
  allocated_resources : option AllocatedResources }.
Record EventEnvelope := mkEventEnvelope {
  topic : string; event_type : string; payload : Value.t }.
Record EventStreamFrame := mkEventStreamFrame { events : list EventEnvelope; frame_index : Z }.
Record ScaleResponse := mkScaleResponse { scale_warnings : string }.

(** [Allocation::is_running]. *)
Definition is_running (a : Allocation) : bool :=
  bool_decide (client_status a = "running") && bool_decide (desired_status a = "run").

(** Writers: [rename_all = "PascalCase"], [rename], [skip_serializing_if]. *)
Definition ser_ParseJobRequest (r : ParseJobRequest) : Value.t :=
  Value.Object ([("JobHCL", Value.Str (job_hcl r)); ("Canonicalize", Value.Bool (canonicalize r))]
                ++ ser_skip "Variables" (Value.Str <$> variables r)).
Definition ser_ScaleTarget (t : ScaleTarget) : Value.t :=
  Value.Object [("Group", Value.Str (target_group t))].
Definition ser_ScaleRequest (r : ScaleRequest) : Value.t :=
  Value.Object ([("Count", ser_option (Value.PosInt <$> scale_count r));
                 ("Target", ser_ScaleTarget (target r))]
                ++ ser_skip "Message" (Value.Str <$> message r)).
Definition ser_JobSubmitRequest (r : JobSubmitRequest) : Value.t :=
  Value.Object [("Job", submit_job_body r)].

(** Readers. *)
Definition de_JobSubmitResponse : Value.t -> option JobSubmitResponse := de_object (fun m =>
  id ← field de_string "EvalID" m;
  ix ← field_default 0 (de_uint u64_max) "JobModifyIndex" m;
  ws ← field_option de_string "Warnings" m;
  Some (mkJobSubmitResponse id ix ws)).
Definition de_JobStopResponse : Value.t -> option JobStopResponse := de_object (fun m =>
  id ← field de_string "EvalID" m;
  ec ← field_default 0 (de_uint u64_max) "EvalCreateIndex" m;
  ix ← field_default 0 (de_uint u64_max) "JobModifyIndex" m;
  Some (mkJobStopResponse id ec ix)).
Definition de_TaskGroup : Value.t -> option TaskGroup := de_object (fun m =>
  n ← field de_string "Name" m;
  c ← field (de_uint u32_max) "Count" m;
  Some (mkTaskGroup n c)).
Definition de_Job : Value.t -> option Job := de_object (fun m =>
  id ← field de_string "ID" m;
  n ← field de_string "Name" m;
  s ← field de_string "Status" m;
  tgs ← field_default [] (de_vec de_TaskGroup) "TaskGroups" m;
  Some (mkJob id n s tgs)).
Definition de_Port : Value.t -> option Port := de_object (fun m =>
  l ← field de_string "Label" m;
  v ← field (de_uint u16_max) "Value" m;
  Some (mkPort l v)).
Definition de_PortMapping : Value.t -> option PortMapping := de_object (fun m =>
  l ← field de_string "Label" m;
  v ← field (de_uint u16_max) "Value" m;
  t ← field (de_uint u16_max) "To" m;
  h ← field de_string "HostIP" m;
  Some (mkPortMapping l v t h)).
Definition de_NetworkResource : Value.t -> option NetworkResource := de_object (fun m =>
  i ← field de_string "IP" m;
  d ← field_default [] (de_vec de_Port) "DynamicPorts" m;
  r ← field_default [] (de_vec de_Port) "ReservedPorts" m;
  Some (mkNetworkResource i d r)).
Definition de_AllocResources : Value.t -> option AllocResources := de_object (fun m =>
  n ← field_default [] (de_vec de_NetworkResource) "Networks" m;
  Some (mkAllocResources n)).
Definition de_SharedResources : Value.t -> option SharedResources := de_object (fun m =>
  p ← field_default [] (de_vec de_PortMapping) "Ports" m;
  n ← field_default [] (de_vec de_NetworkResource) "Networks" m;
  Some (mkSharedResources p n)).
Definition de_AllocatedResources : Value.t -> option AllocatedResources := de_object (fun m =>
  s ← field_option de_SharedResources "Shared" m;
  Some (mkAllocatedResources s)).
Definition de_Allocation : Value.t -> option Allocation := de_object (fun m =>
  id ← field de_string "ID" m;
  j ← field de_string "JobID" m;
  cs ← field de_string "ClientStatus" m;
  ds ← field de_string "DesiredStatus" m;
  tg ← field de_string "TaskGroup" m;
  rs ← field_option de_AllocResources "Resources" m;
  ar ← field_option de_AllocatedResources "AllocatedResources" m;
  Some (mkAllocation id j cs ds tg rs ar)).
Definition de_EventEnvelope : Value.t -> option EventEnvelope := de_object (fun m =>
  t ← field de_string "Topic" m;
  ty ← field de_string "Type" m;
  p ← field de_value "Payload" m;
  Some (mkEventEnvelope t ty p)).
Definition de_EventStreamFrame : Value.t -> option EventStreamFrame := de_object (fun m =>
  es ← field_default [] (de_vec de_EventEnvelope) "Events" m;
  i ← field_default 0 (de_uint u64_max) "Index" m;
  Some (mkEventStreamFrame es i)).
Definition de_ScaleResponse : Value.t -> option ScaleResponse := de_object (fun m =>
  w ← field_default "" de_string "Warnings" m;
  Some (mkScaleResponse w)).

(** ** client.rs *)

Record NomadClient := mkNomadClient { nomad_base_url : string }.

(** [NomadClient::new]: the token becomes a default header. *)
Definition new_nomad `{ClientBuilder} (addr : string) (token : option string) : Result NomadClient :=
  match token ≫= invalid_header with
  | Some e => Err (NscaleError.Nomad e)
  | None =>
      match build_error (match token with Some t => [("X-Nomad-Token", t)] | None => [] end) with
      | Some e => Err (NscaleError.Http e)
      | None => Ok (mkNomadClient (trim_end_char "/"%char addr))
      end
  end.

Definition nomad_url (c : NomadClient) (path : string) : string := nomad_base_url c +:+ path.

(** The first network's address, or the loopback. *)
Definition network_ip (ns : list NetworkResource) : string :=
  match ns with n :: _ => ip n | [] => "127.0.0.1" end.

Definition fallback_endpoint (a : Allocation) : option Endpoint :=
  match resources a with
  | Some rs =>
      match networks rs with
      | net :: _ =>
          match dynamic_ports net, reserved_ports net with
          | p :: _, _ => Some (mkEndpoint (ip net) (port_value p))
          | [], p :: _ => Some (mkEndpoint (ip net) (port_value p))
          | [], [] => None
          end
      | [] => None
      end
  | None => None
  end.

Definition extract_endpoint (a : Allocation) : option Endpoint :=
  match allocated_resources a with
  | Some (mkAllocatedResources (Some shared)) =>
      match ports shared with
      | p :: _ =>
          let host := if bool_decide (host_ip p = "") || bool_decide (host_ip p = "0.0.0.0")
                      then network_ip (shared_networks shared) else host_ip p in
          Some (mkEndpoint host (pm_value p))
      | [] => fallback_endpoint a
      end
  | _ => fallback_endpoint a
  end.

Section client.
Context {W : Type} `{HttpClient W}.
Context (self : NomadClient).

Definition http (m : ST W (res reqwest_error response)) : M W response :=
  map_err NscaleError.Http m.

Definition decoded {A} (de : Value.t -> option A) (r : response) : M W A :=
  ret (res_map_err NscaleError.Http (resp_json de r)).

Definition call (me : Method) (path : string) (body : option Value.t) : M W response :=
  http (http_send (mkRequest me (nomad_url self path) body)).

Definition unexpected_reply (me path : string) (status : Z) (body : string) : NscaleError.t :=
  NscaleError.Nomad (me +:+ " " +:+ path +:+ " returned " +:+ status_display status +:+ ": " +:+ body).

Definition classify_job_error (status : Z) (body me path : string) (job_id : JobId) : NscaleError.t :=
  if bool_decide (status = 404) || contains "job not found" (to_ascii_lowercase body)
  then NscaleError.JobNotFound job_id
  else unexpected_reply me path status body.

Definition ensure_success (resp : response) (me path : string) : Result response :=
  if is_success (resp_status resp) then Ok resp
  else Err (unexpected_reply me path (resp_status resp) (text_or_default resp)).

Definition ensure_job_success (resp : response) (me path : string) (job_id : JobId) : Result response :=
  if is_success (resp_status resp) then Ok resp
  else Err (classify_job_error (resp_status resp) (text_or_default resp) me path job_id).

Definition parse_job (hcl : string) (vars : option string) : M W Value.t := (
  let? resp := call POST "/v1/jobs/parse" (Some (ser_ParseJobRequest (mkParseJobRequest hcl true vars))) in
  let? resp := ret (ensure_success resp "POST" "/v1/jobs/parse") in
  decoded de_value resp)%st.

Definition submit_job (job : Value.t) : M W JobSubmitResponse := (
  let? resp := call POST "/v1/jobs" (Some (ser_JobSubmitRequest (mkJobSubmitRequest job))) in
  let? resp := ret (ensure_success resp "POST" "/v1/jobs") in
  decoded de_JobSubmitResponse resp)%st.

Definition get_job (job_id : JobId) : M W Job := (
  let path := "/v1/job/" +:+ job_id in
  let? resp := call GET path None in
  let? resp := ret (ensure_job_success resp "GET" path job_id) in
  decoded de_Job resp)%st.

Definition get_allocations (job_id : JobId) : M W (list Allocation) := (
  let path := "/v1/job/" +:+ job_id +:+ "/allocations" in
  let? resp := call GET path None in
  let? resp := ret (ensure_job_success resp "GET" path job_id) in
  decoded (de_vec de_Allocation) resp)%st.

Definition stop_and_purge_job (job_id : JobId) : M W JobStopResponse := (
  let path := "/v1/job/" +:+ job_id +:+ "?purge=true" in
  let? resp := call DELETE path None in
  let? resp := ret (ensure_job_success resp "DELETE" path job_id) in
  decoded de_JobStopResponse resp)%st.

(** Nomad's answer while a deployment is in progress. *)
Definition deployment_blocked (status : Z) (body : string) : bool :=
  bool_decide (status = 400) &&
  contains "scaling blocked due to active deployment" (to_lowercase body).

Definition nomad_scale_up (job_id : JobId) (group : string) (n : Z) : M W unit := (
  let path := "/v1/job/" +:+ job_id +:+ "/scale" in
  let req := mkScaleRequest (Some n) (mkScaleTarget group) (Some "nscale: scaling up on demand") in
  let? resp := call POST path (Some (ser_ScaleRequest req)) in
  if negb (is_success (resp_status resp)) then
    let body := text_or_default resp in
    if deployment_blocked (resp_status resp) body then ret (Ok tt)
    else ret (Err (classify_job_error (resp_status resp) body "POST" path job_id))
  else
    let? _ := decoded de_ScaleResponse resp in
    ret (Ok tt))%st.

Definition nomad_scale_down (job_id : JobId) (group : string) : M W unit := (
  let path := "/v1/job/" +:+ job_id +:+ "/scale" in
  let req := mkScaleRequest (Some 0) (mkScaleTarget group) (Some "nscale: scaling to zero after idle") in
  let? resp := call POST path (Some (ser_ScaleRequest req)) in
  if negb (is_success (resp_status resp)) then
    let body := text_or_default resp in
    if deployment_blocked (resp_status resp) body
    then ret (Err (NscaleError.DeploymentInProgress job_id "scale down"))
    else ret (Err (classify_job_error (resp_status resp) body "POST" path job_id))
  else ret (Ok tt))%st.

Definition nomad_get_job_count (job_id : JobId) (group : string) : M W Z := (
  let? job := get_job job_id in
  match list_find (fun g => tg_name g = group) (task_groups job) with
  | Some (_, tg) => ret (Ok (tg_count tg))
  | None => ret (Err (NscaleError.Nomad
      ("task group '" +:+ group +:+ "' not found in job '" +:+ job_id +:+ "'")))
  end)%st.

Definition nomad_get_healthy_endpoint (job_id : JobId) : M W (option Endpoint) := (
  let? allocs := get_allocations job_id in
  match list_find (fun a => is_running a = true) allocs with
  | Some (_, alloc) => ret (Ok (extract_endpoint alloc))
  | None => ret (Ok None)
  end)%st.

#[export] Instance nomad_orchestrator : Orchestrator W := {|
  scale_up := nomad_scale_up;
  scale_down := nomad_scale_down;
  get_job_count := nomad_get_job_count;
  get_healthy_endpoint := nomad_get_healthy_endpoint |}.

End client.

(** ** Lemmas *)

Lemma text_blocked_not_success status body : deployment_blocked status body = true -> is_success status = false.
Proof.
  unfold deployment_blocked, is_success. rewrite andb_true_iff, bool_decide_eq_true.
  intros [-> _]. done.
Qed.

Lemma field_option_inv {A} (de : Value.t -> option A) k m a :
  field_option de k m = Some (Some a) -> exists v, de v = Some a.
Proof.
  unfold field_option, de_option. destruct (obj_get k m) as [v|]; [|done].
  destruct v; simpl; try done; intros (y & Hy & [= ->])%fmap_Some; eauto.
Qed.

Lemma de_vec_head {A} (de : Value.t -> option A) v a l :
  de_vec de v = Some (a :: l) -> exists v', de v' = Some a.
Proof.
  unfold de_vec. destruct v as [| | | | | |xs|]; try done. intros Hm%mapM_Some.
  inversion Hm; subst. eauto.
Qed.

(** Take apart a reader that succeeded. *)
Ltac de_inv H :=
  unfold de_object in H; simpl in H;
  repeat match type of H with
  | (_ ≫= _) = Some _ => apply bind_Some in H as (? & ? & H); simpl in H
  end; simplify_eq.

Definition port_ok (p : Z) : Prop := 0 <= p <= u16_max.

Lemma de_Port_range v p : de_Port v = Some p -> port_ok (port_value p).
Proof.
  intros H. unfold de_Port in H. de_inv H.
  repeat match goal with H : field _ _ _ = Some _ |- _ => apply field_inv in H as (? & _ & ?) end.
  eapply de_uint_range; eauto.
Qed.

Lemma de_PortMapping_range v p : de_PortMapping v = Some p -> port_ok (pm_value p).
Proof.
  intros H. unfold de_PortMapping in H. de_inv H.
  repeat match goal with H : field _ _ _ = Some _ |- _ => apply field_inv in H as (? & _ & ?) end.
  eapply de_uint_range; eauto.
Qed.

(** The ports of a network and of an allocation's shared resources. *)
Lemma de_Network_ports v n p :
  de_NetworkResource v = Some n ->
  head (dynamic_ports n) = Some p \/ head (reserved_ports n) = Some p -> port_ok (port_value p).
Proof.
  intros H Hp. unfold de_NetworkResource in H. de_inv H. simpl in Hp.
  repeat match goal with
  | H : field_default _ _ _ _ = Some _ |- _ => apply field_default_inv in H as [[_ ->]|(? & _ & H)]
  end; destruct Hp as [Hp|Hp]; simpl in Hp; try done;
  match goal with H : de_vec _ _ = Some ?l, Hp : head ?l = Some _ |- _ =>
    destruct l as [|q l']; simplify_eq/=; apply de_vec_head in H as [? H]; by apply de_Port_range in H
  end.
Qed.

Lemma de_Allocation_resources v a :
  de_Allocation v = Some a ->
  (forall r, resources a = Some r -> exists v', de_AllocResources v' = Some r) /\
  (forall r, allocated_resources a = Some r -> exists v', de_AllocatedResources v' = Some r).
Proof.
  intros H. unfold de_Allocation in H. de_inv H. simpl. split; intros r ->;
    match goal with H : field_option _ _ _ = Some (Some r) |- _ => by apply field_option_inv in H end.
Qed.

Lemma fallback_endpoint_port v a ep :
  de_Allocation v = Some a -> fallback_endpoint a = Some ep -> port_ok (port ep).
Proof.
  intros [Hr _]%de_Allocation_resources He. unfold fallback_endpoint in He.
  destruct (resources a) as [r|]; [|done]. destruct (Hr r eq_refl) as [v' Hv']. clear Hr.
  destruct (networks r) as [|net ns] eqn:En; [done|].
  unfold de_AllocResources in Hv'. de_inv Hv'. simpl in En. subst.
  match goal with H : field_default _ _ _ _ = Some _ |- _ => apply field_default_inv in H as [[_ ?]|(? & _ & H)] end;
    [done|]. match goal with H : de_vec _ _ = Some _ |- _ => apply de_vec_head in H as [? H] end.
  destruct (dynamic_ports net) as [|p ps] eqn:Ed; [destruct (reserved_ports net) as [|p ps] eqn:Er; [done|]|];
    simplify_eq; simpl; eapply de_Network_ports; try done; [right|left]; by rewrite ?Ed, ?Er.
Qed.

Lemma extract_endpoint_port v a ep :
  de_Allocation v = Some a -> extract_endpoint a = Some ep -> port_ok (port ep).
Proof.
  intros Ha He. pose proof (de_Allocation_resources v a Ha) as [_ Hr]. unfold extract_endpoint in He.
  destruct (allocated_resources a) as [[[sh|]]|]; try by eapply fallback_endpoint_port.
  destruct (ports sh) as [|p ps] eqn:Ep; [by eapply fallback_endpoint_port|]. simplify_eq. simpl.
  destruct (Hr _ eq_refl) as [v' Hv']. unfold de_AllocatedResources in Hv'. de_inv Hv'.
  match goal with H : field_option _ _ _ = _ |- _ => apply field_option_inv in H as [? H]; unfold de_SharedResources in H; de_inv H end.
  simpl in Ep. subst.
  match goal with H : field_default _ (de_vec de_PortMapping) _ _ = _ |- _ => apply field_default_inv in H as [[_ ?]|(? & _ & H)] end; [done|].
  match goal with H : de_vec _ _ = Some _ |- _ => apply de_vec_head in H as [? H]; by apply de_PortMapping_range in H end.
Qed.

Lemma de_vec_elem {A} (de : Value.t -> option A) v l a :
  de_vec de v = Some l -> a ∈ l -> exists v', de v' = Some a.
Proof.
  unfold de_vec. destruct v; try done. intros Hm Ha. apply mapM_Some in Hm.
  apply list_elem_of_lookup in Ha as [i Hi]. by destruct (Forall2_lookup_r _ _ _ _ _ Hm Hi) as (v' & _ & ?); eauto.
Qed.

(** The reply of a scaling call, sorted as Nomad's documentation does. *)
Inductive scale_reply : Type :=
| Unreachable (e : reqwest_error)
| Accepted (resp : response)
| Blocked
| NotFound
| Rejected.

Definition sort_reply (r : res reqwest_error response) : scale_reply :=
  match r with
  | Err e => Unreachable e
  | Ok resp =>
      let body := text_or_default resp in
      if is_success (resp_status resp) then Accepted resp
      else if deployment_blocked (resp_status resp) body then Blocked
      else if bool_decide (resp_status resp = 404) || contains "job not found" (to_ascii_lowercase body)
      then NotFound
      else Rejected
  end.

Definition scale_request (self : NomadClient) (job group : string) (n : Z) (msg : string) : request :=
  mkRequest POST (nomad_base_url self +:+ "/v1/job/" +:+ job +:+ "/scale")
    (Some (ser_ScaleRequest (mkScaleRequest (Some n) (mkScaleTarget group) (Some msg)))).

Definition is_nomad_error (r : Result unit) : Prop := exists m, r = Err (NscaleError.Nomad m).

(** ** What the client promises *)

Section promises.
Context {W : Type} `{HttpClient W}.
Context (self : NomadClient).
Abbreviation TW := (Traced Call.t W).

Lemma emits_send me path body :
  emits (W := TW) (call self me path body) (fun tr r => exists reply,
    tr = [Call.Send (mkRequest me (nomad_url self path) body) reply] /\
    r = res_map_err NscaleError.Http reply).
Proof. unfold call, http, map_err. emit. intros ? r ->. emit. by exists r. Qed.

Lemma classify_not_found resp job path :
  is_nomad_error (Err (classify_job_error (W := TW) (resp_status resp) (text_or_default resp) "POST" path job))
  \/ classify_job_error (W := TW) (resp_status resp) (text_or_default resp) "POST" path job
     = NscaleError.JobNotFound job.
Proof. unfold classify_job_error. case_match; [by right|left]. by eexists. Qed.

(** A scale-down is one request, a count of zero for the job's group, and
    its result is the class of the reply: success only for a 2xx status; a
    deployment in progress only for Nomad's 400 that says so; "job not found"
    for a 404 or a body that says so; a Nomad error for any other status. *)
Theorem scale_down_classifies job group :
  emits (W := TW) (nomad_scale_down self job group) (fun tr r =>
    exists reply,
      tr = [Call.Send (scale_request self job group 0 "nscale: scaling to zero after idle") reply] /\
      match sort_reply reply with
      | Unreachable e => r = Err (NscaleError.Http e)
      | Accepted _ => r = Ok tt
      | Blocked => r = Err (NscaleError.DeploymentInProgress job "scale down")
      | NotFound => r = Err (NscaleError.JobNotFound job)
      | Rejected => is_nomad_error r
      end).
Proof.
  unfold nomad_scale_down. eapply emits_try; [apply emits_send|..].
  - intros tr resp ([reply|e] & -> & Hr); simplify_eq/=.
    destruct (is_success (resp_status reply)) eqn:Hs; simpl negb; cbv iota.
    + emit. exists (Ok reply). split; [done|]. simpl. by rewrite Hs.
    + cbv zeta. destruct (deployment_blocked _ _) eqn:Hb; emit; exists (Ok reply); (split; [done|]); simpl; rewrite Hs, Hb.
      * done.
      * unfold classify_job_error. destruct (_ || _); [done|by eexists].
  - intros tr e ([reply|e'] & -> & Hr); simplify_eq/=. by exists (Err e').
Qed.

(** A scale-up is one request with the wanted count, and its result is the
    class of the reply: a deployment in progress counts as success, because the
    job is coming up already; "job not found" and other errors are those of a
    scale-down; an accepted reply succeeds exactly when its body is readable. *)
Theorem scale_up_classifies job group n :
  emits (W := TW) (nomad_scale_up self job group n) (fun tr r =>
    exists reply,
      tr = [Call.Send (scale_request self job group n "nscale: scaling up on demand") reply] /\
      match sort_reply reply with
      | Unreachable e => r = Err (NscaleError.Http e)
      | Accepted resp =>
          r = Ok tt <-> exists v ws, resp_value resp = Ok v /\ de_ScaleResponse v = Some ws
      | Blocked => r = Ok tt
      | NotFound => r = Err (NscaleError.JobNotFound job)
      | Rejected => is_nomad_error r
      end).
Proof.
  unfold nomad_scale_up. eapply emits_try; [apply emits_send|..].
  - intros tr resp ([reply|e] & -> & Hr); simplify_eq/=.
    destruct (is_success (resp_status reply)) eqn:Hs; simpl negb; cbv iota.
    + eapply emits_try; [apply (emits_ret _ (fun tr a => tr = [] /\
          a = res_map_err NscaleError.Http (resp_json (W := TW) de_ScaleResponse reply))); by split|..].
      * intros tr ws [-> Hws]. emit. exists (Ok reply). split; [done|]. simpl. rewrite Hs.
        unfold resp_json in Hws. destruct (resp_value reply) as [v|e]; [|done].
        destruct (de_ScaleResponse v) eqn:Hv; [|done]. split; [eauto|done].
      * intros tr e [-> He]. exists (Ok reply). split; [done|]. simpl. rewrite Hs.
        split; [done|]. intros (v & ws & Hv & Hd). unfold resp_json in He. by rewrite Hv, Hd in He.
    + cbv zeta. destruct (deployment_blocked _ _) eqn:Hb; emit; exists (Ok reply); (split; [done|]); simpl; rewrite Hs, Hb.
      * done.
      * unfold classify_job_error. destruct (_ || _); [done|by eexists].
  - intros tr e ([reply|e'] & -> & Hr); simplify_eq/=. by exists (Err e').
Qed.

(** The endpoint a job is routed to is that of its first running
    allocation: the reply lists the allocations, the ones before it are not
    running, and the port is one a socket can have. *)
Theorem endpoint_of_first_running job ep (w w' : W) :
  nomad_get_healthy_endpoint self job w = (Ok (Some ep), w') ->
  exists resp v l1 a l2,
    http_send (mkRequest GET (nomad_base_url self +:+ "/v1/job/" +:+ job +:+ "/allocations") None) w
      = (Ok resp, w') /\
    is_success (resp_status resp) = true /\ resp_value resp = Ok v /\
    de_vec de_Allocation v = Some (l1 ++ a :: l2) /\
    Forall (fun b => is_running b = false) l1 /\ is_running a = true /\
    extract_endpoint a = Some ep /\ 0 <= port ep <= u16_max.
Proof.
  intros Hr. unfold nomad_get_healthy_endpoint in Hr. apply try_inv in Hr as (allocs & w1 & Hg & Hr).
  unfold get_allocations in Hg. apply try_inv in Hg as (resp & w2 & Hc & Hg).
  unfold call, http in Hc. apply map_err_ok in Hc.
  apply try_inv in Hg as (resp' & w3 & He & Hg). injection He as He <-.
  unfold ensure_job_success in He. destruct (is_success (resp_status resp)) eqn:Hs; simplify_eq.
  unfold decoded, ret, resp_json in Hg. destruct (resp_value resp') as [v|] eqn:Hv; [|done].
  destruct (de_vec de_Allocation v) as [l|] eqn:Hl; simplify_eq/=.
  destruct (list_find _ allocs) as [[i a]|] eqn:Hf; unfold ret in Hr; simplify_eq.
  apply list_find_Some in Hf as (Hi & Ha & Hbefore).
  exists resp', v, (take i allocs), a, (drop (S i) allocs).
  rewrite (take_drop_middle _ _ _ Hi).
  destruct (de_vec_elem _ _ _ a Hl) as [va Hva]; [by eapply list_elem_of_lookup_2|].
  pose proof (extract_endpoint_port va a ep Hva ltac:(done)) as [? ?].
  split_and!; try done. apply Forall_lookup. intros k b Hk. apply lookup_take_Some in Hk as [Hk Hlt].
  specialize (Hbefore _ _ Hk Hlt). by destruct (is_running b).
Qed.

End promises.

(** ** A concrete allocation list *)

Definition allocation (cs : string) (host_port : Z) : Value.t :=
  Value.Object [("ID", Value.Str "a1"); ("JobID", Value.Str "web"); ("ClientStatus", Value.Str cs);
    ("DesiredStatus", Value.Str "run"); ("TaskGroup", Value.Str "main");
    ("AllocatedResources", Value.Object [("Shared", Value.Object
       [("Ports", Value.Array [Value.Object [("Label", Value.Str "http"); ("Value", Value.PosInt host_port);
                                             ("To", Value.PosInt 80); ("HostIP", Value.Str "10.0.0.7")]])])])].

Definition allocations_reply : response :=
  mkResponse 200 [] (Ok "") (Ok (Value.Array [allocation "complete" 20000; allocation "running" 20001])).

Lemma endpoint_of_first_running_witness :
  exists resp v l1 a l2,
    http_send (W := Toy.world) (mkRequest GET "http://nomad/v1/job/web/allocations" None)
      (Toy.with_sends [Ok allocations_reply] Toy.quiet) = (Ok resp, Toy.quiet) /\
    is_success (resp_status resp) = true /\ resp_value resp = Ok v /\
    de_vec de_Allocation v = Some (l1 ++ a :: l2) /\
    Forall (fun b => is_running b = false) l1 /\ is_running a = true /\
    extract_endpoint a = Some (mkEndpoint "10.0.0.7" 20001) /\ 0 <= 20001 <= u16_max.
Proof.
  apply (endpoint_of_first_running (mkNomadClient "http://nomad") "web" (mkEndpoint "10.0.0.7" 20001)
           (Toy.with_sends [Ok allocations_reply] Toy.quiet) Toy.quiet).
  vm_compute. reflexivity.
Defined.
