(* ===== verification/Consul.v ===== *)
(** * Consul: service discovery

    Models [crates/nscale-consul/src]: the client ([client.rs]), the fallback
    registration ([catalog.rs]), the blocking health query ([health.rs]) and the
    trait implementation ([traits_impl.rs]).  The query loop takes fuel; running
    out of it is [None], and enough fuel gives a result (the termination theorem
    below). *)

From S2P Require Import Prelude Str F64 Core Json Http Waker Ifaces Trace Toy Nomad.
From Stdlib Require Import Ascii.
Local Open Scope Z_scope.

Record ConsulClient := mkConsulClient { consul_base_url : string }.

(** [ConsulClient::new]: the token becomes a default header. *)
Definition new_consul `{ClientBuilder} (addr : string) (token : option string) : Result ConsulClient :=
  match token ≫= invalid_header with
  | Some e => Err (NscaleError.Consul e)
  | None =>
      match build_error (match token with Some t => [("X-Consul-Token", t)] | None => [] end) with
      | Some e => Err (NscaleError.Http e)
      | None => Ok (mkConsulClient (trim_end_char "/"%char addr))
      end
  end.

Definition consul_url (c : ConsulClient) (path : string) : string := consul_base_url c +:+ path.

(** ** catalog.rs *)
Record ServiceWeights := mkWeights { passing : Z; warning : Z }.
Record ServiceRegistration := mkServiceRegistration {
  sr_id : string; sr_name : string; sr_address : string; sr_port : Z; sr_tags : list string;
  weights : option ServiceWeights }.

Definition ser_ServiceWeights (w : ServiceWeights) : Value.t :=
  Value.Object [("Passing", Value.PosInt (passing w)); ("Warning", Value.PosInt (warning w))].
Definition ser_ServiceRegistration (r : ServiceRegistration) : Value.t :=
  Value.Object ([("ID", Value.Str (sr_id r)); ("Name", Value.Str (sr_name r));
                 ("Address", Value.Str (sr_address r)); ("Port", Value.PosInt (sr_port r));
                 ("Tags", Value.Array (map Value.Str (sr_tags r)))]
                ++ ser_skip "Weights" (ser_ServiceWeights <$> weights r)).

Definition fallback_tag : string := "nscale-fallback".

(** ** health.rs *)
Record ServiceInfo := mkServiceInfo { si_id : string; si_address : string; si_port : Z; si_tags : list string }.
Record HealthEntry := mkHealthEntry { he_service : ServiceInfo }.

Definition de_ServiceInfo : Value.t -> option ServiceInfo := de_object (fun m =>
  i ← field de_string "ID" m;
  a ← field de_string "Address" m;
  p ← field (de_uint u16_max) "Port" m;
  t ← field_default [] (de_vec de_string) "Tags" m;
  Some (mkServiceInfo i a p t)).
Definition de_HealthEntry : Value.t -> option HealthEntry := de_object (fun m =>
  s ← field de_ServiceInfo "Service" m; Some (mkHealthEntry s)).

Definition is_fallback (e : HealthEntry) : bool :=
  bool_decide (fallback_tag ∈ si_tags (he_service e)).

Section consul.
Context {W : Type} `{HttpClient W} `{Clock W}.
Context (self : ConsulClient).

Definition consul_call (me : Method) (path : string) (body : option Value.t) : M W response :=
  http (http_send (mkRequest me (consul_url self path) body)).

Definition consul_reply (what : string) (resp : response) : Result unit :=
  if negb (is_success (resp_status resp))
  then Err (NscaleError.Consul (what +:+ " returned " +:+ status_display (resp_status resp)
                                +:+ ": " +:+ text_or_default resp))
  else Ok tt.

Definition fallback_registration (service_name : ServiceName) (ep : Endpoint) : ServiceRegistration :=
  mkServiceRegistration ("nscale-fallback-" +:+ service_name) service_name (host ep) (port ep)
    [fallback_tag] (Some (mkWeights 1 0)).

Definition register_fallback_service (service_name : ServiceName) (ep : Endpoint) : M W unit := (
  let? resp := consul_call PUT "/v1/agent/service/register"
                 (Some (ser_ServiceRegistration (fallback_registration service_name ep))) in
  ret (consul_reply "register fallback" resp))%st.

Definition deregister_fallback_service (service_name : ServiceName) : M W unit := (
  let service_id := "nscale-fallback-" +:+ service_name in
  let? resp := consul_call PUT ("/v1/agent/service/deregister/" +:+ service_id) None in
  ret (consul_reply "deregister fallback" resp))%st.

(** The index for the next blocking query. *)
Definition next_index (resp : response) (consul_index : Z) : Z :=
  match (v ← header "X-Consul-Index" (resp_headers resp); s ← header_str v; parse_uint u64_max s) with
  | Some i => i
  | None => consul_index
  end.

Definition health_path (service_name : ServiceName) (consul_index wait : Z) : string :=
  "/v1/health/service/" +:+ service_name +:+ "?passing=true&index=" +:+ show_Z consul_index
  +:+ "&wait=" +:+ show_Z (Z.max (as_secs wait) 1) +:+ "s".

Fixpoint wait_loop (fuel : nat) (service_name : ServiceName) (timeout deadline block_wait consul_index : Z)
    : ST W (option (Result Endpoint)) := (
  match fuel with
  | O => ret None
  | S n =>
      let* t := now in
      if bool_decide (deadline <= t)
      then ret (Some (Err (NscaleError.WakeTimeout service_name (as_secs_f64 timeout))))
      else
        let* t' := now in
        let remaining := Z.max 0 (deadline - t') in
        let wait := Z.min block_wait remaining in
        let* r := consul_call GET (health_path service_name consul_index wait) None in
        match r with
        | Err e => ret (Some (Err e))
        | Ok resp =>
            let ix := next_index resp consul_index in
            if negb (is_success (resp_status resp)) then
              do* sleep (duration_from_millis 500) in
              wait_loop n service_name timeout deadline block_wait ix
            else
              match resp_json (de_vec de_HealthEntry) resp with
              | Err e => ret (Some (Err (NscaleError.Http e)))
              | Ok entries =>
                  match list_find (fun e => is_fallback e = false) entries with
                  | Some (_, e) =>
                      ret (Some (Ok (mkEndpoint (si_address (he_service e)) (si_port (he_service e)))))
                  | None => wait_loop n service_name timeout deadline block_wait ix
                  end
              end
        end
  end)%st.

(** The deadline may not be an [Instant]: the addition panics. *)
Definition wait_for_healthy_service (fuel : nat) (service_name : ServiceName) (timeout : Z)
    : ST W (res Unwound.t (option (Result Endpoint))) := (
  let* t := now in
  match instant_add t timeout with
  | Err message => ret (Err (Unwound.Panicked message))
  | Ok deadline =>
      let* r := wait_loop fuel service_name timeout deadline (Z.min (duration_from_secs 10) timeout) 0 in
      ret (Ok r)
  end)%st.

(** ** traits_impl.rs: with the fuel the termination theorem asks for; the error
    stands for the two cases it excludes, the panic of the wake task that waits
    and the end of the fuel ([discovery_waits] below). *)
Definition consul_discovery : ServiceDiscovery W := {|
  register_fallback := register_fallback_service;
  deregister_fallback := deregister_fallback_service;
  wait_for_healthy s timeout := (
    let* r := wait_for_healthy_service (S (Z.to_nat timeout)) s timeout in
    ret (match r with Ok (Some r) => r | _ => Err (NscaleError.WakeTimeout s (as_secs_f64 timeout)) end))%st |}.

End consul.

(** ** What the wait promises *)

Section promises.
Context {W : Type} `{HttpClient W} `{Clock W}.
Context (self : ConsulClient).
Abbreviation TW := (Traced Call.t W).

(** Where an endpoint comes from: the last call is a query for the passing
    instances of the service, its reply a success, and the endpoint the address
    of an entry of the reply without the fallback tag. *)
Definition from_healthy (service : ServiceName) (tr : list Call.t) (r : option (Result Endpoint)) : Prop :=
  forall ep, r = Some (Ok ep) ->
    exists pre req resp v entries e rest,
      tr = pre ++ [Call.Send req (Ok resp)] /\ method req = GET /\ json_body req = None /\
      url req = consul_base_url self +:+ "/v1/health/service/" +:+ service +:+ "?passing=true&index=" +:+ rest /\
      is_success (resp_status resp) = true /\ resp_value resp = Ok v /\
      de_vec de_HealthEntry v = Some entries /\ e ∈ entries /\
      fallback_tag ∉ si_tags (he_service e) /\
      ep = mkEndpoint (si_address (he_service e)) (si_port (he_service e)).

Lemma from_healthy_app service tr tr' r : from_healthy service tr' r -> from_healthy service (tr ++ tr') r.
Proof.
  intros Hf ep Hr. destruct (Hf ep Hr) as (pre & req & resp & v & entries & e & rest & -> & ?).
  exists (tr ++ pre), req, resp, v, entries, e, rest. by rewrite <- app_assoc.
Qed.

Lemma emits_consul_call me path body :
  emits (W := TW) (consul_call self me path body) (fun tr r => exists reply,
    tr = [Call.Send (mkRequest me (consul_url self path) body) reply] /\
    r = res_map_err NscaleError.Http reply).
Proof. unfold consul_call, http, map_err. emit. intros ? r ->. emit. by exists r. Qed.
#[local] Hint Extern 1 (emits (consul_call _ _ _ _) _) => eapply emits_consul_call : emits.

Lemma emits_wait_loop fuel s timeout deadline bw ix :
  emits (W := TW) (wait_loop self fuel s timeout deadline bw ix) (from_healthy s).
Proof.
  revert ix. induction fuel as [|n IH]; intros ix; simpl; [by emit|].
  emit. intros ? t ->. case_bool_decide; [by emit|].
  emit. intros ? t' ->. emit. intros ? r (reply & -> & ->).
  destruct reply as [resp|e]; simpl res_map_err; cbv iota; [|by emit].
  destruct (is_success (resp_status resp)) eqn:Hs; simpl negb; cbv iota.
  - unfold resp_json. destruct (resp_value resp) as [v|e] eqn:Hv; [|by emit].
    destruct (de_vec de_HealthEntry v) as [entries|] eqn:Hd; [|by emit].
    destruct (list_find _ entries) as [[i e]|] eqn:Hf.
    + apply list_find_Some in Hf as (Hi & He & _). emit. intros ep [= <-].
      eexists [Call.Now t; Call.Now t'], _, resp, v, entries, e, _. split_and!; try done.
      * by eapply list_elem_of_lookup_2.
      * unfold is_fallback in He. by apply bool_decide_eq_false in He.
    + eapply emits_mono; [apply IH|]. intros. by do 3 apply from_healthy_app.
  - emit. intros ? [] ->. eapply emits_mono; [apply IH|]. intros. by do 4 apply from_healthy_app.
Qed.

(** C35.  Waking never routes a request back to nscale: an endpoint the wait
    returns is the address of an entry that does not carry the fallback tag, in a
    successful reply to the last call made, a GET of the service's health that
    asks for passing instances only. *)
Theorem wait_returns_real_instance fuel s timeout :
  emits (W := TW) (wait_for_healthy_service self fuel s timeout) (fun tr r =>
    forall found, r = Ok found -> from_healthy s tr found).
Proof.
  unfold wait_for_healthy_service. emit. intros ? t ->. destruct (instant_add t timeout) as [deadline|m]; [|by emit].
  eapply emits_bind; [apply emits_wait_loop|]. intros tr r Hr. apply emits_ret. rewrite app_nil_r.
  intros found [= <-]. by apply from_healthy_app.
Qed.

End promises.

(** ** Termination

    The wait ends because time passes: reading the clock gives the world's time
    and never turns it back, an HTTP round trip takes at least a nanosecond and
    a sleep its duration.  It ends soon after its deadline because nothing takes
    [lag] longer than it says, where a blocking query says its [wait] and a
    sixteenth of it, the jitter Consul documents. *)
Class TimePasses (W : Type) `{HttpClient W} `{Clock W} (time : W -> Z) (lag : Z) := {
  now_reads w : (now w).1 = time w;
  now_bounds w : time w <= time (now w).2 <= time w + lag;
  send_takes_time req w : time w + 1 <= time (http_send req w).2;
  sleep_bounds d w : time w + d <= time (sleep d w).2 <= time w + d + lag;
  query_in_time base service index secs w :
    let path := "/v1/health/service/" +:+ service +:+ "?passing=true&index=" +:+ show_Z index
                +:+ "&wait=" +:+ show_Z secs +:+ "s" in
    0 <= secs -> time (http_send (mkRequest GET (base +:+ path) None) w).2
      <= time w + duration_from_secs secs + duration_from_secs secs / 16 + lag }.

(** How long after its deadline a wait can end: a query started just before it
    still waits a second and the jitter, and may be followed by the pause after a
    failed reply. *)
Definition overrun : Z := duration_from_millis 1000 + duration_from_millis 1000 / 16 + duration_from_millis 500.

Section termination.
Context {W : Type} `{HttpClient W} `{Clock W} (time : W -> Z) (lag : Z) `{!TimePasses W time lag}.
Context (self : ConsulClient).

Lemma now_spec w : exists w', now w = (time w, w') /\ time w <= time w' <= time w + lag.
Proof.
  exists (now w).2. split; [|apply now_bounds]. rewrite <- (now_reads (lag := lag) w). by destruct (now w).
Qed.

(** The query's own wait, when it is started before the deadline. *)
Lemma query_wait t deadline bw :
  t < deadline + lag -> 0 <= lag -> bw <= duration_from_secs 10 ->
  let secs := Z.max (as_secs (Z.min bw (Z.max 0 (deadline - t)))) 1 in
  t + duration_from_secs secs + duration_from_secs secs / 16
    <= deadline + lag + duration_from_millis 1000 + duration_from_millis 1000 / 16.
Proof.
  intros Ht Hlag Hbw secs. unfold secs, as_secs, duration_from_secs, duration_from_millis, nanos_per_sec in *.
  set (d := Z.min bw (Z.max 0 (deadline - t))) in *.
  change (1000 * 1000000 / 16) with 62500000. pose proof (Z.mul_div_le d 1000000000 ltac:(lia)).
  assert (d / 1000000000 <= 10) by (apply Z.div_le_upper_bound; lia).
  destruct (Z.max_spec (d / 1000000000) 1) as [[_ ->]|[Hge ->]];
    [change (1 * 1000000000 / 16) with 62500000; lia|].
  pose proof (Z.mul_div_le (d / 1000000000 * 1000000000) 16 ltac:(lia)). lia.
Qed.

Lemma wait_loop_ends fuel s timeout deadline bw ix w :
  Z.max 0 (deadline - time w) < Z.of_nat fuel -> 0 <= lag -> bw <= duration_from_secs 10 ->
  time w <= deadline + overrun + 4 * lag ->
  exists r w', wait_loop self fuel s timeout deadline bw ix w = (Some r, w') /\
    time w' <= deadline + overrun + 5 * lag /\
    (r = Err (NscaleError.WakeTimeout s (as_secs_f64 timeout)) -> deadline <= time w').
Proof.
  intros Hf Hlag Hbw. revert ix w Hf. induction fuel as [|n IH]; intros ix w Hf Hw; [lia|]. simpl.
  destruct (now_spec w) as (w1 & E1 & T1). rewrite (bind_run _ _ _ _ _ E1).
  case_bool_decide as Hd; [eexists _, w1; split; [done|]; split; [lia|intros _; lia]|].
  destruct (now_spec w1) as (w2 & E2 & T2). rewrite (bind_run _ _ _ _ _ E2).
  unfold consul_call, http, map_err, health_path, consul_url.
  set (secs := Z.max (as_secs (Z.min bw (Z.max 0 (deadline - time w1)))) 1).
  pose proof (send_takes_time (TimePasses := TimePasses0) (mkRequest GET (consul_base_url self +:+
    ("/v1/health/service/" +:+ s +:+ "?passing=true&index=" +:+ show_Z ix +:+ "&wait=" +:+ show_Z secs +:+ "s")) None) w2) as T3.
  pose proof (query_in_time (TimePasses := TimePasses0) (consul_base_url self) s ix secs w2) as T4.
  cbv zeta in T4. specialize (T4 ltac:(lia)).
  pose proof (query_wait (time w1) deadline bw ltac:(lia) Hlag Hbw) as T5. fold secs in T5. cbv zeta in T5.
  destruct (http_send _ w2) as [reply w3] eqn:E3. simpl in T3, T4.
  assert (Hw3 : time w3 <= deadline + overrun - duration_from_millis 500 + 3 * lag) by (unfold overrun; lia).
  assert (H500 : 0 < duration_from_millis 500) by (unfold duration_from_millis; lia).
  unfold bind at 1. rewrite (bind_run _ _ _ _ _ E3). unfold ret at 1.
  destruct reply as [resp|e]; cbn [res_map_err]; [|by eexists _, w3; split; [done|]; split; [lia|]].
  destruct (is_success (resp_status resp)); cbn [negb].
  - destruct (resp_json (W := W) (de_vec de_HealthEntry) resp); [|by eexists _, w3; split; [done|]; split; [lia|]].
    match goal with |- context [list_find ?P ?l] => destruct (list_find P l) as [[? ?]|] end;
      [by eexists _, w3; split; [done|]; split; [lia|]|]. apply IH; lia.
  - pose proof (sleep_bounds (TimePasses := TimePasses0) (duration_from_millis 500) w3) as T6.
    destruct (sleep _ w3) as [[] w4] eqn:E4. simpl in T6. rewrite (bind_run _ _ _ _ _ E4).
    apply IH; lia.
Qed.

(** The whole wait. *)
Lemma wait_ends fuel s timeout w :
  0 <= lag -> 0 <= timeout < Z.of_nat fuel -> time w + timeout <= instant_max ->
  exists r w', wait_for_healthy_service self fuel s timeout w = (Ok (Some r), w') /\
    time w' <= time w + timeout + 1562500000 + 5 * lag /\
    (r = Err (NscaleError.WakeTimeout s (as_secs_f64 timeout)) -> time w + timeout <= time w').
Proof.
  intros Hlag Ht Hi. unfold wait_for_healthy_service, instant_add. destruct (now_spec w) as (w1 & E1 & T1).
  rewrite (bind_run _ _ _ _ _ E1), bool_decide_eq_true_2 by done.
  assert (Hover : overrun = 1562500000) by reflexivity.
  destruct (wait_loop_ends fuel s timeout (time w + timeout) (Z.min (duration_from_secs 10) timeout) 0 w1)
    as (r & w' & Hr & Hw' & Htimeout); [lia..|].
  exists r, w'. rewrite (bind_run _ _ _ _ _ Hr). split; [done|]. split; [lia|done].
Qed.

(** C34.  The wait ends in time: when time passes and its deadline is an
    [Instant], a wait with more fuel than its timeout has nanoseconds returns an
    endpoint or an error, whatever Consul replies and however often, at the
    latest 1.5625 seconds after its deadline and five times what the clock, the
    timer and the network lag; and it does not report its timeout before the
    deadline. *)
Theorem wait_terminates fuel s timeout w :
  0 <= lag -> 0 <= timeout < Z.of_nat fuel -> time w + timeout <= instant_max ->
  exists r w', wait_for_healthy_service self fuel s timeout w = (Ok (Some r), w') /\
    time w' <= time w + timeout + 1562500000 + 5 * lag /\
    (r = Err (NscaleError.WakeTimeout s (as_secs_f64 timeout)) -> time w + timeout <= time w').
Proof. apply wait_ends. Qed.

(** The discovery interface's wait is that wait: its fuel is enough, and it makes
    up an error only for a deadline that is no [Instant]. *)
Theorem discovery_waits s timeout w :
  0 <= lag -> 0 <= timeout -> time w + timeout <= instant_max ->
  let out := (wait_for_healthy (ServiceDiscovery := consul_discovery self) s timeout) w in
  wait_for_healthy_service self (S (Z.to_nat timeout)) s timeout w = (Ok (Some out.1), out.2).
Proof.
  intros Hlag Ht Hi.
  destruct (wait_ends (S (Z.to_nat timeout)) s timeout w Hlag ltac:(lia) Hi) as (r & w' & Hr & _).
  cbv zeta. cbn [wait_for_healthy consul_discovery]. by rewrite (bind_run _ _ _ _ _ Hr).
Qed.

End termination.

(** ** A world with time *)

Module Ticking.
(** A clock in nanoseconds, advanced by one at each request, and a Consul that
    knows the fallback only. *)
Definition fallback_entry : Value.t :=
  Value.Object [("Service", Value.Object [("ID", Value.Str "nscale-fallback-web");
    ("Address", Value.Str "10.0.0.1"); ("Port", Value.PosInt 8080);
    ("Tags", Value.Array [Value.Str fallback_tag])])].

#[global] Instance http_client : HttpClient Z := {|
  http_send _ := fun t => (Ok (mkResponse 200 [] (Ok "") (Ok (Value.Array [fallback_entry]))), t + 1);
  status_display := show_Z;
  decode_error _ := mkReqwestError "error decoding response body" false false None |}.
#[global] Instance clock : Clock Z := {| now := fun t => (t, t); sleep d := fun t => (tt, t + d) |}.
#[global] Instance passes : TimePasses Z (fun t => t) 1.
Proof.
  split; intros; simpl; try lia. unfold duration_from_secs, nanos_per_sec.
  pose proof (Z.div_pos (secs * 1000000000) 16 ltac:(lia) ltac:(lia)). lia.
Defined.
End Ticking.

Lemma wait_terminates_witness :
  wait_for_healthy_service (W := Z) (mkConsulClient "http://consul") 21 "web" 20 0
    = (Ok (Some (Err (NscaleError.WakeTimeout "web" (as_secs_f64 20)))), 20) /\
  exists r w', wait_for_healthy_service (W := Z) (mkConsulClient "http://consul") 21 "web" 20 0 = (Ok (Some r), w') /\
    w' <= 0 + 20 + 1562500000 + 5 * 1 /\
    (r = Err (NscaleError.WakeTimeout "web" (as_secs_f64 20)) -> 0 + 20 <= w').
Proof.
  split; [vm_compute; reflexivity|].
  apply (wait_terminates (fun t : Z => t) 1 (mkConsulClient "http://consul") 21 "web" 20 0);
    [lia|lia|vm_compute; discriminate].
Defined.
