(* ===== verification/JobMutator.v ===== *)
(** * JobMutator: pointing a job's routers at nscale

    Models [crates/nscale-nomad/src/job_mutator.rs] on [serde_json] values.  The
    function mutates the job in place and returns early on an error; its only
    caller drops the job then, so an error carries no job here.  A [BTreeSet] of
    strings is the sorted list of its elements. *)

From S2P Require Import Prelude Str F64 Core Json.
From Stdlib Require Import Ascii.
Local Open Scope Z_scope.

Definition TRAEFIK_ENABLE_TAG : string := "traefik.enable=true".
Definition ROUTER_PREFIX : string := "traefik.http.routers.".

(** [BTreeSet::insert] on strings, ordered by bytes. *)
Fixpoint set_insert (x : string) (l : list string) : list string :=
  match l with
  | [] => [x]
  | y :: l' =>
      match String.compare x y with
      | Eq => l
      | Lt => x :: l
      | Gt => y :: set_insert x l'
      end
  end.

Definition strs (tags : list Value.t) : list string := omap as_str tags.

(** The router a tag names. *)
Definition router_of (tag : string) : option string :=
  rest ← strip_prefix ROUTER_PREFIX tag;
  p ← split_once "."%char rest;
  Some p.1.

Definition collect_router_names (tags : list Value.t) : list string :=
  foldr set_insert [] (omap router_of (strs tags)).

Definition service_prefix (router_name : string) : string :=
  ROUTER_PREFIX +:+ router_name +:+ ".service=".

Arguments service_prefix _ : simpl never.

Definition is_service_tag (router_name : string) (v : Value.t) : bool :=
  match as_str v with
  | Some tag => starts_with (service_prefix router_name) tag
  | None => false
  end.

(** The indexes of the elements that satisfy [P], counted from [i]. *)
Fixpoint indexes {A} (P : A -> bool) (i : nat) (l : list A) : list nat :=
  match l with
  | [] => []
  | x :: l' => if P x then i :: indexes P (S i) l' else indexes P (S i) l'
  end.

(** [for index in matching_indexes.drain(1..).rev() { tags.remove(index) }]. *)
Definition remove_all {A} (ixs : list nat) (l : list A) : list A :=
  foldr (fun i l => delete i l) l ixs.

Definition upsert_router_service_tag (file_provider_service router_name : string)
    (tags : list Value.t) : list Value.t :=
  let desired := service_prefix router_name +:+ file_provider_service in
  match indexes (is_service_tag router_name) 0 tags with
  | first_index :: rest =>
      let tags' :=
        if bool_decide ((tags !! first_index ≫= as_str) <> Some desired)
        then <[first_index := Value.Str desired]> tags else tags in
      remove_all rest tags'
  | [] => tags ++ [Value.Str desired]
  end.

(** The registrations made so far, with the set that keeps them distinct. *)
Record found := mkFound {
  seen : gset (string * string * string);
  registrations : list JobRegistration }.

(** A pass over a value that may fail and collects registrations. *)
Definition pass (A : Type) : Type := A -> found -> Result (A * found).

Fixpoint for_values {A} (f : pass A) (l : list A) (st : found) : Result (list A * found) :=
  match l with
  | [] => Ok ([], st)
  | x :: l' =>
      res_bind (f x st) (fun '(x', st') =>
      res_bind (for_values f l' st') (fun '(l'', st'') => Ok (x' :: l'', st'')))
  end.

(** [if let Some(array) = obj.get_mut(key).and_then(as_array_mut)]. *)
Definition on_array (key : string) (f : pass (list Value.t)) : pass obj := fun m st =>
  match obj_get key m ≫= as_array with
  | Some l => res_bind (f l st) (fun '(l', st') => Ok (obj_insert key (Value.Array l') m, st'))
  | None => Ok (m, st)
  end.

Definition add_registration (reg : JobRegistration) (st : found) : found :=
  let k := (job_id reg, service_name reg, nomad_group reg) in
  if bool_decide (k ∈ seen st) then st
  else mkFound ({[k]} ∪ seen st) (registrations st ++ [reg]).

Definition has_traefik_enabled (tags : list Value.t) : bool :=
  bool_decide (TRAEFIK_ENABLE_TAG ∈ strs tags).

Definition route (file_provider_service : string) (tags : list Value.t) : list Value.t :=
  foldl (fun tags r => upsert_router_service_tag file_provider_service r tags) tags
    (collect_router_names tags).

Section mutator.
Context (file_provider_service : string).

(** One service of [inject_service_tags]. *)
Definition inject_service_tag (job_id group_name : string) : pass Value.t := fun service st =>
  match service with
  | Value.Object m =>
      match obj_get "Name" m ≫= as_str with
      | Some service_name =>
          let m := match obj_get "Tags" m with
                   | Some _ => m
                   | None => obj_insert "Tags" (Value.Array []) m
                   end in
          match obj_get "Tags" m ≫= as_array with
          | Some tags =>
              if has_traefik_enabled tags then
                if bool_decide (collect_router_names tags = []) then
                  Err (NscaleError.Nomad ("traefik-enabled service '" +:+ service_name +:+ "' in group '"
                    +:+ group_name +:+ "' of job '" +:+ job_id +:+ "' is missing explicit router tags"))
                else
                  Ok (Value.Object (obj_insert "Tags" (Value.Array (route file_provider_service tags)) m),
                      add_registration (mkReg job_id service_name group_name) st)
              else Ok (Value.Object m, st)
          | None =>
              Err (NscaleError.Nomad ("service '" +:+ service_name +:+ "' in group '" +:+ group_name
                +:+ "' of job '" +:+ job_id +:+ "' has non-array Tags"))
          end
      | None =>
          Err (NscaleError.Nomad ("service in group '" +:+ group_name +:+ "' of job '" +:+ job_id
            +:+ "' is missing Name"))
      end
  | _ => Err (NscaleError.Nomad ("service in group '" +:+ group_name +:+ "' of job '" +:+ job_id
           +:+ "' is not an object"))
  end.

Definition inject_service_tags (job_id group_name : string) : pass (list Value.t) :=
  for_values (inject_service_tag job_id group_name).

Definition inject_task (job_id group_name : string) : pass Value.t := fun task st =>
  match task with
  | Value.Object m =>
      res_bind (on_array "Services" (inject_service_tags job_id group_name) m st)
        (fun '(m', st') => Ok (Value.Object m', st'))
  | _ => Err (NscaleError.Nomad ("task in group '" +:+ group_name +:+ "' of job '" +:+ job_id
           +:+ "' is not an object"))
  end.

Definition inject_task_group (job_id : string) : pass Value.t := fun task_group st =>
  match task_group with
  | Value.Object m =>
      match obj_get "Name" m ≫= as_str with
      | Some group_name =>
          res_bind (on_array "Services" (inject_service_tags job_id group_name) m st) (fun '(m1, st1) =>
          res_bind (on_array "Tasks" (for_values (inject_task job_id group_name)) m1 st1) (fun '(m2, st2) =>
          Ok (Value.Object m2, st2)))
      | None => Err (NscaleError.Nomad ("task group in job '" +:+ job_id +:+ "' is missing Name"))
      end
  | _ => Err (NscaleError.Nomad ("task group in job '" +:+ job_id +:+ "' is not an object"))
  end.

(** The job's id: its [ID], or its [Name]. *)
Definition parsed_job_id (m : obj) : option string :=
  match obj_get "ID" m ≫= as_str with
  | Some id => Some id
  | None => obj_get "Name" m ≫= as_str
  end.

Definition inject_nscale_tags (job : Value.t) : Result (Value.t * list JobRegistration) :=
  match job with
  | Value.Object m =>
      match parsed_job_id m with
      | Some job_id =>
          match obj_get "TaskGroups" m ≫= as_array with
          | Some groups =>
              res_bind (for_values (inject_task_group job_id) groups (mkFound ∅ [])) (fun '(groups', st) =>
              Ok (Value.Object (obj_insert "TaskGroups" (Value.Array groups') m), registrations st))
          | None => Err (NscaleError.Nomad ("parsed job '" +:+ job_id +:+ "' is missing TaskGroups"))
          end
      | None => Err (NscaleError.Nomad "parsed job is missing ID")
      end
  | _ => Err (NscaleError.Nomad "parsed job is not a JSON object")
  end.

End mutator.

(** ** Statements about a job *)

(** The services a job's routers belong to, with their groups. *)
Definition array_of (key : string) (v : Value.t) : list Value.t :=
  default [] (get key v ≫= as_array).

Definition group_services (g : Value.t) : list Value.t :=
  array_of "Services" g ++ (array_of "Tasks" g ≫= array_of "Services").

Definition job_services (job : Value.t) : list Value.t := array_of "TaskGroups" job ≫= group_services.

Definition tags_of (service : Value.t) : list Value.t := array_of "Tags" service.

(** Every router of the service is routed to the file provider's service, by one
    tag. *)
Definition routed (file_provider_service : string) (service : Value.t) : Prop :=
  has_traefik_enabled (tags_of service) = true ->
  collect_router_names (tags_of service) <> [] /\
  forall r, r ∈ collect_router_names (tags_of service) ->
    filter (fun v => is_service_tag r v = true) (tags_of service)
    = [Value.Str (service_prefix r +:+ file_provider_service)].

(** The tags that are no router's service tag. *)
Definition other_tag (v : Value.t) : bool :=
  match as_str v ≫= router_of with
  | Some r => negb (is_service_tag r v)
  | None => true
  end.

(** ** Lemmas: one router *)

(** What [upsert] does, without indexes: the first element that satisfies [P]
    becomes [d], the later ones go; [d] comes last when there is none. *)
Fixpoint upsert {A} (P : A -> bool) (d : A) (l : list A) : list A :=
  match l with
  | [] => [d]
  | x :: l' => if P x then d :: filter (fun y => P y = false) l' else x :: upsert P d l'
  end.

Lemma indexes_shift {A} (P : A -> bool) i l : indexes P (S i) l = S <$> indexes P i l.
Proof.
  revert i. induction l as [|x l IH]; intros i; simpl; [done|].
  destruct (P x); simpl; by rewrite IH.
Qed.

Lemma remove_all_shift {A} (ixs : list nat) (x : A) l :
  remove_all (S <$> ixs) (x :: l) = x :: remove_all ixs l.
Proof.
  induction ixs as [|i ixs IH]; [done|].
  change (delete (S i) (remove_all (S <$> ixs) (x :: l)) = x :: delete i (remove_all ixs l)).
  by rewrite IH.
Qed.

Lemma remove_all_indexes {A} (P : A -> bool) l :
  remove_all (indexes P 0 l) l = filter (fun y => P y = false) l.
Proof.
  induction l as [|x l IH]; simpl; [done|]. rewrite indexes_shift, filter_cons. destruct (P x); simpl.
  - by rewrite remove_all_shift.
  - by rewrite remove_all_shift, IH.
Qed.

Section upsert_facts.
Context {A : Type} (P : A -> bool) (d : A) (Hd : P d = true).
Implicit Types (l : list A) (Q : A -> bool).

Lemma filter_upsert l : filter (fun v => P v = true) (upsert P d l) = [d].
Proof using Hd.
  induction l as [|x l IH]; simpl.
  - by rewrite filter_cons, Hd.
  - destruct (P x) eqn:Hx.
    + rewrite filter_cons, decide_True by done. f_equal. clear IH.
      induction l as [|y l IH]; [done|]. rewrite !filter_cons. destruct (P y) eqn:Hy; simpl; [done|].
      by rewrite filter_cons, Hy.
    + rewrite filter_cons, Hx. simpl. by rewrite IH.
Qed.

(** Elements that do not satisfy [P] are kept, in order. *)
Lemma filter_upsert_other Q l :
  (forall v, P v = true -> Q v = false) ->
  filter (fun v => Q v = true) (upsert P d l) = filter (fun v => Q v = true) l.
Proof using Hd.
  intros HQ. induction l as [|x l IH]; simpl; [by rewrite filter_cons, (HQ d Hd)|].
  destruct (P x) eqn:Hx; rewrite !filter_cons.
  - rewrite (HQ d Hd), (HQ x Hx). simpl. clear IH.
    induction l as [|y l IH]; [done|]. rewrite !filter_cons. destruct (P y) eqn:Hy; simpl.
    + by rewrite (HQ y Hy).
    + rewrite filter_cons. destruct (Q y); simpl; by rewrite IH.
  - destruct (Q x); simpl; by rewrite IH.
Qed.

Lemma upsert_id l : filter (fun v => P v = true) l = [d] -> upsert P d l = l.
Proof. clear Hd.
  induction l as [|x l IH]; simpl; rewrite ?filter_cons; [done|].
  destruct (P x) eqn:Hx; simpl.
  - intros [= -> Hf]. f_equal. clear IH. induction l as [|y l IH]; [done|].
    rewrite !filter_cons in *. destruct (P y); simpl in *; [done|]. by rewrite IH.
  - intros Hf. by rewrite IH.
Qed.

Lemma elem_of_upsert v l : v ∈ upsert P d l -> v = d \/ v ∈ l.
Proof. clear Hd.
  induction l as [|x l IH]; simpl; [set_solver|].
  destruct (P x); rewrite !elem_of_cons; [|naive_solver].
  rewrite list_elem_of_filter. naive_solver.
Qed.

Lemma upsert_elem_of v l : v ∈ l -> P v = true \/ v ∈ upsert P d l.
Proof. clear Hd.
  induction l as [|x l IH]; simpl; [set_solver|]. rewrite elem_of_cons.
  destruct (P x) eqn:Hx; rewrite elem_of_cons, ?list_elem_of_filter; [|naive_solver].
  intros [->|Hv]; [by left|]. destruct (P v) eqn:E; [by left|auto].
Qed.

Lemma d_in_upsert l : d ∈ upsert P d l.
Proof using Hd.
  assert (H : d ∈ filter (fun v => P v = true) (upsert P d l)) by (rewrite filter_upsert; left).
  by apply list_elem_of_filter in H as [_ H].
Qed.
End upsert_facts.

(** The tag [upsert_router_service_tag] puts. *)
Definition desired_tag (fps r : string) : Value.t := Value.Str (service_prefix r +:+ fps).

Lemma desired_is_service_tag fps r : is_service_tag r (desired_tag fps r) = true.
Proof. apply starts_with_app. Qed.

Lemma upsert_router_eq fps r tags :
  upsert_router_service_tag fps r tags = upsert (is_service_tag r) (desired_tag fps r) tags.
Proof.
  unfold upsert_router_service_tag, desired_tag. generalize (service_prefix r +:+ fps). intros d.
  induction tags as [|x tags IH]; [done|]. simpl. rewrite indexes_shift.
  destruct (is_service_tag r x) eqn:Hx; simpl.
  - assert (Hhead : (if bool_decide ((Some x ≫= as_str) <> Some d) then Value.Str d :: tags else x :: tags)
                    = Value.Str d :: tags).
    { case_bool_decide as Hd; [done|]. simpl in Hd. unfold as_str in Hd. by destruct x; simplify_eq. }
    simpl in Hhead. rewrite Hhead. by rewrite remove_all_shift, remove_all_indexes.
  - rewrite <- IH. destruct (indexes (is_service_tag r) 0 tags) as [|i ixs]; simpl; [done|].
    case_bool_decide; by rewrite remove_all_shift.
Qed.

(** ** Lemmas: all routers *)

Lemma router_of_no_dot tag r : router_of tag = Some r -> char_in "."%char r = false.
Proof.
  unfold router_of. destruct (strip_prefix ROUTER_PREFIX tag) as [rest|]; simpl; [|done].
  destruct (split_once _ rest) as [[a b]|] eqn:E; simpl; [|done]. intros [= <-].
  by apply split_once_sound in E as [_ ?].
Qed.

Definition value_router (v : Value.t) : option string := as_str v ≫= router_of.

Lemma service_tag_router r v : char_in "."%char r = false -> is_service_tag r v = true -> value_router v = Some r.
Proof.
  intros Hr Hv. unfold is_service_tag, value_router in *. destruct (as_str v) as [tag|]; simpl; [|done].
  apply starts_with_spec in Hv as [u ->]. unfold router_of, service_prefix.
  rewrite !sapp_assoc, strip_prefix_app. simpl.
  change (".service=" +:+ u) with (String "."%char ("service=" +:+ u)).
  by rewrite split_once_complete.
Qed.

Lemma elem_of_set_insert x y l : x ∈ set_insert y l <-> x = y \/ x ∈ l.
Proof.
  induction l as [|z l IH]; simpl; [set_solver|].
  destruct (String.compare y z) eqn:E.
  - apply String.compare_eq_iff in E as ->. set_solver.
  - set_solver.
  - set_solver.
Qed.

Lemma elem_of_collect r tags :
  r ∈ collect_router_names tags <-> exists v, v ∈ tags /\ value_router v = Some r.
Proof.
  unfold collect_router_names, strs.
  assert (H : forall l, r ∈ foldr set_insert [] l <-> r ∈ l).
  { induction l as [|x l IH]; simpl; [done|]. rewrite elem_of_set_insert, elem_of_cons. naive_solver. }
  rewrite H, list_elem_of_omap. setoid_rewrite list_elem_of_omap. unfold value_router. split.
  - intros (tag & (v & Hv & Ht) & Hr). exists v. by rewrite Ht.
  - intros (v & Hv & Hr). destruct (as_str v) as [tag|] eqn:E; [|done]. eauto 6.
Qed.

Lemma collect_no_dot r tags : r ∈ collect_router_names tags -> char_in "."%char r = false.
Proof.
  intros (v & _ & Hv)%elem_of_collect. unfold value_router in Hv.
  destruct (as_str v); [by eapply router_of_no_dot|done].
Qed.

Section routing.
Context (fps : string).
Implicit Types (tags : list Value.t).

Lemma collect_upsert r r' tags :
  r ∈ collect_router_names tags ->
  r' ∈ collect_router_names (upsert_router_service_tag fps r tags) <-> r' ∈ collect_router_names tags.
Proof.
  intros Hr. pose proof (collect_no_dot r tags Hr) as Hdot. rewrite upsert_router_eq, !elem_of_collect.
  pose proof (service_tag_router r _ Hdot (desired_is_service_tag fps r)) as HD. split.
  - intros (v & [->|Hv]%elem_of_upsert & Hvr); [|eauto].
    rewrite HD in Hvr. simplify_eq. by apply elem_of_collect in Hr.
  - intros (v & Hv & Hvr).
    destruct (upsert_elem_of (is_service_tag r) (desired_tag fps r) v tags Hv) as [Hp|?]; [|eauto].
    rewrite (service_tag_router r v Hdot Hp) in Hvr. simplify_eq. eexists. split; [by apply d_in_upsert, desired_is_service_tag|done].
Qed.

(** A property of tag lists that survives the routing of every router. *)
Lemma route_ind (I : list Value.t -> Prop) tags :
  I tags ->
  (forall r l, r ∈ collect_router_names tags -> r ∈ collect_router_names l -> I l ->
     I (upsert_router_service_tag fps r l)) ->
  I (route fps tags).
Proof.
  intros H0 Hstep. unfold route.
  cut (forall names l, (forall r, r ∈ names -> r ∈ collect_router_names tags) ->
    (forall r, r ∈ collect_router_names tags -> r ∈ collect_router_names l) -> I l ->
    I (foldl (fun tags r => upsert_router_service_tag fps r tags) l names)); [intros Hc; by apply Hc|].
  induction names as [|r names IH]; intros l Hn Hl HI; simpl; [done|].
  assert (r ∈ collect_router_names tags) by (apply Hn; left).
  apply IH; [intros; apply Hn; by right| |].
  - intros r' Hr'. apply collect_upsert; auto.
  - apply Hstep; auto.
Qed.

Lemma collect_route r tags :
  r ∈ collect_router_names (route fps tags) <-> r ∈ collect_router_names tags.
Proof.
  apply (route_ind (fun l => r ∈ collect_router_names l <-> r ∈ collect_router_names tags)); [done|].
  intros r' l Hr' Hl HI. by rewrite collect_upsert.
Qed.

Lemma route_other (Q : Value.t -> bool) tags :
  (forall r v, char_in "."%char r = false -> is_service_tag r v = true -> Q v = false) ->
  filter (fun v => Q v = true) (route fps tags) = filter (fun v => Q v = true) tags.
Proof.
  intros HQ. apply (route_ind (fun l => filter (fun v => Q v = true) l = filter (fun v => Q v = true) tags)); [done|].
  intros r l Hr Hl HI. rewrite upsert_router_eq, filter_upsert_other; [done|apply desired_is_service_tag|].
  intros v. apply HQ. by eapply collect_no_dot.
Qed.

(** After the routing, each router has its one service tag. *)
Lemma route_service_tags r tags :
  r ∈ collect_router_names tags ->
  filter (fun v => is_service_tag r v = true) (route fps tags)
  = [desired_tag fps r].
Proof.
  intros Hr. unfold route.
  cut (forall names l, (forall r', r' ∈ names -> char_in "."%char r' = false) ->
    r ∈ names \/ filter (fun v => is_service_tag r v = true) l = [desired_tag fps r] ->
    filter (fun v => is_service_tag r v = true)
      (foldl (fun tags r => upsert_router_service_tag fps r tags) l names)
    = [desired_tag fps r]).
  { intros Hc. apply Hc; [intros r' ?; by eapply collect_no_dot|by left]. }
  pose proof (collect_no_dot r tags Hr) as Hrd.
  induction names as [|r' names IH]; intros l Hd Hl; simpl; [set_solver|].
  apply IH; [intros; apply Hd; by right|]. rewrite upsert_router_eq.
  destruct (decide (r' = r)) as [->|Hne]; [right; apply filter_upsert, desired_is_service_tag|].
  destruct Hl as [Hin|Hl]; [left; set_solver|]. right. rewrite filter_upsert_other; [done|apply desired_is_service_tag|].
  intros v Hv. destruct (is_service_tag r v) eqn:E; [|done].
  apply service_tag_router in Hv; [|apply Hd; left]. apply service_tag_router in E; [|done]. congruence.
Qed.

Lemma route_route tags : route fps (route fps tags) = route fps tags.
Proof.
  apply (route_ind (fun l => l = route fps tags)); [done|].
  intros r l Hr Hl ->. rewrite upsert_router_eq. apply upsert_id.
  apply route_service_tags. by apply collect_route.
Qed.

End routing.

(** ** Lemmas: passes over a job *)

Definition reg_key (reg : JobRegistration) : string * string * string :=
  (job_id reg, service_name reg, nomad_group reg).

(** The registrations are distinct, of this job, and exactly those seen. *)
Definition found_ok (job : string) (st : found) : Prop :=
  NoDup (registrations st) /\
  (forall reg, reg ∈ registrations st -> job_id reg = job) /\
  forall reg, reg_key reg ∈ seen st <-> reg ∈ registrations st.

(** A pass that succeeds is repeatable, keeps the registrations well formed, only
    adds to them, and leaves a value that satisfies [Q]. *)
Definition good {A} (job : string) (f : pass A) (Q : A -> list JobRegistration -> Prop) : Prop :=
  forall x st x' st', f x st = Ok (x', st') -> found_ok job st ->
    f x' st = Ok (x', st') /\ found_ok job st' /\
    registrations st ⊆ registrations st' /\ Q x' (registrations st').

Definition monotone {A} (Q : A -> list JobRegistration -> Prop) : Prop :=
  forall x l l', l ⊆ l' -> Q x l -> Q x l'.

Lemma res_bind_ok {E A B} (r : res E A) (k : A -> res E B) b :
  res_bind r k = Ok b <-> exists a, r = Ok a /\ k a = Ok b.
Proof. destruct r as [a|e]; simpl; split; [eauto|by intros (? & [= <-] & ?)|done|by intros (? & ? & _)]. Qed.

Lemma good_for_values {A} job (f : pass A) Q :
  monotone Q -> good job f Q -> good job (for_values f) (fun l regs => Forall (fun x => Q x regs) l).
Proof.
  intros Hm Hf l. induction l as [|x l IH]; intros st l' st' Hrun Hok; simpl in Hrun.
  - simplify_eq. split_and!; try done.
  - apply res_bind_ok in Hrun as ([x1 st1] & Hx & Hrun).
    apply res_bind_ok in Hrun as ([l1 st2] & Hl & Hrun). simplify_eq.
    destruct (Hf _ _ _ _ Hx Hok) as (Hx' & Hok1 & Hsub1 & HQ1).
    destruct (IH _ _ _ Hl Hok1) as (Hl' & Hok2 & Hsub2 & HQ2).
    split_and!; [simpl; by rewrite Hx'; simpl; rewrite Hl'|done|by etrans|].
    constructor; [by eapply Hm|done].
Qed.

Lemma obj_insert_id k v m : obj_get k m = Some v -> obj_insert k v m = m.
Proof.
  induction m as [|[k' v'] m IH]; simpl; [done|].
  destruct (bool_decide (k = k')) eqn:E.
  - apply bool_decide_eq_true in E. by intros [= ->]; subst.
  - intros H. by rewrite IH.
Qed.

Definition array_at (key : string) (m : obj) : option (list Value.t) := obj_get key m ≫= as_array.

Lemma array_at_insert key l m : array_at key (obj_insert key (Value.Array l) m) = Some l.
Proof. unfold array_at. by rewrite obj_get_insert. Qed.

Lemma array_at_insert_ne key key' v m : key <> key' -> array_at key (obj_insert key' v m) = array_at key m.
Proof. intros. unfold array_at. by rewrite obj_get_insert_ne. Qed.

(** What a pass over one array of an object does to the object. *)
Lemma on_array_ok key (f : pass (list Value.t)) m st m' st' :
  on_array key f m st = Ok (m', st') ->
  (array_at key m = None /\ m' = m /\ st' = st) \/
  exists l l', array_at key m = Some l /\ f l st = Ok (l', st') /\
    m' = obj_insert key (Value.Array l') m.
Proof.
  unfold on_array, array_at. destruct (obj_get key m ≫= as_array) as [l|]; [|by left; simplify_eq].
  intros ([l' st1] & Hf & ?)%res_bind_ok. simplify_eq. right. by exists l, l'.
Qed.

(** Running the pass again on an object that holds its result. *)
Lemma on_array_again key (f : pass (list Value.t)) m st st' l' :
  array_at key m = Some l' -> f l' st = Ok (l', st') -> obj_get key m = Some (Value.Array l') ->
  on_array key f m st = Ok (m, st').
Proof.
  intros Ha Hf Hg. unfold on_array. unfold array_at in Ha. rewrite Ha, Hf. simpl.
  by rewrite obj_insert_id.
Qed.

Lemma good_on_array job key f Q :
  good job f Q ->
  good job (on_array key f) (fun m regs => forall l, array_at key m = Some l -> Q l regs).
Proof.
  intros Hf m st m' st' Hrun Hok. destruct (on_array_ok _ _ _ _ _ _ Hrun) as [(Hn & -> & ->)|(l & l' & Hl & Hrl & ->)].
  - split_and!; try done. by rewrite Hn.
  - destruct (Hf _ _ _ _ Hrl Hok) as (Hl' & Hok' & Hsub & HQ). split_and!; try done.
    + apply (on_array_again key f _ st st' l'); [apply array_at_insert|done|apply obj_get_insert].
    + intros l0. rewrite array_at_insert. by intros [= <-].
Qed.

(** Two passes over different arrays of one object. *)
Lemma good_two_arrays job k1 k2 f1 f2 Q1 Q2 m st m1 st1 m2 st2 :
  k1 <> k2 -> good job f1 Q1 -> good job f2 Q2 -> monotone Q1 ->
  on_array k1 f1 m st = Ok (m1, st1) -> on_array k2 f2 m1 st1 = Ok (m2, st2) -> found_ok job st ->
  on_array k1 f1 m2 st = Ok (m2, st1) /\ on_array k2 f2 m2 st1 = Ok (m2, st2) /\
  found_ok job st2 /\ registrations st ⊆ registrations st2 /\
  (forall l, array_at k1 m2 = Some l -> Q1 l (registrations st2)) /\
  (forall l, array_at k2 m2 = Some l -> Q2 l (registrations st2)) /\
  forall k, k <> k1 -> k <> k2 -> obj_get k m2 = obj_get k m.
Proof.
  intros Hne Hf1 Hf2 Hm1 Hr1 Hr2 Hok.
  destruct (good_on_array job k1 f1 Q1 Hf1 _ _ _ _ Hr1 Hok) as (_ & Hok1 & Hsub1 & HQ1).
  destruct (good_on_array job k2 f2 Q2 Hf2 _ _ _ _ Hr2 Hok1) as (Hagain2 & Hok2 & Hsub2 & HQ2).
  assert (Hg1 : obj_get k1 m2 = obj_get k1 m1).
  { destruct (on_array_ok _ _ _ _ _ _ Hr2) as [(_ & -> & _)|(l & l' & _ & _ & ->)]; [done|].
    by rewrite obj_get_insert_ne. }
  assert (Ha1 : array_at k1 m2 = array_at k1 m1) by (unfold array_at; by rewrite Hg1).
  split_and!; try done.
  - destruct (on_array_ok _ _ _ _ _ _ Hr1) as [(Hn & -> & ->)|(l & l' & Hl & Hrl & ->)].
    + unfold on_array. unfold array_at in *. by rewrite Ha1, Hn.
    + destruct (Hf1 _ _ _ _ Hrl Hok) as (Hl' & _).
      apply (on_array_again k1 f1 m2 st st1 l'); [|done|].
      * by rewrite Ha1, array_at_insert.
      * by rewrite Hg1, obj_get_insert.
  - by etrans.
  - intros l. rewrite Ha1. intros Hl. eapply Hm1; [done|by apply HQ1].
  - intros k Hk1 Hk2.
    destruct (on_array_ok _ _ _ _ _ _ Hr2) as [(_ & -> & _)|(? & ? & _ & _ & ->)];
      destruct (on_array_ok _ _ _ _ _ _ Hr1) as [(_ & -> & _)|(? & ? & _ & _ & ->)];
      by rewrite ?obj_get_insert_ne.
Qed.

(** ** Lemmas: the passes of a job *)

Lemma enabled_route fps tags : has_traefik_enabled (route fps tags) = has_traefik_enabled tags.
Proof.
  set (Q v := match as_str v with Some s => bool_decide (s = TRAEFIK_ENABLE_TAG) | None => false end).
  assert (Hmem : forall l, TRAEFIK_ENABLE_TAG ∈ strs l <-> exists v, v ∈ filter (fun v => Q v = true) l).
  { intros l. unfold strs, Q. rewrite list_elem_of_omap. setoid_rewrite list_elem_of_filter. split.
    - intros (v & Hv & Hs). exists v. by rewrite Hs, bool_decide_eq_true_2.
    - intros (v & Hq & Hv). exists v. destruct (as_str v); [|done].
      apply bool_decide_eq_true in Hq. by subst. }
  unfold has_traefik_enabled. apply bool_decide_ext. rewrite !Hmem, route_other; [done|].
  intros r v _ Hv. unfold Q, is_service_tag in *. destruct (as_str v) as [s|]; [|done].
  apply bool_decide_eq_false. intros ->. by apply starts_with_spec in Hv as [u Hu].
Qed.

Lemma add_registration_ok job reg st :
  found_ok job st -> job_id reg = job ->
  found_ok job (add_registration reg st) /\
  registrations st ⊆ registrations (add_registration reg st) /\
  reg ∈ registrations (add_registration reg st).
Proof.
  intros (Hnd & Hjob & Hseen) Hj. unfold add_registration. fold (reg_key reg).
  case_bool_decide as Hk; [by split_and!; [..|by apply Hseen]|]. simpl.
  assert (Hnew : reg ∉ registrations st) by (by rewrite <- Hseen).
  unfold found_ok. split_and!; simpl.
  - apply NoDup_app. split_and!; [done| |apply NoDup_singleton]. set_solver.
  - set_solver.
  - intros reg'. rewrite elem_of_union, elem_of_singleton, elem_of_app, list_elem_of_singleton, Hseen.
    assert (reg_key reg' = reg_key reg <-> reg' = reg) by
      (destruct reg, reg'; unfold reg_key; simpl; naive_solver). tauto.
  - set_solver.
  - set_solver.
Qed.

Section passes.
Context (fps job : string).

(** A service of a group is routed to nscale and registered. *)
Definition served (group : string) (v : Value.t) (regs : list JobRegistration) : Prop :=
  routed fps v /\
  (has_traefik_enabled (tags_of v) = true ->
   exists n, (get "Name" v ≫= as_str) = Some n /\ mkReg job n group ∈ regs).

Lemma served_monotone group : monotone (served group).
Proof. intros v l l' Hsub [Hr Hs]. split; [done|]. intros He. destruct (Hs He) as (n & ? & ?). eauto. Qed.

Lemma good_service group : good job (inject_service_tag fps job group) (served group).
Proof.
  intros v st v' st' Hrun Hok. unfold inject_service_tag in Hrun. destruct v as [| | | | | | |m]; try done.
  destruct (obj_get "Name" m ≫= as_str) as [n|] eqn:Hn; [|done].
  set (m0 := match obj_get "Tags" m with Some _ => m | None => obj_insert "Tags" (Value.Array []) m end) in *.
  assert (Hn0 : (obj_get "Name" m0 ≫= as_str) = Some n).
  { unfold m0. destruct (obj_get "Tags" m); [done|]. by rewrite obj_get_insert_ne. }
  destruct (obj_get "Tags" m0 ≫= as_array) as [tags|] eqn:Ht; [|done].
  assert (Htags : exists v0, obj_get "Tags" m0 = Some v0) by (destruct (obj_get "Tags" m0); [eauto|done]).
  destruct Htags as [v0 Htags].
  destruct (has_traefik_enabled tags) eqn:He.
  - case_bool_decide as Hnames; [done|]. simplify_eq.
    destruct (add_registration_ok job (mkReg job n group) st Hok eq_refl) as (Hok' & Hsub & Hin).
    split_and!; try done.
    + unfold inject_service_tag. rewrite obj_get_insert_ne, Hn0 by done. cbv zeta.
      rewrite obj_get_insert. cbv iota beta. rewrite obj_get_insert. cbn [mbind option_bind as_array].
      rewrite enabled_route, He, bool_decide_eq_false_2.
      * rewrite route_route. by rewrite obj_insert_id by apply obj_get_insert.
      * intros Hnil. apply Hnames. apply elem_of_nil_inv. intros r Hr. apply (collect_route fps) in Hr.
        rewrite Hnil in Hr. by apply elem_of_nil in Hr.
    + assert (Htr : tags_of (Value.Object (obj_insert "Tags" (Value.Array (route fps tags)) m0)) = route fps tags)
        by (unfold tags_of, array_of; simpl; by rewrite obj_get_insert).
      split.
      * intros _. rewrite Htr. split.
        -- intros Hnil. apply Hnames. apply elem_of_nil_inv. intros r Hr. apply (collect_route fps) in Hr.
           rewrite Hnil in Hr. by apply elem_of_nil in Hr.
        -- intros r Hr. apply route_service_tags. by apply collect_route in Hr.
      * intros _. exists n. simpl. by rewrite obj_get_insert_ne.
  - simplify_eq.
    assert (Htr : tags_of (Value.Object m0) = tags) by (unfold tags_of, array_of; simpl; by rewrite Ht).
    split_and!; try done.
    + unfold inject_service_tag. rewrite Hn0, Htags. cbv zeta. by rewrite Ht, He.
    + split; intros Hen; rewrite Htr in Hen; congruence.
Qed.

Lemma good_services group :
  good job (inject_service_tags fps job group) (fun l regs => Forall (fun v => served group v regs) l).
Proof. apply good_for_values; [apply served_monotone|apply good_service]. Qed.

Lemma services_monotone group : monotone (fun l regs => Forall (fun v => served group v regs) l).
Proof. intros l r r' Hsub Hl. eapply Forall_impl; [done|]. intros v. by apply served_monotone. Qed.

Definition task_served group (v : Value.t) (regs : list JobRegistration) : Prop :=
  Forall (fun s => served group s regs) (array_of "Services" v).

Lemma array_of_obj key m : array_of key (Value.Object m) = default [] (array_at key m).
Proof. done. Qed.

Lemma task_served_monotone group : monotone (task_served group).
Proof. intros v r r' Hsub Hl. by eapply services_monotone. Qed.

Lemma good_task group : good job (inject_task fps job group) (task_served group).
Proof.
  intros v st v' st' Hrun Hok. unfold inject_task in Hrun. destruct v as [| | | | | | |m]; try done.
  apply res_bind_ok in Hrun as ([m1 st1] & Hm & ?). simplify_eq.
  destruct (good_on_array job "Services" _ _ (good_services group) _ _ _ _ Hm Hok) as (Ha & Hok' & Hsub & HQ).
  split_and!; try done.
  - unfold inject_task. by rewrite Ha.
  - unfold task_served. rewrite array_of_obj. destruct (array_at "Services" m1); [by apply HQ|constructor].
Qed.

Definition group_served (v : Value.t) (regs : list JobRegistration) : Prop :=
  exists group, (get "Name" v ≫= as_str) = Some group /\
    Forall (fun s => served group s regs) (group_services v).

Lemma group_served_monotone : monotone group_served.
Proof.
  intros v r r' Hsub (g & Hg & Hl). exists g. split; [done|]. by eapply services_monotone.
Qed.

Lemma good_group : good job (inject_task_group fps job) group_served.
Proof.
  intros v st v' st' Hrun Hok. unfold inject_task_group in Hrun. destruct v as [| | | | | | |m]; try done.
  destruct (obj_get "Name" m ≫= as_str) as [group|] eqn:Hg; [|done].
  apply res_bind_ok in Hrun as ([m1 st1] & Hm1 & Hrun). apply res_bind_ok in Hrun as ([m2 st2] & Hm2 & ?).
  simplify_eq.
  destruct (good_two_arrays job "Services" "Tasks" _ _ _ _ m st m1 st1 m2 st' ltac:(done)
      (good_services group)
      (good_for_values job _ _ (task_served_monotone group) (good_task group)) (services_monotone group) Hm1 Hm2 Hok)
    as (Ha1 & Ha2 & Hok' & Hsub & HQ1 & HQ2 & Hname).
  assert (Hg2 : (obj_get "Name" m2 ≫= as_str) = Some group) by (by rewrite Hname).
  split_and!; try done.
  - unfold inject_task_group. rewrite Hg2, Ha1. simpl. by rewrite Ha2.
  - exists group. split; [done|]. unfold group_services. rewrite !array_of_obj. apply Forall_app. split.
    + destruct (array_at "Services" m2); [by apply HQ1|constructor].
    + apply Forall_bind. destruct (array_at "Tasks" m2); [by apply HQ2|constructor].
Qed.

Lemma found_ok_empty : found_ok job (mkFound ∅ []).
Proof. split_and!; [constructor|by intros reg Hr; apply elem_of_nil in Hr|set_solver]. Qed.

End passes.

(** ** What the mutation promises *)

Lemma inject_ok_inv fps v v' regs :
  inject_nscale_tags fps v = Ok (v', regs) ->
  exists m job groups groups' st,
    v = Value.Object m /\ parsed_job_id m = Some job /\ array_at "TaskGroups" m = Some groups /\
    for_values (inject_task_group fps job) groups (mkFound ∅ []) = Ok (groups', st) /\
    v' = Value.Object (obj_insert "TaskGroups" (Value.Array groups') m) /\ regs = registrations st.
Proof.
  intros Hrun. unfold inject_nscale_tags in Hrun. destruct v as [| | | | | | |m]; try done.
  destruct (parsed_job_id m) as [job|] eqn:Hj; [|done].
  destruct (obj_get "TaskGroups" m ≫= as_array) as [groups|] eqn:Hg; [|done].
  apply res_bind_ok in Hrun as ([groups' st] & Hrun & ?). simplify_eq. by exists m, job, groups, groups', st.
Qed.

(** C22.  Every router of a submitted job leads to nscale: when the mutation
    succeeds, each service with Traefik enabled, in every group and task, has
    explicit routers, and each of its routers has exactly one service tag, which
    names the file provider's service. *)
Theorem every_router_is_routed fps v v' regs :
  inject_nscale_tags fps v = Ok (v', regs) -> Forall (routed fps) (job_services v').
Proof.
  intros (m & job & groups & groups' & st & -> & Hj & Hg & Hrun & -> & ->)%inject_ok_inv.
  destruct (good_for_values job _ _ (group_served_monotone fps job) (good_group fps job) _ _ _ _ Hrun (found_ok_empty job))
    as (_ & _ & _ & HQ).
  unfold job_services. rewrite array_of_obj, array_at_insert. simpl. apply Forall_bind.
  eapply Forall_impl; [exact HQ|]. intros g (group & _ & Hs). eapply Forall_impl; [exact Hs|]. by intros s [? _].
Qed.

(** The registrations are those of the routed services: distinct, all for
    the job's id, and one for the name and group of every service with Traefik
    enabled. *)
Theorem registrations_cover_services fps v v' regs :
  inject_nscale_tags fps v = Ok (v', regs) ->
  NoDup regs /\
  (exists m job, v = Value.Object m /\ parsed_job_id m = Some job /\
     Forall (fun reg => job_id reg = job) regs) /\
  forall g s, g ∈ array_of "TaskGroups" v' -> s ∈ group_services g ->
    has_traefik_enabled (tags_of s) = true ->
    exists reg, reg ∈ regs /\ (get "Name" s ≫= as_str) = Some (service_name reg) /\
      (get "Name" g ≫= as_str) = Some (nomad_group reg).
Proof.
  intros (m & job & groups & groups' & st & -> & Hj & Hg & Hrun & -> & ->)%inject_ok_inv.
  destruct (good_for_values job _ _ (group_served_monotone fps job) (good_group fps job) _ _ _ _ Hrun (found_ok_empty job))
    as (_ & (Hnd & Hjob & _) & _ & HQ).
  split_and!; [done| |].
  - exists m, job. split_and!; try done. apply Forall_forall. exact Hjob.
  - intros g s Hgin Hs He. rewrite array_of_obj, array_at_insert in Hgin. simpl in Hgin.
    eapply Forall_forall in HQ as (group & Hgn & Hserved); [|done].
    eapply Forall_forall in Hserved as [_ Hn]; [|done]. destruct (Hn He) as (n & Hname & Hin).
    by exists (mkReg job n group).
Qed.

(** C39.  Submitting a job twice changes nothing: the mutation of a mutated job
    is the same job with the same registrations. *)
Theorem injection_is_idempotent fps v v' regs :
  inject_nscale_tags fps v = Ok (v', regs) -> inject_nscale_tags fps v' = Ok (v', regs).
Proof.
  intros (m & job & groups & groups' & st & -> & Hj & Hg & Hrun & -> & ->)%inject_ok_inv.
  destruct (good_for_values job _ _ (group_served_monotone fps job) (good_group fps job) _ _ _ _ Hrun (found_ok_empty job))
    as (Hagain & _).
  unfold inject_nscale_tags, parsed_job_id in *. rewrite !obj_get_insert_ne by done. rewrite Hj.
  rewrite obj_get_insert. simpl. rewrite Hagain. simpl. by rewrite obj_insert_id by apply obj_get_insert.
Qed.

(** ** A concrete job *)

Definition demo_job : Value.t :=
  Value.Object [("ID", Value.Str "shop"); ("TaskGroups", Value.Array [Value.Object [
    ("Name", Value.Str "main");
    ("Services", Value.Array [Value.Object [("Name", Value.Str "web"); ("Tags", Value.Array [
       Value.Str "traefik.enable=true"; Value.Str "traefik.http.routers.web.rule=Host(`a`)";
       Value.Str "traefik.http.routers.web.service=old"; Value.Str "traefik.http.routers.web.service=older"])]]);
    ("Tasks", Value.Array [Value.Object [("Services", Value.Array [Value.Object [
       ("Name", Value.Str "metrics")]])]])]])].

Definition mutated : Value.t * list JobRegistration :=
  match inject_nscale_tags "s2z-nscale@file" demo_job with Ok r => r | Err _ => (Value.Null, []) end.

Lemma every_router_is_routed_witness :
  job_services mutated.1 =
    [ Value.Object [("Name", Value.Str "web"); ("Tags", Value.Array [
        Value.Str "traefik.enable=true"; Value.Str "traefik.http.routers.web.rule=Host(`a`)";
        Value.Str "traefik.http.routers.web.service=s2z-nscale@file"])];
      Value.Object [("Name", Value.Str "metrics"); ("Tags", Value.Array [])] ] /\
  Forall (routed "s2z-nscale@file") (job_services mutated.1).
Proof.
  split; [vm_compute; reflexivity|].
  apply (every_router_is_routed "s2z-nscale@file" demo_job mutated.1 mutated.2). vm_compute. reflexivity.
Defined.

Lemma registrations_cover_services_witness :
  mutated.2 = [mkReg "shop" "web" "main"] /\ NoDup mutated.2.
Proof.
  split; [vm_compute; reflexivity|].
  apply (registrations_cover_services "s2z-nscale@file" demo_job mutated.1 mutated.2). vm_compute. reflexivity.
Defined.

Lemma injection_is_idempotent_witness :
  inject_nscale_tags "s2z-nscale@file" mutated.1 = Ok (mutated.1, mutated.2).
Proof.
  apply (injection_is_idempotent "s2z-nscale@file" demo_job mutated.1 mutated.2). vm_compute. reflexivity.
Defined.
