(* ===== verification/Redis.v ===== *)
(** * Redis: the commands the stores call

    The Redis client as a class over the world, one method per command the code
    calls; [EVAL] takes a script of the program, in the fragment of Lua they use
    ([Lua]).  [RedisLaws] states what the commands do to the server's data when
    nobody else uses it; [Server] is a concrete server for the witnesses.  Also
    the JSON text codec the registrations go through. *)

From S2P Require Import Prelude Str F64 Core Json Nomad.
From Stdlib Require Import Ascii.
Local Open Scope Z_scope.

(** An error of the client, as [to_string] prints it. *)
Abbreviation redis_result A := (res string A).

(** ** The server's data *)

(** Hashes, sorted sets, strings with the instant of their expiry if they have
    one (in milliseconds), and the server's clock. *)
Record redis := mkRedis {
  hashes : gmap string (gmap string string);
  zsets : gmap string (gmap string f64);
  strings : gmap string (string * option Z);
  server_ms : Z }.

Definition hash (k : string) (r : redis) : gmap string string := default ∅ (hashes r !! k).
Definition zset (k : string) (r : redis) : gmap string f64 := default ∅ (zsets r !! k).

(** The value of a key that has not expired. *)
Definition unexpired (r : redis) (expiry : option Z) : bool :=
  match expiry with Some e => bool_decide (server_ms r < e) | None => true end.
Definition value (k : string) (r : redis) : option string :=
  match strings r !! k with
  | Some (v, expiry) => if unexpired r expiry then Some v else None
  | None => None
  end.

(** A key that holds a hash or a sorted set; a key that exists. *)
Definition other_type (k : string) (r : redis) : bool :=
  negb (bool_decide (hash k r = ∅)) || negb (bool_decide (zset k r = ∅)).
Definition key_exists (k : string) (r : redis) : bool := bool_decide (is_Some (value k r)) || other_type k r.

Definition set_hash (k : string) (h : gmap string string) (r : redis) : redis :=
  mkRedis (<[k := h]> (hashes r)) (zsets r) (strings r) (server_ms r).
Definition set_zset (k : string) (z : gmap string f64) (r : redis) : redis :=
  mkRedis (hashes r) (<[k := z]> (zsets r)) (strings r) (server_ms r).
Definition set_strings (m : gmap string (string * option Z)) (r : redis) : redis :=
  mkRedis (hashes r) (zsets r) m (server_ms r).
Definition remove_key (k : string) (r : redis) : redis :=
  mkRedis (delete k (hashes r)) (delete k (zsets r)) (delete k (strings r)) (server_ms r).

(** A new value under the expiry the key has. *)
Definition overwrite (k v : string) (r : redis) : redis :=
  set_strings (<[k := (v, match strings r !! k with
                          | Some (_, e) => if unexpired r e then e else None
                          | None => None end)]> (strings r)) r.

(** A string as an integer: its canonical decimal form, in the range of an [i64]. *)
Definition i64_max : Z := 2 ^ 63 - 1.
Definition string2ll (s : string) : option Z :=
  let z := match s with
           | String "-"%char s' => - (scan_digits 0 0 s').1.1
           | _ => (scan_digits 0 0 s).1.1
           end in
  if bool_decide (show_Z z = s /\ - 2 ^ 63 <= z <= i64_max) then Some z else None.

(** The number a key counts: 0 when it does not exist. *)
Definition number_at (k : string) (r : redis) : option Z :=
  match value k r with Some v => string2ll v | None => Some 0 end.

(** ** The scripts' Lua *)
Module Lua.
Inductive expr : Type :=
| KEYS (i : nat)
| ARGV (i : nat)
| Number (n : Z)
| Call (command : string) (key : expr)
| Equals (a b : expr).
Inductive script : Type :=
| Return (e : expr)
| IfElse (condition : expr) (yes no : script).

Inductive val : Type := Nil | Bool (b : bool) | Int (n : Z) | Str (s : string).
#[export] Instance val_eq_dec : EqDecision val.
Proof. solve_decision. Defined.

(** The [i]-th of a table, from 1. *)
Definition nth (l : list string) (i : nat) : val :=
  match i with
  | O => Nil
  | S i => match l !! i with Some s => Str s | None => Nil end
  end.

Definition truthy (v : val) : bool := match v with Nil | Bool false => false | _ => true end.

(** [redis.call] with one key; a nil reply is [false], an error ends the script. *)
Definition redis_call (command key : string) (r : redis) : option (val * redis) :=
  let command := to_ascii_lowercase command in
  if bool_decide (command = "get") then
    if other_type key r then None
    else Some (match value key r with Some v => Str v | None => Bool false end, r)
  else if bool_decide (command = "del") then
    Some (Int (if key_exists key r then 1 else 0), remove_key key r)
  else if bool_decide (command = "incr") then
    if other_type key r then None
    else n ← number_at key r;
         if bool_decide (n < i64_max) then Some (Int (n + 1), overwrite key (show_Z (n + 1)) r) else None
  else None.

Section run.
Context (keys args : list string).

Fixpoint eval_expr (e : expr) (r : redis) : option (val * redis) :=
  match e with
  | KEYS i => Some (nth keys i, r)
  | ARGV i => Some (nth args i, r)
  | Number n => Some (Int n, r)
  | Call command key =>
      '(k, r) ← eval_expr key r;
      match k with Str k => redis_call command k r | _ => None end
  | Equals a b =>
      '(x, r) ← eval_expr a r;
      '(y, r) ← eval_expr b r;
      Some (Bool (bool_decide (x = y)), r)
  end.

Fixpoint run (s : script) (r : redis) : option (val * redis) :=
  match s with
  | Return e => eval_expr e r
  | IfElse c yes no => '(v, r) ← eval_expr c r; run (if truthy v then yes else no) r
  end.
End run.

(** The reply as an [i64]. *)
Definition integer (v : val) : option Z :=
  match v with Int n => Some n | Str s => string2ll s | Bool true => Some 1 | Bool false | Nil => None end.
End Lua.

(** ** The client *)
Class Redis (W : Type) := {
  hset : string -> string -> string -> ST W (redis_result unit);
  hget : string -> string -> ST W (redis_result (option string));
  hgetall : string -> ST W (redis_result (list (string * string)));
  hdel : string -> string -> ST W (redis_result Z);
  zadd : string -> f64 -> string -> ST W (redis_result unit);
  zrangebyscore : string -> f64 -> f64 -> ST W (redis_result (list string));
  zscore : string -> string -> ST W (redis_result (option f64));
  zrem : string -> string -> ST W (redis_result Z);
  set_nx_px : string -> string -> Z -> ST W (redis_result (option string));
  eval : Lua.script -> list string -> list string -> ST W (redis_result Z) }.

Definition in_range (lo hi x : f64) : bool := f64_leb lo x && f64_leb x hi.

(** What each command does to the server's data, as Redis documents it; [EVAL]
    runs its script with nothing in between. *)
Class RedisLaws (W : Type) `{Redis W} := {
  server : W -> redis;
  hset_ok k f v w w' : hset k f v w = (Ok tt, w') ->
    server w' = set_hash k (<[f := v]> (hash k (server w))) (server w);
  hget_ok k f w r w' : hget k f w = (Ok r, w') ->
    server w' = server w /\ r = hash k (server w) !! f;
  hgetall_ok k w l w' : hgetall k w = (Ok l, w') ->
    server w' = server w /\ NoDup l.*1 /\ list_to_map l = hash k (server w);
  hdel_ok k f w n w' : hdel k f w = (Ok n, w') ->
    server w' = set_hash k (delete f (hash k (server w))) (server w);
  zadd_ok k x m w w' : zadd k x m w = (Ok tt, w') ->
    server w' = set_zset k (<[m := x]> (zset k (server w))) (server w);
  zrangebyscore_ok k lo hi w l w' : zrangebyscore k lo hi w = (Ok l, w') ->
    server w' = server w /\ NoDup l /\
    forall m, m ∈ l <-> exists x, zset k (server w) !! m = Some x /\ in_range lo hi x = true;
  zscore_ok k m w r w' : zscore k m w = (Ok r, w') ->
    server w' = server w /\ r = zset k (server w) !! m;
  zrem_ok k m w n w' : zrem k m w = (Ok n, w') ->
    server w' = set_zset k (delete m (zset k (server w))) (server w);
  set_nx_px_ok k v ttl w r w' : set_nx_px k v ttl w = (Ok r, w') ->
    if key_exists k (server w) then r = None /\ server w' = server w
    else r = Some "OK" /\
      server w' = set_strings (<[k := (v, Some (server_ms (server w) + ttl))]> (strings (server w))) (server w);
  eval_ok s keys args w n w' : eval s keys args w = (Ok n, w') ->
    exists v, Lua.run keys args s (server w) = Some (v, server w') /\ Lua.integer v = Some n }.

(** ** [serde_json]'s text of a registration *)

Definition ser_JobRegistration (r : JobRegistration) : Value.t :=
  Value.Object [("job_id", Value.Str (job_id r)); ("service_name", Value.Str (service_name r));
                ("nomad_group", Value.Str (nomad_group r))].
Definition de_JobRegistration : Value.t -> option JobRegistration := de_object (fun m =>
  j ← field de_string "job_id" m;
  s ← field de_string "service_name" m;
  g ← field de_string "nomad_group" m;
  Some (mkReg j s g)).

(** Printing and parsing, with the errors [to_string] prints. *)
Class JsonText := {
  json_to_string : Value.t -> res string string;
  json_from_str : string -> res string Value.t;
  json_invalid : Value.t -> string }.

Definition from_json {A} `{JsonText} (de : Value.t -> option A) (s : string) : res string A :=
  res_bind (json_from_str s) (fun v => ok_or (json_invalid v) (de v)).

(** Printing a registration succeeds and parsing gives its value back. *)
Class JsonTextLaws `{JsonText} :=
  json_text_of_registration reg : exists s,
    json_to_string (ser_JobRegistration reg) = Ok s /\ json_from_str s = Ok (ser_JobRegistration reg).

(** ** A concrete server and codec *)
Module Server.
Definition ok {A} (f : redis -> A * redis) : ST redis (redis_result A) := fun r =>
  let '(a, r') := f r in (Ok a, r').

#[global] Instance commands : Redis redis := {|
  hset k f v := ok (fun r => (tt, set_hash k (<[f := v]> (hash k r)) r));
  hget k f := ok (fun r => (hash k r !! f, r));
  hgetall k := ok (fun r => (map_to_list (hash k r), r));
  hdel k f := ok (fun r => (1, set_hash k (delete f (hash k r)) r));
  zadd k x m := ok (fun r => (tt, set_zset k (<[m := x]> (zset k r)) r));
  zrangebyscore k lo hi := ok (fun r =>
    ((map_to_list (filter (fun p : string * f64 => in_range lo hi p.2 = true) (zset k r))).*1, r));
  zscore k m := ok (fun r => (zset k r !! m, r));
  zrem k m := ok (fun r => (1, set_zset k (delete m (zset k r)) r));
  set_nx_px k v ttl := ok (fun r =>
    if key_exists k r then (None, r)
    else (Some "OK", set_strings (<[k := (v, Some (server_ms r + ttl))]> (strings r)) r));
  eval s keys args := fun r =>
    match Lua.run keys args s r with
    | Some (v, r') => match Lua.integer v with Some n => (Ok n, r') | None => (Err "not an integer", r') end
    | None => (Err "script error", r)
    end |}.

#[global] Instance laws : RedisLaws redis.
Proof.
  refine {| server := id |}; unfold id, hset, hget, hgetall, hdel, zadd, zrangebyscore, zscore, zrem,
    set_nx_px, eval, commands, ok; intros; simplify_eq; try done.
  - split; [done|]. split; [apply NoDup_fst_map_to_list|apply list_to_map_to_list].
  - split; [done|]. split; [apply NoDup_fst_map_to_list|]. intros m. rewrite list_elem_of_fmap. split.
    + intros ([m' x] & -> & Hm). apply elem_of_map_to_list, map_lookup_filter_Some in Hm as [? ?]. eauto.
    + intros (x & Hx & Hr). exists (m, x). split; [done|]. by apply elem_of_map_to_list, map_lookup_filter_Some.
  - destruct (key_exists k w); by simplify_eq.
  - repeat case_match; simplify_eq. eauto.
Defined.

Definition empty : redis := mkRedis ∅ ∅ ∅ 0.

(** A registration's text is the number that codes its three strings. *)
Definition reg_code (r : JobRegistration) : positive := encode (job_id r, service_name r, nomad_group r).

#[global] Instance text : JsonText := {|
  json_to_string v :=
    match de_JobRegistration v with
    | Some r => Ok (show_Z (Z.pos (reg_code r)))
    | None => Err "unsupported"
    end;
  json_from_str s :=
    match scan_digits 0 0 s with
    | (Z.pos p, _, "") =>
        match decode (A := string * string * string) p with
        | Some (j, sv, g) => Ok (ser_JobRegistration (mkReg j sv g))
        | None => Err "unsupported"
        end
    | _ => Err "unsupported"
    end;
  json_invalid _ := "invalid" |}.

#[global] Instance text_laws : JsonTextLaws.
Proof.
  intros reg. exists (show_Z (Z.pos (reg_code reg))). split; [by destruct reg|].
  unfold json_from_str, text. destruct (show_Z_digits (Z.pos (reg_code reg)) ltac:(lia)) as (k & _ & ->).
  unfold reg_code. rewrite decode_encode. by destruct reg.
Defined.
End Server.

(** ** Lemmas *)

Lemma de_ser_JobRegistration reg : de_JobRegistration (ser_JobRegistration reg) = Some reg.
Proof. by destruct reg. Qed.

Lemma hash_set_hash k k' h r : hash k (set_hash k' h r) = if decide (k' = k) then h else hash k r.
Proof. unfold hash, set_hash. simpl. rewrite lookup_insert. by case_decide. Qed.

Lemma zset_set_zset k k' z r : zset k (set_zset k' z r) = if decide (k' = k) then z else zset k r.
Proof. unfold zset, set_zset. simpl. rewrite lookup_insert. by case_decide. Qed.

(** Strings. *)
Lemma value_remove_key k k' r : value k (remove_key k' r) = if decide (k' = k) then None else value k r.
Proof. unfold value, remove_key. simpl. rewrite lookup_delete. by case_decide. Qed.

Lemma value_overwrite k k' v r : value k (overwrite k' v r) = if decide (k' = k) then Some v else value k r.
Proof.
  unfold value, overwrite, set_strings. simpl. rewrite lookup_insert. case_decide as E; [subst k'|done].
  destruct (strings r !! k) as [[? [e|]]|]; simpl; [|done..]. unfold unexpired. simpl. by destruct (bool_decide (server_ms r < e)) eqn:Hb; simpl; rewrite ?Hb.
Qed.

Lemma string2ll_show z : 0 <= z <= i64_max -> string2ll (show_Z z) = Some z.
Proof.
  intros Hz. destruct (show_Z_digits z ltac:(lia)) as (k & Hk & Hs).
  destruct (scan_digits_head 0 0 (show_Z z) z k) as (a & r & d & Ha & Hd); [done|by rewrite Hs|]. unfold string2ll.
  assert (E : match show_Z z with String "-"%char s' => - (scan_digits 0 0 s').1.1 | _ => (scan_digits 0 0 (show_Z z)).1.1 end = z).
  { rewrite Ha in *. rewrite Hs. destruct a as [[] [] [] [] [] [] [] []]; done. }
  rewrite E, bool_decide_eq_true_2; [done|]. split; [done|lia].
Qed.
