(* ===== verification/Activity.v ===== *)
(** * Activity: idle detection, the distributed lock and the missing-job counter

    Models [crates/nscale-store/src/activity.rs] ([RedisActivityStore]) and
    [auto_deregister.rs] ([RedisMissingJobTracker]) over the commands of
    [Redis].  [Locking] is the lock seen from several instances: a step relation
    on the server and on what each instance believes it holds. *)

From S2P Require Import Prelude Str F64 Core Net Redis.
From Stdlib Require Import SpecFloat.
Local Open Scope Z_scope.

Definition ACTIVITY_KEY : string := "nscale:activity".
Definition lock_key (key : string) : string := "nscale:lock:" +:+ key.

(** The system clock: nanoseconds since the epoch, negative before it. *)
Class SystemTime (W : Type) := { epoch_nanos : ST W Z }.

(** [i64]'s [as] from a non-negative integer. *)
Definition as_i64 (x : Z) : Z := wrap 64 (x + 2 ^ 63) - 2 ^ 63.

Record RedisActivityStore := mkActivityStore { instance_id : string }.

(** [map_err(|e| NscaleError::Store(e.to_string()))]. *)
Definition store_err {W A} (m : ST W (redis_result A)) : M W A := map_err NscaleError.Store m.

(** fred's client: a configuration from a URL, a client from a configuration,
    the client's connection.  [std::process::id]. *)
Class RedisConnector (W : Type) := {
  redis_config : Type;
  redis_client : Type;
  config_from_url : string -> redis_result redis_config;
  build_client : redis_config -> redis_result redis_client;
  init_client : redis_client -> ST W (redis_result unit) }.
Class Process (W : Type) := { process_id : ST W Z }.

Section connect.
Context {W : Type} `{RedisConnector W, SystemTime W, Process W}.

Definition uuid_v4_simple : ST W string := (
  let* t := epoch_nanos in
  let* pid := process_id in
  ret (show_hex (Z.max 0 t) +:+ "-" +:+ show_hex pid))%st.

(** [RedisActivityStore::new]; the client it keeps is the one whose commands the
    world runs. *)
Definition new_activity_store (redis_url : string) : M W RedisActivityStore := (
  let? config := ret (res_map_err NscaleError.Store (config_from_url redis_url)) in
  let? client := ret (res_map_err NscaleError.Store (build_client config)) in
  do? store_err (init_client client) in
  let* uuid := uuid_v4_simple in
  ret (Ok (mkActivityStore ("nscale-" +:+ uuid))))%st.

End connect.

Section store.
Context {W : Type} `{Redis W, SystemTime W}.
Context (self : RedisActivityStore).

Definition now_epoch_secs : ST W f64 := (
  let* t := epoch_nanos in ret (as_secs_f64 (Z.max 0 t)))%st.

Definition store_record_activity (job_id : JobId) : M W unit := (
  let* score := now_epoch_secs in
  do? store_err (zadd ACTIVITY_KEY score job_id) in
  ret (Ok tt))%st.

Definition store_get_idle_jobs (idle_threshold : Z) : M W (list JobId) := (
  let* t := now_epoch_secs in
  let cutoff := f64_sub t (as_secs_f64 idle_threshold) in
  let? members := store_err (zrangebyscore ACTIVITY_KEY f64_neg_infinity cutoff) in
  ret (Ok members))%st.

Definition store_has_activity (job_id : JobId) : M W bool := (
  let? score := store_err (zscore ACTIVITY_KEY job_id) in
  ret (Ok (bool_decide (is_Some score))))%st.

Definition store_try_acquire_lock (key : string) (ttl : Z) : M W bool := (
  let lock := lock_key key in
  let ttl_ms := as_i64 (as_millis ttl) in
  let? result := store_err (set_nx_px lock (instance_id self) ttl_ms) in
  ret (Ok (bool_decide (is_Some result))))%st.

(** The script of [release_lock]. *)
Definition release_script : Lua.script :=
  Lua.IfElse (Lua.Equals (Lua.Call "get" (Lua.KEYS 1)) (Lua.ARGV 1))
    (Lua.Return (Lua.Call "del" (Lua.KEYS 1)))
    (Lua.Return (Lua.Number 0)).

Definition store_release_lock (key : string) : M W unit := (
  let lock := lock_key key in
  do? store_err (eval release_script [lock] [instance_id self]) in
  ret (Ok tt))%st.

Definition store_remove_activity (job_id : JobId) : M W unit := (
  do? store_err (zrem ACTIVITY_KEY job_id) in
  ret (Ok tt))%st.

#[export] Instance redis_activity_store : ActivityStore W := {|
  record_activity := store_record_activity;
  get_idle_jobs := store_get_idle_jobs;
  has_activity := store_has_activity;
  try_acquire_lock := store_try_acquire_lock;
  release_lock := store_release_lock;
  remove_activity := store_remove_activity |}.

End store.

(** ** auto_deregister.rs *)

Definition AUTO_DEREGISTER_NOT_FOUND_PREFIX : string := "nscale:auto-deregister:not-found:".
Definition missing_key (job_id : JobId) : string := AUTO_DEREGISTER_NOT_FOUND_PREFIX +:+ job_id.

Section missing.
Context {W : Type} `{Redis W}.

Definition tracker_increment_not_found (job_id : JobId) : M W Z := (
  let? n := store_err (eval (Lua.Return (Lua.Call "INCR" (Lua.KEYS 1))) [missing_key job_id] []) in
  if bool_decide (0 <= n <= u32_max) then ret (Ok n)
  else ret (Err (NscaleError.Store
    ("missing-job counter for " +:+ job_id +:+ " exceeded u32 range: " +:+ show_Z n))))%st.

Definition tracker_clear_not_found (job_id : JobId) : M W unit := (
  do? store_err (eval (Lua.Return (Lua.Call "DEL" (Lua.KEYS 1))) [missing_key job_id] []) in
  ret (Ok tt))%st.

#[export] Instance redis_missing_tracker : MissingJobTracker W := {|
  increment_not_found := tracker_increment_not_found;
  clear_not_found := tracker_clear_not_found |}.

End missing.

(** ** The counter as a specification: misses since the last clear *)

Module Missing.
Inductive op : Type := Increment (job : JobId) | Clear (job : JobId).

(** The misses of [job] since it was last cleared, from [n] on. *)
Fixpoint streak (job : JobId) (n : Z) (ops : list op) : Z :=
  match ops with
  | [] => n
  | Increment j :: ops' => streak job (if decide (j = job) then n + 1 else n) ops'
  | Clear j :: ops' => streak job (if decide (j = job) then 0 else n) ops'
  end.

(** The operations made one after the other, until the first that fails. *)
Definition perform {W} `{Redis W} (o : op) : M W unit :=
  match o with
  | Increment j => try (tracker_increment_not_found j) (fun _ => ret (Ok tt))
  | Clear j => tracker_clear_not_found j
  end.
End Missing.

(** ** The lock seen by several instances *)

Module Locking.
Section locking.
Context {W : Type} `{RedisLaws W} (key : string).

(** The world, and for every instance that thinks it holds the lock the server
    time until which it does. *)
Abbreviation state := (W * gmap string Z)%type.

(** What the lock's key is set to. *)
Definition entry (w : W) : option (string * option Z) := strings (server w) !! lock_key key.
Definition set_by (i : string) (ttl : Z) (w w' : W) : Prop :=
  value (lock_key key) (server w) = None /\
  entry w' = Some (i, Some (server_ms (server w) + as_millis ttl)).

Inductive step : state -> state -> Prop :=
| Acquired self ttl w w' h :
    0 <= as_millis ttl < 2 ^ 63 ->
    store_try_acquire_lock self key ttl w = (Ok true, w') ->
    step (w, h) (w', <[instance_id self := server_ms (server w) + as_millis ttl]> h)
| Refused self ttl w w' h :
    store_try_acquire_lock self key ttl w = (Ok false, w') -> step (w, h) (w', h)
| AcquireLost self ttl w w' h :
    server_ms (server w) <= server_ms (server w') ->
    entry w' = entry w \/ set_by (instance_id self) ttl w w' ->
    step (w, h) (w', h)
| Released self w w' h :
    store_release_lock self key w = (Ok tt, w') -> step (w, h) (w', delete (instance_id self) h)
| Elapsed w w' h :
    server_ms (server w) <= server_ms (server w') -> entry w' = entry w -> step (w, h) (w', h).

Definition holder (s : state) (i : string) : Prop :=
  exists e, s.2 !! i = Some e /\ server_ms (server s.1) < e.

(** An instance that holds the lock is the one the server knows. *)
Definition inv (s : state) : Prop :=
  forall i e, s.2 !! i = Some e -> server_ms (server s.1) < e -> entry s.1 = Some (i, Some e).
End locking.
End Locking.

(** ** Lemmas *)

Lemma store_err_ok {W A} (m : ST W (redis_result A)) w a w' :
  store_err m w = (Ok a, w') <-> m w = (Ok a, w').
Proof. apply map_err_ok. Qed.

Lemma missing_key_inj j j' : missing_key j = missing_key j' -> j = j'.
Proof. apply sapp_inj_l. Qed.

Lemma as_i64_small x : 0 <= x < 2 ^ 63 -> as_i64 x = x.
Proof. intros. unfold as_i64. rewrite wrap_small by lia. lia. Qed.

(** Take apart a run of store calls that ended well. *)
Ltac store_inv :=
  repeat match goal with
  | H : try _ _ _ = (Ok _, _) |- _ => apply try_inv in H as (? & ? & H & ?)
  | H : store_err _ _ = (Ok _, _) |- _ => apply store_err_ok in H
  | H : ret _ _ = _ |- _ => unfold ret in H; simplify_eq
  end.

(** What the counter of a job shows, 0 when it holds no number. *)
Definition misses (job : JobId) (r : redis) : Z := default 0 (number_at (missing_key job) r).

Section counter_laws.
Context {W : Type} `{RedisLaws W}.

Lemma increment_ok job w n w' :
  tracker_increment_not_found job w = (Ok n, w') ->
  n = misses job (server w) + 1 /\ 0 <= n <= u32_max /\
  forall j, misses j (server w') = if decide (job = j) then n else misses j (server w).
Proof.
  unfold tracker_increment_not_found. intros Hi. store_inv. case_bool_decide; unfold ret in *; simplify_eq.
  apply eval_ok in Hi as (v & Hrun & Hv). unfold Lua.run, Lua.eval_expr, Lua.redis_call in Hrun. simpl in Hrun.
  destruct (other_type _ _); [done|]. destruct (number_at (missing_key job) (server w)) as [m|] eqn:Hm; [|done].
  simpl in Hrun. case_bool_decide as Hmax; [|done]. injection Hrun as <- Hw. simpl in Hv. injection Hv as Hv.
  unfold misses at 1. rewrite Hm. simpl.
  split_and!; [done|lia|lia|]. intros j. unfold misses, number_at. rewrite <- Hw, value_overwrite.
  destruct (decide (job = j)) as [->|Hne].
  - rewrite decide_True by done. rewrite string2ll_show; [done|]. unfold u32_max, i64_max in *. lia.
  - rewrite decide_False; [done|]. by intros ?%missing_key_inj.
Qed.

Lemma clear_ok job w w' :
  tracker_clear_not_found job w = (Ok tt, w') ->
  forall j, misses j (server w') = if decide (job = j) then 0 else misses j (server w).
Proof.
  unfold tracker_clear_not_found. intros Hc j. store_inv.
  match goal with He : eval _ _ _ _ = _ |- _ => apply eval_ok in He as (v & Hrun & _) end.
  unfold Lua.run, Lua.eval_expr, Lua.redis_call in Hrun. simpl in Hrun. injection Hrun as _ Hw.
  unfold misses, number_at. rewrite <- Hw, value_remove_key.
  destruct (decide (job = j)) as [->|Hne]; [by rewrite decide_True by done|].
  rewrite decide_False; [done|]. by intros ?%missing_key_inj.
Qed.

Lemma perform_streak job ops w w' :
  try_for_each Missing.perform ops w = (Ok tt, w') ->
  misses job (server w') = Missing.streak job (misses job (server w)) ops.
Proof.
  revert w. induction ops as [|o ops IH]; intros w Hrun; simpl in *; [by unfold ret in *; simplify_eq|].
  apply try_inv in Hrun as ([] & w1 & Ho & Hrun). rewrite (IH w1 Hrun). clear IH Hrun.
  destruct o as [j|j]; simpl in *.
  - apply try_inv in Ho as (n & w2 & Hi & Hr). unfold ret in Hr. simplify_eq.
    apply increment_ok in Hi as (-> & _ & ->). by destruct (decide (j = job)) as [->|].
  - apply clear_ok with (j := job) in Ho as ->. by destruct (decide (j = job)).
Qed.
End counter_laws.

(** The missing-job counter counts consecutive misses: whatever increments
    and clears of whatever jobs have been answered, the next increment of a job
    replies one more than the number of its increments since its last clear,
    which is in the range of a [u32], and the clears of other jobs do not count. *)
Theorem counts_consecutive_misses {W} `{RedisLaws W} job ops (w w1 w2 : W) n :
  try_for_each Missing.perform (Missing.Clear job :: ops) w = (Ok tt, w1) ->
  tracker_increment_not_found job w1 = (Ok n, w2) ->
  n = Missing.streak job 0 ops + 1 /\ n <= u32_max.
Proof.
  intros Hrun Hi. apply perform_streak with (job := job) in Hrun. simpl in Hrun.
  rewrite decide_True in Hrun by done. apply increment_ok in Hi as (-> & ? & _).
  split; [by rewrite <- Hrun|lia].
Qed.

Lemma counts_consecutive_misses_witness :
  let ops := [Missing.Increment "a"; Missing.Increment "b"; Missing.Clear "b"; Missing.Increment "a"] in
  let w1 := snd (try_for_each Missing.perform (Missing.Clear "a" :: ops) Server.empty) in
  let w2 := snd (tracker_increment_not_found "a" w1) in
  (try_for_each Missing.perform (Missing.Clear "a" :: ops) Server.empty = (Ok tt, w1) /\
   tracker_increment_not_found "a" w1 = (Ok 3, w2)) /\
  3 = Missing.streak "a" 0 ops + 1 /\ 3 <= u32_max.
Proof.
  intros ops w1 w2.
  assert (H : try_for_each Missing.perform (Missing.Clear "a" :: ops) Server.empty = (Ok tt, w1) /\
    tracker_increment_not_found "a" w1 = (Ok 3, w2)) by (split; vm_compute; reflexivity).
  split; [exact H|]. exact (counts_consecutive_misses "a" ops Server.empty w1 w2 3 (proj1 H) (proj2 H)).
Defined.

(** ** The lock *)

Section exclusion.
Context {W : Type} `{RedisLaws W} (key : string).

Lemma acquire_reply self ttl w b w' :
  store_try_acquire_lock self key ttl w = (Ok b, w') ->
  if key_exists (lock_key key) (server w) then b = false /\ server w' = server w
  else b = true /\ server w' = set_strings
      (<[lock_key key := (instance_id self, Some (server_ms (server w) + as_i64 (as_millis ttl)))]>
         (strings (server w))) (server w).
Proof.
  unfold store_try_acquire_lock. intros Ha. store_inv.
  match goal with Hs : set_nx_px _ _ _ _ = _ |- _ => apply set_nx_px_ok in Hs end.
  destruct (key_exists _ _); destruct_and?; subst; by split.
Qed.

(** The lock is free when no key is in its place. *)
Lemma key_free k r : key_exists k r = false -> value k r = None.
Proof. unfold key_exists. intros [Hv _]%orb_false_iff. apply bool_decide_eq_false in Hv. destruct (value k r); [|done]. by destruct Hv. Qed.

(** The release script deletes the key when it holds the caller's name, and does
    nothing otherwise. *)
Lemma release_reply self w w' :
  store_release_lock self key w = (Ok tt, w') ->
  server w' = if bool_decide (value (lock_key key) (server w) = Some (instance_id self))
              then remove_key (lock_key key) (server w) else server w.
Proof.
  unfold store_release_lock. intros Hr. store_inv.
  match goal with He : eval _ _ _ _ = _ |- _ => apply eval_ok in He as (v & Hrun & _) end.
  unfold release_script, Lua.run, Lua.eval_expr, Lua.redis_call in Hrun. simpl in Hrun.
  destruct (other_type _ _); [done|]. simpl in Hrun.
  destruct (value (lock_key key) (server w)) as [holder|]; simpl in Hrun; [|by simplify_eq].
  destruct (decide (holder = instance_id self)) as [->|Hne].
  - rewrite bool_decide_eq_true_2 in Hrun by done. rewrite bool_decide_eq_true_2 by done. by simplify_eq/=.
  - rewrite bool_decide_eq_false_2 in Hrun by congruence. rewrite bool_decide_eq_false_2 by congruence. by simplify_eq/=.
Qed.

Lemma release_spares self w w' :
  store_release_lock self key w = (Ok tt, w') ->
  server_ms (server w') = server_ms (server w) /\
  (value (lock_key key) (server w) <> Some (instance_id self) ->
   Locking.entry key w' = Locking.entry key w).
Proof.
  intros Hw%release_reply. unfold Locking.entry. rewrite Hw. case_bool_decide; [|done]. split; [done|]. by intros [].
Qed.

Lemma entry_expired w i e :
  Locking.entry key w = Some (i, Some e) ->
  value (lock_key key) (server w) = if bool_decide (server_ms (server w) < e) then Some i else None.
Proof. unfold Locking.entry, value. by intros ->. Qed.

Lemma inv_initial w : Locking.inv key (w, ∅).
Proof. intros i e Hi. done. Qed.

Lemma step_inv s s' : Locking.step key s s' -> Locking.inv key s -> Locking.inv key s'.
Proof.
  intros Hs Hinv. destruct Hs as [self ttl w w' h Httl Ha|self ttl w w' h Ha|self ttl w w' h Ht Hl
    |self w w' h Hr|w w' h Ht He]; intros i e Hi Hlt; simpl in *.
  - apply acquire_reply in Ha. destruct (key_exists _ _) eqn:Hv; [by destruct Ha|]. destruct Ha as [_ Hw].
    apply key_free in Hv. rewrite Hw in Hlt. unfold Locking.entry. rewrite Hw. simpl in *. rewrite as_i64_small by done.
    apply lookup_insert_Some in Hi as [[<- <-]|[Hne Hi]]; [by rewrite lookup_insert_eq|].
    specialize (Hinv i e Hi Hlt). apply entry_expired in Hinv. simpl in Hinv.
    by rewrite Hv, bool_decide_eq_true_2 in Hinv.
  - apply acquire_reply in Ha. destruct (key_exists _ _) eqn:Hv; [|by destruct Ha]. destruct Ha as [_ Hw].
    unfold Locking.entry. rewrite Hw in *. by apply Hinv.
  - specialize (Hinv i e Hi ltac:(simpl; lia)). destruct Hl as [->|[Hv _]]; [done|].
    apply entry_expired in Hinv. simpl in Hinv. rewrite Hv, bool_decide_eq_true_2 in Hinv by lia. done.
  - apply lookup_delete_Some in Hi as [Hne Hi]. apply release_spares in Hr as [Ht Hr].
    rewrite Ht in Hlt. pose proof (Hinv i e Hi Hlt) as He. rewrite Hr; [done|].
    rewrite (entry_expired w i e He), bool_decide_eq_true_2 by done. congruence.
  - rewrite He. apply Hinv; [done|]. simpl. lia.
Qed.
End exclusion.

(** C9.  The distributed lock excludes: from a world in which no instance holds
    the lock, however acquisitions, refusals, lost replies, releases and the
    passing of time are interleaved between any number of instances, at every
    moment at most one of them holds the lock with its time to live not yet
    over; and a release by an instance whose time ran out leaves a later
    holder's lock in place.  A release runs the program's compare-and-delete
    script on the server's data; the laws assumed of Redis say what SET NX PX,
    GET and DEL do. *)
Theorem lock_excludes {W} `{RedisLaws W} key (w : W) s :
  rtc (Locking.step key) (w, ∅) s ->
  (forall i j, Locking.holder s i -> Locking.holder s j -> i = j) /\
  (forall self w' i, store_release_lock self key s.1 = (Ok tt, w') ->
     Locking.holder s i -> i <> instance_id self -> value (lock_key key) (server w') = Some i).
Proof.
  intros Hs. assert (Hinv : Locking.inv key s).
  { revert Hs. apply rtc_ind_r; [apply inv_initial|]. intros; by eapply step_inv. }
  split.
  - intros i j (e & Hi & He) (e' & Hj & He'). pose proof (Hinv i e Hi He). pose proof (Hinv j e' Hj He').
    congruence.
  - intros self w' i Hr (e & Hi & He) Hne. pose proof (Hinv i e Hi He) as Hent.
    apply release_spares in Hr as [Ht Hr]. rewrite (entry_expired key w' i e).
    + by rewrite Ht, bool_decide_eq_true_2.
    + rewrite Hr; [done|]. rewrite (entry_expired _ _ _ _ Hent), bool_decide_eq_true_2 by done. congruence.
Qed.

(** Instance [a] overruns its 35 seconds, [b] takes the lock, [a] releases. *)
Module Overrun.
Definition a : RedisActivityStore := mkActivityStore "a".
Definition b : RedisActivityStore := mkActivityStore "b".
Definition ttl : Z := duration_from_secs 35.
Definition w1 : redis := snd (store_try_acquire_lock a "k" ttl Server.empty).
Definition w2 : redis := mkRedis (hashes w1) (zsets w1) (strings w1) 36000.
Definition w3 : redis := snd (store_try_acquire_lock b "k" ttl w2).
Definition final : redis * gmap string Z := (w3, <["b" := 71000]> (<["a" := 35000]> ∅)).
End Overrun.

Lemma lock_excludes_witness :
  rtc (Locking.step "k") (Server.empty, ∅) Overrun.final /\ Locking.holder Overrun.final "b" /\
  ((forall i j, Locking.holder Overrun.final i -> Locking.holder Overrun.final j -> i = j) /\
   (forall self w' i, store_release_lock self "k" Overrun.w3 = (Ok tt, w') ->
     Locking.holder Overrun.final i -> i <> instance_id self ->
     value (lock_key "k") (server w') = Some i)).
Proof.
  assert (H : rtc (Locking.step "k") (Server.empty, ∅) Overrun.final).
  { eapply rtc_l; [eapply (Locking.Acquired _ Overrun.a Overrun.ttl _ Overrun.w1); vm_compute; [split; congruence|done]|].
    eapply rtc_l; [eapply (Locking.Elapsed _ _ Overrun.w2); vm_compute; [congruence|done]|].
    eapply rtc_l; [eapply (Locking.Acquired _ Overrun.b Overrun.ttl _ Overrun.w3); vm_compute; [split; congruence|done]|].
    apply rtc_refl. }
  split; [exact H|]. split; [by exists 71000|]. exact (lock_excludes "k" Server.empty _ H).
Defined.

(** ** Idle jobs *)

(** The system clock does not touch the server. *)
Class SystemTimeLaws (W : Type) `{RedisLaws W, SystemTime W} :=
  epoch_server w : server (snd (epoch_nanos w)) = server w.

#[export] Instance server_time : SystemTime redis := {|
  epoch_nanos r := (duration_from_millis (server_ms r), r) |}.
#[export] Instance server_time_laws : SystemTimeLaws redis.
Proof. by intros w. Qed.

(** The jobs' last activity as whole seconds. *)
Definition tracks (m : gmap JobId Z) (r : redis) : Prop :=
  zset ACTIVITY_KEY r = f64_of_Z <$> m /\ forall j s, m !! j = Some s -> 0 <= s < two53.

(** The clock shows the whole second [s]. *)
Definition shows {W} `{SystemTime W} (s : Z) (w : W) : Prop :=
  fst (epoch_nanos w) = duration_from_secs s /\ 0 <= s < two53.

Lemma neg_infinity_leb a : 0 <= a < two53 -> f64_leb f64_neg_infinity (f64_of_Z a) = true.
Proof. intros Ha. destruct a as [|p|p]; [done| |lia]. by rewrite f64_of_pos_exact by lia. Qed.

Section idle.
Context {W : Type} `{SystemTimeLaws W}.

Lemma now_whole s w : shows s w -> exists w', now_epoch_secs w = (f64_of_Z s, w') /\ server w' = server w.
Proof.
  intros [Hs Hr]. pose proof (epoch_server w) as Hw. unfold now_epoch_secs, bind, ret.
  destruct (epoch_nanos w) as [t w'] eqn:E. simpl in *. subst t. exists w'. split; [|done].
  rewrite Z.max_r by (unfold duration_from_secs, nanos_per_sec; lia). by rewrite as_secs_f64_whole.
Qed.

Lemma record_tracks j s m w w' :
  shows s w -> tracks m (server w) -> store_record_activity j w = (Ok tt, w') ->
  tracks (<[j := s]> m) (server w').
Proof.
  intros Hs [Hz Hm] Hr. destruct (now_whole s w Hs) as (w1 & Hn & Hw1).
  unfold store_record_activity in Hr. rewrite (bind_run _ _ _ _ _ Hn) in Hr. store_inv.
  match goal with Hz : zadd _ _ _ _ = (Ok ?u, _) |- _ => destruct u; apply zadd_ok in Hz as Hw2 end.
  rewrite Hw1 in Hw2. split.
  - rewrite Hw2, zset_set_zset, decide_True, Hz by done. by rewrite fmap_insert.
  - intros k y [[<- <-]|[_ Hk]]%lookup_insert_Some; [apply Hs|eauto].
Qed.

Lemma remove_tracks j m w w' :
  tracks m (server w) -> store_remove_activity j w = (Ok tt, w') -> tracks (delete j m) (server w').
Proof.
  intros [Hz Hm] Hr. unfold store_remove_activity in Hr. store_inv.
  match goal with Hz : zrem _ _ _ = _ |- _ => apply zrem_ok in Hz as Hw2 end.
  split.
  - rewrite Hw2, zset_set_zset, decide_True, Hz by done. by rewrite fmap_delete.
  - intros k y [_ Hk]%lookup_delete_Some. eauto.
Qed.

Lemma has_tracks j m w w' b :
  tracks m (server w) -> store_has_activity j w = (Ok b, w') ->
  b = bool_decide (is_Some (m !! j)) /\ server w' = server w.
Proof.
  intros [Hz Hm] Hr. unfold store_has_activity in Hr. store_inv.
  match goal with Hz : zscore _ _ _ = _ |- _ => apply zscore_ok in Hz as [-> ->] end.
  split; [|done]. rewrite Hz, lookup_fmap. apply bool_decide_ext. by rewrite fmap_is_Some.
Qed.

End idle.

(** C37.  Idle detection is exact on whole seconds: a store that holds the last
    activity of each job keeps doing so when a request is recorded and when a
    job is removed, knows exactly the jobs with an activity, and reports idle
    exactly the jobs whose last activity is at least the threshold ago, each
    once: the double-precision cutoff neither hides a due job nor reports one
    early.  A job idle for exactly the threshold is reported; the README and the
    trait's documentation say longer than the threshold (a finding). *)
Theorem idle_detection_is_exact {W} `{SystemTimeLaws W} (w : W) s d m :
  shows s w -> tracks m (server w) -> 0 <= d < two53 ->
  (forall j w', store_record_activity j w = (Ok tt, w') -> tracks (<[j := s]> m) (server w')) /\
  (forall j w', store_remove_activity j w = (Ok tt, w') -> tracks (delete j m) (server w')) /\
  (forall j b w', store_has_activity j w = (Ok b, w') -> b = bool_decide (is_Some (m !! j))) /\
  (forall l w', store_get_idle_jobs (duration_from_secs d) w = (Ok l, w') ->
     NoDup l /\ forall j, j ∈ l <-> exists a, m !! j = Some a /\ a + d <= s).
Proof.
  intros Hs Ht Hd. split_and!; [intros; by eapply record_tracks|intros; by eapply remove_tracks
    |intros; by edestruct has_tracks|].
  intros l w' Hl. destruct (now_whole s w Hs) as (w1 & Hn & Hw1).
  unfold store_get_idle_jobs in Hl. rewrite (bind_run _ _ _ _ _ Hn) in Hl. store_inv.
  match goal with Hz : zrangebyscore _ _ _ _ = _ |- _ => apply zrangebyscore_ok in Hz as (_ & Hnd & Hin) end.
  split; [done|]. intros j. rewrite Hin, Hw1. destruct Ht as [-> Hm]. destruct Hs as [_ Hs].
  rewrite as_secs_f64_whole, f64_sub_exact by done.
  setoid_rewrite lookup_fmap_Some. unfold in_range. split.
  - intros (sc & (a & <- & Ha) & [_ Hle]%andb_true_iff). pose proof (Hm j a Ha).
    rewrite f64_leb_exact in Hle by lia. exists a. split; [done|]. lia.
  - intros (a & Ha & Hle). pose proof (Hm j a Ha). exists (f64_of_Z a). split; [eauto|].
    apply andb_true_iff. split; [by apply neg_infinity_leb|]. rewrite f64_leb_exact by lia. lia.
Qed.

Lemma idle_detection_is_exact_witness :
  let w := mkRedis ∅ (zsets (snd (store_record_activity "a" Server.empty))) ∅ 300000 in
  (shows 300 w /\ tracks {["a" := 0]} (server w) /\ 0 <= 300 < two53) /\
  store_get_idle_jobs (duration_from_secs 300) w = (Ok ["a"], w) /\
  exists a, ({["a" := 0]} : gmap string Z) !! "a" = Some a /\ a + 300 <= 300.
Proof.
  intros w.
  assert (H : shows 300 w /\ tracks {["a" := 0]} (server w) /\ 0 <= 300 < two53).
  { unfold shows, tracks, two53. split_and!; [by vm_compute|lia..|by vm_compute| |lia|lia].
    intros j s [_ <-]%lookup_singleton_Some. lia. }
  assert (Hg : store_get_idle_jobs (duration_from_secs 300) w = (Ok ["a"], w)) by (vm_compute; reflexivity).
  split; [exact H|]. split; [exact Hg|].
  destruct (idle_detection_is_exact w 300 300 {["a" := 0]} (proj1 H) (proj1 (proj2 H)) (proj2 (proj2 H)))
    as (_ & _ & _ & Hl).
  apply (Hl _ _ Hg). by left.
Defined.
