(* ===== verification/Durable.v ===== *)
(** * Durable: what the durable registry promises the job registry

    The contract of the trait [DurableRegistry] of [nscale-core/src/traits.rs]:
    registrations by job and by service.  [Etcd] shows that the etcd client
    keeps it; [Registry] is proved against it. *)

From S2P Require Import Prelude Str F64 Core.

Record durable := mkDurable {
  by_job : gmap string JobRegistration;
  by_service : gmap string JobRegistration }.

Definition no_durable : durable := mkDurable ∅ ∅.

Definition durable_store (reg : JobRegistration) (d : durable) : durable :=
  mkDurable (<[job_id reg := reg]> (by_job d)) (<[service_name reg := reg]> (by_service d)).

(** The entries of [m] that are not of job [j]. *)
Definition without_job (j : string) (m : gmap string JobRegistration) : gmap string JobRegistration :=
  filter (fun p => job_id p.2 <> j) m.

Definition durable_remove (j : string) (d : durable) : durable :=
  mkDurable (delete j (by_job d)) (without_job j (by_service d)).

(** All registrations: those by service if there are any. *)
Definition durable_list (d : durable) : list JobRegistration :=
  match (map_to_list (by_service d)).*2 with
  | [] => (map_to_list (by_job d)).*2
  | l => l
  end.

(** Filed under its own names. *)
Definition filed (jobs services : gmap string JobRegistration) : Prop :=
  map_Forall (fun k reg => job_id reg = k) jobs /\
  map_Forall (fun k reg => service_name reg = k) services.

(** [represents w d]: the registry holds [d] in the world [w]; [storable]
    delimits the registrations it accepts. *)
Class DurableLaws (W : Type) `{DurableRegistry W} := {
  represents : W -> durable -> Prop;
  storable : JobRegistration -> Prop;
  represented_filed w d : represents w d -> filed (by_job d) (by_service d);
  durable_store_ok reg w w' d :
    represents w d -> storable reg -> store_registration reg w = (Ok tt, w') ->
    represents w' (durable_store reg d);
  durable_remove_ok j w w' d :
    represents w d -> remove_registration j w = (Ok tt, w') -> represents w' (durable_remove j d);
  durable_by_job_ok j w r w' d :
    represents w d -> get_by_job_id j w = (Ok r, w') -> r = by_job d !! j /\ represents w' d;
  durable_by_service_ok s w r w' d :
    represents w d -> get_by_service_name s w = (Ok r, w') -> r = by_service d !! s /\ represents w' d;
  durable_list_ok w l w' d :
    represents w d -> durable_list_all w = (Ok l, w') -> l ≡ₚ durable_list d /\ represents w' d }.

(** ** Lemmas *)

Lemma without_job_lookup j m k reg :
  without_job j m !! k = Some reg <-> m !! k = Some reg /\ job_id reg <> j.
Proof. apply map_lookup_filter_Some. Qed.

Lemma without_job_None j m k :
  without_job j m !! k = None <-> forall reg, m !! k = Some reg -> job_id reg = j.
Proof.
  unfold without_job. rewrite map_lookup_filter_None. split.
  - intros [Hk|Hk] reg Hr; [congruence|]. specialize (Hk reg Hr). simpl in Hk.
    by destruct (decide (job_id reg = j)).
  - intros Hk. right. intros reg Hr. simpl. intros Hne. by apply Hne, Hk.
Qed.

Lemma filed_empty : filed ∅ ∅.
Proof. split; apply map_Forall_empty. Qed.

Lemma filed_store reg jobs services :
  filed jobs services -> filed (<[job_id reg := reg]> jobs) (<[service_name reg := reg]> services).
Proof. intros [Hj Hs]. split; by apply map_Forall_insert_2. Qed.

Lemma filed_remove j jobs services :
  filed jobs services -> filed (delete j jobs) (without_job j services).
Proof.
  intros [Hj Hs]. split; [by apply map_Forall_delete|].
  intros k reg [Hk _]%without_job_lookup. by apply Hs.
Qed.

Lemma durable_list_nil d : durable_list d = [] -> by_job d = ∅ /\ by_service d = ∅.
Proof.
  unfold durable_list. destruct (map_to_list (by_service d)) as [|p l] eqn:E; simpl; [|done].
  intros Hj%fmap_nil_inv. by rewrite map_to_list_empty_iff in E, Hj.
Qed.
