(* ===== verification/Registry.v ===== *)
(** * Registry: the job registry

    Models [crates/nscale-store/src/registry.rs]: two hashes of the server, by
    job and by service, in front of an optional durable registry, for which
    [Durable] states the contract. *)

From S2P Require Import Prelude Str F64 Core Json Waker Ifaces Redis Activity Durable.
Local Open Scope Z_scope.

Definition REGISTRY_BY_JOB_KEY : string := "nscale:jobs".
Definition REGISTRY_BY_SERVICE_KEY : string := "nscale:jobs:services".

(** Whether a durable registry is configured. *)
Record JobRegistry := mkJobRegistry { has_durable : bool }.

Section registry.
Context {W : Type} `{Redis W, JsonText, DurableRegistry W}.
Context (self : JobRegistry).

Definition encode_registration (reg : JobRegistration) : Result string :=
  res_map_err NscaleError.Store (json_to_string (ser_JobRegistration reg)).

(** [serde_json::from_str(&value)?]. *)
Definition decode_cached (value : string) : Result JobRegistration :=
  res_map_err NscaleError.Json (from_json de_JobRegistration value).

Definition cache_registration (reg : JobRegistration) : M W unit := (
  let? value := ret (encode_registration reg) in
  do? store_err (hset REGISTRY_BY_JOB_KEY (job_id reg) value) in
  do? store_err (hset REGISTRY_BY_SERVICE_KEY (service_name reg) value) in
  ret (Ok tt))%st.

(** One entry of the service hash. *)
Definition remove_service_entry (job : JobId) (e : string * string) : M W unit := (
  let? reg := ret (decode_cached e.2) in
  if bool_decide (job_id reg = job)
  then do? store_err (hdel REGISTRY_BY_SERVICE_KEY e.1) in ret (Ok tt)
  else ret (Ok tt))%st.

Definition remove_cached_registration (job : JobId) : M W unit := (
  let? service_entries := store_err (hgetall REGISTRY_BY_SERVICE_KEY) in
  do? try_for_each (remove_service_entry job) service_entries in
  do? store_err (hdel REGISTRY_BY_JOB_KEY job) in
  ret (Ok tt))%st.

Definition sync_from_durable : M W Z := (
  if negb (has_durable self) then ret (Ok 0)
  else
    let? regs := durable_list_all in
    do? try_for_each cache_registration regs in
    ret (Ok (Z.of_nat (length regs))))%st.

Definition register (reg : JobRegistration) : M W unit := (
  do? (if has_durable self then store_registration reg else ret (Ok tt)) in
  do? cache_registration reg in
  ret (Ok tt))%st.

Definition get_from_hash (hash_key fld : string) : M W (option JobRegistration) := (
  let? value := store_err (hget hash_key fld) in
  match value with
  | Some v => let? reg := ret (decode_cached v) in ret (Ok (Some reg))
  | None => ret (Ok None)
  end)%st.

(** The durable registry asked for a job, then for a service. *)
Definition durable_hit (lookup : JobId) : M W (option JobRegistration) := (
  let? hit := get_by_job_id lookup in
  match hit with
  | Some reg => ret (Ok (Some reg))
  | None => get_by_service_name lookup
  end)%st.

Definition get (lookup : JobId) : M W (option JobRegistration) := (
  let? hit := get_from_hash REGISTRY_BY_JOB_KEY lookup in
  match hit with
  | Some reg => ret (Ok (Some reg))
  | None =>
      let? hit := get_from_hash REGISTRY_BY_SERVICE_KEY lookup in
      match hit with
      | Some reg => ret (Ok (Some reg))
      | None =>
          if negb (has_durable self) then ret (Ok None)
          else
            let? hit := durable_hit lookup in
            match hit with
            | Some reg => do? cache_registration reg in ret (Ok (Some reg))
            | None => ret (Ok None)
            end
      end
  end)%st.

Definition deregister (job : JobId) : M W unit := (
  let? existing := get job in
  if has_durable self then
    do? remove_registration job in
    let* r := remove_cached_registration job in
    match r with
    | Err err =>
        match existing with
        | Some reg => let* _ := store_registration reg in ret (Err err)
        | None => ret (Err err)
        end
    | Ok _ => ret (Ok tt)
    end
  else
    do? remove_cached_registration job in
    ret (Ok tt))%st.

Fixpoint decode_all (entries : list (string * string)) : Result (list JobRegistration) :=
  match entries with
  | [] => Ok []
  | e :: es => res_bind (decode_cached e.2) (fun reg => res_map (cons reg) (decode_all es))
  end.

Definition list_all : M W (list JobRegistration) := (
  let? entries := store_err (hgetall REGISTRY_BY_SERVICE_KEY) in
  let? entries := (match entries with
                   | [] => store_err (hgetall REGISTRY_BY_JOB_KEY)
                   | _ => ret (Ok entries)
                   end) in
  match entries with
  | [] =>
      if negb (has_durable self) then ret (Ok [])
      else
        let? regs := durable_list_all in
        do? try_for_each cache_registration regs in
        ret (Ok regs)
  | _ => ret (decode_all entries)
  end)%st.

#[export] Instance job_registry : Registry W := {|
  registry_register := register;
  registry_deregister := deregister;
  registry_get := get;
  registry_list_all := list_all |}.

End registry.

(** ** Specification

    What the registry knows: the two caches and the durable registry, as finite
    maps.  [Rep] relates it to the world. *)

Record known := mkKnown {
  cached_jobs : gmap string JobRegistration;
  cached_services : gmap string JobRegistration;
  kept : durable }.

Module Spec.
Definition cached (reg : JobRegistration) (s : known) : known :=
  mkKnown (<[job_id reg := reg]> (cached_jobs s)) (<[service_name reg := reg]> (cached_services s)) (kept s).
Definition cached_all (regs : list JobRegistration) (s : known) : known := foldl (flip cached) s regs.
Definition dropped (j : string) (s : known) : known :=
  mkKnown (delete j (cached_jobs s)) (without_job j (cached_services s)) (kept s).

Section spec.
Context (self : JobRegistry).

Definition kept_map (f : durable -> durable) (s : known) : known :=
  mkKnown (cached_jobs s) (cached_services s) (if has_durable self then f (kept s) else kept s).

Definition registered (reg : JobRegistration) (s : known) : known :=
  cached reg (kept_map (durable_store reg) s).

(** The four places a name is looked up in, in order. *)
Definition in_cache (k : string) (s : known) : option JobRegistration :=
  match cached_jobs s !! k with Some reg => Some reg | None => cached_services s !! k end.
Definition in_durable (k : string) (s : known) : option JobRegistration :=
  match by_job (kept s) !! k with Some reg => Some reg | None => by_service (kept s) !! k end.

Definition looked_up (k : string) (s : known) : option JobRegistration * known :=
  match in_cache k s with
  | Some reg => (Some reg, s)
  | None =>
      if has_durable self then
        match in_durable k s with Some reg => (Some reg, cached reg s) | None => (None, s) end
      else (None, s)
  end.

Definition deregistered (j : string) (s : known) : known :=
  dropped j (kept_map (durable_remove j) (snd (looked_up j s))).

(** What a listing may return, and the caches after it. *)
Definition listed (regs : list JobRegistration) (s s' : known) : Prop :=
  if decide (cached_services s <> ∅) then regs ≡ₚ (map_to_list (cached_services s)).*2 /\ s' = s
  else if decide (cached_jobs s <> ∅) then regs ≡ₚ (map_to_list (cached_jobs s)).*2 /\ s' = s
  else if has_durable self then regs ≡ₚ durable_list (kept s) /\ s' = cached_all regs s
  else regs = [] /\ s' = s.

Definition synced (regs : list JobRegistration) (s : known) : Prop :=
  if has_durable self then regs ≡ₚ durable_list (kept s) else regs = [].
End spec.
End Spec.

(** The text of a registration. *)
Definition text_of `{JsonText} (_ : string) (t : string) (reg : JobRegistration) : Prop :=
  from_json de_JobRegistration t = Ok reg.

(** The commands and the durable registry's calls leave each other's data alone. *)
Class Separate (W : Type) `{RedisLaws W, DurableLaws W} := {
  hset_represents k f v w d : represents w d -> represents (snd (hset k f v w)) d;
  hget_represents k f w d : represents w d -> represents (snd (hget k f w)) d;
  hgetall_represents k w d : represents w d -> represents (snd (hgetall k w)) d;
  hdel_represents k f w d : represents w d -> represents (snd (hdel k f w)) d;
  store_server reg w : server (snd (store_registration reg w)) = server w;
  remove_server j w : server (snd (remove_registration j w)) = server w;
  by_job_server j w : server (snd (get_by_job_id j w)) = server w;
  by_service_server s w : server (snd (get_by_service_name s w)) = server w;
  list_server w : server (snd (durable_list_all w)) = server w }.

Section rep.
Context {W : Type} `{JsonTextLaws, Separate W}.
Context (self : JobRegistry).

Record Rep (w : W) (s : known) : Prop := mkRep {
  rep_jobs : map_Forall2 text_of (hash REGISTRY_BY_JOB_KEY (server w)) (cached_jobs s);
  rep_services : map_Forall2 text_of (hash REGISTRY_BY_SERVICE_KEY (server w)) (cached_services s);
  rep_filed : filed (cached_jobs s) (cached_services s);
  rep_durable : has_durable self = true -> represents w (kept s) }.

Lemma encode_decode reg v :
  encode_registration reg = Ok v -> text_of "" v reg.
Proof.
  unfold encode_registration, text_of, from_json. destruct (json_text_of_registration reg) as (t & -> & Ht).
  intros [= <-]. rewrite Ht. unfold res_bind. by rewrite de_ser_JobRegistration.
Qed.

Lemma Rep_ext w w' s :
  Rep w s -> server w' = server w -> (forall d, represents w d -> represents w' d) -> Rep w' s.
Proof. intros [Hj Hs Hf Hd] Hw Hr. split; rewrite ?Hw; auto. Qed.

Lemma Rep_kept w w' s d :
  Rep w s -> server w' = server w -> (has_durable self = true -> represents w' d) ->
  Rep w' (mkKnown (cached_jobs s) (cached_services s) d).
Proof. intros [Hj Hs Hf Hd] Hw Hr. split; rewrite ?Hw; auto. Qed.

Lemma cache_rep reg w s w' :
  Rep w s -> cache_registration reg w = (Ok tt, w') -> Rep w' (Spec.cached reg s).
Proof.
  intros [Hj Hs Hf Hd] Hc. unfold cache_registration in Hc.
  apply try_inv in Hc as (v & w0 & He & Hc). unfold ret in He. injection He as He <-.
  apply encode_decode in He. store_inv.
  repeat match goal with u : unit |- _ => destruct u end.
  match goal with
  | H1 : hset REGISTRY_BY_JOB_KEY _ _ _ = (_, ?w1), H2 : hset REGISTRY_BY_SERVICE_KEY _ _ _ = _ |- _ =>
      pose proof (hset_ok _ _ _ _ _ H1) as E1; pose proof (hset_ok _ _ _ _ _ H2) as E2;
      pose proof (hset_represents REGISTRY_BY_JOB_KEY (job_id reg) v w (kept s)) as R1;
      pose proof (hset_represents REGISTRY_BY_SERVICE_KEY (service_name reg) v w1 (kept s)) as R2;
      rewrite H1 in R1; rewrite H2 in R2
  end.
  rewrite E1 in E2. split; simpl; [| |by apply filed_store|auto]; rewrite E2, !hash_set_hash;
    cbn; (apply map_Forall2_insert_2; [exact He|done]).
Qed.

Lemma cache_all_rep regs w s w' :
  Rep w s -> try_for_each cache_registration regs w = (Ok tt, w') -> Rep w' (Spec.cached_all regs s).
Proof.
  revert w s. induction regs as [|reg regs IH]; intros w s Hr Hc; simpl in *.
  - unfold ret in Hc. by simplify_eq.
  - apply try_inv in Hc as ([] & w1 & Hc & Hcs). eapply IH; [|done]. by eapply cache_rep.
Qed.

(** The three readers leave the registry as it is. *)
Lemma hget_rep K k w s r w' :
  Rep w s -> hget K k w = (Ok r, w') -> r = hash K (server w) !! k /\ Rep w' s.
Proof.
  intros Hr Hg. apply hget_ok in Hg as Hg'. destruct Hg' as [Hs ->]. split; [done|].
  apply (Rep_ext w); [done..|]. intros d Hd. apply (hget_represents K k) in Hd. by rewrite Hg in Hd.
Qed.

Lemma from_hash_rep K m k w s r w' :
  map_Forall2 text_of (hash K (server w)) m -> Rep w s -> get_from_hash K k w = (Ok r, w') ->
  r = m !! k /\ Rep w' s.
Proof.
  intros Hm Hr Hg. unfold get_from_hash in Hg. apply try_inv in Hg as (v & w1 & Hg & Hv).
  apply store_err_ok, (hget_rep _ _ _ s) in Hg as [-> Hr1]; [|done]. specialize (Hm k).
  destruct Hm as [t reg Ht|]; [|unfold ret in Hv; by simplify_eq].
  unfold text_of in Ht. unfold decode_cached in Hv. rewrite Ht in Hv. unfold try, bind, ret in Hv. simpl in Hv.
  by simplify_eq.
Qed.

Lemma durable_hit_rep k w s r w' :
  has_durable self = true -> Rep w s -> durable_hit k w = (Ok r, w') ->
  r = Spec.in_durable k s /\ Rep w' s.
Proof.
  intros He Hr Hh. unfold durable_hit in Hh. apply try_inv in Hh as (v & w1 & Hj & Hv).
  pose proof (by_job_server k w) as Hs. rewrite Hj in Hs.
  apply durable_by_job_ok with (d := kept s) in Hj as [-> Hd]; [|by apply Hr].
  assert (Hr1 : Rep w1 s) by (by destruct s; apply (Rep_kept w _ _ _ Hr)). clear Hr Hs. unfold Spec.in_durable.
  destruct (by_job (kept s) !! k); [unfold ret in Hv; by simplify_eq|].
  pose proof (by_service_server k w1) as Hs. rewrite Hv in Hs.
  apply durable_by_service_ok with (d := kept s) in Hv as [-> Hd']; [|done].
  split; [done|]. by destruct s; apply (Rep_kept w1 _ _ _ Hr1).
Qed.

Lemma get_rep k w s r w' :
  Rep w s -> get self k w = (Ok r, w') -> r = fst (Spec.looked_up self k s) /\ Rep w' (snd (Spec.looked_up self k s)).
Proof.
  intros Hr Hg. unfold get in Hg. apply try_inv in Hg as (v & w1 & Hj & Hg).
  apply (from_hash_rep _ (cached_jobs s) _ _ s) in Hj as [-> Hr1]; [|apply Hr|done]. unfold Spec.looked_up, Spec.in_cache.
  destruct (cached_jobs s !! k); [unfold ret in Hg; by simplify_eq|]. clear Hr.
  apply try_inv in Hg as (v & w2 & Hs & Hg).
  apply (from_hash_rep _ (cached_services s) _ _ s) in Hs as [-> Hr2]; [|apply Hr1|done].
  destruct (cached_services s !! k); [unfold ret in Hg; by simplify_eq|]. clear Hr1.
  destruct (has_durable self) eqn:He; simpl in Hg; [|unfold ret in Hg; by simplify_eq].
  apply try_inv in Hg as (v & w3 & Hd & Hg). apply (durable_hit_rep _ _ s) in Hd as [-> Hr3]; [|done..].
  destruct (Spec.in_durable k s) as [reg|]; [|unfold ret in Hg; by simplify_eq].
  apply try_inv in Hg as ([] & w4 & Hc & Hg). unfold ret in Hg. simplify_eq. split; [done|].
  by eapply cache_rep.
Qed.

(** A pass over the entries of the service hash deletes those of the job. *)
Lemma remove_entries_rep j (m : gmap string JobRegistration) l w s w' :
  (forall e, e ∈ l -> exists reg, m !! e.1 = Some reg /\ text_of e.1 e.2 reg) ->
  (forall k reg, cached_services s !! k = Some reg -> m !! k = Some reg) ->
  Rep w s -> try_for_each (remove_service_entry j) l w = (Ok tt, w') ->
  exists services, Rep w' (mkKnown (cached_jobs s) services (kept s)) /\
    forall k : string, services !! k = match cached_services s !! k with
      | Some reg => if decide (job_id reg = j /\ k ∈ l.*1) then None else Some reg
      | None => None
      end.
Proof.
  revert w s. induction l as [|[k t] l IH]; intros w s Hl Hm Hr He; simpl in *.
  { unfold ret in He. simplify_eq. exists (cached_services s). split; [by destruct s|].
    intros k. destruct (cached_services s !! k); [|done]. rewrite decide_False; [done|]. intros [_ []%not_elem_of_nil]. }
  apply try_inv in He as ([] & w1 & He & Hes).
  destruct (Hl (k, t) ltac:(left)) as (reg & Hk & Ht). unfold text_of in Ht. simpl in Hk, Ht.
  unfold remove_service_entry, decode_cached in He. simpl in He. rewrite Ht in He.
  unfold try at 1, bind at 1, ret at 1 in He. simpl in He. case_bool_decide as Hj.
  - apply try_inv in He as (n & w2 & Hd & He). unfold ret in He. simplify_eq. apply store_err_ok in Hd.
    pose proof (hdel_ok _ _ _ _ _ Hd) as Hs.
    pose proof (fun d => hdel_represents REGISTRY_BY_SERVICE_KEY k w d) as Hrep. rewrite Hd in Hrep.
    destruct (IH w1 (mkKnown (cached_jobs s) (delete k (cached_services s)) (kept s))) as (sv & Hr' & Hsv).
    + intros e Hin. apply Hl. by right.
    + simpl. intros k' reg' [_ Hk']%lookup_delete_Some. by apply Hm.
    + destruct Hr as [Hj' Hs' [Hf1 Hf2] Hd']. split; simpl; auto.
      * by rewrite Hs, hash_set_hash.
      * rewrite Hs, hash_set_hash. cbn. by apply map_Forall2_delete.
      * split; [done|by apply map_Forall_delete].
    + done.
    + exists sv. split; [done|]. intros k'. rewrite Hsv. simpl. rewrite lookup_delete. case_decide as Hkk.
      * subst k'. destruct (cached_services s !! k) as [reg'|] eqn:Hc; [|done].
        apply Hm in Hc. rewrite decide_True; [done|]. split; [congruence|left].
      * destruct (cached_services s !! k') as [reg'|]; [|done]. apply decide_ext. set_solver.
  - unfold ret in He. simplify_eq. destruct (IH w1 s) as (sv & Hr' & Hsv); [by intros e Hin; apply Hl; right|done..|].
    exists sv. split; [done|]. intros k'. rewrite Hsv. destruct (cached_services s !! k') as [reg'|] eqn:Hc; [|done].
    apply decide_ext. split; [set_solver|]. intros [Hj' [->|]%elem_of_cons]; [|done].
    apply Hm in Hc. congruence.
Qed.

Lemma hgetall_rep K m w s l w' :
  map_Forall2 text_of (hash K (server w)) m -> Rep w s -> hgetall K w = (Ok l, w') ->
  Rep w' s /\ l.*1 ≡ₚ (map_to_list m).*1 /\
  (forall e, e ∈ l -> exists reg, m !! e.1 = Some reg /\ text_of e.1 e.2 reg).
Proof.
  intros Hm Hr Hg. apply hgetall_ok in Hg as Hg'. destruct Hg' as (Hs & Hnd & Hl).
  assert (Hin : forall e, e ∈ l -> exists reg, m !! e.1 = Some reg /\ text_of e.1 e.2 reg).
  { intros [k t] He. pose proof (elem_of_list_to_map_1 l k t Hnd He) as Hk. rewrite Hl in Hk.
    specialize (Hm k). rewrite Hk in Hm. inversion Hm; subst. eauto. }
  split; [|split; [|done]].
  - apply (Rep_ext w); [done..|]. intros d Hd. apply (hgetall_represents K) in Hd. by rewrite Hg in Hd.
  - apply NoDup_Permutation; [done|apply NoDup_fst_map_to_list|]. intros k. rewrite !list_elem_of_fmap. split.
    + intros ([k' t] & -> & He). destruct (Hin _ He) as (reg & Hk & _). exists (k', reg).
      split; [done|]. by apply elem_of_map_to_list.
    + intros ([k' reg] & -> & Hk%elem_of_map_to_list). specialize (Hm k'). rewrite Hk, <- Hl in Hm.
      inversion Hm as [t ? ? Ht|]; subst. exists (k', t). split; [done|]. by apply elem_of_list_to_map_2.
Qed.

Lemma remove_cached_rep j w s w' :
  Rep w s -> remove_cached_registration j w = (Ok tt, w') -> Rep w' (Spec.dropped j s).
Proof.
  intros Hr Hc. unfold remove_cached_registration in Hc.
  apply try_inv in Hc as (l & w1 & Hg & Hc). apply store_err_ok in Hg.
  destruct (hgetall_rep _ _ _ _ _ _ (rep_services _ _ Hr) Hr Hg) as (Hr1 & Hp & Hin).
  apply try_inv in Hc as ([] & w2 & Hes & Hc).
  destruct (remove_entries_rep j (cached_services s) l w1 s w2) as (sv & Hr2 & Hsv); [done..|].
  store_inv. match goal with Hd : hdel _ _ _ = _ |- _ => pose proof (hdel_ok _ _ _ _ _ Hd) as Hs;
    pose proof (fun d => hdel_represents REGISTRY_BY_JOB_KEY j w2 d) as Hrep; rewrite Hd in Hrep end.
  assert (sv = without_job j (cached_services s)) as ->.
  { apply map_eq. intros k. rewrite Hsv. destruct (cached_services s !! k) as [reg|] eqn:Hk.
    - symmetry. case_decide as Hd.
      + apply without_job_None. intros reg' Hr'. destruct Hd. congruence.
      + apply without_job_lookup. split; [done|]. intros Hj. apply Hd. split; [done|].
        rewrite Hp. apply list_elem_of_fmap. exists (k, reg). split; [done|]. by apply elem_of_map_to_list.
    - symmetry. apply without_job_None. congruence. }
  clear Hr Hr1 Hes Hin. destruct Hr2 as [Hj' Hs' Hf Hd']. simpl in *. split; simpl; auto.
  - rewrite Hs, hash_set_hash. cbn. by apply map_Forall2_delete.
  - by rewrite Hs, hash_set_hash.
  - destruct Hf as [Hf1 Hf2]. split; [by apply map_Forall_delete|done].
Qed.

Lemma register_rep reg w s w' :
  storable reg -> Rep w s -> register self reg w = (Ok tt, w') -> Rep w' (Spec.registered self reg s).
Proof.
  intros Hst Hr Hg. unfold register in Hg. apply try_inv in Hg as ([] & w1 & Hd & Hg).
  apply try_inv in Hg as ([] & w2 & Hc & Hg). unfold ret in Hg. simplify_eq.
  apply (cache_rep reg w1); [|done]. unfold Spec.kept_map. destruct (has_durable self) eqn:He.
  - pose proof (store_server reg w) as Hs. rewrite Hd in Hs.
    apply (Rep_kept w); [done..|]. intros _. eapply durable_store_ok; [by apply Hr|done|done].
  - unfold ret in Hd. simplify_eq. by destruct s.
Qed.

Lemma deregister_rep j w s w' :
  Rep w s -> deregister self j w = (Ok tt, w') -> Rep w' (Spec.deregistered self j s).
Proof.
  intros Hr Hg. unfold deregister in Hg. apply try_inv in Hg as (existing & w1 & Hd & Hg).
  apply (get_rep _ _ s) in Hd as [_ Hr1]; [|done]. clear Hr. unfold Spec.deregistered, Spec.kept_map.
  set (s1 := snd (Spec.looked_up self j s)) in *. destruct (has_durable self) eqn:He.
  - apply try_inv in Hg as ([] & w2 & Hd & Hg). unfold bind in Hg.
    destruct (remove_cached_registration j w2) as [[[]|e] w3] eqn:Hc.
    + unfold ret in Hg. simplify_eq. apply (remove_cached_rep j w2); [|done].
      pose proof (remove_server j w1) as Hs. rewrite Hd in Hs.
      apply (Rep_kept w1); [done..|]. intros _. eapply durable_remove_ok; [by apply Hr1|done].
    + exfalso. destruct existing as [reg|]; [|unfold ret in Hg; by simplify_eq].
      destruct (store_registration reg w3). unfold ret in Hg. by simplify_eq.
  - apply try_inv in Hg as ([] & w2 & Hc & Hg). unfold ret in Hg. simplify_eq.
    apply (remove_cached_rep j w1); [|done]. by destruct s1.
Qed.

Lemma durable_all_rep w s regs w' :
  has_durable self = true -> Rep w s -> durable_list_all w = (Ok regs, w') ->
  regs ≡ₚ durable_list (kept s) /\ Rep w' s.
Proof.
  intros He Hr Hl. pose proof (list_server w) as Hs. rewrite Hl in Hs.
  apply durable_list_ok with (d := kept s) in Hl as [Hp Hd]; [|by apply Hr].
  split; [done|]. destruct s. by apply (Rep_kept w _ _ _ Hr).
Qed.

Lemma sync_rep w s n w' :
  Rep w s -> sync_from_durable self w = (Ok n, w') ->
  exists regs, Spec.synced self regs s /\ n = Z.of_nat (length regs) /\ Rep w' (Spec.cached_all regs s).
Proof.
  intros Hr Hg. unfold sync_from_durable in Hg. unfold Spec.synced.
  destruct (has_durable self) eqn:He; simpl in Hg; [|unfold ret in Hg; simplify_eq; by exists []].
  apply try_inv in Hg as (regs & w1 & Hl & Hg). apply try_inv in Hg as ([] & w2 & Hc & Hg).
  unfold ret in Hg. simplify_eq. apply (durable_all_rep _ s) in Hl as [Hp Hr1]; [|done..].
  exists regs. split; [done|]. split; [done|]. by eapply cache_all_rep.
Qed.

Lemma decode_all_ok (m : gmap string JobRegistration) l :
  (forall e, e ∈ l -> exists reg, m !! e.1 = Some reg /\ text_of e.1 e.2 reg) ->
  decode_all l = Ok (omap (m !!.) l.*1).
Proof.
  induction l as [|[k t] l IH]; intros Hl; [done|]. simpl.
  destruct (Hl (k, t) ltac:(left)) as (reg & Hk & Ht). unfold text_of in Ht. simpl in *.
  unfold decode_cached. rewrite Ht, Hk. simpl. rewrite IH; [done|]. intros e He. apply Hl. by right.
Qed.

Lemma omap_keys (m : gmap string JobRegistration) : omap (m !!.) (map_to_list m).*1 = (map_to_list m).*2.
Proof.
  assert (H' : forall l, (forall e, e ∈ l -> m !! e.1 = Some e.2) -> omap (m !!.) l.*1 = l.*2).
  { induction l as [|[k r] l IH]; intros Hl; [done|]. simpl.
    pose proof (Hl (k, r) ltac:(left)) as Hk. simpl in Hk. rewrite Hk. simpl. f_equal. apply IH. intros e He. apply Hl. by right. }
  apply H'. intros [k r] He. by apply elem_of_map_to_list.
Qed.

(** Decoding a whole hash gives its registrations. *)
Lemma decode_hash_rep K m w s l w' :
  map_Forall2 text_of (hash K (server w)) m -> Rep w s -> hgetall K w = (Ok l, w') ->
  Rep w' s /\ (l = [] <-> m = ∅) /\
  exists regs, decode_all l = Ok regs /\ regs ≡ₚ (map_to_list m).*2.
Proof.
  intros Hm Hr Hg. destruct (hgetall_rep _ _ _ _ _ _ Hm Hr Hg) as (Hr1 & Hp & Hin).
  split; [done|]. split.
  - rewrite <- (map_to_list_empty_iff m). split; intros E; rewrite E in Hp; simpl in Hp.
    + symmetry in Hp. by apply Permutation_nil_r, fmap_nil_inv in Hp.
    + by apply Permutation_nil_r, fmap_nil_inv in Hp.
  - eexists. split; [by apply decode_all_ok|]. rewrite <- omap_keys. by rewrite Hp.
Qed.

Lemma list_rep w s regs w' :
  Rep w s -> list_all self w = (Ok regs, w') -> exists s', Spec.listed self regs s s' /\ Rep w' s'.
Proof.
  intros Hr Hg. unfold list_all in Hg. apply try_inv in Hg as (l & w1 & Hl & Hg). apply store_err_ok in Hl.
  destruct (decode_hash_rep _ _ _ _ _ _ (rep_services _ _ Hr) Hr Hl) as (Hr1 & Hnil & rs & Hrs & Hp).
  unfold Spec.listed. apply try_inv in Hg as (l2 & w2 & Hl2 & Hg). destruct l as [|e l].
  - destruct (decide (cached_services s <> ∅)) as [Hne|_]; [by destruct Hne; apply Hnil|].
    clear Hr Hnil rs Hrs Hp. apply store_err_ok in Hl2.
    destruct (decode_hash_rep _ _ _ _ _ _ (rep_jobs _ _ Hr1) Hr1 Hl2) as (Hr2 & Hnil & rs & Hrs & Hp).
    destruct l2 as [|e l2].
    + destruct (decide (cached_jobs s <> ∅)) as [Hne|_]; [by destruct Hne; apply Hnil|].
      destruct (has_durable self) eqn:He; simpl in Hg; [|unfold ret in Hg; simplify_eq; eauto].
      apply try_inv in Hg as (rs' & w3 & Hd & Hg). apply try_inv in Hg as ([] & w4 & Hc & Hg).
      unfold ret in Hg. simplify_eq. apply (durable_all_rep _ s) in Hd as [Hp' Hr3]; [|done..].
      exists (Spec.cached_all regs s). split; [done|]. by apply (cache_all_rep _ w3).
    + destruct (decide (cached_jobs s <> ∅)) as [_|Hne]; [|by destruct Hne; intros E; apply Hnil in E].
      unfold ret in Hg. rewrite Hrs in Hg. simplify_eq. eauto.
  - destruct (decide (cached_services s <> ∅)) as [_|Hne]; [|by destruct Hne; intros E; apply Hnil in E].
    unfold ret in Hl2. simplify_eq. unfold ret in Hg. rewrite Hrs in Hg. simplify_eq. eauto.
Qed.
End rep.

(** ** A concrete world: a server, what stands behind it, and whether the server
    answers deletions. *)
Module Pair.
Record world (B : Type) := mkWorld { cache : redis; backup : B; hdel_up : bool }.
Arguments mkWorld {B} _ _ _.
Arguments cache {B} _.
Arguments backup {B} _.
Arguments hdel_up {B} _.

Definition on_cache {B A} (m : ST redis A) : ST (world B) A := fun w =>
  let '(a, r) := m (cache w) in (a, mkWorld r (backup w) (hdel_up w)).
Definition on_backup {B A} (m : ST B A) : ST (world B) A := fun w =>
  let '(a, b) := m (backup w) in (a, mkWorld (cache w) b (hdel_up w)).
Definition reply {A} (f : durable -> A * durable) : M (world durable) A :=
  on_backup (fun d => let '(a, d) := f d in (Ok a, d)).

#[global] Instance commands {B} : Redis (world B) := {|
  hset k f v := on_cache (hset k f v);
  hget k f := on_cache (hget k f);
  hgetall k := on_cache (hgetall k);
  hdel k f := fun w => if hdel_up w then on_cache (hdel k f) w else (Err "connection closed", w);
  zadd k x m := on_cache (zadd k x m);
  zrangebyscore k lo hi := on_cache (zrangebyscore k lo hi);
  zscore k m := on_cache (zscore k m);
  zrem k m := on_cache (zrem k m);
  set_nx_px k v ttl := on_cache (set_nx_px k v ttl);
  eval s keys args := on_cache (eval s keys args) |}.

#[global] Instance registry : DurableRegistry (world durable) := {|
  store_registration reg := reply (fun d => (tt, durable_store reg d));
  remove_registration j := reply (fun d => (tt, durable_remove j d));
  get_by_job_id j := reply (fun d => (by_job d !! j, d));
  get_by_service_name s := reply (fun d => (by_service d !! s, d));
  durable_list_all := reply (fun d => (durable_list d, d));
  watch_registrations := reply (fun d => ((fun _ => None), d)) |}.

Lemma on_cache_ok {B A} (m : ST redis A) (w : world B) a w' :
  on_cache m w = (a, w') -> m (cache w) = (a, cache w') /\ backup w' = backup w.
Proof. unfold on_cache. destruct (m (cache w)). intros; by simplify_eq. Qed.

#[global] Instance redis_laws {B} : RedisLaws (world B).
Proof.
  refine {| server := cache |}; unfold hset, hget, hgetall, hdel, zadd, zrangebyscore, zscore, zrem,
    set_nx_px, eval, commands; intros;
    try match goal with H : (if hdel_up ?w then _ else _) = _ |- _ => destruct (hdel_up w); [|done] end;
    match goal with Hc : on_cache _ _ = _ |- _ => apply on_cache_ok in Hc as [H _] end;
    first
      [ exact (hset_ok (W := redis) _ _ _ _ _ H) | exact (hget_ok (W := redis) _ _ _ _ _ H)
      | exact (hgetall_ok (W := redis) _ _ _ _ H) | exact (hdel_ok (W := redis) _ _ _ _ _ H)
      | exact (zadd_ok (W := redis) _ _ _ _ _ H) | exact (zrangebyscore_ok (W := redis) _ _ _ _ _ _ H)
      | exact (zscore_ok (W := redis) _ _ _ _ _ H) | exact (zrem_ok (W := redis) _ _ _ _ _ H)
      | exact (set_nx_px_ok (W := redis) _ _ _ _ _ _ H)
      | exact (eval_ok (W := redis) _ _ _ _ _ _ H) ].
Defined.

#[global] Instance durable_laws : DurableLaws (world durable).
Proof.
  refine {| represents w d := backup w = d /\ filed (by_job d) (by_service d); storable _ := True |};
    unfold store_registration, remove_registration, get_by_job_id, get_by_service_name, durable_list_all,
      registry, reply, on_backup; simpl; intros; destruct_and?; simplify_eq; try done.
  - split; [done|]. by apply filed_store.
  - split; [done|]. by apply filed_remove.
Defined.

#[global] Instance separate : Separate (world durable).
Proof.
  split; intros; try done; simpl in *; unfold on_cache; simpl;
    try destruct (hdel_up w); unfold on_cache; by simpl.
Qed.

Definition fresh : world durable := mkWorld Server.empty no_durable true.
End Pair.

(** ** Theorems *)

Lemma Spec_get_caches self k s : exists regs, snd (Spec.looked_up self k s) = Spec.cached_all regs s.
Proof.
  unfold Spec.looked_up. destruct (Spec.in_cache k s); [by exists []|].
  destruct (has_durable self); [|by exists []]. destruct (Spec.in_durable k s) as [reg|]; [by exists [reg]|by exists []].
Qed.

Section theorems.
Context {W : Type} `{JsonTextLaws, Separate W}.

(** C4.  The registry implements its specification: in a world whose two hashes
    and durable registry represent a state of finite maps, every operation that
    succeeds leaves a world that represents the state its specification gives,
    and a lookup or listing returns what the specification returns: register
    stores durably and caches under both names; get looks in the job cache, the
    service cache, the durable jobs and the durable services, in that order, and
    caches a durable hit; deregister drops the job from all four; sync caches
    every durable registration. *)
Theorem registry_refines self (w : W) s :
  Rep self w s ->
  (forall reg w', storable reg -> register self reg w = (Ok tt, w') -> Rep self w' (Spec.registered self reg s)) /\
  (forall k r w', get self k w = (Ok r, w') ->
     r = fst (Spec.looked_up self k s) /\ Rep self w' (snd (Spec.looked_up self k s))) /\
  (forall j w', deregister self j w = (Ok tt, w') -> Rep self w' (Spec.deregistered self j s)) /\
  (forall n w', sync_from_durable self w = (Ok n, w') ->
     exists regs, Spec.synced self regs s /\ n = Z.of_nat (length regs) /\ Rep self w' (Spec.cached_all regs s)) /\
  (forall regs w', list_all self w = (Ok regs, w') ->
     exists s', Spec.listed self regs s s' /\ Rep self w' s').
Proof.
  intros Hr. split_and!.
  - intros; by eapply register_rep.
  - intros; by eapply get_rep.
  - intros; by eapply deregister_rep.
  - intros; by eapply sync_rep.
  - intros; by eapply list_rep.
Qed.

(** The server has lost both hashes, and the durable registry nothing. *)
Record lost_caches (w lost : W) : Prop := mkLost {
  lost_durable d : represents w d -> represents lost d;
  lost_jobs : hash REGISTRY_BY_JOB_KEY (server lost) = ∅;
  lost_services : hash REGISTRY_BY_SERVICE_KEY (server lost) = ∅ }.

(** C33.  A registration can be found again: after a successful register, a
    lookup by the job id that succeeds returns that registration, and so does a
    lookup by the service name unless another job is cached under that name as
    its job id.  When a durable registry is configured, both still hold after the
    server has lost both hashes, the second unless the durable registry knows
    another job by that name. *)
Theorem register_get_roundtrip self reg (w w1 : W) s :
  Rep self w s -> storable reg -> register self reg w = (Ok tt, w1) ->
  (forall r w2, get self (job_id reg) w1 = (Ok r, w2) -> r = Some reg) /\
  (forall r w2, service_name reg = job_id reg \/ cached_jobs s !! service_name reg = None ->
     get self (service_name reg) w1 = (Ok r, w2) -> r = Some reg) /\
  (forall lost r w2, has_durable self = true -> lost_caches w1 lost ->
     get self (job_id reg) lost = (Ok r, w2) -> r = Some reg) /\
  (forall lost r w2, has_durable self = true -> lost_caches w1 lost ->
     service_name reg = job_id reg \/ by_job (kept s) !! service_name reg = None ->
     get self (service_name reg) lost = (Ok r, w2) -> r = Some reg).
Proof.
  intros Hr Hst Hg. apply (register_rep _ _ _ s) in Hg; [|done..].
  assert (Hlost : forall lost, lost_caches w1 lost ->
    Rep self lost (mkKnown ∅ ∅ (kept (Spec.registered self reg s)))).
  { intros lost [Hrep Hj Hs]. destruct Hg as [_ _ _ Hd].
    split; simpl; [rewrite Hj; apply map_Forall2_empty|rewrite Hs; apply map_Forall2_empty
      |apply filed_empty|intros; by apply Hrep, Hd]. }
  split_and!.
  - intros r w2 Hl. apply (get_rep _ _ _ _ _ _ Hg) in Hl as [-> _].
    unfold Spec.looked_up, Spec.in_cache, Spec.registered. simpl. by rewrite lookup_insert_eq.
  - intros r w2 Hn Hl. apply (get_rep _ _ _ _ _ _ Hg) in Hl as [-> _].
    unfold Spec.looked_up, Spec.in_cache, Spec.registered. simpl. rewrite lookup_insert. case_decide; [done|].
    destruct Hn as [Hn|Hn]; [congruence|]. rewrite Hn. by rewrite lookup_insert_eq.
  - intros lost r w2 He Hw Hl. apply (get_rep _ _ _ _ _ _ (Hlost _ Hw)) in Hl as [-> _].
    unfold Spec.looked_up, Spec.in_cache, Spec.in_durable. simpl.
    rewrite !lookup_empty, He. simpl. by rewrite lookup_insert_eq.
  - intros lost r w2 He Hw Hn Hl. apply (get_rep _ _ _ _ _ _ (Hlost _ Hw)) in Hl as [-> _].
    unfold Spec.looked_up, Spec.in_cache, Spec.in_durable. simpl.
    rewrite !lookup_empty, He. simpl. rewrite lookup_insert. case_decide; [done|].
    destruct Hn as [Hn|Hn]; [congruence|]. by rewrite Hn, lookup_insert_eq.
Qed.

(** Nothing known resolves to job [j]. *)
Lemma dropped_get self j s k reg :
  filed (cached_jobs s) (cached_services s) ->
  (has_durable self = true -> filed (by_job (kept s)) (by_service (kept s))) ->
  fst (Spec.looked_up self k (Spec.dropped j (Spec.kept_map self (durable_remove j) s))) = Some reg -> job_id reg <> j.
Proof.
  intros [Hf1 Hf2] Hd. unfold Spec.looked_up, Spec.in_cache, Spec.in_durable, Spec.kept_map. simpl.
  destruct (delete j (cached_jobs s) !! k) as [r|] eqn:E1.
  { apply lookup_delete_Some in E1 as [Hne Hk]. intros [= <-]. rewrite (Hf1 _ _ Hk). congruence. }
  destruct (without_job j (cached_services s) !! k) as [r|] eqn:E2.
  { apply without_job_lookup in E2 as [_ Hne]. by intros [= <-]. }
  destruct (has_durable self) eqn:He; simpl; [|done]. destruct (Hd eq_refl) as [Hd1 _].
  destruct (delete j (by_job (kept s)) !! k) as [r|] eqn:E3.
  { apply lookup_delete_Some in E3 as [Hne Hk]. intros [= <-]. rewrite (Hd1 _ _ Hk). congruence. }
  destruct (without_job j (by_service (kept s)) !! k) as [r|] eqn:E4; [|done].
  apply without_job_lookup in E4 as [_ Hne]. by intros [= <-].
Qed.

(** A job other than [j] that was found is found. *)
Lemma dropped_get_other self j s k reg :
  filed (cached_jobs s) (cached_services s) ->
  (has_durable self = true -> filed (by_job (kept s)) (by_service (kept s))) ->
  job_id reg <> j -> fst (Spec.looked_up self k s) = Some reg ->
  fst (Spec.looked_up self k (Spec.dropped j (Spec.kept_map self (durable_remove j) s))) = Some reg.
Proof.
  intros [Hf1 Hf2] Hd Hne. unfold Spec.looked_up, Spec.in_cache, Spec.in_durable, Spec.kept_map. simpl.
  assert (Hdel : forall m : gmap string JobRegistration, map_Forall (fun k reg => job_id reg = k) m ->
    forall r, m !! k = Some r -> job_id r <> j -> delete j m !! k = Some r).
  { intros m Hm r Hk Hr. rewrite lookup_delete_ne; [done|]. intros ->. by rewrite (Hm _ _ Hk) in Hr. }
  assert (Hnone : forall m : gmap string JobRegistration, m !! k = None -> delete j m !! k = None).
  { intros m Hm. rewrite lookup_delete. by case_decide. }
  destruct (cached_jobs s !! k) as [r|] eqn:E1.
  { simpl. intros [= ->]. by rewrite (Hdel _ Hf1 _ E1 Hne). }
  rewrite (Hnone _ E1). destruct (cached_services s !! k) as [r|] eqn:E2.
  { simpl. intros [= ->]. by rewrite (proj2 (without_job_lookup j _ k reg) (conj E2 Hne)). }
  rewrite (proj2 (without_job_None j (cached_services s) k)) by congruence.
  destruct (has_durable self) eqn:He; simpl; [|done]. destruct (Hd eq_refl) as [Hd1 _].
  destruct (by_job (kept s) !! k) as [r|] eqn:E3; simpl.
  { intros [= ->]. by rewrite (Hdel _ Hd1 _ E3 Hne). }
  rewrite (Hnone _ E3). destruct (by_service (kept s) !! k) as [r|] eqn:E4; [|done].
  intros [= ->]. by rewrite (proj2 (without_job_lookup j _ k reg) (conj E4 Hne)).
Qed.

(** The lookup a deregister starts with caches nothing: the name is found in a
    cache, or nowhere. *)
Definition found_or_unknown (self : JobRegistry) (j : string) (s : known) : Prop :=
  is_Some (Spec.in_cache j s) \/ has_durable self = false \/ Spec.in_durable j s = None.

(** C21.  Deregistering a job removes it, and nothing else unless the lookup it
    starts with brings an uncached registration into the caches: after a
    successful deregister no lookup, by whatever name, returns a registration of
    that job; and when the job was found in the caches, or was not known at all,
    every lookup that found another job's registration before still finds that
    same registration. *)
Theorem deregister_forgets self j (w w1 : W) s :
  Rep self w s -> deregister self j w = (Ok tt, w1) ->
  (forall k reg w2, get self k w1 = (Ok (Some reg), w2) -> job_id reg <> j) /\
  (found_or_unknown self j s -> forall k reg r w2,
     fst (Spec.looked_up self k s) = Some reg -> job_id reg <> j ->
     get self k w1 = (Ok r, w2) -> r = Some reg).
Proof.
  intros Hr Hg. apply (deregister_rep _ _ _ s) in Hg; [|done]. split.
  - intros k reg w2 Hl. apply (get_rep _ _ _ _ _ _ Hg) in Hl as [Hl _]. symmetry in Hl.
    apply dropped_get in Hl; [done| |].
    + destruct (Spec_get_caches self j s) as [regs ->]. destruct Hr as [_ _ Hf _].
      clear -Hf. revert s Hf. induction regs as [|r regs IH]; intros s Hf; [done|]. apply IH. by apply filed_store.
    + intros He. destruct (Spec_get_caches self j s) as [regs ->].
      assert (kept (Spec.cached_all regs s) = kept s) as ->.
      { clear. revert s. induction regs as [|r regs IH]; intros s; [done|]. simpl. by rewrite IH. }
      eapply represented_filed, Hr, He.
  - intros Hj k reg r w2 Hk Hne Hl. apply (get_rep _ _ _ _ _ _ Hg) in Hl as [-> _].
    unfold Spec.deregistered. assert (snd (Spec.looked_up self j s) = s) as ->.
    { unfold Spec.looked_up. destruct Hj as [[? ->]|[->|Hj]]; [done|by destruct (Spec.in_cache j s)|].
      rewrite Hj. by destruct (Spec.in_cache j s), (has_durable self). }
    apply dropped_get_other; [apply Hr| |done|done]. intros He. eapply represented_filed, Hr, He.
Qed.

End theorems.

(** ** Witnesses: two jobs, one under two services *)
Module Shop.
Definition self : JobRegistry := mkJobRegistry true.
Definition web : JobRegistration := mkReg "web" "web-http" "main".
Definition api : JobRegistration := mkReg "api" "api-http" "main".
Definition api_admin : JobRegistration := mkReg "api" "api-admin" "main".

Definition nothing : known := mkKnown ∅ ∅ no_durable.
Definition after (regs : list JobRegistration) : Pair.world durable :=
  snd (try_for_each (register self) regs Pair.fresh).

Lemma fresh_rep : Rep self Pair.fresh nothing.
Proof. split; try apply map_Forall2_empty; try apply filed_empty. intros _. split; [done|apply filed_empty]. Qed.

Lemma register_once regs reg w1 :
  after (regs ++ [reg]) = w1 -> fst (try_for_each (register self) regs Pair.fresh) = Ok tt ->
  fst (register self reg (after regs)) = Ok tt -> register self reg (after regs) = (Ok tt, w1).
Proof.
  intros <-. unfold after. generalize Pair.fresh. induction regs as [|r regs IH]; intros w Hok Hr; simpl in *.
  - change (fst (register self reg w) = Ok tt) in Hr.
    change (register self reg w = (Ok tt, snd (try (register self reg) (fun _ => ret (Ok tt)) w))).
    unfold try, bind, ret. destruct (register self reg w) as [r w']. simpl in Hr. by rewrite Hr.
  - unfold try, bind, ret in *. destruct (register self r w) as [[[]|] w']; [|done]. by apply IH.
Qed.

Lemma after_rep : Rep self (after [web; api]) (Spec.registered self api (Spec.registered self web nothing)).
Proof.
  eapply (register_rep self api (after [web])); [done| |apply (register_once [web]); by vm_compute].
  eapply (register_rep self web Pair.fresh); [done|apply fresh_rep|apply (register_once []); by vm_compute].
Qed.
End Shop.

Lemma registry_refines_witness :
  Rep Shop.self Pair.fresh Shop.nothing /\
  Rep Shop.self (Shop.after [Shop.web]) (Spec.registered Shop.self Shop.web Shop.nothing).
Proof.
  split; [apply Shop.fresh_rep|].
  destruct (registry_refines Shop.self Pair.fresh Shop.nothing Shop.fresh_rep) as (Hreg & _).
  apply Hreg; [exact I|]. apply (Shop.register_once []); by vm_compute.
Defined.

Lemma register_get_roundtrip_witness :
  (Rep Shop.self Pair.fresh Shop.nothing /\ storable (W := Pair.world durable) Shop.web /\
   register Shop.self Shop.web Pair.fresh = (Ok tt, Shop.after [Shop.web])) /\
  forall r w2, get Shop.self "web" (Shop.after [Shop.web]) = (Ok r, w2) -> r = Some Shop.web.
Proof.
  assert (Hr : register Shop.self Shop.web Pair.fresh = (Ok tt, Shop.after [Shop.web])).
  { apply (Shop.register_once []); by vm_compute. }
  split; [split; [apply Shop.fresh_rep|split; [exact I|exact Hr]]|].
  destruct (register_get_roundtrip Shop.self Shop.web Pair.fresh _ Shop.nothing Shop.fresh_rep I Hr) as (Hj & _).
  exact Hj.
Defined.

Lemma deregister_forgets_witness :
  fst (deregister Shop.self "web" (Shop.after [Shop.web; Shop.api])) = Ok tt /\
  let w1 := snd (deregister Shop.self "web" (Shop.after [Shop.web; Shop.api])) in
  (forall k reg w2, get Shop.self k w1 = (Ok (Some reg), w2) -> job_id reg <> "web") /\
  (forall r w2, get Shop.self "api-http" w1 = (Ok r, w2) -> r = Some Shop.api).
Proof.
  assert (Hd : fst (deregister Shop.self "web" (Shop.after [Shop.web; Shop.api])) = Ok tt) by (by vm_compute).
  split; [exact Hd|].
  destruct (deregister_forgets Shop.self "web" (Shop.after [Shop.web; Shop.api])
    (snd (deregister Shop.self "web" (Shop.after [Shop.web; Shop.api]))) _ Shop.after_rep) as [Hg Ho].
  { rewrite <- Hd. by destruct (deregister _ _ _). }
  split; [exact Hg|]. intros r w2. apply (Ho ltac:(left; vm_compute; eauto) "api-http"); by vm_compute.
Defined.

(** Deregistering an uncached job can take another job's service with it: the
    lookup caches the job's durable registration over the other job's entry in
    the service hash, and the clean-up deletes that entry as the job's own. *)
Theorem uncached_deregister_takes_a_service :
  let pay := mkReg "pay" "shared" "main" in
  let shop := mkReg "shop" "shared" "main" in
  let w := Shop.after [pay; shop] in
  let flushed := Pair.mkWorld Server.empty (Pair.backup w) true in
  let found := get Shop.self "pay" flushed in
  let dropped := deregister Shop.self "shop" found.2 in
  found.1 = Ok (Some pay) /\ fst (get Shop.self "shared" found.2) = Ok (Some pay) /\
  dropped.1 = Ok tt /\ fst (get Shop.self "shared" dropped.2) = Ok None.
Proof. vm_compute. done. Qed.

(** A failed deregister can lose registrations: when the deletion from the
    server fails after the durable registration was removed, the code restores
    the one registration it had looked up; another service of the same job is
    gone from the durable registry, although deregister reports failure. *)
Theorem failed_deregister_loses_aliases :
  let w := Shop.after [Shop.api; Shop.api_admin] in
  let down := Pair.mkWorld (Pair.cache w) (Pair.backup w) false in
  let '(r, w') := deregister Shop.self "api" down in
  r = Err (NscaleError.Store "connection closed") /\
  by_service (Pair.backup w) !! "api-http" = Some Shop.api /\
  by_service (Pair.backup w) !! "api-admin" = Some Shop.api_admin /\
  by_service (Pair.backup w') !! "api-http" = None /\
  by_service (Pair.backup w') !! "api-admin" = Some Shop.api_admin.
Proof. vm_compute. done. Qed.
