(* ===== verification/Etcd.v ===== *)
(** * Etcd: the durable registry

    Models [crates/nscale-etcd/src/client.rs]: the keys, the transactions and
    the readers, over an etcd client that gets a key or a prefix and runs a
    transaction.  [EtcdLaws] states what these do to the key space; with them
    the client keeps the contract of [Durable]. *)

From S2P Require Import Prelude Str F64 Core Json Waker Redis Durable.
From Stdlib Require Import Ascii.
Local Open Scope Z_scope.

Inductive TxnOp : Type := Put (key value : string) | Delete (key : string).

Class Etcd (W : Type) := {
  etcd_get : string -> ST W (res string (list (string * string)));
  etcd_get_prefix : string -> ST W (res string (list (string * string)));
  etcd_txn : list TxnOp -> ST W (res string unit) }.

Definition normalize_prefix (prefix : string) : string :=
  let trimmed := trim prefix in
  let trimmed := trim_end_char "/"%char trimmed in
  if bool_decide (trimmed = "") then "/nscale/registrations"
  else if starts_with "/" trimmed then trimmed
  else "/" +:+ trimmed.

Record EtcdClient := mkEtcdClient { key_prefix : string }.

(** Connecting to a list of endpoints. *)
Class EtcdConnector (W : Type) := { etcd_connect : list string -> ST W (res string unit) }.

(** [EtcdClient::new]. *)
Definition new_etcd {W} `{EtcdConnector W} (endpoints : list string) (key_prefix : string) : M W EtcdClient := (
  do? map_err NscaleError.Store (etcd_connect endpoints) in
  ret (Ok (mkEtcdClient (normalize_prefix key_prefix))))%st.

Section client.
Context {W : Type} `{Etcd W, JsonText}.
Context (self : EtcdClient).

Definition jobs_prefix : string := key_prefix self +:+ "/jobs/".
Definition services_prefix : string := key_prefix self +:+ "/services/".
Definition job_key (job_id : JobId) : string := jobs_prefix +:+ job_id.
Definition service_key (service_name : ServiceName) : string := services_prefix +:+ service_name.

(** [map_err(|e| NscaleError::Store(e.to_string()))]. *)
Definition etcd_err {A} (m : ST W (res string A)) : M W A := map_err NscaleError.Store m.

Definition etcd_encode (reg : JobRegistration) : Result string :=
  res_map_err NscaleError.Store (json_to_string (ser_JobRegistration reg)).
Definition etcd_decode (bytes : string) : Result JobRegistration :=
  res_map_err NscaleError.Store (from_json de_JobRegistration bytes).

Definition apply_txn (operations : list TxnOp) : M W unit := (
  do? etcd_err (etcd_txn operations) in
  ret (Ok tt))%st.

Definition get_by_key (key : string) : M W (option JobRegistration) := (
  let? kvs := etcd_err (etcd_get key) in
  match kvs with
  | kv :: _ => ret (res_map Some (etcd_decode kv.2))
  | [] => ret (Ok None)
  end)%st.

(** [iter().map(decode).collect()]: the first error, if any. *)
Fixpoint decode_kvs (kvs : list (string * string)) : Result (list JobRegistration) :=
  match kvs with
  | [] => Ok []
  | kv :: kvs' => res_bind (etcd_decode kv.2) (fun reg => res_map (cons reg) (decode_kvs kvs'))
  end.

Definition list_by_prefix (prefix : string) : M W (list JobRegistration) := (
  let? kvs := etcd_err (etcd_get_prefix prefix) in
  ret (decode_kvs kvs))%st.

(** The loop over the entries under the services prefix. *)
Fixpoint keys_of_job (job : JobId) (kvs : list (string * string)) : Result (list string) :=
  match kvs with
  | [] => Ok []
  | kv :: kvs' =>
      res_bind (etcd_decode kv.2) (fun reg =>
      res_map (fun keys => if bool_decide (job_id reg = job) then from_utf8_lossy kv.1 :: keys else keys)
              (keys_of_job job kvs'))
  end.

Definition service_keys_for_job (job : JobId) : M W (list string) := (
  let? kvs := etcd_err (etcd_get_prefix services_prefix) in
  ret (keys_of_job job kvs))%st.

Definition etcd_store (reg : JobRegistration) : M W unit := (
  let? encoded := ret (etcd_encode reg) in
  apply_txn [Put (job_key (job_id reg)) encoded; Put (service_key (service_name reg)) encoded])%st.

Definition etcd_remove (job : JobId) : M W unit := (
  let? keys := service_keys_for_job job in
  let operations := map Delete keys ++ [Delete (job_key job)] in
  apply_txn operations)%st.

Definition etcd_by_job (job : JobId) : M W (option JobRegistration) := get_by_key (job_key job).
Definition etcd_by_service (service : ServiceName) : M W (option JobRegistration) :=
  get_by_key (service_key service).

Definition etcd_list_all : M W (list JobRegistration) := (
  let? service_regs := list_by_prefix services_prefix in
  match service_regs with
  | [] => list_by_prefix jobs_prefix
  | _ => ret (Ok service_regs)
  end)%st.

(** [stream::empty()]. *)
Definition etcd_watch_registrations : M W (Stream RegistrationEvent.t) := ret (Ok (fun _ => None)).

End client.

(** ** The key space *)

Definition apply_op (m : gmap string string) (op : TxnOp) : gmap string string :=
  match op with Put k v => <[k := v]> m | Delete k => delete k m end.

(** What a get, a prefix get and a transaction do, as etcd documents them. *)
Class EtcdLaws (W : Type) `{Etcd W} := {
  keyspace : W -> gmap string string;
  etcd_get_ok k w kvs w' : etcd_get k w = (Ok kvs, w') ->
    keyspace w' = keyspace w /\ kvs = match keyspace w !! k with Some v => [(k, v)] | None => [] end;
  etcd_get_prefix_ok p w kvs w' : etcd_get_prefix p w = (Ok kvs, w') ->
    keyspace w' = keyspace w /\ NoDup kvs.*1 /\
    forall k v, (k, v) ∈ kvs <-> keyspace w !! k = Some v /\ starts_with p k = true;
  etcd_txn_ok ops w w' : etcd_txn ops w = (Ok tt, w') ->
    keyspace w' = foldl apply_op (keyspace w) ops }.

(** The key space [m] holds the registrations [d] under the client's prefix. *)
Record holds `{JsonText} (self : EtcdClient) (m : gmap string string) (d : durable) : Prop := mkHolds {
  holds_jobs j : option_Forall2 (fun t reg => from_json de_JobRegistration t = Ok reg)
                   (m !! job_key self j) (by_job d !! j);
  holds_services s : option_Forall2 (fun t reg => from_json de_JobRegistration t = Ok reg)
                       (m !! service_key self s) (by_service d !! s);
  holds_filed : filed (by_job d) (by_service d);
  holds_utf8 s : is_Some (by_service d !! s) -> from_utf8_lossy (service_key self s) = service_key self s }.

(** ** Lemmas *)

Section keys.
Context (self : EtcdClient).

Lemma job_service_key j s : job_key self j <> service_key self s.
Proof.
  unfold job_key, service_key, jobs_prefix, services_prefix. rewrite !sapp_assoc.
  intros Heq%sapp_inj_l. done.
Qed.

Lemma job_key_inj j j' : job_key self j = job_key self j' -> j = j'.
Proof. apply sapp_inj_l. Qed.
Lemma service_key_inj s s' : service_key self s = service_key self s' -> s = s'.
Proof. apply sapp_inj_l. Qed.

Lemma service_key_of k :
  starts_with (services_prefix self) k = true <-> exists s, k = service_key self s.
Proof. apply starts_with_spec. Qed.
Lemma job_key_of k : starts_with (jobs_prefix self) k = true <-> exists j, k = job_key self j.
Proof. apply starts_with_spec. Qed.
End keys.

Section refinement.
Context {W : Type} `{JsonTextLaws, EtcdLaws W} (self : EtcdClient).

Lemma etcd_encode_text reg v : etcd_encode reg = Ok v -> from_json de_JobRegistration v = Ok reg.
Proof.
  unfold etcd_encode, from_json. destruct (json_text_of_registration reg) as (t & -> & Ht).
  intros [= <-]. rewrite Ht. unfold res_bind. by rewrite de_ser_JobRegistration.
Qed.

Lemma holds_store m d reg v :
  holds self m d -> from_utf8_lossy (service_key self (service_name reg)) = service_key self (service_name reg) ->
  from_json de_JobRegistration v = Ok reg ->
  holds self (<[service_key self (service_name reg) := v]> (<[job_key self (job_id reg) := v]> m))
    (durable_store reg d).
Proof.
  intros [Hj Hs Hf Hu] Hutf Hv. split; simpl.
  - intros j. rewrite lookup_insert_ne by (intros E; symmetry in E; by apply job_service_key in E).
    rewrite !lookup_insert. destruct (decide (job_id reg = j)) as [->|Hne].
    + rewrite decide_True by done. by constructor.
    + rewrite decide_False; [done|]. by intros ?%job_key_inj.
  - intros s. rewrite !lookup_insert. destruct (decide (service_name reg = s)) as [->|Hne].
    + rewrite decide_True by done. by constructor.
    + rewrite decide_False by (by intros ?%service_key_inj).
      rewrite decide_False; [done|]. apply job_service_key.
  - by apply filed_store.
  - intros s. rewrite lookup_insert. case_decide; [by subst|]. apply Hu.
Qed.

Lemma foldl_delete m keys k :
  foldl apply_op m (map Delete keys) !! k = if decide (k ∈ keys) then None else m !! k.
Proof.
  revert m. induction keys as [|k' keys IH]; intros m; simpl; [done|]. rewrite IH, lookup_delete.
  repeat case_decide; set_solver.
Qed.

Lemma holds_remove m d j keys :
  holds self m d ->
  (forall k, k ∈ keys <-> exists s reg, k = service_key self s /\ by_service d !! s = Some reg /\ job_id reg = j) ->
  holds self (foldl apply_op m (map Delete keys ++ [Delete (job_key self j)])) (durable_remove j d).
Proof.
  intros [Hj Hs Hf Hu] Hk. rewrite foldl_app. simpl. split; simpl.
  - intros j'. rewrite !lookup_delete. destruct (decide (j = j')) as [->|Hne].
    + rewrite decide_True by done. constructor.
    + rewrite decide_False by (by intros ?%job_key_inj). rewrite foldl_delete, decide_False; [done|].
      intros (s & reg & E & _)%Hk. by apply job_service_key in E.
  - intros s. rewrite lookup_delete_ne, foldl_delete by apply job_service_key.
    case_decide as Hin.
    + apply Hk in Hin as (s' & reg & E & Hr & Hjr). apply service_key_inj in E as <-.
      rewrite (proj2 (without_job_None j (by_service d) s)) by congruence. constructor.
    + specialize (Hs s). destruct (by_service d !! s) as [reg|] eqn:Hr.
      * rewrite (proj2 (without_job_lookup j (by_service d) s reg)); [done|]. split; [done|].
        intros Hjr. apply Hin, Hk. eauto.
      * rewrite (proj2 (without_job_None j (by_service d) s)) by congruence. done.
  - by apply filed_remove.
  - intros s (reg & [Hr _]%without_job_lookup). eauto.
Qed.

(** The entries under the services prefix, decoded. *)
Lemma keys_of_job_ok j kvs d keys :
  (forall e, e ∈ kvs -> exists s reg, e.1 = service_key self s /\ by_service d !! s = Some reg
     /\ from_json de_JobRegistration e.2 = Ok reg) ->
  (forall s, is_Some (by_service d !! s) -> from_utf8_lossy (service_key self s) = service_key self s) ->
  keys_of_job j kvs = Ok keys ->
  forall k, k ∈ keys <-> exists s reg, k = service_key self s /\ by_service d !! s = Some reg /\ job_id reg = j
                                 /\ k ∈ kvs.*1.
Proof.
  intros Hin Hu. revert keys. induction kvs as [|[k0 t0] kvs IH]; intros keys Hkeys k; simpl in *.
  { simplify_eq. split; [by intros ?%not_elem_of_nil|]. intros (? & ? & _ & _ & _ & []%not_elem_of_nil). }
  destruct (Hin (k0, t0) ltac:(left)) as (s0 & reg0 & E0 & Hr0 & Ht0). simpl in E0, Ht0. subst k0.
  unfold etcd_decode in Hkeys. rewrite Ht0 in Hkeys. simpl in Hkeys.
  destruct (keys_of_job j kvs) as [ks|e] eqn:Eks; simpl in Hkeys; [|done]. injection Hkeys as <-.
  specialize (IH ltac:(intros e He; apply Hin; by right) ks eq_refl k). rewrite Hu by eauto.
  setoid_rewrite (elem_of_cons kvs.*1).
  case_bool_decide as Hj; rewrite ?elem_of_cons, IH; split.
  - intros [->|(s & reg & ? & ? & ? & ?)]; [exists s0, reg0; split_and!; auto|]. exists s, reg; split_and!; auto.
  - intros (s & reg & -> & ? & ? & [->|?]); [by left|]. right. exists s, reg; split_and!; auto.
  - intros (s & reg & ? & ? & ? & ?). exists s, reg; split_and!; auto.
  - intros (s & reg & -> & Hs & ? & [E|?]); [|exists s, reg; split_and!; auto]. apply service_key_inj in E as ->. congruence.
Qed.

Lemma txn_run ops w w' : apply_txn ops w = (Ok tt, w') -> keyspace w' = foldl apply_op (keyspace w) ops.
Proof.
  intros Ht. unfold apply_txn in Ht. apply try_inv in Ht as ([] & w1 & He & Hr).
  unfold ret in Hr. simplify_eq. apply map_err_ok in He. by apply etcd_txn_ok.
Qed.

Lemma store_holds reg w w' d :
  holds self (keyspace w) d ->
  from_utf8_lossy (service_key self (service_name reg)) = service_key self (service_name reg) ->
  etcd_store self reg w = (Ok tt, w') -> holds self (keyspace w') (durable_store reg d).
Proof.
  intros Hh Hu Hs. unfold etcd_store in Hs. apply try_inv in Hs as (v & w1 & He & Ht).
  unfold ret in He. simplify_eq. apply txn_run in Ht as ->. simpl. apply holds_store; [done..|].
  by apply etcd_encode_text.
Qed.

(** The entries a prefix get returns, for keys made of the prefix and a name. *)
Lemma prefix_got (key : string -> string) (m : gmap string JobRegistration) p w kvs w' :
  (forall k, starts_with p k = true <-> exists s, k = key s) ->
  (forall s, option_Forall2 (fun t reg => from_json de_JobRegistration t = Ok reg) (keyspace w !! key s) (m !! s)) ->
  etcd_get_prefix p w = (Ok kvs, w') ->
  keyspace w' = keyspace w /\ NoDup kvs.*1 /\
  (forall s reg, m !! s = Some reg -> key s ∈ kvs.*1) /\
  forall e, e ∈ kvs -> exists s reg, e.1 = key s /\ m !! s = Some reg
     /\ from_json de_JobRegistration e.2 = Ok reg.
Proof.
  intros Hp Hs Hg. apply etcd_get_prefix_ok in Hg as (Hk & Hnd & Hin). split; [done|]. split; [done|]. split.
  - intros s reg Hr. specialize (Hs s). rewrite Hr in Hs. inversion Hs as [t ? Ht Et|]; subst.
    apply list_elem_of_fmap. exists (key s, t). split; [done|]. apply Hin. split; [done|].
    apply Hp. eauto.
  - intros [k t] He. apply Hin in He as [Hl Hk']. apply Hp in Hk' as [s ->].
    specialize (Hs s). rewrite Hl in Hs. inversion Hs; subst. eauto.
Qed.

Lemma remove_holds j w w' d :
  holds self (keyspace w) d -> etcd_remove self j w = (Ok tt, w') ->
  holds self (keyspace w') (durable_remove j d).
Proof.
  intros Hh Hr. unfold etcd_remove, service_keys_for_job in Hr.
  apply try_inv in Hr as (keys & w1 & Hk & Ht). apply try_inv in Hk as (kvs & w2 & Hg & Hk).
  apply map_err_ok in Hg. unfold ret in Hk. simplify_eq.
  destruct (prefix_got _ _ _ _ _ _ (service_key_of self) (holds_services _ _ _ Hh) Hg) as (Hks & _ & Hall & Hin).
  apply txn_run in Ht as ->. rewrite Hks.
  apply holds_remove; [done|]. intros k. rewrite (keys_of_job_ok j kvs d keys); [|done|apply Hh|done]. split.
  - intros (s & reg & ? & ? & ? & _). eauto.
  - intros (s & reg & -> & ? & ?). exists s, reg. split_and!; eauto.
Qed.

Lemma by_key_holds key w r w' (o : option JobRegistration) :
  option_Forall2 (fun t reg => from_json de_JobRegistration t = Ok reg) (keyspace w !! key) o ->
  get_by_key key w = (Ok r, w') -> r = o /\ keyspace w' = keyspace w.
Proof.
  intros Ho Hg. unfold get_by_key in Hg. apply try_inv in Hg as (kvs & w1 & Hg & Hr).
  apply map_err_ok, etcd_get_ok in Hg as [Hk ->]. destruct Ho as [t reg Ht|]; unfold ret, etcd_decode in Hr.
  - simpl in Hr. rewrite Ht in Hr. simpl in Hr. by simplify_eq.
  - by simplify_eq.
Qed.

Lemma decode_kvs_ok (key : string -> string) (m : gmap string JobRegistration) kvs regs :
  Inj (=) (=) key -> NoDup kvs.*1 ->
  (forall s reg, m !! s = Some reg -> key s ∈ kvs.*1) ->
  (forall e, e ∈ kvs -> exists s reg, e.1 = key s /\ m !! s = Some reg
     /\ from_json de_JobRegistration e.2 = Ok reg) ->
  decode_kvs kvs = Ok regs -> regs ≡ₚ (map_to_list m).*2.
Proof.
  intros Hinj. revert m regs. induction kvs as [|[k t] kvs IH]; intros m regs Hnd Hall Hin Hd; simpl in *.
  - simplify_eq. destruct (map_to_list m) as [|[s reg] l] eqn:E; [done|].
    assert (Hm : m !! s = Some reg) by (apply elem_of_map_to_list; rewrite E; left).
    by apply Hall, not_elem_of_nil in Hm.
  - destruct (Hin (k, t) ltac:(left)) as (s & reg & E & Hm & Ht). simpl in E, Ht. subst k.
    unfold etcd_decode in Hd. rewrite Ht in Hd. simpl in Hd.
    destruct (decode_kvs kvs) as [rs|] eqn:Ers; simpl in Hd; [|done]. injection Hd as <-.
    apply NoDup_cons in Hnd as [Hni Hnd].
    rewrite <- (insert_delete_id m s reg) by done. rewrite map_to_list_insert by apply lookup_delete_eq.
    simpl. constructor. apply IH; [done| |intros e He|done].
    + intros s' reg' [Hne Hs']%lookup_delete_Some. apply Hall in Hs'.
      apply elem_of_cons in Hs' as [E|?]; [by apply Hinj in E|done].
    + destruct (Hin e ltac:(by right)) as (s' & reg' & E' & Hm' & Ht'). exists s', reg'. split; [done|].
      split; [|done]. apply lookup_delete_Some. split; [|done]. intros ->. apply Hni. rewrite <- E'.
      by apply list_elem_of_fmap_2.
Qed.

Lemma list_prefix_ok (key : string -> string) (m : gmap string JobRegistration) p w regs w' :
  Inj (=) (=) key -> (forall k, starts_with p k = true <-> exists s, k = key s) ->
  (forall s, option_Forall2 (fun t reg => from_json de_JobRegistration t = Ok reg) (keyspace w !! key s) (m !! s)) ->
  list_by_prefix p w = (Ok regs, w') -> regs ≡ₚ (map_to_list m).*2 /\ keyspace w' = keyspace w.
Proof.
  intros Hinj Hp Hs Hl. unfold list_by_prefix in Hl. apply try_inv in Hl as (kvs & w1 & Hg & Hd).
  apply map_err_ok in Hg. unfold ret in Hd. simplify_eq.
  destruct (prefix_got key m p w kvs w' Hp Hs Hg) as (Hk & Hnd & Hall & Hin). split; [|done].
  by eapply decode_kvs_ok.
Qed.

Lemma list_holds w regs w' d :
  holds self (keyspace w) d -> etcd_list_all self w = (Ok regs, w') ->
  regs ≡ₚ durable_list d /\ keyspace w' = keyspace w.
Proof.
  intros Hh Hl. unfold etcd_list_all in Hl. apply try_inv in Hl as (rs & w1 & Hs & Hr).
  apply (list_prefix_ok (service_key self) (by_service d)) in Hs as [Hp Hk];
    [|intros ? ?; apply service_key_inj|apply service_key_of|apply Hh].
  unfold durable_list. destruct rs as [|r rs].
  - apply Permutation_nil_l in Hp. rewrite <- Hp.
    apply (list_prefix_ok (job_key self) (by_job d)) in Hr as [Hp' Hk'];
      [|intros ? ?; apply job_key_inj|apply job_key_of|rewrite Hk; apply Hh]. by rewrite Hk'.
  - unfold ret in Hr. simplify_eq. destruct ((map_to_list (by_service d)).*2) as [|r' l] eqn:E; [|done].
    by apply Permutation_nil_r in Hp.
Qed.

(** Any names whose service key is text. *)
#[export] Instance etcd_durable : DurableRegistry W := {|
  store_registration := etcd_store self;
  remove_registration := etcd_remove self;
  get_by_job_id := etcd_by_job self;
  get_by_service_name := etcd_by_service self;
  durable_list_all := etcd_list_all self;
  watch_registrations := etcd_watch_registrations |}.

#[export] Instance etcd_durable_laws : DurableLaws W.
Proof.
  refine {| represents w d := holds self (keyspace w) d;
            storable reg := from_utf8_lossy (service_key self (service_name reg))
                            = service_key self (service_name reg) |}.
  - intros w d Hh. apply Hh.
  - intros; by eapply store_holds.
  - intros; by eapply remove_holds.
  - intros j w r w' d Hh Hg. apply (by_key_holds _ _ _ _ _ (holds_jobs _ _ _ Hh j)) in Hg as [-> ->]. done.
  - intros s w r w' d Hh Hg. apply (by_key_holds _ _ _ _ _ (holds_services _ _ _ Hh s)) in Hg as [-> ->]. done.
  - intros w l w' d Hh Hl. apply (list_holds _ _ _ _ Hh) in Hl as [? ->]. done.
Defined.
End refinement.

(** ** A concrete key space *)
Module KeySpace.
#[global] Instance commands : Etcd (gmap string string) := {|
  etcd_get k := fun m => (Ok (match m !! k with Some v => [(k, v)] | None => [] end), m);
  etcd_get_prefix p := fun m =>
    (Ok (map_to_list (filter (fun e : string * string => starts_with p e.1 = true) m)), m);
  etcd_txn ops := fun m => (Ok tt, foldl apply_op m ops) |}.

#[global] Instance laws : EtcdLaws (gmap string string).
Proof.
  refine {| keyspace := id |}; unfold etcd_get, etcd_get_prefix, etcd_txn, commands, id; intros; simplify_eq; [done| |done].
  split; [done|]. split; [apply NoDup_fst_map_to_list|]. intros k v. by rewrite elem_of_map_to_list, map_lookup_filter_Some.
Defined.
End KeySpace.

Lemma holds_empty `{JsonText} self : holds self ∅ no_durable.
Proof.
  split; simpl; [constructor|constructor|apply filed_empty|]. intros s. rewrite lookup_empty. by intros [].
Qed.

(** ** Theorems *)

(** C10.  The etcd client is a durable registry: over a key space that holds some
    registrations by job and by service under the client's prefix, a successful
    store adds the registration under both names in one transaction, a
    successful remove deletes the job and every service that points to it and
    nothing else, and the readers return exactly what is held; the keys of jobs
    and of services never collide. *)
Theorem etcd_implements_durable {W} `{JsonTextLaws, EtcdLaws W} self (w w' : W) d :
  holds self (keyspace w) d ->
  (forall reg, from_utf8_lossy (service_key self (service_name reg)) = service_key self (service_name reg) ->
     etcd_store self reg w = (Ok tt, w') -> holds self (keyspace w') (durable_store reg d)) /\
  (forall j, etcd_remove self j w = (Ok tt, w') -> holds self (keyspace w') (durable_remove j d)) /\
  (forall j r, etcd_by_job self j w = (Ok r, w') -> r = by_job d !! j /\ keyspace w' = keyspace w) /\
  (forall s r, etcd_by_service self s w = (Ok r, w') -> r = by_service d !! s /\ keyspace w' = keyspace w) /\
  (forall regs, etcd_list_all self w = (Ok regs, w') -> regs ≡ₚ durable_list d /\ keyspace w' = keyspace w) /\
  (forall j s, job_key self j <> service_key self s).
Proof.
  intros Hh. split_and!.
  - intros; by eapply store_holds.
  - intros; by eapply remove_holds.
  - intros j r. by apply by_key_holds, Hh.
  - intros s r. by apply by_key_holds, Hh.
  - intros regs. by apply list_holds.
  - apply job_service_key.
Qed.

Lemma etcd_implements_durable_witness :
  let self := mkEtcdClient (normalize_prefix " nscale/registrations/ ") in
  let reg := mkReg "web" "web-http" "main" in
  let m := snd (etcd_store self reg ∅) in
  (holds self (keyspace (∅ : gmap string string)) no_durable /\
   from_utf8_lossy (service_key self (service_name reg)) = service_key self (service_name reg)) /\
  holds self m (durable_store reg no_durable).
Proof.
  intros self reg m.
  assert (H : holds self (keyspace (∅ : gmap string string)) no_durable) by apply holds_empty.
  split; [split; [exact H|vm_compute; reflexivity]|].
  destruct (etcd_implements_durable self (∅ : gmap string string) m no_durable H) as (Hs & _).
  apply Hs; vm_compute; reflexivity.
Defined.

(** The configured prefix is normalised: whatever is configured, the prefix
    used starts with a slash and does not end with one; a trimmed prefix of that
    form is used as it is, and one without the leading slash gets it. *)
Theorem normalized_prefix prefix :
  (exists rest, normalize_prefix prefix = "/" +:+ rest) /\
  ~ ends_with_char "/"%char (normalize_prefix prefix) /\
  (trim prefix = prefix -> prefix <> "" -> ~ ends_with_char "/"%char prefix ->
   normalize_prefix prefix = if starts_with "/" prefix then prefix else "/" +:+ prefix).
Proof.
  pose proof (trim_end_char_not_end "/"%char (trim prefix)) as Hend.
  unfold normalize_prefix. split_and!.
  - case_bool_decide; [by exists "nscale/registrations"|].
    destruct (starts_with "/" _) eqn:E; [by apply starts_with_spec in E|eauto].
  - case_bool_decide as Ht.
    + exact (trim_end_char_not_end "/"%char "/nscale/registrations").
    + destruct (starts_with "/" _) eqn:E; [done|]. by rewrite ends_with_char_app.
  - intros -> Hne Hlast. by rewrite trim_end_char_id, bool_decide_eq_false_2.
Qed.

Lemma normalized_prefix_witness :
  (trim "a/b" = "a/b" /\ "a/b" <> "" /\ ~ ends_with_char "/"%char "a/b") /\
  normalize_prefix "a/b" = "/a/b".
Proof.
  assert (H : trim "a/b" = "a/b" /\ "a/b" <> "" /\ ~ ends_with_char "/"%char "a/b").
  { split; [vm_compute; reflexivity|]. split; [discriminate|]. exact (trim_end_char_not_end "/"%char "a/b"). }
  split; [exact H|]. exact (proj2 (proj2 (normalized_prefix "a/b")) (proj1 H) (proj1 (proj2 H)) (proj2 (proj2 H))).
Defined.
