(* ===== verification/Proxy.v ===== *)
(** * Proxy: passing requests on

    Models [crates/nscale-proxy/src/proxy.rs] (the forwarding of a request, the
    WebSocket upgrade and the errors of both) and [middleware.rs] (the job named
    by the host header and the recording of activity around a request). *)

From S2P Require Import Prelude Str F64 Core Json Http Waker Ifaces Trace.
From Stdlib Require Import Ascii.
Local Open Scope Z_scope.

Definition BAD_REQUEST : Z := 400.
Definition NOT_FOUND : Z := 404.
Definition INTERNAL_SERVER_ERROR : Z := 500.
Definition BAD_GATEWAY : Z := 502.
Definition SERVICE_UNAVAILABLE : Z := 503.
Definition SWITCHING_PROTOCOLS : Z := 101.

(** ** proxy.rs: errors *)
Module ForwardRequestError.
Inductive t : Type :=
| Transport (source : reqwest_error)
| ResponseBuild (source : string)
| UpgradeConnect (source : io_error)
| UpgradeHandshake (source : string)
| UpgradeRequest (source : string).
End ForwardRequestError.
Import ForwardRequestError.

Definition status_code (e : ForwardRequestError.t) : Z :=
  match e with
  | Transport _ | UpgradeConnect _ | UpgradeHandshake _ | UpgradeRequest _ => BAD_GATEWAY
  | ResponseBuild _ => INTERNAL_SERVER_ERROR
  end.

Definition is_retryable_transport (e : ForwardRequestError.t) : bool :=
  match e with
  | Transport source => re_is_connect source || re_is_timeout source
  | UpgradeConnect _ | UpgradeHandshake _ => true
  | ResponseBuild _ | UpgradeRequest _ => false
  end.

Definition is_connect (e : ForwardRequestError.t) : bool :=
  match e with
  | Transport source => re_is_connect source
  | UpgradeConnect _ | UpgradeHandshake _ => true
  | ResponseBuild _ | UpgradeRequest _ => false
  end.

Definition is_timeout (e : ForwardRequestError.t) : bool :=
  match e with
  | Transport source => re_is_timeout source
  | UpgradeConnect source => io_timed_out source
  | ResponseBuild _ | UpgradeHandshake _ | UpgradeRequest _ => false
  end.

Definition response_status (e : ForwardRequestError.t) : option Z :=
  match e with
  | Transport source => re_status source
  | ResponseBuild _ | UpgradeConnect _ | UpgradeHandshake _ | UpgradeRequest _ => None
  end.

(** ** proxy.rs: WebSocket requests *)

(** [HeaderMap::get_all]. *)
Definition header_all (k : string) (hs : list (string * string)) : list string :=
  omap (fun h => if eq_ignore_ascii_case k h.1 then Some h.2 else None) hs.

Definition header_contains_token (headers : list (string * string)) (name token : string) : bool :=
  existsb (fun value =>
    match header_str value with
    | Some value => existsb (fun part => eq_ignore_ascii_case (trim part) token) (split_char ","%char value)
    | None => false
    end) (header_all name headers).

Definition is_websocket_upgrade (req : inbound) : bool :=
  header_contains_token (in_headers req) "connection" "upgrade"
  && header_contains_token (in_headers req) "upgrade" "websocket".

(** [HeaderMap::insert]: the first value is replaced, the others go. *)
Fixpoint set_header (k v : string) (hs : list (string * string)) : list (string * string) :=
  match hs with
  | [] => [(k, v)]
  | h :: hs' =>
      if eq_ignore_ascii_case k h.1
      then (k, v) :: filter (fun h => eq_ignore_ascii_case k h.1 = false) hs'
      else h :: set_header k v hs'
  end.

Definition target_or_root (req : inbound) : string := default "/" (in_target req).

(** The handshake as it is sent to the backend. *)
Definition upgrade_request (backend : Endpoint) (req : inbound) : inbound :=
  mkInbound (in_method req) (Some (target_or_root req))
    (set_header "host" (endpoint_address backend) (in_headers req)) (in_body req).

(** ** proxy.rs: ordinary requests *)

(** The headers that are not copied. *)
Definition skipped_headers : list string :=
  ["host"; "connection"; "keep-alive"; "transfer-encoding"; "te"; "trailer"; "upgrade";
   "proxy-authorization"; "proxy-connection"].

Definition forwarded (backend : Endpoint) (req : inbound) : outbound :=
  mkOutbound (in_method req) (endpoint_base_url backend "http" +:+ target_or_root req)
    (filter (fun h => to_ascii_lowercase h.1 ∉ skipped_headers) (in_headers req)) (in_body req).

(** [StatusCode::from_u16(..).unwrap_or(BAD_GATEWAY)]. *)
Definition valid_status (s : Z) : Z := if bool_decide (100 <= s <= 999) then s else BAD_GATEWAY.

Section forwarding.
Context {W : Type} `{Backend W, Upgrade W, Peer W}.

Definition forward_request (backend : Endpoint) (req : inbound) : ST W (res ForwardRequestError.t reply) := (
  let? response := map_err Transport (forward_send (forwarded backend req)) in
  ret (res_map_err ResponseBuild
    (build_reply (mkReply (valid_status (reply_status response)) (reply_headers response)
                          (reply_body response)))))%st.

(** The two [expect]s on the way to the handshake: the target as a URI, and the
    backend's address as the host header's value. *)
Definition checked_upgrade (backend : Endpoint) (req : inbound) : res Unwound.t inbound :=
  if negb (valid_uri (W := W) (target_or_root req)) then
    Err (Unwound.Panicked "an inbound request path and query should be a valid relative URI")
  else if negb (valid_header_value (W := W) (endpoint_address backend)) then
    Err (Unwound.Panicked "an endpoint address should be a valid Host header")
  else Ok (upgrade_request backend req).

(** Connection, handshake and request of an upgrade. *)
Definition upgrade_exchange (backend : Endpoint) (req : inbound)
    : ST W (res Unwound.t (res ForwardRequestError.t reply)) := (
  let? connected := await (map_err UpgradeConnect (tcp_connect (endpoint_address backend))) in
  match connected with
  | Err e => ret (Ok (Err e))
  | Ok _ =>
      let? shaken := await (map_err UpgradeHandshake http1_handshake) in
      match shaken with
      | Err e => ret (Ok (Err e))
      | Ok _ =>
          let? handshake := ret (checked_upgrade backend req) in
          await (map_err UpgradeRequest (send_upgrade handshake))
      end
  end)%st.

(** The response, and whether the tunnel guard has been moved into the tunnel's
    task; otherwise it is dropped when the function returns, panics or is itself
    dropped. *)
Definition forward_websocket_upgrade (backend : Endpoint) (req : inbound) (drop_guard : ST W unit)
    : ST W (res Unwound.t (res ForwardRequestError.t reply) * bool) := (
  let* r := upgrade_exchange backend req in
  match r with
  | Ok (Ok response) =>
      if bool_decide (reply_status response = SWITCHING_PROTOCOLS)
      then ret (r, true)
      else do* drop_guard in ret (r, false)
  | _ => do* drop_guard in ret (r, false)
  end)%st.

End forwarding.

(** ** middleware.rs *)

Definition extract_job_id_from_host (host : string) : option string :=
  let label := first_piece "."%char host in
  let label := first_piece ":"%char label in
  if bool_decide (label = "") then None else Some label.

Definition request_job (req : inbound) : option JobId :=
  v ← header "host" (in_headers req);
  host ← header_str v;
  extract_job_id_from_host host.

Section middleware.
Context {W : Type} `{ActivityStore W, Peer W}.

(** [ActivityService::call] around the inner service, whose future may be dropped
    or panic; the response, and the task spawned to record the end of the
    request. *)
Definition activity_call {E R} (inner : inbound -> ST W (res Unwound.t (res E R))) (req : inbound)
    : ST W (res Unwound.t (res E R) * option (ST W unit)) := (
  let job_id := request_job req in
  let* started := (match job_id with
       | Some job => let? _ := await (record_activity job) in ret (Ok tt)
       | None => ret (Ok tt)
       end) in
  match started with
  | Err u => ret (Err u, None)
  | Ok _ =>
      let* r := inner req in
      match r with
      | Ok (Ok response) =>
          ret (r, (fun job => bind (record_activity job) (fun _ => ret tt)) <$> job_id)
      | _ => ret (r, None)
      end
  end)%st.

End middleware.
