(* ===== verification/Handler.v ===== *)
(** * Handler: the proxy handler

    Models [crates/nscale-proxy/src/handler.rs].  The in-flight guard and the
    heartbeat's cancel guard are dropped where the code drops them: when the
    handler leaves the scope that holds them, or when the WebSocket tunnel they
    moved into closes. *)

From S2P Require Import Prelude Str F64 Core Json Http Waker Ifaces Trace Toy Proxy.
From Stdlib Require Import Ascii.
Local Open Scope Z_scope.

Definition TRANSIENT_RETRY_BACKOFF_MS : list Z := [100; 250].

(** The settings of [AppState]; its services are the classes. *)
Record AppState := mkAppState {
  heartbeat_interval : Z;
  state_auto_deregister_enabled : bool;
  state_auto_deregister_threshold : Z }.

Definition replayable_method (m : Method) : option Method :=
  match m with GET => Some GET | HEAD => Some HEAD | _ => None end.

(** [(status, text).into_response()] and [status.into_response()]. *)
Definition text_response (status : Z) (body : string) : reply :=
  mkReply status [("content-type", "text/plain; charset=utf-8")] body.
Definition status_response (status : Z) : reply := mkReply status [] "".

(** The label of the host header under which the job is looked up. *)
Definition service_key (host_value : string) : string := first_piece ":"%char (first_piece "."%char host_value).

Section handler.
Context {W : Type} `{ActivityStore W, MissingJobTracker W, Registry W, Coordinator W, InFlight W,
  Backend W, Upgrade W, Clock W, Heartbeats W, Peer W}.
Context (state : AppState).

(** A function of the handler: its result, or the reason it did not return. *)
Abbreviation Unwinding A := (ST W (res Unwound.t A)).

(** A request without headers or body; its target has to parse again. *)
Definition build_retry_request (m : Method) (uri : string) : res Unwound.t inbound :=
  if valid_uri (W := W) uri then Ok (mkInbound m (Some uri) [] "")
  else Err (Unwound.Panicked "retry request should reuse a valid method and URI").

Definition clear_missing_job_counter (job_id : JobId) : Unwinding unit := (
  if negb (state_auto_deregister_enabled state) then ret (Ok tt)
  else let? _ := await (clear_not_found job_id) in ret (Ok tt))%st.

Definition cleanup_missing_job_state (job_id : JobId) : Unwinding (Result unit) := (
  do* mark_dormant job_id in
  let? _ := await (remove_activity job_id) in
  let? r := await (registry_deregister job_id) in
  match r with
  | Err e => ret (Ok (Err e))
  | Ok _ => let? _ := await (clear_not_found job_id) in ret (Ok (Ok tt))
  end)%st.

Definition handle_missing_job (job_id : JobId) (source : string) : Unwinding reply := (
  if negb (state_auto_deregister_enabled state) then
    ret (Ok (text_response SERVICE_UNAVAILABLE ("service missing in Nomad during " +:+ source)))
  else
    let? r := await (increment_not_found job_id) in
    match r with
    | Err _ => ret (Ok (text_response SERVICE_UNAVAILABLE "service unavailable while tracking stale registration"))
    | Ok count =>
        if bool_decide (state_auto_deregister_threshold state <= count) then
          let? c := cleanup_missing_job_state job_id in
          match c with
          | Ok _ => ret (Ok (text_response NOT_FOUND "service not registered"))
          | Err e => ret (Ok (text_response SERVICE_UNAVAILABLE
              ("service missing in Nomad and cleanup failed: " +:+ error_to_string e)))
          end
        else ret (Ok (text_response SERVICE_UNAVAILABLE
               ("service missing in Nomad (" +:+ show_Z count +:+ "/"
                +:+ show_Z (state_auto_deregister_threshold state) +:+ ")")))
    end)%st.

Section request.
Context (registration : JobRegistration) (req : inbound) (heartbeat : nat).

(** Leaving the handler with a response: [heartbeat_cancel.cancel()] first. *)
Definition finish (r : reply) : Unwinding reply := (do* cancel_heartbeat heartbeat in ret (Ok r))%st.

(** Another attempt. *)
Definition forward_again (endpoint : Endpoint) (retry_method : Method)
    : Unwinding (res ForwardRequestError.t reply) := (
  let? retry_req := ret (build_retry_request retry_method (target_or_root req)) in
  await (forward_request endpoint retry_req))%st.

(** The transient retries on the same endpoint: a response, or the last error. *)
Fixpoint retry_transient (endpoint : Endpoint) (retry_method : Method) (delays : list Z)
    (err : ForwardRequestError.t) : Unwinding (reply + ForwardRequestError.t) := (
  match delays with
  | [] => ret (Ok (inr err))
  | delay_ms :: delays' =>
      do? await (sleep (duration_from_millis delay_ms)) in
      let? r := forward_again endpoint retry_method in
      match r with
      | Ok resp => let? resp := finish resp in ret (Ok (inl resp))
      | Err retry_err =>
          if is_retryable_transport retry_err
          then retry_transient endpoint retry_method delays' retry_err
          else let? resp := finish (status_response (status_code retry_err)) in ret (Ok (inl resp))
      end
  end)%st.

(** The last attempt, on a refreshed or re-woken endpoint. *)
Definition retry_last (endpoint : Endpoint) (retry_method : Method) : Unwinding reply := (
  let? r := forward_again endpoint retry_method in
  match r with
  | Ok resp => finish resp
  | Err e => finish (status_response (status_code e))
  end)%st.

Definition rewake (retry_method : Method) : Unwinding reply := (
  let? r := await (ensure_running registration) in
  match r with
  | Ok ep =>
      do? clear_missing_job_counter (Core.job_id registration) in
      retry_last ep retry_method
  | Err (NscaleError.JobNotFound _) =>
      do* cancel_heartbeat heartbeat in
      handle_missing_job (Core.job_id registration) "rewake"
  | Err e => finish (text_response SERVICE_UNAVAILABLE ("retry wake error: " +:+ error_to_string e))
  end)%st.

Definition retry_refreshed (endpoint : Endpoint) (retry_method : Method) (err : ForwardRequestError.t)
    : Unwinding reply := (
  let? r := await (refresh_endpoint registration endpoint) in
  match r with
  | Ok (EndpointRefresh.Confirmed _) =>
      do? clear_missing_job_counter (Core.job_id registration) in
      finish (status_response (status_code err))
  | Ok (EndpointRefresh.Updated refreshed_endpoint) =>
      do? clear_missing_job_counter (Core.job_id registration) in
      retry_last refreshed_endpoint retry_method
  | Ok EndpointRefresh.Missing => rewake retry_method
  | Err (NscaleError.JobNotFound _) =>
      do* cancel_heartbeat heartbeat in
      handle_missing_job (Core.job_id registration) "refresh"
  | Err _ => finish (status_response BAD_GATEWAY)
  end)%st.

(** Forward the request and retry transient transport failures. *)
Definition forward_with_retries (endpoint : Endpoint) : Unwinding reply := (
  let? r := await (forward_request endpoint req) in
  match r with
  | Ok resp => finish resp
  | Err err =>
      if negb (is_retryable_transport err) then finish (status_response (status_code err))
      else
        match replayable_method (in_method req) with
        | None => finish (status_response (status_code err))
        | Some retry_method =>
            let? out := retry_transient endpoint retry_method TRANSIENT_RETRY_BACKOFF_MS err in
            match out with
            | inl resp => ret (Ok resp)
            | inr err => retry_refreshed endpoint retry_method err
            end
        end
  end)%st.

End request.

(** [Drop for CancelOnDrop]: the token it wraps is cancelled. *)
Definition cancel_on_drop (token : nat) : ST W unit := cancel_heartbeat token.

(** Dropping the heartbeat's cancel guard, then the in-flight guard. *)
Definition drop_guards (guard heartbeat : nat) : ST W unit := (
  do* cancel_on_drop heartbeat in in_flight_drop guard)%st.

(** Dropping the tunnel's guard: its fields in the order they are declared. *)
Definition drop_lifecycle (guard heartbeat : nat) : ST W unit := (
  do* in_flight_drop guard in cancel_on_drop heartbeat)%st.

(** [Instant::now() + interval * 6 + 60 s]; any of the operations can overflow. *)
Definition deadline_after (t : Z) : res string Z :=
  res_bind (duration_mul (heartbeat_interval state) 6) (fun six =>
  res_bind (instant_add t six) (fun t => instant_add t (duration_from_secs 60))).

(** The heartbeat's deadline: WebSocket heartbeats have none. *)
Definition heartbeat_deadline (is_websocket : bool) : Unwinding (option Z) := (
  if is_websocket then ret (Ok None)
  else let* t := now in ret (res_map_err Unwound.Panicked (res_map Some (deadline_after t))))%st.

(** The handler with the job's endpoint, up to the point where it returns,
    panics or is dropped: in each case the guards it holds are dropped, except
    those that live on in a tunnel, of which the second component is the drop.
    When the deadline panics there is no heartbeat yet. *)
Definition serve (registration : JobRegistration) (endpoint : Endpoint) (req : inbound)
    : ST W (res Unwound.t reply * option (ST W unit)) := (
  let is_websocket := is_websocket_upgrade req in
  let* guard := in_flight_track (Core.job_id registration) in
  let* deadline := heartbeat_deadline is_websocket in
  match deadline with
  | Err u => do* in_flight_drop guard in ret (Err u, None)
  | Ok deadline =>
      let* heartbeat := spawn_heartbeat (Core.job_id registration) deadline in
      if is_websocket then
        let* rt := forward_websocket_upgrade endpoint req (drop_lifecycle guard heartbeat) in
        ret (res_map (fun r => match r with Ok response => response | Err e => status_response (status_code e) end) rt.1,
             if rt.2 : bool then Some (drop_lifecycle guard heartbeat) else None)
      else
        let* response := forward_with_retries registration req heartbeat endpoint in
        do* drop_guards guard heartbeat in
        ret (response, None)
  end)%st.

(** Before it holds a guard the handler just ends where it is unwound. *)
Definition unguarded {A} (m : Unwinding A) (k : A -> ST W (res Unwound.t reply * option (ST W unit)))
    : ST W (res Unwound.t reply * option (ST W unit)) := (
  let* r := m in match r with Ok a => k a | Err u => ret (Err u, None) end)%st.

(** [proxy_handler]: the response, and what closing the tunnel runs. *)
Definition proxy_handler (req : inbound) : ST W (res Unwound.t reply * option (ST W unit)) := (
  match header "host" (in_headers req) with
  | None => ret (Ok (text_response BAD_REQUEST "missing Host header"), None)
  | Some v =>
      let host_value := default "" (header_str v) in
      unguarded (await (registry_get (service_key host_value))) (fun r =>
      match r with
      | Ok None => ret (Ok (text_response NOT_FOUND "service not registered"), None)
      | Err _ => ret (Ok (text_response INTERNAL_SERVER_ERROR "registry error"), None)
      | Ok (Some registration) =>
          let job_id := Core.job_id registration in
          unguarded (await (ensure_running registration)) (fun w =>
          match w with
          | Ok ep =>
              unguarded (clear_missing_job_counter job_id) (fun _ =>
              serve registration ep req)
          | Err (NscaleError.JobNotFound _) =>
              unguarded (handle_missing_job job_id "wake") (fun resp => ret (Ok resp, None))
          | Err e =>
              ret (Ok (text_response SERVICE_UNAVAILABLE ("wake error: " +:+ error_to_string e)), None)
          end)
      end)
  end)%st.

End handler.

(** The heartbeat task's loop, by what its [select!] finds ready: a tick records
    the job's activity, cancellation and the deadline end it. *)
Inductive ready : Type := Cancelled | DeadlinePassed | Ticked.

Fixpoint heartbeat_loop {W} `{ActivityStore W} (job : JobId) (events : list ready) : ST W unit :=
  match events with
  | Ticked :: events' => bind (record_activity job) (fun _ => heartbeat_loop job events')
  | _ => ret tt
  end.

(** ** Reading a handler's calls *)

(** A call that reaches a backend. *)
Definition contacts (c : Call.t) : Prop :=
  match c with
  | Call.Forward _ _ | Call.Connect _ _ | Call.Handshake _ | Call.SendUpgrade _ _ => True
  | _ => False
  end.
Definition away (c : Call.t) : Prop := ~ contacts c.

(** What is sent to a backend: an ordinary request, or a WebSocket handshake. *)
Inductive message : Type :=
| Ordinary (o : outbound)
| Upgrading (q : inbound).

Definition sent (tr : list Call.t) : list message :=
  omap (fun c => match c with
                 | Call.Forward o _ => Some (Ordinary o)
                 | Call.SendUpgrade q _ => Some (Upgrading q)
                 | _ => None end) tr.

(** The calls that take or drop an in-flight guard. *)
Definition is_guard_call (c : Call.t) : bool :=
  match c with Call.Track _ _ | Call.DropGuard _ => true | _ => false end.
Definition guards (tr : list Call.t) : list Call.t := filter (fun c => is_guard_call c = true) tr.

Lemma sent_app a b : sent (a ++ b) = sent a ++ sent b.
Proof. apply omap_app. Qed.
Lemma guards_app a b : guards (a ++ b) = guards a ++ guards b.
Proof. apply filter_app. Qed.
Lemma away_sent tr : Forall away tr -> sent tr = [].
Proof. induction 1 as [|c tr Hc _ IH]; [done|]. destruct c; simpl; try done; by destruct Hc. Qed.

(** A registration is dropped only after the job was counted missing up to the
    threshold. *)
Definition drops_missing (state : AppState) (tr : list Call.t) : Prop :=
  forall j r, Call.Deregister j r ∈ tr ->
    state_auto_deregister_enabled state = true /\
    exists k, Call.IncrementNotFound j (Ok k) ∈ tr /\ state_auto_deregister_threshold state <= k.

Lemma drops_app state a b : drops_missing state a -> drops_missing state b -> drops_missing state (a ++ b).
Proof.
  intros Ha Hb j r Hin. apply elem_of_app in Hin as [Hin|Hin];
    [destruct (Ha j r Hin) as (? & k & ? & ?)|destruct (Hb j r Hin) as (? & k & ? & ?)];
    (split; [done|]); exists k; (split; [|done]); apply elem_of_app; auto.
Qed.

Lemma drops_none state tr : Forall (fun c => forall j r, c <> Call.Deregister j r) tr -> drops_missing state tr.
Proof. intros Ha j r Hin. rewrite Forall_forall in Ha. by destruct (Ha _ Hin j r). Qed.

(** The calls of the handler that are neither. *)
Record calm (state : AppState) (tr : list Call.t) : Prop := mkCalm {
  calm_guards : guards tr = [];
  calm_drops : drops_missing state tr }.

Lemma calm_app state a b : calm state a -> calm state b -> calm state (a ++ b).
Proof. intros [Ha Ha'] [Hb Hb']. split; [by rewrite guards_app, Ha, Hb|by apply drops_app]. Qed.
Lemma calm_nil state : calm state [].
Proof. split; [done|]. by apply drops_none. Qed.
Lemma calm_one state c :
  match c with Call.Track _ _ | Call.DropGuard _ | Call.Deregister _ _ => False | _ => True end ->
  calm state [c].
Proof. intros Hc. split; [by destruct c|]. apply drops_none, Forall_singleton. intros j r ->. done. Qed.

Lemma calm_list state tr :
  Forall (fun c => match c with Call.Track _ _ | Call.DropGuard _ | Call.Deregister _ _ => False | _ => True end) tr ->
  calm state tr.
Proof.
  induction 1 as [|c tr Hc _ IH]; [apply calm_nil|]. by apply (calm_app _ [c]); [apply calm_one|].
Qed.

Create HintDb calm.
#[export] Hint Resolve calm_app calm_nil : calm.
#[export] Hint Extern 1 (calm _ [_]) => apply calm_one; exact I : calm.

(** What a retry carries. *)
Definition replay (req : inbound) (ep : Endpoint) : message :=
  Ordinary (forwarded ep (mkInbound (in_method req) (Some (target_or_root req)) [] "")).

(** The endpoints the coordinator has named. *)
Definition named (ep : Endpoint) (tr : list Call.t) : Prop :=
  exists reg old, Call.EnsureRunning reg (Ok ep) ∈ tr \/
    Call.Refresh reg old (Ok (EndpointRefresh.Updated ep)) ∈ tr.

Lemma named_app_l ep a b : named ep a -> named ep (a ++ b).
Proof. intros (reg & old & [?|?]); exists reg, old; [left|right]; apply elem_of_app; auto. Qed.
Lemma named_app_r ep a b : named ep b -> named ep (a ++ b).
Proof. intros (reg & old & [?|?]); exists reg, old; [left|right]; apply elem_of_app; auto. Qed.

Section emits_handler.
Context {W : Type} `{ActivityStore W, MissingJobTracker W, Registry W, Coordinator W, InFlight W,
  Backend W, Upgrade W, Clock W, Heartbeats W, Peer W}.
Context (state : AppState).
Abbreviation TW := (Traced Call.t W).

(** Calls that neither touch a guard nor reach a backend. *)
Definition quiet_calls (tr : list Call.t) : Prop := calm state tr /\ Forall away tr.

Lemma quiet_app (a b : list Call.t) : quiet_calls a -> quiet_calls b -> quiet_calls (a ++ b).
Proof. intros [Ha Ha'] [Hb Hb']. split; [auto with calm|by apply Forall_app]. Qed.
Lemma quiet_nil : quiet_calls [].
Proof. split; [auto with calm|constructor]. Qed.
Lemma quiet_one c : calm state [c] -> away c -> quiet_calls [c].
Proof. intros Hc Ha. split; [done|]. by constructor. Qed.
Lemma quiet_sent tr : quiet_calls tr -> sent tr = [].
Proof. intros [_ Ha]. by apply away_sent. Qed.

#[local] Hint Resolve quiet_app quiet_nil : quiet.
#[local] Hint Extern 1 (quiet_calls [_]) => apply quiet_one; [apply calm_one; exact I|intros []] : quiet.

(** A checked value: the function is unwound, or goes on. *)
Lemma emits_try_ret {A B} (x : res Unwound.t A) (k : A -> ST TW (res Unwound.t B)) Q :
  (forall u, x = Err u -> Q [] (Err u)) -> (forall a, x = Ok a -> emits (k a) Q) -> emits (try (ret x) k) Q.
Proof.
  intros He Hk. eapply emits_try with (P := fun tr y => tr = [] /\ x = y); [by apply emits_ret| |].
  - intros ? a [-> Hx]. by apply Hk.
  - intros ? u [-> Hx]. by apply He.
Qed.

Abbreviation quietly m := (emits (W := TW) m (fun tr _ => quiet_calls tr)).

Lemma quiet_ret {A} (r : A) : quietly (ret r).
Proof. apply emits_ret, quiet_nil. Qed.

Lemma quiet_bind {A B} (m : ST TW A) (k : A -> ST TW B) : quietly m -> (forall a, quietly (k a)) -> quietly (bind m k).
Proof.
  intros Hm Hk. eapply emits_bind; [exact Hm|]. intros tr a Ht. eapply emits_mono; [apply Hk|].
  intros tr' b Ht'. by apply quiet_app.
Qed.

Lemma quiet_try {A B} (m : ST TW (res Unwound.t A)) (k : A -> ST TW (res Unwound.t B)) :
  quietly m -> (forall a, quietly (k a)) -> quietly (try m k).
Proof. intros Hm Hk. apply quiet_bind; [done|]. intros [a|u]; [apply Hk|apply quiet_ret]. Qed.

Lemma quiet_call {A} (ev : A -> Call.t) (m : ST W A) : (forall a, quiet_calls [ev a]) -> quietly (traced ev m).
Proof. intros Hq. eapply emits_mono; [apply emits_call|]. by intros tr a ->. Qed.

Lemma quiet_await {A} (m : ST TW A) : quietly m -> quietly (await m).
Proof.
  intros Hm. apply quiet_bind; [done|]. intros a. apply quiet_bind; [|intros; apply quiet_ret].
  apply quiet_call. auto with quiet.
Qed.

(** The calls [c] before a quiet function stay what they are. *)
Lemma quiet_after {A} (m : ST TW A) c : quiet_calls c -> quietly m -> emits m (fun tr _ => quiet_calls (c ++ tr)).
Proof. intros Hc Hm. eapply emits_mono; [exact Hm|]. intros tr x Ht. by apply quiet_app. Qed.

(** Every call of the function is quiet. *)
Ltac quietly :=
  repeat (cbn beta iota zeta;
    lazymatch goal with
    | |- forall _, _ => intros
    | |- emits (bind _ _) _ => apply quiet_bind
    | |- emits (try _ _) _ => apply quiet_try
    | |- emits (await _) _ => apply quiet_await
    | |- emits (ret _) _ => apply quiet_ret
    | |- emits (match ?x with _ => _ end) _ => destruct x
    | |- emits _ _ => first [solve [eauto with quiet] | apply quiet_call; intros; auto with quiet; fail]
    end).

Lemma emits_finish h r : emits (W := TW) (finish h r) (fun tr x => quiet_calls tr /\ x = Ok r).
Proof. unfold finish. emit. intros ? [] ->. apply emits_ret. split; [auto with quiet|done]. Qed.

Lemma quiet_finish h r : quietly (finish h r).
Proof. unfold finish. quietly. Qed.

Lemma quiet_clear_counter job : quietly (clear_missing_job_counter state job).
Proof. unfold clear_missing_job_counter. quietly. Qed.

(** After the job has been counted missing up to the threshold, the clean-up. *)
Lemma cleanup_quiet job k :
  state_auto_deregister_enabled state = true -> state_auto_deregister_threshold state <= k ->
  emits (W := TW) (cleanup_missing_job_state job)
    (fun tr _ => quiet_calls ([Call.IncrementNotFound job (Ok k); Call.PeerGone false] ++ tr)).
Proof.
  intros He Hk. unfold cleanup_missing_job_state.
  set (c0 := [Call.IncrementNotFound job (Ok k); Call.PeerGone false]).
  assert (Hc0 : quiet_calls c0) by (split; [by apply (calm_app _ [_] [_]); apply calm_one|repeat constructor; by intros []]).
  emit. intros ? [] ->. eapply emits_await_try; [eapply emits_call| |].
  { intros ? r ->. repeat apply quiet_app; auto with quiet. }
  intros ? r ->. eapply emits_await_try; [eapply emits_call| |].
  all: intros ? r2 ->.
  all: assert (Hd : forall b, quiet_calls (c0 ++ [Call.MarkDormant job] ++ ([Call.RemoveActivity job r] ++ [Call.PeerGone false])
         ++ [Call.Deregister job r2] ++ [Call.PeerGone b]));
       [intros b; (split; [split; [done|]|by repeat constructor; intros []]); intros j r' Hin;
        (assert (j = job) as -> by set_solver); (split; [done|]); exists k; (split; [left|done])|].
  - apply Hd.
  - destruct r2 as [[]|e]; [|apply emits_ret; rewrite app_nil_r; apply Hd].
    eapply emits_mono with (P := fun tr _ => quiet_calls tr); [quietly|].
    intros tr x Ht. pose proof (quiet_app _ _ (Hd false) Ht) as Hq. by rewrite <- !app_assoc in Hq |- *.
Qed.

Lemma quiet_missing_job job source : quietly (handle_missing_job state job source).
Proof.
  unfold handle_missing_job. destruct (state_auto_deregister_enabled state) eqn:He; simpl; [|quietly].
  eapply emits_await_try; [eapply emits_call| |]; intros ? r ->; [auto with quiet|].
  assert (Hc : quiet_calls ([Call.IncrementNotFound job r] ++ [Call.PeerGone false])) by auto with quiet.
  destruct r as [k|e]; [|apply quiet_after; [done|quietly]].
  case_bool_decide as Hk; [|apply quiet_after; [done|quietly]].
  eapply emits_try; [by eapply cleanup_quiet| |].
  - intros tr c Ht. destruct c; apply emits_ret; by rewrite app_nil_r.
  - by intros tr u Ht.
Qed.

(** One request to the endpoint. *)
Lemma emits_forward ep req :
  emits (W := TW) (forward_request ep req)
    (fun tr x => calm state tr /\ sent tr = [Ordinary (forwarded ep req)]).
Proof.
  unfold forward_request, map_err.
  eapply emits_try with (P := fun tr x => calm state tr /\ sent tr = [Ordinary (forwarded ep req)]).
  - emit. intros ? r ->. apply emits_ret. split; [auto with calm|done].
  - intros tr r Htr. apply emits_ret. by rewrite app_nil_r.
  - done.
Qed.

Section request.
Context (registration : JobRegistration) (req : inbound) (h : nat).

(** At most [n] replays to the endpoint. *)
Definition replays (ep : Endpoint) (n : nat) (tr : list Call.t) : Prop :=
  calm state tr /\ exists k, (k <= n)%nat /\ sent tr = replicate k (replay req ep).

Lemma replays_app ep n n' a b : replays ep n a -> replays ep n' b -> replays ep (n + n') (a ++ b).
Proof.
  intros [Ha (k & Hk & Hs)] [Hb (k' & Hk' & Hs')]. split; [auto with calm|]. exists (k + k')%nat.
  split; [lia|]. by rewrite sent_app, Hs, Hs', replicate_add.
Qed.

Lemma replays_quiet ep n tr : quiet_calls tr -> replays ep n tr.
Proof. intros Hq. split; [apply Hq|]. exists 0%nat. split; [lia|by apply quiet_sent]. Qed.

Lemma replays_le ep n n' tr : (n <= n')%nat -> replays ep n tr -> replays ep n' tr.
Proof. intros Hle [Hc (k & Hk & Hs)]. split; [done|]. exists k. split; [lia|done]. Qed.

(** One more attempt, unless the retry request cannot be built. *)
Lemma emits_again ep m :
  m = in_method req -> emits (W := TW) (forward_again req ep m) (fun tr _ => replays ep 1 tr).
Proof.
  intros ->. unfold forward_again. apply emits_try_ret; [intros u _; apply replays_quiet; auto with quiet|].
  intros x Hx. assert (x = mkInbound (in_method req) (Some (target_or_root req)) [] "") as ->.
  { unfold build_retry_request in Hx. by destruct (valid_uri _); simplify_eq. }
  eapply emits_mono; [by apply emits_await, emits_forward|].
  intros tr y (tr0 & a & [Hc Hs] & Hcase).
  assert (exists b, tr = tr0 ++ [Call.PeerGone b]) as [b ->] by (destruct Hcase as [[-> _]|[-> _]]; eauto).
  split; [auto with calm|]. exists 1%nat. split; [lia|]. by rewrite sent_app, Hs.
Qed.

Lemma emits_transient ep m delays err :
  m = in_method req ->
  emits (W := TW) (retry_transient req h ep m delays err) (fun tr _ => replays ep (length delays) tr).
Proof.
  intros Hm. revert err. induction delays as [|d delays IH]; intros err; simpl.
  - apply emits_ret, replays_quiet. auto with quiet.
  - eapply emits_await_try; [eapply emits_call| |]; intros ? [] ->; [apply replays_quiet; auto with quiet|].
    assert (Hslept : replays ep 0 ([Call.Sleep (duration_from_millis d)] ++ [Call.PeerGone false]))
      by (apply replays_quiet; auto with quiet).
    eapply emits_try; [by apply emits_again| |].
    + intros tr r Htr. pose proof (replays_app _ _ _ _ _ Hslept Htr) as Hp.
      assert (Hdone : forall m' : ST TW (res Unwound.t (reply + ForwardRequestError.t)), quietly m' -> emits m' (fun tr' _ =>
        replays ep (S (length delays)) (([Call.Sleep (duration_from_millis d)] ++ [Call.PeerGone false]) ++ tr ++ tr'))).
      { intros m' Hq. eapply emits_mono; [exact Hq|]. intros tr' x Hx. rewrite app_assoc.
        apply (replays_le ep (0 + 1 + 0)); [lia|]. by apply replays_app, replays_quiet. }
      destruct r as [resp|e]; [|destruct (is_retryable_transport e)].
      * apply Hdone. apply quiet_try; [apply quiet_finish|intros; apply quiet_ret].
      * eapply emits_mono; [apply IH|]. intros tr' x Hx. rewrite app_assoc.
        apply (replays_le ep (0 + 1 + length delays)); [lia|]. by apply replays_app.
      * apply Hdone. apply quiet_try; [apply quiet_finish|intros; apply quiet_ret].
    + intros tr u Htr. apply (replays_le ep (0 + 1)); [lia|]. by apply replays_app.
Qed.

Lemma emits_last ep m :
  m = in_method req -> emits (W := TW) (retry_last req h ep m) (fun tr _ => replays ep 1 tr).
Proof.
  intros ->. unfold retry_last. eapply emits_try; [by apply emits_again| |done]. intros tr r Htr.
  destruct r; (eapply emits_mono; [apply quiet_finish|]); intros tr' x Hx;
    apply (replays_le ep (1 + 0)); try lia; by apply replays_app, replays_quiet.
Qed.

(** At most one request, to an endpoint the coordinator named. *)
Definition one_retry (tr : list Call.t) : Prop :=
  calm state tr /\ (sent tr = [] \/ exists ep, sent tr = [replay req ep] /\ named ep tr).

Lemma one_retry_quiet tr : quiet_calls tr -> one_retry tr.
Proof. intros Hq. split; [apply Hq|]. left. by apply quiet_sent. Qed.

Lemma one_retry_named ep c tr : quiet_calls c -> named ep c -> replays ep 1 tr -> one_retry (c ++ tr).
Proof.
  intros Hc Hn [Ht (k & Hk & Hs)]. split; [apply calm_app; [apply Hc|done]|].
  rewrite sent_app, (quiet_sent c Hc), Hs. destruct k as [|[|k]]; [by left| |lia].
  right. exists ep. split; [done|]. by apply named_app_l.
Qed.

Lemma one_retry_after c tr : quiet_calls c -> one_retry tr -> one_retry (c ++ tr).
Proof.
  intros Hc [Ht Hs]. split; [apply calm_app; [apply Hc|done]|]. rewrite sent_app, (quiet_sent c Hc). simpl.
  destruct Hs as [->|(ep & -> & Hn)]; [by left|right]. exists ep. split; [done|]. by apply named_app_r.
Qed.

(** A quiet end after the calls [c]. *)
Lemma emits_quiet_end {A} (m : ST TW A) c :
  quiet_calls c -> quietly m -> emits m (fun tr _ => one_retry (c ++ tr)).
Proof.
  intros Hc Hm. eapply emits_mono; [exact Hm|]. intros tr x Ht. by apply one_retry_quiet, quiet_app.
Qed.

Lemma quiet_then_missing job source :
  quietly (bind (cancel_heartbeat h) (fun _ => handle_missing_job state job source)).
Proof. apply quiet_bind; [apply quiet_call; auto with quiet|]. intros. apply quiet_missing_job. Qed.

(** The last attempt, once the calls [c] have named the endpoint. *)
Lemma emits_named_last ep m c :
  m = in_method req -> quiet_calls c -> named ep c ->
  emits (W := TW) (do? clear_missing_job_counter state (Core.job_id registration) in retry_last req h ep m)%st
    (fun tr _ => one_retry (c ++ tr)).
Proof.
  intros Hm Hc Hn. eapply emits_try; [apply quiet_clear_counter| |].
  - intros a x Ha. eapply emits_mono; [by apply emits_last|]. intros b y Hb. rewrite app_assoc.
    apply (one_retry_named ep); [by apply quiet_app|by apply named_app_l|done].
  - intros a u Ha. apply one_retry_quiet. by apply quiet_app.
Qed.

Lemma emits_rewake m :
  m = in_method req -> emits (W := TW) (rewake state registration req h m) (fun tr _ => one_retry tr).
Proof.
  intros Hm. unfold rewake. eapply emits_await_try; [eapply emits_call| |]; intros ? r ->.
  { apply one_retry_quiet. auto with quiet. }
  destruct r as [ep|e].
  - apply emits_named_last; [done|auto with quiet|]. exists registration, ep. left. left.
  - destruct e; apply emits_quiet_end; auto with quiet; try apply quiet_finish; apply quiet_then_missing.
Qed.

Lemma emits_refreshed ep m err :
  m = in_method req ->
  emits (W := TW) (retry_refreshed state registration req h ep m err) (fun tr _ => one_retry tr).
Proof.
  intros Hm. unfold retry_refreshed. eapply emits_await_try; [eapply emits_call| |]; intros ? r ->.
  { apply one_retry_quiet. auto with quiet. }
  destruct r as [[ep'|ep'|]|e].
  - apply emits_quiet_end; [auto with quiet|]. apply quiet_try; [apply quiet_clear_counter|intros; apply quiet_finish].
  - apply emits_named_last; [done|auto with quiet|]. exists registration, ep. right. left.
  - eapply emits_mono; [by apply emits_rewake|]. intros tr x Ht. apply one_retry_after; [auto with quiet|done].
  - destruct e; apply emits_quiet_end; auto with quiet; try apply quiet_finish; apply quiet_then_missing.
Qed.

(** The requests that serve one request: the request itself, then retries. *)
Definition attempts (ep : Endpoint) (l : list message) (tr : list Call.t) : Prop :=
  exists eps, l = Ordinary (forwarded ep req) :: map (replay req) eps /\ (length eps <= 3)%nat /\
    (eps <> [] -> in_method req = GET \/ in_method req = HEAD) /\
    forall ep', ep' ∈ eps -> ep' = ep \/ named ep' tr.

Lemma attempts_one ep tr : attempts ep [Ordinary (forwarded ep req)] tr.
Proof. exists []. split_and!; [done|simpl; lia|done|set_solver]. Qed.

(** The first attempt, [tr], then [n] replays on the same endpoint, then at most
    one elsewhere. *)
Lemma attempts_replayed ep tr tr1 tr2 :
  in_method req = GET \/ in_method req = HEAD ->
  sent tr = [Ordinary (forwarded ep req)] -> replays ep 2 tr1 -> one_retry tr2 ->
  attempts ep (sent (tr ++ tr1 ++ tr2)) (tr ++ tr1 ++ tr2).
Proof.
  intros Hsafe Hs [_ (n & Hn & Hs1)] [_ Hone].
  assert (Hl : exists eps, sent tr2 = map (replay req) eps /\ (length eps <= 1)%nat /\
    forall ep', ep' ∈ eps -> named ep' tr2).
  { destruct Hone as [->|(ep' & -> & Hn')]; [by exists []; split_and!; [done|simpl; lia|set_solver]|].
    exists [ep']. split_and!; [done|simpl; lia|]. by intros ? ->%list_elem_of_singleton. }
  destruct Hl as (eps & Hs2 & Hlen & Hnamed). exists (replicate n ep ++ eps).
  rewrite !sent_app, Hs, Hs1, Hs2, fmap_app, fmap_replicate, length_app, length_replicate.
  split_and!; [done|lia|done|]. intros ep' [[-> _]%elem_of_replicate|Hin]%elem_of_app; [by left|].
  right. apply named_app_r, named_app_r. auto.
Qed.

Lemma emits_attempts ep :
  emits (W := TW) (forward_with_retries state registration req h ep)
    (fun tr _ => calm state tr /\ attempts ep (sent tr) tr).
Proof.
  unfold forward_with_retries. eapply emits_await_try; [apply emits_forward| |]; intros tr0 r [Htr0 Hs0].
  { split; [auto with calm|]. rewrite sent_app, Hs0. apply attempts_one. }
  set (tr := tr0 ++ [Call.PeerGone false]).
  assert (Htr : calm state tr) by (unfold tr; auto with calm).
  assert (Hs : sent tr = [Ordinary (forwarded ep req)]) by (unfold tr; by rewrite sent_app, Hs0).
  assert (Hend : forall resp, emits (W := TW) (finish h resp) (fun tr' _ =>
    calm state (tr ++ tr') /\ attempts ep (sent (tr ++ tr')) (tr ++ tr'))).
  { intros resp. eapply emits_mono; [apply quiet_finish|]. intros tr' x Hq.
    split; [apply calm_app; [done|apply Hq]|]. rewrite sent_app, Hs, (quiet_sent _ Hq). apply attempts_one. }
  destruct r as [resp|err]; [apply Hend|]. destruct (negb (is_retryable_transport err)); [apply Hend|].
  destruct (replayable_method (in_method req)) as [m|] eqn:Hm; [|apply Hend].
  assert (m = in_method req /\ (in_method req = GET \/ in_method req = HEAD)) as [Hm' Hsafe].
  { destruct (in_method req); simpl in Hm; simplify_eq; auto. }
  assert (Hshort : forall tr1, replays ep 2 tr1 -> calm state (tr ++ tr1) /\ attempts ep (sent (tr ++ tr1)) (tr ++ tr1)).
  { intros tr1 Hr. split; [apply calm_app; [done|apply Hr]|].
    pose proof (attempts_replayed ep tr tr1 [] Hsafe Hs Hr (one_retry_quiet _ quiet_nil)) as Ha.
    by rewrite app_nil_r in Ha. }
  eapply emits_try; [by apply emits_transient| |by intros tr1 u Hr; apply Hshort].
  intros tr1 out Hr. destruct out as [resp|err'].
  - apply emits_ret. rewrite app_nil_r. by apply Hshort.
  - eapply emits_mono; [by apply emits_refreshed|]. intros tr2 x Hone. split; [|by apply attempts_replayed].
    apply calm_app; [done|apply calm_app; [apply Hr|apply Hone]].
Qed.
End request.

(** ** The whole handler *)

(** The handshake of a WebSocket request, if any was sent. *)
Definition upgrades (req : inbound) (ep : Endpoint) (tr : list Call.t) : Prop :=
  calm state tr /\ (sent tr = [] \/ sent tr = [Upgrading (upgrade_request ep req)]).

(** The calls of the exchange, and the handshake when it was answered. *)
Lemma emits_exchange ep req :
  emits (W := TW) (upgrade_exchange ep req) (fun tr r => upgrades req ep tr /\
    forall resp, r = Ok (Ok resp) -> sent tr = [Upgrading (upgrade_request ep req)]).
Proof.
  assert (Hquiet : forall tr, calm state tr -> sent tr = [] -> forall r : res Unwound.t (res ForwardRequestError.t reply),
    (forall resp, r <> Ok (Ok resp)) -> upgrades req ep tr /\
    forall resp, r = Ok (Ok resp) -> sent tr = [Upgrading (upgrade_request ep req)]).
  { intros tr Hc Hs r Hr. split; [split; [done|by left]|]. intros resp E. by destruct (Hr resp). }
  unfold upgrade_exchange, map_err.
  eapply emits_await_try with (P := fun tr _ => exists r, tr = [Call.Connect (endpoint_address ep) r]);
    [emit; intros ? r ->; apply emits_ret; by exists r| |]; intros ? x [r ->]; [apply Hquiet; [by apply calm_list; repeat constructor|done..]|].
  destruct x as [[]|e]; [|apply emits_ret; apply Hquiet; [by apply calm_list; repeat constructor|done..]].
  eapply emits_await_try with (P := fun tr _ => exists r, tr = [Call.Handshake r]);
    [emit; intros ? r' ->; apply emits_ret; by exists r'| |]; intros ? x [r' ->]; [apply Hquiet; [by apply calm_list; repeat constructor|done..]|].
  destruct x as [[]|e]; [|apply emits_ret; apply Hquiet; [by apply calm_list; repeat constructor|done..]].
  apply emits_try_ret; [intros u _; apply Hquiet; [by apply calm_list; repeat constructor|done..]|].
  intros q Hq. assert (q = upgrade_request ep req) as ->.
  { unfold checked_upgrade in Hq. by destruct (valid_uri _), (valid_header_value _); simplify_eq/=. }
  eapply emits_mono.
  { apply emits_await with (P := fun tr _ => exists r, tr = [Call.SendUpgrade (upgrade_request ep req) r]).
    emit. intros ? r2 ->. apply emits_ret. by exists r2. }
  intros tr y (tr0 & a & [r2 ->] & Hcase).
  assert (exists b, tr = [Call.SendUpgrade (upgrade_request ep req) r2] ++ [Call.PeerGone b]) as [b ->]
    by (destruct Hcase as [[-> _]|[-> _]]; eauto).
  split; [split; [by apply calm_list; repeat constructor|by right]|done].
Qed.

Lemma emits_websocket ep req g h :
  emits (W := TW) (forward_websocket_upgrade ep req (drop_lifecycle g h)) (fun tr out =>
    exists mid, upgrades req ep mid /\
      if out.2 : bool
      then tr = mid /\ sent mid = [Upgrading (upgrade_request ep req)]
      else tr = mid ++ [Call.DropGuard g; Call.CancelHeartbeat h]).
Proof.
  assert (Hdrop : emits (W := TW) (drop_lifecycle g h) (fun tr _ => tr = [Call.DropGuard g; Call.CancelHeartbeat h])).
  { unfold drop_lifecycle, cancel_on_drop. emit. intros ? [] ->. emit. by intros ? [] ->. }
  unfold forward_websocket_upgrade. eapply emits_bind; [apply emits_exchange|].
  intros mid r [Hu Hr]. destruct r as [[resp|e]|u]; [case_bool_decide|..];
    try (eapply emits_bind; [apply Hdrop|]; intros ? [] ->; apply emits_ret; exists mid; by rewrite app_nil_r).
  apply emits_ret. exists mid. rewrite app_nil_r. split; [done|]. split; [done|by eapply Hr].
Qed.

Lemma quiet_deadline ws : quietly (heartbeat_deadline state ws).
Proof. unfold heartbeat_deadline. quietly. Qed.

(** Between taking the in-flight guard and dropping it: the job's requests. *)
Inductive served (req : inbound) (reg : JobRegistration) (ep : Endpoint)
    : list Call.t -> option (ST TW unit) -> Prop :=
| ServedRequest g h mid :
    is_websocket_upgrade req = false -> calm state mid -> attempts req ep (sent mid) mid ->
    served req reg ep
      (Call.Track (Core.job_id reg) g :: mid ++ [Call.CancelHeartbeat h; Call.DropGuard g]) None
| NoDeadline g mid :
    quiet_calls mid -> served req reg ep (Call.Track (Core.job_id reg) g :: mid ++ [Call.DropGuard g]) None
| RefusedUpgrade g h mid :
    is_websocket_upgrade req = true -> upgrades req ep mid ->
    served req reg ep
      (Call.Track (Core.job_id reg) g :: mid ++ [Call.DropGuard g; Call.CancelHeartbeat h]) None
| Tunnelled g h mid :
    is_websocket_upgrade req = true -> upgrades req ep mid ->
    sent mid = [Upgrading (upgrade_request ep req)] ->
    served req reg ep (Call.Track (Core.job_id reg) g :: mid) (Some (drop_lifecycle g h)).

Lemma emits_serve reg ep req :
  emits (W := TW) (serve state reg ep req) (fun tr out => served req reg ep tr out.2).
Proof.
  unfold serve. emit. intros ? g ->. eapply emits_bind; [apply quiet_deadline|]. intros dl d Hd.
  destruct d as [d|u].
  2: { eapply emits_bind; [eapply emits_call|]. intros ? [] ->. apply emits_ret. simpl.
       by apply (NoDeadline _ reg ep g dl). }
  emit. intros ? h ->. set (spawn := Call.SpawnHeartbeat (Core.job_id reg) d h).
  assert (Hpre : quiet_calls (dl ++ [spawn])) by (apply quiet_app; [done|auto with quiet]).
  destruct (is_websocket_upgrade req) eqn:Hws.
  - eapply emits_bind; [apply emits_websocket|]. intros tr [r moved] (mid & [Hc Hs] & Hm).
    assert (Hmid : upgrades req ep (dl ++ spawn :: mid)).
    { split; [apply (calm_app _ dl); [apply Hd|apply (calm_app _ [spawn]); auto with calm]|].
      rewrite sent_app, (quiet_sent _ Hd). exact Hs. }
    apply emits_ret. simpl. rewrite app_nil_r. destruct moved.
    + destruct Hm as [-> Hsm]. apply (Tunnelled _ reg ep g h (dl ++ spawn :: mid) Hws Hmid).
      rewrite sent_app, (quiet_sent _ Hd). exact Hsm.
    + simpl in Hm. subst tr. pose proof (RefusedUpgrade _ reg ep g h _ Hws Hmid) as Hr.
      by rewrite <- !app_assoc in Hr.
  - eapply emits_bind; [apply emits_attempts|]. intros mid r [Hc Ha].
    assert (Hm : calm state (dl ++ [spawn] ++ mid)).
    { apply (calm_app _ dl); [apply Hd|apply (calm_app _ [spawn]); auto with calm]. }
    assert (Ham : attempts req ep (sent (dl ++ [spawn] ++ mid)) (dl ++ [spawn] ++ mid)).
    { rewrite !sent_app, (quiet_sent _ Hd). destruct Ha as (eps & -> & Hl & Hsafe & Hn). exists eps. split_and!; [done..|].
      intros ep' Hin. destruct (Hn ep' Hin) as [?|?]; [by left|]. right. by apply named_app_r, named_app_r. }
    eapply emits_bind with (P := fun tr _ => tr = [Call.CancelHeartbeat h; Call.DropGuard g]).
    { unfold drop_guards, cancel_on_drop. emit. intros ? [] ->. emit. by intros ? [] ->. }
    intros ? [] ->. apply emits_ret. simpl. pose proof (ServedRequest _ reg ep g h _ Hws Hm Ham) as Hr.
    by rewrite <- !app_assoc in Hr.
Qed.

(** What the handler does for a request. *)
Inductive handled (req : inbound) : list Call.t -> option (ST TW unit) -> Prop :=
| Unserved tr : quiet_calls tr -> handled req tr None
| Served pre reg ep tr tunnel :
    quiet_calls pre -> (exists k, Call.Lookup k (Ok (Some reg)) ∈ pre) ->
    Call.EnsureRunning reg (Ok ep) ∈ pre -> served req reg ep tr tunnel ->
    handled req (pre ++ tr) tunnel.

(** An unguarded await: the handler ends when it is unwound. *)
Lemma emits_unguarded {A} (m : ST TW (res Unwound.t A)) k P (Q : list Call.t -> res Unwound.t reply * option (ST TW unit) -> Prop) :
  emits m P ->
  (forall tr u, P tr (Err u) -> Q tr (Err u, None)) ->
  (forall tr a, P tr (Ok a) -> emits (k a) (fun tr' b => Q (tr ++ tr') b)) ->
  emits (unguarded m k) Q.
Proof.
  intros Hm Hd Hk. unfold unguarded. eapply emits_bind; [exact Hm|]. intros tr [a|u] Ha; [by apply Hk|].
  apply emits_ret. rewrite app_nil_r. by apply Hd.
Qed.

Lemma emits_unguarded_call {A} (ev : A -> Call.t) (m : ST W A) k (Q : list Call.t -> res Unwound.t reply * option (ST TW unit) -> Prop) :
  (forall a, Q [ev a; Call.PeerGone true] (Err Unwound.Dropped, None)) ->
  (forall a, emits (k a) (fun tr b => Q (ev a :: Call.PeerGone false :: tr) b)) ->
  emits (unguarded (await (traced ev m)) k) Q.
Proof.
  intros Hd Hk. eapply emits_unguarded; [apply emits_await, emits_call| |].
  - intros tr u (tr0 & a & -> & [[-> [= ->]]|[_ ?]]); [apply Hd|done].
  - intros tr b (tr0 & a & -> & [[_ ?]|[-> [= ->]]]); [done|apply Hk].
Qed.

Lemma emits_handled req :
  emits (W := TW) (proxy_handler state req) (fun tr out => handled req tr out.2).
Proof.
  unfold proxy_handler. destruct (header "host" (in_headers req)) as [v|];
    [|apply emits_ret; apply Unserved, quiet_nil].
  assert (Hlook : forall r b, quiet_calls [Call.Lookup (service_key (default "" (header_str v))) r; Call.PeerGone b]).
  { intros r b. apply (quiet_app [_] [_]); auto with quiet. }
  apply emits_unguarded_call; [intros r; by apply Unserved|]. intros r.
  destruct r as [[reg|]|e]; [|apply emits_ret; by apply Unserved..].
  assert (Hens : forall w b, quiet_calls [Call.Lookup (service_key (default "" (header_str v))) (Ok (Some reg));
      Call.PeerGone false; Call.EnsureRunning reg w; Call.PeerGone b]).
  { intros w b. apply (quiet_app [_; _] [_; _]); [done|]. apply (quiet_app [_] [_]); auto with quiet. }
  apply emits_unguarded_call; [intros w; by apply Unserved|]. intros w.
  assert (Hend : forall tr, quiet_calls tr -> handled req
      (Call.Lookup (service_key (default "" (header_str v))) (Ok (Some reg)) :: Call.PeerGone false
       :: Call.EnsureRunning reg w :: Call.PeerGone false :: tr) None).
  { intros tr Hq. apply Unserved. by apply (quiet_app [_; _; _; _]). }
  destruct w as [ep|e].
  - eapply emits_unguarded; [apply quiet_clear_counter| |].
    + intros tr u Ht. by apply Hend.
    + intros cl x Hcl. eapply emits_mono; [apply emits_serve|]. intros tr out Hserved.
      apply (Served req ([Call.Lookup (service_key (default "" (header_str v))) (Ok (Some reg)); Call.PeerGone false;
        Call.EnsureRunning reg (Ok ep); Call.PeerGone false] ++ cl) reg ep tr out.2); [| | |exact Hserved].
      * by apply quiet_app.
      * eexists. left.
      * do 2 right. left.
  - destruct e; try (apply emits_ret; apply Hend, quiet_nil).
    eapply emits_unguarded; [apply quiet_missing_job| |].
    + intros tr u Ht. by apply Hend.
    + intros tr x Ht. apply emits_ret. rewrite app_nil_r. by apply Hend.
Qed.

(** The first call of the handler, when the request has a host. *)
Lemma emits_looked_up req :
  emits (W := TW) (proxy_handler state req) (fun tr _ =>
    match header "host" (in_headers req) with
    | None => tr = []
    | Some v => exists r tr', tr = Call.Lookup (service_key (default "" (header_str v))) r :: tr'
    end).
Proof.
  unfold proxy_handler. destruct (header "host" (in_headers req)) as [v|]; [|by apply emits_ret].
  apply emits_unguarded_call; [eauto|]. intros r.
  apply emits_mono with (P := fun _ _ => True); [|eauto].
  destruct r as [[reg|]|e]; [|by apply emits_ret..].
  apply emits_unguarded_call; [done|]. intros [ep|e].
  - eapply emits_unguarded; [apply quiet_clear_counter|done|]. intros. eapply emits_mono; [apply emits_serve|done].
  - destruct e; try by apply emits_ret.
    eapply emits_unguarded; [apply quiet_missing_job|done|]. intros. by apply emits_ret.
Qed.
End emits_handler.

(** ** Theorems *)

Section theorems.
Context {W : Type} `{ActivityStore W, MissingJobTracker W, Registry W, Coordinator W, InFlight W,
  Backend W, Upgrade W, Clock W, Heartbeats W, Peer W}.
Context (state : AppState).
Abbreviation TW := (Traced Call.t W).

Lemma handled_calm (req : inbound) tr tunnel :
  handled (W := W) state req tr tunnel -> drops_missing state tr.
Proof.
  intros [tr' [[_ Hd] _]|pre reg ep tr' tn [[_ Hd] _] _ _ Hs]; [done|]. apply drops_app; [done|].
  destruct Hs as [g h mid _ [_ Hc] _|g mid [[_ Hc] _]|g h mid _ [[_ Hc] _]|g h mid _ [[_ Hc] _] _].
  1, 2, 3: apply (drops_app _ [_]); [by apply drops_none, Forall_singleton|];
    apply drops_app; [done|]; apply drops_none; by repeat constructor.
  apply (drops_app _ [_]); [by apply drops_none, Forall_singleton|done].
Qed.

(** C3.  Every request and every WebSocket handshake sent to a backend, and every
    connection opened for one, is counted: the handler takes exactly one in-flight
    guard, for the job id of the registration it found, before it contacts a
    backend, and drops it exactly once, after its last contact, however it ends: by
    a response, after retries and failures, by a panic, or because the client went
    away and its future was dropped at an await; when it answers with a protocol
    switch the guard lives on in the tunnel and is dropped when that closes; a
    request that contacts no backend takes no guard, unless its heartbeat's
    deadline panics, and then drops it. *)
Theorem requests_are_counted req :
  emits (W := TW) (proxy_handler state req) (fun tr out =>
    (Forall away tr /\ guards tr = [] /\ out.2 = None) \/
    exists pre reg g h mid post,
      tr = pre ++ Call.Track (Core.job_id reg) g :: mid ++ post /\
      (exists k, Call.Lookup k (Ok (Some reg)) ∈ pre) /\
      Forall away pre /\ guards pre = [] /\ guards mid = [] /\ Forall away post /\
      (guards post = [Call.DropGuard g] /\ out.2 = None \/
       guards post = [] /\ out.2 = Some (drop_lifecycle g h))).
Proof.
  eapply emits_mono; [apply emits_handled|]. intros tr [r tunnel] Hh. simpl in *.
  destruct Hh as [tr [[Hg _] Hs]|pre reg ep tr tn [[Hg _] Hs] Hl _ Hserved]; [by left|]. right.
  destruct Hserved as [g h mid _ [Hm _] _|g mid [[Hm _] _]|g h mid _ [[Hm _] _]|g h mid _ [[Hm _] _] _].
  - exists pre, reg, g, h, mid, [Call.CancelHeartbeat h; Call.DropGuard g].
    split_and!; eauto. repeat constructor; by intros [].
  - exists pre, reg, g, g, mid, [Call.DropGuard g]. split_and!; eauto. repeat constructor; by intros [].
  - exists pre, reg, g, h, mid, [Call.DropGuard g; Call.CancelHeartbeat h].
    split_and!; eauto. repeat constructor; by intros [].
  - exists pre, reg, g, h, mid, []. rewrite app_nil_r. split_and!; eauto.
Qed.

(** C15.  Retries are bounded and safe: a request is forwarded once to the
    endpoint the coordinator returned for it, and again only when its method is
    GET or HEAD, at most three times, with the same method and target, no body
    and no headers, to that endpoint or to one the coordinator named since; any
    other method is sent at most once; and a WebSocket request is at most one
    handshake with the endpoint the coordinator returned. *)
Theorem retries_are_bounded req :
  emits (W := TW) (proxy_handler state req) (fun tr _ =>
    sent tr = [] \/
    exists reg ep, Call.EnsureRunning reg (Ok ep) ∈ tr /\
      if is_websocket_upgrade req then sent tr = [Upgrading (upgrade_request ep req)]
      else attempts req ep (sent tr) tr).
Proof.
  eapply emits_mono; [apply emits_handled|]. intros tr [r tunnel] Hh. simpl in *.
  destruct Hh as [tr Hq|pre reg ep tr tn Hq _ He Hserved]; [left; by eapply quiet_sent|].
  pose proof (quiet_sent _ _ Hq) as Hs.
  assert (Hin : forall l, Call.EnsureRunning reg (Ok ep) ∈ pre ++ l) by (intros; apply elem_of_app; by left).
  destruct Hserved as [g h mid Hws _ Ha|g mid Hm|g h mid Hws [_ Hm]|g h mid Hws _ Hm].
  - right. exists reg, ep. split; [apply Hin|]. rewrite Hws.
    assert (Hall : sent (pre ++ Call.Track (Core.job_id reg) g :: mid ++ [Call.CancelHeartbeat h; Call.DropGuard g])
      = sent mid).
    { rewrite sent_app, Hs. simpl. rewrite sent_app. by rewrite app_nil_r. }
    rewrite Hall. destruct Ha as (eps & -> & Hl & Hsafe & Hn). exists eps. split_and!; [done..|].
    intros ep' Hin'. destruct (Hn ep' Hin') as [?|?]; [by left|]. right.
    apply named_app_r, (named_app_r _ [_]), named_app_l. done.
  - left. rewrite sent_app, Hs. simpl. by rewrite sent_app, (quiet_sent _ _ Hm).
  - destruct Hm as [Hm|Hm]; [left|right; exists reg, ep; split; [apply Hin|]; rewrite Hws];
      rewrite sent_app, Hs; simpl; by rewrite sent_app, Hm.
  - right. exists reg, ep. split; [apply Hin|]. rewrite Hws, sent_app, Hs. exact Hm.
Qed.

(** The proxy drops a registration only when auto-deregistration is enabled
    and the job's missing count has reached the threshold during this request. *)
Theorem proxy_deregisters_only_missing req :
  emits (W := TW) (proxy_handler state req) (fun tr _ =>
    forall j r, Call.Deregister j r ∈ tr ->
      state_auto_deregister_enabled state = true /\
      exists k, Call.IncrementNotFound j (Ok k) ∈ tr /\ state_auto_deregister_threshold state <= k).
Proof.
  eapply emits_mono; [apply emits_handled|]. intros tr [r tunnel] Hh. simpl in *. by eapply handled_calm.
Qed.
End theorems.

(** ** Where a response comes from *)

Section responses.
Context {W : Type} `{ActivityStore W, MissingJobTracker W, Registry W, Coordinator W, InFlight W,
  Backend W, Upgrade W, Clock W, Heartbeats W, Peer W}.
Context (state : AppState).
Abbreviation TW := (Traced Call.t W).

(** The backend's response as it is passed back. *)
Definition passed_back (resp : reply) : res string reply :=
  build_reply (mkReply (valid_status (reply_status resp)) (reply_headers resp) (reply_body resp)).

(** The call whose failure an error reports. *)
Inductive failed (cs : list Call.t) : ForwardRequestError.t -> Prop :=
| FailedTransport o e : Call.Forward o (Err e) ∈ cs -> failed cs (ForwardRequestError.Transport e)
| FailedBuild o resp e :
    Call.Forward o (Ok resp) ∈ cs -> passed_back resp = Err e -> failed cs (ForwardRequestError.ResponseBuild e)
| FailedConnect a e : Call.Connect a (Err e) ∈ cs -> failed cs (ForwardRequestError.UpgradeConnect e)
| FailedHandshake e : Call.Handshake (Err e) ∈ cs -> failed cs (ForwardRequestError.UpgradeHandshake e)
| FailedUpgrade q e : Call.SendUpgrade q (Err e) ∈ cs -> failed cs (ForwardRequestError.UpgradeRequest e).

(** Nomad no longer knows the job. *)
Definition reported_gone (cs : list Call.t) : Prop :=
  exists reg j, Call.EnsureRunning reg (Err (NscaleError.JobNotFound j)) ∈ cs \/
    exists ep, Call.Refresh reg ep (Err (NscaleError.JobNotFound j)) ∈ cs.

Inductive explained (req : inbound) (cs : list Call.t) : reply -> Prop :=
| FromBackend o resp r : Call.Forward o (Ok resp) ∈ cs -> passed_back resp = Ok r -> explained req cs r
| FromUpgrade q r : Call.SendUpgrade q (Ok r) ∈ cs -> explained req cs r
| BackendFailed e : failed cs e -> explained req cs (status_response (status_code e))
| RefreshFailed reg ep e :
    Call.Refresh reg ep (Err e) ∈ cs -> explained req cs (status_response BAD_GATEWAY)
| NoHost : header "host" (in_headers req) = None ->
    explained req cs (text_response BAD_REQUEST "missing Host header")
| NotRegistered k : Call.Lookup k (Ok None) ∈ cs ->
    explained req cs (text_response NOT_FOUND "service not registered")
| LookupFailed k e : Call.Lookup k (Err e) ∈ cs ->
    explained req cs (text_response INTERNAL_SERVER_ERROR "registry error")
| WakeFailed reg e body : Call.EnsureRunning reg (Err e) ∈ cs ->
    explained req cs (text_response SERVICE_UNAVAILABLE body)
| Gone body : reported_gone cs -> explained req cs (text_response SERVICE_UNAVAILABLE body)
| GoneForGood j : reported_gone cs -> Call.Deregister j (Ok tt) ∈ cs ->
    explained req cs (text_response NOT_FOUND "service not registered").

(** Why there is no response: the client has gone, the request's target does not
    parse again, the address of the backend connected to is no header value, or
    the heartbeat's deadline overflows. *)
Inductive unwound (req : inbound) (cs : list Call.t) : Unwound.t -> Prop :=
| PeerLeft : Call.PeerGone true ∈ cs -> unwound req cs Unwound.Dropped
| BadTarget message : valid_uri (W := W) (target_or_root req) = false -> unwound req cs (Unwound.Panicked message)
| BadAddress a message : Call.Connect a (Ok tt) ∈ cs -> valid_header_value (W := W) a = false ->
    unwound req cs (Unwound.Panicked message)
| Overflow t message : Call.Now t ∈ cs -> deadline_after state t = Err message ->
    unwound req cs (Unwound.Panicked message).

Definition accounted (req : inbound) (cs : list Call.t) (r : res Unwound.t reply) : Prop :=
  match r with Ok resp => explained req cs resp | Err u => unwound req cs u end.

Lemma failed_mono cs cs' e : cs ⊆ cs' -> failed cs e -> failed cs' e.
Proof. intros Hsub. destruct 1; econstructor; eauto. Qed.

Lemma gone_mono cs cs' : cs ⊆ cs' -> reported_gone cs -> reported_gone cs'.
Proof. intros Hsub (reg & j & [?|(ep & ?)]); exists reg, j; [left|right; exists ep]; auto. Qed.

Lemma explained_mono req cs cs' r : cs ⊆ cs' -> explained req cs r -> explained req cs' r.
Proof.
  intros Hsub. destruct 1; [eapply FromBackend|eapply FromUpgrade|eapply BackendFailed|eapply RefreshFailed
    |eapply NoHost|eapply NotRegistered|eapply LookupFailed|eapply WakeFailed|eapply Gone|eapply GoneForGood];
    eauto using failed_mono, gone_mono.
Qed.

Lemma unwound_mono req cs cs' u : cs ⊆ cs' -> unwound req cs u -> unwound req cs' u.
Proof. intros Hsub. destruct 1; [eapply PeerLeft|eapply BadTarget|eapply BadAddress|eapply Overflow]; eauto. Qed.

Lemma accounted_mono req cs cs' r : cs ⊆ cs' -> accounted req cs r -> accounted req cs' r.
Proof. intros Hsub. destruct r; [by apply explained_mono|by apply unwound_mono]. Qed.

Lemma explained_app req cs tr r : explained req cs r -> explained req (cs ++ tr) r.
Proof. apply explained_mono. set_solver. Qed.

(** What an exchange with a backend returns. *)
Definition answered (cs : list Call.t) (x : res ForwardRequestError.t reply) : Prop :=
  match x with
  | Ok r => exists o resp, Call.Forward o (Ok resp) ∈ cs /\ passed_back resp = Ok r
  | Err e => failed cs e
  end.

Lemma answered_mono cs cs' x : cs ⊆ cs' -> answered cs x -> answered cs' x.
Proof. intros Hsub. destruct x as [r|e]; simpl; [intros (o & resp & ? & ?); eauto|by apply failed_mono]. Qed.

Lemma emits_forward_failed ep req :
  emits (W := TW) (forward_request ep req) (fun tr x => answered tr x).
Proof.
  unfold forward_request, map_err.
  eapply emits_try with (P := fun tr x => match x with
    | Ok resp => tr = [Call.Forward (forwarded ep req) (Ok resp)]
    | Err e => failed tr e end).
  - emit. intros ? r ->. apply emits_ret. destruct r as [resp|e]; [done|]. simpl. eapply FailedTransport. left.
  - intros ? resp ->. apply emits_ret. unfold answered, passed_back. simpl.
    destruct (build_reply (W := W) _) as [r|e] eqn:E; simpl.
    + exists (forwarded ep req), resp. split; [left|done].
    + eapply FailedBuild; [left|done].
  - done.
Qed.

Section request.
Context (req : inbound) (registration : JobRegistration) (h : nat).

(** [m] accounts for its result by what was called before it and by it. *)
Definition explains (cs : list Call.t) (m : ST TW (res Unwound.t reply)) : Prop :=
  emits m (fun tr r => accounted req (cs ++ tr) r).

(** The unwinding of a function that returns something else. *)
Definition unwinds {A} (cs : list Call.t) (m : ST TW (res Unwound.t A)) (P : list Call.t -> A -> Prop) : Prop :=
  emits m (fun tr x => match x with Ok a => P (cs ++ tr) a | Err u => unwound req (cs ++ tr) u end).

Lemma explains_ret cs r : explained req cs r -> explains cs (ret (Ok r)).
Proof. intros Hr. apply emits_ret. by rewrite app_nil_r. Qed.

(** Whatever is called in between stays accounted for. *)
Lemma unwinds_bind {A B} cs (m : ST TW A) (k : A -> ST TW (res Unwound.t B)) P Q :
  emits m P -> (forall tr a, P tr a -> unwinds (cs ++ tr) (k a) Q) -> unwinds cs (bind m k) Q.
Proof.
  intros Hm Hk. eapply emits_bind; [exact Hm|]. intros tr a Hp. eapply emits_mono; [exact (Hk tr a Hp)|].
  intros tr' r Hr. cbn beta in *. by rewrite app_assoc.
Qed.

Lemma explains_bind {A} cs (m : ST TW A) (k : A -> ST TW (res Unwound.t reply)) P :
  emits m P -> (forall tr a, P tr a -> explains (cs ++ tr) (k a)) -> explains cs (bind m k).
Proof. apply (unwinds_bind cs m k P (fun cs r => explained req cs r)). Qed.

Lemma unwinds_try {A B} cs (m : ST TW (res Unwound.t A)) (k : A -> ST TW (res Unwound.t B)) P Q :
  unwinds cs m P -> (forall tr a, P (cs ++ tr) a -> unwinds (cs ++ tr) (k a) Q) -> unwinds cs (try m k) Q.
Proof.
  intros Hm Hk. eapply emits_try; [exact Hm| |by intros tr u Hu].
  intros tr a Ha. eapply emits_mono; [exact (Hk tr a Ha)|]. intros tr' r Hr. cbn beta in *. by rewrite app_assoc.
Qed.

Lemma explains_try {A} cs (m : ST TW (res Unwound.t A)) (k : A -> ST TW (res Unwound.t reply)) P :
  unwinds cs m P -> (forall tr a, P (cs ++ tr) a -> explains (cs ++ tr) (k a)) -> explains cs (try m k).
Proof. apply (unwinds_try cs m k P (fun cs r => explained req cs r)). Qed.

(** An awaited call: dropped, or its record is in the calls. *)
Lemma unwinds_await {A} cs (m : ST TW A) P :
  emits m (fun tr a => P (cs ++ tr) a) ->
  (forall a tr tr', P tr a -> P (tr ++ tr') a) -> unwinds cs (await m) P.
Proof.
  intros Hm Hmono. eapply emits_mono; [by apply emits_await|].
  intros tr x (tr0 & a & Ha & [[-> ->]|[-> ->]]); [apply PeerLeft; set_solver|]. rewrite app_assoc. by apply Hmono.
Qed.

Lemma unwinds_call {A} cs (ev : A -> Call.t) (m : ST W A) :
  unwinds cs (await (traced ev m)) (fun cs a => ev a ∈ cs).
Proof. apply unwinds_await; [|set_solver]. eapply emits_mono; [apply emits_call|]. intros tr a ->. set_solver. Qed.

Lemma unwinds_ret {A} cs (a : A) (P : list Call.t -> A -> Prop) : P cs a -> unwinds cs (ret (Ok a)) P.
Proof. intros Hp. apply emits_ret. by rewrite app_nil_r. Qed.

Lemma explains_finish cs r : explained req cs r -> explains cs (finish h r).
Proof.
  intros Hr. unfold finish. eapply explains_bind; [eapply emits_call|].
  intros. apply explains_ret, explained_app, Hr.
Qed.

Lemma unwinds_clear cs job : unwinds cs (clear_missing_job_counter (W := TW) state job) (fun _ _ => True).
Proof.
  unfold clear_missing_job_counter. destruct (negb _); [by apply unwinds_ret|].
  eapply unwinds_try; [apply unwinds_call|]. intros. by apply unwinds_ret.
Qed.

Lemma explains_missing cs source :
  reported_gone cs -> explains cs (handle_missing_job state (Core.job_id registration) source).
Proof.
  intros Hgone. assert (Hg : forall tr body, explained req (cs ++ tr) (text_response SERVICE_UNAVAILABLE body)).
  { intros tr body. apply explained_app. by apply Gone. }
  unfold handle_missing_job. destruct (negb _); [apply explains_ret; by apply Gone|].
  eapply explains_try; [apply unwinds_call|]. intros tr0 r _. destruct r as [k|e]; [|apply explains_ret, Hg].
  case_bool_decide; [|apply explains_ret, Hg].
  eapply explains_try with (P := fun cs c => c = Ok tt -> Call.Deregister (Core.job_id registration) (Ok tt) ∈ cs).
  - unfold cleanup_missing_job_state. eapply unwinds_bind; [eapply emits_call|]. intros ? [] ->.
    eapply unwinds_try; [apply unwinds_call|]. intros tr1 r1 _.
    eapply unwinds_try; [apply unwinds_call|]. intros tr2 r2 Hr2.
    destruct r2 as [[]|e]; [|by apply unwinds_ret].
    eapply unwinds_try; [apply unwinds_call|]. intros tr3 r3 _. apply unwinds_ret. intros _. set_solver.
  - intros tr [[]|e] Hc; apply explains_ret.
    + eapply GoneForGood; [|by apply Hc]. eapply gone_mono; [|exact Hgone]. set_solver.
    + rewrite <- app_assoc. apply Hg.
Qed.

(** An attempt to forward. *)
Lemma unwinds_forward cs ep q : unwinds cs (await (forward_request (W := TW) ep q)) answered.
Proof.
  apply unwinds_await.
  - eapply emits_mono; [apply emits_forward_failed|]. intros tr x. apply answered_mono. set_solver.
  - intros a tr tr'. apply answered_mono. set_solver.
Qed.

Lemma unwinds_again cs ep m : unwinds cs (forward_again (W := TW) req ep m) answered.
Proof.
  unfold forward_again. apply emits_try_ret.
  - intros u Hu. unfold build_retry_request in Hu. destruct (valid_uri _) eqn:Hv; [done|]. injection Hu as <-.
    by apply BadTarget.
  - intros q _. apply unwinds_forward.
Qed.

Lemma explained_answer cs x :
  answered cs x -> match x with Ok r => explained req cs r | Err e => explained req cs (status_response (status_code e)) end.
Proof. destruct x as [r|e]; simpl; [intros (o & resp & ? & ?); by eapply FromBackend|apply BackendFailed]. Qed.

Lemma explains_last cs ep m : explains cs (retry_last req h ep m).
Proof.
  unfold retry_last. eapply explains_try; [apply unwinds_again|]. intros tr x Hx%explained_answer.
  destruct x; by apply explains_finish.
Qed.

Lemma explains_gone_reply cs source :
  reported_gone cs ->
  explains cs (bind (cancel_heartbeat h) (fun _ => handle_missing_job state (Core.job_id registration) source)).
Proof.
  intros Hg. eapply explains_bind; [eapply emits_call|]. intros ? [] ->. apply explains_missing.
  eapply gone_mono; [|exact Hg]. set_solver.
Qed.

Lemma explains_rewake cs m : explains cs (rewake state registration req h m).
Proof.
  unfold rewake. eapply explains_try; [apply unwinds_call|]. intros tr r Hr. destruct r as [ep|e].
  - eapply explains_try; [apply unwinds_clear|]. intros. apply explains_last.
  - destruct e; try (by apply explains_finish; eapply WakeFailed).
    apply explains_gone_reply. eexists _, _. by left.
Qed.

Lemma explains_refreshed cs ep m err :
  failed cs err -> explains cs (retry_refreshed state registration req h ep m err).
Proof.
  intros Hf. unfold retry_refreshed. eapply explains_try; [apply unwinds_call|]. intros tr r Hr.
  destruct r as [[ep'|ep'|]|e].
  - eapply explains_try; [apply unwinds_clear|]. intros tr' x _. apply explains_finish.
    apply BackendFailed. eapply failed_mono; [|done]. set_solver.
  - eapply explains_try; [apply unwinds_clear|]. intros. apply explains_last.
  - apply explains_rewake.
  - destruct e; try (by apply explains_finish; eapply RefreshFailed).
    apply explains_gone_reply. eexists _, _. right. by eexists.
Qed.

Lemma unwinds_transient ep m delays err cs :
  failed cs err ->
  unwinds cs (retry_transient (W := TW) req h ep m delays err) (fun cs x =>
    match x with inl r => explained req cs r | inr e => failed cs e end).
Proof.
  revert cs err. induction delays as [|d delays IH]; intros cs err Hf; simpl.
  - by apply unwinds_ret.
  - eapply unwinds_try; [apply unwinds_call|]. intros tr0 [] _.
    eapply unwinds_try; [apply unwinds_again|]. intros tr x Hx. pose proof (explained_answer _ _ Hx) as He.
    assert (Hend : forall r, explained req ((cs ++ tr0) ++ tr) r ->
      unwinds ((cs ++ tr0) ++ tr) (try (finish (W := TW) h r) (fun resp => ret (Ok (inl resp)))) (fun cs x =>
        match x with inl r => explained req cs r | inr e => failed cs e end)).
    { intros r Hr. eapply unwinds_try; [by apply explains_finish|]. intros tr' a Ha. by apply unwinds_ret. }
    destruct x as [r|e]; [by apply Hend|]. destruct (is_retryable_transport e); [|by apply Hend].
    by apply IH.
Qed.

Lemma explains_forward cs ep : explains cs (forward_with_retries state registration req h ep).
Proof.
  unfold forward_with_retries. eapply explains_try; [apply unwinds_forward|]. intros tr x Hx.
  pose proof (explained_answer _ _ Hx) as He. destruct x as [r|e]; [by apply explains_finish|].
  destruct (negb _); [by apply explains_finish|]. destruct (replayable_method _) as [m|]; [|by apply explains_finish].
  eapply explains_try; [by apply unwinds_transient|]. intros tr' [r|e'] Hr; [by apply explains_ret|by apply explains_refreshed].
Qed.
End request.

(** What an exchange for an upgrade returns. *)
Definition upgraded (req : inbound) (cs : list Call.t) (x : res Unwound.t (res ForwardRequestError.t reply)) : Prop :=
  match x with
  | Ok (Ok r) => exists q, Call.SendUpgrade q (Ok r) ∈ cs
  | Ok (Err e) => failed cs e
  | Err u => unwound req cs u
  end.

Lemma upgraded_mono req cs cs' x : cs ⊆ cs' -> upgraded req cs x -> upgraded req cs' x.
Proof.
  intros Hsub. destruct x as [[r|e]|u]; simpl; [intros (q & ?); eauto|by apply failed_mono|by apply unwound_mono].
Qed.

Lemma emits_exchanged ep req cs :
  emits (W := TW) (upgrade_exchange ep req) (fun tr x => upgraded req (cs ++ tr) x).
Proof.
  change (unwinds req cs (upgrade_exchange (W := TW) ep req) (fun cs x => upgraded req cs (Ok x))).
  assert (Hmono : forall tr tr' x, upgraded req tr (Ok x) -> upgraded req (tr ++ tr') (Ok x)).
  { intros tr tr' x. apply upgraded_mono. set_solver. }
  unfold upgrade_exchange. eapply unwinds_try.
  { apply (unwinds_await req cs _ (fun cs x => match x with Ok _ => Call.Connect (endpoint_address ep) (Ok tt) ∈ cs | Err e => failed cs e end)).
    - unfold map_err. emit. intros ? [[]|e] ->; apply emits_ret; simpl; [set_solver|]. apply (FailedConnect _ (endpoint_address ep)). set_solver.
    - intros [[]|e] tr tr'; [set_solver|apply failed_mono; set_solver]. }
  intros tr1 [[]|e] Hc; [|by apply unwinds_ret]. eapply unwinds_try.
  { apply (unwinds_await req (cs ++ tr1) _ (fun cs x => match x with Ok _ => True | Err e => failed cs e end)).
    - unfold map_err. emit. intros ? [[]|e] ->; apply emits_ret; simpl; [done|]. eapply FailedHandshake. set_solver.
    - intros [[]|e] tr tr'; [done|apply failed_mono; set_solver]. }
  intros tr2 [[]|e] Hh; [|by apply unwinds_ret]. apply emits_try_ret.
  - intros u Hu. unfold checked_upgrade in Hu. rewrite app_nil_r. destruct (valid_uri _) eqn:Hv; simpl in Hu.
    + destruct (valid_header_value _) eqn:Ha; simplify_eq/=. eapply BadAddress; [|exact Ha]. apply elem_of_app. by left.
    + simplify_eq. by apply BadTarget.
  - intros q _. apply (unwinds_await req ((cs ++ tr1) ++ tr2) _ (fun cs x => upgraded req cs (Ok x))); [|by eauto].
    unfold map_err. emit. intros ? [r|e] ->; apply emits_ret; simpl.
    + exists q. set_solver.
    + apply (FailedUpgrade _ q). set_solver.
Qed.

Lemma explains_serve cs reg ep req :
  emits (W := TW) (serve state reg ep req) (fun tr out => accounted req (cs ++ tr) out.1).
Proof.
  unfold serve. emit. intros ? g ->.
  eapply emits_bind with (P := fun tr d => match d with Ok _ => True | Err u => unwound req tr u end).
  { unfold heartbeat_deadline. destruct (is_websocket_upgrade req); [by apply emits_ret|].
    emit. intros ? t ->. apply emits_ret. destruct (deadline_after state t) as [d|message] eqn:E; simpl; [done|].
    eapply Overflow; [|exact E]. set_solver. }
  intros dl [d|u] Hd.
  2: { eapply emits_bind; [eapply emits_call|]. intros ? [] ->. apply emits_ret. simpl.
       eapply unwound_mono; [|exact Hd]. set_solver. }
  emit. intros ? h ->. destruct (is_websocket_upgrade req).
  - eapply emits_bind with (P := fun tr out => upgraded req tr out.1).
    { unfold forward_websocket_upgrade. eapply emits_bind; [apply (emits_exchanged ep req [])|]. intros tr x Hx.
      assert (Hdrop : emits (W := TW) (drop_lifecycle g h) (fun _ _ => True)).
      { unfold drop_lifecycle, cancel_on_drop. emit. intros ? [] ->. eapply emits_mono; [apply emits_call|done]. }
      assert (Hext : forall tr', upgraded req (tr ++ tr') x) by (intros tr'; eapply upgraded_mono; [|exact Hx]; set_solver).
      destruct x as [[r|e]|u]; [case_bool_decide; [apply emits_ret, Hext|]|..];
        (eapply emits_bind; [exact Hdrop|]; intros tr' [] _; apply emits_ret; rewrite app_nil_r; apply Hext). }
    intros tr [x moved] Hx. apply emits_ret. simpl in *.
    assert (Hx' : upgraded req (cs ++ [Call.Track (Core.job_id reg) g] ++ dl ++ [Call.SpawnHeartbeat (Core.job_id reg) d h] ++ tr ++ []) x).
    { eapply upgraded_mono; [|exact Hx]. set_solver. }
    destruct x as [[r|e]|u]; simpl in *; [destruct Hx' as [q Hq]; by eapply FromUpgrade|by apply BackendFailed|done].
  - eapply emits_bind; [apply (explains_forward req reg h [])|]. intros tr r Hr.
    eapply emits_bind with (P := fun _ _ => True).
    { unfold drop_guards, cancel_on_drop. emit. intros ? [] ->. eapply emits_mono; [apply emits_call|done]. }
    intros tr' [] _. apply emits_ret. simpl. eapply accounted_mono; [|exact Hr]. set_solver.
Qed.

(** C23.  Every response has its cause: the handler answers with the backend's
    response (its status replaced when it is no HTTP status) or with the
    handshake's; with 502 only after a failed request, connection or handshake
    or a failed refresh, with 500 only after a failed lookup or a response that
    could not be built; with 400 only without a host header; with 404 only for a
    name the registry does not know or a job it has just deregistered; and with
    503 only when the job could not be woken or Nomad no longer knows it.  It ends
    without a response only when the client has gone or at one of its panics. *)
Theorem responses_have_causes req :
  emits (W := TW) (proxy_handler state req) (fun tr out => accounted req tr out.1).
Proof.
  unfold proxy_handler. destruct (header "host" (in_headers req)) as [v|] eqn:Hhost;
    [|apply emits_ret; by apply NoHost].
  apply emits_unguarded_call; [intros; apply PeerLeft; set_solver|]. intros r. destruct r as [[reg|]|e].
  2: { apply emits_ret. eapply NotRegistered. left. }
  2: { apply emits_ret. eapply LookupFailed. left. }
  apply emits_unguarded_call; [intros; apply PeerLeft; set_solver|]. intros w.
  set (cs := [Call.Lookup (service_key (default "" (header_str v))) (Ok (Some reg)); Call.PeerGone false;
              Call.EnsureRunning reg w; Call.PeerGone false]).
  destruct w as [ep|e].
  - eapply emits_unguarded; [apply (unwinds_clear req cs)|by intros tr u Hu|].
    intros cl x _. eapply emits_mono; [apply (explains_serve (cs ++ cl))|]. intros tr out Hx. exact Hx.
  - destruct e; try (apply emits_ret; eapply WakeFailed; right; right; left).
    eapply emits_unguarded.
    { apply (explains_missing req reg cs). eexists _, _. left. right; right; left. }
    { by intros tr u Hu. }
    intros tr x Hx. apply emits_ret. by rewrite app_nil_r.
Qed.
End responses.

(** ** The name of a request's job *)

(** The host begins with a separator. *)
Definition no_label (host : string) : Prop :=
  match host with
  | EmptyString => True
  | String a _ => a = "."%char \/ a = ":"%char
  end.

Lemma service_key_split host :
  char_in "."%char (service_key host) = false /\ char_in ":"%char (service_key host) = false /\
  exists rest, host = service_key host +:+ rest /\ no_label rest.
Proof.
  unfold service_key. destruct (first_piece_spec "."%char host) as (Hd & Hh).
  set (p := first_piece "."%char host) in *.
  destruct (first_piece_spec ":"%char p) as (Hc & Hp). set (j := first_piece ":"%char p) in *.
  assert (Hdj : char_in "."%char j = false).
  { destruct Hp as [Hp|[r Hp]]; rewrite Hp in Hd; [done|]. rewrite char_in_app in Hd.
    by apply orb_false_iff in Hd as [? _]. }
  split; [done|]. split; [done|]. destruct Hp as [Hp|[r Hp]], Hh as [Hh|[r' Hh]].
  - exists "". split; [|done]. rewrite sapp_nil_r. congruence.
  - exists (String "."%char r'). split; [congruence|by left].
  - exists (String ":"%char r). split; [congruence|by right].
  - exists (String ":"%char r +:+ String "."%char r'). split; [|by right].
    rewrite Hh, Hp, sapp_assoc at 1. done.
Qed.

(** The job of a request is the host's first label: what stands before the
    first dot or colon, nothing else removed; the activity layer records the
    request under exactly the name the handler looks up; and it records nothing
    exactly when the host starts with a dot or a colon or is empty. *)
Theorem host_label_is_looked_up host :
  (exists rest, host = service_key host +:+ rest /\ no_label rest) /\
  char_in "."%char (service_key host) = false /\ char_in ":"%char (service_key host) = false /\
  extract_job_id_from_host host = (if bool_decide (service_key host = "") then None else Some (service_key host)) /\
  (extract_job_id_from_host host = None <-> no_label host).
Proof.
  destruct (service_key_split host) as (Hd & Hc & rest & Hh & Hr).
  split; [eauto|]. split; [done|]. split; [done|]. split; [done|].
  change (extract_job_id_from_host host) with
    (if bool_decide (service_key host = "") then None else Some (service_key host)).
  case_bool_decide as Hj.
  - split; [|done]. intros _. rewrite Hj in Hh. by rewrite Hh.
  - split; [done|]. intros Hn. exfalso. destruct (service_key host) as [|a j] eqn:E; [done|].
    rewrite Hh in Hn. simpl in Hn, Hd, Hc. apply orb_false_iff in Hd as [Hd _], Hc as [Hc _].
    destruct Hn as [->| ->]; [by rewrite ascii_eqb_refl in Hd|by rewrite ascii_eqb_refl in Hc].
Qed.
