(* ===== verification/System.v ===== *)
(** * System: the components put together

    The proxy handler, the controller, the coordinator and the in-flight tracker
    on one world: the awake jobs (the specification [Sequential] shows the
    coordinator to implement), the tracker of [InFlight], and an environment of
    which nothing is assumed, whose calls are recorded.  [main] hands the same
    coordinator and the same tracker to the handler and to the controller. *)

From S2P Require Import Prelude Str F64 Core Json Http Waker InFlight Ifaces Sequential Trace Toy Controller.
From S2P Require Import Proxy Handler.
Local Open Scope Z_scope.
Import Awake.

(** A component's state in front of a world that has the other services. *)
Section lifted.
Context {S W : Type}.

#[local] Instance lifted_orchestrator `{Orchestrator W} : Orchestrator (S * W) := {|
  scale_up j g n := lift (scale_up j g n);
  scale_down j g := lift (scale_down j g);
  get_job_count j g := lift (get_job_count j g);
  get_healthy_endpoint j := lift (get_healthy_endpoint j) |}.
#[local] Instance lifted_discovery `{ServiceDiscovery W} : ServiceDiscovery (S * W) := {|
  register_fallback s ep := lift (register_fallback s ep);
  deregister_fallback s := lift (deregister_fallback s);
  wait_for_healthy s d := lift (wait_for_healthy s d) |}.
#[local] Instance lifted_activity `{ActivityStore W} : ActivityStore (S * W) := {|
  record_activity j := lift (record_activity j);
  get_idle_jobs d := lift (get_idle_jobs d);
  has_activity j := lift (has_activity j);
  try_acquire_lock k ttl := lift (try_acquire_lock k ttl);
  release_lock k := lift (release_lock k);
  remove_activity j := lift (remove_activity j) |}.
#[local] Instance lifted_missing `{MissingJobTracker W} : MissingJobTracker (S * W) := {|
  increment_not_found j := lift (increment_not_found j);
  clear_not_found j := lift (clear_not_found j) |}.
#[local] Instance lifted_registry `{Registry W} : Registry (S * W) := {|
  registry_register reg := lift (registry_register reg);
  registry_deregister j := lift (registry_deregister j);
  registry_get k := lift (registry_get k);
  registry_list_all := lift registry_list_all |}.
#[local] Instance lifted_in_flight `{InFlight W} : InFlight (S * W) := {|
  in_flight_track j := lift (in_flight_track j);
  in_flight_drop g := lift (in_flight_drop g);
  has_in_flight j := lift (has_in_flight j);
  in_flight_count j := lift (in_flight_count j) |}.
#[local] Instance lifted_probe `{Probe W} : Probe (S * W) := {|
  has_active_traffic j := lift (has_active_traffic j);
  clear_baseline j := lift (clear_baseline j) |}.
#[local] Instance lifted_clock `{Clock W} : Clock (S * W) := {|
  now := lift now;
  sleep d := lift (sleep d) |}.
#[local] Instance lifted_cancellation `{Cancellation W} : Cancellation (S * W) := {|
  is_cancelled := lift is_cancelled |}.
#[local] Instance lifted_backend `{Backend W} : Backend (S * W) := {|
  forward_send o := lift (forward_send o);
  build_reply := build_reply (W := W);
  valid_uri := valid_uri (W := W) |}.
#[local] Instance lifted_upgrade `{Upgrade W} : Upgrade (S * W) := {|
  tcp_connect a := lift (tcp_connect a);
  http1_handshake := lift http1_handshake;
  send_upgrade r := lift (send_upgrade r);
  valid_header_value := valid_header_value (W := W) |}.
#[local] Instance lifted_heartbeats `{Heartbeats W} : Heartbeats (S * W) := {|
  spawn_heartbeat j d := lift (spawn_heartbeat j d);
  cancel_heartbeat h := lift (cancel_heartbeat h) |}.
#[local] Instance lifted_peer `{Peer W} : Peer (S * W) := {| peer_gone := lift peer_gone |}.
#[local] Instance lifted_patience `{Patience W} : Patience (S * W) := {|
  timer_fires := lift timer_fires;
  wait_cut_short s d := lift (wait_cut_short s d) |}.

End lifted.
#[local] Existing Instances lifted_orchestrator lifted_discovery lifted_activity lifted_missing
  lifted_registry lifted_in_flight lifted_probe lifted_clock lifted_cancellation lifted_backend
  lifted_upgrade lifted_heartbeats lifted_peer lifted_patience.

(** The tracker's calls on its own state. *)
#[local] Instance tracker_in_flight {W} : InFlight (InFlightTracker * W) := {|
  in_flight_track j := fun s => let '(g, t) := track j s.1 in (counter g, (t, s.2));
  in_flight_drop g := modify_st (drop_guard (mkGuard g));
  has_in_flight j := fun s => (InFlight.has_in_flight j s.1, s);
  in_flight_count j := fun s => (count j s.1, s) |}.

(** One statement after the other: the calls themselves are left to [tac]. *)
Ltac within_each tac :=
  repeat (cbn beta iota zeta;
    lazymatch goal with
    | |- forall _, _ => intros
    | |- within _ (bind _ _) => apply within_bind; try typeclasses eauto; intros
    | |- within _ (try _ _) => apply within_try; try typeclasses eauto; intros
    | |- within _ (map_err _ _) => apply within_map_err; try typeclasses eauto
    | |- within _ (ret _) => apply within_ret; try typeclasses eauto
    | |- within _ (match ?x with _ => _ end) => destruct x
    | |- within _ _ => first [assumption | tac]
    end).

Lemma lift_bind {S W A B} (m : ST W A) (k : A -> ST W B) (s : S * W) :
  lift (bind m k) s = bind (lift m) (fun a => lift (k a)) s.
Proof. unfold lift, bind. simpl. by destruct (m s.2). Qed.

Lemma within_lift_bind {S W A B} (R : S * W -> S * W -> Prop) (m : ST W A) (k : A -> ST W B) :
  within R (bind (lift m) (fun a => lift (k a))) -> within R (lift (bind m k)).
Proof. intros Hm s. rewrite lift_bind. apply Hm. Qed.

Lemma within_lift_ret {S W A} (R : S * W -> S * W -> Prop) `{!Reflexive R} (a : A) :
  within R (lift (ret a : ST W A)).
Proof. by intros [s w]. Qed.

(** Statements lifted over a component's state. *)
Ltac within_lifted :=
  first [ apply within_lift_bind | apply within_lift_ret; typeclasses eauto
        | lazymatch goal with |- within _ (lift (match ?x with _ => _ end)) => destruct x end ].

Section system.
Context {E : Type} `{Orchestrator E, ServiceDiscovery E, ActivityStore E, MissingJobTracker E, Registry E,
  Probe E, Clock E, Cancellation E, Backend E, Upgrade E, Heartbeats E, Peer E, Patience E}.

(** The environment with its calls recorded, the tracker, the awake jobs. *)
Abbreviation outside := (Traced Call.t E).
Abbreviation tracked := (InFlightTracker * outside)%type.
Abbreviation system := (awake * tracked)%type.

Context (wake_timeout : Z) (state : AppState) (self : ScaleDownController).

#[local] Instance system_coordinator : Coordinator system := awake_coordinator wake_timeout.

Definition system_request (req : inbound) : ST system (res Unwound.t reply * option (ST system unit)) :=
  proxy_handler state req.

Definition system_tick : M (deferred * system) unit := tick self.

Definition calls (s : system) : list Call.t := trace (snd (snd s)).
Definition awake_of (s : system) : awake := s.1.
Definition tracker_of (s : system) : InFlightTracker := s.2.1.

#[local] Arguments calls : simpl never.

(** ** What the functions may change *)

Lemma within_get (R : system -> system -> Prop) `{!Reflexive R} : within R get_st.
Proof. by intros s. Qed.

(** A call of the environment, recorded as [ev]. *)
Lemma within_call {A} (R : system -> system -> Prop) (ev : A -> Call.t) (m : ST E A) :
  (forall (s s' : system) a, awake_of s' = awake_of s -> tracker_of s' = tracker_of s ->
     calls s' = calls s ++ [ev a] -> R s s') ->
  within R (lift (lift (traced ev m)) : ST system A).
Proof.
  intros HR [w [t [e tr]]]. unfold lift, traced. simpl. destruct (m e) as [a e'].
  by apply (HR (w, (t, mkTraced e tr)) (w, (t, mkTraced e' (tr ++ [ev a]))) a).
Qed.

(** Relations that every call of the environment and every change of the awake
    jobs is within. *)
Class Loose (R : system -> system -> Prop) := {
  loose_preorder :: PreOrder R;
  loose_call s s' c : awake_of s' = awake_of s -> tracker_of s' = tracker_of s ->
    calls s' = calls s ++ [c] -> R s s';
  loose_awake s s' : s'.2 = s.2 -> R s s' }.

Section loose.
Context (R : system -> system -> Prop) `{!Loose R}.

Lemma loose_env {A} (ev : A -> Call.t) (m : ST E A) : within R (lift (lift (traced ev m)) : ST system A).
Proof. apply within_call. intros s s' a. apply loose_call. Qed.

Lemma loose_modify (f : awake -> awake) : within R (modify_st f : ST system unit).
Proof. intros s. by apply loose_awake. Qed.

Lemma loose_get : within R (get_st : ST system awake).
Proof. apply within_get, _. Qed.

Lemma loose_await {A} (m : ST system A) : within R m -> within R (await m).
Proof.
  intros Hm. unfold await. apply within_bind; [apply _|done|]. intros a.
  apply within_bind; [apply _|apply loose_env|]. intros gone. apply within_ret, _.
Qed.

(** Every statement of a function is within the relation. *)
Ltac within_all :=
  within_each ltac:(first [solve [eauto with loose] | apply loose_await | within_lifted | apply loose_modify | apply loose_get | apply loose_env]).

Lemma loose_ensure reg : within R (ensure_running reg : M system Endpoint).
Proof.
  change (within R (spec_ensure_running wake_timeout reg : M system Endpoint)).
  unfold spec_ensure_running, attempt, health_wait. within_all.
Qed.
Lemma loose_refresh reg ep : within R (refresh_endpoint reg ep : M system EndpointRefresh.t).
Proof.
  change (within R (spec_refresh_endpoint reg ep : M system EndpointRefresh.t)).
  unfold spec_refresh_endpoint. within_all.
Qed.
#[local] Hint Resolve loose_ensure loose_refresh : loose.

Lemma loose_missing_job j source : within R (Handler.handle_missing_job (W := system) state j source).
Proof. unfold Handler.handle_missing_job, Handler.cleanup_missing_job_state. within_all. Qed.
Lemma loose_clear j : within R (Handler.clear_missing_job_counter (W := system) state j).
Proof. unfold Handler.clear_missing_job_counter. within_all. Qed.
#[local] Hint Resolve loose_missing_job loose_clear : loose.

Lemma loose_forward ep req : within R (forward_request (W := system) ep req).
Proof. unfold forward_request. within_all. Qed.
#[local] Hint Resolve loose_forward : loose.

Lemma loose_transient req h ep m delays err : within R (retry_transient (W := system) req h ep m delays err).
Proof.
  revert err. induction delays as [|d delays IH]; intros err; simpl; unfold finish, forward_again; within_all.
Qed.
#[local] Hint Resolve loose_transient : loose.

Lemma loose_retries reg req h ep : within R (forward_with_retries (W := system) state reg req h ep).
Proof. unfold forward_with_retries, retry_refreshed, rewake, retry_last, forward_again, finish. within_all. Qed.

Lemma loose_exchange ep req : within R (upgrade_exchange (W := system) ep req).
Proof. unfold upgrade_exchange. within_all. Qed.

Lemma loose_deadline ws : within R (heartbeat_deadline (W := system) state ws).
Proof. unfold heartbeat_deadline. within_all. Qed.

End loose.

(** ** The tracker *)

Definition same_tracker (s s' : system) : Prop := tracker_of s' = tracker_of s.

#[local] Instance same_tracker_loose : Loose same_tracker.
Proof.
  split; [split; [by intros s|by intros s1 s2 s3 E1 E2; unfold same_tracker; rewrite E2]| |].
  - by intros s s' c _ Ht _.
  - intros s s' E2. unfold same_tracker, tracker_of. by rewrite E2.
Qed.

(** A run of a statement that leaves the tracker alone. *)
Lemma bind_same_tracker {A B} (m : ST system A) (k : A -> ST system B) (Q : B * system -> Prop) s :
  within same_tracker m ->
  (forall a s', tracker_of s' = tracker_of s -> Q (k a s')) -> Q (bind m k s).
Proof.
  intros Hm Hk. unfold bind. specialize (Hm s). destruct (m s) as [a s']. by apply Hk.
Qed.

Lemma track_inv job live (s : system) :
  tracker_inv (tracker_of s, live) ->
  exists g s', (in_flight_track job : ST system nat) s = (g, s') /\
    tracker_inv (tracker_of s', live ++ [(job, mkGuard g)]).
Proof.
  destruct s as [m [t o]]. intros Ht. simpl. unfold lift. simpl.
  pose proof (tracker_inv_step (Track job) (t, live)) as Hs. simpl in Hs.
  destruct (track job t) as [[g] t'] eqn:Htr. eexists _, _. split; [done|]. by apply Hs.
Qed.

Lemma drop_inv job g live (s : system) i :
  tracker_inv (tracker_of s, live) -> live !! i = Some (job, mkGuard g) ->
  tracker_inv (tracker_of ((in_flight_drop g : ST system unit) s).2, delete i live).
Proof.
  destruct s as [m [t o]]. intros Ht Hi. simpl. 
  apply (tracker_inv_step (DropGuard i) (t, live)); [done|]. simpl. by rewrite Hi.
Qed.

Lemma last_guard {A} (live : list A) x :
  (live ++ [x]) !! length live = Some x /\ delete (length live) (live ++ [x]) = live.
Proof.
  rewrite lookup_app_r, Nat.sub_diag by done. split; [done|].
  rewrite delete_take_drop, take_app_length, drop_app_ge by lia.
  replace (S (length live) - length live)%nat with 1%nat by lia. by rewrite app_nil_r.
Qed.

(** Both orders in which the guards are dropped. *)
Lemma dropped_inv (close : ST system unit) job g h live (s : system) i :
  close = drop_guards g h \/ close = drop_lifecycle g h ->
  tracker_inv (tracker_of s, live) -> live !! i = Some (job, mkGuard g) ->
  tracker_inv (tracker_of (close s).2, delete i live).
Proof.
  assert (Hcancel : within same_tracker (cancel_heartbeat h : ST system unit)) by apply loose_env, _.
  intros [-> | ->] Ht Hi; unfold drop_guards, drop_lifecycle, cancel_on_drop.
  - apply bind_same_tracker; [done|]. intros [] s' Hs. apply (drop_inv job); [by rewrite Hs|done].
  - unfold bind. pose proof (drop_inv job g live s i Ht Hi) as Hd.
    destruct ((in_flight_drop g : ST system unit) s) as [u s']. simpl in Hd. by rewrite Hcancel.
Qed.

(** What the tunnel's guard is worth once the handler has returned. *)
Definition balanced_after (live : list (string * InFlightGuard)) (tunnel : option (ST system unit)) (s : system) : Prop :=
  match tunnel with
  | None => tracker_inv (tracker_of s, live)
  | Some close =>
      exists job g, tracker_inv (tracker_of s, live ++ [(job, g)]) /\
        forall s2 live2 i, tracker_inv (tracker_of s2, live2) -> live2 !! i = Some (job, g) ->
          tracker_inv (tracker_of (close s2).2, delete i live2)
  end.

Lemma websocket_balanced reg ep req g h live s :
  tracker_inv (tracker_of s, live ++ [(Core.job_id reg, mkGuard g)]) ->
  balanced_after live
    (let out := (forward_websocket_upgrade ep req (drop_lifecycle g h) : ST system _) s in
     if out.1.2 : bool then Some (drop_lifecycle g h) else None)
    ((forward_websocket_upgrade ep req (drop_lifecycle g h) : ST system _) s).2.
Proof.
  intros Ht. destruct (last_guard live (Core.job_id reg, mkGuard g)) as [Hl Hdel].
  assert (Hdrop : forall s', tracker_of s' = tracker_of s ->
    tracker_inv (tracker_of ((drop_lifecycle g h : ST system unit) s').2, live)).
  { intros s' Hs. rewrite <- Hdel. eapply dropped_inv; [by right|by rewrite Hs|exact Hl]. }
  unfold forward_websocket_upgrade.
  apply (bind_same_tracker _ _ (fun out => balanced_after live
    (if out.1.2 : bool then Some (drop_lifecycle g h) else None) out.2)); [apply loose_exchange, _|].
  intros r s' Hs. assert (Hend : balanced_after live
    (if (((do* drop_lifecycle g h in ret (r, false))%st : ST system _) s').1.2 : bool then Some (drop_lifecycle g h) else None)
    (((do* drop_lifecycle g h in ret (r, false))%st : ST system _) s').2).
  { unfold bind, ret. specialize (Hdrop s' Hs). by destruct ((drop_lifecycle g h : ST system unit) s'). }
  destruct r as [[resp|e]|u]; [case_bool_decide|..]; try exact Hend.
  simpl. eexists _, _. split; [by rewrite Hs|]. intros s2 live2 i. apply dropped_inv with (h := h). by right.
Qed.

Lemma serve_balanced reg ep req live s :
  tracker_inv (tracker_of s, live) ->
  balanced_after live ((serve state reg ep req : ST system _) s).1.2 ((serve state reg ep req : ST system _) s).2.
Proof.
  intros Ht. destruct (track_inv (Core.job_id reg) live s Ht) as (g & s1 & Hg & Ht1).
  unfold serve. rewrite (bind_run _ _ _ _ _ Hg).
  apply (bind_same_tracker _ _ (fun out => balanced_after live out.1.2 out.2)); [apply loose_deadline, _|].
  intros d s2 Hs2. destruct (last_guard live (Core.job_id reg, mkGuard g)) as [Hl Hdel]. destruct d as [d|u].
  2: { unfold bind, ret. pose proof (drop_inv (Core.job_id reg) g _ s2 _ ltac:(rewrite Hs2; exact Ht1) Hl) as Hd.
       rewrite Hdel in Hd. by destruct ((in_flight_drop g : ST system unit) s2). }
  apply (bind_same_tracker _ _ (fun out => balanced_after live out.1.2 out.2)); [apply loose_env, _|].
  intros h s3 Hs3. assert (Ht3 : tracker_inv (tracker_of s3, live ++ [(Core.job_id reg, mkGuard g)])).
  { by rewrite Hs3, Hs2. }
  destruct (is_websocket_upgrade req).
  - pose proof (websocket_balanced reg ep req g h live s3 Ht3) as Hw. unfold bind, ret.
    destruct ((forward_websocket_upgrade ep req (drop_lifecycle g h) : ST system _) s3) as [[r moved] s4].
    simpl in *. exact Hw.
  - apply (bind_same_tracker _ _ (fun out => balanced_after live out.1.2 out.2)); [apply loose_retries, _|].
    intros r s4 Hs4. unfold bind, ret.
    assert (Hd : tracker_inv (tracker_of ((drop_guards g h : ST system unit) s4).2, live)).
    { rewrite <- Hdel. eapply dropped_inv; [by left|by rewrite Hs4|exact Hl]. }
    by destruct ((drop_guards g h : ST system unit) s4).
Qed.

(** Before there is a guard. *)
Lemma unguarded_balanced {A} (m : ST system (res Unwound.t A)) k live s :
  within same_tracker m -> tracker_inv (tracker_of s, live) ->
  (forall a s', tracker_inv (tracker_of s', live) -> balanced_after live (k a s').1.2 (k a s').2) ->
  balanced_after live (unguarded m k s).1.2 (unguarded m k s).2.
Proof.
  intros Hm Ht Hk. unfold unguarded.
  apply (bind_same_tracker _ _ (fun out => balanced_after live out.1.2 out.2)); [done|].
  intros r s' Hs. rewrite <- Hs in Ht. destruct r; [by apply Hk|exact Ht].
Qed.

(** ** The calls *)

(** The run appends calls that satisfy [P]. *)
Definition extends (P : Call.t -> Prop) (s s' : system) : Prop :=
  exists tr, calls s' = calls s ++ tr /\ Forall P tr.

#[local] Instance extends_preorder P : PreOrder (extends P).
Proof.
  split.
  - intros s. exists []. by rewrite app_nil_r.
  - intros s1 s2 s3 (tr & E1 & Ht) (tr' & E2 & Ht'). exists (tr ++ tr').
    rewrite E2, E1, <- app_assoc. split; [done|]. by apply Forall_app.
Qed.

Lemma extends_call P {A} (ev : A -> Call.t) (m : ST E A) :
  (forall a, P (ev a)) -> within (extends P) (lift (lift (traced ev m)) : ST system A).
Proof. intros HP. apply within_call. intros s s' a _ _ Hc. exists [ev a]. split; [done|]. by constructor. Qed.

Lemma extends_modify P (f : awake -> awake) : within (extends P) (modify_st f : ST system unit).
Proof. intros s. exists []. by rewrite app_nil_r. Qed.

Lemma extends_await P {A} (m : ST system A) :
  (forall b, P (Call.PeerGone b)) -> within (extends P) m -> within (extends P) (await m).
Proof.
  intros HP Hm. unfold await. apply within_bind; [apply _|done|]. intros a.
  apply within_bind; [apply _|by apply extends_call|]. intros gone. apply within_ret, _.
Qed.

#[local] Instance extends_loose : Loose (extends (fun _ => True)).
Proof.
  split; [apply _| |].
  - intros s s' c _ _ Hc. exists [c]. split; [done|]. by constructor.
  - intros s s' Hs. exists []. unfold calls. by rewrite Hs, app_nil_r.
Qed.

Ltac all_away := repeat first [apply Forall_nil_2 | apply Forall_cons_2; [by intros []|]].

(** For calls that stay away from the backends. *)
Ltac stays_away :=
  within_each ltac:(first [within_lifted | apply extends_await; [intros ? []|] | apply extends_modify | apply within_get; typeclasses eauto
                          | apply extends_call; intros ? []]).

Lemma away_missing_job j source :
  within (extends away) (Handler.handle_missing_job (W := system) state j source).
Proof. unfold Handler.handle_missing_job, Handler.cleanup_missing_job_state. stays_away. Qed.

Lemma away_clear j : within (extends away) (Handler.clear_missing_job_counter (W := system) state j).
Proof. unfold Handler.clear_missing_job_counter. stays_away. Qed.

(** What woke the job before a backend was contacted. *)
Definition woken_by (m : awake) (reg : JobRegistration) (tr : list Call.t) : Prop :=
  is_Some (m !! Core.job_id reg) \/
  Call.ScaleUp (Core.job_id reg) (nomad_group reg) 1 (Ok tt) ∈ tr /\
  exists ep, Call.WaitHealthy (service_name reg) wake_timeout (Ok ep) ∈ tr.

(** A call that asks a clock of the wake. *)
Definition asks_timer (c : Call.t) : Prop :=
  match c with Call.TimerFires _ | Call.WaitCutShort _ _ _ => True | _ => False end.

(** The calls of a wake that succeeds, the timers apart: the job is scaled up
    and then seen healthy. *)
Definition wakes (reg : JobRegistration) (ep : Endpoint) (tr : list Call.t) : Prop :=
  exists pre mid,
    tr = pre ++ Call.ScaleUp (Core.job_id reg) (nomad_group reg) 1 (Ok tt) :: mid
         ++ [Call.WaitHealthy (service_name reg) wake_timeout (Ok ep)] /\
    Forall asks_timer pre /\ Forall asks_timer mid.

Lemma attempt_calls reg (o : tracked) :
  exists tr, trace (snd (attempt wake_timeout reg o).2) = trace (snd o) ++ tr /\ Forall away tr /\
    forall ep, (attempt wake_timeout reg o).1.1 = Ok ep -> wakes reg ep tr.
Proof.
  destruct o as [t [e tr0]]. unfold attempt, health_wait, bind, ret. simpl. unfold lift, traced. simpl.
  destruct (timer_fires e) as [late e1]. simpl. destruct (scale_up _ _ _ e1) as [[[]|err] e2]; simpl.
  2: { eexists [_; _]. rewrite <- app_assoc. split_and!; [done|all_away|done]. }
  set (up := Call.ScaleUp _ _ _ _). set (t1 := Call.TimerFires late).
  assert (Hend : forall l1 (r : Result Endpoint), Forall asks_timer l1 ->
    exists tr, (((tr0 ++ [t1]) ++ [up]) ++ l1) ++ [Call.WaitHealthy (service_name reg) wake_timeout r] = tr0 ++ tr
      /\ Forall away tr /\ forall ep, r = Ok ep -> wakes reg ep tr).
  { intros l1 r Hl1. exists ([t1] ++ up :: l1 ++ [Call.WaitHealthy (service_name reg) wake_timeout r]).
    rewrite <- !app_assoc. split_and!; [done| |].
    - repeat (constructor; [by intros []|]). apply Forall_app. split; [|all_away].
      eapply Forall_impl; [exact Hl1|]. intros c Hc Hc'. by destruct c.
    - intros ep ->. exists [t1], l1. split_and!; [done|by repeat constructor|done]. }
  destruct late; simpl.
  - destruct (wait_cut_short _ _ e2) as [[|] e3]; simpl.
    + eexists [_; _; _]. rewrite <- !app_assoc. split_and!; [done|all_away|done].
    + destruct (wait_for_healthy _ _ e3) as [r e4]. simpl. apply (Hend [_]). by constructor.
  - destruct (timer_fires e2) as [[|] e3]; simpl.
    + destruct (wait_cut_short _ _ e3) as [[|] e4]; simpl.
      * eexists [_; _; _; _]. rewrite <- !app_assoc. split_and!; [done|all_away|done].
      * destruct (wait_for_healthy _ _ e4) as [r e5]. simpl. rewrite <- (app_assoc ((tr0 ++ [t1]) ++ [up]) [_] [_]). apply (Hend [_; _]).
        by repeat constructor.
    + destruct (wait_for_healthy _ _ e3) as [r e4]. simpl. apply (Hend [_]). by constructor.
Qed.

Lemma ensure_running_calls reg (s : system) :
  exists tr, calls ((spec_ensure_running wake_timeout reg : M system Endpoint) s).2 = calls s ++ tr /\ Forall away tr /\
    (is_ok ((spec_ensure_running wake_timeout reg : M system Endpoint) s).1 = true -> woken_by (awake_of s) reg tr).
Proof.
  destruct s as [m o]. unfold spec_ensure_running, bind, get_st, lift, woken_by, awake_of, calls. simpl.
  destruct (m !! Core.job_id reg) as [ep|] eqn:Hm.
  { exists []. rewrite app_nil_r. split_and!; [done|all_away|]. intros _. left. eauto. }
  destruct (attempt_calls reg o) as (tr & Hc & Ha & Hw).
  cbn [fst snd]. destruct (attempt wake_timeout reg o) as [[r late] o1]. simpl in *. exists tr. split_and!.
  - destruct r; exact Hc.
  - done.
  - intros Hok. right. destruct r as [ep|err].
    + destruct (Hw ep eq_refl) as (pre & mid & -> & _ & _).
      split; [|exists ep]; apply elem_of_app; right; [left|right; apply elem_of_app; right; left].
    + unfold ret, told in Hok. destruct late; simpl in Hok; [done|]. by destruct err.
Qed.

Lemma extends_track P j : within (extends P) (in_flight_track j : ST system nat).
Proof.
  intros [m [t o]]. exists []. rewrite app_nil_r. split; [|done]. simpl. unfold lift. simpl.
  by destruct (track j t).
Qed.

Lemma extends_drop P g : within (extends P) (in_flight_drop g : ST system unit).
Proof. intros [m [t o]]. exists []. by rewrite app_nil_r. Qed.

Lemma extends_serve reg ep req : within (extends (fun _ => True)) (serve (W := system) state reg ep req).
Proof.
  assert (Hc : forall h, within (extends (fun _ => True)) (cancel_heartbeat h : ST system unit)) by (intros; apply loose_env, _).
  assert (Hdrop : forall g h, within (extends (fun _ => True)) (drop_lifecycle (W := system) g h)).
  { intros g h. unfold drop_lifecycle, cancel_on_drop. apply within_bind; [apply _|apply extends_drop|auto]. }
  unfold serve. apply within_bind; [apply _|apply extends_track|]. intros g.
  apply within_bind; [apply _|apply loose_deadline, _|]. intros [d|u].
  2: { apply within_bind; [apply _|apply extends_drop|intros; apply within_ret, _]. }
  apply within_bind; [apply _|apply loose_env, _|]. intros h.
  destruct (is_websocket_upgrade req).
  - apply within_bind; [apply _| |intros [r []]; apply within_ret, _]. unfold forward_websocket_upgrade.
    apply within_bind; [apply _|apply loose_exchange, _|]. intros r. within_each ltac:(apply Hdrop).
  - apply within_bind; [apply _|apply loose_retries, _|]. intros r.
    apply within_bind; [apply _| |intros; apply within_ret, _].
    unfold drop_guards, cancel_on_drop. apply within_bind; [apply _|auto|intros; apply extends_drop].
Qed.

(** A run of a call of the environment, and of an awaited statement. *)
Lemma call_run {A} (ev : A -> Call.t) (m : ST E A) (s : system) :
  exists a s1, (lift (lift (traced ev m)) : ST system A) s = (a, s1) /\ calls s1 = calls s ++ [ev a] /\
    awake_of s1 = awake_of s.
Proof.
  destruct s as [w [t [e tr]]]. unfold lift, traced, calls. simpl. destruct (m e) as [a e']. by eexists _, _.
Qed.

Lemma await_run {A} (m : ST system A) a s s1 :
  m s = (a, s1) ->
  exists gone s2, await m s = (if gone : bool then Err Unwound.Dropped else Ok a, s2) /\
    calls s2 = calls s1 ++ [Call.PeerGone gone] /\ awake_of s2 = awake_of s1.
Proof.
  intros Hm. unfold await. rewrite (bind_run _ _ _ _ _ Hm).
  destruct (call_run Call.PeerGone peer_gone s1) as (gone & s2 & Hg & Hc & Ha).
  exists gone, s2. assert (Hg' : (peer_gone : ST system bool) s1 = (gone, s2)) by exact Hg.
  by rewrite (bind_run _ _ _ _ _ Hg').
Qed.

(** Away from the backends until a registered job is awake. *)
Definition woken_first (m : awake) (tr : list Call.t) : Prop :=
  exists pre post, tr = pre ++ post /\ Forall away pre /\
    (post = [] \/ exists k reg, Call.Lookup k (Ok (Some reg)) ∈ pre /\ woken_by m reg pre).

Lemma woken_first_away m tr : Forall away tr -> woken_first m tr.
Proof. intros Ha. exists tr, []. rewrite app_nil_r. split_and!; [done|done|by left]. Qed.

(** A statement after the calls [pre], which kept away. *)
Lemma woken_first_within {A} m (s1 : system) (n : ST system A) tr0 pre :
  within (extends away) n -> Forall away pre -> calls s1 = tr0 ++ pre ->
  exists tr, calls (n s1).2 = tr0 ++ tr /\ woken_first m tr.
Proof.
  intros Hn Hp Hc. destruct (Hn s1) as (tr & Ht & Ha). exists (pre ++ tr). rewrite Ht, Hc, <- app_assoc.
  split; [done|]. by apply woken_first_away, Forall_app.
Qed.

(** The calls of a request: away from the backends until the job is awake. *)
Lemma request_calls req (s : system) :
  exists tr, calls (system_request req s).2 = calls s ++ tr /\ woken_first (awake_of s) tr.
Proof.
  unfold system_request, proxy_handler. destruct (header "host" (in_headers req)) as [v|].
  2: { exists []. rewrite app_nil_r. split; [done|by apply woken_first_away]. }
  set (k := service_key _). unfold unguarded at 1.
  destruct (call_run (Call.Lookup k) (registry_get k) s) as (r & s1 & Hr & Hc1 & Hm1).
  assert (Hr' : (registry_get k : M system _) s = (r, s1)) by exact Hr.
  destruct (await_run _ r s s1 Hr') as (gone & s2 & Hr2 & Hc2 & Hm2).
  rewrite (bind_run _ _ _ _ _ Hr2). rewrite Hc1, <- app_assoc in Hc2.
  set (pre := [Call.Lookup k r] ++ [Call.PeerGone gone]) in *.
  assert (Hpre : Forall away pre) by (repeat constructor; by intros []).
  assert (Hret : forall x : res Unwound.t reply * option (ST system unit), within (extends away) (ret x)) by (intros; apply within_ret, _).
  destruct gone; [by eapply woken_first_within|]. destruct r as [[reg|]|err]; [|by eapply woken_first_within..].
  unfold unguarded at 1. destruct (ensure_running_calls reg s2) as (tr3 & Hc3 & Ha3 & Hw3).
  destruct (spec_ensure_running wake_timeout reg s2) as [w s3] eqn:Hs3. simpl in Hc3, Hw3.
  assert (Hs3' : (ensure_running reg : M system _) s2 = (w, s3)) by exact Hs3.
  destruct (await_run _ w s2 s3 Hs3') as (gone & s4 & Hr4 & Hc4 & _).
  rewrite (bind_run _ _ _ _ _ Hr4). rewrite Hc3, Hc2, <- !app_assoc in Hc4.
  set (pre2 := pre ++ tr3 ++ [Call.PeerGone gone]) in *.
  assert (Hpre2 : Forall away pre2).
  { apply Forall_app. split; [done|]. apply Forall_app. split; [done|]. repeat constructor; by intros []. }
  destruct gone; [by eapply woken_first_within|]. destruct w as [ep|err].
  - match goal with |- exists tr, calls (?n s4).2 = _ /\ _ => assert (Hn : within (extends (fun _ => True)) n) end.
    { unfold unguarded. apply within_bind; [apply _|apply loose_clear, _|].
      intros [a|u]; [apply extends_serve|apply within_ret, _]. }
    destruct (Hn s4) as (tr5 & Hc5 & _). exists (pre2 ++ tr5). rewrite Hc5, Hc4, <- app_assoc. split; [done|].
    exists pre2, tr5. split_and!; [done|done|]. right. exists k, reg. split; [by left|].
    assert (Hsub : forall c, c ∈ tr3 -> c ∈ pre2) by set_solver.
    rewrite Hm2, Hm1 in Hw3. destruct (Hw3 eq_refl) as [Hm|[Hup [ep' Hh]]]; [by left|right]. split; [auto|]. exists ep'. auto.
  - destruct err; try (by eapply woken_first_within).
    eapply woken_first_within; [|done|done]. unfold unguarded.
    apply within_bind; [apply _|apply away_missing_job|]. intros [a|u]; apply within_ret, _.
Qed.

(** ** Putting jobs to sleep *)

(** Every registration the run found is filed under its own job id. *)
Definition own_names (tr : list Call.t) : Prop :=
  forall k reg, Call.Lookup k (Ok (Some reg)) ∈ tr -> Core.job_id reg = k.

(** No job wakes up, and a job that Nomad has scaled down sleeps, when the jobs
    are looked up under their own names. *)
Definition sleeps (s s' : deferred * system) : Prop :=
  exists tr, calls s'.2 = calls s.2 ++ tr /\
    (forall j, awake_of s.2 !! j = None -> awake_of s'.2 !! j = None) /\
    (own_names tr -> forall j g, Call.ScaleDown j g (Ok tt) ∈ tr -> awake_of s'.2 !! j = None).

#[local] Instance sleeps_preorder : PreOrder sleeps.
Proof.
  split.
  - intros s. exists []. rewrite app_nil_r. split_and!; [done|done|]. by intros _ j g Hin%elem_of_nil.
  - intros s1 s2 s3 (tr & E1 & M1 & D1) (tr' & E2 & M2 & D2). exists (tr ++ tr').
    rewrite E2, E1, <- app_assoc. split_and!; [done|auto|]. intros Hown j g [Hin|Hin]%elem_of_app.
    + apply M2. eapply D1; [|done]. intros k reg Hk. apply Hown, elem_of_app. by left.
    + eapply D2; [|done]. intros k reg Hk. apply Hown, elem_of_app. by right.
Qed.

Definition no_scale_down (c : Call.t) : Prop := match c with Call.ScaleDown _ _ (Ok _) => False | _ => True end.

Lemma sleeps_step (s s' : deferred * system) tr :
  calls s'.2 = calls s.2 ++ tr -> Forall no_scale_down tr ->
  (forall j, awake_of s.2 !! j = None -> awake_of s'.2 !! j = None) -> sleeps s s'.
Proof.
  intros Hc Hn Hm. exists tr. split_and!; [done|done|]. intros _ j g Hin.
  rewrite Forall_forall in Hn. by apply Hn in Hin.
Qed.

Lemma sleeps_call {A} (ev : A -> Call.t) (m : ST E A) :
  (forall a, no_scale_down (ev a)) ->
  within sleeps (lift (lift (lift (traced ev m)) : ST system A) : ST (deferred * system) A).
Proof.
  intros Hev. apply (within_lift _ (fun s s' => exists a, awake_of s' = awake_of s /\ calls s' = calls s ++ [ev a])).
  - intros d s s' (a & Hm & Hc). apply (sleeps_step _ _ [ev a]); simpl; [done|by constructor|by rewrite Hm].
  - apply within_call. eauto.
Qed.

Lemma sleeps_deferred (f : deferred -> deferred) : within sleeps (modify_st f : ST (deferred * system) unit).
Proof. intros s. apply (sleeps_step _ _ []); [by rewrite app_nil_r|constructor|done]. Qed.

Lemma sleeps_get : within sleeps (get_st : ST (deferred * system) deferred).
Proof. intros s. simpl. reflexivity. Qed.

Lemma sleeps_mark j : within sleeps (lift (mark_dormant j : ST system unit) : ST (deferred * system) unit).
Proof.
  intros [d s]. apply (sleeps_step _ _ []); [by rewrite app_nil_r|constructor|].
  intros k Hk. apply lookup_delete_None. by right.
Qed.

Lemma sleeps_in_flight j :
  within sleeps (lift (has_in_flight j : ST system bool) : ST (deferred * system) bool) /\
  within sleeps (lift (in_flight_count j : ST system Z) : ST (deferred * system) Z).
Proof. split; intros [d [m [t o]]]; simpl; reflexivity. Qed.

Ltac sleeping :=
  within_each ltac:(first
    [ apply sleeps_call; intros ?; exact I | apply sleeps_mark | apply sleeps_deferred | apply sleeps_get
    | apply sleeps_in_flight | within_lifted ]).

Abbreviation CW := (deferred * system)%type.

Lemma sleeps_missing_job j : within sleeps (Controller.handle_missing_job (W := system) self j).
Proof. unfold Controller.handle_missing_job, Controller.cleanup_missing_job_state, logged, when. sleeping. Qed.

Lemma sleeps_guards j :
  within sleeps (deferred_guard (W := system) j) /\
  within sleeps (lift (in_flight_guard j : ST system bool) : ST CW bool) /\
  within sleeps (lift (traffic_guard self j : ST system bool) : ST CW bool).
Proof. unfold deferred_guard, in_flight_guard, traffic_guard, logged. split_and!; sleeping. Qed.

(** A job that Nomad has just scaled down is marked dormant before anything else
    happens to it. *)
Lemma sleeps_after_scale_down j reg g (s s1 : CW) :
  calls s1.2 = calls s.2 ++ [Call.Lookup j (Ok (Some reg)); Call.ScaleDown (Core.job_id reg) g (Ok tt)] ->
  awake_of s1.2 = awake_of s.2 ->
  sleeps s ((do* lift (Controller.clear_missing_job_counter (W := system) self j) in
             handle_scale_down_result (W := system) self j (Ok tt))%st s1).2.
Proof.
  intros Hc Hm. set (rest := (lift (mark_dormant j : ST system unit) : ST CW unit)).
  assert (Hclear : within sleeps (lift (Controller.clear_missing_job_counter (W := system) self j) : ST CW unit)).
  { unfold Controller.clear_missing_job_counter, when, logged. sleeping. }
  unfold bind at 1. specialize (Hclear s1).
  destruct (lift (Controller.clear_missing_job_counter (W := system) self j) s1) as [[] s2]. simpl in Hclear.
  unfold handle_scale_down_result. fold rest. unfold bind at 1. destruct (rest s2) as [u s3] eqn:Hrest.
  assert (Hm3 : awake_of s3.2 = delete j (awake_of s2.2) /\ calls s3.2 = calls s2.2).
  { destruct s2 as [d s2]. unfold rest, lift in Hrest. simpl in Hrest. by injection Hrest as _ <-. }
  match goal with |- sleeps s (?m s3).2 => assert (Hq : within sleeps m) end.
  { unfold logged, when. sleeping. }
  specialize (Hq s3). match goal with |- sleeps s ?x => set (s4 := x) in * end.
  destruct Hclear as (tr1 & E1 & M1 & D1), Hm3 as [M3 E3], Hq as (tr2 & E4 & M4 & D4).
  assert (Hkeep : forall k, awake_of s2.2 !! k = None -> awake_of s4.2 !! k = None).
  { intros k Hk. apply M4. rewrite M3. apply lookup_delete_None. by right. }
  exists ([Call.Lookup j (Ok (Some reg)); Call.ScaleDown (Core.job_id reg) g (Ok tt)] ++ tr1 ++ tr2).
  rewrite E4, E3, E1, Hc, <- !app_assoc. split; [done|]. split.
  - intros k Hk. apply Hkeep, M1. by rewrite Hm.
  - intros Hown k g' Hin. assert (Hreg : Core.job_id reg = j) by (apply Hown; by left).
    apply elem_of_app in Hin as [Hin|Hin].
    + assert (k = j) as ->.
      { apply elem_of_cons in Hin as [?|Hin]; [done|]. apply list_elem_of_singleton in Hin. congruence. }
      apply M4. rewrite M3. apply lookup_delete_None. by left.
    + apply elem_of_app in Hin as [Hin|Hin].
      * apply Hkeep. eapply D1; [|done]. intros k' r' Hk'. apply Hown. apply elem_of_app; right. apply elem_of_app. by left.
      * eapply D4; [|done]. intros k' r' Hk'. apply Hown. apply elem_of_app; right. apply elem_of_app. by right.
Qed.

Lemma sleeps_registered j : within sleeps (scale_down_registered (W := system) self j).
Proof.
  intros [d [m [t [e tr0]]]]. unfold scale_down_registered.
  unfold bind at 1. simpl. unfold lift at 1. simpl. unfold lift at 1. simpl. unfold lift at 1. simpl.
  unfold traced at 1. simpl. destruct (registry_get j e) as [r e1]. simpl.
  set (s0 := (d, (m, (t, mkTraced e tr0))) : CW).
  set (s1 := (d, (m, (t, mkTraced e1 (tr0 ++ [Call.Lookup j r])))) : CW).
  assert (H01 : sleeps s0 s1) by (by apply (sleeps_step _ _ [Call.Lookup j r]); [|repeat constructor|]).
  destruct r as [[reg|]|err].
  2: { transitivity s1; [done|]. unfold logged.
       assert (Hq : within sleeps (lift (bind (remove_activity j : M system unit) (fun _ => ret tt)) : ST CW unit)) by sleeping.
       apply Hq. }
  2: exact H01.
  unfold bind at 1. simpl. unfold lift at 1. simpl. unfold lift at 1. simpl. unfold lift at 1. simpl.
  unfold traced at 1. simpl. destruct (scale_down (Core.job_id reg) (nomad_group reg) e1) as [r2 e2]. simpl.
  set (s2 := (d, (m, (t, mkTraced e2 ((tr0 ++ [Call.Lookup j (Ok (Some reg))]) ++
    [Call.ScaleDown (Core.job_id reg) (nomad_group reg) r2])))) : CW).
  destruct r2 as [[]|err].
  - apply (sleeps_after_scale_down j reg (nomad_group reg) s0 s2); [|done].
    unfold calls. simpl. by rewrite <- app_assoc.
  - transitivity s2.
    { transitivity s1; [done|].
      by apply (sleeps_step _ _ [Call.ScaleDown (Core.job_id reg) (nomad_group reg) (Err err)]); [|repeat constructor|]. }
    assert (Hclear : within sleeps (lift (Controller.clear_missing_job_counter (W := system) self j) : ST CW unit)).
    { unfold Controller.clear_missing_job_counter, when, logged. sleeping. }
    destruct err; try (unfold handle_scale_down_result, ret; reflexivity).
    + match goal with |- sleeps _ (?m s2).2 => assert (Hq : within sleeps m) end; [|apply Hq].
      apply within_bind; try typeclasses eauto; [done|]. intros [].
      unfold handle_scale_down_result, logged. sleeping.
    + apply sleeps_missing_job.
Qed.

Lemma sleeps_job j : within sleeps (scale_down_job (W := system) self j).
Proof.
  destruct (sleeps_guards j) as (Hd & Hf & Ht). unfold scale_down_job, scale_down_due.
  within_each ltac:(apply sleeps_registered).
Qed.

Lemma sleeps_tick : within sleeps (system_tick).
Proof.
  assert (Hjobs : forall l, within sleeps (scale_down_jobs (W := system) self l)).
  { induction l as [|j l IH]; simpl; [apply within_ret, _|].
    apply within_bind; try typeclasses eauto; [apply sleeps_call; intros ?; exact I|]. intros [].
    - apply within_ret, _.
    - apply within_bind; try typeclasses eauto; [apply sleeps_job|]. intros. exact IH. }
  unfold system_tick, tick, drop_lock_guard, logged. within_each ltac:(first [apply Hjobs
    | apply sleeps_call; intros ?; exact I | apply within_lift_bind | apply within_lift_ret; typeclasses eauto]).
Qed.

(** A call that is not in the prefix comes after it. *)
Lemma contact_after pre post a c b :
  pre ++ post = a ++ c :: b -> Forall away pre -> contacts c -> exists a', a = pre ++ a'.
Proof.
  intros Heq Ha Hc. apply app_eq_inv in Heq as [(k & -> & Hk)|(k & -> & Hk)]; [|eauto].
  destruct k as [|x k]; [exists []; by rewrite !app_nil_r|].
  injection Hk as <- _. apply Forall_app in Ha as [_ Ha]. by apply Forall_cons in Ha as [Ha _].
Qed.

Lemma request_contacts req (s : system) tr :
  calls (system_request req s).2 = calls s ++ tr ->
  forall a c b, tr = a ++ c :: b -> contacts c ->
    exists k reg, Call.Lookup k (Ok (Some reg)) ∈ a /\ woken_by (awake_of s) reg a.
Proof.
  intros Htr a c b -> Hc. destruct (request_calls req s) as (tr & Hcalls & pre & post & -> & Ha & Hw).
  rewrite Hcalls in Htr. apply app_inv_head in Htr.
  destruct (contact_after _ _ _ _ _ Htr Ha Hc) as [a' ->].
  destruct Hw as [->|(k & reg & Hl & Hw)].
  - rewrite app_nil_r in Htr. rewrite <- app_assoc in Htr. apply (f_equal length) in Htr.
    rewrite !length_app in Htr. simpl in Htr. lia.
  - exists k, reg. split; [apply elem_of_app; by left|].
    destruct Hw as [?|[Hup [ep Hh]]]; [by left|right]. split; [apply elem_of_app; by left|].
    exists ep. apply elem_of_app. by left.
Qed.

End system.

#[local] Existing Instances same_tracker_loose system_coordinator.

(** ** Theorems *)

(** The whole system over an environment. *)
Abbreviation sys E := (awake * (InFlightTracker * Traced Call.t E))%type.

(** C14.  The proxy handler and the in-flight tracker together, in any
    environment: when the handler returns without a tunnel the live guards are
    those there were before the request, so every job's count is what it was,
    whatever was retried, refreshed or failed; a WebSocket tunnel leaves exactly
    one guard more, and closing it, whenever that happens, removes that one. *)
Theorem requests_balance_in_flight E `{Orchestrator E, ServiceDiscovery E, ActivityStore E, MissingJobTracker E,
    Registry E, Probe E, Clock E, Cancellation E, Backend E, Upgrade E, Heartbeats E, Peer E, Patience E}
    wake_timeout state req live (s : sys E) :
  tracker_inv (tracker_of s, live) ->
  balanced_after live (system_request wake_timeout state req s).1.2 (system_request wake_timeout state req s).2.
Proof.
  intros Ht. unfold system_request, proxy_handler. destruct (header "host" (in_headers req)) as [v|]; [|done].
  apply unguarded_balanced; [apply loose_await, loose_env, _; apply _|done|]. intros r s1 Ht1.
  destruct r as [[reg|]|err]; [|exact Ht1..].
  apply unguarded_balanced; [apply loose_await, loose_ensure, _; apply _|done|]. intros w s2 Ht2.
  destruct w as [ep|err].
  - apply unguarded_balanced; [apply loose_clear, _|done|]. intros _ s3 Ht3. by apply serve_balanced.
  - destruct err; try exact Ht2.
    apply unguarded_balanced; [apply loose_missing_job, _|done|]. intros resp s3 Ht3. exact Ht3.
Qed.

(** C6.  The controller, the coordinator and the proxy handler together, in any
    environment: when a tick of the controller has scaled a job down and the tick
    found every job under its own name, the next request that contacts a backend
    for the job has had it scaled up again first. *)
Theorem scaled_down_job_is_woken_again E `{Orchestrator E, ServiceDiscovery E, ActivityStore E, MissingJobTracker E,
    Registry E, Probe E, Clock E, Cancellation E, Backend E, Upgrade E, Heartbeats E, Peer E, Patience E}
    wake_timeout state self req d (s : sys E) tr1 tr2 j g a c b :
  let s1 := (system_tick wake_timeout self (d, s)).2.2 in
  calls s1 = calls s ++ tr1 -> own_names tr1 -> Call.ScaleDown j g (Ok tt) ∈ tr1 ->
  calls (system_request wake_timeout state req s1).2 = calls s1 ++ tr2 -> tr2 = a ++ c :: b -> contacts c ->
  exists k reg, Call.Lookup k (Ok (Some reg)) ∈ a /\
    (Core.job_id reg = j ->
     Call.ScaleUp j (nomad_group reg) 1 (Ok tt) ∈ a /\
     exists ep, Call.WaitHealthy (service_name reg) wake_timeout (Ok ep) ∈ a).
Proof.
  intros s1 Htr1 Hown Hdown Htr2 Heq Hc.
  destruct (sleeps_tick wake_timeout self (d, s)) as (tr & Htr & _ & Hsleep). fold s1 in Htr, Hsleep. simpl in Htr.
  change (calls s1 = calls s ++ tr) in Htr. rewrite Htr1 in Htr. apply app_inv_head in Htr as <-.
  specialize (Hsleep Hown j g Hdown).
  destruct (request_contacts wake_timeout state req s1 tr2 Htr2 a c b Heq Hc) as (k & reg & Hl & [Hs|Hw]).
  - exists k, reg. split; [done|]. intros Hj. rewrite Hj in Hs. change (awake_of s1 !! j = None) in Hsleep.
    rewrite Hsleep in Hs. by destruct Hs.
  - exists k, reg. split; [done|]. by intros <-.
Qed.

(** ** Concrete runs *)
Module Run.
Definition web : JobRegistration := mkReg "web" "web" "main".
Definition state : AppState := mkAppState (duration_from_secs 100) true 5.
Definition self : ScaleDownController :=
  new_controller false (duration_from_secs 300) (duration_from_secs 30) true 5.
Definition wake_timeout : Z := duration_from_secs 60.
Definition get (host : string) (m : Method) : inbound := mkInbound m (Some "/") [("host", host)] "".

(** One registered job, which the activity store reports idle. *)
Definition env : Toy.world :=
  Toy.mkWorld 0 ∅ {["web" := web]} ["web"] true (fun _ => Ok tt) ∅ (Ok false) (Ok Toy.addr) [] [] ∅.
Definition asleep : sys Toy.world := (∅, (new_tracker, mkTraced env [])).
Definition awoken : sys Toy.world := ({["web" := Toy.addr]}, (new_tracker, mkTraced env [])).
Definition req : inbound := get "web.localhost" POST.
Definition served := system_request wake_timeout state req asleep.
Definition ticked : sys Toy.world := (system_tick wake_timeout self (∅, awoken)).2.2.
Definition served_again := system_request wake_timeout state req ticked.

(** The calls of a run are split at the first that reaches a backend. *)
Definition is_contact (c : Call.t) : bool := match c with Call.Forward _ _ => true | _ => false end.
Fixpoint before (l : list Call.t) : list Call.t :=
  match l with [] => [] | c :: l' => if is_contact c then [] else c :: before l' end.
Definition at_contact (l : list Call.t) : Call.t := default (Call.IsCancelled true) (l !! length (before l)).
Definition after (l : list Call.t) : list Call.t := drop (S (length (before l))) l.
Definition later_calls (s s' : sys Toy.world) : list Call.t := drop (length (calls s)) (calls s').
End Run.
Import Run.

Lemma requests_balance_in_flight_witness :
  tracker_inv (tracker_of asleep, []) /\ balanced_after [] served.1.2 served.2 /\
  res_map reply_status served.1.1 = Ok 200 /\ count "web" (tracker_of served.2) = 0.
Proof.
  split; [apply tracker_inv_new|]. split; [|split; reflexivity].
  apply (requests_balance_in_flight Toy.world wake_timeout state req [] asleep). apply tracker_inv_new.
Defined.

Lemma scaled_down_job_is_woken_again_witness :
  let tr1 := later_calls awoken ticked in
  let tr2 := later_calls ticked served_again.2 in
  Call.ScaleDown "web" "main" (Ok tt) ∈ tr1 /\ contacts (at_contact tr2) /\
  exists k reg, Call.Lookup k (Ok (Some reg)) ∈ before tr2 /\
    (Core.job_id reg = "web" ->
     Call.ScaleUp "web" (nomad_group reg) 1 (Ok tt) ∈ before tr2 /\
     exists ep, Call.WaitHealthy (service_name reg) wake_timeout (Ok ep) ∈ before tr2).
Proof.
  assert (Hdown : Call.ScaleDown "web" "main" (Ok tt) ∈ later_calls awoken ticked).
  { vm_compute. do 4 right. left. }
  split; [exact Hdown|]. split; [exact I|].
  apply (scaled_down_job_is_woken_again Toy.world wake_timeout state self req ∅ awoken
    (later_calls awoken ticked) (later_calls ticked served_again.2) "web" "main"
    (before (later_calls ticked served_again.2)) (at_contact (later_calls ticked served_again.2))
    (after (later_calls ticked served_again.2))).
  - vm_compute. reflexivity.
  - intros k reg Hin. vm_compute in Hin. 
    repeat (apply elem_of_cons in Hin as [Hin|Hin]; [first [discriminate Hin|injection Hin as -> ->; reflexivity]|]).
    by apply elem_of_nil in Hin.
  - exact Hdown.
  - vm_compute. reflexivity.
  - vm_compute. reflexivity.
  - exact I.
Defined.

(** ** A job scaled down under its service name *)
Module Alias.
Definition job : JobRegistration := mkReg "web" "svc" "main".

(** The job [web] with the service [svc], under whose name its requests come and
    its activity is recorded. *)
Definition env : Toy.world :=
  Toy.mkWorld 0 ∅ {["svc" := job; "web" := job]} ["svc"] true (fun _ => Ok tt) ∅ (Ok false) (Ok Toy.addr) [] [] ∅.
Definition awoken : sys Toy.world := ({["web" := Toy.addr]}, (new_tracker, mkTraced env [])).

(** The allocation is gone: connections are refused. *)
#[local] Instance refusing : Backend Toy.world := {|
  forward_send _ := ret (Err (mkReqwestError "connection refused" true false None));
  build_reply r := Ok r;
  valid_uri _ := true |}.

Definition ticked : sys Toy.world := (system_tick wake_timeout self (∅, awoken)).2.2.
Definition refused := system_request wake_timeout state (get "svc.localhost" POST) ticked.
End Alias.

(** A tick looks an idle job up under the name in the activity store, its
    service name, scales the registered job down, and marks the service name
    dormant: the coordinator keeps the endpoint of the stopped job.  Until an
    allocation event arrives, a request that may not be replayed is sent there
    and fails, and nothing wakes the job. *)
Theorem alias_stays_awake :
  Call.ScaleDown "web" "main" (Ok tt) ∈ later_calls Alias.awoken Alias.ticked /\
  awake_of Alias.ticked !! "web" = Some Toy.addr /\
  res_map reply_status Alias.refused.1.1 = Ok BAD_GATEWAY /\
  (forall j g n r, Call.ScaleUp j g n r ∉ later_calls Alias.ticked Alias.refused.2) /\
  awake_of Alias.refused.2 !! "web" = Some Toy.addr.
Proof.
  split; [vm_compute; do 4 right; left|]. split; [vm_compute; reflexivity|]. split; [vm_compute; reflexivity|].
  split; [|vm_compute; reflexivity]. intros j g n r Hin. vm_compute in Hin.
  repeat (apply elem_of_cons in Hin as [Hin|Hin]; [discriminate Hin|]). by apply elem_of_nil in Hin.
Qed.
