(* ===== verification/Contacts.v ===== *)
(** * Contacts: which backends a request reaches

    On the world of [System]: what a request has been told of its job (the
    endpoint it was awake with, a wake, a report of Nomad's) decides which
    endpoint each of its contacts reaches. *)

From S2P Require Import Prelude Str F64 Core Json Http Waker InFlight Ifaces Sequential Trace Toy Controller.
From S2P Require Import Proxy Handler System.
Local Open Scope Z_scope.
Import Awake.

#[local] Existing Instances lifted_orchestrator lifted_discovery lifted_activity lifted_missing
  lifted_registry lifted_in_flight lifted_probe lifted_clock lifted_cancellation lifted_backend
  lifted_upgrade lifted_heartbeats lifted_peer lifted_patience tracker_in_flight.

(** ** What the calls tell of a job *)

(** Nothing; that it has been scaled up; that it runs at an endpoint. *)
Inductive news : Type :=
| Asleep
| Scaled
| Up (ep : Endpoint).

#[export] Instance news_eq_dec : EqDecision news.
Proof. solve_decision. Defined.

(** A wake is a [scale_up] followed by a successful health wait; an answer of
    Nomad's overrides what was known. *)
Definition heard (wake_timeout : Z) (reg : JobRegistration) (x : news) (c : Call.t) : news :=
  match c with
  | Call.ScaleUp job group n (Ok _) =>
      if bool_decide (job = Core.job_id reg /\ group = nomad_group reg /\ n = 1)
      then match x with Asleep => Scaled | _ => x end else x
  | Call.WaitHealthy service timeout (Ok ep) =>
      if bool_decide (service = service_name reg /\ timeout = wake_timeout)
      then match x with Asleep => Asleep | _ => Up ep end else x
  | Call.GetHealthyEndpoint job (Ok found) =>
      if bool_decide (job = Core.job_id reg)
      then match found with Some ep => Up ep | None => Asleep end else x
  | _ => x
  end.

Definition news_after (wake_timeout : Z) (reg : JobRegistration) : news -> list Call.t -> news :=
  foldl (heard wake_timeout reg).

(** The contact [c], made after the calls [a] for the request [req], reaches
    [ep]. *)
Definition reaches (req : inbound) (a : list Call.t) (ep : Endpoint) (c : Call.t) : Prop :=
  match c with
  | Call.Forward o _ => out_url o = endpoint_base_url ep "http" +:+ target_or_root req
  | Call.Connect address _ => address = endpoint_address ep
  | Call.Handshake _ => Call.Connect (endpoint_address ep) (Ok tt) ∈ a
  | Call.SendUpgrade q _ =>
      Call.Connect (endpoint_address ep) (Ok tt) ∈ a /\
      header "host" (in_headers q) = Some (endpoint_address ep) /\ in_target q = Some (target_or_root req)
  | _ => False
  end.

Lemma reaches_app req a a' ep c : reaches req a' ep c -> reaches req (a ++ a') ep c.
Proof.
  destruct c; simpl; try done; [|intros (? & ? & ?); split_and!; try done]; intros; apply elem_of_app; by right.
Qed.

Lemma same_ignoring_case k : eq_ignore_ascii_case k k = true.
Proof. by apply bool_decide_eq_true_2. Qed.

Lemma header_set k v hs : header k (set_header k v hs) = Some v.
Proof.
  induction hs as [|[k' v'] hs IH]; simpl; [by rewrite same_ignoring_case|].
  destruct (eq_ignore_ascii_case k k') eqn:E; simpl; [by rewrite same_ignoring_case|]. by rewrite E.
Qed.

(** What is known can be less than what was heard. *)
Definition le (x y : news) : Prop :=
  match x, y with
  | Asleep, _ => True
  | Scaled, Asleep => False
  | Scaled, _ => True
  | Up ep, y => y = Up ep
  end.

#[local] Instance le_preorder : PreOrder le.
Proof. split; [by intros []|]. intros [] [] []; simpl; try done; by intros [= ->] [= ->]. Qed.

Lemma heard_mono wt reg x y c : le x y -> le (heard wt reg x c) (heard wt reg y c).
Proof.
  intros Hle. destruct c; simpl; try done; destruct r as [[]|]; try done; case_bool_decide; try done;
    destruct x, y; simpl in *; first [done|congruence].
Qed.

Lemma news_mono wt reg tr x y : le x y -> le (news_after wt reg x tr) (news_after wt reg y tr).
Proof. revert x y. induction tr as [|c tr IH]; intros x y Hle; [done|]. simpl. by apply IH, heard_mono. Qed.

Lemma news_app wt reg x a b : news_after wt reg x (a ++ b) = news_after wt reg (news_after wt reg x a) b.
Proof. apply foldl_app. Qed.

(** The clocks tell nothing of the job. *)
Lemma news_timers wt reg x l : Forall asks_timer l -> news_after wt reg x l = x.
Proof. intros Hl. revert x. induction Hl as [|c l Hc _ IH]; intros x; [done|]. simpl. rewrite IH. by destruct c. Qed.

Lemma news_wakes wt reg ep tr : wakes wt reg ep tr -> news_after wt reg Asleep tr = Up ep.
Proof.
  intros (pre & mid & -> & Hpre & Hmid). rewrite news_app, (news_timers _ _ _ pre Hpre).
  match goal with |- context [?c :: mid ++ ?l] => change (c :: mid ++ l) with ([c] ++ mid ++ l) end.
  rewrite !news_app, (news_timers _ _ _ mid Hmid). unfold news_after. simpl.
  rewrite bool_decide_eq_true_2 by done. by rewrite bool_decide_eq_true_2.
Qed.

(** A call that neither tells of the job nor contacts a backend. *)
Definition neutral (c : Call.t) : Prop :=
  away c /\ forall wt reg x, le x (heard wt reg x c).

Section contacts.
Context {E : Type} `{Orchestrator E, ServiceDiscovery E, ActivityStore E, MissingJobTracker E, Registry E,
  Probe E, Clock E, Cancellation E, Backend E, Upgrade E, Heartbeats E, Peer E, Patience E}.

Abbreviation system := (awake * (InFlightTracker * Traced Call.t E))%type.

Context (wake_timeout : Z) (state : AppState) (req : inbound) (reg : JobRegistration).
#[local] Instance coord : Coordinator system := system_coordinator wake_timeout.

#[local] Arguments calls : simpl never.
#[local] Arguments news_after : simpl never.

(** What the coordinator knows of the job. *)
Definition known (s : system) : news :=
  match awake_of s !! Core.job_id reg with Some ep => Up ep | None => Asleep end.

(** Every contact of the run reaches the endpoint the news named, and the
    coordinator knows no more than the news. *)
Definition guided (s s' : system) : Prop :=
  exists tr, calls s' = calls s ++ tr /\ le (known s') (news_after wake_timeout reg (known s) tr) /\
    forall a c b, tr = a ++ c :: b -> contacts c ->
      exists ep, reaches req a ep c /\ news_after wake_timeout reg (known s) a = Up ep.

#[local] Instance guided_preorder : PreOrder guided.
Proof.
  split.
  - intros s. exists []. rewrite app_nil_r. split_and!; [done|reflexivity|]. by intros [] c b.
  - intros s1 s2 s3 (tr & E1 & K1 & C1) (tr' & E2 & K2 & C2). exists (tr ++ tr').
    rewrite E2, E1, <- app_assoc. split; [done|]. split.
    + etrans; [exact K2|]. rewrite news_app. by apply news_mono.
    + intros a c b Heq Hc. apply app_eq_inv in Heq as [(k & -> & Hk)|(k & -> & ->)].
      * destruct k as [|x k]; simpl in Hk.
        -- destruct (C2 [] c b (eq_sym Hk) Hc) as (ep & Hr & Hn). exists ep. rewrite app_nil_r in K1.
           split; [by rewrite <- (app_nil_r a); apply reaches_app|]. pose proof (news_mono wake_timeout reg [] _ _ K1) as Hm.
           rewrite Hn in Hm. exact Hm.
        -- injection Hk as <- ->. by apply (C1 a c k).
      * destruct (C2 k c b eq_refl Hc) as (ep & Hr & Hn). exists ep. split; [by apply reaches_app|].
        rewrite news_app. pose proof (news_mono wake_timeout reg k _ _ K1) as Hm. by rewrite Hn in Hm.
Qed.

(** The same, and no job wakes up or goes to sleep. *)
Definition steady (s s' : system) : Prop := guided s s' /\ awake_of s' = awake_of s.

#[local] Instance steady_preorder : PreOrder steady.
Proof.
  split; [intros s; by split|]. intros s1 s2 s3 [G1 A1] [G2 A2]. split; [by etrans|congruence].
Qed.

Lemma steady_guided {A} (m : ST system A) : within steady m -> within guided m.
Proof. apply within_mono. by intros s s' [? _]. Qed.

(** A call that is no contact, or reaches the endpoint that is known. *)
Lemma steady_step (s s' : system) c :
  awake_of s' = awake_of s -> calls s' = calls s ++ [c] -> le (known s) (heard wake_timeout reg (known s) c) ->
  (contacts c -> exists ep, reaches req [] ep c /\ known s = Up ep) -> steady s s'.
Proof.
  intros Ha Hc Hle Hcon. split; [|done]. exists [c]. split; [done|]. split.
  - unfold known at 1. rewrite Ha. exact Hle.
  - intros [|x a] c' b [= <- Heq] Hc'; [by apply Hcon|by destruct a].
Qed.

Lemma steady_call {A} (ev : A -> Call.t) (m : ST E A) :
  (forall a, neutral (ev a)) -> within steady (lift (lift (traced ev m)) : ST system A).
Proof.
  intros Hev. apply within_call. intros s s' a Ha _ Hc. destruct (Hev a) as [Haway Hle].
  eapply steady_step; eauto. intros Hcon. by destruct Haway.
Qed.

Lemma steady_await {A} (m : ST system A) : within steady m -> within steady (await m).
Proof.
  intros Hm. unfold await. apply within_bind; [apply _|done|]. intros a.
  apply within_bind; [apply _|apply steady_call; split; [by intros []|by intros wt r []]|].
  intros gone. apply within_ret, _.
Qed.

Lemma guided_mark j : within guided (mark_dormant j : ST system unit).
Proof.
  intros s. exists []. split; [by rewrite app_nil_r|]. split; [|by intros [] c b].
  change (le (known (delete j s.1, s.2)) (known s)). unfold known, awake_of. simpl.
  destruct (decide (j = Core.job_id reg)) as [->|Hne]; [by rewrite lookup_delete_eq|by rewrite lookup_delete_ne].
Qed.

Ltac neutral_call := intros; split; [by intros []|by intros ? ? []].

(** Every statement is a neutral call. *)
Ltac steadily :=
  within_each ltac:(first [apply steady_await | within_lifted | apply steady_call; neutral_call]).

Lemma steady_clear j : within steady (clear_missing_job_counter (W := system) state j).
Proof. unfold clear_missing_job_counter. steadily. Qed.
Lemma steady_finish h r : within steady (finish (W := system) h r).
Proof. unfold finish. steadily. Qed.
Lemma steady_deadline ws : within steady (heartbeat_deadline (W := system) state ws).
Proof. unfold heartbeat_deadline. steadily. Qed.

(** Counting a job missing, and forgetting it. *)
Lemma guided_missing_job j source : within guided (handle_missing_job (W := system) state j source).
Proof.
  unfold handle_missing_job, cleanup_missing_job_state.
  within_each ltac:(first [apply guided_mark | apply steady_guided, steady_await, steady_call; neutral_call]).
Qed.

(** ** Which endpoint is known where *)

(** The job is awake at [o], if an endpoint is given. *)
Definition up (o : option Endpoint) (s : system) : Prop :=
  match o with Some ep => awake_of s !! Core.job_id reg = Some ep | None => True end.

(** With the job awake at [o], the run is guided, and its result says where the
    job is awake afterwards. *)
Definition led {A} (o : option Endpoint) (m : ST system A) (after : A -> option Endpoint) : Prop :=
  forall s, up o s -> guided s (m s).2 /\ up (after (m s).1) (m s).2.

(** Where a fallible statement leaves the job when it is not unwound. *)
Definition returned_at {A} (o : A -> option Endpoint) (r : res Unwound.t A) : option Endpoint :=
  match r with Ok a => o a | Err _ => None end.

Abbreviation nowhere := (fun _ => None).

Lemma led_ret {A} o (a : A) : led o (ret a) (fun _ => o).
Proof. intros s Hs. by split. Qed.

Lemma led_forget {A} o (m : ST system A) after : led o m after -> led o m nowhere.
Proof. intros Hm s Hs. split; [by apply Hm|done]. Qed.

Lemma led_anywhere {A} o (m : ST system A) after : led None m after -> led o m after.
Proof. intros Hm s _. by apply Hm. Qed.

Lemma led_bind {A B} o (m : ST system A) (k : A -> ST system B) after after' :
  led o m after -> (forall a, led (after a) (k a) after') -> led o (bind m k) after'.
Proof.
  intros Hm Hk s Hs. destruct (Hm s Hs) as [Hg Ha]. unfold bind. destruct (m s) as [a s1]. simpl in *.
  destruct (Hk a s1 Ha) as [Hg' Ha']. split; [by etrans|done].
Qed.

Lemma led_try {A B} o (m : ST system (res Unwound.t A)) (k : A -> ST system (res Unwound.t B)) after after' :
  led o m (returned_at after) -> (forall a, led (after a) (k a) (returned_at after')) ->
  led o (try m k) (returned_at after').
Proof. intros Hm Hk. eapply led_bind; [exact Hm|]. intros [a|u]; [apply Hk|by intros s _]. Qed.

Lemma led_try_end {A B} o (m : ST system (res Unwound.t A)) (k : A -> ST system (res Unwound.t B)) after :
  led o m (returned_at after) -> (forall a, led (after a) (k a) nowhere) -> led o (try m k) nowhere.
Proof. intros Hm Hk. eapply led_bind; [exact Hm|]. intros [a|u]; [apply Hk|by intros s _]. Qed.

Lemma up_same o (s s' : system) : awake_of s' = awake_of s -> up o s -> up o s'.
Proof. intros Ha. unfold up. by rewrite Ha. Qed.

Lemma led_steady {A} o (m : ST system A) : within steady m -> led o m (fun _ => o).
Proof. intros Hm s Hs. destruct (Hm s) as [Hg Ha]. split; [done|by eapply up_same]. Qed.

Lemma led_steady_try {A} o (m : ST system (res Unwound.t A)) : within steady m -> led o m (returned_at (fun _ => o)).
Proof.
  intros Hm s Hs. destruct (led_steady o m Hm s Hs) as [Hg Ha]. split; [done|]. by destruct (m s).1.
Qed.

Lemma led_guided {A} o (m : ST system A) : within guided m -> led o m nowhere.
Proof. intros Hm s _. by split. Qed.

(** An awaited statement: the client may leave, the job stays where it is. *)
Lemma led_await {A} o (m : ST system A) after : led o m after -> led o (await m) (returned_at after).
Proof.
  intros Hm. unfold await. eapply led_bind; [exact Hm|]. intros a.
  eapply led_bind; [apply led_steady, steady_call; neutral_call|]. intros [|]; [by intros s _|apply led_ret].
Qed.

(** A call that reaches the endpoint the job is awake at. *)
Lemma led_contact {A} ep (ev : A -> Call.t) (m : ST E A) :
  (forall a, reaches req [] ep (ev a)) -> (forall a wt r x, heard wt r x (ev a) = x) ->
  led (Some ep) (lift (lift (traced ev m)) : ST system A) (fun _ => Some ep).
Proof.
  intros Hr Hh s Hs. simpl in Hs. destruct (call_run ev m s) as (a & s1 & -> & Hc & Ha). simpl. split; [|by rewrite Ha].
  eapply steady_step; [done|exact Hc|by rewrite Hh|]. intros _. exists ep. split; [done|]. unfold known. by rewrite Hs.
Qed.

(** ** The coordinator names the endpoint *)

Lemma led_ensure o : led o (ensure_running reg : M system Endpoint) (fun r => match r with Ok ep => Some ep | Err _ => None end).
Proof.
  intros [m t] _. change (ensure_running reg : M system Endpoint) with (spec_ensure_running wake_timeout reg : M system Endpoint).
  unfold spec_ensure_running, bind, get_st, lift. cbn [fst snd].
  destruct (m !! Core.job_id reg) as [ep|] eqn:Hm; [by split|].
  destruct (attempt_calls wake_timeout reg t) as (tr & Hc & Ha & Hw). cbn [fst snd].
  destruct (attempt wake_timeout reg t) as [[r late] t1]. simpl in *.
  assert (Hfree : forall a c b, tr = a ++ c :: b -> contacts c ->
    exists ep, reaches req a ep c /\ news_after wake_timeout reg (known (m, t)) a = Up ep).
  { intros a c b -> Hcon. apply Forall_app in Ha as [_ Ha]. apply Forall_cons in Ha as [Ha _]. by destruct Ha. }
  assert (Hk : known (m, t) = Asleep) by (unfold known; simpl; by rewrite Hm).
  destruct r as [ep|e]; simpl.
  - split; [|destruct late; [done|apply lookup_insert_eq]]. exists tr. split; [exact Hc|]. split; [|done].
    rewrite Hk, (news_wakes _ _ ep) by auto. unfold known. simpl. by rewrite lookup_insert_eq.
  - split; [|unfold told, wait_outcome; destruct late; [done|by destruct e]].
    exists tr. split; [exact Hc|]. split; [|done]. unfold known at 1. simpl. by rewrite Hm.
Qed.

Lemma led_refresh o ep :
  led o (refresh_endpoint reg ep : M system EndpointRefresh.t)
    (fun r => match r with Ok (EndpointRefresh.Updated ep') => Some ep' | _ => None end).
Proof.
  intros [m [t [e tr]]] _.
  change (refresh_endpoint reg ep : M system EndpointRefresh.t) with (spec_refresh_endpoint reg ep : M system EndpointRefresh.t).
  unfold spec_refresh_endpoint, try, bind, lift, modify_st, ret. simpl. unfold lift, traced. simpl.
  destruct (get_healthy_endpoint (Core.job_id reg) e) as [r e1]. simpl.
  assert (Hend : forall m' : awake, le (known (m', (t, mkTraced e1 (tr ++ [Call.GetHealthyEndpoint (Core.job_id reg) r]))))
      (heard wake_timeout reg (known (m, (t, mkTraced e tr))) (Call.GetHealthyEndpoint (Core.job_id reg) r)) ->
    guided (m, (t, mkTraced e tr)) (m', (t, mkTraced e1 (tr ++ [Call.GetHealthyEndpoint (Core.job_id reg) r])))).
  { intros m' Hle. eexists. split; [reflexivity|]. split; [exact Hle|].
    intros [|x a] c b [= <- Heq] Hcon; [done|by destruct a]. }
  destruct r as [[ep'|]|err]; simpl.
  - split; [|unfold refreshed; destruct (_ && _); [done|apply lookup_insert_eq]]. apply Hend. simpl.
    rewrite bool_decide_eq_true_2 by done. unfold known. simpl. by rewrite lookup_insert_eq.
  - split; [|done]. apply Hend. simpl. rewrite bool_decide_eq_true_2 by done. unfold known. simpl. by rewrite lookup_delete_eq.
  - split; [|done]. apply Hend. simpl. reflexivity.
Qed.

(** ** The handler's functions *)

Abbreviation stays ep := (returned_at (fun _ => Some ep)).

Lemma led_ok {A} o (a : A) : led o (ret (Ok a)) (returned_at (fun _ => o)).
Proof. intros s Hs. by split. Qed.

Lemma led_checked {A B} o (x : res Unwound.t A) (k : A -> ST system (res Unwound.t B)) after :
  (forall a, x = Ok a -> led o (k a) (returned_at after)) -> led o (try (ret x) k) (returned_at after).
Proof. intros Hk s Hs. destruct x as [a|u]; [by apply (Hk a)|by split]. Qed.

Lemma led_forward ep q :
  target_or_root q = target_or_root req ->
  led (Some ep) (forward_request (W := system) ep q) (fun _ => Some ep).
Proof.
  intros Hq. unfold forward_request. apply (led_bind _ _ _ (fun _ => Some ep)); [|intros [r|e]; apply led_ret].
  apply (led_bind _ _ _ (fun _ => Some ep)); [|intros r; apply led_ret]. apply led_contact; [|done]. intros r. simpl. by rewrite Hq.
Qed.

Lemma led_again ep m : led (Some ep) (forward_again (W := system) req ep m) (stays ep).
Proof.
  unfold forward_again. apply led_checked. intros q Hq. apply led_await, led_forward.
  unfold build_retry_request in Hq. by destruct (valid_uri _); simplify_eq.
Qed.

(** What ends a branch. *)
Lemma led_finish o h r : led o (finish (W := system) h r) nowhere.
Proof. apply led_guided, steady_guided, steady_finish. Qed.

Lemma led_cancel_then_missing o h j source :
  led o (bind (cancel_heartbeat (W := system) h) (fun _ => handle_missing_job state j source)) nowhere.
Proof.
  apply led_guided. apply within_bind; [apply _| |intros; apply guided_missing_job].
  apply steady_guided, steady_call. neutral_call.
Qed.

Lemma led_transient h ep m delays err :
  led (Some ep) (retry_transient (W := system) req h ep m delays err) (stays ep).
Proof.
  revert err. induction delays as [|d delays IH]; intros err; simpl; [apply led_ok|].
  assert (Hend : forall r, led (Some ep) (try (finish (W := system) h r) 
      (fun resp => ret (Ok (inl resp : reply + ForwardRequestError.t)))) (stays ep)).
  { intros r. eapply led_try; [apply led_steady_try, steady_finish|]. intros resp. apply led_ok. }
  eapply led_try; [apply (led_await _ _ (fun _ => Some ep)), led_steady, steady_call; neutral_call|]. intros [].
  eapply led_try; [apply led_again|]. intros [resp|e]; [apply Hend|].
  destruct (is_retryable_transport e); [apply IH|apply Hend].
Qed.

Lemma led_last h ep m : led (Some ep) (retry_last (W := system) req h ep m) nowhere.
Proof.
  unfold retry_last. eapply led_try_end; [apply led_again|]. intros [resp|e]; apply led_finish.
Qed.

(** A last attempt at the endpoint just named. *)
Lemma led_named_last h ep m j :
  led (Some ep) (do? clear_missing_job_counter (W := system) state j in retry_last req h ep m)%st nowhere.
Proof. eapply led_try_end; [apply led_steady_try, steady_clear|]. intros []. apply led_last. Qed.

Lemma led_rewake o h m : led o (rewake (W := system) state reg req h m) nowhere.
Proof.
  unfold rewake. eapply led_try_end; [apply led_await, led_ensure|]. intros [ep|e]; [apply led_named_last|].
  destruct e; try apply led_finish. apply led_cancel_then_missing.
Qed.

Lemma led_refreshed o h ep m err : led o (retry_refreshed (W := system) state reg req h ep m err) nowhere.
Proof.
  unfold retry_refreshed. eapply led_try_end; [apply led_await, led_refresh|]. intros [[ep'|ep'|]|e].
  - eapply led_try_end; [apply led_steady_try, steady_clear|]. intros []. apply led_finish.
  - apply led_named_last.
  - apply led_rewake.
  - destruct e; try apply led_finish. apply led_cancel_then_missing.
Qed.

Lemma led_retries h ep : led (Some ep) (forward_with_retries (W := system) state reg req h ep) nowhere.
Proof.
  unfold forward_with_retries. eapply led_try_end; [by apply led_await, led_forward|]. intros [resp|err]; [apply led_finish|].
  destruct (negb _); [apply led_finish|]. destruct (replayable_method _) as [m|]; [|apply led_finish].
  eapply led_try_end; [apply led_transient|]. intros [resp|err']; [by apply led_guided, within_ret, _|apply led_refreshed].
Qed.

(** ** An upgrade *)

(** Every contact of a list of calls, made after the calls [past], reaches
    [ep]. *)
Fixpoint all_reach (ep : Endpoint) (past tr : list Call.t) : Prop :=
  match tr with
  | [] => True
  | c :: tr' => (contacts c -> reaches req past ep c) /\ all_reach ep (past ++ [c]) tr'
  end.

Lemma all_reach_at ep past tr a c b :
  all_reach ep past tr -> tr = a ++ c :: b -> contacts c -> reaches req (past ++ a) ep c.
Proof.
  revert past tr. induction a as [|x a IH]; intros past tr Hall -> Hc; simpl in Hall.
  - rewrite app_nil_r. by apply Hall.
  - destruct Hall as [_ Hall]. change (x :: a) with ([x] ++ a). rewrite app_assoc. by eapply IH.
Qed.

(** A run of calls that tell nothing of the job and all reach its endpoint. *)
Lemma steady_reaching ep tr (s s' : system) :
  awake_of s !! Core.job_id reg = Some ep -> awake_of s' = awake_of s -> calls s' = calls s ++ tr ->
  all_reach ep [] tr -> Forall (fun c => forall x, heard wake_timeout reg x c = x) tr -> steady s s'.
Proof.
  intros Hup Ha Hc Hall Hheard. split; [|done].
  assert (Hk : known s = Up ep /\ known s' = Up ep) by (unfold known; by rewrite Ha, Hup). destruct Hk as [Hk Hk'].
  assert (Hnews : forall x l, Forall (fun c => forall x, heard wake_timeout reg x c = x) l -> news_after wake_timeout reg x l = x).
  { intros x l Hl. revert x. induction Hl as [|c l Hh _ IH]; intros x; [done|].
    change (news_after wake_timeout reg (heard wake_timeout reg x c) l = x). by rewrite Hh. }
  exists tr. split; [done|]. rewrite Hk, Hk', Hnews by done. split; [done|].
  intros a c b Heq Hcon. exists ep. split; [by apply (all_reach_at ep [] tr a c b)|].
  apply Hnews. subst tr. by apply Forall_app in Hheard as [? _].
Qed.

(** An awaited call whose error is translated. *)
Lemma awaited_run {A F G} (ev : res F A -> Call.t) (f : F -> G) (m : ST E (res F A)) (s : system) :
  exists r gone s1, await (map_err f (lift (lift (traced ev m)) : ST system (res F A))) s
      = (if gone : bool then Err Unwound.Dropped else Ok (res_map_err f r), s1) /\
    calls s1 = calls s ++ [ev r; Call.PeerGone gone] /\ awake_of s1 = awake_of s.
Proof.
  destruct (call_run ev m s) as (r & s1 & Hr & Hc1 & Ha1).
  assert (Hm : map_err f (lift (lift (traced ev m)) : ST system (res F A)) s = (res_map_err f r, s1)).
  { unfold map_err. by rewrite (bind_run _ _ _ _ _ Hr). }
  destruct (await_run _ _ _ _ Hm) as (gone & s2 & Hr2 & Hc2 & Ha2). exists r, gone, s2. split; [done|].
  rewrite Hc2, Hc1, Ha2, Ha1, <- app_assoc. done.
Qed.

(** One statement of a function that can be unwound. *)
Lemma try_runs {A B} (Q : res Unwound.t B * system -> Prop) (m : ST system (res Unwound.t A))
    (k : A -> ST system (res Unwound.t B)) r s s1 :
  m s = (r, s1) -> Q (match r with Ok a => k a s1 | Err u => (Err u, s1) end) -> Q (try m k s).
Proof. intros Hm HQ. unfold try. rewrite (bind_run _ _ _ _ _ Hm). by destruct r. Qed.

Lemma led_exchange ep : led (Some ep) (upgrade_exchange (W := system) ep req) (fun _ => Some ep).
Proof.
  intros s Hup. simpl in Hup.
  set (Q := fun out : res Unwound.t (res ForwardRequestError.t reply) * system => guided s out.2 /\ up (Some ep) out.2).
  change (Q (upgrade_exchange ep req s)).
  assert (Hst : forall tr (r : res Unwound.t (res ForwardRequestError.t reply)) s1, calls s1 = calls s ++ tr ->
    awake_of s1 = awake_of s -> all_reach ep [] tr -> Forall (fun c => forall x, heard wake_timeout reg x c = x) tr ->
    Q (r, s1)).
  { intros tr r s1 Hc Ha Hall Hh. split; [by eapply steady_reaching|]. simpl. by rewrite Ha. }
  unfold upgrade_exchange.
  destruct (awaited_run (Call.Connect (endpoint_address ep)) ForwardRequestError.UpgradeConnect
    (tcp_connect (endpoint_address ep)) s) as (r1 & g1 & s1 & Hr1 & Hc1 & Ha1).
  apply (try_runs Q _ _ _ _ _ Hr1).
  destruct g1; [by apply (Hst _ _ _ Hc1); [..|by repeat constructor]|].
  destruct r1 as [[]|e]; [|by apply (Hst _ _ _ Hc1); [..|by repeat constructor]]. simpl res_map_err. cbv iota beta.
  destruct (awaited_run Call.Handshake ForwardRequestError.UpgradeHandshake http1_handshake s1)
    as (r2 & g2 & s2 & Hr2 & Hc2 & Ha2).
  rewrite Hc1, <- app_assoc in Hc2. rewrite Ha1 in Ha2.
  assert (Hhand : all_reach ep [] ([Call.Connect (endpoint_address ep) (Ok tt); Call.PeerGone false] ++ [Call.Handshake r2; Call.PeerGone g2])).
  { simpl. split_and!; try done. intros _. by left. }
  apply (try_runs Q _ _ _ _ _ Hr2).
  destruct g2; [by apply (Hst _ _ _ Hc2); [..|by repeat constructor]|].
  destruct r2 as [[]|e]; [|by apply (Hst _ _ _ Hc2); [..|by repeat constructor]]. simpl res_map_err. cbv iota beta.
  apply (try_runs Q _ _ (checked_upgrade (W := system) ep req) s2 s2 eq_refl).
  destruct (checked_upgrade (W := system) ep req) as [q|u] eqn:Hq; [|by apply (Hst _ _ _ Hc2); [..|by repeat constructor]].
  assert (q = upgrade_request ep req) as ->.
  { unfold checked_upgrade in Hq. by repeat case_match; simplify_eq. }
  destruct (awaited_run (Call.SendUpgrade (upgrade_request ep req)) ForwardRequestError.UpgradeRequest
    (send_upgrade (upgrade_request ep req)) s2) as (r3 & g3 & s3 & Hr3 & Hc3 & Ha3).
  rewrite Hc2, <- app_assoc in Hc3. rewrite Ha2 in Ha3. refine (eq_ind_r Q _ Hr3).
  apply (Hst _ _ _ Hc3 Ha3); [|by repeat constructor]. simpl. split_and!; try done; intros _; [by left|].
  split_and!; [by left|by rewrite header_set|done].
Qed.

(** ** The whole handler *)

Lemma steady_quiet (s s' : system) : calls s' = calls s -> awake_of s' = awake_of s -> steady s s'.
Proof.
  intros Hc Ha. split; [|done]. exists []. rewrite app_nil_r. split; [done|]. split; [|by intros [] c b].
  unfold known. by rewrite Ha.
Qed.

Lemma steady_track j : within steady (in_flight_track j : ST system nat).
Proof. intros [m [t o]]. apply steady_quiet; simpl; unfold lift; simpl; by destruct (track j t). Qed.
Lemma steady_drop g : within steady (in_flight_drop g : ST system unit).
Proof. intros [m [t o]]. by apply steady_quiet. Qed.

Ltac drops_steadily :=
  within_each ltac:(first [apply steady_drop | apply steady_call; neutral_call]).

Lemma steady_guards g h : within steady (drop_guards (W := system) g h) /\ within steady (drop_lifecycle (W := system) g h).
Proof. unfold drop_guards, drop_lifecycle, cancel_on_drop. split; drops_steadily. Qed.

Lemma led_serve ep : led (Some ep) (serve (W := system) state reg ep req) nowhere.
Proof.
  unfold serve. eapply led_bind; [apply led_steady, steady_track|]. intros g.
  eapply led_bind; [apply led_steady, steady_deadline|]. intros [d|u].
  2: { apply led_guided, steady_guided. within_each ltac:(apply steady_drop). }
  eapply led_bind; [apply led_steady, steady_call; neutral_call|]. intros h. destruct (steady_guards g h) as [Hg Hl].
  destruct (is_websocket_upgrade req).
  - eapply led_bind with (after := nowhere); [|intros [r b]; by apply led_guided, within_ret, _].
    unfold forward_websocket_upgrade. eapply led_bind; [apply led_exchange|]. intros r.
    apply led_guided, steady_guided. within_each ltac:(apply Hl).
  - eapply led_bind; [apply led_retries|]. intros r. apply led_guided, steady_guided. within_each ltac:(apply Hg).
Qed.

Lemma led_unguarded {A} o (m : ST system (res Unwound.t A)) k after :
  led o m (returned_at after) -> (forall a, led (after a) (k a) nowhere) -> led o (unguarded m k) nowhere.
Proof. intros Hm Hk. unfold unguarded. eapply led_bind; [exact Hm|]. intros [a|u]; [apply Hk|by intros s _]. Qed.

(** The handler once it has found the registration. *)
Lemma guided_registered :
  within guided (unguarded (await (ensure_running reg : M system Endpoint)) (fun w =>
    match w with
    | Ok ep => unguarded (clear_missing_job_counter (W := system) state (Core.job_id reg)) (fun _ => serve state reg ep req)
    | Err (NscaleError.JobNotFound _) =>
        unguarded (handle_missing_job state (Core.job_id reg) "wake") (fun resp => ret (Ok resp, None))
    | Err e => ret (Ok (text_response SERVICE_UNAVAILABLE ("wake error: " +:+ error_to_string e)), None)
    end)).
Proof.
  intros s. eapply (led_unguarded None); [apply led_await, led_ensure| |exact I]. intros [ep|e].
  - eapply led_unguarded; [apply led_steady_try, steady_clear|]. intros []. apply led_serve.
  - destruct e; try (apply led_guided, within_ret, _).
    apply led_guided. unfold unguarded. apply within_bind; [apply _|apply guided_missing_job|].
    intros [resp|u]; apply within_ret, _.
Qed.
End contacts.

(** ** Theorem *)


(** ** A concrete run: the backend has moved since the job was woken *)
Module Moved.
Import System.Run.

(** The first address refuses; Nomad names another. *)
Definition old : Endpoint := mkEndpoint "10.0.0.9" 80.
#[local] Instance moved : Backend Toy.world := {|
  forward_send o := ret (if bool_decide (out_url o = "http://10.0.0.1:8080/") then Ok (mkReply 200 [] "")
                         else Err (mkReqwestError "connection refused" true false None));
  build_reply r := Ok r;
  valid_uri _ := true |}.
Definition start : sys Toy.world := ({["web" := old]}, (new_tracker, mkTraced env [])).
Definition served := system_request wake_timeout state (get "web.localhost" GET) start.
Definition tr : list Call.t := later_calls start served.2.

(** The index of the last call that reaches a backend. *)
Definition last_contact : nat :=
  fold_left (fun i n => if is_contact (default (Call.IsCancelled true) (tr !! n)) then n else i) (seq 0 (length tr)) 0%nat.
End Moved.

