(* ===== verification/Events.v ===== *)
(** * Events: Nomad's event stream and its processor

    Models [crates/nscale-nomad/src/events.rs] (the connection, the buffering of
    chunks into lines, the frames) and [nscale-scaler/src/event_processor.rs]
    (what an allocation event does).  A [select!] replies with the branch it
    took; the loops take fuel. *)

From S2P Require Import Prelude Str F64 Core Json Http Waker Ifaces Toy Nomad Redis.
From Stdlib Require Import Ascii.
Local Open Scope Z_scope.

(** ** events.rs *)

Record NomadEvent := mkNomadEvent {
  event_index : Z; event_topic : string; event_kind : string; event_payload : Value.t }.

Record EventStreamConfig := mkEventStreamConfig {
  nomad_addr : string; nomad_token : option string; topics : list string; initial_index : Z }.

(** What [select!] finds first: a chunk, a read error, the end of the stream, or
    the cancellation. *)
Inductive selected : Type :=
| Chunk (bytes : string)
| ReadError (e : string)
| StreamEnd
| StreamCancelled.

Class EventSource (W : Type) := {
  next_chunk : ST W selected;
  header_value_error : string -> option string;
  send_event : NomadEvent -> ST W bool;
  stream_cancelled : ST W bool;
  wait_reconnect : ST W bool }.

Section stream.
Context {W : Type} `{HttpClient W, EventSource W, JsonText}.

(** Sending a frame's events: [false] when the receiver is gone. *)
Fixpoint send_all (index : Z) (es : list EventEnvelope) : ST W bool := (
  match es with
  | [] => ret true
  | e :: es' =>
      let* ok := send_event (mkNomadEvent index (topic e) (event_type e) (payload e)) in
      if ok : bool then send_all index es' else ret false
  end)%st.

(** One line: the new last index, and whether to go on. *)
Definition process_line (line : string) (last_index : Z) : ST W (Z * bool) := (
  let line := trim (from_utf8_lossy line) in
  if bool_decide (line = "") then ret (last_index, true)
  else
    match from_json de_EventStreamFrame line with
    | Ok frame =>
        match events frame with
        | [] => ret (last_index, true)
        | es => let* ok := send_all (frame_index frame) es in ret (frame_index frame, ok)
        end
    | Err _ => ret (last_index, true)
    end)%st.

(** The complete lines of the buffer, newline included: what is left of it, the
    last index and whether to go on.  [fuel] exceeds the number of lines. *)
Fixpoint drain (fuel : nat) (buffer : string) (last_index : Z) : ST W (string * Z * bool) := (
  match fuel with
  | O => ret (buffer, last_index, true)
  | S n =>
      match split_once newline buffer with
      | Some (line, rest) =>
          let* r := process_line (line +:+ String newline "") last_index in
          if r.2 : bool then drain n rest r.1 else ret (rest, r.1, false)
      | None => ret (buffer, last_index, true)
      end
  end)%st.

(** A chunk appended to the buffer and the complete lines taken out. *)
Definition feed (chunk : string) (buffer : string) (last_index : Z) : ST W (string * Z * bool) :=
  let buffer := buffer +:+ chunk in drain (String.length buffer) buffer last_index.

(** The loop over the chunks; [None] when the fuel runs out. *)
Fixpoint consume (fuel : nat) (buffer : string) (last_index : Z) : ST W (option (Result unit) * Z) := (
  match fuel with
  | O => ret (None, last_index)
  | S n =>
      let* sel := next_chunk in
      match sel with
      | Chunk bytes =>
          let* r := feed bytes buffer last_index in
          if r.2 : bool then consume n r.1.1 r.1.2 else ret (Some (Ok tt), r.1.2)
      | ReadError e => ret (Some (Err (NscaleError.Nomad ("stream read error: " +:+ e))), last_index)
      | StreamEnd => ret (Some (Err (NscaleError.Nomad "event stream ended unexpectedly")), last_index)
      | StreamCancelled => ret (Some (Ok tt), last_index)
      end
  end)%st.

Definition stream_url (config : EventStreamConfig) (last_index : Z) : string :=
  trim_end_char "/"%char (nomad_addr config) +:+ "/v1/event/stream?"
  +:+ join "&" (map (fun t => "topic=" +:+ t) (topics config)) +:+ "&index=" +:+ show_Z last_index.

Definition connect_and_consume (fuel : nat) (config : EventStreamConfig) (last_index : Z)
    : ST W (option (Result unit) * Z) := (
  match (t ← nomad_token config; header_value_error t) with
  | Some e => ret (Some (Err (NscaleError.Nomad e)), last_index)
  | None =>
      let* r := http_send (mkRequest GET (stream_url config last_index) None) in
      match r with
      | Err e => ret (Some (Err (NscaleError.Http e)), last_index)
      | Ok resp =>
          if negb (is_success (resp_status resp))
          then ret (Some (Err (NscaleError.Nomad ("event stream returned "
                 +:+ status_display (resp_status resp) +:+ ": " +:+ text_or_default resp))), last_index)
          else consume fuel "" last_index
      end
  end)%st.

(** Reconnecting until cancelled; [wait_reconnect] is [false] when the second's
    wait was cut short by the cancellation. *)
Fixpoint event_stream_loop (fuel : nat) (config : EventStreamConfig) (last_index : Z) : ST W unit := (
  match fuel with
  | O => ret tt
  | S n =>
      let* c := stream_cancelled in
      if c : bool then ret tt
      else
        let* r := connect_and_consume n config last_index in
        match r.1 with
        | Some (Err _) =>
            let* go := wait_reconnect in
            if go : bool then event_stream_loop n config r.2 else ret tt
        | _ => ret tt
        end
  end)%st.

End stream.

(** ** event_processor.rs *)

Section processor.
Context {W : Type} `{Registry W, ActivityStore W, Coordinator W}.

(** [seen_running]: the allocations already seen as running. *)
Abbreviation seen_running := (gset string).

Definition str_field (k : string) (v : Value.t) : string :=
  default "" (x ← Json.get k v; as_str x).

Definition handle_allocation_event (event : NomadEvent) : M (seen_running * W) unit := (
  match Json.get "Allocation" (event_payload event) with
  | None => ret (Ok tt)
  | Some alloc =>
      match (x ← Json.get "JobID" alloc; as_str x) with
      | None => ret (Ok tt)
      | Some job_id =>
          let alloc_id := str_field "ID" alloc in
          let client_status := str_field "ClientStatus" alloc in
          let desired_status := str_field "DesiredStatus" alloc in
          let? registration := lift (registry_get job_id) in
          match registration with
          | None => ret (Ok tt)
          | Some _ =>
              if bool_decide (client_status = "running") && bool_decide (desired_status = "run") then
                let* seen := get_st in
                do* modify_st (union {[alloc_id]}) in
                if bool_decide (alloc_id ∈ seen) then ret (Ok tt)
                else do? lift (record_activity job_id) in ret (Ok tt)
              else if bool_decide (client_status ∈ ["complete"; "failed"; "lost"])
                      || bool_decide (desired_status = "stop") then
                do* modify_st (fun seen => seen ∖ {[alloc_id]}) in
                do* lift (mark_dormant job_id) in
                let* _ := lift (remove_activity job_id) in
                ret (Ok tt)
              else ret (Ok tt)
          end
      end
  end)%st.

Definition handle_event (event : NomadEvent) : M (seen_running * W) unit :=
  if bool_decide (event_topic event = "Allocation") then handle_allocation_event event else ret (Ok tt).

(** [run] over the events received; an error is only logged. *)
Definition run_events (evs : list NomadEvent) : ST (seen_running * W) unit :=
  for_each (fun e => bind (handle_event e) (fun _ => ret tt)) evs.

End processor.

(** ** Chunks *)

Section chunks.
Context {W : Type} `{HttpClient W, EventSource W, JsonText}.

(** The chunks fed one after the other: the buffer left, unless the receiver is
    gone, and the last index. *)
Definition observed (r : string * Z * bool) : option string * Z :=
  (if r.2 : bool then Some r.1.1 else None, r.1.2).

Fixpoint feeds (chunks : list string) (buffer : string) (last_index : Z) : ST W (option string * Z) :=
  match chunks with
  | [] => ret (Some buffer, last_index)
  | c :: cs =>
      bind (feed c buffer last_index) (fun r =>
        match observed r with
        | (Some buffer', ix) => feeds cs buffer' ix
        | (None, ix) => ret (None, ix)
        end)
  end.

Lemma split_once_app c s t l r : split_once c s = Some (l, r) -> split_once c (s +:+ t) = Some (l, r +:+ t).
Proof.
  intros Hs. apply split_once_sound in Hs as [-> Hl]. rewrite sapp_assoc. by apply split_once_complete.
Qed.

Lemma split_once_shorter c s l r : split_once c s = Some (l, r) -> (String.length r < String.length s)%nat.
Proof. intros Hs. apply split_once_sound in Hs as [-> _]. rewrite slength_app. simpl. lia. Qed.

Lemma drain_fuel n m buffer ix w :
  (String.length buffer <= n)%nat -> (String.length buffer <= m)%nat -> drain n buffer ix w = drain m buffer ix w.
Proof.
  revert m buffer ix w. induction n as [|n IH]; intros m buffer ix w Hn Hm.
  - destruct buffer; simpl in Hn; [|lia]. by destruct m.
  - destruct m as [|m]; [destruct buffer; simpl in Hm; [done|lia]|]. simpl.
    destruct (split_once newline buffer) as [[l r]|] eqn:Es; [|done]. apply split_once_shorter in Es.
    unfold bind. destruct (process_line _ _ w) as [[ix' go] w']. simpl. destruct go; [|done]. apply IH; lia.
Qed.

(** Draining a buffer and then what is appended to what is left of it. *)
Lemma drain_app buffer t ix w :
  bind (drain (String.length buffer) buffer ix) (fun r =>
    if r.2 : bool then bind (feed t r.1.1 r.1.2) (fun r => ret (observed r)) else ret (None, r.1.2)) w
  = bind (feed t buffer ix) (fun r => ret (observed r)) w.
Proof.
  unfold feed. remember (String.length buffer) as n eqn:Hn. revert buffer ix w Hn.
  induction n as [n IH] using lt_wf_ind. intros buffer ix w ->.
  destruct (split_once newline buffer) as [[l r]|] eqn:Es.
  - pose proof (split_once_shorter _ _ _ _ Es) as Hlen. pose proof (split_once_app _ _ t _ _ Es) as Es'.
    pose proof (split_once_shorter _ _ _ _ Es') as Hlen'.
    destruct (String.length buffer) as [|n] eqn:En; [lia|].
    destruct (String.length (buffer +:+ t)) as [|m] eqn:Em; [lia|].
    cbn [drain]. rewrite Es, Es'. rewrite !bind_assoc. unfold bind at 1 4.
    destruct (process_line _ _ w) as [[ix' go] w']. simpl. destruct go; simpl; [|done].
    specialize (IH (String.length r) Hlen r ix' w' eq_refl).
    unfold bind in *. rewrite (drain_fuel n (String.length r)), (drain_fuel m (String.length (r +:+ t))) by lia.
    exact IH.
  - assert (Hd : drain (String.length buffer) buffer ix w = ((buffer, ix, true), w)).
    { destruct (String.length buffer); simpl; [done|]. by rewrite Es. }
    unfold bind at 1. by rewrite Hd.
Qed.

(** C26.  The stream's frames do not depend on how its bytes are cut into chunks:
    feeding the chunks one after the other sends the same events in the same
    order, in every world, as feeding all the bytes at once, and leaves the same
    buffer and the same last index, also when the receiver goes away in the
    middle; a line, or a character of several bytes, may be cut anywhere. *)
Theorem chunking_is_irrelevant c cs buffer ix (w : W) :
  feeds (c :: cs) buffer ix w = feeds [c +:+ foldr String.append "" cs] buffer ix w.
Proof.
  assert (Hone : forall c buffer ix w, feeds [c] buffer ix w
    = bind (feed c buffer ix) (fun r => ret (observed r)) w).
  { intros c' b' i' w'. cbn [feeds]. unfold bind. destruct (feed c' b' i' w') as [r w'']. by destruct (observed r) as [[]]. }
  revert c buffer ix w. induction cs as [|c' cs IH]; intros c buffer ix w; [simpl; by rewrite sapp_nil_r|].
  rewrite Hone. cbn [foldr]. unfold feed at 1. rewrite <- sapp_assoc.
  pose proof (drain_app (buffer +:+ c) (c' +:+ foldr String.append "" cs) ix w) as Hd.
  unfold feed in Hd at 2. rewrite <- !sapp_assoc in *. rewrite <- Hd. clear Hd.
  change (bind (feed c buffer ix) (fun r => match observed r with
    | (Some buffer', ix) => feeds (c' :: cs) buffer' ix | (None, ix) => ret (None, ix) end) w
    = bind (feed c buffer ix) (fun r =>
        if r.2 : bool then bind (feed (c' +:+ foldr String.append "" cs) r.1.1 r.1.2) (fun r => ret (observed r))
        else ret (None, r.1.2)) w).
  unfold bind at 1 2. destruct (feed c buffer ix w) as [[[b i] go] w'].
  unfold observed at 1. cbn [fst snd]. destruct go; [|done]. cbn iota beta. by rewrite IH, Hone.
Qed.
End chunks.

(** ** Two allocations of one job *)
Module TwoAllocations.
Definition alloc_event (id client desired : string) : NomadEvent :=
  mkNomadEvent 7 "Allocation" "AllocationUpdated" (Value.Object [("Allocation", Value.Object
    [("ID", Value.Str id); ("JobID", Value.Str "web"); ("ClientStatus", Value.Str client);
     ("DesiredStatus", Value.Str desired)])]).
Definition started : list NomadEvent := [alloc_event "a1" "running" "run"; alloc_event "a2" "running" "run"].
Definition stopped : NomadEvent := alloc_event "a1" "complete" "stop".
Definition start : gset string * world := (∅, with_registry {["web" := mkReg "web" "web" "main"]} quiet).
End TwoAllocations.

(** One allocation's stop forgets the whole job: with two allocations of a
    job seen running, the stop of one of them removes the job's activity,
    although the other is still in the set of running allocations, so the job
    is no longer among those the controller finds idle; and the other one's
    running event, delivered again, does not record it anew. *)
Theorem one_stop_forgets_the_job :
  let run evs := snd (run_events evs TwoAllocations.start) in
  let up := run TwoAllocations.started in
  let down := run (TwoAllocations.started ++ [TwoAllocations.stopped]) in
  let again := run (TwoAllocations.started ++ [TwoAllocations.stopped; TwoAllocations.alloc_event "a2" "running" "run"]) in
  (up.1 = {["a1"; "a2"]} /\ activity up.2 !! "web" = Some 0) /\
  (down.1 = {["a2"]} /\ activity down.2 !! "web" = None) /\
  activity again.2 !! "web" = None.
Proof. vm_compute. done. Qed.
