(* ===== verification/Lifecycle.v ===== *)
(** * Lifecycle: the components over a job's life

    Compositions on the world of [System]: a job with a live in-flight guard is
    not scaled down by a tick of the controller, and a job whose allocation
    Nomad reports stopped is woken again by the next request that reaches a
    backend for it. *)

From S2P Require Import Prelude Str F64 Core Json Http Waker InFlight Ifaces Sequential Trace Toy Controller.
From S2P Require Import Proxy Handler System Nomad Events.
Local Open Scope Z_scope.
Import Awake.

#[local] Existing Instances lifted_orchestrator lifted_discovery lifted_activity lifted_missing
  lifted_registry lifted_in_flight lifted_probe lifted_clock lifted_cancellation lifted_backend
  lifted_upgrade lifted_heartbeats lifted_peer lifted_patience tracker_in_flight.

Section lifecycle.
Context {E : Type} `{Orchestrator E, ServiceDiscovery E, ActivityStore E, MissingJobTracker E, Registry E,
  Probe E, Clock E, Cancellation E, Backend E, Upgrade E, Heartbeats E, Peer E, Patience E}.

Abbreviation system := (awake * (InFlightTracker * Traced Call.t E))%type.
Abbreviation CW := (deferred * system)%type.

Context (wake_timeout : Z) (state : AppState) (self : ScaleDownController).
#[local] Instance coord : Coordinator system := system_coordinator wake_timeout.

(** ** Jobs in flight are spared *)

(** The run leaves the tracker alone, and scales down only jobs it has looked up
    under a key that satisfies [P]. *)
Definition spares (P : string -> Prop) (s s' : CW) : Prop :=
  exists tr, calls s'.2 = calls s.2 ++ tr /\ tracker_of s'.2 = tracker_of s.2 /\
    forall j g r, Call.ScaleDown j g r ∈ tr ->
      exists k reg, Call.Lookup k (Ok (Some reg)) ∈ tr /\ Core.job_id reg = j /\ P k.

#[local] Instance spares_preorder P : PreOrder (spares P).
Proof.
  split.
  - intros s. exists []. rewrite app_nil_r. split_and!; [done|done|]. by intros j g r Hin%elem_of_nil.
  - intros s1 s2 s3 (tr & E1 & T1 & D1) (tr' & E2 & T2 & D2). exists (tr ++ tr').
    rewrite E2, E1, <- app_assoc, T2. split_and!; [done|done|]. intros j g r [Hin|Hin]%elem_of_app.
    + destruct (D1 _ _ _ Hin) as (k & reg & Hk & Hj & HP). exists k, reg.
      split; [apply elem_of_app; by left|done].
    + destruct (D2 _ _ _ Hin) as (k & reg & Hk & Hj & HP). exists k, reg.
      split; [apply elem_of_app; by right|done].
Qed.

Definition not_scale_down (c : Call.t) : Prop := match c with Call.ScaleDown _ _ _ => False | _ => True end.

Section spares.
Context (P : string -> Prop).
Implicit Types (s : CW).

Lemma spares_step s s' tr :
  calls s'.2 = calls s.2 ++ tr -> tracker_of s'.2 = tracker_of s.2 -> Forall not_scale_down tr -> spares P s s'.
Proof.
  intros Hc Ht Hn. exists tr. split_and!; [done|done|]. intros j g r Hin.
  rewrite Forall_forall in Hn. by apply Hn in Hin.
Qed.

Lemma spares_call {A} (ev : A -> Call.t) (m : ST E A) :
  (forall a, not_scale_down (ev a)) ->
  within (spares P) (lift (lift (lift (traced ev m)) : ST system A) : ST CW A).
Proof.
  intros Hev. apply (within_lift _ (fun s s' : system => exists a, tracker_of s' = tracker_of s /\ calls s' = calls s ++ [ev a])).
  - intros d s s' (a & Hm & Hc). apply (spares_step _ _ [ev a]); simpl; [done|by rewrite Hm|by constructor].
  - apply within_call. eauto.
Qed.

(** The deferred jobs and the awake jobs may change. *)
Lemma spares_deferred (f : deferred -> deferred) : within (spares P) (modify_st f : ST CW unit).
Proof. intros s. apply (spares_step _ _ []); [by rewrite app_nil_r|done|constructor]. Qed.

Lemma spares_get : within (spares P) (get_st : ST CW deferred).
Proof. intros s. simpl. reflexivity. Qed.

Lemma spares_mark j : within (spares P) (lift (mark_dormant j : ST system unit) : ST CW unit).
Proof. intros [d s]. apply (spares_step _ _ []); [by rewrite app_nil_r|done|constructor]. Qed.

Lemma spares_in_flight j :
  within (spares P) (lift (has_in_flight j : ST system bool) : ST CW bool) /\
  within (spares P) (lift (in_flight_count j : ST system Z) : ST CW Z).
Proof. split; intros [d [m [t o]]]; simpl; reflexivity. Qed.

Ltac spare_one :=
  first
    [ apply spares_call; intros ?; exact I | apply spares_mark | apply spares_deferred | apply spares_get
    | apply spares_in_flight | apply within_lift_bind | apply within_lift_ret; typeclasses eauto
    | lazymatch goal with |- within _ (lift (match ?x with _ => _ end)) => destruct x end ].
Ltac sparing := unfold logged, when; within_each ltac:(spare_one).

Lemma spares_missing_job j : within (spares P) (Controller.handle_missing_job (W := system) self j).
Proof. unfold Controller.handle_missing_job, Controller.cleanup_missing_job_state, logged, when. sparing. Qed.

Lemma spares_clear j :
  within (spares P) (lift (Controller.clear_missing_job_counter (W := system) self j) : ST CW unit).
Proof. unfold Controller.clear_missing_job_counter, when, logged. sparing. Qed.

Lemma spares_result j r : within (spares P) (handle_scale_down_result (W := system) self j r).
Proof. unfold handle_scale_down_result, when, logged. sparing. Qed.

Lemma spares_guards j :
  within (spares P) (deferred_guard (W := system) j) /\
  within (spares P) (lift (in_flight_guard j : ST system bool) : ST CW bool) /\
  within (spares P) (lift (traffic_guard self j : ST system bool) : ST CW bool).
Proof. unfold deferred_guard, in_flight_guard, traffic_guard, logged. split_and!; sparing. Qed.

(** The lookup and the scaling down, under a key that satisfies [P]. *)
Lemma spares_registered j : P j -> within (spares P) (scale_down_registered (W := system) self j).
Proof.
  intros Hj [d [m [t [e tr0]]]]. unfold scale_down_registered.
  unfold bind at 1. simpl. unfold lift at 1. simpl. unfold lift at 1. simpl. unfold lift at 1. simpl.
  unfold traced at 1. simpl. destruct (registry_get j e) as [r e1]. simpl.
  set (s0 := (d, (m, (t, mkTraced e tr0))) : CW).
  set (s1 := (d, (m, (t, mkTraced e1 (tr0 ++ [Call.Lookup j r])))) : CW).
  assert (H01 : spares P s0 s1) by (by apply (spares_step _ _ [Call.Lookup j r]); [| |repeat constructor]).
  destruct r as [[reg|]|err]; [|transitivity s1; [done|]|exact H01].
  2: { match goal with |- spares _ _ (?m s1).2 => assert (Hq : within (spares P) m) end; [|apply Hq].
       unfold logged. sparing. }
  unfold bind at 1. simpl. unfold lift at 1. simpl. unfold lift at 1. simpl. unfold lift at 1. simpl.
  unfold traced at 1. simpl. destruct (scale_down (Core.job_id reg) (nomad_group reg) e1) as [r2 e2]. simpl.
  set (s2 := (d, (m, (t, mkTraced e2 ((tr0 ++ [Call.Lookup j (Ok (Some reg))]) ++
    [Call.ScaleDown (Core.job_id reg) (nomad_group reg) r2])))) : CW).
  transitivity s2.
  { exists [Call.Lookup j (Ok (Some reg)); Call.ScaleDown (Core.job_id reg) (nomad_group reg) r2].
    split_and!; [unfold calls; simpl; by rewrite <- app_assoc|done|]. intros k g r Hin. exists j, reg.
    split; [by left|]. split; [|done]. apply elem_of_cons in Hin as [?|Hin]; [done|].
    apply list_elem_of_singleton in Hin. by simplify_eq. }
  match goal with |- spares _ _ (?m s2).2 => assert (Hq : within (spares P) m) end; [|apply Hq].
  destruct r2 as [[]|err]; [|destruct err]; first [apply spares_missing_job|unfold handle_scale_down_result];
    unfold logged, when; within_each ltac:(first [apply spares_clear | spare_one]).
Qed.
End spares.

(** A tick scales down only jobs without requests in flight under the name it
    looked them up by. *)
Definition spares_busy (s s' : CW) : Prop :=
  spares (fun k => InFlight.has_in_flight k (tracker_of s.2) = false) s s'.

#[local] Instance spares_busy_preorder : PreOrder spares_busy.
Proof.
  split; [intros s; unfold spares_busy; reflexivity|].
  intros s1 s2 s3 H12 H23. unfold spares_busy in *. transitivity s2; [done|].
  destruct H12 as (tr & _ & Ht & _). by rewrite <- Ht.
Qed.

Lemma spares_due j : within spares_busy (scale_down_due (W := system) self j).
Proof.
  intros s. unfold spares_busy. set (P := fun k => InFlight.has_in_flight k (tracker_of s.2) = false).
  unfold scale_down_due. destruct (spares_guards P j) as (_ & Hf & Ht). unfold bind at 1.
  assert (Hp : (lift (in_flight_guard j : ST system bool) s).1 = false -> P j).
  { destruct s as [d [m [t o]]]. unfold P, in_flight_guard, bind, lift. simpl. unfold lift, ret. simpl.
    destruct (InFlight.has_in_flight j t) eqn:Eb; [|done]. unfold logged, bind, lift, ret. simpl.
    unfold lift, traced. simpl. by destruct (record_activity j _). }
  specialize (Hf s). destruct (lift (in_flight_guard j : ST system bool) s) as [[] s1]; simpl in *; [done|].
  transitivity s1; [done|].
  match goal with |- spares _ _ (?m s1).2 => assert (Hq : within (spares P) m) end; [|apply Hq].
  apply within_bind; [apply _|done|]. intros [|]; [apply within_ret, _|].
  by apply spares_registered, Hp.
Qed.

Lemma spares_busy_call {A} (ev : A -> Call.t) (m : ST E A) :
  (forall a, not_scale_down (ev a)) ->
  within spares_busy (lift (lift (lift (traced ev m)) : ST system A) : ST CW A).
Proof. intros Hev s. by apply spares_call. Qed.

Lemma spares_tick : within spares_busy (system_tick wake_timeout self).
Proof.
  assert (Hjob : forall j, within spares_busy (scale_down_job (W := system) self j)).
  { intros j. unfold scale_down_job. apply within_bind; [apply _|intros s; apply spares_guards|].
    intros [|]; [apply within_ret, _|apply spares_due]. }
  assert (Hjobs : forall l, within spares_busy (scale_down_jobs (W := system) self l)).
  { induction l as [|j l IH]; simpl; [apply within_ret, _|].
    apply within_bind; try typeclasses eauto; [apply spares_busy_call; intros ?; exact I|]. intros [].
    - apply within_ret, _.
    - apply within_bind; try typeclasses eauto; [apply Hjob|]. intros. exact IH. }
  unfold system_tick, tick, drop_lock_guard, logged. within_each ltac:(first [apply Hjobs
    | apply spares_busy_call; intros ?; exact I | apply within_lift_bind | apply within_lift_ret; typeclasses eauto]).
Qed.
End lifecycle.

(** ** Allocation events *)

(** The event reports that an allocation of the job has stopped. *)
Definition reports_stop (event : NomadEvent) (job : JobId) : Prop :=
  event_topic event = "Allocation" /\
  exists alloc, Json.get "Allocation" (event_payload event) = Some alloc /\
    (x ← Json.get "JobID" alloc; as_str x) = Some job /\
    str_field "ClientStatus" alloc <> "running" /\
    (str_field "ClientStatus" alloc ∈ ["complete"; "failed"; "lost"] \/ str_field "DesiredStatus" alloc = "stop").

Section events.
Context {E : Type} `{Orchestrator E, ServiceDiscovery E, ActivityStore E, MissingJobTracker E, Registry E,
  Probe E, Clock E, Cancellation E, Backend E, Upgrade E, Heartbeats E, Peer E, Patience E}.
Context (wake_timeout : Z).
#[local] Instance event_coord : Coordinator (sys E) := system_coordinator wake_timeout.

Definition system_event (event : NomadEvent) : M (gset string * sys E) unit :=
  handle_event (W := sys E) event.

(** The stop of an allocation of a registered job: the job's lookup, the removal
    of its activity, and the job asleep. *)
Lemma stop_event_run event job seen (s : sys E) :
  reports_stop event job ->
  let s1 := (system_event event (seen, s)).2.2 in
  exists r, (calls s1 = calls s ++ [Call.Lookup job r] /\ (forall reg, r <> Ok (Some reg)) /\ awake_of s1 = awake_of s) \/
    exists reg r1, r = Ok (Some reg) /\
      calls s1 = calls s ++ [Call.Lookup job r; Call.RemoveActivity job r1] /\ awake_of s1 = delete job (awake_of s).
Proof.
  intros (Ht & alloc & Ha & Hj & Hc & Hs). destruct s as [m [t [e tr0]]].
  unfold system_event, handle_event, handle_allocation_event.
  rewrite bool_decide_true, Ha, Hj by done. unfold try, bind, lift, calls, awake_of. simpl. unfold lift, traced. simpl.
  destruct (registry_get job e) as [[[reg|]|err] e1]; simpl.
  - rewrite bool_decide_false by done. simpl.
    replace (_ || _) with true.
    2: { symmetry. apply orb_true_iff. rewrite !bool_decide_eq_true. tauto. }
    unfold bind, lift, modify_st, ret. simpl. unfold lift, traced. simpl.
    destruct (remove_activity job e1) as [r1 e2]. simpl.
    exists (Ok (Some reg)). right. exists reg, r1. by rewrite <- app_assoc.
  - exists (Ok None). by left.
  - exists (Err err). by left.
Qed.
End events.

(** ** Theorems *)

(** C7.  The controller and the in-flight tracker together, in any environment: a
    job with a live guard (fewer than [2^64] of them) is not scaled down by a
    tick of the controller, as long as the tick finds every job under its own
    name; the requests the proxy is serving protect their job. *)
Theorem busy_jobs_are_spared E `{Orchestrator E, ServiceDiscovery E, ActivityStore E, MissingJobTracker E,
    Registry E, Probe E, Clock E, Cancellation E, Backend E, Upgrade E, Heartbeats E, Peer E, Patience E}
    wake_timeout self d (s : sys E) tr guards j guard :
  tracker_inv (tracker_of s, guards) -> live j guards < 2 ^ 64 -> (j, guard) ∈ guards ->
  calls (system_tick wake_timeout self (d, s)).2.2 = calls s ++ tr -> own_names tr ->
  forall g r, Call.ScaleDown j g r ∉ tr.
Proof.
  intros Ht Hlt Hin Hc Hown g r Hdown.
  destruct (spares_tick wake_timeout self (d, s)) as (tr' & Hc' & _ & Hsp). simpl in Hc'.
  rewrite Hc in Hc'. apply app_inv_head in Hc' as <-.
  destruct (Hsp _ _ _ Hdown) as (k & reg & Hk & Hj & Hb). simpl in Hb.
  apply Hown in Hk as Hkj. rewrite <- Hkj, Hj, has_in_flight_count in Hb.
  apply bool_decide_eq_false in Hb. apply Hb.
  pose proof (count_live (tracker_of s, guards) j Ht) as Hq. cbn [fst snd] in Hq. rewrite Hq.
  rewrite wrap_small by (pose proof (live_nonneg j guards); lia).
  apply list_elem_of_split in Hin as (l1 & l2 & ->).
  rewrite live_app. change ((j, guard) :: l2) with ([(j, guard)] ++ l2). rewrite live_app, live_one, decide_True by done.
  pose proof (live_nonneg j l1). pose proof (live_nonneg j l2). lia.
Qed.

(** C20.  The event processor, the coordinator and the proxy handler together, in
    any environment: when Nomad reports that an allocation of a job has stopped
    and the processor found the job registered, the next request that contacts a
    backend for the job has had it scaled up again first.  One stopped allocation
    is enough, whatever the job's others do; that is what the code does and what
    the comment at the call says, while the type's documentation speaks of all
    allocations (a finding). *)
Theorem stopped_job_is_woken_again E `{Orchestrator E, ServiceDiscovery E, ActivityStore E, MissingJobTracker E,
    Registry E, Probe E, Clock E, Cancellation E, Backend E, Upgrade E, Heartbeats E, Peer E, Patience E}
    wake_timeout state req event seen (s : sys E) tr1 tr2 j reg0 a c b :
  let s1 := (system_event wake_timeout event (seen, s)).2.2 in
  reports_stop event j ->
  calls s1 = calls s ++ tr1 -> Call.Lookup j (Ok (Some reg0)) ∈ tr1 ->
  calls (system_request wake_timeout state req s1).2 = calls s1 ++ tr2 -> tr2 = a ++ c :: b -> contacts c ->
  exists k reg, Call.Lookup k (Ok (Some reg)) ∈ a /\
    (Core.job_id reg = j ->
     Call.ScaleUp j (nomad_group reg) 1 (Ok tt) ∈ a /\
     exists ep, Call.WaitHealthy (service_name reg) wake_timeout (Ok ep) ∈ a).
Proof.
  intros s1 Hstop Htr1 Hl Htr2 Heq Hc.
  assert (Hsleep : awake_of s1 !! j = None).
  { destruct (stop_event_run wake_timeout event j seen s Hstop) as (r & [(Hr & Hno & _)|(reg & r1 & _ & _ & Hm)]).
    - fold s1 in Hr. rewrite Hr in Htr1. apply app_inv_head in Htr1 as <-.
      apply list_elem_of_singleton in Hl. injection Hl as Hl. by destruct (Hno reg0).
    - fold s1 in Hm. rewrite Hm. apply lookup_delete_eq. }
  destruct (request_contacts wake_timeout state req s1 tr2 Htr2 a c b Heq Hc) as (k & reg & Hk & [Hs|Hw]).
  - exists k, reg. split; [done|]. intros Hj. rewrite Hj, Hsleep in Hs. by destruct Hs.
  - exists k, reg. split; [done|]. by intros <-.
Qed.

(** ** Concrete runs *)
Module Busy.
Import Run.
(** A request for [web] is in flight; the activity store reports the job idle. *)
Definition taken : InFlightGuard * InFlightTracker := track "web" new_tracker.
Definition start : sys Toy.world := ({["web" := Toy.addr]}, (taken.2, mkTraced env [])).
Definition ticked : sys Toy.world := (system_tick wake_timeout self (∅, start)).2.2.
End Busy.

Lemma busy_jobs_are_spared_witness :
  let tr := Run.later_calls Busy.start Busy.ticked in
  Call.GetIdleJobs (duration_from_secs 300) (Ok ["web"]) ∈ tr /\ forall g r, Call.ScaleDown "web" g r ∉ tr.
Proof.
  split; [vm_compute; do 1 right; left|].
  apply (busy_jobs_are_spared Toy.world Run.wake_timeout Run.self ∅ Busy.start
    (Run.later_calls Busy.start Busy.ticked) [("web", Busy.taken.1)] "web" Busy.taken.1).
  - apply (tracker_inv_step (Track "web") (new_tracker, [])); [apply tracker_inv_new|reflexivity].
  - vm_compute. reflexivity.
  - by left.
  - vm_compute. reflexivity.
  - intros k reg Hin. vm_compute in Hin.
    repeat (apply elem_of_cons in Hin as [Hin|Hin]; [discriminate Hin|]). by apply elem_of_nil in Hin.
Defined.

Module Stopped.
Import Run.
Definition event : NomadEvent := TwoAllocations.stopped.
Definition after_event : sys Toy.world := (system_event wake_timeout event (∅, awoken)).2.2.
Definition served := system_request wake_timeout Run.state req after_event.
End Stopped.

Lemma stopped_job_is_woken_again_witness :
  let tr1 := Run.later_calls Run.awoken Stopped.after_event in
  let tr2 := Run.later_calls Stopped.after_event Stopped.served.2 in
  reports_stop Stopped.event "web" /\ contacts (Run.at_contact tr2) /\
  exists k reg, Call.Lookup k (Ok (Some reg)) ∈ Run.before tr2 /\
    (Core.job_id reg = "web" ->
     Call.ScaleUp "web" (nomad_group reg) 1 (Ok tt) ∈ Run.before tr2 /\
     exists ep, Call.WaitHealthy (service_name reg) Run.wake_timeout (Ok ep) ∈ Run.before tr2).
Proof.
  assert (Hstop : reports_stop Stopped.event "web").
  { split; [done|]. eexists. split; [vm_compute; reflexivity|]. split; [done|]. split; [done|]. by right. }
  split; [exact Hstop|]. split; [exact I|].
  apply (stopped_job_is_woken_again Toy.world Run.wake_timeout Run.state Run.req Stopped.event ∅ Run.awoken
    (Run.later_calls Run.awoken Stopped.after_event) (Run.later_calls Stopped.after_event Stopped.served.2) "web" Run.web
    (Run.before (Run.later_calls Stopped.after_event Stopped.served.2))
    (Run.at_contact (Run.later_calls Stopped.after_event Stopped.served.2))
    (Run.after (Run.later_calls Stopped.after_event Stopped.served.2))).
  - exact Hstop.
  - vm_compute. reflexivity.
  - vm_compute. left.
  - vm_compute. reflexivity.
  - vm_compute. reflexivity.
  - exact I.
Defined.

(** The in-flight check does not see a request under the job's other name: the
    proxy counts the request of [svc.localhost] under the registered job [web],
    the tick asks the tracker about [svc], the name in the activity store, and
    scales [web] down while the request is in flight. *)
Module BusyAlias.
Import Run.
Definition start : sys Toy.world := ({["web" := Toy.addr]}, (Busy.taken.2, mkTraced Alias.env [])).
Definition ticked : sys Toy.world := (system_tick wake_timeout self (∅, start)).2.2.
End BusyAlias.

Theorem alias_in_flight_is_scaled_down :
  count "web" (tracker_of BusyAlias.start) = 1 /\
  Call.ScaleDown "web" "main" (Ok tt) ∈ Run.later_calls BusyAlias.start BusyAlias.ticked /\
  count "web" (tracker_of BusyAlias.ticked) = 1.
Proof. split; [reflexivity|]. split; [vm_compute; do 4 right; left|reflexivity]. Qed.
