(* ===== verification/Admin.v ===== *)
(** * Admin: the admin API

    Models the handlers of [src/main.rs]: health, readiness, submitting and
    purging jobs, registering and syncing registrations.  The extractors that
    parse the request are the framework's; a handler takes what they extract. *)

From S2P Require Import Prelude Str F64 Core Json Http Waker Ifaces Trace Nomad JobMutator Redis.
Local Open Scope Z_scope.

Inductive admin_body : Type := Text (s : string) | JsonBody (v : Value.t).
Record admin_response := mkAdminResponse { admin_status : Z; admin_content : admin_body }.

Definition OK : Z := 200.
Definition CREATED : Z := 201.
Definition MULTI_STATUS : Z := 207.
Definition ADMIN_BAD_REQUEST : Z := 400.
Definition CONFLICT : Z := 409.
Definition ADMIN_SERVER_ERROR : Z := 500.
Definition ADMIN_BAD_GATEWAY : Z := 502.
Definition ADMIN_UNAVAILABLE : Z := 503.

Record AdminState := mkAdminState { admin_nomad : NomadClient; file_provider_service : string }.
Record SubmitJobRequest := mkSubmitJobRequest { hcl : string; submit_variables : option string }.
Record RegistrationFailure := mkRegistrationFailure { failed_service : string; failure : string }.

Definition de_SubmitJobRequest : Value.t -> option SubmitJobRequest := de_object (fun m =>
  h ← field de_string "hcl" m;
  v ← field_option de_string "variables" m;
  Some (mkSubmitJobRequest h v)).
(** [DeleteJobQuery]: its only field. *)
Definition de_DeleteJobQuery : Value.t -> option bool := de_object (fun m => field_default false de_bool "force" m).

Definition ser_RegistrationFailure (f : RegistrationFailure) : Value.t :=
  Value.Object [("service_name", Value.Str (failed_service f)); ("error", Value.Str (failure f))].

Definition error_json (e : string) : Value.t := Value.Object [("error", Value.Str e)].

(** [SubmitJobResponse], serialized. *)
Definition ser_SubmitJobResponse (job_id eval_id : string) (index : Z) (warnings : option string)
    (services : list JobRegistration) (failures : list RegistrationFailure) : Value.t :=
  Value.Object ([("job_id", Value.Str job_id); ("eval_id", Value.Str eval_id);
                 ("job_modify_index", Value.PosInt index)]
    ++ ser_skip "warnings" (Value.Str <$> warnings)
    ++ [("managed_services", Value.Array (map ser_JobRegistration services))]
    ++ match failures with
       | [] => []
       | _ => [("registration_failures", Value.Array (map ser_RegistrationFailure failures))]
       end).

Definition healthz : admin_response := mkAdminResponse OK (Text "ok").

Definition admin_error_status (e : NscaleError.t) : Z :=
  match e with NscaleError.Http _ => ADMIN_BAD_GATEWAY | _ => ADMIN_BAD_REQUEST end.

Section admin.
Context {W : Type} `{HttpClient W, ActivityStore W, MissingJobTracker W, Registry W, Coordinator W, InFlight W}.
Context (state : AdminState).

Definition readyz : ST W admin_response := (
  let* r := registry_list_all in
  match r with
  | Ok _ => ret (mkAdminResponse OK (Text "ready"))
  | Err e => ret (mkAdminResponse ADMIN_UNAVAILABLE (Text ("not ready: " +:+ error_to_string e)))
  end)%st.

Definition warn_on {A} (what : string) (r : Result A) : list string :=
  match r with Ok _ => [] | Err e => [what +:+ error_to_string e] end.

Definition cleanup_admin_job_state (job_id : JobId) : M W (list string) := (
  do* mark_dormant job_id in
  let* r1 := remove_activity job_id in
  do? registry_deregister job_id in
  let* r2 := clear_not_found job_id in
  ret (Ok (warn_on "failed to remove activity: " r1 ++ warn_on "failed to clear missing-job counter: " r2)))%st.

(** After Nomad has purged the job or reported it missing. *)
Definition finish_purge (job_id : JobId) (force : bool) (in_flight : Z) (eval_id : option string)
    : ST W admin_response := (
  let purged := bool_decide (is_Some eval_id) in
  let* r := cleanup_admin_job_state job_id in
  match r with
  | Err e => ret (mkAdminResponse ADMIN_SERVER_ERROR (JsonBody (Value.Object
      [("error", Value.Str (error_to_string e)); ("job_id", Value.Str job_id); ("purged", Value.Bool purged)])))
  | Ok warnings => ret (mkAdminResponse OK (JsonBody (Value.Object
      [("job_id", Value.Str job_id); ("purged", Value.Bool purged); ("force", Value.Bool force);
       ("in_flight", Value.PosInt in_flight); ("eval_id", ser_option (Value.Str <$> eval_id));
       ("warnings", Value.Array (map Value.Str warnings))])))
  end)%st.

Definition admin_purge_job (job_id : JobId) (force : bool) : ST W admin_response := (
  let* in_flight := in_flight_count job_id in
  if bool_decide (0 < in_flight) && negb force then
    ret (mkAdminResponse CONFLICT (JsonBody (Value.Object
      [("error", Value.Str "job has in-flight proxied requests; retry with force=true to purge anyway");
       ("job_id", Value.Str job_id); ("in_flight", Value.PosInt in_flight)])))
  else
    let* r := stop_and_purge_job (admin_nomad state) job_id in
    match r with
    | Ok response => finish_purge job_id force in_flight (Some (stop_eval_id response))
    | Err (NscaleError.JobNotFound _) => finish_purge job_id force in_flight None
    | Err e => ret (mkAdminResponse ADMIN_BAD_GATEWAY (JsonBody (Value.Object
        [("error", Value.Str (error_to_string e)); ("job_id", Value.Str job_id)])))
    end)%st.

(** The loop over the managed services: the jobs registered and the failures. *)
Fixpoint register_services (services : list JobRegistration) : ST W (list JobId * list RegistrationFailure) := (
  match services with
  | [] => ret ([], [])
  | reg :: services' =>
      let* r := registry_register reg in
      let* rest := register_services services' in
      match r with
      | Ok _ => ret (set_insert (job_id reg) rest.1, rest.2)
      | Err e => ret (rest.1, mkRegistrationFailure (service_name reg) (error_to_string e) :: rest.2)
      end
  end)%st.

(** Once the job is submitted. *)
Definition register_submitted (services : list JobRegistration) (first : JobRegistration)
    (resp : JobSubmitResponse) : ST W admin_response := (
  let* sf := register_services services in
  do* for_each (fun j => bind (record_activity j) (fun _ => ret tt)) sf.1 in
  let status := match sf.2 with [] => CREATED | _ => MULTI_STATUS end in
  let warnings := w ← submit_warnings resp; if bool_decide (w = "") then None else Some w in
  ret (mkAdminResponse status (JsonBody (ser_SubmitJobResponse (job_id first) (submit_eval_id resp)
    (submit_job_modify_index resp) warnings services sf.2))))%st.

Definition admin_submit_job (request : SubmitJobRequest) : ST W admin_response := (
  let* parsed := parse_job (admin_nomad state) (hcl request) (submit_variables request) in
  match parsed with
  | Err e => ret (mkAdminResponse (admin_error_status e) (JsonBody (error_json (error_to_string e))))
  | Ok parsed_job =>
      match inject_nscale_tags (file_provider_service state) parsed_job with
      | Err e => ret (mkAdminResponse ADMIN_BAD_REQUEST (JsonBody (error_json (error_to_string e))))
      | Ok (_, []) => ret (mkAdminResponse ADMIN_BAD_REQUEST (JsonBody
          (error_json "parsed job does not contain any Traefik-enabled services for nscale")))
      | Ok (job, first :: services) =>
          let* r := submit_job (admin_nomad state) job in
          match r with
          | Err e => ret (mkAdminResponse (admin_error_status e) (JsonBody (error_json (error_to_string e))))
          | Ok resp => register_submitted (first :: services) first resp
          end
      end
  end)%st.

Definition admin_register (reg : JobRegistration) : ST W admin_response := (
  let* r := registry_register reg in
  match r with
  | Ok _ =>
      let* _ := record_activity (job_id reg) in
      ret (mkAdminResponse CREATED (Text "registered"))
  | Err e => ret (mkAdminResponse ADMIN_SERVER_ERROR (Text ("error: " +:+ error_to_string e)))
  end)%st.

(** The loop of [admin_sync]: the counters are [u32]. *)
Fixpoint sync_registrations (regs : list JobRegistration) (ok failed : Z) : ST W (Z * Z) := (
  match regs with
  | [] => ret (ok, failed)
  | reg :: regs' =>
      let* r := registry_register reg in
      match r with
      | Ok _ =>
          let* _ := record_activity (job_id reg) in
          sync_registrations regs' (wrap 32 (ok + 1)) failed
      | Err _ => sync_registrations regs' ok (wrap 32 (failed + 1))
      end
  end)%st.

Definition admin_sync (regs : list JobRegistration) : ST W admin_response := (
  let* n := sync_registrations regs 0 0 in
  ret (mkAdminResponse OK (JsonBody (Value.Object
    [("synced", Value.PosInt n.1); ("failed", Value.PosInt n.2);
     ("total", Value.PosInt (Z.of_nat (length regs)))]))))%st.

End admin.

(** ** What the handlers call *)

Section emits_admin.
Context {W : Type} `{HttpClient W, ActivityStore W, MissingJobTracker W, Registry W, Coordinator W, InFlight W}.
Context (state : AdminState).
Abbreviation TW := (Traced Call.t W).

Definition api_request (me : Method) (path : string) (body : option Value.t) : request :=
  mkRequest me (nomad_url (admin_nomad state) path) body.

(** A reply that was accepted and read as [a]. *)
Definition accepted {A} (de : Value.t -> option A) (reply : res reqwest_error response) (a : A) : Prop :=
  exists resp, reply = Ok resp /\ is_success (resp_status resp) = true /\
    resp_json (W := TW) de resp = Ok a.

(** A reply that says the job is not there. *)
Definition missing_reply (reply : res reqwest_error response) : Prop :=
  exists resp, reply = Ok resp /\ is_success (resp_status resp) = false /\
    (resp_status resp = 404 \/
     contains "job not found" (to_ascii_lowercase (text_or_default resp)) = true).

Lemma emits_api {A} (de : Value.t -> option A) me mes path body :
  emits (W := TW)
    (try (call (admin_nomad state) me path body) (fun resp =>
     try (ret (ensure_success resp mes path)) (fun resp => decoded de resp)))
    (fun tr r => exists reply, tr = [Call.Send (api_request me path body) reply] /\
       forall a, r = Ok a -> accepted de reply a).
Proof.
  eapply emits_try; [apply emits_send|..].
  - intros tr resp ([reply|e] & -> & Hr); simplify_eq/=. unfold ensure_success.
    destruct (is_success (resp_status reply)) eqn:Hs; apply emits_ret; simpl; exists (Ok reply); (split; [done|]).
    + intros a Ha. exists reply. split; [done|]. split; [done|].
      destruct (resp_json de reply) as [x|e] eqn:Ej; simpl in Ha; by simplify_eq.
    + done.
  - intros tr e ([reply|e'] & -> & Hr); simplify_eq/=. by exists (Err e').
Qed.

Lemma emits_purge job :
  emits (W := TW) (stop_and_purge_job (admin_nomad state) job) (fun tr r =>
    exists reply, tr = [Call.Send (api_request DELETE ("/v1/job/" +:+ job +:+ "?purge=true") None) reply] /\
      (forall a, r = Ok a -> accepted de_JobStopResponse reply a) /\
      (forall j, r = Err (NscaleError.JobNotFound j) -> missing_reply reply)).
Proof.
  unfold stop_and_purge_job. cbv zeta. eapply emits_try; [apply emits_send|..].
  - intros tr resp ([reply|e] & -> & Hr); simplify_eq/=. unfold ensure_job_success.
    destruct (is_success (resp_status reply)) eqn:Hs; apply emits_ret; simpl; exists (Ok reply); (split; [done|]); split.
    + intros a Ha. exists reply. split; [done|]. split; [done|].
      destruct (resp_json de_JobStopResponse reply) as [x|e] eqn:Ej; simpl in Ha; by simplify_eq.
    + intros j Ha. by destruct (resp_json de_JobStopResponse reply).
    + done.
    + intros j Ha. exists reply. split; [done|]. split; [done|]. injection Ha as Ha.
      unfold classify_job_error in Ha. case_bool_decide; [by left|]. simpl in Ha.
      destruct (contains _ _); [by right|done].
  - intros tr e ([reply|e'] & -> & Hr); simplify_eq/=. exists (Err e'). split; [done|]. by split.
Qed.

(** Cleaning up after a purge, with the status it answers. *)
Inductive cleaned (job : JobId) : list Call.t -> Z -> Prop :=
| CleanupFailed r1 e :
    cleaned job [Call.MarkDormant job; Call.RemoveActivity job r1; Call.Deregister job (Err e)] ADMIN_SERVER_ERROR
| CleanedUp r1 r3 :
    cleaned job [Call.MarkDormant job; Call.RemoveActivity job r1; Call.Deregister job (Ok tt);
                 Call.ClearNotFound job r3] OK.

Lemma emits_finish_purge job force n eval :
  emits (W := TW) (finish_purge job force n eval) (fun tr r => cleaned job tr (admin_status r)).
Proof.
  unfold finish_purge, cleanup_admin_job_state. eapply emits_bind with (P := fun tr c =>
    cleaned job tr (match c with Ok _ => OK | Err _ => ADMIN_SERVER_ERROR end)).
  - emit. intros ? [] ->. emit. intros ? r1 ->. emit.
    + intros ? [] ->. emit. intros ? r3 ->. apply emits_ret. constructor.
    + intros ? e ->. constructor.
  - intros tr [ws|e] Hc; apply emits_ret; by rewrite app_nil_r.
Qed.

Definition purge_request (job : JobId) : request :=
  api_request DELETE ("/v1/job/" +:+ job +:+ "?purge=true") None.

(** The calls of a purge, with the status it answers. *)
Inductive purge_run (job : JobId) (force : bool) : list Call.t -> Z -> Prop :=
| PurgeRefused n :
    0 < n -> force = false -> purge_run job force [Call.InFlightCount job n] CONFLICT
| PurgeFailed n reply :
    n <= 0 \/ force = true ->
    purge_run job force [Call.InFlightCount job n; Call.Send (purge_request job) reply] ADMIN_BAD_GATEWAY
| Purged n reply rest st :
    n <= 0 \/ force = true ->
    (exists a, accepted de_JobStopResponse reply a) \/ missing_reply reply ->
    cleaned job rest st ->
    purge_run job force (Call.InFlightCount job n :: Call.Send (purge_request job) reply :: rest) st.

(** Every run of [admin_purge_job] is one of these. *)
Lemma purge_calls job force :
  emits (W := TW) (admin_purge_job state job force) (fun tr r => purge_run job force tr (admin_status r)).
Proof.
  unfold admin_purge_job. emit. intros ? n ->. destruct (bool_decide (0 < n) && negb force) eqn:Hg.
  - apply andb_true_iff in Hg as [Hn%bool_decide_eq_true Hf%negb_true_iff]. apply emits_ret. by constructor.
  - assert (Hopen : n <= 0 \/ force = true).
    { apply andb_false_iff in Hg as [Hn%bool_decide_eq_false|Hf%negb_false_iff]; [left; lia|by right]. }
    eapply emits_bind; [apply emits_purge|]. intros tr r (reply & -> & Hok & Hmissing).
    assert (Hclean : forall eval, (exists a, accepted de_JobStopResponse reply a) \/ missing_reply reply ->
      emits (W := TW) (finish_purge job force n eval) (fun tr' r => purge_run job force
        ([Call.InFlightCount job n] ++ [Call.Send (purge_request job) reply] ++ tr') (admin_status r))).
    { intros eval Hr. eapply emits_mono; [apply emits_finish_purge|]. intros tr x Hx. by apply Purged. }
    destruct r as [resp|e]; [apply Hclean; left; eauto|].
    destruct e; try (apply Hclean; right; eauto; fail); apply emits_ret; by apply PurgeFailed.
Qed.

(** C24.  A purge respects the requests in progress: with requests in flight for
    the job and without force nothing is sent and the answer is 409; otherwise
    Nomad is asked to purge the job, and what nscale knows about it is cleaned
    up only when Nomad has accepted the purge or says the job does not exist;
    any other failure answers 502 and touches nothing, and a failing cleanup
    answers 500. *)
Theorem purge_respects_requests job force :
  emits (W := TW) (admin_purge_job state job force) (fun tr r => purge_run job force tr (admin_status r)).
Proof. apply purge_calls. Qed.

(** ** Submitting a job *)

(** Registering the services of a submitted job, each once, in order. *)
Definition registrations_tried (services : list JobRegistration) (rs : list (Result unit)) : list Call.t :=
  zip_with Call.Register services rs.

Lemma emits_register_services services :
  emits (W := TW) (register_services services) (fun (tr : list Call.t) out => exists rs : list (Result unit),
    length rs = length services /\ tr = registrations_tried services rs /\
    (out.2 = [] <-> Forall (fun r => r = Ok tt) rs)).
Proof.
  induction services as [|reg services IH]; simpl.
  - apply emits_ret. by exists [].
  - emit. intros ? r ->. eapply emits_bind; [exact IH|]. intros tr out (rs & Hl & -> & Hok).
    destruct r as [[]|e]; apply emits_ret; rewrite app_nil_r.
    + exists (Ok tt :: rs). split; [simpl; by rewrite Hl|]. split; [done|]. simpl. rewrite Forall_cons. tauto.
    + exists (Err e :: rs). split; [simpl; by rewrite Hl|]. split; [done|]. simpl. rewrite Forall_cons.
      split; [done|]. by intros [? _].
Qed.

Definition parse_request (req : SubmitJobRequest) : request :=
  api_request POST "/v1/jobs/parse" (Some (ser_ParseJobRequest (mkParseJobRequest (hcl req) true (submit_variables req)))).
Definition submit_request (job : Value.t) : request :=
  api_request POST "/v1/jobs" (Some (ser_JobSubmitRequest (mkJobSubmitRequest job))).

Definition refused (st : Z) : Prop := st = ADMIN_BAD_REQUEST \/ st = ADMIN_BAD_GATEWAY.

(** The calls of a submission, with the status it answers. *)
Inductive submit_run (req : SubmitJobRequest) : list Call.t -> Z -> Prop :=
| SubmitUnparsed reply st :
    refused st -> submit_run req [Call.Send (parse_request req) reply] st
| SubmitRejected reply parsed job services reply' st :
    accepted de_value reply parsed -> refused st ->
    inject_nscale_tags (file_provider_service state) parsed = Ok (job, services) -> services <> [] ->
    submit_run req [Call.Send (parse_request req) reply; Call.Send (submit_request job) reply'] st
| Submitted reply parsed job services reply' resp rs seeds :
    accepted de_value reply parsed ->
    inject_nscale_tags (file_provider_service state) parsed = Ok (job, services) -> services <> [] ->
    accepted de_JobSubmitResponse reply' resp -> length rs = length services ->
    Forall (fun c => exists j r, c = Call.RecordActivity j r) seeds ->
    submit_run req
      (Call.Send (parse_request req) reply :: Call.Send (submit_request job) reply'
       :: registrations_tried services rs ++ seeds)
      (if decide (Forall (fun r => r = Ok tt) rs) then CREATED else MULTI_STATUS).

(** A submitted job is the rewritten one, and it is registered after Nomad
    has it: the handler has Nomad parse the job, sends Nomad the job with its
    routers pointed at nscale, and only after Nomad has
    accepted it registers every managed service, each once, answering 201 when
    all registrations succeeded and 207 when one failed; a job that does not
    parse, cannot be rewritten or has no managed service is never submitted. *)
Theorem submission_is_rewritten req :
  emits (W := TW) (admin_submit_job state req) (fun tr r => submit_run req tr (admin_status r)).
Proof.
  assert (Hst : forall e, refused (admin_error_status e)) by (intros []; unfold refused; simpl; auto).
  unfold admin_submit_job. eapply emits_bind; [apply (emits_api de_value)|].
  intros tr r (reply & -> & Hok). destruct r as [parsed|e]; [|apply emits_ret, SubmitUnparsed, Hst].
  specialize (Hok parsed eq_refl).
  destruct (inject_nscale_tags _ parsed) as [[job [|first services]]|e] eqn:Hi;
    [apply emits_ret; apply SubmitUnparsed; by left| |apply emits_ret; apply SubmitUnparsed; by left].
  eapply emits_bind; [apply (emits_api de_JobSubmitResponse)|]. intros tr' r (reply' & -> & Hok').
  destruct r as [resp|e]; [|apply emits_ret; eapply SubmitRejected; [done|apply Hst|done..]].
  specialize (Hok' resp eq_refl). unfold register_submitted.
  eapply emits_bind; [apply emits_register_services|]. intros tr out (rs & Hl & -> & Hall).
  eapply emits_bind; [apply (emits_for_each _ (fun c => exists j r, c = Call.RecordActivity j r))|].
  { intros j _. emit. intros ? r ->. apply emits_ret. apply Forall_singleton. eauto. }
  intros seeds [] Hseeds. apply emits_ret. rewrite app_nil_r. cbn [admin_status].
  replace (match out.2 with [] => CREATED | _ => MULTI_STATUS end)
    with (if decide (Forall (fun r => r = Ok tt) rs) then CREATED else MULTI_STATUS).
  { by eapply Submitted. }
  revert Hall. destruct (out.2); intros Hall; case_decide as Hd; try done; [by destruct Hd; apply Hall|].
  by apply Hall in Hd.
Qed.
End emits_admin.
