(* ===== verification/AdminRoutes.v ===== *)
(** * AdminRoutes: the admin API's router

    Models the admin router [main] builds: its table of paths, methods and
    handlers, and the extractors the handlers ask for.  How [axum] matches a
    path against a pattern, decodes a body or a query and words a rejection is
    the framework's, a class here. *)

From S2P Require Import Prelude Str F64 Core Json Http Waker Ifaces Trace Toy Nomad JobMutator Redis Admin.
From Stdlib Require Import Ascii.
Local Open Scope Z_scope.

Record admin_request := mkAdminRequest {
  ar_method : Method; ar_path : string; ar_query : string; ar_headers : list (string * string); ar_body : string }.

Definition METHOD_NOT_ALLOWED : Z := 405.

(** What the framework does: whether a path matches a pattern, with the values
    of the pattern's parameters; a handler's [Json] and [Query] arguments, or the
    rejection that is sent instead. *)
Class Framework := {
  path_matches : string -> string -> option (list string);
  extract_json : forall {A}, (Value.t -> option A) -> admin_request -> res admin_response A;
  extract_query : forall {A}, (Value.t -> option A) -> admin_request -> res admin_response A;
  missing_path_param : admin_response }.

Section routes.
Context {W : Type} `{HttpClient W, ActivityStore W, MissingJobTracker W, Registry W, Coordinator W, InFlight W}.
Context `{Framework}.
Context (state : AdminState).

(** A handler with its extractors; the strings are the path's parameters. *)
Abbreviation endpoint := (admin_request -> list string -> ST W admin_response).

(** An argument that is extracted, or its rejection. *)
Definition extracting {A} (r : res admin_response A) (handler : A -> ST W admin_response) : ST W admin_response :=
  match r with Ok a => handler a | Err rejection => ret rejection end.

Definition path_param (params : list string) : res admin_response string :=
  match params with p :: _ => Ok p | [] => Err missing_path_param end.

Definition admin_routes : list (string * (Method * endpoint)) :=
  [("/healthz", (GET, fun _ _ => ret healthz));
   ("/readyz", (GET, fun _ _ => readyz));
   ("/admin/jobs", (POST, fun req _ =>
      extracting (extract_json de_SubmitJobRequest req) (admin_submit_job state)));
   ("/admin/jobs/{job_id}", (DELETE, fun req params =>
      extracting (path_param params) (fun job_id =>
      extracting (extract_query de_DeleteJobQuery req) (fun force => admin_purge_job state job_id force))));
   ("/admin/registry", (POST, fun req _ => extracting (extract_json de_JobRegistration req) admin_register));
   ("/admin/registry/sync", (POST, fun req _ =>
      extracting (extract_json (de_vec de_JobRegistration) req) admin_sync))].

(** A route for [GET] also serves [HEAD], without a body. *)
Definition serves (m m' : Method) : bool :=
  bool_decide (m = m') || bool_decide (m = GET /\ m' = HEAD).

Definition without_body (m : Method) (r : admin_response) : admin_response :=
  if bool_decide (m = HEAD) then mkAdminResponse (admin_status r) (Text "") else r.

(** The first route whose pattern the path matches; a path without a route, and a
    method its route does not serve. *)
Fixpoint dispatch (routes : list (string * (Method * endpoint))) (req : admin_request) : ST W admin_response := (
  match routes with
  | [] => ret (mkAdminResponse 404 (Text ""))
  | (pattern, (m, h)) :: routes' =>
      match path_matches pattern (ar_path req) with
      | Some params =>
          if serves m (ar_method req)
          then let* r := h req params in ret (without_body (ar_method req) r)
          else ret (without_body (ar_method req) (mkAdminResponse METHOD_NOT_ALLOWED (Text "")))
      | None => dispatch routes' req
      end
  end)%st.

Definition admin_router (req : admin_request) : ST W admin_response := dispatch admin_routes req.
End routes.

(** ** What a request can cause *)

Section calls.
Context {W : Type} `{HttpClient W, ActivityStore W, MissingJobTracker W, Registry W, Coordinator W, InFlight W}.
Context `{Framework}.
Context (state : AdminState).
Abbreviation TW := (Traced Call.t W).

(** Every call of a run satisfies [P]. *)
Definition calls_only (P : Call.t -> Prop) {A} (m : ST TW A) : Prop := emits m (fun tr _ => Forall P tr).

Section rules.
Context (P : Call.t -> Prop).

Lemma only_ret {A} (a : A) : calls_only P (ret a).
Proof. by apply emits_ret. Qed.

Lemma only_call {A} (ev : A -> Call.t) (m : ST W A) : (forall a, P (ev a)) -> calls_only P (traced ev m).
Proof. intros HP. apply emits_traced. intros a. by constructor. Qed.

Lemma only_bind {A B} (m : ST TW A) (k : A -> ST TW B) :
  calls_only P m -> (forall a, calls_only P (k a)) -> calls_only P (bind m k).
Proof.
  intros Hm Hk. eapply emits_bind; [exact Hm|]. intros tr a Htr. eapply emits_mono; [apply Hk|].
  intros tr' b Htr'. by apply Forall_app.
Qed.

Lemma only_try {E A B} (m : ST TW (res E A)) (k : A -> ST TW (res E B)) :
  calls_only P m -> (forall a, calls_only P (k a)) -> calls_only P (try m k).
Proof. intros Hm Hk. apply only_bind; [done|]. intros [a|e]; [apply Hk|apply only_ret]. Qed.

Lemma only_map_err {E F A} (f : E -> F) (m : ST TW (res E A)) : calls_only P m -> calls_only P (map_err f m).
Proof. intros Hm. apply only_bind; [done|]. intros. apply only_ret. Qed.

Lemma only_for_each {A} (f : A -> ST TW unit) l : (forall x, calls_only P (f x)) -> calls_only P (for_each f l).
Proof. intros Hf. apply emits_for_each. intros. apply Hf. Qed.
End rules.

(** One statement after the other; a call is of an allowed kind by computation. *)
Ltac only_calls tac :=
  repeat (cbn beta iota zeta;
    lazymatch goal with
    | |- forall _, _ => intros
    | |- calls_only _ (bind _ _) => apply only_bind
    | |- calls_only _ (try _ _) => apply only_try
    | |- calls_only _ (map_err _ _) => apply only_map_err
    | |- calls_only _ (ret _) => apply only_ret
    | |- calls_only _ (for_each _ _) => apply only_for_each
    | |- calls_only _ (match ?x with _ => _ end) => destruct x
    | |- calls_only _ _ => first [tac | apply only_call; intros ?; exact I]
    end).

(** The registry's listing.  It is no mere reading: with empty caches and a durable
    registry it copies the durable registrations into the caches
    ([Registry.list_all]; [Registry.registry_refines] says what it leaves). *)
Definition lists (c : Call.t) : Prop := match c with Call.ListAll _ => True | _ => False end.

(** A call that adds: a request of Nomad's, a registration, an activity. *)
Definition adds (c : Call.t) : Prop :=
  match c with
  | Call.Send r _ => method r = POST
  | Call.Register _ _ | Call.RecordActivity _ _ => True
  | _ => False
  end.

Lemma only_post path body : calls_only adds (call (admin_nomad state) POST path body).
Proof. unfold call, http. apply only_map_err, only_call. done. Qed.

Lemma register_services_adds services : calls_only adds (register_services (W := TW) services).
Proof. induction services as [|reg services IH]; simpl; only_calls ltac:(exact IH). Qed.

Lemma submit_adds req : calls_only adds (admin_submit_job (W := TW) state req).
Proof.
  unfold admin_submit_job, parse_job, submit_job, register_submitted, decoded.
  only_calls ltac:(first [apply only_post | apply register_services_adds]).
Qed.

Lemma sync_adds regs ok failed : calls_only adds (sync_registrations (W := TW) regs ok failed).
Proof. revert ok failed. induction regs as [|reg regs IH]; intros ok failed; simpl; only_calls ltac:(apply IH). Qed.

(** The calls a request's method allows, with the status of the response. *)
Definition allowed (req : admin_request) (tr : list Call.t) (status : Z) : Prop :=
  match ar_method req with
  | GET | HEAD => Forall lists tr
  | POST => Forall adds tr
  | DELETE => tr = [] \/ exists job force, purge_run state job force tr status
  | _ => tr = []
  end.

(** The route of a method keeps to it. *)
Definition route_ok (m : Method) (h : admin_request -> list string -> ST TW admin_response) : Prop :=
  forall req params, serves m (ar_method req) = true ->
    emits (h req params) (fun tr r => allowed req tr (admin_status r)).

Lemma allowed_nil req status : allowed req [] status.
Proof. unfold allowed. destruct (ar_method req); auto. Qed.

Lemma serves_cases m m' : serves m m' = true -> m' = m \/ m = GET /\ m' = HEAD.
Proof.
  unfold serves. rewrite orb_true_iff, !bool_decide_eq_true. intros [->|[-> ->]]; auto.
Qed.

Lemma get_route h : (forall req params, calls_only lists (h req params)) -> route_ok GET h.
Proof.
  intros Hh req params Hs. eapply emits_mono; [apply Hh|]. intros tr r Htr. unfold allowed.
  destruct (serves_cases _ _ Hs) as [->|[_ ->]]; done.
Qed.

Lemma post_route h : (forall req params, calls_only adds (h req params)) -> route_ok POST h.
Proof.
  intros Hh req params Hs. eapply emits_mono; [apply Hh|]. intros tr r Htr. unfold allowed.
  destruct (serves_cases _ _ Hs) as [->|[? _]]; done.
Qed.

Lemma only_extracting P {A} (r : res admin_response A) (h : A -> ST TW admin_response) :
  (forall a, calls_only P (h a)) -> calls_only P (extracting r h).
Proof. intros Hh. destruct r; simpl; [apply Hh|apply only_ret]. Qed.

Lemma delete_route :
  route_ok DELETE (fun req params =>
    extracting (path_param params) (fun job_id =>
    extracting (extract_query de_DeleteJobQuery req) (fun force => admin_purge_job (W := TW) state job_id force))).
Proof.
  intros req params Hs. assert (Hm : ar_method req = DELETE) by (destruct (serves_cases _ _ Hs) as [?|[? _]]; done).
  assert (Hnil : forall r : admin_response, emits (W := TW) (ret r) (fun tr r => allowed req tr (admin_status r)))
    by (intros r; apply emits_ret, allowed_nil).
  destruct (path_param params) as [job|r]; simpl; [|apply Hnil].
  destruct (extract_query de_DeleteJobQuery req) as [force|r]; simpl; [|apply Hnil].
  eapply emits_mono; [apply purge_calls|]. intros tr r Htr. unfold allowed. rewrite Hm. right. by exists job, force.
Qed.

Lemma routes_ok : Forall (fun route => route_ok route.2.1 route.2.2) (admin_routes (W := TW) state).
Proof.
  unfold admin_routes. repeat (apply Forall_cons; split); [..|apply Forall_nil_2]; cbn [fst snd].
  - apply get_route. intros. apply only_ret.
  - apply get_route. intros. unfold readyz. only_calls fail.
  - apply post_route. intros. apply only_extracting, submit_adds.
  - apply delete_route.
  - apply post_route. intros. apply only_extracting. unfold admin_register. only_calls fail.
  - apply post_route. intros. apply only_extracting. unfold admin_sync. only_calls ltac:(apply sync_adds).
Qed.

(** C25.  The admin API keeps to its methods, whatever the framework makes of
    paths, bodies and queries: a GET or HEAD request makes no call but the
    registry's listing, which registers and removes nothing but can fill empty
    caches from the durable registry; a POST request only adds, sending POST
    requests to Nomad, registering and recording activity, and never purges,
    deregisters or puts a job to sleep; a DELETE request is one purge of one job
    or nothing; a request by any other method calls nothing. *)
Theorem admin_methods_are_respected req :
  emits (W := TW) (admin_router state req) (fun tr r => allowed req tr (admin_status r)).
Proof.
  unfold admin_router. induction routes_ok as [|[pattern [m h]] routes Hr _ IH]; simpl.
  - apply emits_ret, allowed_nil.
  - destruct (path_matches pattern (ar_path req)) as [params|]; [|exact IH].
    assert (Hbody : forall r, admin_status (without_body (ar_method req) r) = admin_status r)
      by (intros r; unfold without_body; by case_bool_decide).
    destruct (serves m (ar_method req)) eqn:Hs; [|apply emits_ret, allowed_nil].
    eapply emits_bind; [by apply Hr|]. intros tr r Htr. apply emits_ret. by rewrite app_nil_r, Hbody.
Qed.
End calls.

(** ** Which handler a path reaches *)

(** What the documentation of the framework's patterns promises: a pattern
    without a parameter matches itself alone, a parameter one non-empty segment
    (one without a percent-encoding is passed on as it is). *)
Class FrameworkLaws `{Framework} := {
  path_literal p q : char_in "{"%char p = false -> path_matches p q = if decide (q = p) then Some [] else None;
  path_job_param seg : seg <> "" -> char_in "/"%char seg = false -> char_in "%"%char seg = false ->
    path_matches "/admin/jobs/{job_id}" ("/admin/jobs/" +:+ seg) = Some [seg] }.

(** A DELETE of [/admin/jobs/<job>] purges that job, with the query's [force]. *)
Theorem delete_purges_the_named_job {W} `{HttpClient W, ActivityStore W, MissingJobTracker W, Registry W,
    Coordinator W, InFlight W} `{FrameworkLaws} state job force req (w : W) :
  job <> "" -> char_in "/"%char job = false -> char_in "%"%char job = false ->
  ar_method req = DELETE -> ar_path req = "/admin/jobs/" +:+ job ->
  extract_query de_DeleteJobQuery req = Ok force ->
  admin_router state req w = admin_purge_job state job force w.
Proof.
  intros Hne Hs Hp Hm Hpath Hq. unfold admin_router, admin_routes. cbn [dispatch]. rewrite Hpath.
  rewrite !(path_literal "/healthz"), !(path_literal "/readyz"), !(path_literal "/admin/jobs") by done.
  rewrite !decide_False by (intros ?; discriminate). rewrite path_job_param by done.
  rewrite Hm. unfold serves, bind, without_body. simpl. rewrite Hq. simpl. unfold ret.
  by destruct (admin_purge_job state job force w).
Qed.
