(* ===== verification/Main.v ===== *)
(** * Main: start-up, wiring and the two servers

    Models [main] of [src/src/main.rs] up to the admin handlers, which are in
    [Admin]: the log format, the connection to Redis with its retries, the
    durable registry, what every component is built with, the spawned tasks, the
    listeners and the shutdown; and the service the proxy's router serves.  A
    process that exits and a panic are results.  Spawning, listening and waiting
    are calls of a class. *)

From S2P Require Import Prelude Str F64 Core Json Net Config Http TrafficProbe Waker Ifaces Trace Controller.
From S2P Require Import Nomad Consul Redis Activity Durable Registry Etcd Proxy Handler Events Admin.
From Stdlib Require Import Ascii.
Local Open Scope Z_scope.

(** How [main] ends other than by returning; running out of fuel is not the
    program's. *)
Module Halt.
Inductive t : Type :=
| Exit (code : Z)
| Panic (message : string)
| OutOfFuel.
End Halt.

Abbreviation Boot W A := (ST W (res Halt.t A)).

(** [unwrap_or_else(|e| { error!(..); std::process::exit(1) })] and [expect]. *)
Definition or_exit {E A} (r : res E A) : res Halt.t A := res_map_err (fun _ => Halt.Exit 1) r.
Definition expect {E A} (message : string) (r : res E A) : res Halt.t A :=
  res_map_err (fun _ => Halt.Panic message) r.

(** ** Logging *)
Inductive log_layer : Type := JsonLayer | PrettyLayer | CompactLayer.

Definition log_format (format_var : option string) (is_terminal : bool) : string :=
  default (if is_terminal then "pretty" else "compact") format_var.
Definition unknown_format (log_format : string) : bool :=
  negb (bool_decide (log_format ∈ ["compact"; "pretty"; "json"])).
Definition layer_of (log_format : string) : log_layer :=
  if bool_decide (log_format = "json") then JsonLayer
  else if bool_decide (log_format = "pretty") then PrettyLayer
  else CompactLayer.

Class Environment (W : Type) := {
  env_var : string -> ST W (option string);
  stdout_is_terminal : ST W bool;
  init_subscriber : log_layer -> ST W unit }.

Definition init_logging {W} `{Environment W} : ST W unit := (
  let* format_var := env_var "NSCALE_LOG_FORMAT" in
  let* is_terminal := stdout_is_terminal in
  init_subscriber (layer_of (log_format format_var is_terminal)))%st.

(** ** Connecting *)

Definition max_retries : Z := 30.

Section connecting.
Context {W : Type} `{RedisConnector W, SystemTime W, Process W, Clock W}.

(** The loop around [RedisActivityStore::new]. *)
Fixpoint connect_store (fuel : nat) (attempt : Z) (redis_url : string) : Boot W RedisActivityStore := (
  match fuel with
  | O => ret (Err Halt.OutOfFuel)
  | S n =>
      let attempt := attempt + 1 in
      let* r := new_activity_store redis_url in
      match r with
      | Ok store => ret (Ok store)
      | Err _ =>
          if bool_decide (max_retries <= attempt) then ret (Err (Halt.Exit 1))
          else do* sleep (duration_from_secs 1) in connect_store n attempt redis_url
      end
  end)%st.

End connecting.

(** The endpoints of a comma-separated list. *)
Definition etcd_endpoint_list (etcd_endpoints : string) : list string :=
  filter (fun endpoint => endpoint <> "") (map trim (split_char ","%char etcd_endpoints)).

Section registry.
Context {W : Type} `{Redis W, JsonText, Etcd W, EtcdConnector W}.

(** The registry, with the durable registry's client if one is configured; an
    error of the hydration is only logged. *)
Definition build_registry (config : RegistryConfig) : Boot W (JobRegistry * option EtcdClient) := (
  if durable_enabled config then
    match etcd_endpoint_list (etcd_endpoints config) with
    | [] => ret (Err (Halt.Exit 1))
    | endpoints =>
        let? durable_registry := bind (new_etcd endpoints (etcd_key_prefix config)) (fun r => ret (or_exit r)) in
        let registry := mkJobRegistry true in
        let* _ := sync_from_durable (H1 := etcd_durable durable_registry) registry in
        ret (Ok (registry, Some durable_registry))
    end
  else ret (Ok (mkJobRegistry false, None)))%st.

End registry.

(** ** Building the components *)

(** [Duration]'s division and [Semaphore::MAX_PERMITS]. *)
Definition duration_div (a n : Z) : Z := a / n.
Definition MAX_PERMITS : Z := 2 ^ 61 - 1.

(** What a client is built with besides its default headers. *)
Record client_options := mkClientOptions {
  pool_max_idle_per_host : option Z;
  timeout : option Z;
  connect_timeout : option Z }.
Class OptionsBuilder := { options_error : client_options -> option reqwest_error }.

(** [build()] followed by [expect]. *)
Definition build_client_with `{OptionsBuilder} (message : string) (o : client_options) : res Halt.t client_options :=
  expect message (match options_error o with Some e => Err e | None => Ok o end).

(** What [main] hands to the components. *)
Record Wired := mkWired {
  wired_store : RedisActivityStore;
  wired_registry : JobRegistry * option EtcdClient;
  wired_nomad : NomadClient;
  wired_consul : ConsulClient;
  wake_permits : nat;
  coordinator_timeout : Z;
  proxy_client : client_options;
  app_state : AppState;
  wired_probe : option TrafficProbe;
  scaler : ScaleDownController;
  stream : EventStreamConfig;
  admin_state : AdminState }.

Section wire.
Context `{ClientBuilder, OptionsBuilder}.

(** The semaphore of [WakeCoordinator::new]. *)
Definition semaphore (permits : Z) : res Halt.t nat :=
  if bool_decide (permits <= MAX_PERMITS) then Ok (Z.to_nat permits)
  else Err (Halt.Panic "a semaphore may not have more than MAX_PERMITS permits").

(** [TrafficProbe::new] where Traefik is configured. *)
Definition build_probe (config : option TraefikConfig) : res Halt.t (option TrafficProbe) :=
  match config with
  | None => Ok None
  | Some tc =>
      res_bind (build_client_with "failed to build HTTP client for traffic probe"
        (mkClientOptions None (Some (duration_from_secs 5)) None)) (fun _ =>
      Ok (Some (new_probe (Config.metrics_url tc) (traefik_provider tc))))
  end.

(** [ScaleDownController::new], whose addition can overflow. *)
Definition build_scaler (probe : bool) (config : ScalingConfig) : res Halt.t ScaleDownController :=
  res_bind (res_map_err Halt.Panic (duration_add (scale_down_interval config) (duration_from_secs 5))) (fun _ =>
  Ok (new_controller probe (idle_timeout config) (scale_down_interval config)
        (enabled (auto_deregister config)) (not_found_threshold (auto_deregister config)))).

Definition wire (config : Config) (activity_store : RedisActivityStore)
    (registry : JobRegistry * option EtcdClient) : res Halt.t Wired :=
  res_bind (expect "failed to create Nomad client"
    (new_nomad (Config.nomad_addr (nomad config)) (Config.nomad_token (nomad config)))) (fun nomad_client =>
  res_bind (expect "failed to create Consul client"
    (new_consul (consul_addr (consul config)) (consul_token (consul config)))) (fun consul_client =>
  res_bind (semaphore (concurrency (nomad config))) (fun permits =>
  res_bind (build_client_with "failed to build HTTP client"
    (mkClientOptions (Some 100) (Some (request_timeout (proxy config))) (Some (duration_from_secs 5)))) (fun http_client =>
  let heartbeat_interval := duration_div (idle_timeout (scaling config)) 3 in
  let auto := auto_deregister (scaling config) in
  res_bind (build_probe (traefik config)) (fun traffic_probe =>
  res_bind (build_scaler (bool_decide (is_Some traffic_probe)) (scaling config)) (fun scaler =>
  Ok {| wired_store := activity_store;
        wired_registry := registry;
        wired_nomad := nomad_client;
        wired_consul := consul_client;
        wake_permits := permits;
        coordinator_timeout := wake_timeout (scaling config);
        proxy_client := http_client;
        app_state := mkAppState heartbeat_interval (enabled auto) (not_found_threshold auto);
        wired_probe := traffic_probe;
        scaler := scaler;
        stream := mkEventStreamConfig (Config.nomad_addr (nomad config)) (Config.nomad_token (nomad config))
                    ["Allocation"] 0;
        admin_state := mkAdminState nomad_client (Config.file_provider_service (routing config)) |})))))).

End wire.

(** ** Running *)

(** What the final [select!] finds first. *)
Inductive served_until : Type :=
| ProxyEnded (r : res string unit)
| AdminEnded (r : res string unit)
| Interrupted.

(** Spawned tasks, the stream's task with the capacity of its channel; listeners;
    the two servers; the token; the ends of the tasks. *)
Class Runtime (W : Type) := {
  spawn_scaler : ScaleDownController -> ST W unit;
  spawn_event_stream : EventStreamConfig -> Z -> ST W unit;
  spawn_event_processor : ST W unit;
  bind_listener : SocketAddr -> ST W (res string unit);
  serve_both : AppState -> AdminState -> ST W served_until;
  cancel_token : ST W unit;
  join_scaler : ST W unit;
  join_event_processor : ST W unit }.

Section main.
Context {W : Type} `{Environment W, Figment W, RedisConnector W, SystemTime W, Process W, Clock W,
  Redis W, JsonText, Etcd W, EtcdConnector W, ClientBuilder, OptionsBuilder, Runtime W}.

(** [start_event_stream]. *)
Definition start_event_stream (config : EventStreamConfig) : ST W unit := spawn_event_stream config 256.

(** Up to the built components. *)
Definition boot : Boot W (Config * Wired) := (
  let? config := bind load (fun r => ret (or_exit r)) in
  let? activity_store := connect_store (Z.to_nat max_retries) 0 (Config.redis_url (Config.redis config)) in
  let? registry := build_registry (Config.registry config) in
  let? wired := ret (wire config activity_store registry) in
  ret (Ok (config, wired)))%st.

Definition start_tasks (wired : Wired) : ST W unit := (
  do* spawn_scaler (scaler wired) in
  do* start_event_stream (stream wired) in
  spawn_event_processor)%st.

Definition shut_down (ended : served_until) : ST W unit := (
  do* (match ended with Interrupted => cancel_token | _ => ret tt end) in
  do* join_scaler in
  join_event_processor)%st.

Definition main : Boot W unit := (
  do* init_logging in
  let? booted := boot in
  let wired := booted.2 in
  do* start_tasks wired in
  do? bind (bind_listener (listen_addr booted.1)) (fun r => ret (expect "failed to bind proxy listener" r)) in
  do? bind (bind_listener (admin_addr booted.1)) (fun r => ret (expect "failed to bind admin listener" r)) in
  let* ended := serve_both (app_state wired) (admin_state wired) in
  do* shut_down ended in
  ret (Ok tt))%st.

End main.

(** ** The proxy's service

    The router's fallback under the activity layer: the handler never fails, its
    response comes with what closing a tunnel runs.  A handler that panicked or
    was dropped unwinds the layer too. *)
Definition proxy_service {W} `{ActivityStore W, MissingJobTracker W, Registry W, Coordinator W, InFlight W,
    Backend W, Upgrade W, Clock W, Heartbeats W, Peer W} (state : AppState) (req : inbound)
    : ST W (res Unwound.t (res Empty_set (reply * option (ST W unit))) * option (ST W unit)) :=
  activity_call (fun req => bind (proxy_handler state req)
    (fun out => ret (res_map (fun response => Ok (response, out.2)) out.1))) req.

(** ** Lemmas *)

(** The calls recorded while connecting: the clock's and the connection's. *)
#[export] Instance traced_connector {W} `{RedisConnector W} : RedisConnector (Traced Call.t W) := {|
  redis_config := redis_config;
  redis_client := redis_client;
  config_from_url := config_from_url;
  build_client := build_client;
  init_client c := traced Call.ConnectRedis (init_client c) |}.
#[export] Instance untraced_time {W} `{SystemTime W} : SystemTime (Traced Call.t W) := {|
  epoch_nanos := fun t => let '(n, w) := epoch_nanos (base t) in (n, mkTraced w (trace t)) |}.
#[export] Instance untraced_process {W} `{Process W} : Process (Traced Call.t W) := {|
  process_id := fun t => let '(n, w) := process_id (base t) in (n, mkTraced w (trace t)) |}.

(** An attempt that failed, in the URL, the client or the connection; and one
    that succeeded. *)
Inductive failed_attempt : list Call.t -> Prop :=
| BadSettings : failed_attempt []
| Unreachable e : failed_attempt [Call.ConnectRedis (Err e)].
Definition connected_attempt : list Call.t := [Call.ConnectRedis (Ok tt)].

(** [n] failed attempts, each followed by a second's wait. *)
Inductive waited : nat -> list Call.t -> Prop :=
| WaitedNot : waited 0 []
| WaitedMore n tr tr' : failed_attempt tr -> waited n tr' ->
    waited (S n) (tr ++ Call.Sleep (duration_from_secs 1) :: tr').

Section connecting_lemmas.
Context {W : Type} `{RedisConnector W, SystemTime W, Process W, Clock W}.
Abbreviation TW := (Traced Call.t W).

Lemma emits_silent {A} (m : ST TW A) :
  (forall t, trace (m t).2 = trace t) -> emits m (fun tr _ => tr = []).
Proof. intros Hm t. exists []. split; [|done]. unfold trace_of, tracing_traced. by rewrite Hm, app_nil_r. Qed.

Lemma emits_new_store url :
  emits (W := TW) (new_activity_store url) (fun tr r =>
    match r with Ok _ => tr = connected_attempt | Err _ => failed_attempt tr end).
Proof.
  unfold new_activity_store. destruct (config_from_url url) as [config|e]; [|apply emits_ret; constructor].
  cbn [res_map_err]. destruct (build_client config) as [client|e] eqn:Eb.
  2: { eapply emits_try with (P := fun tr r => tr = [] /\ r = Ok config); [by apply emits_ret|..].
       - intros ? ? [-> [= <-]]. rewrite Eb. apply emits_ret. constructor.
       - by intros ? ? [_ ?]. }
  eapply emits_try with (P := fun tr r => tr = [] /\ r = Ok config); [by apply emits_ret| |by intros ? ? [_ ?]].
  intros ? ? [-> [= <-]]. rewrite Eb.
  eapply emits_try with (P := fun tr r => tr = [] /\ r = Ok client); [by apply emits_ret| |by intros ? ? [_ ?]].
  intros ? ? [-> [= <-]]. eapply emits_try with (P := fun tr r =>
    match r with Ok _ => tr = connected_attempt | Err _ => failed_attempt tr end).
  - unfold store_err, map_err. eapply emits_bind; [apply emits_call|]. intros ? [[]|e] ->; apply emits_ret; [done|constructor].
  - intros tr [] ->. eapply emits_bind with (P := fun tr _ => tr = []); [|by intros ? ? ->; apply emits_ret].
    apply emits_silent. intros t. unfold uuid_v4_simple, bind, epoch_nanos, process_id, untraced_time, untraced_process, ret.
    by run_calls; simplify_eq/=; rewrite ?Heqp, ?Heqp0.
  - intros tr e Hf. done.
Qed.

Lemma emits_connect fuel attempt url :
  emits (W := TW) (connect_store fuel attempt url) (fun tr r =>
    exists n tr1 tr2, tr = tr1 ++ tr2 /\ waited n tr1 /\
      match r with
      | Ok _ => tr2 = connected_attempt /\ (n < fuel)%nat
      | Err (Halt.Exit code) => code = 1 /\ failed_attempt tr2 /\ (n < fuel)%nat /\ max_retries <= attempt + Z.of_nat n + 1
      | Err Halt.OutOfFuel => tr2 = [] /\ n = fuel
      | Err (Halt.Panic _) => False
      end /\ (n = 0%nat \/ attempt + Z.of_nat n < max_retries)).
Proof.
  revert attempt. induction fuel as [|f IH]; intros attempt; cbn [connect_store].
  - apply emits_ret. exists 0%nat, [], []. split_and!; [done|constructor|done|done|by left].
  - cbv zeta. eapply emits_bind; [apply emits_new_store|]. intros tr [store|e] Htr.
    + apply emits_ret. rewrite app_nil_r. exists 0%nat, [], tr. split_and!; [done|constructor|done|lia|by left].
    + case_bool_decide as Hmax.
      * apply emits_ret. rewrite app_nil_r. exists 0%nat, [], tr.
        split_and!; [done|constructor|done|done|lia|lia|by left].
      * eapply emits_bind; [apply emits_call|]. intros ? [] ->.
        eapply emits_mono; [apply IH|]. intros tr' r (n & tr1 & tr2 & -> & Hw & Hr & Hn).
        exists (S n), (tr ++ Call.Sleep (duration_from_secs 1) :: tr1), tr2.
        split_and!; [by rewrite <- !app_assoc|by constructor| |right; lia].
        destruct r as [s|[code|m|]]; intuition lia.
Qed.
End connecting_lemmas.

(** The loop has fuel enough for every attempt. *)
Lemma connect_fuel {W} `{RedisConnector W, SystemTime W, Process W, Clock W} fuel attempt url (w w' : W) h :
  max_retries <= attempt + Z.of_nat fuel -> attempt < max_retries ->
  connect_store fuel attempt url w = (Err h, w') -> h = Halt.Exit 1.
Proof.
  revert attempt w. induction fuel as [|f IH]; intros attempt w Hf Ha; [lia|].
  cbn [connect_store]. cbv zeta. unfold bind. destruct (new_activity_store url w) as [[store|e] w1]; [done|].
  case_bool_decide as Hmax; [by intros [= <- _]|]. destruct (sleep _ w1) as [u w2]. apply IH; lia.
Qed.

(** The identity of a new store is made of what it read. *)
Lemma new_store_inv {W} `{RedisConnector W, SystemTime W, Process W} url (w w' : W) s :
  new_activity_store url w = (Ok s, w') ->
  exists v, (process_id (epoch_nanos v).2).2 = w' /\ instance_id s = "nscale-" +:+ show_hex (Z.max 0 (epoch_nanos v).1) +:+ "-"
                            +:+ show_hex (process_id (epoch_nanos v).2).1.
Proof.
  intros Hn. unfold new_activity_store in Hn.
  apply try_inv in Hn as (config & w1 & _ & Hn). apply try_inv in Hn as (client & w2 & _ & Hn).
  apply try_inv in Hn as (u & v & _ & Hn). exists v. revert Hn.
  unfold uuid_v4_simple, bind, ret. destruct (epoch_nanos v) as [t v1]. cbn [fst snd].
  destruct (process_id v1) as [pid v2]. intros [= <- <-]. done.
Qed.

Section wire_lemmas.
Context `{ClientBuilder, OptionsBuilder}.

(** Every client that is built can be. *)
Definition clients_build (config : Config) : Prop :=
  is_ok (new_nomad (Config.nomad_addr (nomad config)) (Config.nomad_token (nomad config))) = true /\
  is_ok (new_consul (consul_addr (consul config)) (consul_token (consul config))) = true /\
  options_error (mkClientOptions (Some 100) (Some (request_timeout (proxy config))) (Some (duration_from_secs 5))) = None /\
  (is_Some (traefik config) -> options_error (mkClientOptions None (Some (duration_from_secs 5)) None) = None).

(** The interval and the lock's margin fit into a [Duration]. *)
Lemma interval_fits secs :
  duration_from_secs secs + duration_from_secs 5 <= duration_max <-> secs + 5 <= u64_max.
Proof. unfold duration_from_secs, duration_max, nanos_per_sec, u64_max. lia. Qed.

Lemma lock_ttl_millis secs :
  0 <= secs <= 9223372036854770 ->
  as_i64 (as_millis (duration_from_secs secs + duration_from_secs 5)) = as_millis (duration_from_secs secs) + 5000.
Proof.
  intros Hs. unfold as_millis, duration_from_secs, nanos_per_sec.
  replace (secs * 1000000000 + 5 * 1000000000) with ((secs * 1000 + 5000) * 1000000) by lia.
  replace (secs * 1000000000) with (secs * 1000 * 1000000) by lia. rewrite !Z.div_mul by lia.
  unfold as_i64. rewrite wrap_small; [lia|]. change (2 ^ 63) with 9223372036854775808.
  change (2 ^ 64) with 18446744073709551616. lia.
Qed.

Lemma heartbeat_third secs :
  3 * duration_div (duration_from_secs secs) 3 <= duration_from_secs secs < 3 * duration_div (duration_from_secs secs) 3 + 3.
Proof. unfold duration_div. pose proof (Z.div_mod (duration_from_secs secs) 3). pose proof (Z.mod_pos_bound (duration_from_secs secs) 3). lia. Qed.

(** What [wire] returns. *)
Lemma wire_inv config store reg wired :
  wire config store reg = Ok wired ->
  clients_build config /\ concurrency (nomad config) <= MAX_PERMITS /\
  scale_down_interval_secs (scaling config) + 5 <= u64_max /\
  app_state wired = mkAppState (duration_div (idle_timeout (scaling config)) 3)
    (enabled (auto_deregister (scaling config))) (not_found_threshold (auto_deregister (scaling config))) /\
  scaler wired = new_controller (bool_decide (is_Some (traefik config))) (idle_timeout (scaling config))
    (scale_down_interval (scaling config)) (enabled (auto_deregister (scaling config)))
    (not_found_threshold (auto_deregister (scaling config))) /\
  wake_permits wired = Z.to_nat (concurrency (nomad config)) /\
  admin_nomad (admin_state wired) = wired_nomad wired.
Proof.
  unfold wire, clients_build, build_scaler, semaphore, duration_add.
  destruct (new_nomad _ _) as [n|e]; [|done]. destruct (new_consul _ _) as [c|e]; [|done]. cbn [expect res_map_err res_bind].
  case_bool_decide as Hp; [|done]. cbn [res_bind]. unfold build_client_with.
  destruct (options_error (mkClientOptions (Some 100) _ _)) as [e|]; [done|]. cbn [expect res_map_err res_bind].
  unfold build_probe, build_client_with.
  destruct (traefik config) as [tc|]; cbn [expect res_map_err res_bind];
    [destruct (options_error (mkClientOptions None _ _)) as [e|]; [done|]; cbn [expect res_map_err res_bind]|];
    (case_bool_decide as Hi; [|done]); cbn [res_bind]; intros [= <-]; apply interval_fits in Hi; split_and!; try done;
    by intros [? ?].
Qed.

Lemma wire_builds config store reg :
  clients_build config -> concurrency (nomad config) <= MAX_PERMITS ->
  scale_down_interval_secs (scaling config) + 5 <= u64_max -> exists wired, wire config store reg = Ok wired.
Proof.
  intros (Hn & Hc & Ho & Ht) Hp Hi. unfold wire, build_scaler, semaphore, duration_add.
  destruct (new_nomad _ _) as [n|e]; [|done]. destruct (new_consul _ _) as [c|e]; [|done]. cbn [expect res_map_err res_bind].
  rewrite bool_decide_eq_true_2 by done. cbn [res_bind]. unfold build_client_with. rewrite Ho. cbn [expect res_map_err res_bind].
  unfold build_probe, build_client_with. apply interval_fits in Hi.
  destruct (traefik config) as [tc|]; cbn [res_bind]; [rewrite Ht by eauto; cbn [expect res_map_err res_bind]|];
    rewrite bool_decide_eq_true_2 by done; cbn [res_bind]; eauto.
Qed.

(** A construction that stops, stops in a panic. *)
Definition only_panics {A} (r : res Halt.t A) : Prop :=
  match r with Err h => exists message, h = Halt.Panic message | Ok _ => True end.

Lemma only_panics_bind {A B} (r : res Halt.t A) (f : A -> res Halt.t B) :
  only_panics r -> (forall a, only_panics (f a)) -> only_panics (res_bind r f).
Proof. destruct r; simpl; auto. Qed.

Lemma only_panics_expect {E A} message (r : res E A) : only_panics (expect message r).
Proof. destruct r; simpl; eauto. Qed.

Lemma wire_panics config store reg : only_panics (wire config store reg).
Proof.
  unfold wire, build_scaler, semaphore, duration_add, build_probe, build_client_with.
  repeat first [apply only_panics_expect | apply only_panics_bind; [|intros ?] | case_match]; simpl; eauto.
Qed.
End wire_lemmas.

(** The name recorded for a request is the one its host is looked up under. *)
Lemma request_job_looked_up req job :
  request_job req = Some job ->
  exists v, header "host" (in_headers req) = Some v /\ service_key (default "" (header_str v)) = job.
Proof.
  unfold request_job. intros (v & Hv & (host & Hh & Hj)%bind_Some)%bind_Some.
  exists v. split; [done|]. rewrite Hh. revert Hj. unfold extract_job_id_from_host, service_key.
  simpl. case_bool_decide; by intros [= <-].
Qed.

Lemma no_request_job req v :
  header "host" (in_headers req) = Some v -> request_job req = None -> service_key (default "" (header_str v)) = "".
Proof.
  unfold request_job. intros ->. simpl. destruct (header_str v) as [host|]; [|done]. simpl.
  unfold extract_job_id_from_host, service_key. by case_bool_decide.
Qed.

(** ** Theorems *)

(** C31.  Connecting to Redis ends: there are at most thirty attempts, a second
    apart; the store is the one the last attempt returned, or the process exits
    with status 1 after exactly thirty attempts that all failed.  The fuel the
    loop is run with is never used up. *)
Theorem connecting_is_bounded {W} `{RedisConnector W, SystemTime W, Process W, Clock W} url :
  emits (W := Traced Call.t W) (connect_store (Z.to_nat max_retries) 0 url) (fun tr r =>
    exists n waits last, tr = waits ++ last /\ waited n waits /\
      ((exists store, r = Ok store /\ last = connected_attempt /\ (n <= 29)%nat) \/
       (r = Err (Halt.Exit 1) /\ failed_attempt last /\ n = 29%nat))).
Proof.
  eapply emits_mono; [apply emits_connect|]. intros tr r (n & waits & last & -> & Hw & Hr & Hn).
  exists n, waits, last. split_and!; [done|done|]. unfold max_retries in *.
  destruct r as [store|[code|m|]]; [left|right|done|lia].
  - destruct Hr as [-> ?]. exists store. split_and!; [done|done|lia].
  - destruct Hr as (-> & ? & ? & ?). split_and!; [done|done|lia].
Qed.

(** C29.  The components are built exactly when every HTTP client can be, the wake
    concurrency is a semaphore's and the lock's time to live fits a duration; and
    then: three heartbeats fit into the idle timeout the controller uses, with
    less than three nanoseconds to spare; the controller's lock lives five
    seconds longer than its interval, as milliseconds in [i64] too while the
    interval is below some 292 million years; the semaphore has the configured
    permits; the proxy and the controller deregister at the same threshold. *)
Theorem wiring_is_in_range `{ClientBuilder, OptionsBuilder} config store reg :
  well_typed_Config config ->
  let secs := scale_down_interval_secs (scaling config) in
  ((exists wired, wire config store reg = Ok wired) <->
     clients_build config /\ concurrency (nomad config) <= MAX_PERMITS /\ secs + 5 <= u64_max) /\
  forall wired, wire config store reg = Ok wired ->
    let app := app_state wired in let sc := scaler wired in
    3 * heartbeat_interval app <= idle_threshold sc < 3 * heartbeat_interval app + 3 /\
    lock_ttl sc = interval sc + duration_from_secs 5 /\ lock_ttl sc <= duration_max /\
    (secs <= 9223372036854770 -> as_i64 (as_millis (lock_ttl sc)) = as_millis (interval sc) + 5000) /\
    Z.of_nat (wake_permits wired) = concurrency (nomad config) /\
    (state_auto_deregister_enabled app, state_auto_deregister_threshold app)
      = (auto_deregister_enabled sc, auto_deregister_threshold sc) /\
    is_u32 (auto_deregister_threshold sc).
Proof.
  intros [] secs. split.
  - split; [|intros (? & ? & ?); by apply wire_builds]. intros [wired Hw]. apply wire_inv in Hw. tauto.
  - intros wired (Hc & Hp & Hi & Ha & Hs & Hn & _)%wire_inv. cbv zeta. rewrite Ha, Hs, Hn. unfold new_controller.
    cbn [heartbeat_interval idle_threshold lock_ttl interval auto_deregister_enabled auto_deregister_threshold
         state_auto_deregister_enabled state_auto_deregister_threshold].
    pose proof (heartbeat_third (idle_timeout_secs (scaling config))).
    split_and!; try done; try (unfold idle_timeout; lia).
    + by apply interval_fits.
    + intros. apply lock_ttl_millis. destruct wt_interval. split; [done|lia].
    + destruct wt_concurrency. lia.
Qed.

(** Clients that build whatever they are given. *)
Module Builders.
#[global] Instance clients : ClientBuilder := {| invalid_header _ := None; build_error _ := None |}.
#[global] Instance options : OptionsBuilder := {| options_error _ := None |}.
Definition store : RedisActivityStore := mkActivityStore "nscale-1-1".
Definition wired : res Halt.t Wired := wire default_Config store (mkJobRegistry false, None).
End Builders.

Lemma wiring_is_in_range_witness :
  well_typed_Config default_Config /\ exists wired, Builders.wired = Ok wired /\
    heartbeat_interval (app_state wired) = duration_from_secs 100 /\
    as_i64 (as_millis (lock_ttl (scaler wired))) = 35000 /\ wake_permits wired = 50%nat.
Proof.
  assert (Ht : well_typed_Config default_Config) by (split; in_ranges).
  split; [exact Ht|].
  destruct (wiring_is_in_range default_Config Builders.store (mkJobRegistry false, None) Ht) as [[_ Hb] Hr].
  destruct Hb as [wired Hw].
  { split; [|split; [vm_compute; discriminate|vm_compute; discriminate]].
    split; [reflexivity|split; [reflexivity|split; [reflexivity|intros _; reflexivity]]]. }
  exists wired. split; [exact Hw|]. destruct (Hr wired Hw) as (_ & _ & _ & Hms & Hn & _).
  split; [|split].
  - vm_compute in Hw. injection Hw as <-. reflexivity.
  - rewrite Hms; [|vm_compute; discriminate]. vm_compute in Hw. injection Hw as <-. reflexivity.
  - apply Nat2Z.inj. rewrite Hn. reflexivity.
Defined.

(** Start-up stops only for a reason: the process exits, with status 1, when
    the configuration cannot be loaded, when Redis cannot be reached, or when the
    durable registry is enabled and has no endpoints or cannot be reached; it
    panics only when a component cannot be built; a failed hydration does not
    stop it.  Otherwise it has the components wired from the configuration it
    loaded. *)
Theorem start_up_stops_for_a_reason {W} `{Figment W, RedisConnector W, SystemTime W, Process W,
    Clock W, Redis W, JsonText, Etcd W, EtcdConnector W, ClientBuilder, OptionsBuilder} (w : W) :
  let attempts config := connect_store (Z.to_nat max_retries) 0 (Config.redis_url (Config.redis config)) in
  match (boot w).1 with
  | Ok (config, wired) => (load w).1 = Ok config /\ exists store reg, wire config store reg = Ok wired
  | Err (Halt.Exit code) => code = 1 /\
      match load w with
      | (Err _, _) => True
      | (Ok config, w1) =>
          match attempts config w1 with
          | (Err h, _) => h = Halt.Exit 1
          | (Ok _, w2) =>
              durable_enabled (Config.registry config) = true /\
              (etcd_endpoint_list (etcd_endpoints (Config.registry config)) = [] \/
               is_ok (new_etcd (etcd_endpoint_list (etcd_endpoints (Config.registry config)))
                        (etcd_key_prefix (Config.registry config)) w2).1 = false)
          end
      end
  | Err (Halt.Panic message) => exists config store reg,
      (load w).1 = Ok config /\ wire config store reg = Err (Halt.Panic message)
  | Err Halt.OutOfFuel => False
  end.
Proof.
  intros attempts. unfold boot, try, bind, ret, or_exit.
  destruct (load w) as [[config|e] w1]; [|done]. cbn [res_map_err fst snd]. fold (attempts config).
  destruct (attempts config w1) as [[store|h] w2] eqn:Ea.
  2: { assert (h = Halt.Exit 1) as -> by (by eapply connect_fuel in Ea; unfold max_retries in *). done. }
  unfold build_registry. destruct (durable_enabled (Config.registry config)) eqn:Ed.
  - destruct (etcd_endpoint_list (etcd_endpoints (Config.registry config))) as [|x l] eqn:El; [split_and!; [done|done|by left]|].
    unfold try, bind, ret, or_exit.
    destruct (new_etcd (x :: l) (etcd_key_prefix (Config.registry config)) w2) as [[client|e] w3] eqn:En; cbn [res_map_err fst snd].
    2: { split_and!; [done|done|by right]. }
    destruct (sync_from_durable (mkJobRegistry true) w3) as [r w4].
    pose proof (wire_panics config store (mkJobRegistry true, Some client)) as Hp.
    destruct (wire config store _) as [wired|h] eqn:Ew; cbn; [eauto|].
    destruct Hp as [m ->]. exists config, store; eexists; split; [reflexivity|exact Ew].
  - unfold ret. cbn [fst snd]. pose proof (wire_panics config store (mkJobRegistry false, None)) as Hp.
    destruct (wire config store _) as [wired|h] eqn:Ew; cbn; [eauto|].
    destruct Hp as [m ->]. exists config, store; eexists; split; [reflexivity|exact Ew].
Qed.

(** The instances of nscale tell themselves apart: a store's identity, under
    which it takes and releases locks, is made of the clock and the process id it
    read when it connected, and two stores have the same one only if they read
    the same nanosecond and the same process id. *)
Theorem instance_ids_tell_apart {W} `{RedisConnector W, SystemTime W, Process W} url1 url2 (w1 w1' w2 w2' : W) s1 s2 :
  (forall w : W, 0 <= (process_id w).1) ->
  new_activity_store url1 w1 = (Ok s1, w1') -> new_activity_store url2 w2 = (Ok s2, w2') ->
  exists v1 v2 : W,
    let time v := Z.max 0 (epoch_nanos v).1 in let pid v := (process_id (epoch_nanos v).2).1 in
    (process_id (epoch_nanos v1).2).2 = w1' /\ (process_id (epoch_nanos v2).2).2 = w2' /\
    instance_id s1 = "nscale-" +:+ show_hex (time v1) +:+ "-" +:+ show_hex (pid v1) /\
    instance_id s2 = "nscale-" +:+ show_hex (time v2) +:+ "-" +:+ show_hex (pid v2) /\
    (instance_id s1 = instance_id s2 <-> time v1 = time v2 /\ pid v1 = pid v2).
Proof.
  intros Hpid Hn1 Hn2. apply new_store_inv in Hn1 as (v1 & Hw1 & Hi1), Hn2 as (v2 & Hw2 & Hi2).
  exists v1, v2. cbv zeta. split_and!; [done..|]. rewrite Hi1, Hi2. split; [|by intros [-> ->]].
  intros Heq. apply sapp_inj_l in Heq.
  apply (sapp_sep_inj "-"%char) in Heq as [Ht Hp]; [|apply show_hex_no; [lia|done]..].
  split; (eapply show_hex_inj; [..|eassumption]); try lia; apply Hpid.
Qed.

(** A world with a clock that ticks at every reading. *)
Module Ticking.
#[global] Instance connector : RedisConnector Z := {|
  redis_config := string; redis_client := string;
  config_from_url url := if starts_with "redis://" url then Ok url else Err "invalid URL";
  build_client config := Ok config;
  init_client _ := ret (Ok tt) |}.
#[global] Instance time : SystemTime Z := {| epoch_nanos := fun t => (t, t + 1) |}.
#[global] Instance process : Process Z := {| process_id := ret 1 |}.
#[global] Instance timer : Clock Z := {| now := fun t => (t, t); sleep d := fun t => (tt, t + d) |}.
Definition connect (t : Z) : Result RedisActivityStore * Z := new_activity_store "redis://localhost:6379" t.
End Ticking.

Lemma instance_ids_tell_apart_witness :
  Ticking.connect 255 = (Ok (mkActivityStore "nscale-ff-1"), 256) /\
  Ticking.connect 256 = (Ok (mkActivityStore "nscale-100-1"), 257) /\
  exists v1 v2 : Z, v1 + 1 = 256 /\ v2 + 1 = 257 /\
    ("nscale-ff-1" = "nscale-100-1" <-> Z.max 0 v1 = Z.max 0 v2 /\ 1 = 1).
Proof.
  assert (E1 : Ticking.connect 255 = (Ok (mkActivityStore "nscale-ff-1"), 256)) by reflexivity.
  assert (E2 : Ticking.connect 256 = (Ok (mkActivityStore "nscale-100-1"), 257)) by reflexivity.
  assert (Hp : forall t : Z, 0 <= (process_id t).1) by (intros t; vm_compute; discriminate).
  split; [exact E1|]. split; [exact E2|].
  destruct (instance_ids_tell_apart (W := Z) _ _ 255 256 256 257 _ _ Hp E1 E2)
    as (v1 & v2 & Hw1 & Hw2 & _ & _ & Hd).
  exists v1, v2. split; [exact Hw1|]. split; [exact Hw2|]. exact Hd.
Defined.

(** C30.  A request is recorded before anything is done for it: when its host
    names a job, the first call of the proxy's service records activity under
    that name and, unless the client leaves meanwhile, the next looks the same
    name up; recording it again is left to a task for when the response is back,
    and there is no such task when no response comes back (the client has left,
    or the handler has panicked).  A request without a host is answered without a
    call, and one whose host has no label is looked up under the empty name and
    not recorded. *)
Theorem requests_are_recorded {W} `{ActivityStore W, MissingJobTracker W, Registry W, Coordinator W, InFlight W,
    Backend W, Upgrade W, Clock W, Heartbeats W, Peer W} state (req : inbound) :
  emits (W := Traced Call.t W) (proxy_service state req) (fun tr out =>
    match request_job req with
    | Some job => exists r,
        (tr = [Call.RecordActivity job r; Call.PeerGone true] /\ out = (Err Unwound.Dropped, None)) \/
        (exists found tr', tr = Call.RecordActivity job r :: Call.PeerGone false :: Call.Lookup job found :: tr') /\
        match out.1 with
        | Ok _ => exists finished, out.2 = Some finished /\
            emits finished (fun tr _ => exists r, tr = [Call.RecordActivity job r])
        | Err _ => out.2 = None
        end
    | None => out.2 = None /\ (tr = [] \/ exists found tr', tr = Call.Lookup "" found :: tr')
    end).
Proof.
  unfold proxy_service, activity_call. cbv zeta.
  eapply emits_bind with (P := fun tr started =>
    match request_job req with
    | Some job => exists r gone, tr = [Call.RecordActivity job r; Call.PeerGone gone]
        /\ started = if gone : bool then Err Unwound.Dropped else Ok tt
    | None => tr = [] /\ started = Ok tt
    end).
  { destruct (request_job req) as [job|]; [|by apply emits_ret].
    eapply emits_await_try; [eapply emits_call| |]; intros ? r ->; [by exists r, true|].
    apply emits_ret. by exists r, false. }
  intros tr1 started Hrec. destruct (request_job req) as [job|] eqn:Ej.
  - destruct Hrec as (r & [|] & -> & ->).
    { apply emits_ret. exists r. by left. }
    apply request_job_looked_up in Ej as (v & Ev & <-).
    eapply emits_bind with (P := fun tr out => match out with Ok (Err e) => False | _ => True end /\
      exists r tr', tr = Call.Lookup (service_key (default "" (header_str v))) r :: tr').
    { eapply emits_bind; [apply emits_looked_up|]. intros tr out Hl. rewrite Ev in Hl. apply emits_ret.
      rewrite app_nil_r. split; [by destruct out.1|done]. }
    intros tr2 [[out|[]]|u] [_ (found & tr' & ->)]; apply emits_ret; exists r; right;
      (split; [exists found, tr'; by rewrite app_nil_r|]); [|done].
    eexists. split; [done|]. emit. intros ? r' ->. apply emits_ret. eauto.
  - destruct Hrec as [-> ->].
    eapply emits_bind with (P := fun tr out => tr = [] \/ exists found tr', tr = Call.Lookup "" found :: tr').
    { eapply emits_bind; [apply emits_looked_up|]. intros tr out Hl. apply emits_ret. rewrite app_nil_r.
      destruct (header "host" (in_headers req)) as [v|] eqn:Ev; [|by left].
      right. destruct Hl as (found & tr' & ->). rewrite (no_request_job _ _ Ev Ej). by exists found, tr'. }
    intros tr2 [[out|e]|u] Hl; apply emits_ret; rewrite app_nil_r; by split.
Qed.

(** ** Boundary settings *)

(** A comma-separated list of trimmed endpoints is read as written. *)
Theorem endpoint_list_roundtrip l :
  l <> [] -> Forall (fun e => e <> "" /\ trim e = e /\ char_in ","%char e = false) l ->
  etcd_endpoint_list (join "," l) = l.
Proof.
  intros Hne Hl. unfold etcd_endpoint_list.
  assert (Hs : split_char ","%char (join "," l) = l).
  { induction Hl as [|e l (_ & _ & Hc) Hl IH]; [done|]. destruct l as [|e' l]; [by apply split_char_none|].
    change (join "," (e :: e' :: l)) with (e +:+ String ","%char (join "," (e' :: l))).
    by rewrite split_char_app, (split_char_none _ e), IH. }
  rewrite Hs. clear Hs Hne. induction Hl as [|e l (He & Ht & _) Hl IH]; [done|]. cbn [map].
  rewrite Ht, filter_cons_True by done. by rewrite IH.
Qed.

Example endpoint_list_spaces :
  etcd_endpoint_list " http://a:2379, http://b:2379,, " = ["http://a:2379"; "http://b:2379"].
Proof. vm_compute. reflexivity. Qed.
Example no_endpoints : etcd_endpoint_list " , " = [].
Proof. vm_compute. reflexivity. Qed.

(** An unknown log format falls back to the compact layer. *)
Lemma unknown_is_compact s : unknown_format s = true -> layer_of s = CompactLayer.
Proof.
  unfold unknown_format, layer_of. intros Hu. apply negb_true_iff, bool_decide_eq_false in Hu.
  rewrite !bool_decide_eq_false_2; [done|intros ->; set_solver..].
Qed.

(** The default configuration with another scale-down interval. *)
Definition with_interval (secs : Z) : Config :=
  let c := default_Config in let s := scaling c in
  Config.mkConfig (listen_addr c) (admin_addr c) (nomad c) (consul c) (Config.redis c)
    (mkScaling (idle_timeout_secs s) (wake_timeout_secs s) secs (min_scale_down_age_secs s) (auto_deregister s))
    (proxy c) (Config.registry c) (routing c) (traefik c).

(** An interval of zero is loaded and wired, and then the controller's task panics
    at its first poll: nothing is ever scaled down. *)
Theorem zero_interval_stops_the_controller :
  de_Config (ser_Config (with_interval 0)) = Some (with_interval 0) /\
  exists wired, wire (with_interval 0) Builders.store (mkJobRegistry false, None) = Ok wired /\
    forall W `{Orchestrator W, ActivityStore W, MissingJobTracker W, Registry W, Coordinator W, InFlight W, Probe W,
      Clock W, Cancellation W} fuel, Controller.start (W := W) (scaler wired) fuel = None.
Proof.
  split; [vm_compute; reflexivity|]. eexists. split; [vm_compute; reflexivity|]. done.
Qed.
