(* ===== verification/Restore.v ===== *)
(** * Restore: a lost cache comes back at start-up

    The composition of [Main.build_registry], the job registry and the etcd
    client.  Redis and etcd are two services of one world that leave each other's
    data alone ([Apart]); then the etcd client is a durable registry in front of
    which the job registry can stand ([Separate]), and what start-up hydrates is
    what lookups find. *)

From S2P Require Import Prelude Str F64 Core Config Waker Ifaces Redis Activity Durable Registry Etcd Main.
From Stdlib Require Import Ascii.
Local Open Scope Z_scope.

(** Commands to the server leave the key space alone, calls to etcd the server;
    connecting changes neither. *)
Class Apart (W : Type) `{RedisLaws W, EtcdLaws W, EtcdConnector W} := {
  hset_keyspace k f v w : keyspace (hset k f v w).2 = keyspace w;
  hget_keyspace k f w : keyspace (hget k f w).2 = keyspace w;
  hgetall_keyspace k w : keyspace (hgetall k w).2 = keyspace w;
  hdel_keyspace k f w : keyspace (hdel k f w).2 = keyspace w;
  etcd_get_server k w : server (etcd_get k w).2 = server w;
  etcd_get_prefix_server p w : server (etcd_get_prefix p w).2 = server w;
  etcd_txn_server ops w : server (etcd_txn ops w).2 = server w;
  connect_server l w : server (etcd_connect l w).2 = server w;
  connect_keyspace l w : keyspace (etcd_connect l w).2 = keyspace w }.

Section separate.
Context {W : Type} `{JsonTextLaws, Apart W} (self : EtcdClient).

(** The etcd client's calls, made of etcd's. *)
Definition same_server (w w' : W) : Prop := server w' = server w.

#[local] Instance same_server_refl : Reflexive same_server.
Proof. by intros w. Qed.
#[local] Instance same_server_trans : Transitive same_server.
Proof. intros w1 w2 w3 H12 H23. unfold same_server in *. congruence. Qed.

Lemma keeps_get k : within same_server (etcd_get k).
Proof. intros w. apply etcd_get_server. Qed.
Lemma keeps_get_prefix p : within same_server (etcd_get_prefix p).
Proof. intros w. apply etcd_get_prefix_server. Qed.
Lemma keeps_txn ops : within same_server (etcd_txn ops).
Proof. intros w. apply etcd_txn_server. Qed.
Hint Resolve keeps_get keeps_get_prefix keeps_txn : same_server.

(** A function made of calls that keep the server keeps it. *)
Ltac keep_server :=
  repeat first
    [ solve [auto with same_server]
    | apply within_try; [apply _|apply _| |intros ?]
    | apply within_map_err; [apply _|apply _|]
    | apply within_ret; apply _
    | case_match ].

Lemma keeps_store reg : within same_server (etcd_store self reg).
Proof. unfold etcd_store, apply_txn, etcd_err. keep_server. Qed.
Lemma keeps_remove j : within same_server (etcd_remove self j).
Proof. unfold etcd_remove, service_keys_for_job, apply_txn, etcd_err. keep_server. Qed.
Lemma keeps_by_key k : within same_server (get_by_key k).
Proof. unfold get_by_key, etcd_err. keep_server. Qed.
Lemma keeps_list : within same_server (etcd_list_all self).
Proof. unfold etcd_list_all, list_by_prefix, etcd_err. keep_server. Qed.

#[export] Instance etcd_separate : Separate W (H1 := etcd_durable self).
Proof.
  split; simpl.
  - intros k f v w d. by rewrite hset_keyspace.
  - intros k f w d. by rewrite hget_keyspace.
  - intros k w d. by rewrite hgetall_keyspace.
  - intros k f w d. by rewrite hdel_keyspace.
  - intros reg w. apply keeps_store.
  - intros j w. apply keeps_remove.
  - intros j w. apply keeps_by_key.
  - intros s w. apply keeps_by_key.
  - intros w. apply keeps_list.
Qed.
End separate.

(** ** What caching a list leaves *)

Lemma cached_all_job regs s j :
  (exists reg, reg ∈ regs /\ job_id reg = j /\ cached_jobs (Spec.cached_all regs s) !! j = Some reg) \/
  ((forall reg, reg ∈ regs -> job_id reg <> j) /\ cached_jobs (Spec.cached_all regs s) !! j = cached_jobs s !! j).
Proof.
  revert s. induction regs as [|r regs IH]; intros s; [right; split; [by intros ? ?%elem_of_nil|done]|].
  change (Spec.cached_all (r :: regs) s) with (Spec.cached_all regs (Spec.cached r s)).
  destruct (IH (Spec.cached r s)) as [(reg & Hin & Hj & Hl)|[Hno Hl]].
  - left. exists reg. split_and!; [by right|done|done].
  - rewrite Hl. unfold Spec.cached. simpl. destruct (decide (job_id r = j)) as [<-|Hne].
    + left. exists r. rewrite lookup_insert_eq. split_and!; [by left|done|done].
    + right. rewrite lookup_insert_ne by done. split; [|done]. intros reg [->|Hin]%elem_of_cons; auto.
Qed.

Lemma cached_all_service regs s reg :
  reg ∈ regs -> (forall reg', reg' ∈ regs -> service_name reg' = service_name reg -> reg' = reg) ->
  cached_services (Spec.cached_all regs s) !! service_name reg = Some reg.
Proof.
  assert (Hkeep : forall regs s, cached_services s !! service_name reg = Some reg ->
    (forall reg', reg' ∈ regs -> service_name reg' = service_name reg -> reg' = reg) ->
    cached_services (Spec.cached_all regs s) !! service_name reg = Some reg).
  { clear. induction regs as [|r regs IH]; intros s Hs Hu; [done|]. apply IH; [|intros ? ?; apply Hu; by right].
    simpl. destruct (decide (service_name r = service_name reg)) as [E|E]; [|by rewrite lookup_insert_ne].
    rewrite (Hu r) by (by left || done). by rewrite lookup_insert_eq. }
  revert s. induction regs as [|r regs IH]; intros s Hin Hu; [by apply elem_of_nil in Hin|].
  change (Spec.cached_all (r :: regs) s) with (Spec.cached_all regs (Spec.cached r s)).
  apply elem_of_cons in Hin as [<-|Hin].
  - apply Hkeep; [simpl; by rewrite lookup_insert_eq|]. intros ? ?. apply Hu. by right.
  - apply IH; [done|]. intros ? ?. apply Hu. by right.
Qed.

(** A listed registration is the only one of its service, if it is filed there. *)
Lemma listed_service d reg reg' :
  filed (by_job d) (by_service d) -> by_service d !! service_name reg = Some reg ->
  reg' ∈ durable_list d -> service_name reg' = service_name reg -> reg' = reg.
Proof.
  intros [_ Hs] Hreg Hin Heq. unfold durable_list in Hin.
  assert (Hin' : reg' ∈ (map_to_list (by_service d)).*2).
  { destruct ((map_to_list (by_service d)).*2) eqn:E; [|done].
    apply fmap_nil_inv in E. apply map_to_list_empty_iff in E. by rewrite E, lookup_empty in Hreg. }
  apply list_elem_of_fmap in Hin' as ([k x] & -> & Hk%elem_of_map_to_list). simpl in *.
  rewrite (Hs _ _ Hk) in Heq. subst k. congruence.
Qed.

(** ** Theorems *)

Section restore.
Context {W : Type} `{JsonTextLaws, Apart W}.

(** C19.  A lost cache comes back at start-up: when the durable registry is enabled
    and the server has lost both hashes, building the registry and hydrating it
    caches every registration etcd holds under the configured prefix, each once;
    from then on a lookup by a job id that succeeds returns a registration of
    that job, and one by a service name that is no job's id returns exactly the
    service's registration.  What is then in the server is all that these
    lookups need. *)
Theorem lost_cache_is_restored config (w w' : W) registry client d :
  build_registry config w = (Ok (registry, Some client), w') ->
  hash REGISTRY_BY_JOB_KEY (server w) = ∅ -> hash REGISTRY_BY_SERVICE_KEY (server w) = ∅ ->
  holds client (keyspace w) d ->
  let hydrate := sync_from_durable (H1 := etcd_durable client) registry in
  let lookup k := get (H1 := etcd_durable client) registry k in
  let connected := (etcd_connect (etcd_endpoint_list (etcd_endpoints config)) w).2 in
  client = mkEtcdClient (normalize_prefix (etcd_key_prefix config)) /\
  (hydrate connected).2 = w' /\ forall n, (hydrate connected).1 = Ok n ->
    n = Z.of_nat (length (durable_list d)) /\
    forall reg, reg ∈ durable_list d ->
      (forall x w2, lookup (job_id reg) w' = (Ok x, w2) ->
         exists reg', x = Some reg' /\ reg' ∈ durable_list d /\ job_id reg' = job_id reg) /\
      (by_service d !! service_name reg = Some reg ->
       (forall reg', reg' ∈ durable_list d -> job_id reg' <> service_name reg) ->
       forall x w2, lookup (service_name reg) w' = (Ok x, w2) -> x = Some reg).
Proof.
  intros Hb Hj Hs Hh hydrate lookup connected. unfold build_registry in Hb.
  destruct (durable_enabled config); [|by unfold ret in Hb].
  unfold connected. clear connected. destruct (etcd_endpoint_list _) as [|e l]; [by unfold ret in Hb|].
  apply try_inv in Hb as (c & w1 & Hc & Hb). unfold bind, ret in Hb, Hc. unfold new_etcd, try, map_err, bind, ret in Hc.
  pose proof (connect_server (e :: l) w) as Hsrv. pose proof (connect_keyspace (e :: l) w) as Hks.
  destruct (etcd_connect (e :: l) w) as [[[]|err] w0]; simpl in *; [|done]. injection Hc as <- <-.
  destruct (sync_from_durable _ w0) as [r w2] eqn:Hsync. injection Hb as <- <- <-.
  split; [done|]. unfold hydrate. rewrite Hsync. split; [done|]. intros n Hn. cbn [fst] in Hn. subst r.
  set (client := mkEtcdClient _) in *.
  assert (Hrep : Rep (H3 := etcd_durable client) (mkJobRegistry true) w0 (mkKnown ∅ ∅ d)).
  { split; simpl; [rewrite Hsrv, Hj; apply map_Forall2_empty|rewrite Hsrv, Hs; apply map_Forall2_empty
      |apply filed_empty|intros _; by rewrite Hks]. }
  assert (Hfiled : filed (by_job d) (by_service d)) by apply Hh.
  apply (sync_rep _ _ _ _ _ Hrep) in Hsync as (regs & Hregs & -> & Hrep'). unfold Spec.synced in Hregs. simpl in Hregs.
  split; [by rewrite Hregs|]. intros reg Hin. rewrite <- Hregs in Hin.
  split; [intros x w3 Hl|intros Hreg Hno x w3 Hl]; apply (get_rep _ _ _ _ _ _ Hrep') in Hl as [-> _];
    unfold Spec.looked_up, Spec.in_cache.
  - destruct (cached_all_job regs (mkKnown ∅ ∅ d) (job_id reg)) as [(reg' & Hin' & Hj' & ->)|[Hnone _]]; [|by destruct (Hnone reg Hin)].
    exists reg'. by rewrite <- Hregs.
  - destruct (cached_all_job regs (mkKnown ∅ ∅ d) (service_name reg)) as [(reg' & Hin' & Hj' & _)|[_ ->]].
    + rewrite Hregs in Hin'. by destruct (Hno reg' Hin').
    + simpl. rewrite lookup_empty. rewrite (cached_all_service _ _ reg); [done|done|].
      intros reg'. rewrite Hregs. by apply listed_service.
Qed.
End restore.

(** ** A server in front of a key space *)
Module Shared.
Abbreviation world := (Pair.world (gmap string string)).

#[global] Instance calls : Etcd world := {|
  etcd_get k := Pair.on_backup (etcd_get k);
  etcd_get_prefix p := Pair.on_backup (etcd_get_prefix p);
  etcd_txn ops := Pair.on_backup (etcd_txn ops) |}.
#[global] Instance connector : EtcdConnector world := {| etcd_connect _ := ret (Ok tt) |}.

Lemma on_backup_ok {A} (m : ST (gmap string string) A) (w : world) a w' :
  Pair.on_backup m w = (a, w') -> m (Pair.backup w) = (a, Pair.backup w').
Proof. unfold Pair.on_backup. destruct (m (Pair.backup w)). intros; by simplify_eq. Qed.

#[global] Instance laws : EtcdLaws world.
Proof.
  refine {| keyspace := Pair.backup |}; unfold etcd_get, etcd_get_prefix, etcd_txn, calls;
    intros until 0; intros He; apply on_backup_ok in He.
  - exact (etcd_get_ok (W := gmap string string) _ _ _ _ He).
  - exact (etcd_get_prefix_ok (W := gmap string string) _ _ _ _ He).
  - exact (etcd_txn_ok (W := gmap string string) _ _ _ He).
Defined.

#[global] Instance apart : Apart world.
Proof.
  split; intros; simpl; unfold Pair.on_cache, Pair.on_backup; try done.
  destruct (Pair.hdel_up w); [|done]. by simpl.
Qed.

Definition config : RegistryConfig := mkRegistryConfig true "http://localhost:2379, " "/nscale/registrations" 5.
Definition client : EtcdClient := mkEtcdClient "/nscale/registrations".

(** Two jobs are in etcd, and nothing in the server. *)
Definition once : gmap string string := (etcd_store client Shop.web (∅ : gmap string string)).2.
Definition stored : gmap string string := (etcd_store client Shop.api once).2.
Definition before : world := Pair.mkWorld Server.empty stored true.
Definition held : durable := durable_store Shop.api (durable_store Shop.web no_durable).

Lemma stored_held : holds client (keyspace before) held.
Proof.
  assert (H1 : etcd_store client Shop.web (∅ : gmap string string) = (Ok tt, once)) by (vm_compute; reflexivity).
  assert (H2 : etcd_store client Shop.api once = (Ok tt, stored)) by (vm_compute; reflexivity).
  assert (U1 : from_utf8_lossy (service_key client (service_name Shop.web)) = service_key client (service_name Shop.web))
    by (vm_compute; reflexivity).
  assert (U2 : from_utf8_lossy (service_key client (service_name Shop.api)) = service_key client (service_name Shop.api))
    by (vm_compute; reflexivity).
  exact (store_holds client Shop.api once stored _
    (store_holds client Shop.web (∅ : gmap string string) once no_durable (holds_empty client) U1 H1) U2 H2).
Qed.
End Shared.

Lemma lost_cache_is_restored_witness :
  fst (build_registry Shared.config Shared.before) = Ok (mkJobRegistry true, Some Shared.client) /\
  let w' := snd (build_registry Shared.config Shared.before) in
  forall x w2, get (H1 := etcd_durable Shared.client) (mkJobRegistry true) "api-http" w' = (Ok x, w2) -> x = Some Shop.api.
Proof.
  assert (Hb : fst (build_registry Shared.config Shared.before) = Ok (mkJobRegistry true, Some Shared.client))
    by (vm_compute; reflexivity).
  split; [exact Hb|]. intros w'.
  assert (Hb' : build_registry Shared.config Shared.before = (Ok (mkJobRegistry true, Some Shared.client), w')).
  { unfold w'. rewrite <- Hb. by destruct (build_registry Shared.config Shared.before). }
  assert (Hj : hash REGISTRY_BY_JOB_KEY (server Shared.before) = ∅) by reflexivity.
  assert (Hs : hash REGISTRY_BY_SERVICE_KEY (server Shared.before) = ∅) by reflexivity.
  destruct (lost_cache_is_restored Shared.config Shared.before w' (mkJobRegistry true) Shared.client
    Shared.held Hb' Hj Hs Shared.stored_held) as (_ & _ & Hr).
  assert (Hn : (sync_from_durable (H1 := etcd_durable Shared.client) (mkJobRegistry true)
    (etcd_connect (etcd_endpoint_list (etcd_endpoints Shared.config)) Shared.before).2).1 = Ok 2) by (vm_compute; reflexivity).
  destruct (Hr 2 Hn) as [_ Hl]. clear Hr Hn.
  assert (Hin : Shop.api ∈ durable_list Shared.held) by (apply (bool_decide_unpack _); vm_compute; exact I).
  assert (Hby : by_service Shared.held !! service_name Shop.api = Some Shop.api) by (vm_compute; reflexivity).
  assert (Hno : Forall (fun reg' => job_id reg' <> service_name Shop.api) (durable_list Shared.held))
    by (apply (bool_decide_unpack _); vm_compute; exact I).
  rewrite Forall_forall in Hno. exact (proj2 (Hl Shop.api Hin) Hby Hno).
Defined.
