(* ===== verification/TestsPure.v ===== *)
(** * TestsPure: the unit tests of the pure functions, run on the model

    The [#[cfg(test)]] modules of [middleware.rs], [inflight.rs],
    [job_mutator.rs], [traffic_probe.rs], [handler.rs], the etcd client and
    [config.rs], and those of [controller.rs] that need no controller, with the
    inputs and the assertions the repository gives them.  A test is a boolean: it
    passes when every assertion holds. *)

From S2P Require Import Prelude Str F64 Core Ifaces InFlight Json Config Http TrafficProbe JobMutator Redis Registry.
From S2P Require Import Etcd Proxy Handler.
Local Open Scope Z_scope.

(** [assert_eq!]. *)
Abbreviation assert_eq a b := (bool_decide (a = b)).

(** A string slice is contained in another. *)
Definition error_contains {A} (needle : string) (r : Result A) : bool :=
  match r with Err e => Str.contains needle (error_to_string e) | Ok _ => false end.

(** ** middleware.rs *)
Module Middleware.
Definition bare_hostname : bool :=
  assert_eq (extract_job_id_from_host "my-service") (Some "my-service").
Definition hostname_with_domain : bool :=
  assert_eq (extract_job_id_from_host "my-service.example.com") (Some "my-service").
Definition hostname_with_port : bool :=
  assert_eq (extract_job_id_from_host "my-service:8080") (Some "my-service").
Definition hostname_with_domain_and_port : bool :=
  assert_eq (extract_job_id_from_host "my-service.example.com:443") (Some "my-service").
Definition subdomain_chain : bool :=
  assert_eq (extract_job_id_from_host "my-service.sub.example.com") (Some "my-service").
Definition ip_address_host : bool := assert_eq (extract_job_id_from_host "192.168.1.1") (Some "192").
Definition ip_address_with_port : bool :=
  assert_eq (extract_job_id_from_host "192.168.1.1:3000") (Some "192").
Definition empty_host_returns_none : bool := assert_eq (extract_job_id_from_host "") None.
Definition port_only_returns_none : bool := assert_eq (extract_job_id_from_host ":8080") None.
Definition localhost : bool := assert_eq (extract_job_id_from_host "localhost") (Some "localhost").
Definition localhost_with_port : bool :=
  assert_eq (extract_job_id_from_host "localhost:3000") (Some "localhost").
Definition hyphenated_job_name : bool :=
  assert_eq (extract_job_id_from_host "my-cool-service.traefik.local:9999") (Some "my-cool-service").

Definition tests : list bool :=
  [bare_hostname; hostname_with_domain; hostname_with_port; hostname_with_domain_and_port; subdomain_chain;
   ip_address_host; ip_address_with_port; empty_host_returns_none; port_only_returns_none; localhost;
   localhost_with_port; hyphenated_job_name].
End Middleware.

(** ** inflight.rs, and the tracker tests of controller.rs

    A tracker is shared by reference: a test threads its state, and a clone is
    the same tracker. *)
Module Tracker.
Definition test_track_and_drop : bool :=
  let t := new_tracker in
  let before := negb (has_in_flight "job-1" t) && assert_eq (count "job-1" t) 0 in
  let '(guard1, t) := track "job-1" t in
  let one := has_in_flight "job-1" t && assert_eq (count "job-1" t) 1 in
  let '(guard2, t) := track "job-1" t in
  let two := assert_eq (count "job-1" t) 2 in
  let t := drop_guard guard1 t in
  let one_left := assert_eq (count "job-1" t) 1 && has_in_flight "job-1" t in
  let t := drop_guard guard2 t in
  before && one && two && one_left && assert_eq (count "job-1" t) 0 && negb (has_in_flight "job-1" t).

Definition test_multiple_jobs : bool :=
  let '(_g1, t) := track "job-a" new_tracker in
  let '(_g2, t) := track "job-b" t in
  has_in_flight "job-a" t && has_in_flight "job-b" t && negb (has_in_flight "job-c" t).

Definition test_clone_shares_state : bool :=
  let '(_guard, tracker) := track "job-1" new_tracker in
  let clone := tracker in has_in_flight "job-1" clone.

Definition test_in_flight_tracker_blocks_scale_down : bool :=
  let job_id := "in-flight-job" in
  let t := new_tracker in
  let untracked := negb (has_in_flight job_id t) in
  let '(guard, t) := track job_id t in
  let held := has_in_flight job_id t && assert_eq (count job_id t) 1 in
  let should_skip := has_in_flight job_id t in
  let '(guard2, t) := track job_id t in
  let both := assert_eq (count job_id t) 2 in
  let t := drop_guard guard t in
  let one_left := has_in_flight job_id t && assert_eq (count job_id t) 1 in
  let t := drop_guard guard2 t in
  let none_left := negb (has_in_flight job_id t) && assert_eq (count job_id t) 0 in
  let should_proceed := negb (has_in_flight job_id t) in
  untracked && held && should_skip && both && one_left && none_left && should_proceed.

Definition test_in_flight_tracker_per_job_isolation : bool :=
  let '(_guard_a, t) := track "job-a" new_tracker in
  let '(_guard_b, t) := track "job-b" t in
  let tracked := has_in_flight "job-a" t && has_in_flight "job-b" t && negb (has_in_flight "job-c" t) in
  let t := drop_guard _guard_a t in
  tracked && negb (has_in_flight "job-a" t) && has_in_flight "job-b" t.

Definition tests : list bool :=
  [test_track_and_drop; test_multiple_jobs; test_clone_shares_state;
   test_in_flight_tracker_blocks_scale_down; test_in_flight_tracker_per_job_isolation].
End Tracker.

(** ** etcd client, config.rs, handler.rs *)
Module Small.
Definition normalizes_prefix : bool :=
  assert_eq (normalize_prefix "/nscale/registrations/") "/nscale/registrations"
  && assert_eq (normalize_prefix "nscale/registrations") "/nscale/registrations"
  && assert_eq (normalize_prefix "   ") "/nscale/registrations".

(** [encode_registration(..).expect(..)] and [decode_registration(..).expect(..)],
    over the printer and the parser of [Redis.Server]. *)
Definition registration_round_trip_codec : bool :=
  let reg := mkReg "job-a" "svc-a" "main" in
  match res_bind (etcd_encode reg) etcd_decode with
  | Ok decoded => assert_eq (job_id decoded) "job-a" && assert_eq (service_name decoded) "svc-a"
                  && assert_eq (nomad_group decoded) "main"
  | Err _ => false
  end.

(** [Config::default()]. *)
Definition socket_port (a : Net.SocketAddr) : Z := match a with Net.V4 _ _ _ _ p => p | Net.V6 _ _ p => p end.

Definition test_default_config : bool :=
  let cfg := default_Config in
  assert_eq (socket_port (listen_addr cfg)) 8080
  && assert_eq (socket_port (admin_addr cfg)) 9090
  && assert_eq (concurrency (nomad cfg)) 50
  && assert_eq (idle_timeout_secs (scaling cfg)) 300
  && assert_eq (as_secs (wake_timeout (scaling cfg))) 60
  && enabled (auto_deregister (scaling cfg))
  && assert_eq (not_found_threshold (auto_deregister (scaling cfg))) 5
  && assert_eq (as_secs (request_timeout (proxy cfg))) 30
  && negb (durable_enabled (registry cfg))
  && assert_eq (etcd_endpoints (registry cfg)) "http://localhost:2379"
  && assert_eq (file_provider_service (routing cfg)) "s2z-nscale@file".

(** Cancellation tokens by name, in a world of the cancelled ones. *)
#[local] Instance tokens : Heartbeats (gset nat) := {|
  spawn_heartbeat _ _ := fun cancelled => (fresh cancelled, cancelled);
  cancel_heartbeat h := fun cancelled => (tt, {[h]} ∪ cancelled) |}.

Definition cancel_on_drop_cancels_token : bool :=
  let '(token, cancelled) := spawn_heartbeat "" None (∅ : gset nat) in
  let before := bool_decide (token ∈ cancelled) in
  let '(_, cancelled) := cancel_on_drop token cancelled in
  negb before && bool_decide (token ∈ cancelled).

Definition replayable_method_only_allows_safe_retries : bool :=
  assert_eq (replayable_method GET) (Some GET) && assert_eq (replayable_method HEAD) (Some HEAD)
  && assert_eq (replayable_method POST) None && assert_eq (replayable_method PUT) None.

Definition tests : list bool :=
  [normalizes_prefix; registration_round_trip_codec; test_default_config; cancel_on_drop_cancels_token;
   replayable_method_only_allows_safe_retries].
End Small.

(** ** job_mutator.rs *)
Module Mutator.
Import Value.
Definition str (k v : string) : string * Value.t := (k, Str v).
Definition file_service : string := "s2z-nscale@file".
Definition tags (l : list string) : string * Value.t := ("Tags", Array (map Str l)).

(** [job["TaskGroups"][0]...["Tags"]] as strings. *)
Definition item (i : nat) (v : option Value.t) : option Value.t := l ← v ≫= as_array; l !! i.
Definition at_key (k : string) (v : option Value.t) : option Value.t := v ≫= Json.get k.
Definition group_services (job : Value.t) : option Value.t := at_key "Services" (item 0 (at_key "TaskGroups" (Some job))).
Definition task_services (job : Value.t) : option Value.t :=
  at_key "Services" (item 0 (at_key "Tasks" (item 0 (at_key "TaskGroups" (Some job))))).
Definition first_tags (services : option Value.t) : list string :=
  default [] (strs <$> (at_key "Tags" (item 0 services) ≫= as_array)).

Definition injects_nscale_tag_into_task_level_service : bool :=
  let job := Object [str "ID" "echo-s2z";
    ("TaskGroups", Array [Object [str "Name" "main";
      ("Tasks", Array [Object [str "Name" "echo";
        ("Services", Array [Object [str "Name" "echo-s2z";
          tags ["traefik.enable=true"; "traefik.http.routers.echo-s2z.rule=Host(`echo-s2z.localhost`)";
                "traefik.http.routers.echo-s2z.entryPoints=http"]]])]])]])] in
  match inject_nscale_tags file_service job with
  | Ok (job, regs) =>
      bool_decide ("traefik.http.routers.echo-s2z.service=s2z-nscale@file" ∈ first_tags (task_services job))
      && assert_eq regs [mkReg "echo-s2z" "echo-s2z" "main"]
  | Err _ => false
  end.

Definition injects_group_level_services_and_overrides_existing_target : bool :=
  let job := Object [str "ID" "api-job";
    ("TaskGroups", Array [Object [str "Name" "main";
      ("Services", Array [Object [str "Name" "api";
        tags ["traefik.enable=true"; "traefik.http.routers.api.rule=Host(`api.example.com`)";
              "traefik.http.routers.api.service=consulcatalog"]]])]])] in
  match inject_nscale_tags file_service job with
  | Ok (job, regs) =>
      let tags := first_tags (group_services job) in
      bool_decide ("traefik.http.routers.api.service=s2z-nscale@file" ∈ tags)
      && negb (bool_decide ("traefik.http.routers.api.service=consulcatalog" ∈ tags))
      && assert_eq (length regs) 1%nat && assert_eq (service_name <$> head regs) (Some "api")
  | Err _ => false
  end.

Definition injects_all_traefik_enabled_services : bool :=
  let job := Object [str "ID" "multi-service-job";
    ("TaskGroups", Array [Object [str "Name" "main";
      ("Tasks", Array [
        Object [str "Name" "svc-a-task";
          ("Services", Array [Object [str "Name" "svc-a";
            tags ["traefik.enable=true"; "traefik.http.routers.svc-a.rule=Host(`a.example.com`)"]]])];
        Object [str "Name" "svc-b-task";
          ("Services", Array [
            Object [str "Name" "svc-b";
              tags ["traefik.enable=true"; "traefik.http.routers.svc-b.rule=Host(`b.example.com`)"]];
            Object [str "Name" "internal"; tags ["other.tag=true"]]])]])]])] in
  match inject_nscale_tags file_service job with
  | Ok (_, regs) =>
      assert_eq (map job_id regs) ["multi-service-job"; "multi-service-job"]
      && assert_eq (map nomad_group regs) ["main"; "main"]
  | Err _ => false
  end.

Definition injection_is_idempotent_on_echo : bool :=
  let target := "traefik.http.routers.echo-s2z.service=s2z-nscale@file" in
  let job := Object [str "ID" "echo-s2z";
    ("TaskGroups", Array [Object [str "Name" "main";
      ("Tasks", Array [Object [str "Name" "echo";
        ("Services", Array [Object [str "Name" "echo-s2z";
          tags ["traefik.enable=true"; "traefik.http.routers.echo-s2z.rule=Host(`echo-s2z.localhost`)";
                target]]])]])]])] in
  match res_bind (inject_nscale_tags file_service job) (fun '(job, first) =>
        res_bind (inject_nscale_tags file_service job) (fun '(job, second) => Ok (job, first, second))) with
  | Ok (job, first, second) =>
      let tags := length (filter (fun tag => tag = target) (first_tags (task_services job))) in
      assert_eq (length first) 1%nat && assert_eq (length second) 1%nat && assert_eq tags 1%nat
  | Err _ => false
  end.

Definition errors_when_traefik_router_name_is_missing : bool :=
  let job := Object [str "ID" "broken-job";
    ("TaskGroups", Array [Object [str "Name" "main";
      ("Tasks", Array [Object [str "Name" "web";
        ("Services", Array [Object [str "Name" "broken"; tags ["traefik.enable=true"]]])]])]])] in
  error_contains "missing explicit router tags" (inject_nscale_tags file_service job).

Definition tests : list bool :=
  [injects_nscale_tag_into_task_level_service; injects_group_level_services_and_overrides_existing_target;
   injects_all_traefik_enabled_services; injection_is_idempotent_on_echo;
   errors_when_traefik_router_name_is_missing].
End Mutator.

(** ** traffic_probe.rs *)
Module Metrics.
Definition label (n v : string) : string := n +:+ "=" +:+ dquote +:+ v +:+ dquote.
Definition sample (code method service value : string) : string :=
  "traefik_service_requests_total{" +:+ label "code" code +:+ "," +:+ label "method" method +:+ ","
  +:+ label "protocol" "http" +:+ "," +:+ label "service" service +:+ "} " +:+ value.
Definition text (ls : list string) : string := foldr (fun l rest => l +:+ String newline rest) "" ls.

Definition test_parse_service_requests_total : bool :=
  let body := text [
    "";
    "# HELP traefik_service_requests_total How many HTTP requests processed, partitioned by status code, protocol, and method.";
    "# TYPE traefik_service_requests_total counter";
    sample "200" "GET" "echo-s2z@consulcatalog" "150";
    sample "200" "POST" "echo-s2z@consulcatalog" "30";
    sample "500" "GET" "echo-s2z@consulcatalog" "2";
    sample "200" "GET" "other-svc@consulcatalog" "999"] in
  assert_eq (parse_service_requests_total body "echo-s2z@consulcatalog") 182
  && assert_eq (parse_service_requests_total body "other-svc@consulcatalog") 999
  && assert_eq (parse_service_requests_total body "missing@consulcatalog") 0.

Definition test_parse_empty_body : bool :=
  assert_eq (parse_service_requests_total "" "foo@consulcatalog") 0.

Definition test_clear_baseline_removes_cached_count : bool :=
  let probe := new_probe "http://unused:8080" "consulcatalog" in
  let job_id := "test-job" in
  let service_label := job_id +:+ "@consulcatalog" in
  let last : baselines := <[service_label := Some 42]> ∅ in
  let seeded := bool_decide (is_Some (last !! service_label)) in
  let '(_, (last, _)) := clear_baseline probe job_id (last, tt) in
  seeded && negb (bool_decide (is_Some (last !! service_label))).

Definition tests : list bool :=
  [test_parse_service_requests_total; test_parse_empty_body; test_clear_baseline_removes_cached_count].
End Metrics.

Definition pure_tests : list bool :=
  Middleware.tests ++ Tracker.tests ++ Small.tests ++ Mutator.tests ++ Metrics.tests.

(** Every test of a pure function passes on the model. *)
Theorem pure_tests_pass : forallb id pure_tests = true.
Proof. vm_compute. reflexivity. Qed.
