(* ===== verification/TestsHttp.v ===== *)
(** * TestsHttp: the unit tests of the HTTP clients, run on the model

    The [#[cfg(test)]] modules of the Nomad client, of Consul's health query and
    of the forwarding of requests.  The repository starts a mock HTTP server for
    each test; here the server is a list of mocks with the requests they match,
    their response, and the calls they expect and have seen. *)

From S2P Require Import Prelude Str F64 Core Json Http Waker Ifaces Nomad Consul Proxy.
From Stdlib Require Import Ascii.
Local Open Scope Z_scope.
Import Value.

(** [assert_eq!]. *)
Abbreviation assert_eq a b := (bool_decide (a = b)).

(** ** The mock server *)

(** Equality of JSON values; the entries of an object in any order. *)
Fixpoint value_eqb (a b : Value.t) : bool :=
  match a, b with
  | Null, Null => true
  | Bool x, Bool y => Bool.eqb x y
  | PosInt x, PosInt y | NegInt x, NegInt y => Z.eqb x y
  | Float x, Float y => bool_decide (x = y)
  | Str x, Str y => String.eqb x y
  | Array l, Array l' =>
      (fix go (l l' : list Value.t) : bool :=
         match l, l' with
         | [], [] => true
         | x :: l, y :: l' => value_eqb x y && go l l'
         | _, _ => false
         end) l l'
  | Object m, Object m' =>
      Nat.eqb (length m) (length m') &&
      (fix go (m : list (string * Value.t)) : bool :=
         match m with
         | [] => true
         | (k, v) :: m => match obj_get k m' with Some v' => value_eqb v v' | None => false end && go m
         end) m
  | _, _ => false
  end.

Record mock := mkMock { matcher : request -> bool; template : response; expected : nat; seen : nat }.

Abbreviation mock_server := (list mock).
Definition uri : string := "http://127.0.0.1:4646".

(** The request's path and its query. *)
Definition target_of (r : request) : string := default "" (strip_prefix uri (url r)).
Definition path_of (r : request) : string := first_piece "?"%char (target_of r).
Definition query_of (r : request) : list string :=
  match split_once "?"%char (target_of r) with Some (_, q) => split_char "&"%char q | None => [] end.

(** wiremock's matchers. *)
Definition is_method (m : Method) (r : request) : bool := bool_decide (method r = m).
Definition path (p : string) (r : request) : bool := String.eqb (path_of r) p.
Definition path_starts (p : string) (r : request) : bool := starts_with p (path_of r).
Definition query_param (k v : string) (r : request) : bool := existsb (String.eqb (k +:+ "=" +:+ v)) (query_of r).
Definition body_json (v : Value.t) (r : request) : bool :=
  match json_body r with Some b => value_eqb b v | None => false end.

(** [ResponseTemplate]. *)
Definition json_reply (status : Z) (headers : list (string * string)) (v : Value.t) : response :=
  mkResponse status headers (Err (mkReqwestError "json body" false false None)) (Ok v).
Definition text_reply (status : Z) (s : string) : response :=
  mkResponse status [] (Ok s) (Err (mkReqwestError "expected value" false false None)).

Definition given (m : request -> bool) (r : response) : mock := mkMock m r 1 0.

(** The first mock that matches answers; a request that none matches gets 404. *)
Fixpoint answer (r : request) (s : mock_server) : response * mock_server :=
  match s with
  | [] => (text_reply 404 "", [])
  | m :: s' =>
      if matcher m r then (template m, mkMock (matcher m) (template m) (expected m) (S (seen m)) :: s')
      else let '(resp, s'') := answer r s' in (resp, m :: s'')
  end.

#[local] Instance mock_http : HttpClient mock_server := {|
  http_send r := fun s => let '(resp, s') := answer r s in (Ok resp, s');
  status_display := show_Z;
  decode_error _ := mkReqwestError "error decoding response body" false false None |}.

(** [expect(1)], verified when the server is dropped. *)
Definition verified (s : mock_server) : bool := forallb (fun m => Nat.eqb (seen m) (expected m)) s.

(** A test: the call's result satisfies the assertions and the mocks are
    verified. *)
Definition run_test {A} (s : mock_server) (m : M mock_server A) (ok : Result A -> bool) : bool :=
  let '(r, s') := m s in ok r && verified s'.

Definition str (k v : string) : string * Value.t := (k, Str v).
Definition int (k : string) (n : Z) : string * Value.t := (k, PosInt n).

(** [assert!(result.is_ok())] and the error patterns. *)
Definition is_job_not_found {A} (job : string) (r : Result A) : bool :=
  match r with Err (NscaleError.JobNotFound j) => String.eqb j job | _ => false end.
Definition is_nomad_error {A} (r : Result A) : bool :=
  match r with Err (NscaleError.Nomad _) => true | _ => false end.

(** ** client.rs of nscale-nomad *)
Module NomadTests.
#[local] Instance builder : ClientBuilder := {| invalid_header _ := None; build_error _ := None |}.

(** [NomadClient::new(&mock_server.uri(), None).unwrap()]: a test whose client
    cannot be built fails. *)
Definition with_client {A} (s : mock_server) (call : NomadClient -> M mock_server A) (ok : Result A -> bool) : bool :=
  match new_nomad uri None with Ok client => run_test s (call client) ok | Err _ => false end.

Definition hcl : string := "job " +:+ dquote +:+ "example" +:+ dquote +:+ " {}".
Definition hcl_variables : string := "var.project_id = " +:+ dquote +:+ "demo" +:+ dquote.
Definition example_job : Value.t := Object [str "ID" "example"; ("TaskGroups", Array [])].

Definition test_parse_job : bool :=
  with_client
    [given (fun r => is_method POST r && path "/v1/jobs/parse" r
              && body_json (Object [str "JobHCL" hcl; ("Canonicalize", Bool true); str "Variables" hcl_variables]) r)
       (json_reply 200 [] example_job)]
    (fun client => parse_job client hcl (Some hcl_variables))
    (fun r => match r with Ok job => assert_eq (Json.get "ID" job ≫= as_str) (Some "example") | Err _ => false end).

Definition test_submit_job : bool :=
  with_client
    [given (fun r => is_method POST r && path "/v1/jobs" r && body_json (Object [("Job", example_job)]) r)
       (json_reply 200 [] (Object [str "EvalID" "eval-123"; int "JobModifyIndex" 42; str "Warnings" ""]))]
    (fun client => submit_job client example_job)
    (fun r => match r with
     | Ok response => assert_eq (submit_eval_id response) "eval-123"
                      && assert_eq (submit_job_modify_index response) 42
                      && assert_eq (submit_warnings response) (Some "")
     | Err _ => false end).

Definition scale_mock (resp : response) : mock_server :=
  [given (fun r => is_method POST r && path "/v1/job/test-job/scale" r) resp].
Definition no_warnings : Value.t := Object [str "Warnings" ""].
Definition blocked : string := "job scaling blocked due to active deployment".

Definition test_scale_up : bool :=
  with_client (scale_mock (json_reply 200 [] no_warnings))
    (fun client => nomad_scale_up client "test-job" "web" 1) is_ok.

Definition test_scale_down : bool :=
  with_client (scale_mock (json_reply 200 [] no_warnings))
    (fun client => nomad_scale_down client "test-job" "web") is_ok.

Definition test_scale_down_active_deployment_returns_deployment_in_progress : bool :=
  with_client (scale_mock (text_reply 400 blocked))
    (fun client => nomad_scale_down client "test-job" "web")
    (fun r => match r with
     | Err (NscaleError.DeploymentInProgress job_id operation) =>
         assert_eq operation "scale down" && assert_eq job_id "test-job"
     | _ => false end).

Definition test_scale_down_job_not_found_returns_job_not_found : bool :=
  with_client (scale_mock (text_reply 400 "job not found or invalid group"))
    (fun client => nomad_scale_down client "test-job" "web") (is_job_not_found "test-job").

Definition test_scale_down_invalid_group_fails : bool :=
  with_client (scale_mock (text_reply 400 "invalid group"))
    (fun client => nomad_scale_down client "test-job" "web") is_nomad_error.

Definition test_get_job_count : bool :=
  with_client
    [given (fun r => is_method GET r && path "/v1/job/test-job" r)
       (json_reply 200 [] (Object [str "ID" "test-job"; str "Name" "test-job"; str "Status" "running";
          ("TaskGroups", Array [Object [str "Name" "web"; int "Count" 2]])]))]
    (fun client => nomad_get_job_count client "test-job" "web")
    (fun r => match r with Ok count => assert_eq count 2 | Err _ => false end).

Definition allocations_mock (allocs : list Value.t) : mock_server :=
  [given (fun r => is_method GET r && path "/v1/job/test-job/allocations" r) (json_reply 200 [] (Array allocs))].

Definition test_get_healthy_endpoint_running : bool :=
  with_client
    (allocations_mock [Object [str "ID" "alloc-1"; str "JobID" "test-job"; str "ClientStatus" "running";
       str "DesiredStatus" "run"; str "TaskGroup" "web";
       ("AllocatedResources", Object [("Shared", Object [
          ("Ports", Array [Object [str "Label" "http"; int "Value" 28000; int "To" 8080; str "HostIP" "10.0.0.1"]]);
          ("Networks", Array [Object [str "IP" "10.0.0.1"; ("DynamicPorts", Array []); ("ReservedPorts", Array [])]])])])]])
    (fun client => nomad_get_healthy_endpoint client "test-job")
    (fun r => match r with
     | Ok (Some ep) => assert_eq (host ep) "10.0.0.1" && assert_eq (port ep) 28000
     | _ => false end).

Definition test_get_healthy_endpoint_none_running : bool :=
  with_client
    (allocations_mock [Object [str "ID" "alloc-1"; str "JobID" "test-job"; str "ClientStatus" "complete";
       str "DesiredStatus" "stop"; str "TaskGroup" "web"]])
    (fun client => nomad_get_healthy_endpoint client "test-job")
    (fun r => match r with Ok None => true | _ => false end).

Definition test_nomad_error_response : bool :=
  with_client
    [given (fun r => is_method GET r && path "/v1/job/missing-job" r) (text_reply 404 "job not found")]
    (fun client => get_job client "missing-job") (is_job_not_found "missing-job").

Definition test_scale_up_active_deployment_succeeds : bool :=
  with_client (scale_mock (text_reply 400 blocked))
    (fun client => nomad_scale_up client "test-job" "web" 1) is_ok.

Definition test_scale_up_job_not_found_returns_job_not_found : bool :=
  with_client (scale_mock (text_reply 400 "job not found or invalid group"))
    (fun client => nomad_scale_up client "test-job" "web" 1) (is_job_not_found "test-job").

Definition test_scale_up_invalid_group_fails : bool :=
  with_client (scale_mock (text_reply 400 "invalid group"))
    (fun client => nomad_scale_up client "test-job" "web" 1) is_nomad_error.

Definition purge_mock (resp : response) : mock_server :=
  [given (fun r => is_method DELETE r && path "/v1/job/test-job" r && query_param "purge" "true" r) resp].

Definition test_stop_and_purge_job : bool :=
  with_client
    (purge_mock (json_reply 200 []
       (Object [str "EvalID" "eval-stop-123"; int "EvalCreateIndex" 99; int "JobModifyIndex" 42])))
    (fun client => stop_and_purge_job client "test-job")
    (fun r => match r with
     | Ok response => assert_eq (stop_eval_id response) "eval-stop-123"
                      && assert_eq (eval_create_index response) 99
                      && assert_eq (stop_job_modify_index response) 42
     | Err _ => false end).

Definition test_stop_and_purge_missing_job_returns_job_not_found : bool :=
  with_client (purge_mock (text_reply 404 "job not found"))
    (fun client => stop_and_purge_job client "test-job") (is_job_not_found "test-job").

Definition tests : list bool :=
  [test_parse_job; test_submit_job; test_scale_up; test_scale_down;
   test_scale_down_active_deployment_returns_deployment_in_progress;
   test_scale_down_job_not_found_returns_job_not_found; test_scale_down_invalid_group_fails; test_get_job_count;
   test_get_healthy_endpoint_running; test_get_healthy_endpoint_none_running; test_nomad_error_response;
   test_scale_up_active_deployment_succeeds; test_scale_up_job_not_found_returns_job_not_found;
   test_scale_up_invalid_group_fails; test_stop_and_purge_job;
   test_stop_and_purge_missing_job_returns_job_not_found].
End NomadTests.

(** ** health.rs of nscale-consul *)
Module ConsulTests.
#[local] Instance builder : ClientBuilder := {| invalid_header _ := None; build_error _ := None |}.

(** The tests take no time: the clock stands still. *)
#[local] Instance still : Clock mock_server := {| now := ret 0; sleep _ := ret tt |}.

(** [wait_for_healthy_service(&"my-svc".into(), Duration::from_secs(5))]: the
    first reply ends the wait. *)
Definition wait_for_my_svc (s : mock_server) (ok : Endpoint -> bool) : bool :=
  match new_consul uri None with
  | Ok client =>
      let '(r, s') := wait_for_healthy_service client 2 "my-svc" (duration_from_secs 5) s in
      match r with Ok (Some (Ok ep)) => ok ep && verified s' | _ => false end
  | Err _ => false
  end.

Definition service_entry (id address : string) (port : Z) (tags : list string) : Value.t :=
  Object [("Service", Object [str "ID" id; str "Address" address; int "Port" port;
                              ("Tags", Array (map Str tags))])].
Definition health_mock (index : string) (entries : list Value.t) : mock_server :=
  [given (fun r => is_method GET r && path_starts "/v1/health/service/my-svc" r)
     (json_reply 200 [("X-Consul-Index", index)] (Array entries))].

Definition test_wait_for_healthy_immediate : bool :=
  wait_for_my_svc (health_mock "42" [service_entry "my-svc-1" "10.0.0.5" 9090 []])
    (fun ep => assert_eq (host ep) "10.0.0.5" && assert_eq (port ep) 9090).

Definition test_wait_for_healthy_skips_fallback : bool :=
  wait_for_my_svc
    (health_mock "100" [service_entry "nscale-fallback-my-svc" "10.0.0.1" 8080 ["nscale-fallback"];
                        service_entry "my-svc-real" "10.0.0.10" 3000 ["http"]])
    (fun ep => assert_eq (host ep) "10.0.0.10" && assert_eq (port ep) 3000).

Definition tests : list bool := [test_wait_for_healthy_immediate; test_wait_for_healthy_skips_fallback].
End ConsulTests.

(** ** proxy.rs *)
Module ProxyTests.
(** The backend server: what it matches, and the requests it has seen. *)
Record backend := mkBackend {
  accepts : outbound -> bool; reply_with : res reqwest_error reply; received : list outbound }.
#[local] Instance http_backend : Backend backend := {|
  forward_send o := fun b =>
    (if accepts b o then reply_with b else Ok (mkReply 404 [] ""),
     mkBackend (accepts b) (reply_with b) (received b ++ [o]));
  build_reply r := Ok r;
  valid_uri _ := true |}.
#[local] Instance no_upgrade : Upgrade backend := {|
  tcp_connect _ := ret (Err (mkIoError "connection refused" false));
  http1_handshake := ret (Ok tt);
  send_upgrade _ := ret (Err "not connected");
  valid_header_value _ := true |}.

Definition client_of (o : outbound) (addr : Endpoint) (path : string) : bool :=
  String.eqb (out_url o) (endpoint_base_url addr "http" +:+ path).

Definition assert_forward_request_preserves_method_and_body (request_method : Method) (request_path request_body : string) : bool :=
  let addr := mkEndpoint "127.0.0.1" 34567 in
  let server := mkBackend (fun o => bool_decide (out_method o = request_method) && client_of o addr request_path
                             && bool_decide (header "x-test-header" (out_headers o) = Some "nscale")
                             && String.eqb (out_body o) request_body)
                  (Ok (mkReply 202 [] "forwarded")) [] in
  let request := mkInbound request_method (Some request_path)
                   [("host", "echo-s2z.example"); ("x-test-header", "nscale")] request_body in
  let '(r, server') := forward_request addr request server in
  match r with
  | Ok response => assert_eq (reply_status response) 202 && assert_eq (reply_body response) "forwarded"
                   && assert_eq (length (received server')) 1%nat
  | Err _ => false
  end.

(** A closed port: the connection is refused. *)
Definition forward_request_marks_connect_failures_retryable : bool :=
  let closed := mkBackend (fun _ => true) (Err (mkReqwestError "error sending request" true false None)) [] in
  let request := mkInbound GET (Some "/") [] "" in
  match (forward_request (mkEndpoint "127.0.0.1" 34567) request closed).1 with
  | Err err => is_retryable_transport err && (is_connect err || is_timeout err)
               && assert_eq (status_code err) BAD_GATEWAY && assert_eq (response_status err) None
  | Ok _ => false
  end.

Definition message (m : string) : string :=
  "{" +:+ dquote +:+ "message" +:+ dquote +:+ ":" +:+ dquote +:+ m +:+ dquote +:+ "}".

Definition forward_request_preserves_post_method_and_body : bool :=
  assert_forward_request_preserves_method_and_body POST "/submit" (message "hello from post").
Definition forward_request_preserves_put_method_and_body : bool :=
  assert_forward_request_preserves_method_and_body PUT "/resource/42" (message "hello from put").

Definition detects_websocket_upgrade_tokens_case_insensitively : bool :=
  let request := mkInbound GET (Some "/socket") [("connection", "keep-alive, Upgrade"); ("upgrade", "WebSocket")] "" in
  let regular_request := mkInbound GET (Some "/socket") [("upgrade", "websocket")] "" in
  is_websocket_upgrade request && negb (is_websocket_upgrade regular_request).

(** The upgrade of a connection, up to its response: the backend checks the
    handshake it is sent and switches protocols, and the guard that goes with the
    tunnel is still held when the proxy responds.  The bytes that then pass
    through the tunnel are the sockets' and not modelled. *)
Record upgrading := mkUpgrading { handshakes : list inbound; dropped : bool }.
#[local] Instance upgrade_backend : Upgrade upgrading := {|
  tcp_connect _ := ret (Ok tt);
  http1_handshake := ret (Ok tt);
  send_upgrade r := fun u =>
    (if header_contains_token (in_headers r) "connection" "upgrade"
        && header_contains_token (in_headers r) "upgrade" "websocket"
     then Ok (mkReply SWITCHING_PROTOCOLS [("connection", "upgrade"); ("upgrade", "websocket")] "")
     else Err "assertion failed",
     mkUpgrading (handshakes u ++ [r]) (dropped u));
  valid_header_value _ := true |}.
#[local] Instance no_backend : Backend upgrading := {|
  forward_send _ := ret (Err (mkReqwestError "not used" false false None));
  build_reply r := Ok r;
  valid_uri _ := true |}.
#[local] Instance staying : Peer upgrading := {| peer_gone := ret false |}.
Definition drop_signal : ST upgrading unit := fun u => (tt, mkUpgrading (handshakes u) true).

Definition forwards_websocket_upgrade : bool :=
  let request := mkInbound GET (Some "/socket")
    [("host", "websocket.example"); ("connection", "Upgrade"); ("upgrade", "websocket");
     ("sec-websocket-version", "13"); ("sec-websocket-key", "MTIzNDU2Nzg5MDEyMzQ1Ng==")] "" in
  let '((r, in_tunnel), u) :=
    forward_websocket_upgrade (mkEndpoint "127.0.0.1" 34567) request drop_signal (mkUpgrading [] false) in
  match r with
  | Ok (Ok response) => assert_eq (reply_status response) 101 && assert_eq (length (handshakes u)) 1%nat
                        && in_tunnel && negb (dropped u)
  | _ => false
  end.

Definition tests : list bool :=
  [forward_request_marks_connect_failures_retryable; forward_request_preserves_post_method_and_body;
   forward_request_preserves_put_method_and_body; detects_websocket_upgrade_tokens_case_insensitively;
   forwards_websocket_upgrade].
End ProxyTests.

Definition http_tests : list bool := NomadTests.tests ++ ConsulTests.tests ++ ProxyTests.tests.

(** Every test of an HTTP client passes on the model, with its mocks verified. *)
Theorem http_tests_pass : forallb id http_tests = true.
Proof. vm_compute. reflexivity. Qed.
