(* ===== verification/TestsWake.v ===== *)
(** * TestsWake: the unit tests of the coordinator and the controller, run on the model

    The [#[cfg(test)]] modules of [coordinator.rs] and [controller.rs].  A test
    with one caller runs each method to its end ([Sequential.drive]); a test with
    concurrent callers is an execution of [Waker]: the threads take turns, or the
    steps are listed in the order the test's timing imposes. *)

From S2P Require Import Prelude Str F64 Core Http Waker Ifaces InFlight Sequential Controller.
Local Open Scope Z_scope.

(** [assert_eq!]. *)
Abbreviation assert_eq a b := (bool_decide (a = b)).

Abbreviation Coordinator_state := (Coord QueueChannel.chan).

(** ** The coordinator run by one caller *)
(** The mocks answer before a request's timer passes. *)
#[local] Instance patient {W} : Patience W := {| timer_fires := ret false; wait_cut_short _ _ := ret false |}.

Section driven.
Context {W : Type} `{Orchestrator W, ServiceDiscovery W}.
Context (wake_timeout : Z).

(** More steps than any method takes. *)
Definition steps : nat := 40.

Definition pending : NscaleError.t := NscaleError.JobNotReady "pending".

#[local] Instance driven_coordinator : Coordinator (Coordinator_state * W) := {|
  ensure_running reg := (
    let* t := drive wake_timeout steps (Req reg RFast) in
    ret (match t with Req _ (RDone r) => r | _ => Err pending end))%st;
  mark_dormant job := (let* _ := drive wake_timeout steps (Mark job MRemoveEndpoint) in ret tt)%st;
  invalidate job := (let* _ := drive wake_timeout steps (Mark job MRemoveEndpoint) in ret tt)%st;
  refresh_endpoint reg current := (
    let* t := drive wake_timeout steps (Refresh reg current FFetch) in
    ret (match t with Refresh _ _ (FFinished r) => r | _ => Err pending end))%st;
  is_ready job := (let* c := get_st in ret (coordinator_is_ready job c))%st |}.
End driven.
#[local] Existing Instance driven_coordinator.

(** ** coordinator.rs *)
Module CoordinatorTests.
(** [MockOrchestrator]: counts the [scale_up] calls. *)
Record MockOrchestrator := mkMockOrchestrator {
  scale_up_calls : Z; job_not_found_on_scale_up : bool; healthy_endpoint : option Endpoint }.

Definition new_orch : MockOrchestrator := mkMockOrchestrator 0 false (Some (mkEndpoint "10.0.0.1" 8080)).
Definition set_healthy_endpoint (ep : option Endpoint) (o : MockOrchestrator) : MockOrchestrator :=
  mkMockOrchestrator (scale_up_calls o) (job_not_found_on_scale_up o) ep.
Definition set_job_not_found_on_scale_up (b : bool) (o : MockOrchestrator) : MockOrchestrator :=
  mkMockOrchestrator (scale_up_calls o) b (healthy_endpoint o).

#[local] Instance mock_orchestrator : Orchestrator MockOrchestrator := {|
  scale_up _ _ _ := fun o =>
    (if job_not_found_on_scale_up o then Err (NscaleError.JobNotFound "test-job") else Ok tt,
     mkMockOrchestrator (scale_up_calls o + 1) (job_not_found_on_scale_up o) (healthy_endpoint o));
  scale_down _ _ := ret (Ok tt);
  get_job_count _ _ := ret (Ok 1);
  get_healthy_endpoint _ := fun o => (Ok (healthy_endpoint o), o) |}.

(** [MockDiscovery]: an endpoint at once. *)
#[local] Instance mock_discovery : ServiceDiscovery MockOrchestrator := {|
  register_fallback _ _ := ret (Ok tt);
  deregister_fallback _ := ret (Ok tt);
  wait_for_healthy _ _ := ret (Ok (mkEndpoint "10.0.0.1" 8080)) |}.

Definition test_registration : JobRegistration := mkReg "test-job" "test-svc" "web".
Definition wake_timeout : Z := duration_from_secs 2.

Abbreviation world := (Coordinator_state * MockOrchestrator)%type.
#[local] Instance coord : Coordinator world := driven_coordinator wake_timeout.

(** [WakeCoordinator::new(orch, disc, 10, ..)]. *)
Definition start (o : MockOrchestrator) : world := (shared (initial 10), o).

(** Assertions in the course of a test. *)
Definition check (f : world -> bool) : ST world bool := fun w => (f w, w).
Definition calls_are (n : Z) (w : world) : bool := assert_eq (scale_up_calls w.2) n.
Definition job_ready (w : world) : bool := coordinator_is_ready (job_id test_registration) w.1.
Definition with_orch (f : MockOrchestrator -> MockOrchestrator) : ST world unit := fun w => (tt, (w.1, f w.2)).
Definition endpoint_is (h : string) (p : Z) (r : Result Endpoint) : bool :=
  match r with Ok ep => assert_eq (host ep) h && assert_eq (port ep) p | Err _ => false end.
Definition host_is (h : string) (r : Result Endpoint) : bool :=
  match r with Ok ep => assert_eq (host ep) h | Err _ => false end.
Definition passes (m : ST world bool) (o : MockOrchestrator) : bool := (m (start o)).1.

Definition test_single_wake_up : bool := passes (
  let* ep := ensure_running test_registration in
  let* calls := check (calls_are 1) in
  ret (endpoint_is "10.0.0.1" 8080 ep && calls))%st new_orch.

Definition test_ready_returns_cached : bool := passes (
  let* first := ensure_running test_registration in
  let* calls := check (calls_are 1) in
  let* ep := ensure_running test_registration in
  let* still := check (calls_are 1) in
  ret (is_ok first && calls && host_is "10.0.0.1" ep && still))%st new_orch.

Definition test_mark_dormant_resets_state : bool := passes (
  let* ep := ensure_running test_registration in
  let* awake := check job_ready in
  do* mark_dormant (job_id test_registration) in
  let* asleep := check job_ready in
  ret (host_is "10.0.0.1" ep && awake && negb asleep))%st new_orch.

Definition test_invalidate_clears_cache_triggers_rewake : bool := passes (
  let* ep := ensure_running test_registration in
  let* calls := check (calls_are 1) in
  let* awake := check job_ready in
  do* invalidate (job_id test_registration) in
  let* asleep := check job_ready in
  let* ep2 := ensure_running test_registration in
  let* again := check (calls_are 2) in
  ret (host_is "10.0.0.1" ep && calls && awake && negb asleep && host_is "10.0.0.1" ep2 && again))%st new_orch.

Definition test_refresh_endpoint_updates_cached_endpoint : bool := passes (
  let* r := ensure_running test_registration in
  match r with
  | Err _ => ret false
  | Ok current =>
      do* with_orch (set_healthy_endpoint (Some (mkEndpoint "10.0.0.2" 9090))) in
      let* refreshed := refresh_endpoint test_registration current in
      let* cached := ensure_running test_registration in
      ret (match refreshed with
           | Ok (EndpointRefresh.Updated ep) => assert_eq (host ep) "10.0.0.2" && assert_eq (port ep) 9090
           | _ => false
           end && endpoint_is "10.0.0.2" 9090 cached)
  end)%st new_orch.

Definition test_refresh_endpoint_missing_clears_cache : bool := passes (
  let* r := ensure_running test_registration in
  match r with
  | Err _ => ret false
  | Ok current =>
      do* with_orch (set_healthy_endpoint None) in
      let* refreshed := refresh_endpoint test_registration current in
      let* left := check job_ready in
      ret (match refreshed with Ok EndpointRefresh.Missing => true | _ => false end && negb left)
  end)%st new_orch.

Definition test_job_not_found_propagates_through_wake_coordinator : bool := passes (
  let* result := ensure_running test_registration in
  ret (match result with Err (NscaleError.JobNotFound job_id) => assert_eq job_id "test-job" | _ => false end))%st
  (set_job_not_found_on_scale_up true new_orch).

(** ** Concurrent callers *)

Abbreviation running := (config QueueChannel.chan * MockOrchestrator)%type.

Definition spawn (reg : JobRegistration) : ST running unit := fun s =>
  (tt, (default s.1 (exec wake_timeout (CallEnsure reg) s.1), s.2)).

(** The steps whose reply a test's timing holds back. *)
Definition held_health (t : thread) : bool :=
  match t with Task _ _ (THealth | THealthZero) => true | _ => false end.

(** The reply a thread awaits. *)
Definition reply_to (t : thread) : ST MockOrchestrator input :=
  match t with Task _ _ _ => task_input wake_timeout false t | _ => caller_input t end.

(** A turn of a thread: the reply it awaits is asked for, and the step taken if
    it can be. *)
Definition turn (held : thread -> bool) (tid : nat) : ST running unit := fun s =>
  match threads s.1 !! tid with
  | Some t =>
      if held t then (tt, s)
      else let '(i, o) := reply_to t s.2 in
           match exec wake_timeout (Step tid i) s.1 with Some g => (tt, (g, o)) | None => (tt, s) end
  | None => (tt, s)
  end.

(** [n] rounds in which every thread has a turn. *)
Fixpoint rounds (held : thread -> bool) (n : nat) : ST running unit :=
  match n with
  | O => ret tt
  | S n' => fun s => bind (for_each (turn held) (seq 0 (next_tid s.1))) (fun _ => rounds held n') s
  end.

Definition request_result (g : config QueueChannel.chan) (tid : nat) : option (Result Endpoint) :=
  match threads g !! tid with Some (Req _ (RDone r)) => Some r | _ => None end.
Definition finished_ok (g : config QueueChannel.chan) (tid : nat) : bool :=
  match request_result g tid with Some r => is_ok r | None => false end.

(** Twenty requests for one job, spawned before any of them runs. *)
Definition test_coalescing_multiple_requests : bool :=
  let '(_, (g, o)) := (
    do* for_each spawn (replicate 20 test_registration) in
    rounds (fun _ => false) 20)%st (initial 10, new_orch) in
  forallb (finished_ok g) (seq 0 20) && assert_eq (scale_up_calls o) 1.

(** The subscriber's future is dropped after 200 ms, while the health wait takes
    10 s; the polls of the next two seconds find no receiver. *)
Definition test_wake_abandoned_when_all_subscribers_disconnect : bool :=
  let schedule := CallEnsure test_registration :: repeat (Step 0 Go) 6
                  ++ [Step 1 Go; Step 1 (ReplyUnit (Ok tt)); Step 0 Drop; Step 1 Poll; Step 1 Poll]
                  ++ repeat (Step 1 Go) 3 in
  match Waker.run wake_timeout schedule (initial 10) with
  | Some g =>
      assert_eq (request_result g 0) None
      && negb (coordinator_is_ready (job_id test_registration) (shared g))
      && bool_decide (jobs (shared g) !! job_id test_registration = None)
      && assert_eq (length (scale_ups (shared g))) 1%nat
  | None => false
  end.

(** Two jobs and one permit: both [scale_up] calls are through while both health
    waits are still going on, and then both wakes finish. *)
Definition test_semaphore_released_after_scale_up_not_after_health : bool :=
  let reg1 := mkReg "job-1" "svc-1" "web" in
  let reg2 := mkReg "job-2" "svc-2" "web" in
  let '(_, (g, o)) := (do* for_each spawn [reg1; reg2] in rounds held_health 20)%st (initial 1, new_orch) in
  let waiting := forallb (fun t => held_health t)
                   (omap (fun tid => t ← threads g !! tid; match t with Task _ _ _ => Some t | _ => None end) (seq 0 (next_tid g))) in
  let '(_, (g', o')) := rounds (fun _ => false) 20 (g, o) in
  waiting && assert_eq (scale_up_calls o) 2 && finished_ok g' 0 && finished_ok g' 1
  && assert_eq (scale_up_calls o') 2.

Definition tests : list bool :=
  [test_single_wake_up; test_coalescing_multiple_requests; test_ready_returns_cached; test_mark_dormant_resets_state;
   test_invalidate_clears_cache_triggers_rewake; test_refresh_endpoint_updates_cached_endpoint;
   test_refresh_endpoint_missing_clears_cache; test_job_not_found_propagates_through_wake_coordinator;
   test_wake_abandoned_when_all_subscribers_disconnect; test_semaphore_released_after_scale_up_not_after_health].
End CoordinatorTests.

(** ** controller.rs *)
Module ControllerTests.
(** [MockOrchestrator], [MockDiscovery] and [MockStore] in one world, with the
    clock. *)
Record Mocks := mkMocks {
  scale_down_calls : Z;
  idle_jobs : list JobId;
  lock_acquired : bool;
  record_activity_calls : Z;
  remove_activity_calls : Z }.

Definition new_mocks (idle : list JobId) : Mocks := mkMocks 0 idle false 0 0.

#[local] Instance controller_orchestrator : Orchestrator Mocks := {|
  scale_up _ _ _ := ret (Ok tt);
  scale_down _ _ := fun m =>
    (Ok tt, mkMocks (scale_down_calls m + 1) (idle_jobs m) (lock_acquired m) (record_activity_calls m) (remove_activity_calls m));
  get_job_count _ _ := ret (Ok 0);
  get_healthy_endpoint _ := ret (Ok None) |}.

#[local] Instance mock_store : ActivityStore Mocks := {|
  record_activity _ := fun m =>
    (Ok tt, mkMocks (scale_down_calls m) (idle_jobs m) (lock_acquired m) (record_activity_calls m + 1) (remove_activity_calls m));
  get_idle_jobs _ := fun m => (Ok (idle_jobs m), m);
  has_activity j := fun m => (Ok (existsb (String.eqb j) (idle_jobs m)), m);
  try_acquire_lock _ _ := fun m =>
    (Ok (negb (lock_acquired m)),
     mkMocks (scale_down_calls m) (idle_jobs m) true (record_activity_calls m) (remove_activity_calls m));
  release_lock _ := fun m =>
    (Ok tt, mkMocks (scale_down_calls m) (idle_jobs m) false (record_activity_calls m) (remove_activity_calls m));
  remove_activity _ := fun m =>
    (Ok tt, mkMocks (scale_down_calls m) (idle_jobs m) (lock_acquired m) (record_activity_calls m) (remove_activity_calls m + 1)) |}.

#[local] Instance controller_discovery : ServiceDiscovery Mocks := {|
  register_fallback _ _ := ret (Ok tt);
  deregister_fallback _ := ret (Ok tt);
  wait_for_healthy _ _ := ret (Ok (mkEndpoint "10.0.0.1" 8080)) |}.

Definition registration_of (job_id : string) : JobRegistration := mkReg job_id ("svc-" +:+ job_id) "web".

(** The lock of the store: taken, refused, released, taken again. *)
Definition test_scale_down_controller_single_tick : bool :=
  let store := new_mocks ["job-a"; "job-b"] in
  let acquired r := match r with Ok b => b | Err _ => false end in
  ((let* first := try_acquire_lock "test" (duration_from_secs 5) in
    let* second := try_acquire_lock "test" (duration_from_secs 5) in
    let* released := release_lock "test" in
    let* third := try_acquire_lock "test" (duration_from_secs 5) in
    ret (acquired first && match second with Ok b => negb b | Err _ => false end && is_ok released && acquired third))%st
     store).1.

(** The coordinator and the mocks; no probe, and the time stands still. *)
Abbreviation world := (Coordinator_state * Mocks)%type.
#[local] Instance coord : Coordinator world := driven_coordinator (duration_from_secs 2).
#[local] Instance store : ActivityStore world := {|
  record_activity j := lift (record_activity j);
  get_idle_jobs d := lift (get_idle_jobs d);
  has_activity j := lift (has_activity j);
  try_acquire_lock k ttl := lift (try_acquire_lock k ttl);
  release_lock k := lift (release_lock k);
  remove_activity j := lift (remove_activity j) |}.
#[local] Instance no_probe : Probe world := {| has_active_traffic _ := ret (Ok false); clear_baseline _ := ret tt |}.
#[local] Instance still : Clock world := {| now := ret 0; sleep _ := ret tt |}.
Definition self : ScaleDownController :=
  new_controller false (duration_from_secs 300) (duration_from_secs 30) true 5.

Definition job_ready (job : JobId) (w : world) : bool := coordinator_is_ready job w.1.

(** A registration whose job is awake, then what [handle_scale_down_result] makes
    of the result: whether the job was ready before, the deferred jobs and the
    world after. *)
Definition handled (job : string) (result : Result unit) : bool * (deferred * world) :=
  let reg := registration_of job in
  let '(r, w) := (ensure_running reg : M world Endpoint) (shared (initial 10), new_mocks []) in
  (is_ok r && job_ready job w, (handle_scale_down_result self job result (∅, w)).2).

Definition test_handle_scale_down_result_refreshes_activity_when_nomad_is_busy : bool :=
  let '(before, (deferred, w)) :=
    handled "busy-job" (Err (NscaleError.DeploymentInProgress "busy-job" "scale down")) in
  before && assert_eq (record_activity_calls w.2) 1 && assert_eq (remove_activity_calls w.2) 0
  && job_ready "busy-job" w && bool_decide (is_Some (deferred !! "busy-job")).

Definition test_handle_scale_down_result_marks_dormant_on_success : bool :=
  let '(before, (_, w)) := handled "idle-job" (Ok tt) in
  before && assert_eq (record_activity_calls w.2) 0 && assert_eq (remove_activity_calls w.2) 1
  && negb (job_ready "idle-job" w).

(** A backoff that has not expired and one that has, as [Instant::now()] reads
    [instant]. *)
Definition test_deferred_job_skipped_until_backoff_expires (instant : Z) : bool :=
  let job_id := "deferred-job" in
  let later : deferred := <[job_id := instant + duration_from_secs 30]> ∅ in
  let past : deferred := <[job_id := instant - duration_from_secs 1]> later in
  match later !! job_id with Some entry => bool_decide (instant < entry) | None => false end
  && match past !! job_id with Some entry => bool_decide (entry <= instant) | None => false end.

Definition tests : list bool :=
  [test_scale_down_controller_single_tick;
   test_handle_scale_down_result_refreshes_activity_when_nomad_is_busy;
   test_handle_scale_down_result_marks_dormant_on_success;
   test_deferred_job_skipped_until_backoff_expires (duration_from_secs 1000)].
End ControllerTests.

Definition wake_tests : list bool := CoordinatorTests.tests ++ ControllerTests.tests.

(** Every test of the coordinator and the controller passes on the model. *)
Theorem wake_tests_pass : forallb id wake_tests = true.
Proof. vm_compute. reflexivity. Qed.
