(* ===== verification/Conformance.v ===== *)
(** * Conformance: the repository's unit tests on the model

    The tests of [TestsPure], [TestsHttp] and [TestsWake] together: all 67 of the
    repository's test functions, each with the inputs and the assertions it
    has there. *)

From S2P Require Import Prelude TestsPure TestsHttp TestsWake.

Definition repository_tests : list bool := pure_tests ++ http_tests ++ wake_tests.

(** The model behaves like the program where the program's own tests look:
    every unit test of the repository, run on the model's definitions, passes;
    the HTTP clients' requests match their mocks, the coordinator's concurrent
    tests run as executions of its interleaved steps. *)
Theorem repository_tests_pass : forallb id repository_tests = true.
Proof. vm_compute. reflexivity. Qed.
